(* ===== verification/_CoqProject ===== *)
-Q . S2P
Prelude.v
Error.v
Cmp.v
Types.v
Encoding.v
Concrete.v
BlockHandle.v
Filter.v
FilterBlock.v
Options.v
BlockLayout.v
BlockBuilder.v
Block.v
BlockProofs.v
BlockSafety.v
BlockRoundtrip.v
Cache.v
CacheProofs.v
TableFormat.v
TableBuilder.v
TableFormatProofs.v
TableBuilderProofs.v
TableBuilderTotal.v
TableDestinations.v
TableReader.v
TableSafety.v
TableReading.v
TableFiles.v
TableReaderProofs.v
TableRoundtrip.v
TableSize.v
RwSstable.v
TableDamage.v
TableEdges.v
TableThreads.v
TableConcurrent.v
TableQuirks.v
TestUtil.v
UnitTests.v
Witnesses.v
