(* ===== verification/Prelude.v ===== *)
(** * sstable: a verified model of the sorted string table library

    The library (src/src/) writes immutable files of sorted key-value pairs and
    reads them back: LevelDB's table format. This development translates its
    code to Rocq functions and proves what a client relies on: a table that was
    built answers lookups as the finite map of its pairs and iterates over them
    in order; plus the contracts of the parts this rests on, and the places
    where the code does not do what it means to. The example program that comes
    with the library is modelled too, down to the lines it prints.

    ** The parts and how they interact

    A [TableBuilder] (table_builder.rs) receives pairs in key order. It adds
    them to a [BlockBuilder] (block_builder.rs) and their keys to a
    [FilterBlockBuilder] (filter_block.rs), which makes one filter per 2 KiB of
    file through a [FilterPolicy] (filter.rs). When a block is full it is
    compressed, written with a type byte and a masked CRC (types.rs), and its
    [BlockHandle] (blockhandle.rs) goes into an index block under a separator of
    the neighbouring keys from the comparator (cmp.rs). [finish] writes the
    filter block, the metaindex block, the index block and the [Footer].
    [Table] (table_reader.rs) reads the footer and the index through
    table_block.rs, and fetches data blocks through a cache (cache.rs) that the
    tables of one [Options] (options.rs) share, behind a lock. [BlockIter] (block.rs) is the
    iterator over one block, [TableIterator] the one over the blocks of a table.

    ** Files

    - Prelude.v: outcomes of Rust code, byte strings and slices, machine
      integers, the notations [let!], [try!] and [assert!], generic lemmas, the
      hint database and tactics of the development.
    - Error.v (error.rs): [StatusCode], [Status], conversions, [Display].
    - Cmp.v (cmp.rs): the trait [Cmp] as a record, [DefaultCmp], and the laws
      its users need as classes: [CmpOrder], [CmpSep], [CmpNil].
    - Types.v (types.rs): [RandomAccess], [Shared] (a lock that a panic poisons),
      the class [SSIterator] with the default methods and boxed iterators,
      [current_key_val], [mask_crc], and the iterator contracts
      [SSIteratorForward], [SSIteratorSpec] and [SSIteratorBack]: what advancing,
      seeking and going back do to a cursor over a list of pairs.
    - Encoding.v: the crates integer-encoding, crc and snap as classes of
      operations and of documented laws. Concrete.v: one implementation of each.
    - BlockHandle.v (blockhandle.rs), Filter.v (filter.rs), FilterBlock.v
      (filter_block.rs), Options.v (options.rs): code and proofs together.
    - BlockLayout.v: the block format, the abstract side both the builder and the
      iterator are proved against. BlockBuilder.v (block_builder.rs), Block.v
      (block.rs). BlockProofs.v: the iterator is a cursor on well-formed blocks;
      BlockSafety.v: its loops end on any bytes; BlockRoundtrip.v: builder and
      iterator composed.
    - Cache.v (cache.rs): the list of boxed nodes with raw pointers, over an
      explicit heap. CacheProofs.v: its invariant and the refinement to an LRU map.
    - TableFormat.v (the footer of table_builder.rs, and table_block.rs),
      TableBuilder.v (table_builder.rs), TableReader.v (table_reader.rs): the
      code. TableFormatProofs.v: footers and stored blocks read back.
      TableBuilderProofs.v: what a finished builder has written;
      TableBuilderTotal.v: that it finishes; TableDestinations.v: that it writes
      the same to every destination, up to the failure of the destination.
      TableReading.v: lookups and iteration over a table given by its blocks
      ([table_view]), against the interface [BlockSource] of what gives an
      iterator its blocks. TableFiles.v: the file format ([table_file]), whoever
      wrote the file, opening such a file, and strict tables ([strict_table]),
      whose separators are below the next block. TableReaderProofs.v: a built
      table is in the format. TableRoundtrip.v: the theorems for clients. TableSize.v:
      bounds on a table's size from its pairs, and from them the theorems for
      clients with conditions on the pairs alone.
    - RwSstable.v (examples/rw_sstable/src/main.rs): the example program over a
      file system ([FileSystem], [FileSystemSpec], [WholeReads]), with what it
      prints.
    - TableSafety.v: no file makes the reader loop or corrupts the cache, or takes
      an integer out of its type.
      TableDamage.v: what is left of a table with damaged blocks. TableEdges.v:
      lookups, seeks and backward steps at the boundaries of blocks, with no
      condition on separators.
    - TableThreads.v: the operations of the reader again, as programs that stop
      where they take the lock, and pools of threads as a step relation.
      TableConcurrent.v: what threads get from tables over one cache, and what a
      panic under the lock does to them.
    - TableQuirks.v: complete runs, evaluated, of what the client theorems
      exclude by their hypotheses.
    - TestUtil.v (test_util.rs): the shared iterator test, proved for block and
      table iterators. UnitTests.v: the unit tests of the crate as runs of the
      model. Witnesses.v: each theorem with hypotheses at an instance.

    ** How the code is modelled

    A method that takes [&mut self] returns the new record. A call that may
    panic is an [outcome]: [Done], or [Fail] with the reason: [Panicked] for a
    failed assertion, [unwrap], index or overflow (debug semantics, as the tests
    run), [Undefined] for a read through a dangling pointer in the [unsafe] code
    of the cache, [OutOfFuel] for a loop of the model cut short. A [Result] is a
    value inside the outcome, and [try!] is the [?] operator. Integers are [Z]
    with the width written out where it matters ([U32], [U64]); hashes and CRCs
    wrap. Slices check their bounds as the code's do. Traits are records
    ([Cmp], [FilterPolicy]) or classes ([SSIterator], [Write]); a policy or a
    comparator is used only through its laws, which [DefaultCmp], [BloomPolicy]
    and [NoFilterPolicy] are proved to satisfy.

    The block cache is shared mutable state. It is not a field of [Options]:
    operations that use it take its state and return the next. They reach it
    through the interface [BlockSource] with the one operation [fetch_block],
    and what is proved of lookups and iterators holds for every source that
    gives the blocks of the table ([BlockSourceSpec]). The cache is one such
    source, and the theorems for clients quantify over its state. The lock around
    the cache is another, and so is a source that keeps a log of what is read:
    that is how the theorems carry over to interleavings.

    Threads are the programs of TableThreads.v ([table_get_t] for [Table::get],
    and so on): [Locked_operations_agree] shows that they are the operations of
    TableReader.v, cut where the code takes the lock. Between two such points a
    thread works on its own data and on data that nobody changes, so one step of
    a pool is one critical section; which thread is next is not determined. A
    critical section that panics poisons the lock, as [RwLock] does.

    The example program is written in a small monad ([IO]) over a [World]: the
    file system and the lines printed, which stay when the program panics.
    Creating, opening and closing files are operations of a class whose laws say
    what [std::fs] documents. That writes take whole buffers or fail
    ([WholeWrite]) and that reads neither fail nor stop short ([WholeReads]) it
    does not document: the crate does not check it, and [main_prints] has it as
    hypotheses. UTF-8 and the [Debug] form of strings are modelled,
    except for what [Debug] does to characters outside ASCII.

    ** Fuel

    Loops that are not structural carry fuel, each computed from its arguments:
    the length of the shorter key in [shared_loop], the bytes left before the
    restarts in the scans of the block iterator, the number of restarts in its
    binary search, the number of nodes in dropping a list, the bytes of the index
    in [TableIterator::advance]. Each is proved enough: [BlockIter_terminates] and
    [Table_safe_on_any_file] on arbitrary bytes, and the functional theorems give
    a [Done] result. Reading in a loop ([drain], [print_all], [read_table]) takes
    as much fuel as the file asks for: [Table_iteration_ends] and
    [read_table_ends] say that there is enough for every file, and
    [main_prints] that five calls are enough for four pairs. The one exception is
    [Display] for [Status], which does recurse forever: [Status_fmt_diverges]
    holds for every fuel.

    ** What the theorems show

    - From pairs to answers: [Table_stores_map] (building, opening, lookups and
      iteration, with conditions on the pairs and the options alone: among them
      that the pairs are [separable], the separator of two neighbours being below
      the second), and [main_prints], the same for the example program.
    - Tables: [Table_refines_map], [Table_roundtrip] and
      [TableIterator_refines_cursor] (lookups, iteration and moves; the first and
      the last for [separable] pairs), [Tables_share_cache] (several tables over
      one cache), and, with no condition on separators, [Table_get_sound],
      [Table_get_present], [TableIterator_seek_any] and [approx_offset_monotone];
      [Table_new_bad_file]. They speak of tables
      that were built ([built_table]), by a writer whose options may differ from
      the reader's in block size, restart interval and compression.
      [Table_reads_format] and the theorems on shared caches and threads speak of
      every strict table ([strict_table]: a file in the table format,
      [table_file], with separators below the next block).
      [TableBuilder_writes_format] shows that built tables are in the format, and
      strict when the pairs are [separable]; [TableBuilder_never_fails] and
      [TableBuilder_counts] show that building succeeds, what it counts and how
      large the file gets,
      [TableBuilder_any_destination] that it writes the same to files as to
      vectors, and [TableBuilder_dead_after_error] what is left after an error.
    - Threads: [Concurrent_clients] (every thread gets the answers of its map and
      of its list of pairs, in every interleaving), [Concurrent_clients_finish]
      (every schedule ends with all threads done), [Panic_poisons_clients],
      [Locked_operations_agree].
    - Files that were not built: [Table_safe_on_any_file], [Table_iteration_ends]
      and [Table_well_typed] (arbitrary contents), [Table_survives_damage] (a
      strict table, with its data blocks in front, of which some changed).
    - Stored blocks: [read_table_block_verifies], [table_block_roundtrip],
      [Footer_roundtrip], [BlockHandle_roundtrip], [crc_mask_roundtrip].
    - Blocks: [Block_contract], [Block_roundtrip], [Block_seek_finds_ge],
      [BlockIter_never_panics], [BlockBuilder_accepts_sorted],
      [BlockIter_terminates].
    - Cache: [Cache_refines_lru], [Cache_bounded], [Cache_remove_once].
    - Filters: [BloomPolicy_no_false_negatives], for keys and settings within 32
      bits, [BloomPolicy_size_wraps], just beyond, and
      [FilterBlock_no_false_negatives].
    - Separators: [find_shortest_sep_separates], [find_short_succ_shortest].
    - Deviations, in general: [Table_get_present] (keys that lookups miss),
      [TableIterator_seek_in_gap], [TableIterator_prev_first_repeats],
      [Cache_remove_last_breaks], [BloomPolicy_size_wraps],
      [FilterBlockReader_index_past_end], [BlockIter_prev_after_reset],
      [Status_fmt_diverges]. As examples: [TableBuilder_accepts_unsorted],
      [Table_get_no_filter_panics], [Cache_remove_breaks_list],
      [TableBuilder_ignores_short_writes], [Table_new_short_read_panics],
      [Table_get_foreign_filter].
    - The crate's own tests: [Unit_tests_pass]. Left out of it is the test of
      approximate offsets, which needs the exact size of what the Snappy crate
      makes of its data (the model has it as [test_table_approximate_offset]).

    ** Bounds

    Tables are below 4 GiB ([bt_size]), because filter offsets and block sizes
    are [u32] in the format. The builder theorems keep the size estimate below
    2 GiB, which keeps handles in their buffers; [small_input] is the condition on
    the pairs that ensures both: ten times the bytes of the pairs, with 34 bytes
    for each, and the filters at the policy's rate per key ([FilterPolicySized])
    are below 2 GiB. [block_size] is at least 8:
    an empty block builder already estimates 8 bytes, so that a smaller setting
    writes an empty block first. Keys are non-empty: the assertion of [add]
    compares with an empty previous key.

    ** Not modelled

    Memory: allocation always succeeds, also of a buffer whose size a damaged file
    says ([read_bytes]), and the stack is deep enough for the calls that
    [TableIterator::advance] makes of itself, one for every block in a row that is
    empty or cannot be read. The memory model below the lock: a critical section is one step, and a
    reader's lock (only the tests take one) is not distinguished from a writer's.
    What a writer that panicked left in the cache, which no code looks at. The
    operating system behind [File] (a file is the bytes it reads), and its
    Windows variant, which differs in the name of the call. The sources of the
    crates, which are not in the repository. lib.rs (re-exports) and benches/.
    What the example program leaves in its file when it panics while writing, and
    the failure of printing.

    ** Next

    A checker that decides whether a file is in the format ([table_file] is
    declarative). *)

From Stdlib Require Export ZArith Lia Strings.Byte.
From stdpp Require Export base list option countable gmap strings.

#[global] Set Default Goal Selector "!".
#[export] Set Warnings "-notation-overridden".

#[global] Open Scope Z_scope.

Declare Scope rust_scope.
Delimit Scope rust_scope with rust.

(** ** Outcomes of Rust code *)

(** How a call can fail to return: a panic ([assert!], a slice index out of
    range, [unwrap] of [None], arithmetic overflow under overflow checks), an
    access that is undefined behaviour in [unsafe] code, or a model loop that
    used up its fuel. *)
Inductive fault := Panicked | Undefined | OutOfFuel.

Inductive outcome (A : Type) :=
  | Done (a : A)
  | Fail (f : fault).
Arguments Done {A} a.
Arguments Fail {A} f.

Abbreviation Panic := (Fail Panicked).
Abbreviation Undef := (Fail Undefined).
Abbreviation NoFuel := (Fail OutOfFuel).

Definition bind {A B} (m : outcome A) (k : A → outcome B) : outcome B :=
  match m with
  | Done a => k a
  | Fail f => Fail f
  end.

Notation "'let!' x ':=' m 'in' k" := (bind m (λ x, k))
  (at level 10, x pattern, m at level 200, k at level 200,
   format "'[v' 'let!'  x  ':='  m  'in'  '/' k ']'") : rust_scope.
Notation "'assert!' b 'in' k" := (if b then k else Panic)
  (at level 10, b at level 200, k at level 200,
   format "'[v' 'assert!'  b  'in'  '/' k ']'") : rust_scope.
#[global] Open Scope rust_scope.

(** A call that returns normally, whatever it returns. *)
Definition returns {A} (m : outcome A) : Prop := ∃ a, m = Done a.

(** A call that returns or panics: the model's fuel suffices, and no access is
    undefined behaviour. *)
Definition terminates {A} (m : outcome A) : Prop :=
  match m with
  | Done _ | Fail Panicked => True
  | Fail _ => False
  end.

(** A call that returns a result with a property, or panics. *)
Definition ensures {A} (m : outcome A) (Q : A → Prop) : Prop :=
  match m with
  | Done a => Q a
  | Fail f => f = Panicked
  end.

Lemma bind_Done {A B} (m : outcome A) (k : A → outcome B) b :
  bind m k = Done b → ∃ a, m = Done a ∧ k a = Done b.
Proof. destruct m as [a|]; simpl; [|done]. eauto. Qed.

Lemma bind_assoc {A B C} (m : outcome A) (k : A → outcome B) (h : B → outcome C) :
  bind (bind m k) h = bind m (λ a, bind (k a) h).
Proof. by destruct m. Qed.

Lemma terminates_bind {A B} (m : outcome A) (k : A → outcome B) :
  terminates m → (∀ a, m = Done a → terminates (k a)) → terminates (bind m k).
Proof. destruct m as [a|[]]; simpl; eauto. Qed.

Lemma ensures_terminates {A} (m : outcome A) Q : ensures m Q → terminates m.
Proof. destruct m as [a|f]; simpl; [done|]. by intros ->. Qed.

Lemma ensures_intro {A} (m : outcome A) (Q : A → Prop) :
  terminates m → (∀ a, m = Done a → Q a) → ensures m Q.
Proof. destruct m as [a|[]]; simpl; eauto; done. Qed.

Lemma ensures_bind {A B} (m : outcome A) (k : A → outcome B) (P : A → Prop) (Q : B → Prop) :
  ensures m P → (∀ a, P a → ensures (k a) Q) → ensures (bind m k) Q.
Proof. destruct m as [a|f]; simpl; eauto. Qed.

Lemma terminates_Done {A} (a : A) : terminates (Done a).
Proof. done. Qed.

Lemma terminates_Panic {A} : @terminates A Panic.
Proof. done. Qed.

Lemma terminates_assert {A} (b : bool) (k : outcome A) :
  (b = true → terminates k) → terminates (if b then k else Panic).
Proof. destruct b; [auto|]. done. Qed.

Create HintDb rust.
#[export] Hint Resolve terminates_Done terminates_Panic : rust.

(** ** Machine integers *)

Definition U8 : Z := 2 ^ 8.
Definition U32 : Z := 2 ^ 32.
Definition U64 : Z := 2 ^ 64.

(** [x as u32], and the value of a wrapping [u32] operation. *)
Definition as_u32 (x : Z) : Z := x mod U32.
Definition as_u8 (x : Z) : Z := x mod U8.

(** [usize] addition and subtraction of values taken from the input (a 64-bit
    target, overflow checks on). *)
Definition uadd (a b : Z) : outcome Z := if a + b <? U64 then Done (a + b) else Panic.
Definition usub (a b : Z) : outcome Z := if b <=? a then Done (a - b) else Panic.

Lemma as_u32_small x : 0 ≤ x < U32 → as_u32 x = x.
Proof. intros. by apply Z.mod_small. Qed.

Lemma as_u32_range x : 0 ≤ as_u32 x < U32.
Proof. by apply Z.mod_pos_bound. Qed.

Lemma uadd_Done a b : a + b < U64 → uadd a b = Done (a + b).
Proof. intros H. unfold uadd. by rewrite (proj2 (Z.ltb_lt _ _) H). Qed.

Lemma usub_Done a b : b ≤ a → usub a b = Done (a - b).
Proof. intros H. unfold usub. by rewrite (proj2 (Z.leb_le _ _) H). Qed.

Lemma uadd_inv a b c : uadd a b = Done c → c = a + b ∧ a + b < U64.
Proof. unfold uadd. destruct (Z.ltb_spec (a + b) U64); intros [= <-]. lia. Qed.

Lemma usub_inv a b c : usub a b = Done c → c = a - b ∧ b ≤ a.
Proof. unfold usub. destruct (Z.leb_spec b a); intros [= <-]. lia. Qed.

Lemma terminates_uadd a b : terminates (uadd a b).
Proof. unfold uadd. by destruct (_ <? _). Qed.

Lemma terminates_usub a b : terminates (usub a b).
Proof. unfold usub. by destruct (_ <=? _). Qed.
#[export] Hint Resolve terminates_uadd terminates_usub : rust.

(** ** Bytes *)

Abbreviation bytes := (list byte).

Definition b2z (b : byte) : Z := Z.of_N (Byte.to_N b).

Definition z2b (z : Z) : byte :=
  match Byte.of_N (Z.to_N (z mod U8)) with
  | Some b => b
  | None => x00
  end.

Lemma b2z_range b : 0 ≤ b2z b < 256.
Proof. unfold b2z. pose proof (Byte.to_N_bounded b). lia. Qed.

Lemma b2z_z2b z : b2z (z2b z) = z mod 256.
Proof.
  unfold b2z, z2b, U8. change (2 ^ 8) with 256.
  pose proof (Z.mod_pos_bound z 256 eq_refl).
  destruct (Byte.of_N _) as [b|] eqn:E.
  - apply Byte.to_of_N in E. rewrite E. lia.
  - apply Byte.of_N_None_iff in E. lia.
Qed.

Lemma b2z_inj b1 b2 : b2z b1 = b2z b2 → b1 = b2.
Proof.
  unfold b2z. intros H%N2Z.inj.
  pose proof (Byte.of_to_N b1) as E1. pose proof (Byte.of_to_N b2) as E2.
  rewrite H in E1. congruence.
Qed.

Lemma z2b_b2z b : z2b (b2z b) = b.
Proof. apply b2z_inj. rewrite b2z_z2b. apply Z.mod_small, b2z_range. Qed.

#[export] Instance byte_eq_dec : EqDecision byte := Byte.byte_eq_dec.
#[export] Instance byte_inhabited : Inhabited byte := populate x00.
#[export] Program Instance byte_countable : Countable byte :=
  inj_countable Byte.to_N Byte.of_N _.
Next Obligation. apply Byte.of_to_N. Qed.

(** ** Lists as Rust vectors and slices *)

Definition len {A} (l : list A) : Z := Z.of_nat (length l).

(** [s.as_bytes()] of a literal *)
Definition as_bytes (s : string) : bytes := String.list_byte_of_string s.

(** [&l[i..j]], [&l[i..]] and [l[i]] *)
Definition slice {A} (l : list A) (i j : Z) : outcome (list A) :=
  if (0 <=? i) && (i <=? j) && (j <=? len l)
  then Done (take (Z.to_nat (j - i)) (drop (Z.to_nat i) l))
  else Panic.

Definition slice_from {A} (l : list A) (i : Z) : outcome (list A) := slice l i (len l).

Definition index {A} (l : list A) (i : Z) : outcome A :=
  if 0 <=? i then
    match l !! Z.to_nat i with
    | Some x => Done x
    | None => Panic
    end
  else Panic.

(** [l[i] = x] *)
Definition set_index {A} (l : list A) (i : Z) (x : A) : outcome (list A) :=
  if (0 <=? i) && (i <? len l) then Done (<[Z.to_nat i := x]> l) else Panic.

(** [Vec::truncate] and [Vec::resize] *)
Definition truncate {A} (l : list A) (n : Z) : list A := take (Z.to_nat n) l.
Definition vec_resize {A} (l : list A) (n : Z) (x : A) : list A := resize (Z.to_nat n) x l.

Lemma len_nonneg {A} (l : list A) : 0 ≤ len l.
Proof. unfold len. lia. Qed.

Lemma len_nil {A} : len (@nil A) = 0.
Proof. done. Qed.

Lemma len_app {A} (l k : list A) : len (l ++ k) = len l + len k.
Proof. unfold len. rewrite length_app. lia. Qed.

Lemma len_cons {A} (x : A) l : len (x :: l) = 1 + len l.
Proof. unfold len. simpl. lia. Qed.

Lemma len_to_nat {A} (l : list A) : Z.to_nat (len l) = length l.
Proof. unfold len. lia. Qed.
Create Rewrite HintDb rust.
#[export] Hint Rewrite @len_app @len_cons @len_nil @len_to_nat : rust.

Lemma slice_Done {A} (l : list A) i j :
  0 ≤ i ≤ j → j ≤ len l →
  slice l i j = Done (take (Z.to_nat (j - i)) (drop (Z.to_nat i) l)).
Proof.
  intros [??] ?. unfold slice.
  rewrite !(proj2 (Z.leb_le _ _)) by lia. done.
Qed.

Lemma slice_inv {A} (l : list A) i j r :
  slice l i j = Done r →
  0 ≤ i ≤ j ∧ j ≤ len l ∧ r = take (Z.to_nat (j - i)) (drop (Z.to_nat i) l).
Proof.
  unfold slice. destruct (_ && _) eqn:E; [|done]. intros [= <-].
  apply andb_prop in E as [[??]%andb_prop ?]. repeat split; lia.
Qed.

Lemma slice_inv_len {A} (l : list A) i j r : slice l i j = Done r → len r = j - i.
Proof.
  intros (?&?&->)%slice_inv. unfold len in *.
  rewrite length_take, length_drop. lia.
Qed.

(** The slice that a block layout names: the middle one of three segments. *)
Lemma slice_mid {A} (p m r : list A) i j :
  i = len p → j = len p + len m → slice (p ++ m ++ r) i j = Done m.
Proof.
  intros -> ->. pose proof (len_nonneg m). pose proof (len_nonneg p).
  rewrite slice_Done.
  - rewrite len_to_nat, drop_app_length.
    replace (len p + len m - len p) with (len m) by lia.
    by rewrite len_to_nat, take_app_length.
  - lia.
  - rewrite !len_app. pose proof (len_nonneg r). lia.
Qed.

Lemma slice_from_app {A} (p r : list A) i : i = len p → slice_from (p ++ r) i = Done r.
Proof.
  intros ->. unfold slice_from.
  rewrite <- (app_nil_r r) at 1. apply slice_mid; [done|]. by rewrite len_app.
Qed.

Lemma terminates_slice {A} (l : list A) i j : terminates (slice l i j).
Proof. unfold slice. by destruct (_ && _). Qed.

Lemma terminates_slice_from {A} (l : list A) i : terminates (slice_from l i).
Proof. apply terminates_slice. Qed.

Lemma terminates_index {A} (l : list A) i : terminates (index l i).
Proof. unfold index. destruct (0 <=? i); [|done]. by destruct (l !! _). Qed.
#[export] Hint Resolve terminates_slice terminates_slice_from terminates_index : rust.

Lemma index_Done {A} (l : list A) (i : nat) x : l !! i = Some x → index l (Z.of_nat i) = Done x.
Proof.
  intros H. unfold index. rewrite (proj2 (Z.leb_le _ _)) by lia. by rewrite Nat2Z.id, H.
Qed.

Lemma index_inv {A} (l : list A) i x : index l i = Done x → 0 ≤ i < len l ∧ l !! Z.to_nat i = Some x.
Proof.
  unfold index. destruct (Z.leb_spec 0 i); [|done].
  destruct (l !! Z.to_nat i) eqn:E; intros [= ->].
  apply lookup_lt_Some in E as ?. unfold len. split; [lia|done].
Qed.

(** Every index inside the list has an element. *)
Lemma index_Done_ex {A} (l : list A) i : 0 ≤ i < len l → ∃ x, index l i = Done x.
Proof.
  intros Hi. destruct (lookup_lt_is_Some_2 l (Z.to_nat i)) as [x Hx]; [unfold len in *; lia|].
  exists x. rewrite <- (Z2Nat.id i) by lia. by apply index_Done.
Qed.

Lemma index_app_middle {A} (p : list A) x r i : i = len p → index (p ++ x :: r) i = Done x.
Proof. intros ->. apply index_Done. by rewrite list_lookup_middle. Qed.

Lemma vec_resize_0 {A} (l : list A) x : vec_resize l 0 x = [].
Proof. by destruct l. Qed.

(** ** Folds *)

(** A fold whose step may fail. *)
Fixpoint foldM {A S} (f : A → S → outcome S) (l : list A) (s : S) : outcome S :=
  match l with
  | [] => Done s
  | x :: l => let! s := f x s in foldM f l s
  end.

Lemma foldM_app {A S} (f : A → S → outcome S) l1 l2 s :
  foldM f (l1 ++ l2) s = bind (foldM f l1 s) (foldM f l2).
Proof.
  revert s. induction l1 as [|x l1 IH]; intros s; simpl; [done|].
  destruct (f x s); simpl; [apply IH|done].
Qed.

(** ** Automation *)

(** Run a monadic definition whose next step is a hypothesis of the context. *)
Ltac step_with H := rewrite H; cbn [bind].

(** Turn the boolean tests of the context and the goal into propositions. *)
Ltac bool_to_prop :=
  repeat match goal with
  | H : (_ && _) = true |- _ => apply andb_prop in H as [? ?]
  | H : (_ <? _) = true |- _ => apply Z.ltb_lt in H
  | H : (_ <? _) = false |- _ => apply Z.ltb_ge in H
  | H : (_ <=? _) = true |- _ => apply Z.leb_le in H
  | H : (_ <=? _) = false |- _ => apply Z.leb_gt in H
  | H : (_ =? _) = true |- _ => apply Z.eqb_eq in H
  | H : (_ =? _) = false |- _ => apply Z.eqb_neq in H
  end.

(** Split a successful monadic run in the context into its steps. *)
Ltac run_inv :=
  repeat match goal with
  | H : bind _ _ = Done _ |- _ =>
      let a := fresh "r" in let H1 := fresh "Hrun" in
      apply bind_Done in H as (a & H1 & H)
  | H : (if ?b then _ else Panic) = Done _ |- _ =>
      let E := fresh "Eassert" in destruct b eqn:E; [|discriminate H]
  end; simplify_eq.

(** Termination goals: follow the monadic structure, close the leaves with the
    [rust] database. *)
Ltac solve_terminates :=
  repeat first
    [ solve [eauto with rust]
    | apply terminates_bind; [|intros ? ?]
    | apply terminates_assert; intros ?
    | case_match ].
