(* ===== verification/Error.v ===== *)
(** * Statuses and results (src/error.rs)

    [StatusCode], [Status] and [Result] with the conversions of io, lock and
    compression errors. [std::io::Error] is represented by what the conversion
    reads of it: its kind and its message; [snap::Error] and [PoisonError] by
    their messages. *)

From S2P Require Export Prelude.

Inductive StatusCode :=
  | OK
  | AlreadyExists
  | Corruption
  | CompressionError
  | IOError
  | InvalidArgument
  | InvalidData
  | LockError
  | NotFound
  | NotSupported
  | PermissionDenied
  | Unknown.

#[export] Instance StatusCode_eq_dec : EqDecision StatusCode.
Proof. solve_decision. Defined.

Record Status := mkStatus { code : StatusCode; err_msg : string }.

#[export] Instance Status_eq_dec : EqDecision Status.
Proof. solve_decision. Defined.

(** [#[derive(Debug)]] on the enum: a unit variant prints as its name. *)
Definition debug_code (c : StatusCode) : string :=
  match c with
  | OK => "OK"
  | AlreadyExists => "AlreadyExists"
  | Corruption => "Corruption"
  | CompressionError => "CompressionError"
  | IOError => "IOError"
  | InvalidArgument => "InvalidArgument"
  | InvalidData => "InvalidData"
  | LockError => "LockError"
  | NotFound => "NotFound"
  | NotSupported => "NotSupported"
  | PermissionDenied => "PermissionDenied"
  | Unknown => "Unknown"
  end%string.

Definition Status_default : Status := mkStatus OK "".

Definition Status_new (c : StatusCode) (msg : string) : Status :=
  mkStatus c
    (if decide (msg = ""%string) then debug_code c
     else (debug_code c +:+ ": " +:+ msg)%string).

(** The kinds of [std::io::ErrorKind] that the conversion tells apart. *)
Inductive io_ErrorKind :=
  | io_NotFound
  | io_InvalidData
  | io_InvalidInput
  | io_PermissionDenied
  | io_Other.

Record io_Error := mk_io_Error { io_kind : io_ErrorKind; io_msg : string }.

Definition from_io_Error (e : io_Error) : Status :=
  let c := match io_kind e with
           | io_NotFound => NotFound
           | io_InvalidData => Corruption
           | io_InvalidInput => InvalidArgument
           | io_PermissionDenied => PermissionDenied
           | io_Other => IOError
           end in
  Status_new c (io_msg e).

Definition from_PoisonError : Status := Status_new LockError "lock poisoned".

Record snap_Error := mk_snap_Error { snap_msg : string }.

Definition from_snap_Error (e : snap_Error) : Status := mkStatus CompressionError (snap_msg e).

(** The crate's [Result]. *)
Inductive result (A : Type) :=
  | Ok (a : A)
  | Err (e : Status).
Arguments Ok {A} a.
Arguments Err {A} e.

Definition err {A} (c : StatusCode) (msg : string) : result A := Err (Status_new c msg).

(** [m?]: continue with the value, or return the error at once. *)
Definition try_bind {A B} (m : outcome (result A)) (k : A → outcome (result B)) :
    outcome (result B) :=
  let! r := m in
  match r with
  | Ok a => k a
  | Err e => Done (Err e)
  end.

Notation "'let?' x ':=' m 'in' k" := (try_bind m (λ x, k))
  (at level 10, x pattern, m at level 200, k at level 200,
   format "'[v' 'let?'  x  ':='  m  'in'  '/' k ']'") : rust_scope.

(** [impl Display for Status]: [fmt] writes [self.to_string()], and
    [to_string] is the blanket [ToString] of a [Display] type, which runs [fmt]
    into an empty string. The fuel bounds the depth of the call stack. *)
Fixpoint Status_fmt (fuel : nat) (s : Status) (f : string) : outcome string :=
  match fuel with
  | O => NoFuel
  | S n => let! str := Status_fmt n s ""%string in Done (f +:+ str)%string
  end.

(** ** Properties *)

(** Formatting a [Status] with [Display] never returns: whatever the
    depth of the call stack, [fmt] calls itself once more through
    [to_string()]. *)
Theorem Status_fmt_diverges fuel s f : Status_fmt fuel s f = NoFuel.
Proof. revert f. induction fuel as [|n IH]; intros f; simpl; [done|]. by rewrite IH. Qed.

(** Converting an io error keeps the distinction between the four
    kinds the code names and maps every other kind to [IOError]; the message
    starts with the name of the chosen code and is never empty. *)
Theorem from_io_Error_spec e :
  (code (from_io_Error e) = NotFound ↔ io_kind e = io_NotFound) ∧
  (code (from_io_Error e) = Corruption ↔ io_kind e = io_InvalidData) ∧
  (code (from_io_Error e) = InvalidArgument ↔ io_kind e = io_InvalidInput) ∧
  (code (from_io_Error e) = PermissionDenied ↔ io_kind e = io_PermissionDenied) ∧
  (code (from_io_Error e) = IOError ↔ io_kind e = io_Other) ∧
  err_msg (from_io_Error e) ≠ ""%string.
Proof.
  destruct e as [k m]. unfold from_io_Error, Status_new. simpl.
  destruct k; simpl; repeat split; try done; by case_decide.
Qed.
