(* ===== verification/Cmp.v ===== *)
(** * Comparators (src/cmp.rs)

    The [Cmp] trait as a record of its methods, [DefaultCmp] as an instance,
    and the laws the rest of the library relies on as type classes that
    [DefaultCmp] satisfies. *)

From S2P Require Export Prelude.

(** The trait object [dyn Cmp]. *)
Record Cmp := mkCmp {
  cmp : bytes → bytes → comparison;
  find_shortest_sep : bytes → bytes → outcome bytes;
  find_short_succ : bytes → outcome bytes;
  cmp_id : string;
}.

(** ** DefaultCmp *)

Module DefaultCmp.

(** [a.cmp(b)] on byte slices: lexicographic. *)
Fixpoint bytes_cmp (a b : bytes) : comparison :=
  match a, b with
  | [], [] => Eq
  | [], _ :: _ => Lt
  | _ :: _, [] => Gt
  | x :: a', y :: b' =>
      match b2z x ?= b2z y with
      | Eq => bytes_cmp a' b'
      | c => c
      end
  end.

(** [while diff_at < min && a[diff_at] == b[diff_at] { diff_at += 1 }] *)
Fixpoint skip_common (fuel : nat) (a b : bytes) (min diff_at : Z) : outcome Z :=
  match fuel with
  | O => NoFuel
  | S n =>
      if diff_at <? min then
        let! x := index a diff_at in
        let! y := index b diff_at in
        if b2z x =? b2z y then skip_common n a b min (diff_at + 1) else Done diff_at
      else Done diff_at
  end.

(** The second loop; [Some sep] is its early return. *)
Fixpoint sep_loop (fuel : nat) (a b : bytes) (min diff_at : Z) : outcome (option bytes) :=
  match fuel with
  | O => NoFuel
  | S n =>
      if diff_at <? min then
        let! diff := index a diff_at in
        let! y := index b diff_at in
        if (b2z diff <? 255) && (b2z diff + 1 <? b2z y) then
          let! sep := slice a 0 (diff_at + 1) in
          let! d := index sep diff_at in
          let! sep := set_index sep diff_at (z2b (b2z d + 1)) in
          assert! (match bytes_cmp sep b with Lt => true | _ => false end) in
          Done (Some sep)
        else sep_loop n a b min (diff_at + 1)
      else Done None
  end.

Definition find_shortest_sep (a b : bytes) : outcome bytes :=
  if decide (a = b) then Done a else
  let min := if len a <? len b then len a else len b in
  let! diff_at := skip_common (S (length a)) a b min 0 in
  let! early := sep_loop (S (length a)) a b min diff_at in
  match early with
  | Some sep => Done sep
  | None => Done (a ++ [x00])
  end.

(** [for i in i..a.len()], [n] iterations left. *)
Fixpoint succ_loop (n : nat) (a : bytes) (i : Z) : outcome bytes :=
  match n with
  | O => Done (a ++ [z2b 255])
  | S n' =>
      let! x := index a i in
      if b2z x =? 255 then succ_loop n' a (i + 1)
      else
        let! result := set_index a i (z2b (b2z x + 1)) in
        Done (vec_resize result (i + 1) x00)
  end.

Definition find_short_succ (a : bytes) : outcome bytes := succ_loop (length a) a 0.

Definition id : string := "leveldb.BytewiseComparator".

End DefaultCmp.

Definition DefaultCmp : Cmp :=
  mkCmp DefaultCmp.bytes_cmp DefaultCmp.find_shortest_sep DefaultCmp.find_short_succ DefaultCmp.id.

(** ** What clients rely on *)

(** A comparator is a total preorder on byte strings. *)
Class CmpOrder (c : Cmp) : Prop := {
  cmp_refl a : cmp c a a = Eq;
  cmp_opp a b : cmp c b a = CompOpp (cmp c a b);
  cmp_lt_trans a b d : cmp c a b = Lt → cmp c b d = Lt → cmp c a d = Lt;
  cmp_eq_l a b d : cmp c a b = Eq → cmp c a d = cmp c b d;
}.

(** The separators it computes are where the index block needs them. *)
Class CmpSep (c : Cmp) : Prop := {
  find_shortest_sep_ok a b : cmp c a b = Lt →
    ∃ s, find_shortest_sep c a b = Done s ∧ cmp c a s = Lt ∧ cmp c s b ≠ Gt;
  find_short_succ_ok a : ∃ s, find_short_succ c a = Done s ∧ cmp c a s = Lt;
}.

(** No key is below the empty one. *)
Class CmpNil (c : Cmp) : Prop := { cmp_nil_least a : cmp c [] a ≠ Gt }.

Section order.
Context {c : Cmp} `{!CmpOrder c}.

Lemma cmp_gt_lt a b : cmp c a b = Gt ↔ cmp c b a = Lt.
Proof. rewrite (cmp_opp a b). by destruct (cmp c a b). Qed.

Lemma cmp_eq_sym a b : cmp c a b = Eq ↔ cmp c b a = Eq.
Proof. rewrite (cmp_opp a b). by destruct (cmp c a b). Qed.

Lemma cmp_eq_r a b d : cmp c a b = Eq → cmp c d a = cmp c d b.
Proof.
  intros H. rewrite (cmp_opp a d), (cmp_opp b d). by rewrite (cmp_eq_l a b d H).
Qed.

Lemma cmp_lt_irrefl a : cmp c a a ≠ Lt.
Proof. by rewrite cmp_refl. Qed.

(** [¬ a > b] is the order [≤] of the comparator. *)
Lemma cmp_lt_le_trans a b d : cmp c a b = Lt → cmp c b d ≠ Gt → cmp c a d = Lt.
Proof.
  intros H1 H2. destruct (cmp c b d) eqn:E; [|by eapply cmp_lt_trans|done].
  by rewrite <- (cmp_eq_r b d a).
Qed.

Lemma cmp_le_lt_trans a b d : cmp c a b ≠ Gt → cmp c b d = Lt → cmp c a d = Lt.
Proof.
  intros H1 H2. destruct (cmp c a b) eqn:E; [|by eapply cmp_lt_trans|done].
  by rewrite (cmp_eq_l a b d).
Qed.

Lemma cmp_le_trans a b d : cmp c a b ≠ Gt → cmp c b d ≠ Gt → cmp c a d ≠ Gt.
Proof.
  intros H1 H2. destruct (cmp c a b) eqn:E; [|by rewrite (cmp_lt_le_trans a b d)|done].
  by rewrite (cmp_eq_l a b d).
Qed.
End order.

(** ** DefaultCmp is lawful *)

Module DefaultCmpLaws.
Import DefaultCmp.

Lemma bytes_cmp_refl a : bytes_cmp a a = Eq.
Proof. induction a as [|x a IH]; simpl; [done|]. by rewrite Z.compare_refl. Qed.

Lemma bytes_cmp_eq a b : bytes_cmp a b = Eq → a = b.
Proof.
  revert b. induction a as [|x a IH]; intros [|y b]; simpl; try done.
  destruct (Z.compare_spec (b2z x) (b2z y)) as [E| |]; try done.
  intros ->%IH. by rewrite (b2z_inj x y).
Qed.

Lemma bytes_cmp_opp a b : bytes_cmp b a = CompOpp (bytes_cmp a b).
Proof.
  revert b. induction a as [|x a IH]; intros [|y b]; simpl; try done.
  rewrite (Z.compare_antisym (b2z x) (b2z y)).
  destruct (b2z x ?= b2z y); simpl; [apply IH|done|done].
Qed.

Lemma bytes_cmp_trans a b d : bytes_cmp a b = Lt → bytes_cmp b d = Lt → bytes_cmp a d = Lt.
Proof.
  revert b d. induction a as [|x a IH]; intros [|y b] [|z d]; simpl; try done.
  destruct (Z.compare_spec (b2z x) (b2z y)), (Z.compare_spec (b2z y) (b2z z));
    destruct (Z.compare_spec (b2z x) (b2z z)); try done; try lia. eauto.
Qed.

#[export] Instance DefaultCmp_order : CmpOrder DefaultCmp.
Proof.
  split; simpl.
  - apply bytes_cmp_refl.
  - apply bytes_cmp_opp.
  - apply bytes_cmp_trans.
  - by intros a b d ->%bytes_cmp_eq.
Qed.

(** *** Comparing strings with a common prefix *)

Lemma bytes_cmp_app p a b : bytes_cmp (p ++ a) (p ++ b) = bytes_cmp a b.
Proof. induction p as [|x p IH]; simpl; [done|]. by rewrite Z.compare_refl. Qed.

Lemma bytes_cmp_cons_lt x y a b : b2z x < b2z y → bytes_cmp (x :: a) (y :: b) = Lt.
Proof. intros H. simpl. by rewrite (proj2 (Z.compare_lt_iff _ _) H). Qed.

Lemma bytes_cmp_snoc a x r : bytes_cmp a (a ++ x :: r) = Lt.
Proof. rewrite <- (app_nil_r a) at 1. by rewrite bytes_cmp_app. Qed.

(** Where two strings in order first differ: [a] ends, or has the smaller byte. *)
Lemma bytes_cmp_lt_split a b :
  bytes_cmp a b = Lt →
  (∃ y r, b = a ++ y :: r) ∨
  (∃ p x y a' b', a = p ++ x :: a' ∧ b = p ++ y :: b' ∧ b2z x < b2z y).
Proof.
  revert b. induction a as [|x a IH]; intros [|y b]; simpl; try done.
  - intros _. left. by exists y, b.
  - destruct (Z.compare_spec (b2z x) (b2z y)) as [E|E|E]; [intros H|intros _|done].
    + apply b2z_inj in E as ->. destruct (IH _ H) as [(z&r&->)|(p&x'&y'&a'&b'&->&->&?)].
      * left. by exists z, r.
      * right. by exists (y :: p), x', y', a', b'.
    + right. by exists [], x, y, a, b.
Qed.

(** Nothing lies between [a] and [a ++ [0]]. *)
Lemma bytes_cmp_snoc0_le a y r : bytes_cmp (a ++ [x00]) (a ++ y :: r) ≠ Gt.
Proof.
  rewrite bytes_cmp_app. simpl. pose proof (b2z_range y).
  destruct (b2z y); [by destruct r|done|lia].
Qed.

(** *** The loops of [find_shortest_sep] *)

Lemma index_app_at {A} (p : list A) x r : index (p ++ x :: r) (len p) = Done x.
Proof. by apply index_app_middle. Qed.

(** On a common prefix [p], the first loop stops at its end. *)
Lemma skip_common_prefix p q a b min fuel :
  min ≤ len (q ++ p ++ a) → min ≤ len (q ++ p ++ b) →
  (min ≤ len (q ++ p) ∨
   ∃ x a' y b', a = x :: a' ∧ b = y :: b' ∧ b2z x ≠ b2z y) →
  len (q ++ p) ≤ min →
  (length p < fuel)%nat →
  skip_common fuel (q ++ p ++ a) (q ++ p ++ b) min (len q) = Done (len (q ++ p)).
Proof.
  revert q fuel. induction p as [|x p IH]; intros q [|fuel] Ha Hb Hstop Hmin Hf; simpl in Hf; try lia.
  - simpl in *. rewrite app_nil_r in *.
    destruct (Z.ltb_spec (len q) min) as [Hlt|]; [|done].
    destruct Hstop as [?|(x&a'&y&b'&->&->&Hne)]; [lia|].
    rewrite !index_app_at. cbn [bind].
    destruct (Z.eqb_spec (b2z x) (b2z y)); [congruence|done].
  - simpl. autorewrite with rust in *. pose proof (len_nonneg p).
    destruct (Z.ltb_spec (len q) min) as [_|]; [|lia].
    rewrite !index_app_at. cbn [bind]. rewrite Z.eqb_refl.
    assert (E : ∀ l : bytes, q ++ x :: l = (q ++ [x]) ++ l) by (intros; by rewrite <- app_assoc).
    rewrite (E (p ++ a)), (E (p ++ b)). replace (len q + 1) with (len (q ++ [x])) by (rewrite len_app; done).
    rewrite IH.
    + f_equal. rewrite !len_app, len_cons, len_nil. lia.
    + autorewrite with rust. lia.
    + autorewrite with rust. lia.
    + destruct Hstop as [?|?]; [left|by right]. autorewrite with rust. lia.
    + autorewrite with rust. lia.
    + lia.
Qed.

(** Counting up the byte after a common part of two keys, where there is room. *)
Lemma bump_between (p a b : bytes) x y k u v :
  b2z x < b2z y → len p ≤ k → (p ++ x :: a) !! Z.to_nat k = Some u → (p ++ y :: b) !! Z.to_nat k = Some v →
  b2z u < 255 → b2z u + 1 < b2z v →
  let s := take (Z.to_nat k) (p ++ x :: a) ++ [z2b (b2z u + 1)] in
  bytes_cmp (p ++ x :: a) s = Lt ∧ bytes_cmp s (p ++ y :: b) = Lt.
Proof.
  intros Hxy Hk Hu Hv H255 Huv. cbv zeta. pose proof (b2z_range u). apply lookup_lt_Some in Hu as Hlt.
  assert (Hbump : b2z (z2b (b2z u + 1)) = b2z u + 1) by (rewrite b2z_z2b; apply Z.mod_small; lia).
  assert (Hlen : length (take (Z.to_nat k) (p ++ x :: a)) = Z.to_nat k) by (rewrite length_take; lia).
  split.
  - rewrite <- (take_drop_middle (p ++ x :: a) (Z.to_nat k) u) at 1 by done.
    rewrite bytes_cmp_app. apply bytes_cmp_cons_lt. lia.
  - destruct (decide (k = len p)) as [->|Hne].
    + rewrite len_to_nat in *. rewrite take_app_length, bytes_cmp_app.
      rewrite list_lookup_middle in Hu, Hv by done. simplify_eq. apply bytes_cmp_cons_lt. lia.
    + rewrite take_app_ge by (unfold len in *; lia).
      replace (Z.to_nat k - length p)%nat with (S (Z.to_nat k - length p - 1)) by (unfold len in *; lia).
      simpl. rewrite <- app_assoc, bytes_cmp_app. by apply bytes_cmp_cons_lt.
Qed.

(** The last byte of a prefix, replaced. *)
Lemma replace_last (l : bytes) k u c :
  0 ≤ k → l !! Z.to_nat k = Some u →
  slice l 0 (k + 1) = Done (take (Z.to_nat k) l ++ [u]) ∧
  index (take (Z.to_nat k) l ++ [u]) k = Done u ∧
  set_index (take (Z.to_nat k) l ++ [u]) k c = Done (take (Z.to_nat k) l ++ [c]).
Proof.
  intros Hk Hu. apply lookup_lt_Some in Hu as Hlt.
  assert (Hlen : length (take (Z.to_nat k) l) = Z.to_nat k) by (rewrite length_take; lia).
  assert (Hkt : k = len (take (Z.to_nat k) l)) by (unfold len; rewrite Hlen; lia).
  split; [|split].
  - rewrite slice_Done by (unfold len; lia). f_equal. rewrite drop_0, <- (take_S_r _ _ u) by done. f_equal. lia.
  - rewrite Hkt at 2. apply index_app_at.
  - unfold set_index. rewrite (proj2 (Z.leb_le 0 k)), (proj2 (Z.ltb_lt k _)); [|rewrite len_app, len_cons, len_nil; lia|done].
    simpl. rewrite insert_app_r_alt by lia. by rewrite Hlen, Nat.sub_diag.
Qed.

(** The early return of the second loop, when the strings differ before [k]
  with the smaller byte in [a]: it bumps one byte of [a] at or after [k]. *)
Lemma sep_loop_cases (p a b : bytes) min fuel x y :
  b2z x < b2z y → min ≤ len (p ++ x :: a) → min ≤ len (p ++ y :: b) →
  ∀ k, len p ≤ k → (Z.to_nat (min - k) < fuel)%nat →
  sep_loop fuel (p ++ x :: a) (p ++ y :: b) min k = Done None ∨
  ∃ s, sep_loop fuel (p ++ x :: a) (p ++ y :: b) min k = Done (Some s) ∧
       bytes_cmp (p ++ x :: a) s = Lt ∧ bytes_cmp s (p ++ y :: b) = Lt.
Proof.
  intros Hxy Ha Hb. induction fuel as [|fuel IH]; intros k Hk Hf; [lia|]. simpl.
  pose proof (len_nonneg p).
  destruct (Z.ltb_spec k min) as [Hlt|]; [|by left].
  destruct (lookup_lt_is_Some_2 (p ++ x :: a) (Z.to_nat k)) as [u Hu]; [unfold len in *; lia|].
  destruct (lookup_lt_is_Some_2 (p ++ y :: b) (Z.to_nat k)) as [v Hv]; [unfold len in *; lia|].
  apply index_Done in Hu as Hu', Hv as Hv'. rewrite Z2Nat.id in Hu', Hv' by lia.
  rewrite Hu', Hv'. cbn [bind].
  destruct ((b2z u <? 255) && (b2z u + 1 <? b2z v)) eqn:Htest; [|apply IH; lia].
  bool_to_prop. right.
  destruct (replace_last (p ++ x :: a) k u (z2b (b2z u + 1))) as (Hsl&Hix&Hset); [lia|done|].
  rewrite Hsl. cbn [bind]. rewrite Hix. cbn [bind]. rewrite Hset. cbn [bind].
  destruct (bump_between p a b x y k u v) as [Hup Hdn]; [done..|]. rewrite Hdn. by eexists.
Qed.

Lemma sep_loop_past fuel a b min k : min ≤ k → sep_loop (S fuel) a b min k = Done None.
Proof. intros H. simpl. by destruct (Z.ltb_spec k min); [lia|]. Qed.

Lemma min_len (a b : bytes) : (if len a <? len b then len a else len b) = Z.min (len a) (len b).
Proof. destruct (Z.ltb_spec (len a) (len b)); lia. Qed.

(** The separator of two keys in order: past [a], and at most [b]. *)
Lemma find_shortest_sep_between a b :
  bytes_cmp a b = Lt →
  ∃ s, find_shortest_sep a b = Done s ∧ bytes_cmp a s = Lt ∧
       (bytes_cmp s b = Lt ∨ s = b ∧ b = a ++ [x00]).
Proof.
  intros Hlt. unfold find_shortest_sep. rewrite min_len.
  destruct (decide (a = b)) as [->|_]; [by rewrite bytes_cmp_refl in Hlt|].
  destruct (bytes_cmp_lt_split _ _ Hlt) as [(y&r&->)|(p&x&y&a'&b'&->&->&Hxy)].
  - pose proof (skip_common_prefix a [] [] (y :: r)
      (Z.min (len a) (len (a ++ y :: r))) (S (length a))) as Hskip.
    pose proof (len_nonneg r). cbn [app] in Hskip. rewrite !app_nil_r in Hskip.
    autorewrite with rust in *. rewrite Z.min_l in * by lia.
    change (len (@nil byte)) with 0 in Hskip.
    rewrite Hskip by (try left; autorewrite with rust; lia). cbn [bind].
    rewrite sep_loop_past by lia. cbn [bind]. eexists. split; [done|].
    split; [apply bytes_cmp_snoc|].
    rewrite bytes_cmp_app. simpl. pose proof (b2z_range y).
    destruct (b2z y) eqn:Ey; [|by left|lia].
    assert (y = x00) as -> by (apply b2z_inj; by rewrite Ey).
    destruct r; [by right|by left].
  - pose proof (skip_common_prefix p [] (x :: a') (y :: b')
      (Z.min (len (p ++ x :: a')) (len (p ++ y :: b'))) (S (length (p ++ x :: a')))) as Hskip.
    pose proof (len_nonneg a'). pose proof (len_nonneg b').
    cbn [app] in Hskip. change (len (@nil byte)) with 0 in Hskip.
    rewrite Hskip; [|lia|lia| |autorewrite with rust; lia|rewrite length_app; lia].
    2: { right. exists x, a', y, b'. repeat split; [lia..]. }
    cbn [bind].
    destruct (sep_loop_cases p a' b' (Z.min (len (p ++ x :: a')) (len (p ++ y :: b')))
      (S (length (p ++ x :: a'))) x y Hxy ltac:(lia) ltac:(lia) (len p))
      as [->|(s&->&?&?)]; [lia|unfold len; lia| |].
    + cbn [bind]. eexists. split; [done|]. split; [apply bytes_cmp_snoc|left].
      rewrite <- app_assoc, bytes_cmp_app. by apply bytes_cmp_cons_lt.
    + cbn [bind]. exists s. auto.
Qed.

(** *** [find_short_succ] *)

(** On a leading run of 0xff bytes [p], the loop reaches its end. *)
Lemma succ_loop_ff p q a n :
  Forall (λ x, b2z x = 255) p →
  succ_loop (length p + n) (q ++ p ++ a) (len q) = succ_loop n (q ++ p ++ a) (len (q ++ p)).
Proof.
  revert q. induction p as [|x p IH]; intros q Hff.
  - simpl. by rewrite app_nil_r.
  - apply Forall_cons in Hff as [Hx Hff]. cbn [length Nat.add succ_loop app].
    rewrite index_app_at. cbn [bind]. rewrite Hx, Z.eqb_refl.
    replace (len q + 1) with (len (q ++ [x])) by (rewrite len_app; done).
    rewrite (cons_middle x q (p ++ a)), (app_assoc q [x]), IH by done.
    f_equal. by rewrite <- app_assoc.
Qed.

Lemma ff_split (a : bytes) :
  ∃ p r, a = p ++ r ∧ Forall (λ x, b2z x = 255) p ∧
         (r = [] ∨ ∃ x r', r = x :: r' ∧ b2z x ≠ 255).
Proof.
  induction a as [|x a (p&r&->&Hp&Hr)]; [exists [], []; auto|].
  destruct (decide (b2z x = 255)).
  - exists (x :: p), r. auto.
  - exists [], (x :: p ++ r). split; [done|]. split; [done|]. right. eauto.
Qed.

Lemma find_short_succ_spec a :
  ∃ p s, Forall (λ x, b2z x = 255) p ∧ find_short_succ a = Done s ∧
    ((a = p ∧ s = p ++ [z2b 255]) ∨
     (∃ x r, a = p ++ x :: r ∧ b2z x ≠ 255 ∧ s = p ++ [z2b (b2z x + 1)])).
Proof.
  destruct (ff_split a) as (p&r&->&Hp&Hr). exists p.
  unfold find_short_succ. rewrite length_app.
  pose proof (succ_loop_ff p [] r (length r) Hp) as E. cbn [app] in E. change (len (@nil byte)) with 0 in E.
  rewrite E. clear E. destruct Hr as [->|(x&r'&->&Hx)].
  - rewrite app_nil_r. simpl. exists (p ++ [z2b 255]). auto 10.
  - cbn [length succ_loop]. rewrite index_app_at. cbn [bind].
    destruct (Z.eqb_spec (b2z x) 255) as [|_]; [done|].
    pose proof (len_nonneg p). pose proof (len_nonneg r').
    unfold set_index. rewrite (proj2 (Z.leb_le 0 _)) by lia.
    rewrite (proj2 (Z.ltb_lt (len p) _)) by (autorewrite with rust; lia). simpl.
    eexists. split; [done|]. split; [done|]. right. exists x, r'. split; [done|]. split; [done|].
    unfold vec_resize. rewrite len_to_nat, insert_app_r_alt, Nat.sub_diag by lia. simpl.
    rewrite cons_middle, app_assoc, resize_le.
    + apply take_app_length'. rewrite length_app. simpl. unfold len. lia.
    + rewrite !length_app. simpl. unfold len. lia.
Qed.

Lemma find_short_succ_gt a : ∃ s, find_short_succ a = Done s ∧ bytes_cmp a s = Lt.
Proof.
  destruct (find_short_succ_spec a) as (p&s&_&E&[[-> ->]|(x&r&->&Hx&->)]); eexists; split; try exact E.
  - apply bytes_cmp_snoc.
  - rewrite bytes_cmp_app. apply bytes_cmp_cons_lt. pose proof (b2z_range x).
    rewrite b2z_z2b, Z.mod_small; lia.
Qed.

#[export] Instance DefaultCmp_nil : CmpNil DefaultCmp.
Proof. split. by intros []. Qed.

#[export] Instance DefaultCmp_sep : CmpSep DefaultCmp.
Proof.
  split; simpl.
  - intros a b (s&E&?&Hle)%find_shortest_sep_between. exists s. split; [done|]. split; [done|].
    destruct Hle as [Hle|[-> _]]; [congruence|by rewrite bytes_cmp_refl].
  - apply find_short_succ_gt.
Qed.

(** A string past a run of 0xff bytes extends that run. *)
Lemma bytes_cmp_ff_lt p r t :
  Forall (λ x, b2z x = 255) p → bytes_cmp (p ++ r) t = Lt →
  ∃ t', t = p ++ t' ∧ bytes_cmp r t' = Lt.
Proof.
  revert t. induction p as [|x p IH]; intros t Hff Hlt; [eauto|].
  apply Forall_cons in Hff as [Hx Hff]. destruct t as [|y t]; [done|]. simpl in Hlt.
  destruct (Z.compare_spec (b2z x) (b2z y)) as [E| |]; [|pose proof (b2z_range y); lia|done].
  apply b2z_inj in E as ->. destruct (IH _ Hff Hlt) as (t'&->&?). by exists t'.
Qed.

Lemma terminates_set_index {A} (l : list A) i x : terminates (set_index l i x).
Proof. unfold set_index. by destruct (_ && _). Qed.
#[local] Hint Resolve terminates_set_index : rust.

Lemma skip_common_terminates fuel a b min k :
  (Z.to_nat (min - k) < fuel)%nat → terminates (skip_common fuel a b min k).
Proof.
  revert k. induction fuel as [|fuel IH]; intros k Hf; [lia|]. simpl.
  destruct (Z.ltb_spec k min); [|done].
  apply terminates_bind; [auto with rust|intros x _].
  apply terminates_bind; [auto with rust|intros y _].
  destruct (_ =? _); [|done]. apply IH. lia.
Qed.

Lemma sep_loop_terminates fuel a b min k :
  (Z.to_nat (min - k) < fuel)%nat → terminates (sep_loop fuel a b min k).
Proof.
  revert k. induction fuel as [|fuel IH]; intros k Hf; [lia|]. simpl.
  destruct (Z.ltb_spec k min); [|done].
  apply terminates_bind; [auto with rust|intros x _].
  apply terminates_bind; [auto with rust|intros y _].
  destruct (_ && _); [|apply IH; lia].
  repeat (apply terminates_bind; [auto with rust|intros ? _]). by destruct (bytes_cmp _ _).
Qed.

Lemma skip_common_ge fuel a b min k r : skip_common fuel a b min k = Done r → k ≤ r.
Proof.
  revert k. induction fuel as [|fuel IH]; intros k; [done|]. simpl.
  destruct (_ <? _); [|intros [= ->]; lia]. intros H. run_inv.
  destruct (_ =? _); [apply IH in H; lia|]. simplify_eq. lia.
Qed.

End DefaultCmpLaws.

(** ** Properties *)

Import DefaultCmpLaws.

(** C31. For keys in order, [find_shortest_sep a b] returns normally (its
    assertion holds) a separator strictly above [a] and at most [b]; it is
    strictly below [b], as its documentation says, unless [b] is [a] followed
    by a zero byte, and then it is [b] itself. *)
Theorem find_shortest_sep_separates a b :
  cmp DefaultCmp a b = Lt →
  ∃ s, find_shortest_sep DefaultCmp a b = Done s ∧ cmp DefaultCmp a s = Lt ∧
       (b ≠ a ++ [x00] → cmp DefaultCmp s b = Lt) ∧
       (b = a ++ [x00] → s = b).
Proof.
  intros H. destruct (find_shortest_sep_between a b H) as (s&E&Has&Hsb).
  exists s. split; [done|]. split; [done|]. split.
  - intros Hne. destruct Hsb as [?|[_ ?]]; done.
  - intros ->. destruct Hsb as [Hsb|[-> _]]; [|done]. exfalso.
    destruct (bytes_cmp_lt_split _ _ Has) as [(y&r&->)|(p&x&y&a'&r&->&->&Hxy)].
    + rewrite bytes_cmp_app in Hsb. simpl in Hsb. pose proof (b2z_range y).
      destruct (b2z y) eqn:Ey; [by destruct r|done|lia].
    + rewrite <- app_assoc, bytes_cmp_app in Hsb. simpl in Hsb.
      destruct (Z.compare_spec (b2z y) (b2z x)); [lia|lia|done].
Qed.

Lemma find_shortest_sep_separates_witness :
  cmp DefaultCmp [x61; x62] [x61; x66] = Lt ∧
  ∃ s, find_shortest_sep DefaultCmp [x61; x62] [x61; x66] = Done s ∧
       cmp DefaultCmp [x61; x62] s = Lt ∧
       ([x61; x66] ≠ [x61; x62] ++ [x00] → cmp DefaultCmp s [x61; x66] = Lt) ∧
       ([x61; x66] = [x61; x62] ++ [x00] → s = [x61; x66]).
Proof. split; [reflexivity|]. apply find_shortest_sep_separates. reflexivity. Defined.

(** [find_short_succ a] returns a string strictly above [a], and no
    string above [a] is shorter. *)
Theorem find_short_succ_shortest a :
  ∃ s, find_short_succ DefaultCmp a = Done s ∧ cmp DefaultCmp a s = Lt ∧
       ∀ t, cmp DefaultCmp a t = Lt → len s ≤ len t.
Proof.
  destruct (find_short_succ_gt a) as (s&E&Hgt). exists s. split; [done|]. split; [done|].
  intros t Ht. simpl in *.
  destruct (find_short_succ_spec a) as (p&s'&Hp&E'&Hs).
  rewrite E in E'. injection E' as <-. clear E Hgt.
  assert (∃ r x, a = p ++ r ∧ s = p ++ [x]) as (r&x&->&->).
  { destruct Hs as [[-> ->]|(x&r&->&_&->)]; [exists []|exists (x :: r)]; rewrite ?app_nil_r; eauto. }
  destruct (bytes_cmp_ff_lt p r t Hp Ht) as (t'&->&Ht'). autorewrite with rust.
  pose proof (len_nonneg t'). destruct t' as [|y t']; [by destruct r|].
  autorewrite with rust in *. pose proof (len_nonneg t'). lia.
Qed.

(** On any two arguments, in order or not, the two loops of
    [find_shortest_sep] terminate. *)
Theorem find_shortest_sep_terminates a b : terminates (find_shortest_sep DefaultCmp a b).
Proof.
  simpl. unfold DefaultCmp.find_shortest_sep. rewrite min_len.
  destruct (decide (a = b)); [done|].
  apply terminates_bind; [apply skip_common_terminates; unfold len; lia|].
  intros k Hk%skip_common_ge.
  apply terminates_bind; [apply sep_loop_terminates; unfold len; lia|].
  by intros [s|] _.
Qed.
