(* ===== verification/Types.v ===== *)
(** * Fundamental types (src/types.rs)

    The random-access trait and the file backed by a buffer, the iterator trait
    [SSIterator] with its default methods, and the CRC mask. *)

From S2P Require Export Prelude Error Cmp.

(** ** RandomAccess *)

(** [read_at(&self, off, dst)]: the number of bytes read and the new contents
    of the destination. *)
Record RandomAccess := mkRandomAccess {
  read_at : Z → bytes → outcome (result (Z * bytes));
}.

(** [impl RandomAccess for BufferBackedFile], that is for [Vec<u8>]. *)
Definition BufferBackedFile_read_at (self : bytes) (off : Z) (dst : bytes) :
    outcome (result (Z * bytes)) :=
  if len self <? off then Done (Ok (0, dst)) else
  let! remaining := usub (len self) off in
  let to_read := if remaining <? len dst then remaining else len dst in
  let! src := slice self off (off + to_read) in
  Done (Ok (to_read, src ++ drop (Z.to_nat to_read) dst)).

Definition BufferBackedFile (self : bytes) : RandomAccess :=
  mkRandomAccess (BufferBackedFile_read_at self).

(** [impl RandomAccess for File]: [FileExt::read_at] is the operating
    system's, an argument; the io error is converted by [?]. *)
Definition File (fileext_read_at : Z → bytes → (Z * bytes) + io_Error) : RandomAccess :=
  mkRandomAccess (λ off dst,
    match fileext_read_at off dst with
    | inl r => Done (Ok r)
    | inr e => Done (Err (from_io_Error e))
    end).

(** ** Shared values *)

(** [Shared<T>], that is [Arc<RwLock<T>>]: the value that all clones of the
    pointer reach, or the mark of a writer that panicked. What such a writer
    left behind is not modelled, as nothing looks at it: every access is
    [write()?]. *)
Inductive Shared (T : Type) :=
  | Unlocked (value : T)
  | Poisoned.
Arguments Unlocked {T} value.
Arguments Poisoned {T}.

Definition share {T} (t : T) : Shared T := Unlocked t.

(** The code from [let mut guard = self.write()?] to the end of the scope of the
    guard: nothing else happens to the value in between. *)
Definition write_section {T A} (body : T → outcome (result A * T)) (self : Shared T) :
    outcome (result A) * Shared T :=
  match self with
  | Unlocked t =>
      match body t with
      | Done (r, t) => (Done r, Unlocked t)
      | Fail f => (Fail f, Poisoned)
      end
  | Poisoned => (Done (Err from_PoisonError), Poisoned)
  end.

(** ** SSIterator *)

(** The trait's required methods over a state [It]; [&mut self] methods return
    the new state, [current] the new contents of its two out-parameters. *)
Class SSIterator (It : Type) := {
  advance : It → outcome (bool * It);
  current : It → bytes → bytes → outcome (bool * bytes * bytes);
  current_key : It → option bytes;
  seek : It → bytes → outcome It;
  reset : It → outcome It;
  valid : It → bool;
  prev : It → outcome (bool * It);
}.

Section SSIterator.
Context {It : Type} `{!SSIterator It}.

(** The trait's default methods. *)
Definition next (it : It) : outcome (option (bytes * bytes) * It) :=
  let! (more, it) := advance it in
  if negb more then Done (None, it) else
  let! (ok, key, val) := current it [] [] in
  if (ok : bool) then Done (Some (key, val), it) else Done (None, it).

Definition seek_to_first (it : It) : outcome It :=
  let! it := reset it in
  let! (_, it) := advance it in
  Done it.

Definition current_key_val (it : It) : outcome (option (bytes * bytes)) :=
  let! (ok, k, v) := current it [] [] in
  if (ok : bool) then Done (Some (k, v)) else Done None.
End SSIterator.

(** *** What an iterator promises

    An iterator over the pairs [kvs] is a cursor: at no pair ([None]), or at the
    [i]-th. [Rep] relates its states to cursor positions. *)

(** The first pair whose key is at least [to]. *)
Definition find_ge (c : Cmp) (to : bytes) (kvs : list (bytes * bytes)) : option nat :=
  fst <$> list_find (λ kv, cmp c kv.1 to ≠ Lt) kvs.

Definition cursor_succ (pos : option nat) : nat :=
  match pos with
  | None => 0
  | Some i => S i
  end.

Class SSIteratorForward {It : Type} (I : SSIterator It) (kvs : list (bytes * bytes))
    (Rep : It → option nat → Prop) : Prop := {
  rep_range it i : Rep it (Some i) → (i < length kvs)%nat;
  advance_more it pos kv : Rep it pos → kvs !! cursor_succ pos = Some kv →
    ∃ it', advance it = Done (true, it') ∧ Rep it' (Some (cursor_succ pos));
  advance_done it pos : Rep it pos → kvs !! cursor_succ pos = None →
    ∃ it', advance it = Done (false, it') ∧ Rep it' None;
  current_some it i kv k v : Rep it (Some i) → kvs !! i = Some kv →
    current it k v = Done (true, kv.1, kv.2);
  current_none it k v : Rep it None → current it k v = Done (false, k, v);
  current_key_rep it pos : Rep it pos → current_key it = (i ← pos; fst <$> kvs !! i);
  reset_rep it pos : Rep it pos → ∃ it', reset it = Done it' ∧ Rep it' None;
  valid_rep it pos : Rep it pos → valid it = bool_decide (is_Some pos);
}.

(** Positioning by key, in the order of [c]. *)
Class SSIteratorSpec {It : Type} (I : SSIterator It) (c : Cmp) (kvs : list (bytes * bytes))
    (Rep : It → option nat → Prop) : Prop := {
  #[global] spec_forward :: SSIteratorForward I kvs Rep;
  seek_rep it pos to : Rep it pos → ∃ it', seek it to = Done it' ∧ Rep it' (find_ge c to kvs);
}.

(** Going back. *)
Class SSIteratorBack {It : Type} (I : SSIterator It) (kvs : list (bytes * bytes))
    (Rep : It → option nat → Prop) : Prop := {
  prev_more it i : Rep it (Some (S i)) → ∃ it', prev it = Done (true, it') ∧ Rep it' (Some i);
  prev_done it : Rep it (Some 0%nat) → ∃ it', prev it = Done (false, it') ∧ Rep it' None;
}.

Section clients.
Context {It : Type} `{I : !SSIterator It} (kvs : list (bytes * bytes)).
Context (Rep : It → option nat → Prop) `{!SSIteratorForward I kvs Rep}.

(** [next] returns the pair after the cursor. *)
Lemma next_spec it pos :
  Rep it pos →
  ∃ it', next it = Done (kvs !! cursor_succ pos, it') ∧
         Rep it' (_ ← kvs !! cursor_succ pos; Some (cursor_succ pos)).
Proof.
  intros Hr. unfold next. destruct (kvs !! cursor_succ pos) as [kv|] eqn:E.
  - destruct (advance_more it pos kv Hr E) as (it'&->&Hr'). cbn [bind negb].
    rewrite (current_some it' (cursor_succ pos) kv) by done. cbn [bind]. exists it'. by destruct kv.
  - destruct (advance_done it pos Hr E) as (it'&->&Hr'). by exists it'.
Qed.

Lemma current_key_val_spec it pos :
  Rep it pos → current_key_val it = Done (i ← pos; kvs !! i).
Proof.
  intros Hr. unfold current_key_val. destruct pos as [i|].
  - destruct (lookup_lt_is_Some_2 kvs i) as [[k v] Hkv]; [by eapply rep_range|].
    rewrite (current_some it i (k, v)) by done. simpl. by rewrite Hkv.
  - by rewrite current_none.
Qed.

Lemma seek_to_first_spec it pos kv :
  Rep it pos → kvs !! 0%nat = Some kv →
  ∃ it', seek_to_first it = Done it' ∧ Rep it' (Some 0%nat).
Proof.
  intros Hr H0. unfold seek_to_first. destruct (reset_rep it pos Hr) as (it1&->&Hr1). cbn [bind].
  destruct (advance_more it1 None kv Hr1 H0) as (it2&->&Hr2). by exists it2.
Qed.

(** Collect the pairs [next] yields until it yields none, at most [fuel]. *)
Fixpoint drain (fuel : nat) (it : It) : outcome (list (bytes * bytes) * It) :=
  match fuel with
  | O => NoFuel
  | S n =>
      let! (kv, it) := next it in
      match kv with
      | None => Done ([], it)
      | Some kv => let! (l, it) := drain n it in Done (kv :: l, it)
      end
  end.

Lemma drain_spec fuel it pos :
  Rep it pos → (length kvs - cursor_succ pos < fuel)%nat →
  ∃ it', drain fuel it = Done (drop (cursor_succ pos) kvs, it') ∧ Rep it' None.
Proof.
  revert it pos. induction fuel as [|fuel IH]; intros it pos Hr Hf; [lia|]. simpl.
  destruct (next_spec it pos Hr) as (it1&->&Hr1). cbn [bind].
  destruct (kvs !! cursor_succ pos) as [kv|] eqn:E.
  - apply lookup_lt_Some in E as Hlt.
    destruct (IH it1 (Some (cursor_succ pos))) as (it2&->&Hr2); [done|simpl; lia|].
    cbn [bind]. exists it2. by rewrite (drop_S kvs kv (cursor_succ pos)) by done.
  - exists it1. split; [|done]. by rewrite drop_ge by (by apply lookup_ge_None).
Qed.
End clients.

(** ** Iterations that end *)

(** An iterator that cannot be advanced forever, and whose calls return or
    panic. *)
Inductive winds_down {It} `{!SSIterator It} (it : It) : Prop :=
  | winds : terminates (advance it) →
      (∀ it', advance it = Done (true, it') → winds_down it') →
      (∀ it', advance it = Done (true, it') → ∀ k v, terminates (current it' k v)) → winds_down it.

Lemma drain_winds_down {It} `{!SSIterator It} (it : It) :
  winds_down it → ∃ n, ∀ m, (n ≤ m)%nat → terminates (drain m it).
Proof.
  induction 1 as [it Ht _ IH Hcur]. unfold terminates in Ht. destruct (advance it) as [[[] it']|f] eqn:Ha.
  - destruct (IH it' eq_refl) as [n Hn]. exists (S n). intros [|m] Hm; [lia|]. cbn [drain]. unfold next. rewrite Ha.
    cbn [bind negb]. rewrite bind_assoc. apply terminates_bind; [by apply Hcur|]. intros [[ok k] v] _.
    destruct ok; cbn [bind]; [|done]. apply terminates_bind; [apply Hn; lia|]. by intros [l it2] _.
  - exists 1%nat. intros [|m] Hm; [lia|]. cbn [drain]. unfold next. by rewrite Ha.
  - exists 1%nat. intros [|m] Hm; [lia|]. cbn [drain]. unfold next. rewrite Ha. by destruct f.
Qed.

(** ** Boxed iterators *)

(** [Box<dyn SSIterator>]: a state of some type with its implementation of the
    trait, which the methods of the box call. *)
Record BoxSSIterator := Box {
  box_type : Type;
  box_impl : SSIterator box_type;
  box_state : box_type;
}.

Definition box_map {A} (self : BoxSSIterator) (m : outcome (A * box_type self)) : outcome (A * BoxSSIterator) :=
  let! (a, it) := m in Done (a, Box (box_type self) (box_impl self) it).

Definition box_set (self : BoxSSIterator) (m : outcome (box_type self)) : outcome BoxSSIterator :=
  let! it := m in Done (Box (box_type self) (box_impl self) it).

(** [impl SSIterator for Box<dyn SSIterator>] *)
#[export] Instance Box_SSIterator : SSIterator BoxSSIterator := {
  advance self := box_map self (@advance _ (box_impl self) (box_state self));
  current self := @current _ (box_impl self) (box_state self);
  current_key self := @current_key _ (box_impl self) (box_state self);
  seek self to := box_set self (@seek _ (box_impl self) (box_state self) to);
  reset self := box_set self (@reset _ (box_impl self) (box_state self));
  valid self := @valid _ (box_impl self) (box_state self);
  prev self := box_map self (@prev _ (box_impl self) (box_state self));
}.

(** [impl Iterator for dyn SSIterator]: [self.next()] is the trait object's own
    method, [SSIterator::next]. *)
Definition dyn_next (self : BoxSSIterator) : outcome (option (bytes * bytes) * BoxSSIterator) :=
  box_map self (@next _ (box_impl self) (box_state self)).

(** A box keeps the promises of what it holds. *)
Section box.
Context {It : Type} `{I : !SSIterator It} (c : Cmp) (kvs : list (bytes * bytes)).
Context (Rep : It → option nat → Prop).

Definition box_rep (self : BoxSSIterator) (pos : option nat) : Prop :=
  ∃ it, self = Box It I it ∧ Rep it pos.

#[local] Ltac unbox := unfold box_rep, box_map, box_set in *;
  repeat match goal with H : ∃ _, _ = Box _ _ _ ∧ _ |- _ => destruct H as (?&->&?) end; cbn in *.

Lemma box_forward : SSIteratorForward I kvs Rep → SSIteratorForward Box_SSIterator kvs box_rep.
Proof.
  intros HF. split.
  - intros. unbox. by eapply rep_range.
  - intros b pos kv Hb Hkv. unbox. edestruct @advance_more as (it'&->&?); [done..|]. cbn. eauto.
  - intros b pos Hb Hkv. unbox. edestruct @advance_done as (it'&->&?); [done..|]. cbn. eauto.
  - intros. unbox. by eapply current_some.
  - intros. unbox. by eapply current_none.
  - intros. unbox. by eapply current_key_rep.
  - intros b pos Hb. unbox. edestruct @reset_rep as (it'&->&?); [done..|]. cbn. eauto.
  - intros. unbox. by eapply valid_rep.
Qed.

Lemma Box_spec : SSIteratorSpec I c kvs Rep → SSIteratorSpec Box_SSIterator c kvs box_rep.
Proof.
  intros HS. split; [apply box_forward; apply HS|].
  intros b pos to Hb. unbox. edestruct @seek_rep as (it'&->&?); [done..|]. cbn. eauto.
Qed.

Lemma Box_back : SSIteratorBack I kvs Rep → SSIteratorBack Box_SSIterator kvs box_rep.
Proof.
  intros HB. split; intros b Hb.
  - intros Hr. unbox. edestruct @prev_more as (it'&->&?); [done..|]. cbn. eauto.
  - unbox. edestruct @prev_done as (it'&->&?); [done..|]. cbn. eauto.
Qed.
End box.

(** [Iterator::next] on the trait object and [SSIterator::next] of the box agree. *)
Lemma dyn_next_box (self : BoxSSIterator) : dyn_next self = next self.
Proof.
  unfold dyn_next, next, box_map. cbn. unfold box_map. rewrite !bind_assoc.
  destruct (advance _) as [[[] it]|]; cbn; [|done..]. rewrite bind_assoc.
  destruct (current it [] []) as [[[[] k] v]|]; done.
Qed.

(** ** The CRC mask *)

Definition MASK_DELTA : Z := 0xa282ead8.

(** [u32::wrapping_shr] and [wrapping_shl] by less than 32. *)
Definition u32_shr (x n : Z) : Z := Z.shiftr x n.
Definition u32_shl (x n : Z) : Z := as_u32 (Z.shiftl x n).

Definition mask_crc (c : Z) : Z :=
  as_u32 (Z.lor (u32_shr c 15) (u32_shl c 17) + MASK_DELTA).

Definition unmask_crc (mc : Z) : Z :=
  let rot := as_u32 (mc - MASK_DELTA) in
  Z.lor (u32_shr rot 17) (u32_shl rot 15).

(** *** Rotations *)

Lemma u32_bits_high x i : 0 ≤ x < U32 → 32 ≤ i → Z.testbit x i = false.
Proof.
  intros Hx Hi. rewrite <- (Z.mod_small x U32) by done. unfold U32.
  apply Z.mod_pow2_bits_high. lia.
Qed.

Definition rotl (x n : Z) : Z := Z.lor (u32_shr x (32 - n)) (u32_shl x n).

Lemma rotl_bits x n i : 0 < n < 32 → 0 ≤ x < U32 → 0 ≤ i →
  Z.testbit (rotl x n) i = (i <? 32) && Z.testbit x (if i <? n then i + 32 - n else i - n).
Proof.
  intros Hn Hx Hi. unfold rotl, u32_shr, u32_shl, as_u32, U32.
  rewrite Z.lor_spec, Z.shiftr_spec by lia.
  destruct (Z.ltb_spec i 32); simpl.
  - rewrite Z.mod_pow2_bits_low, Z.shiftl_spec by lia.
    destruct (Z.ltb_spec i n).
    + rewrite (Z.testbit_neg_r x (i - n)), orb_false_r by lia. f_equal. lia.
    + rewrite (u32_bits_high x (i + (32 - n))) by (done || lia). done.
  - rewrite Z.mod_pow2_bits_high, orb_false_r by lia.
    apply u32_bits_high; [done|lia].
Qed.

Lemma rotl_range x n : 0 < n < 32 → 0 ≤ x < U32 → 0 ≤ rotl x n < U32.
Proof.
  intros Hn Hx. assert (0 ≤ rotl x n).
  { apply Z.lor_nonneg. split; [apply Z.shiftr_nonneg; lia|apply as_u32_range]. }
  split; [done|].
  assert (E : rotl x n = rotl x n mod U32); [|rewrite E; apply Z.mod_pos_bound; done].
  apply Z.bits_inj'. intros i Hi. unfold U32.
  destruct (Z.ltb_spec i 32).
  - by rewrite Z.mod_pow2_bits_low by lia.
  - rewrite Z.mod_pow2_bits_high by lia. rewrite rotl_bits by lia.
    by destruct (Z.ltb_spec i 32); [lia|].
Qed.

Lemma rotl_inv x n : 0 < n < 32 → 0 ≤ x < U32 → rotl (rotl x n) (32 - n) = x.
Proof.
  intros Hn Hx. apply Z.bits_inj'. intros i Hi.
  rewrite rotl_bits by (try apply rotl_range; lia).
  destruct (Z.ltb_spec i 32); simpl; [|by rewrite u32_bits_high].
  destruct (Z.ltb_spec i (32 - n)).
  - rewrite rotl_bits by lia. destruct (Z.ltb_spec (i + 32 - (32 - n)) 32); [|lia].
    destruct (Z.ltb_spec (i + 32 - (32 - n)) n); [lia|]. simpl. f_equal. lia.
  - rewrite rotl_bits by lia. destruct (Z.ltb_spec (i - (32 - n)) 32); [|lia].
    destruct (Z.ltb_spec (i - (32 - n)) n); [|lia]. simpl. f_equal. lia.
Qed.

Lemma mask_crc_rotl c : mask_crc c = as_u32 (rotl c 17 + MASK_DELTA).
Proof. done. Qed.

Lemma unmask_crc_rotl c : unmask_crc c = rotl (as_u32 (c - MASK_DELTA)) 15.
Proof. done. Qed.

Lemma unmask_mask c : 0 ≤ c < U32 → unmask_crc (mask_crc c) = c.
Proof.
  intros Hc. rewrite mask_crc_rotl, unmask_crc_rotl. unfold as_u32.
  rewrite Zminus_mod_idemp_l, Z.add_simpl_r.
  rewrite Z.mod_small by (apply rotl_range; lia). by apply (rotl_inv c 17).
Qed.

Lemma mask_unmask c : 0 ≤ c < U32 → mask_crc (unmask_crc c) = c.
Proof.
  intros Hc. rewrite mask_crc_rotl, unmask_crc_rotl.
  pose proof (as_u32_range (c - MASK_DELTA)).
  rewrite (rotl_inv _ 15) by (done || lia). unfold as_u32.
  rewrite Zplus_mod_idemp_l, Z.sub_simpl_r. by apply Z.mod_small.
Qed.

(** ** Properties *)

(** Masking and unmasking a CRC are inverse to each other on 32-bit
    values, in both orders. *)
Theorem crc_mask_roundtrip c :
  0 ≤ c < U32 → unmask_crc (mask_crc c) = c ∧ mask_crc (unmask_crc c) = c.
Proof. intros. split; [by apply unmask_mask|by apply mask_unmask]. Qed.

Lemma crc_mask_roundtrip_witness :
  0 ≤ 0xcafebabe < U32 ∧
  unmask_crc (mask_crc 0xcafebabe) = 0xcafebabe ∧ mask_crc (unmask_crc 0xcafebabe) = 0xcafebabe.
Proof. split; [by vm_compute|]. apply crc_mask_roundtrip. by vm_compute. Defined.

(** Reading from a buffer at an offset inside it fills the
    destination with the bytes of the buffer from that offset, as many as both
    hold, leaves the rest of the destination unchanged and reports the number
    of bytes; reading past the end reads nothing. It never panics. *)
Theorem BufferBackedFile_read (self dst : bytes) off :
  0 ≤ off →
  ∃ n dst', read_at (BufferBackedFile self) off dst = Done (Ok (n, dst')) ∧
    n = Z.max 0 (Z.min (len dst) (len self - off)) ∧
    dst' = take (Z.to_nat n) (drop (Z.to_nat off) self) ++ drop (Z.to_nat n) dst ∧
    len dst' = len dst.
Proof.
  intros Hoff. simpl. unfold BufferBackedFile_read_at.
  pose proof (len_nonneg self). pose proof (len_nonneg dst).
  destruct (Z.ltb_spec (len self) off).
  - exists 0, dst. split; [done|]. split; [lia|]. auto.
  - rewrite usub_Done by lia. cbn [bind].
    replace (if len self - off <? len dst then len self - off else len dst)
      with (Z.min (len dst) (len self - off)) by (destruct (Z.ltb_spec (len self - off) (len dst)); lia).
    rewrite slice_Done by lia. cbn [bind]. rewrite Z.add_simpl_l.
    eexists _, _. split; [done|]. split; [lia|]. split; [done|].
    unfold len in *. rewrite length_app, length_take, !length_drop. lia.
Qed.

Lemma BufferBackedFile_read_witness :
  0 ≤ 1 ∧ ∃ n dst', read_at (BufferBackedFile [x01; x02; x03]) 1 [x00; x00; x00] = Done (Ok (n, dst')) ∧
    n = Z.max 0 (Z.min (len [x00; x00; x00]) (len [x01; x02; x03] - 1)) ∧
    dst' = take (Z.to_nat n) (drop (Z.to_nat 1) [x01; x02; x03]) ++ drop (Z.to_nat n) [x00; x00; x00] ∧
    len dst' = len [x00; x00; x00].
Proof. split; [lia|]. apply BufferBackedFile_read. lia. Defined.
