(* ===== verification/Encoding.v ===== *)
(** * The crates the code calls (no file of src/)

    [integer_encoding], [crc] and [snap] are dependencies whose source is not
    part of the repository. Each is a class of operations, an argument of the
    definitions that call it, and a class of the documented laws the theorems
    use. [Concrete.v] has one implementation of each, for the witnesses. *)

From S2P Require Export Prelude Error.

(** ** integer_encoding: varints and fixed-width little-endian integers *)

Class IntegerEncoding := {
  (** the bytes [usize::encode_var] and [write_varint] produce *)
  encode_var : Z → bytes;
  (** [usize::decode_var]: the value and how many bytes it took *)
  decode_var : bytes → option (Z * Z);
  (** [required_space()]: the length of the encoding *)
  required_space : Z → Z;
  (** [u32] and [u64] as 4 and 8 bytes, and [u32::decode_fixed] of 4 bytes *)
  encode_fixed32 : Z → bytes;
  decode_fixed32 : bytes → Z;
  encode_fixed64 : Z → bytes;
}.

Class IntegerEncodingSpec (E : IntegerEncoding) : Prop := {
  decode_encode_var x r : 0 ≤ x < U64 → decode_var (encode_var x ++ r) = Some (x, len (encode_var x));
  decode_var_bounds bs x n : decode_var bs = Some (x, n) → 0 ≤ x < U64 ∧ 1 ≤ n ≤ len bs;
  required_space_len x : 0 ≤ x < U64 → required_space x = len (encode_var x);
  (** seven payload bits per byte *)
  encode_var_len x n : 0 ≤ x < U64 → 1 ≤ n → x < 2 ^ (7 * n) → len (encode_var x) ≤ n;
  encode_var_nonempty x : 1 ≤ len (encode_var x);
  encode_fixed32_len x : len (encode_fixed32 x) = 4;
  decode_encode_fixed32 x : 0 ≤ x < U32 → decode_fixed32 (encode_fixed32 x) = x;
  decode_fixed32_range bs : 0 ≤ decode_fixed32 bs < U32;
  encode_fixed64_len x : len (encode_fixed64 x) = 8;
  encode_fixed64_inj x y : 0 ≤ x < U64 → 0 ≤ y < U64 → encode_fixed64 x = encode_fixed64 y → x = y;
}.

Section calls.
Context `{E : IntegerEncoding}.

(** [usize::decode_var(bs).unwrap()] *)
Definition decode_var_unwrap (bs : bytes) : outcome (Z * Z) :=
  match decode_var bs with
  | Some r => Done r
  | None => Panic
  end.

(** [x.encode_var(&mut dst[off..])]: writes the encoding at [off], or panics
    when it does not fit; returns its length. *)
Definition encode_var_at (dst : bytes) (off : Z) (x : Z) : outcome (bytes * Z) :=
  let e := encode_var x in
  let! front := slice dst 0 off in
  let! back := slice_from dst (off + len e) in
  Done (front ++ e ++ back, len e).

(** [(&mut dst[off..]).write_fixedint(..)] and [encode_fixed(&mut dst[off..off+n])]
    with the [n]-byte encoding [e] *)
Definition write_bytes_at (dst : bytes) (off : Z) (e : bytes) : outcome bytes :=
  let! front := slice dst 0 off in
  let! back := slice_from dst (off + len e) in
  Done (front ++ e ++ back).

Lemma terminates_decode_var_unwrap bs : terminates (decode_var_unwrap bs).
Proof. unfold decode_var_unwrap. by destruct (decode_var bs). Qed.

Context `{!IntegerEncodingSpec E}.

Lemma decode_var_unwrap_Done x r :
  0 ≤ x < U64 → decode_var_unwrap (encode_var x ++ r) = Done (x, len (encode_var x)).
Proof. intros. unfold decode_var_unwrap. by rewrite decode_encode_var. Qed.

Lemma decode_var_unwrap_inv bs x n :
  decode_var_unwrap bs = Done (x, n) → 0 ≤ x < U64 ∧ 1 ≤ n ≤ len bs.
Proof.
  unfold decode_var_unwrap. destruct (decode_var bs) as [[??]|] eqn:D; intros [= -> ->].
  by apply decode_var_bounds.
Qed.

Lemma write_bytes_at_mid (p m r e : bytes) off :
  off = len p → len m = len e → write_bytes_at (p ++ m ++ r) off e = Done (p ++ e ++ r).
Proof.
  intros -> Hm. unfold write_bytes_at.
  pose proof (slice_mid [] p (m ++ r) 0 (len p) eq_refl eq_refl) as Hs. cbn [app] in Hs.
  rewrite Hs. cbn [bind]. rewrite app_assoc, slice_from_app; [done|]. by rewrite len_app, Hm.
Qed.
End calls.
#[export] Hint Resolve terminates_decode_var_unwrap : rust.

(** ** Arrays of 32-bit integers *)

Section u32s.
Context `{E : IntegerEncoding, !IntegerEncodingSpec E}.

(** The concatenated 4-byte encodings of [x as u32]. *)
Definition u32s (l : list Z) : bytes := mjoin ((λ x, encode_fixed32 (as_u32 x)) <$> l).

Lemma len_u32s l : len (u32s l) = 4 * len l.
Proof.
  unfold u32s. induction l as [|x l IH]; [done|]. cbn.
  change (len (encode_fixed32 (as_u32 x) ++ u32s l) = 4 * len (x :: l)).
  rewrite len_app, encode_fixed32_len, len_cons. unfold u32s. rewrite IH. lia.
Qed.

Lemma u32s_app l k : u32s (l ++ k) = u32s l ++ u32s k.
Proof. unfold u32s. by rewrite fmap_app, join_app. Qed.

(** The [i]-th integer of a serialized list. *)
Lemma u32s_lookup l (i : nat) x :
  l !! i = Some x → ∃ a b, u32s l = a ++ encode_fixed32 (as_u32 x) ++ b ∧ len a = 4 * Z.of_nat i.
Proof.
  intros H. exists (u32s (take i l)), (u32s (drop (S i) l)).
  rewrite <- (take_drop_middle l i x H) at 1. rewrite u32s_app. split; [done|].
  rewrite len_u32s. apply lookup_lt_Some in H. unfold len. rewrite length_take. lia.
Qed.
End u32s.

(** ** crc: CRC-32C *)

(** The checksum of a byte string; a [Digest] that was fed several slices
    finalizes to the checksum of their concatenation. *)
Class Crc32c := { crc32c : bytes → Z }.

Class Crc32cSpec (C : Crc32c) : Prop := { crc32c_range bs : 0 ≤ crc32c bs < U32 }.

(** ** snap: Snappy compression *)

Class Snappy := {
  compress_vec : bytes → bytes + snap_Error;
  decompress_vec : bytes → bytes + snap_Error;
}.

Class SnappySpec (S : Snappy) : Prop := {
  decompress_compress bs c : compress_vec bs = inl c → decompress_vec c = inl bs;
  (** longer input is an error *)
  compress_input_len bs c : compress_vec bs = inl c → len bs < U32;
}.
