(* ===== verification/Concrete.v ===== *)
(** * One implementation of the crates

    Little-endian base-128 varints, fixed-width integers, CRC-32C and Snappy
    streams of one literal, with the proofs that they satisfy the laws of
    Encoding.v. The witnesses of the theorems and the worked examples evaluate
    the model with them. *)

From S2P Require Export Encoding.

(** ** Varints *)

(** Groups of seven bits, the least significant first, the high bit set on all
    bytes but the last. *)
Fixpoint leb_encode (fuel : nat) (x : Z) : bytes :=
  match fuel with
  | O => [z2b x]
  | S n => if x <? 128 then [z2b x] else z2b (x mod 128 + 128) :: leb_encode n (x / 128)
  end.

Fixpoint leb_decode (bs : bytes) : option (Z * Z) :=
  match bs with
  | [] => None
  | b :: r =>
      if b2z b <? 128 then Some (b2z b, 1)
      else '(y, n) ← leb_decode r; Some (b2z b - 128 + 128 * y, n + 1)
  end.

Lemma leb_decode_encode fuel x r :
  0 ≤ x < 128 ^ (Z.of_nat fuel + 1) →
  leb_decode (leb_encode fuel x ++ r) = Some (x, len (leb_encode fuel x)).
Proof.
  assert (Hlast : ∀ x, 0 ≤ x < 128 → leb_decode ([z2b x] ++ r) = Some (x, 1)).
  { intros y Hy. cbn [app leb_decode]. rewrite b2z_z2b, Z.mod_small by lia.
    by rewrite (proj2 (Z.ltb_lt _ _)) by lia. }
  revert x. induction fuel as [|fuel IH]; intros x Hx.
  - apply Hlast. lia.
  - cbn [leb_encode]. destruct (Z.ltb_spec x 128); [apply Hlast; lia|].
    pose proof (Z.mod_pos_bound x 128). rewrite <- app_comm_cons. cbn [leb_decode].
    rewrite b2z_z2b, (Z.mod_small (x mod 128 + 128)) by lia.
    rewrite (proj2 (Z.ltb_ge _ _)) by lia. rewrite IH.
    + cbn. rewrite len_cons. f_equal. f_equal; [|lia]. rewrite (Z.div_mod x 128) at 3 by lia. lia.
    + split; [apply Z.div_pos; lia|]. apply Z.div_lt_upper_bound; [lia|].
      rewrite Nat2Z.inj_succ, <- Z.add_1_r, Z.pow_add_r in Hx by lia. lia.
Qed.

Lemma leb_decode_bounds bs x n : leb_decode bs = Some (x, n) → 0 ≤ x ∧ 1 ≤ n ≤ len bs.
Proof.
  revert x n. induction bs as [|b r IH]; intros x n; cbn [leb_decode]; [done|].
  pose proof (b2z_range b). rewrite len_cons. pose proof (len_nonneg r).
  destruct (Z.ltb_spec (b2z b) 128); [intros [= <- <-]; lia|].
  destruct (leb_decode r) as [[y k]|]; cbn; intros [= <- <-]. specialize (IH y k eq_refl). lia.
Qed.

Lemma leb_encode_nonempty fuel x : 1 ≤ len (leb_encode fuel x).
Proof.
  destruct fuel; [done|]. cbn [leb_encode]. destruct (x <? 128); [done|]. rewrite len_cons.
  pose proof (len_nonneg (leb_encode fuel (x / 128))). lia.
Qed.

Lemma leb_encode_len fuel (k : nat) x : 0 ≤ x < 128 ^ (Z.of_nat k + 1) →
  len (leb_encode fuel x) ≤ Z.of_nat k + 1.
Proof.
  revert k x. induction fuel as [|fuel IH]; intros k x Hx; [change (len _) with 1; lia|].
  cbn [leb_encode]. destruct (Z.ltb_spec x 128); [change (len _) with 1; lia|].
  destruct k as [|k]; [lia|]. rewrite len_cons.
  cut (len (leb_encode fuel (x / 128)) ≤ Z.of_nat k + 1); [lia|]. apply IH.
  split; [apply Z.div_pos; lia|]. apply Z.div_lt_upper_bound; [lia|].
  rewrite Nat2Z.inj_succ, <- Z.add_1_r, Z.pow_add_r in Hx by lia. lia.
Qed.

(** ** Fixed-width integers *)

Fixpoint le_encode (n : nat) (x : Z) : bytes :=
  match n with
  | O => []
  | S n => z2b x :: le_encode n (x / 256)
  end.

Fixpoint le_decode (n : nat) (bs : bytes) : Z :=
  match n, bs with
  | S n, b :: r => b2z b + 256 * le_decode n r
  | _, _ => 0
  end.

Lemma le_decode_encode n x : 0 ≤ x < 256 ^ Z.of_nat n → le_decode n (le_encode n x) = x.
Proof.
  revert x. induction n as [|n IH]; intros x Hx; cbn [le_decode le_encode].
  - change (256 ^ Z.of_nat 0) with 1 in Hx. lia.
  - rewrite b2z_z2b, IH.
    + rewrite (Z.div_mod x 256) at 3 by lia. lia.
    + rewrite Nat2Z.inj_succ, <- Z.add_1_r, Z.pow_add_r in Hx by lia.
      split; [apply Z.div_pos; lia|]. apply Z.div_lt_upper_bound; lia.
Qed.

Lemma le_decode_range n bs : 0 ≤ le_decode n bs < 256 ^ Z.of_nat n.
Proof.
  revert bs. induction n as [|n IH]; intros bs; [done|].
  rewrite Nat2Z.inj_succ, <- Z.add_1_r, Z.pow_add_r by lia. change (256 ^ 1) with 256.
  pose proof (Z.pow_pos_nonneg 256 (Z.of_nat n)).
  destruct bs as [|b r]; cbn [le_decode]; [lia|]. specialize (IH r). pose proof (b2z_range b). lia.
Qed.

Lemma len_le_encode n x : len (le_encode n x) = Z.of_nat n.
Proof. revert x. induction n as [|n IH]; intros x; [done|]. cbn [le_encode]. rewrite len_cons, IH. lia. Qed.

#[export] Instance LittleEndian : IntegerEncoding := {
  encode_var x := leb_encode 9 (x mod U64);
  decode_var bs := '(x, n) ← leb_decode bs; if x <? U64 then Some (x, n) else None;
  required_space x := len (leb_encode 9 (x mod U64));
  encode_fixed32 x := le_encode 4 x;
  decode_fixed32 bs := le_decode 4 bs;
  encode_fixed64 x := le_encode 8 x;
}.

#[export] Instance LittleEndian_spec : IntegerEncodingSpec LittleEndian.
Proof.
  assert (HU : U64 < 128 ^ (Z.of_nat 9 + 1)) by done.
  split; cbn [encode_var decode_var required_space encode_fixed32 decode_fixed32 encode_fixed64 LittleEndian].
  - intros x r Hx. rewrite (Z.mod_small x) by done. rewrite leb_decode_encode by lia. cbn [mbind option_bind].
    by rewrite (proj2 (Z.ltb_lt _ _)) by lia.
  - intros bs x n. destruct (leb_decode bs) as [[y k]|] eqn:D; cbn [mbind option_bind]; [|done].
    apply leb_decode_bounds in D. destruct (Z.ltb_spec y U64); intros [= <- <-]. lia.
  - done.
  - intros x n Hx Hn Hlt. rewrite (Z.mod_small x) by done.
    pose proof (leb_encode_len 9 (Z.to_nat (n - 1)) x) as H. rewrite Z2Nat.id in H by lia.
    rewrite Z.sub_add in H. rewrite Z.pow_mul_r in Hlt by lia. change (2 ^ 7) with 128 in Hlt. lia.
  - intros x. apply leb_encode_nonempty.
  - intros x. apply len_le_encode.
  - intros x Hx. by apply (le_decode_encode 4).
  - intros bs. apply (le_decode_range 4).
  - intros x. apply len_le_encode.
  - intros x y Hx Hy H. rewrite <- (le_decode_encode 8 x), <- (le_decode_encode 8 y) by done. by rewrite H.
Qed.

(** ** CRC-32C and Snappy *)

Fixpoint crc_bits (n : nat) (c : Z) : Z :=
  match n with
  | O => c
  | S n => crc_bits n (if Z.odd c then Z.lxor (Z.shiftr c 1) 0x82f63b78 else Z.shiftr c 1)
  end.

Definition crc_byte (c : Z) (b : byte) : Z := crc_bits 8 (Z.lxor c (b2z b)).

#[export] Instance Castagnoli : Crc32c := {
  crc32c bs := as_u32 (Z.lxor (fold_left crc_byte bs 0xffffffff) 0xffffffff);
}.

#[export] Instance Castagnoli_spec : Crc32cSpec Castagnoli.
Proof. split. intros bs. apply as_u32_range. Qed.

(** *** Snappy streams of one literal

    The Snappy format is a varint of the length and a sequence of literals and
    copies; a compressor may use a single literal. The tag of a literal has the
    length less one in its upper six bits, or says how many bytes of it follow. *)
Definition literal_header (n : Z) : bytes :=
  if n =? 0 then []
  else if n <=? 60 then [z2b (4 * (n - 1))]
  else if n <=? 256 then [z2b 240; z2b (n - 1)]
  else z2b 252 :: le_encode 4 (n - 1).

Definition snappy_frame (bs : bytes) : bytes := encode_var (len bs) ++ literal_header (len bs) ++ bs.

Definition snappy_unframe (bs : bytes) : option bytes :=
  '(n, k) ← decode_var bs;
  let body := drop (Z.to_nat k) bs in
  let h := literal_header n in
  let lit := drop (length h) body in
  if bool_decide (take (length h) body = h) && (len lit =? n) then Some lit else None.

#[export] Instance LiteralSnappy : Snappy := {
  compress_vec bs := if len bs <? U32 then inl (snappy_frame bs) else inr (mk_snap_Error "too big");
  decompress_vec bs :=
    match snappy_unframe bs with
    | Some lit => inl lit
    | None => inr (mk_snap_Error "corrupt input")
    end;
}.

Lemma snappy_unframe_frame bs : len bs < U32 → snappy_unframe (snappy_frame bs) = Some bs.
Proof.
  intros Hlen. unfold snappy_unframe, snappy_frame. pose proof (len_nonneg bs).
  rewrite decode_encode_var by (unfold U32, U64 in *; lia). cbn [mbind option_bind].
  rewrite len_to_nat, drop_app_length, take_app_length, drop_app_length.
  by rewrite bool_decide_eq_true_2, Z.eqb_refl.
Qed.

#[export] Instance LiteralSnappy_spec : SnappySpec LiteralSnappy.
Proof.
  split; intros bs c; cbn [compress_vec decompress_vec LiteralSnappy]; destruct (Z.ltb_spec (len bs) U32); intros [= <-].
  - by rewrite snappy_unframe_frame.
  - done.
Qed.

(** Four bytes as a Snappy stream of one literal. *)
Example snappy_literal : compress_vec [x57; x69; x6b; x69] = inl [x04; x0c; x57; x69; x6b; x69].
Proof. by vm_compute. Qed.

(** The check value of the CRC-32C catalogue, and a two-byte varint. *)
Example crc_check_value : crc32c [x31; x32; x33; x34; x35; x36; x37; x38; x39] = 0xe3069283.
Proof. by vm_compute. Qed.

Example varint_300 : encode_var 300 = [xac; x02] ∧ decode_var [xac; x02; xff] = Some (300, 2).
Proof. by vm_compute. Qed.
