(* ===== verification/BlockHandle.v ===== *)
(** * Block handles (src/blockhandle.rs)

    An offset and a size, encoded as two varints. *)

From S2P Require Export Prelude Encoding.

Record BlockHandle := mkBlockHandle { bh_offset : Z; bh_size : Z }.

#[export] Instance BlockHandle_eq_dec : EqDecision BlockHandle.
Proof. solve_decision. Defined.

Definition BlockHandle_new (offset size : Z) : BlockHandle := mkBlockHandle offset size.

Section BlockHandle.
Context `{E : IntegerEncoding}.

Definition BlockHandle_decode (from : bytes) : outcome (BlockHandle * Z) :=
  let! (off, offsize) := decode_var_unwrap from in
  let! rest := slice_from from offsize in
  let! (sz, szsize) := decode_var_unwrap rest in
  Done (mkBlockHandle off sz, offsize + szsize).

Definition BlockHandle_encode_to (self : BlockHandle) (dst : bytes) : outcome (bytes * Z) :=
  assert! required_space (bh_offset self) + required_space (bh_size self) <=? len dst in
  let! (dst, off) := encode_var_at dst 0 (bh_offset self) in
  let! (dst, n) := encode_var_at dst off (bh_size self) in
  Done (dst, off + n).

(** The bytes of an encoded handle. *)
Definition handle_bytes (h : BlockHandle) : bytes := encode_var (bh_offset h) ++ encode_var (bh_size h).

(** Fields are [usize] values. *)
Definition wf_handle (h : BlockHandle) : Prop := 0 ≤ bh_offset h < U64 ∧ 0 ≤ bh_size h < U64.

Context `{!IntegerEncodingSpec E}.

Lemma BlockHandle_decode_bytes h r :
  wf_handle h → BlockHandle_decode (handle_bytes h ++ r) = Done (h, len (handle_bytes h)).
Proof.
  intros [Ho Hs]. unfold BlockHandle_decode, handle_bytes. rewrite <- app_assoc.
  rewrite decode_var_unwrap_Done by done. cbn [bind].
  rewrite slice_from_app by done. cbn [bind].
  rewrite decode_var_unwrap_Done by done. cbn [bind].
  rewrite len_app. by destruct h.
Qed.

Lemma encode_var_at_app (p m : bytes) x :
  len (encode_var x) ≤ len m →
  encode_var_at (p ++ m) (len p) x =
    Done (p ++ encode_var x ++ drop (length (encode_var x)) m, len (encode_var x)).
Proof.
  intros Hm. unfold encode_var_at.
  pose proof (slice_mid [] p m 0 (len p) eq_refl eq_refl) as Hs. cbn [app] in Hs.
  rewrite Hs. cbn [bind].
  rewrite <- (take_drop (length (encode_var x)) m) at 1.
  rewrite app_assoc, slice_from_app; [done|].
  rewrite len_app. unfold len in *. rewrite length_take. lia.
Qed.

Lemma BlockHandle_encode_to_Done h dst :
  wf_handle h → len (handle_bytes h) ≤ len dst →
  BlockHandle_encode_to h dst =
    Done (handle_bytes h ++ drop (length (handle_bytes h)) dst, len (handle_bytes h)).
Proof.
  intros [Ho Hs] Hlen. unfold BlockHandle_encode_to, handle_bytes in *.
  rewrite len_app in Hlen. rewrite !required_space_len by done.
  rewrite (proj2 (Z.leb_le _ _)) by done.
  pose proof (len_nonneg (encode_var (bh_offset h))). pose proof (len_nonneg (encode_var (bh_size h))).
  pose proof (encode_var_at_app [] dst (bh_offset h)) as E1. cbn [app] in E1.
  change (len (@nil byte)) with 0 in E1. rewrite E1 by lia. cbn [bind].
  rewrite encode_var_at_app by (unfold len in *; rewrite length_drop; lia). cbn [bind].
  by rewrite drop_drop, len_app, length_app, <- app_assoc.
Qed.

(** A handle whose fields are below 2^56 takes at most 16 bytes. *)
Lemma handle_bytes_len h :
  0 ≤ bh_offset h < 2 ^ 56 → 0 ≤ bh_size h < 2 ^ 56 → 2 ≤ len (handle_bytes h) ≤ 16.
Proof.
  intros Ho Hs. unfold handle_bytes. rewrite len_app. unfold U64 in *.
  pose proof (encode_var_len (bh_offset h) 8 ltac:(unfold U64; lia) ltac:(lia) ltac:(simpl; lia)).
  pose proof (encode_var_len (bh_size h) 8 ltac:(unfold U64; lia) ltac:(lia) ltac:(simpl; lia)).
  pose proof (encode_var_nonempty (bh_offset h)). pose proof (encode_var_nonempty (bh_size h)). lia.
Qed.
End BlockHandle.

(** ** Properties *)

(** A handle written at the front of a large enough buffer is read back
    from it, with the same number of bytes, and the rest of the buffer is
    untouched. *)
Theorem BlockHandle_roundtrip `{E : IntegerEncoding, !IntegerEncodingSpec E} h dst :
  wf_handle h → len (handle_bytes h) ≤ len dst →
  ∃ dst' n, BlockHandle_encode_to h dst = Done (dst', n) ∧
    BlockHandle_decode dst' = Done (h, n) ∧
    len dst' = len dst ∧ drop (Z.to_nat n) dst' = drop (Z.to_nat n) dst.
Proof.
  intros Hh Hlen. rewrite BlockHandle_encode_to_Done by done.
  eexists _, _. split; [done|]. split; [by apply BlockHandle_decode_bytes|].
  rewrite len_to_nat, drop_app_length. split; [|done].
  rewrite len_app. unfold len in *. rewrite length_drop. lia.
Qed.
