(* ===== verification/Filter.v ===== *)
(** * Filter policies (src/filter.rs)

    The [FilterPolicy] trait as a record of its methods, [NoFilterPolicy], and
    the Bloom filter [BloomPolicy] with its hash on 32-bit words, its bit array
    and its probe sequence. *)

From Stdlib Require Import SpecFloat.
From S2P Require Export Prelude Encoding.

(** The trait object [dyn FilterPolicy]. *)
Record FilterPolicy := mkFilterPolicy {
  fp_name : string;
  create_filter : bytes → list Z → outcome bytes;
  key_may_match : bytes → bytes → outcome bool;
}.

Definition NoFilterPolicy : FilterPolicy :=
  mkFilterPolicy "_" (λ _ _, Done []) (λ _ _, Done true).

(** ** Iterating over concatenated keys *)

(** [offset_data_iterate]: call [f] on the piece of [data] at each offset; the
    state the [FnMut] closure captures is threaded through. [n] iterations of
    [for offix in 0..offsets.len()] are left. *)
Fixpoint offset_data_loop {S} (n : nat) (data : bytes) (offsets : list Z)
    (f : bytes → S → outcome S) (offix : Z) (s : S) : outcome S :=
  match n with
  | O => Done s
  | Datatypes.S n' =>
      let! upper := if offix =? len offsets - 1 then Done (len data)
                    else index offsets (offix + 1) in
      let! lower := index offsets offix in
      let! piece := slice data lower upper in
      let! s := f piece s in
      offset_data_loop n' data offsets f (offix + 1) s
  end.

Definition offset_data_iterate {S} (data : bytes) (offsets : list Z)
    (f : bytes → S → outcome S) (s : S) : outcome S :=
  offset_data_loop (length offsets) data offsets f 0 s.

(** ** BloomPolicy *)

Module Bloom.

(** *** f32 arithmetic of the constructor *)

(** IEEE 754 binary32, as [f32]. *)
Definition f32_of_u32 (x : Z) : spec_float := binary_normalize 24 128 x 0 false.
Definition f32_mul : spec_float → spec_float → spec_float := SFmul 24 128.

(** The literal [0.69]: the binary32 number nearest to 69/100. *)
Definition f32_0_69 : spec_float := SFdiv 24 128 (f32_of_u32 69) (f32_of_u32 100).

(** [x as u32]: truncation, saturating at the bounds of the type, 0 for NaN. *)
Definition f32_as_u32 (x : spec_float) : Z :=
  match x with
  | S754_zero _ | S754_nan => 0
  | S754_infinity s => if s then 0 else U32 - 1
  | S754_finite s m e => if s then 0 else Z.min (U32 - 1) (Z.shiftl (Z.pos m) e)
  end.

Definition BLOOM_SEED : Z := 0xbc9f1d34.

Record BloomPolicy := mkBloomPolicy { bits_per_key : Z; k : Z }.

Definition new_unwrapped (bits_per_key : Z) : BloomPolicy :=
  let k := f32_as_u32 (f32_mul (f32_of_u32 bits_per_key) f32_0_69) in
  let k := if k <? 1 then 1 else if 30 <? k then 30 else k in
  mkBloomPolicy bits_per_key k.

Definition new (bits_per_key : Z) : BloomPolicy := new_unwrapped bits_per_key.

(** *** The hash *)

(** Products of [u64] and [usize] values taken from lengths. *)
Definition umul (a b : Z) : outcome Z := if a * b <? U64 then Done (a * b) else Panic.

Definition m : Z := 0xc6a4a793.
Definition r : Z := 24.

Section hash.
Context `{E : IntegerEncoding}.

(** [while ix + 4 <= limit]: returns [h] and the final [ix]. *)
Fixpoint hash_words (fuel : nat) (data : bytes) (limit ix h : Z) : outcome (Z * Z) :=
  match fuel with
  | O => NoFuel
  | S n =>
      if ix + 4 <=? limit then
        let! w4 := slice data ix (ix + 4) in
        let w := decode_fixed32 w4 in
        let h := as_u32 (h + w) in
        let h := as_u32 (h * m) in
        let h := Z.lxor h (Z.shiftr h 16) in
        hash_words n data limit (ix + 4) h
      else Done (h, ix)
  end.

(** [for b in data[ix..].iter()] with the counter [i] *)
Fixpoint hash_tail (rest : bytes) (i h : Z) : Z :=
  match rest with
  | [] => h
  | b :: rest => hash_tail rest (i + 1) (as_u32 (h + Z.shiftl (b2z b) (8 * i)))
  end.

Definition bloom_hash (data : bytes) : outcome Z :=
  let limit := len data in
  let! lm := umul limit m in
  let h := Z.lxor BLOOM_SEED (as_u32 lm) in
  let! (h, ix) := hash_words (S (length data)) data limit 0 h in
  assert! limit - ix <? 4 in
  if 0 <? limit - ix then
    let! rest := slice_from data ix in
    let h := hash_tail rest 0 h in
    let h := as_u32 (h * m) in
    Done (Z.lxor h (Z.shiftr h r))
  else Done h.
End hash.

(** *** Creating and querying the bit array *)

(** [h % n], a panic when [n] is zero *)
Definition urem (h n : Z) : outcome Z := if n =? 0 then Panic else Done (h mod n).

Definition next_hash (h delta : Z) : Z := as_u32 (h + delta).
Definition hash_delta (h : Z) : Z := Z.lor (Z.shiftr h 17) (as_u32 (Z.shiftl h 15)).

(** [filter[bitpos / 8] |= 1 << (bitpos % 8)] *)
Definition set_bit (filter : bytes) (bitpos : Z) : outcome bytes :=
  let! b := index filter (bitpos / 8) in
  set_index filter (bitpos / 8) (z2b (Z.lor (b2z b) (Z.shiftl 1 (bitpos mod 8)))).

(** [filter[bitpos / 8] & (1 << (bitpos % 8)) != 0] *)
Definition get_bit (filter : bytes) (bitpos : Z) : outcome bool :=
  let! b := index filter (bitpos / 8) in
  Done (negb (Z.land (b2z b) (Z.shiftl 1 (bitpos mod 8)) =? 0)).

Fixpoint set_probes (n : nat) (adj_filter_bits h delta : Z) (filter : bytes) : outcome bytes :=
  match n with
  | O => Done filter
  | S n' =>
      let! bitpos := urem h adj_filter_bits in
      let! filter := set_bit filter bitpos in
      set_probes n' adj_filter_bits (next_hash h delta) delta filter
  end.

Fixpoint test_probes (n : nat) (bits h delta : Z) (filter_adj : bytes) : outcome bool :=
  match n with
  | O => Done true
  | S n' =>
      let! bitpos := urem h bits in
      let! bit := get_bit filter_adj bitpos in
      if negb bit then Done false
      else test_probes n' bits (next_hash h delta) delta filter_adj
  end.

Section policy.
Context `{E : IntegerEncoding}.

Definition name : string := "leveldb.BuiltinBloomFilter2".

Definition add_key (self : BloomPolicy) (adj_filter_bits : Z) (key filter : bytes) : outcome bytes :=
  let! h := bloom_hash key in
  let delta := hash_delta h in
  set_probes (Z.to_nat (k self)) adj_filter_bits h delta filter.

Definition create_filter (self : BloomPolicy) (keys : bytes) (key_offsets : list Z) : outcome bytes :=
  let! filter_bits := umul (len key_offsets) (bits_per_key self) in
  let filter := if filter_bits <? 64 then vec_resize [] 8 x00
                else vec_resize [] ((filter_bits + 7) / 8) x00 in
  let adj_filter_bits := as_u32 (len filter * 8) in
  let filter := filter ++ [z2b (k self)] in
  offset_data_iterate keys key_offsets (add_key self adj_filter_bits) filter.

Definition key_may_match (_ : BloomPolicy) (key filter : bytes) : outcome bool :=
  if len filter =? 0 then Done true else
  let bits := as_u32 (len filter - 1) * 8 in
  assert! bits <? U32 in
  let! k := index filter (len filter - 1) in
  let! filter_adj := slice filter 0 (len filter - 1) in
  if 30 <? b2z k then Done true else
  let! h := bloom_hash key in
  let delta := hash_delta h in
  test_probes (Z.to_nat (b2z k)) bits h delta filter_adj.

Definition policy (self : BloomPolicy) : FilterPolicy :=
  mkFilterPolicy name (create_filter self) (key_may_match self).
End policy.

End Bloom.

(** ** The contract of a policy *)

(** The offsets at which [keys] start in their concatenation, from [o]. *)
Fixpoint offsets_from (o : Z) (ks : list bytes) : list Z :=
  match ks with
  | [] => []
  | k :: ks => o :: offsets_from (o + len k) ks
  end.

Definition key_offsets (ks : list bytes) : list Z := offsets_from 0 ks.

(** A policy creates a filter for every key list it [fits], and the filter has
    no false negative. *)
Class FilterPolicySpec (p : FilterPolicy) (fits : list bytes → Prop) : Prop := {
  filter_no_false_negative ks : fits ks →
    ∃ f, create_filter p (mjoin ks) (key_offsets ks) = Done f ∧
         ∀ k, k ∈ ks → key_may_match p k f = Done true;
  (** any key, of at most 4 GiB, can be asked about *)
  filter_total ks f k : fits ks → create_filter p (mjoin ks) (key_offsets ks) = Done f →
    len k < U32 → returns (key_may_match p k f);
}.

#[export] Instance NoFilterPolicy_spec : FilterPolicySpec NoFilterPolicy (λ _, True).
Proof. split; [intros ks _; by exists []|]. intros ks f k _ _ _. by eexists. Qed.

(** ** Iteration visits exactly the keys *)

Lemma offset_data_loop_fold {S} (f : bytes → S → outcome S) ks pre offs s :
  offset_data_loop (length ks) (pre ++ mjoin ks) (offs ++ offsets_from (len pre) ks) f (len offs) s
  = foldM f ks s.
Proof.
  revert pre offs s. induction ks as [|k ks IH]; intros pre offs s; [done|].
  cbn [length offset_data_loop offsets_from foldM].
  rewrite (index_app_middle offs _ _ (len offs)) by done.
  assert (Hup : (if len offs =? len (offs ++ len pre :: offsets_from (len pre + len k) ks) - 1
                 then Done (len (pre ++ mjoin (k :: ks)))
                 else index (offs ++ len pre :: offsets_from (len pre + len k) ks) (len offs + 1))
                = Done (len pre + len k)).
  { autorewrite with rust. destruct ks as [|k' ks].
    - simpl. autorewrite with rust. rewrite (proj2 (Z.eqb_eq _ _)) by lia.
      f_equal. lia.
    - simpl. autorewrite with rust. pose proof (len_nonneg (offsets_from (len pre + len k + len k') ks)).
      rewrite (proj2 (Z.eqb_neq _ _)) by lia.
      rewrite cons_middle, app_assoc. apply index_app_middle. rewrite len_app. done. }
  rewrite Hup. cbn [bind].
  change (mjoin (k :: ks)) with (k ++ mjoin ks).
  rewrite slice_mid by done. cbn [bind]. destruct (f k s) as [s'|] eqn:Ef; [|done]. cbn [bind].
  specialize (IH (pre ++ k) (offs ++ [len pre]) s').
  rewrite <- !app_assoc, !len_app in IH. exact IH.
Qed.

Lemma offset_data_iterate_fold {S} (f : bytes → S → outcome S) ks s :
  offset_data_iterate (mjoin ks) (key_offsets ks) f s = foldM f ks s.
Proof.
  unfold offset_data_iterate, key_offsets.
  assert (E : ∀ o, length (offsets_from o ks) = length ks).
  { induction ks as [|k ks IH]; intros o; simpl; [done|]. by rewrite IH. }
  rewrite E. apply (offset_data_loop_fold f ks [] [] s).
Qed.

Lemma len_key_offsets ks : len (key_offsets ks) = len ks.
Proof.
  unfold key_offsets, len. f_equal. generalize 0 at 1.
  induction ks as [|k ks IH]; intros o; simpl; [done|]. by rewrite IH.
Qed.

(** ** The Bloom filter has no false negatives *)

Module BloomProofs.
Import Bloom.

Section bits.
(** [get_bit] of every position that was set stays set. *)
Definition grows (f f' : bytes) : Prop := ∀ p, get_bit f p = Done true → get_bit f' p = Done true.

#[export] Instance grows_preorder : PreOrder grows.
Proof. split; [by intros f p|]. intros f1 f2 f3 H1 H2 p ?. auto. Qed.

Lemma land_bit b i : 0 ≤ i → negb (Z.land b (Z.shiftl 1 i) =? 0) = Z.testbit b i.
Proof.
  intros Hi. destruct (Z.testbit b i) eqn:E.
  - destruct (Z.eqb_spec (Z.land b (Z.shiftl 1 i)) 0) as [H|]; [|done].
    apply (f_equal (λ z, Z.testbit z i)) in H.
    rewrite Z.land_spec, E, Z.shiftl_spec, Z.sub_diag, Z.bits_0 in H by lia. done.
  - destruct (Z.eqb_spec (Z.land b (Z.shiftl 1 i)) 0) as [|H]; [done|]. destruct H.
    apply Z.bits_inj'. intros j Hj. rewrite Z.land_spec, Z.shiftl_spec, Z.bits_0 by lia.
    destruct (decide (j = i)) as [->|]; [by rewrite E|].
    destruct (decide (j < i)); [rewrite (Z.testbit_neg_r 1) by lia; apply andb_false_r|].
    rewrite (Z.bits_above_log2 1) by (simpl; lia). apply andb_false_r.
Qed.

Lemma get_bit_spec f p :
  get_bit f p = Done true ↔
  ∃ b, index f (p / 8) = Done b ∧ Z.testbit (b2z b) (p mod 8) = true.
Proof.
  unfold get_bit. pose proof (Z.mod_pos_bound p 8 eq_refl). split.
  - intros H0. apply bind_Done in H0 as (b&Hb&[= Hbit]). exists b. split; [done|].
    by rewrite <- land_bit by lia.
  - intros (b&->&Hbit). cbn [bind]. by rewrite land_bit, Hbit by lia.
Qed.

Lemma b2z_lor_bit b i : 0 ≤ i < 8 → b2z (z2b (Z.lor (b2z b) (Z.shiftl 1 i))) = Z.lor (b2z b) (Z.shiftl 1 i).
Proof.
  intros Hi. rewrite b2z_z2b. apply Z.bits_inj'. intros j Hj.
  change 256 with (2 ^ 8). destruct (decide (j < 8)).
  - by rewrite Z.mod_pow2_bits_low by lia.
  - rewrite Z.mod_pow2_bits_high, Z.lor_spec, Z.shiftl_spec by lia.
    rewrite (Z.bits_above_log2 1) by (simpl; lia). rewrite orb_false_r. symmetry.
    pose proof (b2z_range b). rewrite <- (Z.mod_small (b2z b) (2 ^ 8)) by (simpl; lia).
    apply Z.mod_pow2_bits_high. lia.
Qed.

Lemma set_bit_spec body kb p :
  0 ≤ p < 8 * len body →
  ∃ body', set_bit (body ++ [kb]) p = Done (body' ++ [kb]) ∧ len body' = len body ∧
           get_bit body' p = Done true ∧ grows body body'.
Proof.
  intros Hp. pose proof (Z.mod_pos_bound p 8 eq_refl).
  assert (Hq : 0 ≤ p / 8 < len body).
  { split; [apply Z.div_pos; lia|apply Z.div_lt_upper_bound; lia]. }
  destruct (lookup_lt_is_Some_2 body (Z.to_nat (p / 8))) as [b Hb]; [unfold len in *; lia|].
  set (b' := z2b (Z.lor (b2z b) (Z.shiftl 1 (p mod 8)))).
  exists (<[Z.to_nat (p / 8) := b']> body).
  assert (Hix : index (body ++ [kb]) (p / 8) = Done b).
  { rewrite <- (Z2Nat.id (p / 8)) by lia. apply index_Done. by apply lookup_app_l_Some. }
  assert (Hix' : index (<[Z.to_nat (p / 8):=b']> body) (p / 8) = Done b').
  { rewrite <- (Z2Nat.id (p / 8)) at 2 by lia. apply index_Done.
    apply list_lookup_insert_eq. unfold len in *. lia. }
  split; [|split; [|split]].
  - unfold set_bit. rewrite Hix. cbn [bind]. fold b'. unfold set_index. autorewrite with rust.
    rewrite (proj2 (Z.leb_le 0 _)), (proj2 (Z.ltb_lt (p / 8) _)) by lia. simpl.
    by rewrite insert_app_l by (unfold len in *; lia).
  - unfold len. by rewrite length_insert.
  - apply get_bit_spec. exists b'. split; [done|].
    subst b'. rewrite b2z_lor_bit, Z.lor_spec, Z.shiftl_spec, Z.sub_diag by lia. apply orb_true_r.
  - intros p' (c&Hc&Hbit)%get_bit_spec. apply get_bit_spec.
    apply index_inv in Hc as [Hr Hc]. destruct (decide (p' / 8 = p / 8)) as [Heq|Hne].
    + rewrite Heq in *. exists b'. split; [done|]. simplify_eq.
      subst b'. by rewrite b2z_lor_bit, Z.lor_spec, Hbit by lia.
    + exists c. split; [|done]. rewrite <- (Z2Nat.id (p' / 8)) by lia. apply index_Done.
      rewrite list_lookup_insert_ne by lia. done.
Qed.
End bits.

Section probes.
Lemma urem_Done h n : 0 < n → urem h n = Done (h mod n).
Proof. intros. unfold urem. by rewrite (proj2 (Z.eqb_neq _ _)) by lia. Qed.

Lemma test_probes_mono n bits h delta f f' :
  grows f f' → test_probes n bits h delta f = Done true → test_probes n bits h delta f' = Done true.
Proof.
  intros Hg. revert h. induction n as [|n IH]; intros h; simpl; [done|].
  destruct (urem h bits) as [p|]; [cbn [bind]|done].
  destruct (get_bit f p) as [[|]|] eqn:E; simpl; try done.
  rewrite (Hg p E). simpl. apply IH.
Qed.

(** Probing a non-empty filter does not panic. *)
Lemma test_probes_returns n bits h delta f :
  0 < bits → bits ≤ 8 * len f → returns (test_probes n bits h delta f).
Proof.
  intros Hb Hl. revert h. induction n as [|n IH]; intros h; [by eexists|]. simpl.
  rewrite urem_Done by done. cbn [bind]. pose proof (Z.mod_pos_bound h bits Hb).
  assert (Hix : 0 ≤ h mod bits / 8 < len f).
  { split; [apply Z.div_pos; lia|apply Z.div_lt_upper_bound; lia]. }
  unfold get_bit. destruct (index_Done_ex f (h mod bits / 8) Hix) as [b ->]. cbn [bind].
  destruct (negb (negb _)); [by eexists|apply IH].
Qed.

(** Setting the probes of a hash succeeds, and testing them then answers yes. *)
Lemma set_probes_spec n bits h delta body kb :
  bits = 8 * len body → 0 < len body →
  ∃ body', set_probes n bits h delta (body ++ [kb]) = Done (body' ++ [kb]) ∧
           len body' = len body ∧ grows body body' ∧
           test_probes n bits h delta body' = Done true.
Proof.
  intros Hbits Hpos. revert h body Hbits Hpos.
  induction n as [|n IH]; intros h body Hbits Hpos; simpl; [by exists body|].
  rewrite urem_Done by lia. cbn [bind].
  destruct (set_bit_spec body kb (h mod bits)) as (body1&E1&Hl1&Hbit&Hg1).
  { pose proof (Z.mod_pos_bound h bits). lia. }
  rewrite E1. cbn [bind].
  destruct (IH (next_hash h delta) body1) as (body2&E2&Hl2&Hg2&Ht); [congruence|lia|].
  exists body2. split; [done|]. split; [congruence|]. split; [by transitivity body1|].
  rewrite (Hg2 _ Hbit). done.
Qed.
End probes.

Section hash.
Context `{E : IntegerEncoding}.

Lemma hash_words_Done fuel data ix h :
  0 ≤ ix ≤ len data → (Z.to_nat (len data - ix) < fuel)%nat →
  ∃ h' ix', hash_words fuel data (len data) ix h = Done (h', ix') ∧
            ix ≤ ix' ≤ len data ∧ len data - ix' < 4.
Proof.
  revert ix h. induction fuel as [|fuel IH]; intros ix h Hix Hf; [lia|]. simpl.
  destruct (Z.leb_spec (ix + 4) (len data)).
  - rewrite slice_Done by lia. cbn [bind].
    destruct (IH (ix + 4) (Z.lxor (as_u32 (as_u32 (h + decode_fixed32
      (take (Z.to_nat (ix + 4 - ix)) (drop (Z.to_nat ix) data))) * m))
      (Z.shiftr (as_u32 (as_u32 (h + decode_fixed32
      (take (Z.to_nat (ix + 4 - ix)) (drop (Z.to_nat ix) data))) * m)) 16)))
      as (h'&ix'&Eh&?&?); [lia|lia|]. exists h', ix'. split; [done|]. lia.
  - exists h, ix. split; [done|]. lia.
Qed.

(** Keys below 4 GiB are hashed without a panic. *)
Lemma bloom_hash_Done data : len data < U32 → ∃ h, bloom_hash data = Done h.
Proof.
  intros Hlen. unfold bloom_hash, umul. pose proof (len_nonneg data).
  rewrite (proj2 (Z.ltb_lt (len data * m) U64)) by (unfold m, U32, U64 in *; lia). cbn [bind].
  destruct (hash_words_Done (S (length data)) data 0 (Z.lxor BLOOM_SEED (as_u32 (len data * m))))
    as (h&ix&Eh&?&?); [lia|unfold len; lia|].
  rewrite Eh. cbn [bind]. rewrite (proj2 (Z.ltb_lt (len data - ix) 4)) by lia.
  destruct (0 <? len data - ix); [|eauto].
  unfold slice_from. rewrite slice_Done by lia. cbn [bind]. eauto.
Qed.
End hash.

Section policy.
Context `{E : IntegerEncoding}.

Lemma add_keys_spec p bits ks body kb :
  bits = 8 * len body → 0 < len body → Forall (λ k, len k < U32) ks →
  ∃ body', foldM (add_key p bits) ks (body ++ [kb]) = Done (body' ++ [kb]) ∧
           len body' = len body ∧ grows body body' ∧
           ∀ key, key ∈ ks → ∃ h, bloom_hash key = Done h ∧
             test_probes (Z.to_nat (k p)) bits h (hash_delta h) body' = Done true.
Proof.
  intros Hbits Hpos Hks. revert body Hbits Hpos.
  induction Hks as [|key ks Hk Hks IH]; intros body Hbits Hpos.
  { exists body. simpl. split; [done|]. split; [done|]. split; [done|]. intros key Hin.
    by apply not_elem_of_nil in Hin. }
  simpl. destruct (bloom_hash_Done key Hk) as (h&Eh). unfold add_key at 1. rewrite Eh. cbn [bind].
  destruct (set_probes_spec (Z.to_nat (k p)) bits h (hash_delta h) body kb Hbits Hpos)
    as (body1&E1&Hl1&Hg1&Ht1).
  rewrite E1. cbn [bind].
  destruct (IH body1) as (body2&E2&Hl2&Hg2&Hall); [congruence|lia|].
  exists body2. split; [done|]. split; [congruence|]. split; [by transitivity body1|].
  intros key' [->|Hin]%elem_of_cons; [|auto].
  exists h. split; [done|]. by apply (test_probes_mono _ _ _ _ body1).
Qed.

(** The size of the bit array. *)
Lemma filter_size fb :
  0 ≤ fb ≤ U32 - 8 →
  let l := len (if fb <? 64 then vec_resize [] 8 x00 else vec_resize [] ((fb + 7) / 8) x00) in
  8 ≤ l ∧ 8 * l < Z.min U32 (fb + 65).
Proof.
  intros Hfb. cbn zeta. unfold vec_resize, len, U32 in *. destruct (Z.ltb_spec fb 64).
  - rewrite length_resize. simpl. lia.
  - rewrite length_resize. pose proof (Z.div_mod (fb + 7) 8 ltac:(lia)).
    pose proof (Z.mod_pos_bound (fb + 7) 8 eq_refl). lia.
Qed.

Definition fits (p : BloomPolicy) (ks : list bytes) : Prop :=
  len ks * bits_per_key p ≤ U32 - 8 ∧ Forall (λ k, len k < U32) ks.

Definition wf_policy (p : BloomPolicy) : Prop := 0 ≤ bits_per_key p ∧ 1 ≤ k p ≤ 30.

Lemma new_wf b : 0 ≤ b → wf_policy (new b).
Proof.
  intros Hb. unfold wf_policy, new, new_unwrapped. simpl. split; [done|].
  destruct (Z.ltb_spec (f32_as_u32 (f32_mul (f32_of_u32 b) f32_0_69)) 1); [lia|].
  destruct (Z.ltb_spec 30 (f32_as_u32 (f32_mul (f32_of_u32 b) f32_0_69))); lia.
Qed.

Lemma create_filter_spec p ks :
  wf_policy p → fits p ks →
  ∃ body, create_filter p (mjoin ks) (key_offsets ks) = Done (body ++ [z2b (k p)]) ∧
    8 ≤ len body ∧ 8 * len body < Z.min U32 (len ks * bits_per_key p + 65) ∧
    ∀ key, key ∈ ks → ∃ h, bloom_hash key = Done h ∧
      test_probes (Z.to_nat (k p)) (8 * len body) h (hash_delta h) body = Done true.
Proof.
  intros [Hb Hk] [Hbits Hks]. unfold create_filter. rewrite len_key_offsets.
  pose proof (len_nonneg ks). unfold umul.
  rewrite (proj2 (Z.ltb_lt _ _)) by (unfold U32, U64 in *; lia). cbn [bind].
  rewrite offset_data_iterate_fold.
  pose proof (filter_size (len ks * bits_per_key p) ltac:(nia)) as Hsize. cbn zeta in Hsize.
  revert Hsize. generalize (if len ks * bits_per_key p <? 64 then vec_resize [] 8 x00
    else vec_resize [] ((len ks * bits_per_key p + 7) / 8) x00). intros body [Hs1 Hs2].
  rewrite as_u32_small by (unfold U32 in *; lia).
  destruct (add_keys_spec p (len body * 8) ks body (z2b (k p))) as (body'&->&Hl&_&Hall);
    [lia|lia|done|].
  exists body'. rewrite Hl. split; [done|]. split; [lia|]. split; [lia|].
  intros key (h&?&?)%Hall. exists h. by replace (8 * len body) with (len body * 8) by lia.
Qed.

Lemma key_may_match_body p key body kb h :
  8 * len body < U32 → b2z kb ≤ 30 → bloom_hash key = Done h →
  key_may_match p key (body ++ [kb]) = test_probes (Z.to_nat (b2z kb)) (8 * len body) h (hash_delta h) body.
Proof.
  intros Hl Hk Eh. unfold key_may_match. pose proof (len_nonneg body). autorewrite with rust.
  rewrite (proj2 (Z.eqb_neq _ 0)) by lia.
  replace (len body + (1 + 0) - 1) with (len body) by lia.
  rewrite as_u32_small by (unfold U32 in *; lia).
  rewrite (proj2 (Z.ltb_lt _ _)) by lia.
  rewrite index_app_middle by done. cbn [bind].
  pose proof (slice_mid [] body [kb] 0 (len body) eq_refl eq_refl) as Hs. cbn [app] in Hs.
  rewrite Hs. cbn [bind]. destruct (Z.ltb_spec 30 (b2z kb)); [lia|].
  rewrite Eh. cbn [bind]. f_equal. lia.
Qed.

Lemma bloom_no_false_negative p ks :
  wf_policy p → fits p ks →
  ∃ f, create_filter p (mjoin ks) (key_offsets ks) = Done f ∧
       ∀ key, key ∈ ks → key_may_match p key f = Done true.
Proof.
  intros Hp Hf. destruct (create_filter_spec p ks Hp Hf) as (body&->&?&?&Hall).
  eexists. split; [done|]. intros key (h&Eh&Ht)%Hall. destruct Hp as [_ Hk].
  assert (Ekb : b2z (z2b (k p)) = k p) by (rewrite b2z_z2b; apply Z.mod_small; lia).
  rewrite (key_may_match_body _ _ _ _ h) by (rewrite ?Ekb; (done || lia)). by rewrite Ekb.
Qed.

Lemma bloom_total p ks f key :
  wf_policy p → fits p ks → create_filter p (mjoin ks) (key_offsets ks) = Done f →
  len key < U32 → returns (key_may_match p key f).
Proof.
  intros Hp Hf Hc Hkey. destruct (create_filter_spec p ks Hp Hf) as (body&Hc'&?&?&_).
  rewrite Hc' in Hc. injection Hc as <-. destruct (bloom_hash_Done key Hkey) as [h Eh].
  destruct Hp as [_ Hk].
  assert (Ekb : b2z (z2b (k p)) = k p) by (rewrite b2z_z2b; apply Z.mod_small; lia).
  rewrite (key_may_match_body _ _ _ _ h) by (rewrite ?Ekb; (done || lia)).
  apply test_probes_returns; lia.
Qed.

#[export] Instance BloomPolicy_spec b : 0 ≤ b → FilterPolicySpec (policy (new b)) (fits (new b)).
Proof.
  intros Hb. pose proof (new_wf b Hb) as Hw. split.
  - intros ks Hks. by apply bloom_no_false_negative.
  - intros ks f k. by apply bloom_total.
Qed.
End policy.

End BloomProofs.

(** ** Properties *)

(** C20. A Bloom filter has no false negatives: when every key is shorter than
    2^32 bytes and the number of keys times the bits per key leaves room for
    rounding up to bytes in 32 bits ([fits]), a filter created for these keys
    exists and answers yes for each of them. (Outside these bounds the size
    wraps around, and creating the filter can panic.) *)
Theorem BloomPolicy_no_false_negatives `{E : IntegerEncoding} b ks :
  0 ≤ b → BloomProofs.fits (Bloom.new b) ks →
  ∃ f, create_filter (Bloom.policy (Bloom.new b)) (mjoin ks) (key_offsets ks) = Done f ∧
       ∀ key, key ∈ ks → key_may_match (Bloom.policy (Bloom.new b)) key f = Done true.
Proof. intros Hb Hks. exact (BloomProofs.bloom_no_false_negative _ _ (BloomProofs.new_wf b Hb) Hks). Qed.

(** C30. The bound on the number of bits is sharp. For keys whose number times the bits
    per key is between 2^32 - 7 and 2^32, the size of the bit array, rounded up to
    bytes, is 2^32 bits; the cast to [u32] makes it zero, and creating the filter
    panics in the division by it. *)
Theorem BloomPolicy_size_wraps `{E : IntegerEncoding} b ks :
  0 ≤ b → ks ≠ [] → Forall (λ key, len key < U32) ks → U32 - 8 < len ks * b ≤ U32 →
  create_filter (Bloom.policy (Bloom.new b)) (mjoin ks) (key_offsets ks) = Panic.
Proof.
  intros Hb Hne Hks Hbits. destruct (BloomProofs.new_wf b Hb) as [_ Hk].
  cbn [create_filter Bloom.policy]. unfold Bloom.create_filter. rewrite len_key_offsets.
  change (Bloom.bits_per_key (Bloom.new b)) with b. unfold Bloom.umul.
  rewrite (proj2 (Z.ltb_lt (len ks * b) U64)) by (unfold U32, U64 in *; lia). cbn [bind].
  rewrite (proj2 (Z.ltb_ge (len ks * b) 64)) by (unfold U32 in *; lia).
  assert (Hlen : ∀ n, U32 - 8 < n ≤ U32 → len (vec_resize [] ((n + 7) / 8) x00) * 8 = U32).
  { intros n Hn. unfold vec_resize, len. rewrite length_resize. pose proof (Z.div_mod (n + 7) 8 ltac:(lia)).
    pose proof (Z.mod_pos_bound (n + 7) 8 eq_refl). unfold U32 in *. lia. }
  rewrite (Hlen _ Hbits), offset_data_iterate_fold. change (as_u32 U32) with 0.
  destruct ks as [|key ks]; [done|]. apply Forall_cons in Hks as [Hkey _].
  cbn [foldM]. unfold Bloom.add_key at 1. destruct (BloomProofs.bloom_hash_Done key Hkey) as [h ->]. cbn [bind].
  destruct (Z.to_nat (Bloom.k (Bloom.new b))) as [|n] eqn:En; [lia|]. done.
Qed.

(** The number of probes [k] that the constructor computes through
    [f32] is between 1 and 30, the bound the reader accepts, whatever the
    setting; for the settings 10 (the default) and 12 it is 6 and 8. *)
Theorem BloomPolicy_k_bounds b :
  1 ≤ Bloom.k (Bloom.new b) ≤ 30 ∧ Bloom.bits_per_key (Bloom.new b) = b ∧
  Bloom.k (Bloom.new 10) = 6 ∧ Bloom.k (Bloom.new 12) = 8.
Proof.
  split; [|done]. unfold Bloom.new, Bloom.new_unwrapped. simpl.
  destruct (Z.ltb_spec (Bloom.f32_as_u32 (Bloom.f32_mul (Bloom.f32_of_u32 b) Bloom.f32_0_69)) 1); [lia|].
  destruct (Z.ltb_spec 30 (Bloom.f32_as_u32 (Bloom.f32_mul (Bloom.f32_of_u32 b) Bloom.f32_0_69))); lia.
Qed.
