(* ===== verification/FilterBlock.v ===== *)
(** * Filter blocks (src/filter_block.rs)

    The builder that collects keys into one filter per 2 KiB of table, its
    serialization, and the reader that finds the filter of a block offset. *)

From S2P Require Export Prelude Encoding Filter.

Definition FILTER_BASE_LOG2 : Z := 11.

(** [(offset >> base_lg2 as usize) as u32]; shifting a [usize] by 64 or more
    panics. *)
Definition get_filter_index (offset base_lg2 : Z) : outcome Z :=
  if base_lg2 <? 64 then Done (as_u32 (Z.shiftr offset base_lg2)) else Panic.

(** ** The builder *)

Record FilterBlockBuilder := mkFilterBlockBuilder {
  fb_policy : FilterPolicy;
  filters : bytes;
  filter_offsets : list Z;
  fb_key_offsets : list Z;
  keys : bytes;
}.

Definition FilterBlockBuilder_new (fp : FilterPolicy) : FilterBlockBuilder :=
  mkFilterBlockBuilder fp [] [] [] [].

Definition fb_size_estimate (self : FilterBlockBuilder) : Z :=
  len (filters self) + 4 * len (filter_offsets self) + 4 + 1.

Definition filter_name (self : FilterBlockBuilder) : string := fp_name (fb_policy self).

Definition fb_add_key (key : bytes) (self : FilterBlockBuilder) : FilterBlockBuilder :=
  mkFilterBlockBuilder (fb_policy self) (filters self) (filter_offsets self)
    (fb_key_offsets self ++ [len (keys self)]) (keys self ++ key).

Definition generate_filter (self : FilterBlockBuilder) : outcome FilterBlockBuilder :=
  let self := mkFilterBlockBuilder (fb_policy self) (filters self)
    (filter_offsets self ++ [len (filters self)]) (fb_key_offsets self) (keys self) in
  if decide (keys self = []) then Done self else
  let! filter := create_filter (fb_policy self) (keys self) (fb_key_offsets self) in
  Done (mkFilterBlockBuilder (fb_policy self) (filters self ++ filter) (filter_offsets self) [] []).

(** [while filter_ix > self.filter_offsets.len() as u32] *)
Fixpoint generate_filters (fuel : nat) (filter_ix : Z) (self : FilterBlockBuilder) :
    outcome FilterBlockBuilder :=
  match fuel with
  | O => NoFuel
  | S n =>
      if as_u32 (len (filter_offsets self)) <? filter_ix then
        let! self := generate_filter self in generate_filters n filter_ix self
      else Done self
  end.

Definition start_block (offset : Z) (self : FilterBlockBuilder) : outcome FilterBlockBuilder :=
  let! filter_ix := get_filter_index offset FILTER_BASE_LOG2 in
  assert! as_u32 (len (filter_offsets self)) <=? filter_ix in
  generate_filters (S (Z.to_nat filter_ix)) filter_ix self.

Section FilterBlock.
Context `{E : IntegerEncoding}.

(** [for offset in self.filter_offsets.into_iter()]: returns [result], [ix] *)
Fixpoint put_offsets (offsets : list Z) (result : bytes) (ix : Z) : outcome (bytes * Z) :=
  match offsets with
  | [] => Done (result, ix)
  | offset :: offsets =>
      let! result := write_bytes_at result ix (encode_fixed32 (as_u32 offset)) in
      put_offsets offsets result (ix + 4)
  end.

Definition fb_finish (self : FilterBlockBuilder) : outcome bytes :=
  let! self := if decide (keys self = []) then Done self else generate_filter self in
  let result := filters self in
  let offsets_offset := len result in
  let ix := len result in
  let result := vec_resize result (ix + 4 * len (filter_offsets self) + 5) x00 in
  let! (result, ix) := put_offsets (filter_offsets self) result ix in
  let! result := write_bytes_at result ix (encode_fixed32 (as_u32 offsets_offset)) in
  let ix := ix + 4 in
  set_index result ix (z2b (as_u8 FILTER_BASE_LOG2)).

(** ** The reader *)

Record FilterBlockReader := mkFilterBlockReader {
  fr_policy : FilterPolicy;
  fr_block : bytes;
  offsets_offset : Z;
  filter_base_lg2 : Z;
}.

Definition FilterBlockReader_new (pol : FilterPolicy) (data : bytes) : outcome FilterBlockReader :=
  assert! 5 <=? len data in
  let! fbase := index data (len data - 1) in
  let! o4 := slice data (len data - 5) (len data - 1) in
  Done (mkFilterBlockReader pol data (decode_fixed32 o4) (b2z fbase)).

Definition FilterBlockReader_new_owned := FilterBlockReader_new.

Definition num (self : FilterBlockReader) : outcome Z :=
  let! n := usub (len (fr_block self)) (offsets_offset self) in
  let! n := usub n 5 in
  Done (as_u32 (n / 4)).

Definition offset_of (self : FilterBlockReader) (i : Z) : outcome Z :=
  let offset_offset := offsets_offset self + 4 * i in
  let! o4 := slice (fr_block self) offset_offset (offset_offset + 4) in
  Done (decode_fixed32 o4).

Definition fr_key_may_match (self : FilterBlockReader) (blk_offset : Z) (key : bytes) : outcome bool :=
  let! ix := get_filter_index blk_offset (filter_base_lg2 self) in
  let! n := num self in
  if n <? ix then Done true else
  let! filter_begin := offset_of self ix in
  assert! ix + 1 <? U32 in
  let! filter_end := offset_of self (ix + 1) in
  assert! filter_begin <? filter_end in
  assert! filter_end <=? offsets_offset self in
  let! f := slice (fr_block self) filter_begin filter_end in
  key_may_match (fr_policy self) key f.
End FilterBlock.

(** ** What the builder has collected *)

(** The policy never returns an empty filter for a non-empty key list. *)
Class FilterPolicyNonempty (p : FilterPolicy) (fits : list bytes → Prop) : Prop := {
  filter_nonempty ks f : fits ks → create_filter p (mjoin ks) (key_offsets ks) = Done f → f ≠ [];
}.

(** Its filters are smaller than 4 GiB. *)
Class FilterPolicyBounded (p : FilterPolicy) (fits : list bytes → Prop) : Prop := {
  filter_bounded ks f : fits ks → create_filter p (mjoin ks) (key_offsets ks) = Done f → len f < U32;
}.

(** Its filters take at most [rate] bytes per key, and few and short keys are
    keys it accepts. *)
Class FilterPolicySized (p : FilterPolicy) (fits : list bytes → Prop) (rate : Z) : Prop := {
  rate_nonneg : 0 ≤ rate;
  few_keys_fit ks : rate * len ks < 2 ^ 31 → Forall (λ k, len k < 2 ^ 31) ks → fits ks;
  filter_sized ks f : ks ≠ [] → fits ks → create_filter p (mjoin ks) (key_offsets ks) = Done f →
    len f ≤ rate * len ks;
}.

(** [f] is the filter the builder emits for the group [g]. *)
Definition group_filter (p : FilterPolicy) (g : list bytes) (f : bytes) : Prop :=
  match g with
  | [] => f = []
  | _ => create_filter p (mjoin g) (key_offsets g) = Done f
  end.

(** The builder holds the closed groups [groups], one per filter, and the open
    group [pending]. *)
Record fb_rep (self : FilterBlockBuilder) (groups : list (list bytes)) (pending : list bytes) : Prop := {
  rep_keys : keys self = mjoin pending;
  rep_key_offsets : fb_key_offsets self = key_offsets pending;
  rep_pending : Forall (λ k, k ≠ []) pending;
  rep_filters : ∃ fs, filters self = mjoin fs ∧ filter_offsets self = key_offsets fs ∧
                      Forall2 (group_filter (fb_policy self)) groups fs;
}.

Lemma offsets_from_app o ks1 ks2 :
  offsets_from o (ks1 ++ ks2) = offsets_from o ks1 ++ offsets_from (o + len (mjoin ks1)) ks2.
Proof.
  revert o. induction ks1 as [|k ks1 IH]; intros o; simpl.
  - f_equal. change (len (@nil byte)) with 0. lia.
  - rewrite IH. f_equal. f_equal. f_equal. rewrite len_app. lia.
Qed.

Lemma key_offsets_snoc ks k : key_offsets (ks ++ [k]) = key_offsets ks ++ [len (mjoin ks)].
Proof. unfold key_offsets. by rewrite offsets_from_app. Qed.

Lemma mjoin_snoc {A} (ls : list (list A)) l : mjoin (ls ++ [l]) = mjoin ls ++ l.
Proof. rewrite join_app. simpl. by rewrite app_nil_r. Qed.

Lemma mjoin_nonempty (ks : list bytes) : Forall (λ k, k ≠ []) ks → mjoin ks = [] → ks = [].
Proof. destruct 1 as [|k ks Hk]; [done|]. simpl. by destruct k. Qed.

Section builder.
Context (fits : list bytes → Prop) (p : FilterPolicy) `{!FilterPolicySpec p fits}.

Lemma fb_rep_new : fb_rep (FilterBlockBuilder_new p) [] [].
Proof. split; try done. by exists []. Qed.

Lemma fb_rep_add_key self groups pending key :
  key ≠ [] → fb_rep self groups pending → fb_rep (fb_add_key key self) groups (pending ++ [key]).
Proof.
  intros Hk [Hks Hoffs Hp (fs&?&?&?)]. split; simpl.
  - by rewrite mjoin_snoc, Hks.
  - by rewrite key_offsets_snoc, Hoffs, Hks.
  - apply Forall_app; auto.
  - exists fs. done.
Qed.

Lemma fb_rep_add_keys self groups pending ks :
  Forall (λ k, k ≠ []) ks → fb_rep self groups pending →
  fb_rep (foldl (λ b k, fb_add_key k b) self ks) groups (pending ++ ks) ∧
  fb_policy (foldl (λ b k, fb_add_key k b) self ks) = fb_policy self.
Proof.
  intros Hks. revert self pending. induction Hks as [|k ks Hk Hks IH]; intros self pending Hr; simpl.
  - by rewrite app_nil_r.
  - rewrite cons_middle, app_assoc.
    exact (IH (fb_add_key k self) _ (fb_rep_add_key _ _ _ k Hk Hr)).
Qed.

Lemma fb_rep_generate self groups pending :
  fb_policy self = p → fb_rep self groups pending → fits pending →
  ∃ self', generate_filter self = Done self' ∧ fb_policy self' = p ∧
           fb_rep self' (groups ++ [pending]) [].
Proof.
  intros Hpol [Hks Hoffs Hp (fs&Hfs&Hfo&Hall)] Hfits. unfold generate_filter. simpl.
  destruct (decide (keys self = [])) as [Hnil|Hne].
  - rewrite Hnil in Hks. symmetry in Hks. apply mjoin_nonempty in Hks; [subst pending|done].
    eexists. split; [done|]. split; [done|]. split; simpl; try done.
    exists (fs ++ [[]]). rewrite mjoin_snoc, app_nil_r, key_offsets_snoc, Hfs, Hfo.
    split; [done|]. split; [done|]. by apply Forall2_app; [|constructor].
  - rewrite Hks, Hoffs, Hpol. destruct (filter_no_false_negative pending Hfits) as (f&Ef&_).
    rewrite Ef. cbn [bind]. eexists. split; [done|]. split; [done|]. split; simpl; try done.
    exists (fs ++ [f]). rewrite mjoin_snoc, key_offsets_snoc, Hfs, Hfo.
    split; [done|]. split; [done|]. rewrite Hpol in Hall.
    apply Forall2_app; [done|]. constructor; [|done].
    destruct pending; [by rewrite Hks in Hne|done].
Qed.

(** Closing groups up to index [ix] appends to the list of groups. *)
Lemma fb_rep_generate_filters fuel ix self groups pending :
  fb_policy self = p → fb_rep self groups pending → fits pending → fits [] →
  len groups ≤ ix < U32 → (Z.to_nat (ix - len groups) < fuel)%nat →
  ∃ self' groups' pending', generate_filters fuel ix self = Done self' ∧ fb_policy self' = p ∧
    fb_rep self' groups' pending' ∧ len groups' = ix ∧
    ∃ n, groups' ++ [pending'] = (groups ++ [pending]) ++ replicate n [].
Proof.
  revert self groups pending. induction fuel as [|fuel IH];
    intros self groups pending Hpol Hr Hfp Hf0 Hix Hfuel; [lia|]. simpl.
  assert (Hlen : len (filter_offsets self) = len groups).
  { destruct (rep_filters _ _ _ Hr) as (fs&_&->&Hall). rewrite len_key_offsets.
    unfold len. by rewrite (Forall2_length _ _ _ Hall). }
  pose proof (len_nonneg groups). rewrite Hlen, as_u32_small by lia.
  destruct (Z.ltb_spec (len groups) ix) as [Hlt|].
  - destruct (fb_rep_generate self groups pending Hpol Hr Hfp) as (self1&->&Hpol1&Hr1).
    cbn [bind]. destruct (IH self1 (groups ++ [pending]) [] Hpol1 Hr1 Hf0 Hf0)
      as (self2&groups2&pending2&->&?&?&?&n&Hview).
    + autorewrite with rust. lia.
    + autorewrite with rust. lia.
    + exists self2, groups2, pending2. do 4 (split; [done|]). exists (S n).
      by rewrite Hview, <- app_assoc.
  - exists self, groups, pending. do 3 (split; [done|]). split; [lia|]. exists 0%nat.
    by rewrite app_nil_r.
Qed.

Lemma fb_rep_start_block self groups pending o :
  fb_policy self = p → fb_rep self groups pending → fits pending → fits [] →
  len groups ≤ Z.shiftr o 11 < U32 →
  ∃ self' groups' pending', start_block o self = Done self' ∧ fb_policy self' = p ∧
    fb_rep self' groups' pending' ∧ len groups' = Z.shiftr o 11 ∧
    ∃ n, groups' ++ [pending'] = (groups ++ [pending]) ++ replicate n [].
Proof.
  intros Hpol Hr Hfp Hf0 Hix. unfold start_block, get_filter_index, FILTER_BASE_LOG2.
  change (11 <? 64) with true. cbn [bind].
  pose proof (len_nonneg groups). rewrite (as_u32_small (Z.shiftr o 11)) by lia.
  assert (Hlen : len (filter_offsets self) = len groups).
  { destruct (rep_filters _ _ _ Hr) as (fs&_&->&Hall). rewrite len_key_offsets.
    unfold len. by rewrite (Forall2_length _ _ _ Hall). }
  rewrite Hlen, as_u32_small, (proj2 (Z.leb_le _ _)) by lia.
  apply fb_rep_generate_filters; try done. lia.
Qed.
End builder.

(** ** The serialized block *)

Section layout.
Context `{E : IntegerEncoding, !IntegerEncodingSpec E}.

Lemma put_offsets_spec offs p z :
  4 * len offs ≤ len z →
  put_offsets offs (p ++ z) (len p) =
    Done (p ++ u32s offs ++ drop (length (u32s offs)) z, len p + 4 * len offs).
Proof.
  revert p z. induction offs as [|o offs IH]; intros p z Hz.
  { simpl. rewrite Z.add_0_r. done. }
  cbn [put_offsets]. autorewrite with rust in Hz. pose proof (len_nonneg offs).
  rewrite <- (take_drop 4 z) at 1.
  rewrite write_bytes_at_mid.
  - cbn [bind].
    replace (len p + 4) with (len (p ++ encode_fixed32 (as_u32 o)))
      by (rewrite len_app, encode_fixed32_len; lia).
    rewrite app_assoc, IH by (unfold len in *; rewrite length_drop; lia).
    rewrite drop_drop, <- !app_assoc. autorewrite with rust. rewrite encode_fixed32_len.
    change (u32s (o :: offs)) with (encode_fixed32 (as_u32 o) ++ u32s offs).
    rewrite <- app_assoc, length_app.
    assert (El : length (encode_fixed32 (as_u32 o)) = 4%nat).
    { pose proof (encode_fixed32_len (as_u32 o)). unfold len in *. lia. }
    rewrite El. do 2 f_equal. lia.
  - done.
  - rewrite encode_fixed32_len. unfold len in *. rewrite length_take. lia.
Qed.

Definition fb_layout (fs : list bytes) : bytes :=
  mjoin fs ++ u32s (key_offsets fs ++ [len (mjoin fs)]) ++ [x0b].

Lemma fb_finish_layout self groups pending fs :
  fb_rep self groups pending → pending = [] →
  filters self = mjoin fs → filter_offsets self = key_offsets fs →
  fb_finish self = Done (fb_layout fs).
Proof.
  intros Hr -> Hfs Hfo. unfold fb_finish. rewrite (rep_keys _ _ _ Hr). simpl. rewrite Hfs, Hfo.
  set (F := mjoin fs). set (Os := key_offsets fs). pose proof (len_nonneg Os). pose proof (len_nonneg F).
  unfold vec_resize. rewrite resize_ge by (unfold len; lia).
  set (n := (_ - length F)%nat). assert (Hn : Z.of_nat n = 4 * len Os + 5) by (unfold n, len in *; lia).
  rewrite put_offsets_spec by (unfold len at 2; rewrite length_replicate; lia). cbn [bind].
  assert (Hu : length (u32s Os) = Z.to_nat (4 * len Os)) by (rewrite <- len_u32s; unfold len; lia).
  rewrite Hu, drop_replicate. replace (n - Z.to_nat (4 * len Os))%nat with 5%nat by lia.
  pose proof (write_bytes_at_mid (F ++ u32s Os) (replicate 4 x00) [x00]
    (encode_fixed32 (as_u32 (len F))) (len F + 4 * len Os)) as Hw.
  rewrite <- !app_assoc in Hw. cbn [replicate app] in *. rewrite Hw; clear Hw.
  - cbn [bind]. unfold set_index. rewrite (proj2 (Z.leb_le 0 _)) by lia.
    rewrite (proj2 (Z.ltb_lt _ _)).
    + cbn [andb]. f_equal. unfold fb_layout. fold F Os. rewrite u32s_app.

      change (u32s [len F]) with (encode_fixed32 (as_u32 (len F)) ++ []).
      rewrite app_nil_r, !app_assoc.
      rewrite insert_app_r_alt; rewrite !length_app.
      * match goal with |- context [<[?i := _]> _] => replace i with 0%nat; [done|] end.
        pose proof (encode_fixed32_len (as_u32 (len F))). unfold len in *. lia.
      * pose proof (encode_fixed32_len (as_u32 (len F))). unfold len in *. lia.
    + autorewrite with rust. rewrite encode_fixed32_len, len_u32s. lia.
  - rewrite len_app, len_u32s. done.
  - by rewrite encode_fixed32_len.
Qed.

(** *** Reading it back *)

Definition offset_table (fs : list bytes) : list Z := key_offsets fs ++ [len (mjoin fs)].

Lemma offsets_from_lookup o fs (i : nat) :
  (i < length fs)%nat → offsets_from o fs !! i = Some (o + len (mjoin (take i fs))).
Proof.
  revert o i. induction fs as [|f fs IH]; intros o [|i] Hi; simpl in *; try lia.
  - f_equal. change (len (@nil byte)) with 0. lia.
  - rewrite IH by lia. f_equal. rewrite len_app. lia.
Qed.

Lemma offset_table_lookup fs (i : nat) :
  (i ≤ length fs)%nat → offset_table fs !! i = Some (len (mjoin (take i fs))).
Proof.
  intros Hi. unfold offset_table.
  assert (El : length (key_offsets fs) = length fs).
  { pose proof (len_key_offsets fs). unfold len in *. lia. }
  destruct (decide (i = length fs)) as [->|].
  - rewrite <- El, list_lookup_middle, El, firstn_all by done. done.
  - rewrite lookup_app_l by lia. unfold key_offsets. by rewrite offsets_from_lookup by lia.
Qed.

Lemma mjoin_take_le (fs : list bytes) (i : nat) : len (mjoin (take i fs)) ≤ len (mjoin fs).
Proof.
  rewrite <- (take_drop i fs) at 2. rewrite join_app, len_app.
  pose proof (len_nonneg (mjoin (drop i fs))). lia.
Qed.

Context (p : FilterPolicy) (fs : list bytes).
Hypothesis Hsize : len (fb_layout fs) < U32.

Lemma len_fb_layout : len (fb_layout fs) = len (mjoin fs) + 4 * len fs + 5.
Proof.
  unfold fb_layout. rewrite !len_app, len_u32s, len_app, len_key_offsets.
  change (len [len (mjoin fs)]) with 1. change (len [x0b]) with 1. lia.
Qed.

Definition layout_reader : FilterBlockReader :=
  mkFilterBlockReader p (fb_layout fs) (len (mjoin fs)) FILTER_BASE_LOG2.

Lemma FilterBlockReader_new_layout : FilterBlockReader_new p (fb_layout fs) = Done layout_reader.
Proof.
  unfold FilterBlockReader_new. rewrite len_fb_layout in *.
  pose proof (len_nonneg (mjoin fs)). pose proof (len_nonneg fs).
  rewrite (proj2 (Z.leb_le _ _)) by lia. unfold fb_layout.
  rewrite app_assoc, index_app_middle by (rewrite len_app, len_u32s, len_app, len_key_offsets;
    change (len [len (mjoin fs)]) with 1; lia). cbn [bind].
  rewrite u32s_app, app_assoc, <- app_assoc.
  change (u32s [len (mjoin fs)]) with (encode_fixed32 (as_u32 (len (mjoin fs))) ++ []). rewrite app_nil_r.
  rewrite slice_mid.
  - cbn [bind]. rewrite decode_encode_fixed32 by apply as_u32_range.
    unfold layout_reader, fb_layout. rewrite u32s_app.
    change (u32s [len (mjoin fs)]) with (encode_fixed32 (as_u32 (len (mjoin fs))) ++ []). rewrite app_nil_r.
    rewrite <- !app_assoc. rewrite as_u32_small at 2 by lia. done.
  - rewrite len_app, len_u32s, len_key_offsets. lia.
  - rewrite len_app, len_u32s, len_key_offsets, encode_fixed32_len. lia.
Qed.

Lemma num_layout : num layout_reader = Done (len fs).
Proof.
  unfold num. cbn. rewrite len_fb_layout in *. pose proof (len_nonneg (mjoin fs)).
  pose proof (len_nonneg fs). rewrite !usub_Done by lia. cbn [bind]. rewrite usub_Done by lia. cbn [bind].
  replace (len (mjoin fs) + 4 * len fs + 5 - len (mjoin fs) - 5) with (len fs * 4) by lia.
  rewrite Z.div_mul, as_u32_small by lia. done.
Qed.

Lemma offset_of_layout (i : nat) :
  (i ≤ length fs)%nat → offset_of layout_reader (Z.of_nat i) = Done (len (mjoin (take i fs))).
Proof.
  intros Hi. unfold offset_of. cbn. rewrite len_fb_layout in *.
  pose proof (len_nonneg (mjoin fs)). pose proof (mjoin_take_le fs i).
  pose proof (len_nonneg fs). pose proof (len_nonneg (mjoin (take i fs))).
  destruct (u32s_lookup _ _ _ (offset_table_lookup fs i Hi)) as (a&b&Ha&Hl).
  unfold fb_layout. unfold offset_table in Ha. rewrite Ha, <- !app_assoc, (app_assoc (mjoin fs)).
  rewrite slice_mid.
  - cbn [bind]. rewrite as_u32_small, decode_encode_fixed32 by lia. done.
  - rewrite len_app. lia.
  - rewrite len_app, encode_fixed32_len. lia.
Qed.

(** Querying a block offset asks the policy about the filter of its index. *)
Lemma fr_key_may_match_layout (i : nat) f o key :
  fs !! i = Some f → f ≠ [] → Z.shiftr o 11 = Z.of_nat i →
  fr_key_may_match layout_reader o key = key_may_match p key f.
Proof.
  intros Hf Hne Ho. apply lookup_lt_Some in Hf as Hi.
  unfold fr_key_may_match, get_filter_index. cbn [layout_reader filter_base_lg2].
  change (FILTER_BASE_LOG2 <? 64) with true. cbn [bind].
  change FILTER_BASE_LOG2 with 11. rewrite Ho.
  pose proof len_fb_layout as Hll. pose proof (len_nonneg (mjoin fs)).
  rewrite as_u32_small by (unfold len in *; lia).
  rewrite num_layout. cbn [bind]. rewrite (proj2 (Z.ltb_ge _ _)) by (unfold len in *; lia).
  rewrite offset_of_layout by lia. cbn [bind].
  rewrite (proj2 (Z.ltb_lt (Z.of_nat i + 1) U32)) by (unfold len in *; lia).
  replace (Z.of_nat i + 1) with (Z.of_nat (S i)) by lia.
  rewrite offset_of_layout by lia. cbn [bind layout_reader offsets_offset fr_block fr_policy].
  assert (Esplit : mjoin (take (S i) fs) = mjoin (take i fs) ++ f).
  { by rewrite (take_S_r _ _ f), mjoin_snoc by done. }
  pose proof (mjoin_take_le fs (S i)). rewrite Esplit in *. rewrite len_app in *.
  assert (0 < len f) by (destruct f; [done|rewrite len_cons; pose proof (len_nonneg f); lia]).
  rewrite (proj2 (Z.ltb_lt _ _)), (proj2 (Z.leb_le _ _)) by lia.
  unfold fb_layout.
  rewrite <- (take_drop_middle fs i f Hf) at 1. rewrite join_app. cbn [mjoin list_join].
  rewrite <- !app_assoc, slice_mid; [done|done|]. lia.
Qed.
End layout.

(** ** Blocks of keys *)

(** What the table builder does for one data block: announce its offset, then
    add its keys. *)
Definition add_block (blk : Z * list bytes) (b : FilterBlockBuilder) : outcome FilterBlockBuilder :=
  let! b := start_block (fst blk) b in
  Done (foldl (λ b k, fb_add_key k b) b (snd blk)).

Definition block_keys (blocks : list (Z * list bytes)) : list bytes := mjoin (snd <$> blocks).

Section blocks.
Context (p : FilterPolicy) (fits : list bytes → Prop).
Context `{!FilterPolicySpec p fits, !FilterPolicyNonempty p fits}.

(** [b] has seen [blocks]: every key is in the group of its block's index. *)
Record seen (blocks : list (Z * list bytes)) (b : FilterBlockBuilder) : Prop := {
  seen_rep : ∃ groups pending, fb_rep b groups pending ∧
    mjoin (groups ++ [pending]) = block_keys blocks ∧
    (∀ o ks key, (o, ks) ∈ blocks → key ∈ ks →
      ∃ (i : nat) g, Z.shiftr o 11 = Z.of_nat i ∧ (groups ++ [pending]) !! i = Some g ∧ key ∈ g) ∧
    match last blocks with
    | Some (o, _) => len groups = Z.shiftr o 11
    | None => groups = []
    end;
  seen_policy : fb_policy b = p;
}.

Lemma seen_new : seen [] (FilterBlockBuilder_new p).
Proof.
  split; [|done]. exists [], []. split; [apply fb_rep_new|]. split; [done|]. split; [|done].
  intros o ks key H. by apply not_elem_of_nil in H.
Qed.

Lemma mjoin_replicate_nil {A} n : mjoin (replicate n (@nil A)) = [].
Proof. by induction n. Qed.

Lemma sublist_mjoin {A} (ls : list (list A)) (i : nat) l :
  ls !! i = Some l → l `sublist_of` mjoin ls.
Proof.
  intros H. rewrite <- (take_drop_middle ls i l H), join_app.
  apply sublist_inserts_l. cbn. by apply sublist_inserts_r.
Qed.

Lemma block_keys_snoc blocks o ks : block_keys (blocks ++ [(o, ks)]) = block_keys blocks ++ ks.
Proof.
  unfold block_keys. rewrite fmap_app. change (snd <$> [(o, ks)]) with [ks]. apply mjoin_snoc.
Qed.

(** One more block, at an offset not before the last one. *)
Lemma seen_add_block blocks b o ks :
  seen blocks b → Forall (λ k, k ≠ []) ks →
  (∀ l, l `sublist_of` block_keys blocks → fits l) →
  0 ≤ o → Z.shiftr o 11 < U32 →
  (∀ o' ks', last blocks = Some (o', ks') → o' ≤ o) →
  ∃ b', add_block (o, ks) b = Done b' ∧ seen (blocks ++ [(o, ks)]) b'.
Proof.
  intros [(groups&pending&Hr&Hjoin&Hall&Hlast) Hpol] Hks Hfits Ho Ho32 Hle.
  assert (Hsub : pending `sublist_of` block_keys blocks).
  { rewrite <- Hjoin, mjoin_snoc. by apply sublist_inserts_l. }
  assert (Hix : len groups ≤ Z.shiftr o 11 < U32).
  { split; [|done]. destruct (last blocks) as [[o' ks']|] eqn:El.
    - rewrite Hlast, !Z.shiftr_div_pow2 by lia. apply Z.div_le_mono; [done|]. by eapply Hle.
    - subst groups. change (len []) with 0. apply Z.shiftr_nonneg. lia. }
  destruct (fb_rep_start_block fits p b groups pending o Hpol Hr (Hfits _ Hsub)
    (Hfits [] (sublist_nil_l _)) Hix) as (b1&groups1&pending1&Eb1&Hpol1&Hr1&Hl1&n&Hview).
  destruct (fb_rep_add_keys b1 groups1 pending1 ks Hks Hr1) as [Hr2 Hpol2].
  unfold add_block. cbn [fst snd]. rewrite Eb1. cbn [bind]. eexists. split; [done|].
  split; [|congruence]. exists groups1, (pending1 ++ ks). split; [done|].
  assert (Hlook : ∀ i g, (groups ++ [pending]) !! i = Some g → ∃ g',
    (groups1 ++ [pending1 ++ ks]) !! i = Some g' ∧ ∀ key, key ∈ g → key ∈ g').
  { intros i g Hg. apply (lookup_app_l_Some _ (replicate n [])) in Hg. rewrite <- Hview in Hg.
    apply lookup_app_Some in Hg as [Hg|[Hi Hg]].
    - exists g. split; [by apply lookup_app_l_Some|done].
    - apply list_lookup_singleton_Some in Hg as [Hi0 <-]. exists (pending1 ++ ks).
      split; [|intros; apply elem_of_app; auto]. rewrite lookup_app_r, Hi0 by done. done. }
  repeat split.
  - rewrite mjoin_snoc, app_assoc, <- mjoin_snoc, Hview, join_app, Hjoin, block_keys_snoc.
    by rewrite mjoin_replicate_nil, app_nil_r.
  - intros o' ks' key [Hin|[= -> ->]%list_elem_of_singleton]%elem_of_app Hkey.
    + destruct (Hall o' ks' key Hin Hkey) as (i&g&Hi&Hg&Hk).
      destruct (Hlook i g Hg) as (g'&Hg'&Hsub'). eauto 10.
    + exists (length groups1), (pending1 ++ ks). split; [by rewrite <- Hl1|].
      split; [by rewrite list_lookup_middle|].
      apply elem_of_app. auto.
  - by rewrite last_snoc.
Qed.

(** [finish] closes the open group unless it is empty. *)
Lemma finish_groups `{E : IntegerEncoding, !IntegerEncodingSpec E} b groups pending :
  fb_policy b = p → fb_rep b groups pending → fits pending →
  ∃ fs groups', fb_finish b = Done (fb_layout fs) ∧ Forall2 (group_filter p) groups' fs ∧
    (groups' = groups ∨ groups' = groups ++ [pending]) ∧
    ∀ (i : nat) g, (groups ++ [pending]) !! i = Some g → g ≠ [] → groups' !! i = Some g.
Proof.
  intros Hpol Hr Hfits. destruct (decide (pending = [])) as [->|Hne].
  - destruct (rep_filters _ _ _ Hr) as (fs&Hfs&Hfo&Hall). rewrite Hpol in Hall.
    exists fs, groups. split; [by eapply fb_finish_layout|]. split; [done|]. split; [by left|].
    intros i g [Hg|[_ Hg]]%lookup_app_Some Hg0; [done|].
    by apply list_lookup_singleton_Some in Hg as [_ <-].
  - destruct (fb_rep_generate fits p b groups pending Hpol Hr Hfits) as (b'&Eb'&Hpol'&Hr').
    destruct (rep_filters _ _ _ Hr') as (fs&Hfs&Hfo&Hall). rewrite Hpol' in Hall.
    exists fs, (groups ++ [pending]). split; [|split; [done|split; [by right|done]]].
    rewrite <- (fb_finish_layout b' _ [] fs Hr' eq_refl Hfs Hfo).
    unfold fb_finish. rewrite decide_False, Eb'.
    + cbn [bind]. by rewrite decide_True by (by rewrite (rep_keys _ _ _ Hr')).
    + rewrite (rep_keys _ _ _ Hr). intros H. by apply mjoin_nonempty in H; [|apply Hr].
Qed.

(** Serializing what was seen: every block with keys has a non-empty filter in
    the layout, at its index, which answers for every key and yes for those
    of the block. *)
Lemma seen_finish `{E : IntegerEncoding, !IntegerEncodingSpec E} blocks b :
  seen blocks b → (∀ l, l `sublist_of` block_keys blocks → fits l) →
  ∃ fs, fb_finish b = Done (fb_layout fs) ∧
    ∀ o ks key, (o, ks) ∈ blocks → key ∈ ks →
      ∃ (i : nat) f, Z.shiftr o 11 = Z.of_nat i ∧ fs !! i = Some f ∧ f ≠ [] ∧
                     key_may_match p key f = Done true ∧
                     ∀ k, len k < U32 → returns (key_may_match p k f).
Proof.
  intros [(groups&pending&Hr&Hjoin&Hall&Hlast) Hpol] Hfits.
  destruct (finish_groups b groups pending Hpol Hr) as (fs&groups'&Efin&Hgs&_&Hsame).
  { apply Hfits. rewrite <- Hjoin, mjoin_snoc. by apply sublist_inserts_l. }
  exists fs. split; [done|]. intros o ks key Hin Hkey.
  destruct (Hall o ks key Hin Hkey) as (i&g&Hi&Hg&Hk).
  assert (Hfg : fits g) by (apply Hfits; rewrite <- Hjoin; by eapply sublist_mjoin).
  destruct g as [|k0 g]; [by apply not_elem_of_nil in Hk|].
  apply Hsame in Hg; [|done].
  destruct (Forall2_lookup_l _ _ _ _ _ Hgs Hg) as (f&Hf&Hgf). simpl in Hgf.
  exists i, f. split; [done|]. split; [done|]. split; [by eapply filter_nonempty|].
  destruct (filter_no_false_negative (k0 :: g) Hfg) as (f'&Ef'&Hall').
  change (create_filter p (mjoin (k0 :: g)) (key_offsets (k0 :: g)) = Done f) in Hgf.
  split; [rewrite Hgf in Ef'; simplify_eq; auto|].
  intros k. by apply (filter_total (k0 :: g)).
Qed.

(** The size of the filters of the groups, when the keys are those of [blocks]. *)
Lemma groups_sized rate `{!FilterPolicySized p fits rate} groups fs :
  Forall2 (group_filter p) groups fs → (∀ l, l `sublist_of` mjoin groups → fits l) →
  len (mjoin fs) ≤ rate * len (mjoin groups).
Proof.
  induction 1 as [|g f groups fs Hf _ IH]; intros Hfits; [by rewrite Z.mul_0_r|].
  change (mjoin (f :: fs)) with (f ++ mjoin fs). change (mjoin (g :: groups)) with (g ++ mjoin groups) in *.
  rewrite !len_app. assert (len (mjoin fs) ≤ rate * len (mjoin groups)).
  { apply IH. intros l Hl. apply Hfits. by apply sublist_inserts_l. }
  assert (len f ≤ rate * len g); [|lia]. destruct g as [|k g]; [cbn in Hf; subst f; by rewrite Z.mul_0_r|].
  apply filter_sized; [done| |done]. apply Hfits. by apply sublist_inserts_r.
Qed.

(** The sizes of a filter builder and of its filter block, for the offset of the
    last block. *)
Lemma seen_sizes `{E : IntegerEncoding, !IntegerEncodingSpec E} rate `{!FilterPolicySized p fits rate}
    blocks b o ks :
  seen blocks b → (∀ l, l `sublist_of` block_keys blocks → fits l) → last blocks = Some (o, ks) →
  let most := rate * len (block_keys blocks) + 4 * (Z.shiftr o 11 + 1) + 5 in
  fb_size_estimate b ≤ most ∧ ∀ data, fb_finish b = Done data → len data ≤ most.
Proof.
  intros [(groups&pending&Hr&Hjoin&_&Hlast) Hpol] Hfits Hl. rewrite Hl in Hlast. cbv zeta.
  pose proof (rate_nonneg (FilterPolicySized := _ : FilterPolicySized p fits rate)) as Hrate.
  assert (Hsize : ∀ groups' fs, groups' = groups ∨ groups' = groups ++ [pending] →
    Forall2 (group_filter p) groups' fs →
    len (mjoin fs) ≤ rate * len (block_keys blocks) ∧ len fs ≤ Z.shiftr o 11 + 1).
  { intros groups' fs Hg Hall. rewrite <- Hjoin, mjoin_snoc in *. split.
    - transitivity (rate * len (mjoin groups')).
      + apply (groups_sized rate groups' fs Hall). intros l Hsub. apply Hfits. etransitivity; [exact Hsub|].
        destruct Hg as [->| ->]; [by apply sublist_inserts_r|by rewrite mjoin_snoc].
      + apply Z.mul_le_mono_nonneg_l; [done|].
        destruct Hg as [->| ->]; rewrite ?mjoin_snoc, ?len_app; [|done]. pose proof (len_nonneg pending). lia.
    - apply Forall2_length in Hall. unfold len in *. rewrite <- Hall.
      destruct Hg as [->| ->]; rewrite ?length_app; simpl; lia. }
  split.
  - destruct (rep_filters _ _ _ Hr) as (fs&Hfs&Hfo&Hall). rewrite Hpol in Hall.
    destruct (Hsize groups fs (or_introl eq_refl) Hall) as [Hm Hn].
    unfold fb_size_estimate. rewrite Hfs, Hfo, len_key_offsets. lia.
  - intros data Hfin. destruct (finish_groups b groups pending Hpol Hr) as (fs&groups'&Efin&Hgs&Hsub&_).
    { apply Hfits. rewrite <- Hjoin, mjoin_snoc. by apply sublist_inserts_l. }
    rewrite Efin in Hfin. injection Hfin as <-. rewrite len_fb_layout.
    destruct (Hsize groups' fs Hsub Hgs) as [Hm Hn]. lia.
Qed.

(** The size of the filter block, for the offset of the last block. *)
Lemma seen_finish_size `{E : IntegerEncoding, !IntegerEncodingSpec E, !FilterPolicyBounded p fits}
    blocks b o ks data :
  seen blocks b → (∀ l, l `sublist_of` block_keys blocks → fits l) → last blocks = Some (o, ks) →
  fb_finish b = Done data → len data ≤ (Z.shiftr o 11 + 1) * (U32 + 4) + 5.
Proof.
  intros [(groups&pending&Hr&Hjoin&_&Hlast) Hpol] Hfits Hl Hfin. rewrite Hl in Hlast.
  destruct (finish_groups b groups pending Hpol Hr) as (fs&groups'&Efin&Hgs&Hsub&_).
  { apply Hfits. rewrite <- Hjoin, mjoin_snoc. by apply sublist_inserts_l. }
  rewrite Efin in Hfin. injection Hfin as <-. rewrite len_fb_layout.
  assert (Hlen : len fs ≤ Z.shiftr o 11 + 1).
  { apply Forall2_length in Hgs. unfold len in *. rewrite <- Hgs, <- Hlast.
    destruct Hsub as [->| ->]; rewrite ?length_app; simpl; lia. }
  assert (Hall : Forall (λ f, len f < U32) fs).
  { apply Forall_lookup. intros i f Hf. destruct (Forall2_lookup_r _ _ _ _ _ Hgs Hf) as (g&Hg&Hgf).
    assert (Hfg : fits g).
    { apply Hfits. rewrite <- Hjoin. apply (sublist_mjoin _ i). destruct Hsub as [->| ->]; [|done].
      by apply lookup_app_l_Some. }
    destruct g as [|k0 g]; [by cbn in Hgf; subst|]. by apply (filter_bounded (k0 :: g)). }
  assert (Hj : len (mjoin fs) ≤ len fs * U32).
  { clear -Hall. induction Hall as [|f fs Hf _ IH]; [done|]. change (mjoin (f :: fs)) with (f ++ mjoin fs).
    rewrite len_app, len_cons. unfold U32 in *. lia. }
  pose proof (len_nonneg fs). unfold U32 in *. nia.
Qed.
End blocks.

#[export] Instance NoFilterPolicy_bounded : FilterPolicyBounded NoFilterPolicy (λ _, True).
Proof. split. intros ks f _ [= <-]. done. Qed.

#[export] Instance BloomPolicy_bounded `{E : IntegerEncoding} b :
  0 ≤ b → FilterPolicyBounded (Bloom.policy (Bloom.new b)) (BloomProofs.fits (Bloom.new b)).
Proof.
  intros Hb. split. intros ks f Hfits Ef.
  destruct (BloomProofs.create_filter_spec _ ks (BloomProofs.new_wf b Hb) Hfits) as (body&Ef'&?&?&_).
  cbn in Ef. rewrite Ef' in Ef. injection Ef as <-. rewrite len_app. unfold U32 in *. simpl.
  change (len [_]) with 1. lia.
Qed.

#[export] Instance NoFilterPolicy_sized : FilterPolicySized NoFilterPolicy (λ _, True) 0.
Proof. split; [done|done|]. intros ks f _ _ [= <-]. pose proof (len_nonneg ks). by rewrite Z.mul_0_l. Qed.

#[export] Instance BloomPolicy_sized `{E : IntegerEncoding} b :
  0 ≤ b → FilterPolicySized (Bloom.policy (Bloom.new b)) (BloomProofs.fits (Bloom.new b)) (b + 10).
Proof.
  intros Hb. split; [lia| |].
  - intros ks Hks Hlen. pose proof (len_nonneg ks). split.
    + change (Bloom.bits_per_key (Bloom.new b)) with b. unfold U32. lia.
    + eapply Forall_impl; [exact Hlen|]. unfold U32. cbn. lia.
  - intros ks f Hne Hfits Ef.
    destruct (BloomProofs.create_filter_spec _ ks (BloomProofs.new_wf b Hb) Hfits) as (body&Ef'&?&?&_).
    cbn in Ef. rewrite Ef' in Ef. injection Ef as <-. rewrite len_app. change (len [_]) with 1.
    change (Bloom.bits_per_key (Bloom.new b)) with b in *.
    destruct ks as [|k ks]; [done|]. rewrite len_cons in *. pose proof (len_nonneg ks). nia.
Qed.

#[export] Instance NoFilterPolicy_trivial_fits : FilterPolicySpec NoFilterPolicy (λ _, True) := NoFilterPolicy_spec.

#[export] Instance BloomPolicy_nonempty `{E : IntegerEncoding} b :
  0 ≤ b → FilterPolicyNonempty (Bloom.policy (Bloom.new b)) (BloomProofs.fits (Bloom.new b)).
Proof.
  intros Hb. split. intros ks f Hfits Ef ->.
  destruct (BloomProofs.create_filter_spec _ ks (BloomProofs.new_wf b Hb) Hfits) as (body&Ef'&_).
  cbn in Ef. rewrite Ef' in Ef. by destruct body.
Qed.

(** Adjacent elements are in order. *)
Definition nondecreasing (l : list Z) : Prop :=
  ∀ (i : nat) a b, l !! i = Some a → l !! S i = Some b → a ≤ b.

Lemma nondecreasing_snoc l x :
  nondecreasing (l ++ [x]) → nondecreasing l ∧ ∀ a, last l = Some a → a ≤ x.
Proof.
  intros H. split.
  - intros i a b Ha Hb. apply (H i); by apply lookup_app_l_Some.
  - intros a Ha. rewrite last_lookup in Ha. apply (H (pred (length l)) a x).
    + by apply lookup_app_l_Some.
    + apply lookup_lt_Some in Ha. replace (S (pred (length l))) with (length l) by lia.
      by rewrite list_lookup_middle.
Qed.

(** The blocks a builder may be given: offsets in order, within 32-bit filter
    indices, and non-empty keys. *)
Record wf_blocks (fits : list bytes → Prop) (blocks : list (Z * list bytes)) : Prop := {
  wf_order : nondecreasing (fst <$> blocks);
  wf_offsets : Forall (λ blk, 0 ≤ fst blk ∧ Z.shiftr (fst blk) 11 < U32) blocks;
  wf_keys : Forall (λ blk, Forall (λ k, k ≠ []) (snd blk)) blocks;
  wf_fits : ∀ l, l `sublist_of` block_keys blocks → fits l;
}.

Lemma add_blocks_seen p fits `{!FilterPolicySpec p fits} blocks :
  wf_blocks fits blocks →
  ∃ b, foldM add_block blocks (FilterBlockBuilder_new p) = Done b ∧ seen p blocks b.
Proof.
  induction blocks as [|[o ks] blocks IH] using rev_ind; intros [Hord Hoff Hks Hfits].
  { exists (FilterBlockBuilder_new p). split; [done|]. apply seen_new. }
  rewrite fmap_app in Hord. apply nondecreasing_snoc in Hord as [Hord Hle].
  apply Forall_app in Hoff as [Hoff Ho]. apply Forall_app in Hks as [Hks Hk].
  assert (Hfits' : ∀ l, l `sublist_of` block_keys blocks → fits l).
  { intros l Hl. apply Hfits. rewrite block_keys_snoc. by apply sublist_inserts_r. }
  destruct (IH ltac:(by split)) as (b&Eb&Hb).
  apply Forall_singleton in Ho as [Ho Ho32]. apply Forall_cons in Hk as [Hk _]. simpl in *.
  destruct (seen_add_block p fits blocks b o ks) as (b'&Eb'&Hb'); try done.
  - intros o' ks' Hl. apply Hle. rewrite fmap_last, Hl. done.
  - exists b'. split; [|done]. rewrite foldM_app, Eb. simpl. by rewrite Eb'.
Qed.

(** ** Properties *)

(** C19. No false negatives through a serialized filter block: after any
    sequence of data blocks (offsets in order, non-empty keys), [finish]
    returns bytes which the reader accepts and in which every key matches at
    the offset of its own block, several blocks sharing a filter or not, for
    every policy that keeps its contract. *)
Theorem FilterBlock_no_false_negatives `{E : IntegerEncoding, !IntegerEncodingSpec E}
    p fits `{!FilterPolicySpec p fits, !FilterPolicyNonempty p fits} blocks :
  wf_blocks fits blocks →
  ∃ b data, foldM add_block blocks (FilterBlockBuilder_new p) = Done b ∧ fb_finish b = Done data ∧
    (len data < U32 →
     ∃ r, FilterBlockReader_new_owned p data = Done r ∧
       ∀ o ks key, (o, ks) ∈ blocks → key ∈ ks → fr_key_may_match r o key = Done true).
Proof.
  intros Hwf. destruct (add_blocks_seen p fits blocks Hwf) as (b&Eb&Hseen).
  destruct (seen_finish p fits blocks b Hseen (wf_fits _ _ Hwf)) as (fs&Efin&Hmatch).
  exists b, (fb_layout fs). split; [done|]. split; [done|]. intros Hsize.
  exists (layout_reader p fs). split; [by apply FilterBlockReader_new_layout|].
  intros o ks key Hin Hkey. destruct (Hmatch o ks key Hin Hkey) as (i&f&Hi&Hf&Hne&Hm&_).
  by rewrite (fr_key_may_match_layout p fs Hsize i f).
Qed.

(** C39. Past the last filter: an offset whose filter index is beyond the
    number of filters matches every key, as intended, but the index just equal
    to that number passes the range check and the reader panics on the offset
    array. *)
Theorem FilterBlockReader_index_past_end `{E : IntegerEncoding, !IntegerEncodingSpec E} p fs o key :
  len (fb_layout fs) < U32 → Z.shiftr o 11 < U32 →
  (len fs < Z.shiftr o 11 → fr_key_may_match (layout_reader p fs) o key = Done true) ∧
  (len fs = Z.shiftr o 11 → fr_key_may_match (layout_reader p fs) o key = Panic).
Proof.
  intros Hsize Ho. pose proof (len_fb_layout fs). pose proof (len_nonneg fs).
  pose proof (len_nonneg (mjoin fs)).
  unfold fr_key_may_match, get_filter_index. change (filter_base_lg2 (layout_reader p fs)) with 11.
  change (11 <? 64) with true. cbn [bind]. split; intros Hix.
  - rewrite as_u32_small, num_layout by lia. cbn [bind].
    by rewrite (proj2 (Z.ltb_lt _ _)) by lia.
  - rewrite as_u32_small, num_layout by lia. cbn [bind].
    rewrite (proj2 (Z.ltb_ge _ _)), <- Hix by lia.
    unfold len at 1. rewrite offset_of_layout by lia. cbn [bind].
    destruct (_ <? U32); [|done]. unfold offset_of, slice. cbn [layout_reader offsets_offset fr_block].
    destruct (len (mjoin fs) + 4 * (len fs + 1) + 4 <=? len (fb_layout fs)) eqn:Hle.
    + bool_to_prop. lia.
    + by rewrite andb_false_r.
Qed.

(** An empty filter in a well-formed block makes the reader panic
    instead of matching: every filter of [NoFilterPolicy] is empty. *)
Theorem FilterBlockReader_empty_filter_panics `{E : IntegerEncoding, !IntegerEncodingSpec E} p fs (i : nat) o key :
  len (fb_layout fs) < U32 → fs !! i = Some [] → Z.shiftr o 11 = Z.of_nat i →
  fr_key_may_match (layout_reader p fs) o key = Panic.
Proof.
  intros Hsize Hf Ho. pose proof (len_fb_layout fs). pose proof (len_nonneg (mjoin fs)).
  apply lookup_lt_Some in Hf as Hi.
  unfold fr_key_may_match, get_filter_index. change (filter_base_lg2 (layout_reader p fs)) with 11.
  change (11 <? 64) with true. cbn [bind]. rewrite Ho.
  rewrite as_u32_small, num_layout by (unfold len in *; lia). cbn [bind].
  rewrite (proj2 (Z.ltb_ge _ _)) by (unfold len; lia).
  rewrite offset_of_layout by lia. cbn [bind].
  destruct (_ <? U32); [|done]. replace (Z.of_nat i + 1) with (Z.of_nat (S i)) by lia.
  rewrite offset_of_layout by lia. cbn [bind].
  rewrite (take_S_r _ _ []), mjoin_snoc, app_nil_r by done.
  by rewrite Z.ltb_irrefl.
Qed.
