(* ===== verification/Options.v ===== *)
(** * Options (src/options.rs)

    The parameters of reading and writing tables. The shared block cache
    [opt.block_cache] is state that several tables share, so it is not a field
    here: the operations that use it take and return it. *)

From S2P Require Export Prelude Cmp Encoding Filter.

Definition KB : Z := Z.shiftl 1 10.
Definition MB : Z := KB * KB.

Definition BLOCK_MAX_SIZE : Z := 4 * KB.
Definition BLOCK_CACHE_CAPACITY : Z := 8 * MB.
Definition WRITE_BUFFER_SIZE : Z := 4 * MB.
Definition DEFAULT_BITS_PER_KEY : Z := 10.

Inductive CompressionType := CompressionNone | CompressionSnappy.

#[export] Instance CompressionType_eq_dec : EqDecision CompressionType.
Proof. solve_decision. Defined.

(** The discriminants, [ctype as u8]. *)
Definition compressiontype_to_int (c : CompressionType) : Z :=
  match c with
  | CompressionNone => 0
  | CompressionSnappy => 1
  end.

Definition int_to_compressiontype (i : Z) : option CompressionType :=
  match i with
  | 0 => Some CompressionNone
  | 1 => Some CompressionSnappy
  | _ => None
  end.

Record Options := mkOptions {
  opt_cmp : Cmp;
  write_buffer_size : Z;
  block_size : Z;
  block_restart_interval : Z;
  compression_type : CompressionType;
  filter_policy : FilterPolicy;
}.

Definition Options_default `{E : IntegerEncoding} : Options :=
  mkOptions DefaultCmp WRITE_BUFFER_SIZE BLOCK_MAX_SIZE 16 CompressionNone
    (Bloom.policy (Bloom.new DEFAULT_BITS_PER_KEY)).

(** The capacity of the cache that [Options::default()] creates. *)
Definition default_cache_capacity : Z := BLOCK_CACHE_CAPACITY / BLOCK_MAX_SIZE.

(** The stored compression byte names the type it was written for, and no other
    byte names a type. *)
Lemma compressiontype_roundtrip c i :
  int_to_compressiontype i = Some c ↔ i = compressiontype_to_int c.
Proof.
  split; [|intros ->; by destruct c].
  unfold int_to_compressiontype. intros H. repeat (case_match; try done); by simplify_eq.
Qed.
