(* ===== verification/BlockLayout.v ===== *)
(** * The block format (documentation of [Block] in src/block.rs)

    A block is a list of entries, the array of restart offsets and the number
    of restarts. This file is the abstract side that the builder and the
    iterator are both proved against: entries with their shared-prefix length,
    their encoding, and the invariants of a well-formed block. *)

From S2P Require Export Prelude Encoding.

Record entry := mkEntry { e_shared : nat; e_key : bytes; e_val : bytes }.

(** The pair a client sees. *)
Definition e_kv (e : entry) : bytes * bytes := (e_key e, e_val e).

Section layout.
Context `{E : IntegerEncoding}.

(** [SHARED NON_SHARED VALSIZE], the header of an entry. *)
Definition enc_header (e : entry) : bytes :=
  encode_var (Z.of_nat (e_shared e)) ++ encode_var (len (e_key e) - Z.of_nat (e_shared e))
    ++ encode_var (len (e_val e)).

Definition enc_entry (e : entry) : bytes :=
  enc_header e ++ drop (e_shared e) (e_key e) ++ e_val e.

Definition enc_entries (es : list entry) : bytes := mjoin (enc_entry <$> es).

(** Where entry [i] starts; [off es (length es)] is the restart array. *)
Definition off (es : list entry) (i : nat) : Z := len (enc_entries (take i es)).

Definition enc_block (es : list entry) (rs : list nat) : bytes :=
  enc_entries es ++ u32s (off es <$> rs) ++ encode_fixed32 (as_u32 (len rs)).

(** Prefix compression is consistent along the list. *)
Record wf_entries (es : list entry) : Prop := {
  wf_shared i e : es !! i = Some e → (e_shared e ≤ length (e_key e))%nat;
  wf_first e : es !! 0%nat = Some e → e_shared e = 0%nat;
  wf_chain i e e' : es !! i = Some e → es !! S i = Some e' →
    take (e_shared e') (e_key e') = take (e_shared e') (e_key e);
}.

(** Restart points: the first entry, then later entries in order, each
    stored with its whole key. *)
Record wf_restarts (es : list entry) (rs : list nat) : Prop := {
  wf_restart0 : rs !! 0%nat = Some 0%nat;
  wf_restart_lt i a b : rs !! i = Some a → rs !! S i = Some b → (a < b)%nat;
  wf_restart_in i r : rs !! S i = Some r → (r < length es)%nat;
  wf_restart_shared i r e : rs !! i = Some r → es !! r = Some e → e_shared e = 0%nat;
}.

Lemma enc_entries_app es1 es2 : enc_entries (es1 ++ es2) = enc_entries es1 ++ enc_entries es2.
Proof. unfold enc_entries. by rewrite fmap_app, join_app. Qed.

Lemma enc_entries_snoc es e : enc_entries (es ++ [e]) = enc_entries es ++ enc_entry e.
Proof. rewrite enc_entries_app. unfold enc_entries at 2. simpl. by rewrite app_nil_r. Qed.

Lemma off_0 es : off es 0 = 0.
Proof. done. Qed.

Lemma off_all es (i : nat) : (length es ≤ i)%nat → off es i = len (enc_entries es).
Proof. intros H. unfold off. by rewrite take_ge by lia. Qed.

Lemma off_S es (i : nat) e : es !! i = Some e → off es (S i) = off es i + len (enc_entry e).
Proof. intros H. unfold off. by rewrite (take_S_r _ _ e), enc_entries_snoc, len_app by done. Qed.

Lemma off_snoc es e (i : nat) : (i ≤ length es)%nat → off (es ++ [e]) i = off es i.
Proof. intros H. unfold off. by rewrite take_app_le by lia. Qed.

Context `{!IntegerEncodingSpec E}.

Lemma len_enc_header e : 3 ≤ len (enc_header e).
Proof.
  unfold enc_header. rewrite !len_app.
  pose proof (encode_var_nonempty (Z.of_nat (e_shared e))).
  pose proof (encode_var_nonempty (len (e_key e) - Z.of_nat (e_shared e))).
  pose proof (encode_var_nonempty (len (e_val e))). lia.
Qed.

Lemma len_enc_entry e :
  len (enc_entry e) = len (enc_header e) + len (drop (e_shared e) (e_key e)) + len (e_val e).
Proof. unfold enc_entry. rewrite !len_app. lia. Qed.

Lemma off_lt_S es (i : nat) : (i < length es)%nat → off es i + 3 ≤ off es (S i).
Proof.
  intros [e He]%lookup_lt_is_Some_2. rewrite (off_S es i e He), len_enc_entry.
  pose proof (len_enc_header e). pose proof (len_nonneg (drop (e_shared e) (e_key e))).
  pose proof (len_nonneg (e_val e)). lia.
Qed.

Lemma off_mono es (i j : nat) : (i ≤ j)%nat → (j ≤ length es)%nat →
  off es i + 3 * (Z.of_nat j - Z.of_nat i) ≤ off es j.
Proof.
  intros Hij. induction Hij as [|j Hij IH]; intros Hj; [lia|].
  pose proof (off_lt_S es j). lia.
Qed.

Lemma off_le es (i j : nat) : (i ≤ j)%nat → (j ≤ length es)%nat → off es i ≤ off es j.
Proof. intros Hij Hj. pose proof (off_mono es i j Hij Hj). lia. Qed.

(** Offsets order the entries. *)
Lemma off_lt_iff es (i j : nat) :
  (i ≤ length es)%nat → (j ≤ length es)%nat → off es i < off es j ↔ (i < j)%nat.
Proof.
  intros Hi Hj. split; intros H.
  - destruct (decide (i < j)%nat); [done|]. pose proof (off_le es j i). lia.
  - pose proof (off_mono es i j). lia.
Qed.

Lemma off_nonneg es i : 0 ≤ off es i.
Proof. apply len_nonneg. Qed.

Lemma enc_entries_nil es : enc_entries es = [] → es = [].
Proof.
  destruct es as [|e es]; [done|]. intros H. apply (f_equal len) in H.
  rewrite <- (off_all (e :: es) (length (e :: es))) in H by done.
  pose proof (off_mono (e :: es) 0 (length (e :: es))). rewrite off_0, len_nil in *. simpl in *. lia.
Qed.

(** An entry of a block, between what precedes and what follows it. *)
Lemma enc_entries_split es (i : nat) e :
  es !! i = Some e →
  enc_entries es = enc_entries (take i es) ++ enc_entry e ++ enc_entries (drop (S i) es).
Proof.
  intros H. rewrite <- (take_drop_middle es i e H) at 1.
  rewrite enc_entries_app. f_equal.
Qed.

Lemma restarts_increasing es rs (i j : nat) a b :
  wf_restarts es rs → (i < j)%nat → rs !! i = Some a → rs !! j = Some b → (a < b)%nat.
Proof.
  intros Hrs Hij. revert b. induction Hij as [|j Hij IH]; intros b Ha Hb.
  - by eapply wf_restart_lt.
  - destruct (lookup_lt_is_Some_2 rs j) as [c Hc]; [apply lookup_lt_Some in Hb; lia|].
    specialize (IH c Ha Hc). pose proof (wf_restart_lt _ _ Hrs j c b Hc Hb). lia.
Qed.

Lemma restart_le es rs (i : nat) r : wf_restarts es rs → rs !! i = Some r → (r ≤ length es)%nat.
Proof.
  intros Hrs Hi. destruct i as [|i].
  - rewrite (wf_restart0 _ _ Hrs) in Hi. simplify_eq. lia.
  - pose proof (wf_restart_in _ _ Hrs i r Hi). lia.
Qed.

Lemma restarts_pos es rs : wf_restarts es rs → (0 < length rs)%nat.
Proof. intros Hrs. by eapply lookup_lt_Some, wf_restart0. Qed.
End layout.
