(* ===== verification/BlockBuilder.v ===== *)
(** * Block builder (src/block_builder.rs)

    Appends prefix-compressed entries to a buffer, with a restart point every
    [block_restart_interval] entries. *)

From S2P Require Export Prelude Cmp Encoding Options BlockLayout.

Record BlockBuilder := mkBlockBuilder {
  bb_opt : Options;
  buffer : bytes;
  restarts : list Z;
  last_key : bytes;
  restart_counter : Z;
  counter : Z;
}.

Definition BlockBuilder_new (o : Options) : BlockBuilder := mkBlockBuilder o [] [0] [] 0 0.

Definition entries (self : BlockBuilder) : Z := counter self.

Definition bb_size_estimate (self : BlockBuilder) : Z :=
  len (buffer self) + 4 * len (restarts self) + 4.

(** [while shared < smallest && self.last_key[shared] == key[shared]] *)
Fixpoint shared_loop (fuel : nat) (last_key key : bytes) (smallest shared : Z) : outcome Z :=
  match fuel with
  | O => NoFuel
  | S n =>
      if shared <? smallest then
        let! x := index last_key shared in
        let! y := index key shared in
        if b2z x =? b2z y then shared_loop n last_key key smallest (shared + 1) else Done shared
      else Done shared
  end.

Definition is_lt (c : comparison) : bool := match c with Lt => true | _ => false end.

Section BlockBuilder.
Context `{E : IntegerEncoding}.

Definition bb_add (self : BlockBuilder) (key val : bytes) : outcome BlockBuilder :=
  let opt := bb_opt self in
  assert! restart_counter self <=? block_restart_interval opt in
  assert! bool_decide (buffer self = []) || is_lt (cmp (opt_cmp opt) (last_key self) key) in
  let! (shared, self) :=
    if restart_counter self <? block_restart_interval opt then
      let smallest := if len (last_key self) <? len key then len (last_key self) else len key in
      let! shared := shared_loop (S (length key)) (last_key self) key smallest 0 in
      Done (shared, self)
    else
      Done (0, mkBlockBuilder opt (buffer self) (restarts self ++ [as_u32 (len (buffer self))])
                 (vec_resize (last_key self) 0 x00) 0 (counter self)) in
  let! non_shared := usub (len key) shared in
  let! key_tail := slice_from key shared in
  let buf := buffer self ++ encode_var shared ++ encode_var non_shared ++ encode_var (len val)
               ++ key_tail ++ val in
  Done (mkBlockBuilder opt buf (restarts self)
          (vec_resize (last_key self) shared x00 ++ key_tail)
          (restart_counter self + 1) (counter self + 1)).

Definition bb_finish (self : BlockBuilder) : bytes :=
  buffer self ++ mjoin ((λ r, encode_fixed32 (as_u32 r)) <$> restarts self)
    ++ encode_fixed32 (as_u32 (len (restarts self))).
End BlockBuilder.

(** ** The shared prefix *)

Lemma shared_loop_spec fuel a b n k :
  0 ≤ k ≤ n → n ≤ len a → n ≤ len b → (Z.to_nat (n - k) < fuel)%nat →
  take (Z.to_nat k) a = take (Z.to_nat k) b →
  ∃ s, shared_loop fuel a b n k = Done s ∧ k ≤ s ≤ n ∧
       take (Z.to_nat s) a = take (Z.to_nat s) b ∧
       (s < n → a !! Z.to_nat s ≠ b !! Z.to_nat s).
Proof.
  revert k. induction fuel as [|fuel IH]; intros k Hk Ha Hb Hf Htake; [lia|]. simpl.
  destruct (Z.ltb_spec k n).
  - destruct (lookup_lt_is_Some_2 a (Z.to_nat k)) as [x Hx]; [unfold len in *; lia|].
    destruct (lookup_lt_is_Some_2 b (Z.to_nat k)) as [y Hy]; [unfold len in *; lia|].
    apply index_Done in Hx as Hx', Hy as Hy'. rewrite Z2Nat.id in Hx', Hy' by lia.
    rewrite Hx', Hy'. cbn [bind]. destruct (Z.eqb_spec (b2z x) (b2z y)) as [Exy|Nxy].
    + apply b2z_inj in Exy as ->.
      destruct (IH (k + 1)) as (s&->&?&?&?); [lia|lia|lia|lia| |].
      * replace (Z.to_nat (k + 1)) with (S (Z.to_nat k)) by lia.
        rewrite (take_S_r _ _ y), (take_S_r b _ y) by done. by rewrite Htake.
      * exists s. split; [done|]. split; [lia|]. done.
    + exists k. split; [done|]. split; [lia|]. split; [done|]. intros _. rewrite Hx, Hy. congruence.
  - exists k. split; [done|]. split; [lia|]. split; [done|]. lia.
Qed.

(** ** The builder against the format *)

Section proofs.
Context `{E : IntegerEncoding, !IntegerEncodingSpec E}.

Definition last_entry_key (es : list entry) : bytes :=
  match last es with
  | Some e => e_key e
  | None => []
  end.

(** The size of a finished block is what was estimated. *)
Lemma len_bb_finish b : len (bb_finish b) = bb_size_estimate b.
Proof.
  unfold bb_finish, bb_size_estimate. fold (u32s (restarts b)).
  rewrite !len_app, len_u32s, encode_fixed32_len. lia.
Qed.

Lemma shared_loop_ge fuel a b n k s : shared_loop fuel a b n k = Done s → k ≤ s.
Proof.
  revert k. induction fuel as [|fuel IH]; intros k; [done|]. simpl.
  destruct (_ <? _); [|intros [= ->]; lia]. intros (x&_&(y&_&H0)%bind_Done)%bind_Done.
  destruct (_ =? _); [apply IH in H0; lia|injection H0 as ->; lia].
Qed.

(** How much [add] adds to the estimate: three varints, the pair, and a
    restart point. *)
Lemma bb_add_size b k v b' :
  len k < U64 → len v < U64 → bb_add b k v = Done b' →
  bb_size_estimate b' ≤ bb_size_estimate b + len k + len v + 34.
Proof.
  intros Hk Hv. unfold bb_add. destruct (_ <=? _); [|done]. destruct (_ || _); [|done].
  pose proof (len_nonneg k). pose proof (len_nonneg v).
  intros ([shared b1]&Hsh&(ns&[-> Hle]%usub_inv&(tl&Htl&[= <-])%bind_Done)%bind_Done)%bind_Done.
  assert (Hb1 : 0 ≤ shared ∧ buffer b1 = buffer b ∧ len (restarts b1) ≤ len (restarts b) + 1).
  { destruct (_ <? _) in Hsh.
    - apply bind_Done in Hsh as (s&Hs%shared_loop_ge&[= <- <-]). split; [done|]. split; [done|]. lia.
    - injection Hsh as <- <-. cbn. rewrite len_app. split; [done|]. split; [done|]. by cbn. }
  destruct Hb1 as (Hs0&Hbuf&Hrs).
  assert (Hvar : ∀ x, 0 ≤ x < U64 → len (encode_var x) ≤ 10).
  { intros x Hx. apply encode_var_len; [done|lia|]. unfold U64 in Hx. lia. }
  pose proof (Hvar shared ltac:(lia)). pose proof (Hvar (len k - shared) ltac:(lia)).
  pose proof (Hvar (len v) ltac:(lia)).
  assert (Htail : len tl ≤ len k).
  { unfold slice_from, slice in Htl. destruct (_ && _) in Htl; [|done]. injection Htl as <-.
    unfold len. rewrite length_take, length_drop. lia. }
  unfold bb_size_estimate. cbn. rewrite Hbuf, !len_app. lia.
Qed.

(** The builder holds the entries [es] with restart points [rs]. *)
Record bb_rep (b : BlockBuilder) (es : list entry) (rs : list nat) : Prop := {
  bbr_buffer : buffer b = enc_entries es;
  bbr_restarts : restarts b = (λ r, as_u32 (off es r)) <$> rs;
  bbr_last_key : last_key b = last_entry_key es;
  bbr_counter : counter b = len es;
  bbr_restart_counter : ∃ r, last rs = Some r ∧ (r ≤ length es)%nat ∧
    restart_counter b = len es - Z.of_nat r ∧
    0 ≤ restart_counter b ≤ block_restart_interval (bb_opt b);
  bbr_entries : wf_entries es;
  bbr_wf_restarts : wf_restarts es rs;
}.

Lemma bb_rep_new o : 0 ≤ block_restart_interval o → bb_rep (BlockBuilder_new o) [] [0%nat].
Proof.
  intros Ho. split; try done. by exists 0%nat.
Qed.

Lemma last_entry_snoc es e : last_entry_key (es ++ [e]) = e_key e.
Proof. unfold last_entry_key. by rewrite last_snoc. Qed.

Lemma wf_entries_snoc es e :
  wf_entries es → (e_shared e ≤ length (e_key e))%nat →
  take (e_shared e) (e_key e) = take (e_shared e) (last_entry_key es) →
  wf_entries (es ++ [e]).
Proof.
  intros [Hs H0 Hc] Hle Htake. split.
  - intros i e' [?|[_ Hi]]%lookup_app_Some; [by eapply Hs|].
    by apply list_lookup_singleton_Some in Hi as [_ <-].
  - intros e' [?|[Hnil Hi]]%lookup_app_Some; [by apply H0|].
    apply list_lookup_singleton_Some in Hi as [_ <-]. destruct es as [|? ?]; [|simpl in Hnil; lia].
    cbn in Htake. rewrite take_nil in Htake. apply (f_equal length) in Htake.
    rewrite length_take in Htake. simpl in Htake. lia.
  - intros i e1 e2 H1 H2. apply lookup_app_Some in H2 as [H2|[Hi H2]].
    + rewrite lookup_app_l in H1 by (apply lookup_lt_Some in H2; lia). by eapply Hc.
    + apply list_lookup_singleton_Some in H2 as [Hi2 <-].
      rewrite lookup_app_l in H1 by lia. rewrite Htake. unfold last_entry_key.
      rewrite last_lookup. by replace (pred (length es)) with i by lia; rewrite H1.
Qed.

(** A restart point of [es ++ [e]]: those of [es], and possibly [e] itself
    when it is stored whole. *)
Lemma wf_restarts_same es rs e :
  wf_restarts es rs → (es = [] → e_shared e = 0%nat) → wf_restarts (es ++ [e]) rs.
Proof.
  intros Hrs He. split.
  - apply Hrs.
  - apply Hrs.
  - intros i r Hr. pose proof (wf_restart_in _ _ Hrs i r Hr). rewrite length_app. simpl. lia.
  - intros i r e' Hr [He'|[Hi He']]%lookup_app_Some; [by eapply wf_restart_shared|].
    apply list_lookup_singleton_Some in He' as [Hi' <-]. destruct i as [|i].
    + rewrite (wf_restart0 _ _ Hrs) in Hr. simplify_eq. apply He. destruct es; [done|]. simpl in *. lia.
    + pose proof (wf_restart_in _ _ Hrs i r Hr). lia.
Qed.

Lemma wf_restarts_snoc es rs e :
  wf_restarts es rs → es ≠ [] → e_shared e = 0%nat →
  wf_restarts (es ++ [e]) (rs ++ [length es]).
Proof.
  intros Hrs Hne He. pose proof (restarts_pos _ _ Hrs). split.
  - apply lookup_app_l_Some, Hrs.
  - intros i a b Ha Hb. apply lookup_app_Some in Hb as [Hb|[Hi Hb]].
    + rewrite lookup_app_l in Ha by (apply lookup_lt_Some in Hb; lia). by eapply wf_restart_lt.
    + apply list_lookup_singleton_Some in Hb as [Hi' <-].
      rewrite lookup_app_l in Ha by lia. destruct i as [|i].
      * rewrite (wf_restart0 _ _ Hrs) in Ha. simplify_eq. destruct es; [done|]. simpl. lia.
      * by eapply wf_restart_in.
  - intros i r [Hr|[Hi Hr]]%lookup_app_Some; rewrite length_app; simpl.
    + pose proof (wf_restart_in _ _ Hrs i r Hr). lia.
    + apply list_lookup_singleton_Some in Hr as [_ <-]. lia.
  - intros i r e' Hr He'. apply lookup_app_Some in Hr as [Hr|[Hi Hr]].
    + apply lookup_app_Some in He' as [He'|[Hi He']]; [by eapply wf_restart_shared|].
      by apply list_lookup_singleton_Some in He' as [_ <-].
    + apply list_lookup_singleton_Some in Hr as [_ <-].
      rewrite list_lookup_middle in He' by done. by simplify_eq.
Qed.

Lemma restarts_stable es rs e :
  wf_restarts es rs →
  (λ r, as_u32 (off (es ++ [e]) r)) <$> rs = (λ r, as_u32 (off es r)) <$> rs.
Proof.
  intros Hrs. apply list_fmap_ext. intros i r Hr. by rewrite off_snoc by (by eapply restart_le).
Qed.

(** The state after the entry [mkEntry s key val] was written. *)
Lemma bb_rep_snoc o es rs e rc :
  wf_entries (es ++ [e]) → wf_restarts (es ++ [e]) rs →
  (∃ r, last rs = Some r ∧ (r ≤ length es)%nat ∧ rc = len es - Z.of_nat r ∧
        0 ≤ rc < block_restart_interval o) →
  bb_rep (mkBlockBuilder o (enc_entries (es ++ [e])) ((λ r, as_u32 (off (es ++ [e]) r)) <$> rs)
            (e_key e) (rc + 1) (len es + 1)) (es ++ [e]) rs.
Proof.
  intros Hes Hrs (r&Hl&Hle&Hrc&Hb). split; simpl; try done.
  - by rewrite last_entry_snoc.
  - rewrite len_app. done.
  - exists r. split; [done|]. autorewrite with rust. rewrite length_app. simpl. lia.
Qed.

(** Storing the tail of a key after the prefix it shares. *)
Lemma take_app_drop_key (a k : bytes) s :
  0 ≤ s ≤ len a → take (Z.to_nat s) a = take (Z.to_nat s) k →
  vec_resize a s x00 ++ drop (Z.to_nat s) k = k.
Proof.
  intros Hs Htake. unfold vec_resize. rewrite resize_le by (unfold len in *; lia).
  by rewrite Htake, take_drop.
Qed.

Lemma enc_entry_bytes s (k v : bytes) :
  0 ≤ s →
  encode_var s ++ encode_var (len k - s) ++ encode_var (len v) ++ drop (Z.to_nat s) k ++ v
  = enc_entry (mkEntry (Z.to_nat s) k v).
Proof.
  intros Hs. unfold enc_entry, enc_header. simpl. rewrite Z2Nat.id by done. by rewrite <- !app_assoc.
Qed.

Lemma buffer_empty b es rs : bb_rep b es rs → bool_decide (buffer b = []) = bool_decide (es = []).
Proof.
  intros Hr. apply bool_decide_ext. rewrite (bbr_buffer _ _ _ Hr).
  split; [apply enc_entries_nil|by intros ->].
Qed.

(** Both arms of [add]: below the restart interval, and at it. *)
Lemma bb_add_shared b es rs k v :
  bb_rep b es rs → restart_counter b < block_restart_interval (bb_opt b) →
  bool_decide (es = []) || is_lt (cmp (opt_cmp (bb_opt b)) (last_entry_key es) k) = true →
  ∃ b' s, bb_add b k v = Done b' ∧ bb_opt b' = bb_opt b ∧ bb_rep b' (es ++ [mkEntry s k v]) rs.
Proof.
  intros Hr Hlt Hord. unfold bb_add. pose proof (buffer_empty _ _ _ Hr) as Hbuf.
  destruct (bbr_restart_counter _ _ _ Hr) as (r&Hl&Hle&Hrc&Hb).
  rewrite (proj2 (Z.leb_le _ _)) by lia. rewrite Hbuf, (bbr_last_key _ _ _ Hr), Hord.
  rewrite (proj2 (Z.ltb_lt _ _)) by lia. set (lk := last_entry_key es) in *.
  replace (if len lk <? len k then len lk else len k) with (Z.min (len lk) (len k))
    by (destruct (Z.ltb_spec (len lk) (len k)); lia).
  pose proof (len_nonneg lk). pose proof (len_nonneg k).
  destruct (shared_loop_spec (S (length k)) lk k (Z.min (len lk) (len k)) 0) as (s&Es&Hs&Htake&_);
    [lia|lia|lia|unfold len; lia|done|].
  rewrite Es. cbn [bind]. rewrite usub_Done by lia. cbn [bind].
  unfold slice_from. rewrite slice_Done by lia. cbn [bind].
  assert (Hdrop : take (Z.to_nat (len k - s)) (drop (Z.to_nat s) k) = drop (Z.to_nat s) k).
  { apply take_ge. rewrite length_drop. unfold len. lia. }
  rewrite Hdrop, (bbr_last_key _ _ _ Hr). fold lk. rewrite take_app_drop_key by (done || lia).
  rewrite enc_entry_bytes, (bbr_buffer _ _ _ Hr), <- enc_entries_snoc by lia.
  rewrite (bbr_restarts _ _ _ Hr), (bbr_counter _ _ _ Hr).
  rewrite <- (restarts_stable _ _ (mkEntry (Z.to_nat s) k v)) by apply Hr.
  eexists _, (Z.to_nat s). split; [done|]. split; [done|].
  apply (bb_rep_snoc _ es rs (mkEntry (Z.to_nat s) k v)).
  - apply wf_entries_snoc; [apply Hr|simpl; unfold len in *; lia|]. simpl. done.
  - apply wf_restarts_same; [apply Hr|]. simpl. intros ->. change (len lk) with 0 in *. lia.
  - exists r. repeat split; try done; lia.
Qed.

Lemma bb_add_restart b es rs k v :
  bb_rep b es rs → restart_counter b = block_restart_interval (bb_opt b) →
  0 < block_restart_interval (bb_opt b) →
  bool_decide (es = []) || is_lt (cmp (opt_cmp (bb_opt b)) (last_entry_key es) k) = true →
  ∃ b', bb_add b k v = Done b' ∧ bb_opt b' = bb_opt b ∧
        bb_rep b' (es ++ [mkEntry 0 k v]) (rs ++ [length es]).
Proof.
  intros Hr Heq Hpos Hord. unfold bb_add. pose proof (buffer_empty _ _ _ Hr) as Hbuf.
  destruct (bbr_restart_counter _ _ _ Hr) as (r&Hl&Hle&Hrc&Hb).
  rewrite (proj2 (Z.leb_le _ _)) by lia. rewrite Hbuf, (bbr_last_key _ _ _ Hr), Hord.
  rewrite (proj2 (Z.ltb_ge _ _)) by lia. cbn [bind buffer restarts last_key restart_counter counter].
  pose proof (len_nonneg k). rewrite usub_Done by lia. cbn [bind].
  unfold slice_from. rewrite slice_Done by lia. cbn [bind].
  assert (Hdrop : take (Z.to_nat (len k - 0)) (drop (Z.to_nat 0) k) = drop (Z.to_nat 0) k).
  { apply take_ge. rewrite length_drop. unfold len. lia. }
  rewrite Hdrop, !vec_resize_0, enc_entry_bytes, (bbr_buffer _ _ _ Hr), <- enc_entries_snoc by lia.
  rewrite (bbr_restarts _ _ _ Hr), (bbr_counter _ _ _ Hr).
  rewrite <- (restarts_stable _ _ (mkEntry (Z.to_nat 0) k v)) by apply Hr.
  rewrite <- (off_all es (length es)), <- (off_snoc _ (mkEntry (Z.to_nat 0) k v)) by done.
  eexists. split; [done|]. split; [done|].
  assert (Hes : es ≠ []).
  { intros ->. simpl in Hle. change (len (@nil entry)) with 0 in Hrc. lia. }
  pose proof (bb_rep_snoc (bb_opt b) es (rs ++ [length es]) (mkEntry 0 k v) 0) as Hsnoc.
  rewrite fmap_app in Hsnoc. apply Hsnoc.
  - apply wf_entries_snoc; [apply Hr|simpl; lia|done].
  - apply wf_restarts_snoc; [apply Hr|done|done].
  - exists (length es). rewrite last_snoc. repeat split; unfold len; lia.
Qed.

(** [add] of a key past the last one appends its entry. *)
Lemma bb_add_spec b es rs k v :
  bb_rep b es rs → 0 < block_restart_interval (bb_opt b) →
  bool_decide (es = []) || is_lt (cmp (opt_cmp (bb_opt b)) (last_entry_key es) k) = true →
  ∃ b' s rs', bb_add b k v = Done b' ∧ bb_opt b' = bb_opt b ∧ bb_rep b' (es ++ [mkEntry s k v]) rs'.
Proof.
  intros Hr Hpos Hord. destruct (bbr_restart_counter _ _ _ Hr) as (r&_&_&_&Hb).
  destruct (decide (restart_counter b < block_restart_interval (bb_opt b))).
  - destruct (bb_add_shared b es rs k v) as (b'&s&?&?&?); [done..|]. by exists b', s, rs.
  - destruct (bb_add_restart b es rs k v) as (b'&?&?&?); [done|lia|done|done|].
    by exists b', 0%nat, (rs ++ [length es]).
Qed.

Lemma u32s_as_u32 (l : list Z) : u32s (as_u32 <$> l) = u32s l.
Proof.
  unfold u32s. f_equal. rewrite <- list_fmap_compose. apply list_fmap_ext. intros i x _. simpl.
  f_equal. by apply Z.mod_mod.
Qed.

(** [finish] serializes the entries and their restart points. *)
Lemma bb_finish_spec b es rs : bb_rep b es rs → bb_finish b = enc_block es rs.
Proof.
  intros Hr. unfold bb_finish, enc_block. rewrite (bbr_buffer _ _ _ Hr), (bbr_restarts _ _ _ Hr).
  fold (u32s ((λ r, as_u32 (off es r)) <$> rs)).
  assert (Hl : len ((λ r, as_u32 (off es r)) <$> rs) = len rs).
  { unfold len. by rewrite length_fmap. }
  rewrite Hl. rewrite <- u32s_as_u32, <- (u32s_as_u32 (off es <$> rs)), <- !list_fmap_compose.
  do 2 f_equal. f_equal. apply list_fmap_ext. intros i r _. simpl. by apply Z.mod_mod.
Qed.
End proofs.
