(* ===== verification/Block.v ===== *)
(** * Blocks and their iterator (src/block.rs)

    The operations of [Block] and [BlockIter] as the code has them, over any
    block contents, corrupt ones included. *)

From S2P Require Export Prelude Cmp Encoding Options Types.

Record Block := mkBlock { block_contents : bytes; block_opt : Options }.

Definition Block_new (opt : Options) (contents : bytes) : outcome Block :=
  assert! 4 <? len contents in Done (mkBlock contents opt).

(** [contents()] hands out the shared buffer. *)
Definition contents (self : Block) : bytes := block_contents self.

Record BlockIter := mkBlockIter {
  block : bytes;
  opt : Options;
  restarts_off : Z;
  it_offset : Z;
  current_entry_offset : Z;
  current_restart_ix : Z;
  key : bytes;
  val_offset : Z;
}.

(** Field updates. *)
Definition set_offset (self : BlockIter) (x : Z) : BlockIter :=
  mkBlockIter (block self) (opt self) (restarts_off self) x (current_entry_offset self)
    (current_restart_ix self) (key self) (val_offset self).
Definition set_current_entry_offset (self : BlockIter) (x : Z) : BlockIter :=
  mkBlockIter (block self) (opt self) (restarts_off self) (it_offset self) x
    (current_restart_ix self) (key self) (val_offset self).
Definition set_current_restart_ix (self : BlockIter) (x : Z) : BlockIter :=
  mkBlockIter (block self) (opt self) (restarts_off self) (it_offset self)
    (current_entry_offset self) x (key self) (val_offset self).
Definition set_key (self : BlockIter) (x : bytes) : BlockIter :=
  mkBlockIter (block self) (opt self) (restarts_off self) (it_offset self)
    (current_entry_offset self) (current_restart_ix self) x (val_offset self).
Definition set_val_offset (self : BlockIter) (x : Z) : BlockIter :=
  mkBlockIter (block self) (opt self) (restarts_off self) (it_offset self)
    (current_entry_offset self) (current_restart_ix self) (key self) x.

Section BlockIter.
Context `{E : IntegerEncoding}.

Definition Block_iter (self : Block) : outcome BlockIter :=
  let b := block_contents self in
  let! n4 := usub (len b) 4 in
  let! r4 := slice_from b n4 in
  let restarts := decode_fixed32 r4 in
  let! restart_offset := usub n4 (4 * restarts) in
  Done (mkBlockIter b (block_opt self) restart_offset 0 0 0 [] 0).

Definition number_restarts (self : BlockIter) : outcome Z :=
  let! n4 := usub (len (block self)) 4 in
  let! r4 := slice_from (block self) n4 in
  Done (decode_fixed32 r4).

Definition get_restart_point (self : BlockIter) (ix : Z) : outcome Z :=
  let! restart := uadd (restarts_off self) (4 * ix) in
  let! stop := uadd restart 4 in
  let! r4 := slice (block self) restart stop in
  Done (decode_fixed32 r4).

(** Returns (SHARED, NON_SHARED, VALSIZE, header length) and the iterator
    moved past the entry. *)
Definition parse_entry_and_advance (self : BlockIter) :
    outcome (Z * Z * Z * Z * BlockIter) :=
  let i := 0 in
  let! s := slice_from (block self) (it_offset self) in
  let! (shared, sharedlen) := decode_var_unwrap s in
  let i := i + sharedlen in
  let! s := slice_from (block self) (it_offset self + i) in
  let! (non_shared, non_sharedlen) := decode_var_unwrap s in
  let i := i + non_sharedlen in
  let! s := slice_from (block self) (it_offset self + i) in
  let! (valsize, valsizelen) := decode_var_unwrap s in
  let i := i + valsizelen in
  let! vo := uadd (it_offset self + i) non_shared in
  let self := set_val_offset self vo in
  let! off := uadd (val_offset self) valsize in
  let self := set_offset self off in
  Done (shared, non_shared, valsize, i, self).

Definition assemble_key (self : BlockIter) (off shared non_shared : Z) : outcome BlockIter :=
  let k := truncate (key self) shared in
  let! stop := uadd off non_shared in
  let! s := slice (block self) off stop in
  Done (set_key self (k ++ s)).

Definition bi_valid (self : BlockIter) : bool :=
  bool_decide (key self ≠ []) && (0 <? val_offset self) && (val_offset self <=? restarts_off self).

Definition bi_reset (self : BlockIter) : BlockIter :=
  set_key (set_current_restart_ix (set_val_offset (set_offset self 0) 0) 0) [].

Definition seek_to_restart_point (self : BlockIter) (ix : Z) : outcome BlockIter :=
  let! off := get_restart_point self ix in
  let self := set_offset self off in
  let self := set_current_entry_offset self off in
  let self := set_current_restart_ix self ix in
  let! (shared, non_shared, _, head_len, self) := parse_entry_and_advance self in
  assert! shared =? 0 in
  let! self := assemble_key self (off + head_len) shared non_shared in
  assert! bi_valid self in
  Done self.

(** [while ix + 1 < num_restarts && get_restart_point(ix + 1) < current_entry_offset] *)
Fixpoint adjust_restart_ix (fuel : nat) (num_restarts : Z) (self : BlockIter) : outcome BlockIter :=
  match fuel with
  | O => NoFuel
  | S n =>
      if current_restart_ix self + 1 <? num_restarts then
        let! rp := get_restart_point self (current_restart_ix self + 1) in
        if rp <? current_entry_offset self then
          adjust_restart_ix n num_restarts
            (set_current_restart_ix self (current_restart_ix self + 1))
        else Done self
      else Done self
  end.

Definition bi_advance (self : BlockIter) : outcome (bool * BlockIter) :=
  if restarts_off self <=? it_offset self then Done (false, bi_reset self) else
  let self := set_current_entry_offset self (it_offset self) in
  let current_off := current_entry_offset self in
  let! (shared, non_shared, _, entry_head_len, self) := parse_entry_and_advance self in
  let! self := assemble_key self (current_off + entry_head_len) shared non_shared in
  let! num_restarts := number_restarts self in
  let! self := adjust_restart_ix (S (Z.to_nat (num_restarts - current_restart_ix self)))
                 num_restarts self in
  Done (true, self).

(** [while self.get_restart_point(self.current_restart_ix) >= orig_offset] *)
Fixpoint back_restart_ix (fuel : nat) (orig_offset : Z) (self : BlockIter) : outcome BlockIter :=
  match fuel with
  | O => NoFuel
  | S n =>
      let! rp := get_restart_point self (current_restart_ix self) in
      if orig_offset <=? rp then
        if current_restart_ix self =? 0 then
          let self := set_offset self (restarts_off self) in
          let! nr := number_restarts self in
          Done (set_current_restart_ix self nr)
        else back_restart_ix n orig_offset (set_current_restart_ix self (current_restart_ix self - 1))
      else Done self
  end.

(** [loop { result = self.advance(); if self.offset >= orig_offset { break } }] *)
Fixpoint advance_until (fuel : nat) (orig_offset : Z) (self : BlockIter) : outcome (bool * BlockIter) :=
  match fuel with
  | O => NoFuel
  | S n =>
      let! (result, self) := bi_advance self in
      if orig_offset <=? it_offset self then Done (result, self)
      else advance_until n orig_offset self
  end.

Definition bi_prev (self : BlockIter) : outcome (bool * BlockIter) :=
  let orig_offset := current_entry_offset self in
  if orig_offset =? 0 then Done (false, bi_reset self) else
  let! self := back_restart_ix (S (Z.to_nat (current_restart_ix self))) orig_offset self in
  let! off := get_restart_point self (current_restart_ix self) in
  let self := set_offset self off in
  assert! it_offset self <? orig_offset in
  advance_until (S (length (block self))) orig_offset self.

(** [while self.offset < self.restarts_off { self.advance(); }] *)
Fixpoint advance_to_end (fuel : nat) (self : BlockIter) : outcome BlockIter :=
  match fuel with
  | O => NoFuel
  | S n =>
      if it_offset self <? restarts_off self then
        let! (_, self) := bi_advance self in
        advance_to_end n self
      else Done self
  end.

Definition seek_to_last (self : BlockIter) : outcome BlockIter :=
  let! nr := number_restarts self in
  let! self :=
    if 0 <? nr then
      let! num_restarts := number_restarts self in
      seek_to_restart_point self (num_restarts - 1)
    else Done (bi_reset self) in
  let! self := advance_to_end (S (length (block self))) self in
  assert! bi_valid self in
  Done self.

Definition bi_current (self : BlockIter) (k v : bytes) : outcome (bool * bytes * bytes) :=
  if bi_valid self then
    let! val := slice (block self) (val_offset self) (it_offset self) in
    Done (true, key self, val)
  else Done (false, k, v).

Definition bi_current_key (self : BlockIter) : option bytes :=
  if bi_valid self then Some (key self) else None.

(** The binary search over the restart points; returns [left], [right] too. *)
Fixpoint search_restarts (fuel : nat) (to : bytes) (left right : Z) (self : BlockIter) :
    outcome (Z * Z * BlockIter) :=
  match fuel with
  | O => NoFuel
  | S n =>
      if left <? right then
        let middle := (left + right + 1) / 2 in
        let! self := seek_to_restart_point self middle in
        match cmp (opt_cmp (opt self)) (key self) to with
        | Lt => search_restarts n to middle right self
        | _ => search_restarts n to left (middle - 1) self
        end
      else Done (left, right, self)
  end.

(** [SSIterator::next] at this type, the default method. *)
Definition bi_next (self : BlockIter) : outcome (option (bytes * bytes) * BlockIter) :=
  let! (more, self) := bi_advance self in
  if negb more then Done (None, self) else
  let! (ok, k, v) := bi_current self [] [] in
  if (ok : bool) then Done (Some (k, v), self) else Done (None, self).

(** [while let Some((k, _)) = self.next() { if cmp(k, to) >= Equal { return } }] *)
Fixpoint seek_linear (fuel : nat) (to : bytes) (self : BlockIter) : outcome BlockIter :=
  match fuel with
  | O => NoFuel
  | S n =>
      let! (kv, self) := bi_next self in
      match kv with
      | None => Done self
      | Some (k, _) =>
          match cmp (opt_cmp (opt self)) k to with
          | Lt => seek_linear n to self
          | _ => Done self
          end
      end
  end.

Definition bi_seek (self : BlockIter) (to : bytes) : outcome BlockIter :=
  let self := bi_reset self in
  let left := 0 in
  let! nr := number_restarts self in
  let right := if nr =? 0 then 0 else nr - 1 in
  let! (left, right, self) := search_restarts (S (Z.to_nat right)) to left right self in
  assert! left =? right in
  let self := set_current_restart_ix self left in
  let! off := get_restart_point self left in
  let self := set_offset self off in
  seek_linear (S (length (block self))) to self.

#[export] Instance BlockIter_SSIterator : SSIterator BlockIter := {
  advance := bi_advance;
  current := bi_current;
  current_key := bi_current_key;
  seek := bi_seek;
  reset self := Done (bi_reset self);
  valid := bi_valid;
  prev := bi_prev;
}.
End BlockIter.
