(* ===== verification/BlockProofs.v ===== *)
(** * The block iterator on well-formed blocks

    For a block in the format of [BlockLayout.v], every operation of
    [BlockIter] (src/block.rs) moves a cursor over the list of entries: this
    file relates iterator states to cursor positions and proves each operation
    against that specification. *)

From S2P Require Export Prelude Encoding Options Types BlockLayout Block.

Section iter.
Context `{E : IntegerEncoding, !IntegerEncodingSpec E}.
Context (o : Options) (es : list entry) (rs : list nat).
Context (Hes : wf_entries es) (Hrs : wf_restarts es rs).
Context (Hsize : len (enc_block es rs) < U32).
Context (Hkeys : ∀ i e, es !! i = Some e → e_key e ≠ []).

Abbreviation C := (enc_block es rs).
Abbreviation n := (length es).

(** ** Geometry of the contents *)

Lemma len_block : len C = off es n + 4 * len rs + 4.
Proof.
  unfold enc_block. rewrite !len_app, len_u32s, encode_fixed32_len, <- (off_all es n) by done.
  unfold len. rewrite length_fmap. lia.
Qed.

Lemma off_lt_block i : (i ≤ n)%nat → off es i < U32.
Proof.
  intros Hi. pose proof (off_le es i n Hi ltac:(done)). pose proof len_block.
  pose proof (len_nonneg rs). lia.
Qed.

Lemma len_rs_bound : 0 < len rs < U32.
Proof.
  pose proof (restarts_pos _ _ Hrs). pose proof len_block. pose proof (off_nonneg es n).
  unfold len in *. lia.
Qed.

(** Entry [i] in the contents. *)
Lemma contents_split i e :
  es !! i = Some e → ∃ pre post, C = pre ++ enc_entry e ++ post ∧ len pre = off es i.
Proof.
  intros He. unfold enc_block. rewrite (enc_entries_split es i e He), <- !app_assoc.
  by eexists _, _.
Qed.

(** ** States of the iterator *)

(** What every reachable state keeps. *)
Record base (it : BlockIter) : Prop := {
  base_block : block it = C;
  base_opt : opt it = o;
  base_restarts_off : restarts_off it = off es n;
  (** also after a reset, which leaves this field as it was *)
  base_current : ∃ i, (i = 0%nat ∨ (i < n)%nat) ∧ current_entry_offset it = off es i;
}.

(** The restart index is at or before entry [i]. *)
Definition restart_at (it : BlockIter) (i : nat) : Prop :=
  ∃ k r, current_restart_ix it = Z.of_nat k ∧ rs !! k = Some r ∧ (r ≤ i)%nat.

(** The next [advance] reads entry [j]. *)
Record ready (it : BlockIter) (j : nat) : Prop := {
  ready_base : base it;
  ready_le : (j ≤ n)%nat;
  ready_offset : it_offset it = off es j;
  ready_key e : es !! j = Some e → take (e_shared e) (key it) = take (e_shared e) (e_key e);
  ready_restart : restart_at it j;
}.

(** The current entry is [e], the [i]-th. *)
Record at_entry (it : BlockIter) (i : nat) (e : entry) : Prop := {
  at_base : base it;
  at_lookup : es !! i = Some e;
  at_current : current_entry_offset it = off es i;
  at_offset : it_offset it = off es (S i);
  at_key : key it = e_key e;
  at_val : val_offset it = off es (S i) - len (e_val e);
  at_restart : restart_at it i;
}.

(** No current entry, as after [reset]. *)
Record unpositioned (it : BlockIter) : Prop := {
  un_base : base it;
  un_offset : it_offset it = 0;
  un_val : val_offset it = 0;
  un_key : key it = [];
  un_restart : current_restart_ix it = 0;
}.

Lemma base_reset it : base it → unpositioned (bi_reset it).
Proof. by intros []. Qed.

Lemma unpositioned_ready it : unpositioned it → ready it 0.
Proof.
  intros [Hb Ho _ Hk Hr]. split; [done|lia|by rewrite off_0| |].
  - intros e He. by rewrite (wf_first _ Hes e He).
  - exists 0%nat, 0%nat. split; [by rewrite Hr|]. split; [apply Hrs|done].
Qed.

Lemma restart_at_le it i j : (i ≤ j)%nat → restart_at it i → restart_at it j.
Proof. intros ? (k&r&?&?&?). exists k, r. repeat split; [done|done|lia]. Qed.

Lemma at_entry_ready it i e : at_entry it i e → ready it (S i).
Proof.
  intros [Hb He _ Ho Hk _ Hr]. apply lookup_lt_Some in He as Hlt. split; [done|lia|done| |].
  - intros e' He'. rewrite Hk. symmetry. by eapply wf_chain.
  - eapply restart_at_le, Hr. lia.
Qed.

Lemma val_offset_entry i e :
  es !! i = Some e →
  off es (S i) - len (e_val e) = off es i + len (enc_header e) + (len (e_key e) - Z.of_nat (e_shared e)).
Proof.
  intros He. rewrite (off_S es i e He), len_enc_entry. pose proof (wf_shared _ Hes i e He).
  unfold len. rewrite length_drop. lia.
Qed.

(** A key, reconstructed from the entries before, is no longer than they are. *)
Lemma key_len_le i e : es !! i = Some e → len (e_key e) ≤ off es (S i).
Proof.
  revert e. induction i as [|i IH]; intros e He; pose proof (val_offset_entry _ e He) as Hvo;
    pose proof (len_enc_header e); pose proof (len_nonneg (e_val e)).
  - rewrite (wf_first _ Hes e He), off_0 in Hvo. lia.
  - destruct (lookup_lt_is_Some_2 es i) as [e0 He0]; [apply lookup_lt_Some in He; lia|].
    specialize (IH e0 He0). pose proof (wf_chain _ Hes i e0 e He0 He) as Hc.
    apply (f_equal length) in Hc. rewrite !length_take in Hc.
    pose proof (wf_shared _ Hes _ e He). unfold len in *. lia.
Qed.

Lemma at_entry_valid it i e : at_entry it i e → bi_valid it = true.
Proof.
  intros [Hb He _ _ Hk Hv _]. unfold bi_valid. apply lookup_lt_Some in He as Hlt.
  pose proof (off_le es (S i) n ltac:(lia) ltac:(done)). pose proof (len_nonneg (e_val e)).
  pose proof (val_offset_entry i e He). pose proof (len_enc_header e). pose proof (off_nonneg es i).
  pose proof (wf_shared _ Hes i e He).
  rewrite Hk, Hv, (base_restarts_off _ Hb), bool_decide_eq_true_2 by (by eapply Hkeys).
  rewrite (proj2 (Z.ltb_lt _ _)), (proj2 (Z.leb_le _ _)) by (unfold len in *; lia). done.
Qed.

Lemma unpositioned_invalid it : unpositioned it → bi_valid it = false.
Proof. intros [_ _ _ Hk _]. unfold bi_valid. by rewrite Hk. Qed.

Lemma at_entry_current it i e k v :
  at_entry it i e → bi_current it k v = Done (true, e_key e, e_val e).
Proof.
  intros Hat. unfold bi_current. rewrite (at_entry_valid it i e Hat).
  destruct Hat as [Hb He _ Ho Hk Hv _]. rewrite (base_block _ Hb), Hk, Hv, Ho.
  destruct (contents_split i e He) as (pre&post&->&Hpre).
  unfold enc_entry. rewrite <- !app_assoc, (app_assoc (enc_header e)), (app_assoc pre).
  pose proof (off_S es i e He) as HS. rewrite len_enc_entry in HS.
  rewrite slice_mid by (rewrite !len_app; lia). done.
Qed.

(** ** Restart points *)

Lemma number_restarts_ok it : base it → number_restarts it = Done (len rs).
Proof.
  intros Hb. unfold number_restarts. rewrite (base_block _ Hb). pose proof len_block as Hl.
  pose proof (off_nonneg es n). pose proof len_rs_bound.
  rewrite usub_Done, Hl by lia. cbn [bind]. unfold enc_block. rewrite app_assoc.
  rewrite slice_from_app.
  - cbn [bind]. by rewrite as_u32_small, decode_encode_fixed32 by lia.
  - rewrite len_app, len_u32s, <- (off_all es n) by done. unfold len. rewrite length_fmap. lia.
Qed.

Lemma get_restart_point_ok it (k r : nat) :
  base it → rs !! k = Some r → get_restart_point it (Z.of_nat k) = Done (off es r).
Proof.
  intros Hb Hk. unfold get_restart_point. rewrite (base_block _ Hb), (base_restarts_off _ Hb).
  apply lookup_lt_Some in Hk as Hlt. pose proof len_block as Hl. pose proof (off_nonneg es n).
  pose proof (restart_le es rs k r Hrs Hk) as Hr.
  rewrite !uadd_Done by (unfold U32, U64, len in *; lia). cbn [bind].
  rewrite uadd_Done by (unfold U32, U64, len in *; lia). cbn [bind].
  destruct (u32s_lookup (off es <$> rs) k (off es r)) as (a&b&Hab&Ha).
  { by rewrite list_lookup_fmap, Hk. }
  unfold enc_block. rewrite Hab, <- !app_assoc, (app_assoc (enc_entries es)).
  rewrite slice_mid.
  - cbn [bind]. rewrite as_u32_small, decode_encode_fixed32; [done| |].
    + split; [apply off_nonneg|by apply off_lt_block].
    + split; [apply off_nonneg|by apply off_lt_block].
  - rewrite len_app, <- (off_all es n) by done. lia.
  - rewrite len_app, encode_fixed32_len, <- (off_all es n) by done. lia.
Qed.

(** ** Parsing an entry *)

Lemma parse_entry_ok it i e :
  base it → es !! i = Some e → it_offset it = off es i →
  parse_entry_and_advance it =
    Done (Z.of_nat (e_shared e), len (e_key e) - Z.of_nat (e_shared e), len (e_val e),
          len (enc_header e),
          set_offset (set_val_offset it (off es (S i) - len (e_val e))) (off es (S i))).
Proof.
  intros Hb He Ho. unfold parse_entry_and_advance. rewrite (base_block _ Hb), Ho.
  pose proof (val_offset_entry i e He) as Hvo. apply lookup_lt_Some in He as Hlt.
  pose proof (off_lt_block (S i) ltac:(lia)) as Hb32. pose proof (off_nonneg es i).
  pose proof (wf_shared _ Hes i e He). pose proof (len_nonneg (e_val e)).
  pose proof (len_enc_header e).
  destruct (contents_split i e He) as (pre&post&HC&Hpre). rewrite HC.
  unfold enc_entry, enc_header in *. rewrite <- !app_assoc. rewrite !len_app in *.
  set (s := Z.of_nat (e_shared e)) in *. set (ns := len (e_key e) - s) in *.
  assert (Hr : 0 ≤ s < U64 ∧ 0 ≤ ns < U64 ∧ len (e_val e) < U64).
  { pose proof (key_len_le i e He). unfold ns, s, U32, U64, len in *. lia. }
  rewrite slice_from_app by done. cbn [bind].
  rewrite decode_var_unwrap_Done by lia. cbn [bind].
  rewrite (app_assoc pre), slice_from_app by (rewrite len_app; lia). cbn [bind].
  rewrite decode_var_unwrap_Done by lia. cbn [bind].
  rewrite (app_assoc (pre ++ _)), slice_from_app by (rewrite !len_app; lia). cbn [bind].
  rewrite decode_var_unwrap_Done by lia. cbn [bind].
  rewrite uadd_Done by (unfold U32, U64 in *; lia). cbn [bind set_val_offset val_offset].
  rewrite uadd_Done by (unfold U32, U64 in *; lia). cbn [bind].
  f_equal. f_equal; [f_equal; lia|]. destruct it; unfold set_val_offset, set_offset; cbn in *. f_equal; lia.
Qed.

Lemma assemble_key_ok it i e :
  base it → es !! i = Some e →
  take (e_shared e) (key it) = take (e_shared e) (e_key e) →
  assemble_key it (off es i + len (enc_header e)) (Z.of_nat (e_shared e))
    (len (e_key e) - Z.of_nat (e_shared e)) = Done (set_key it (e_key e)).
Proof.
  intros Hb He Htake. unfold assemble_key. rewrite (base_block _ Hb).
  pose proof (val_offset_entry i e He) as Hvo. apply lookup_lt_Some in He as Hlt.
  pose proof (off_lt_block (S i) ltac:(lia)). pose proof (len_nonneg (e_val e)).
  rewrite uadd_Done by (unfold U32, U64 in *; lia). cbn [bind].
  destruct (contents_split i e He) as (pre&post&->&Hpre).
  unfold enc_entry. rewrite <- !app_assoc, (app_assoc pre).
  pose proof (wf_shared _ Hes i e He).
  rewrite slice_mid.
  - cbn [bind]. unfold truncate. rewrite Nat2Z.id, Htake, take_drop. done.
  - rewrite len_app. lia.
  - rewrite len_app. unfold len in *. rewrite length_drop. lia.
Qed.

(** ** advance *)

Lemma adjust_restart_ix_ok fuel it i :
  base it → current_entry_offset it = off es i → (i ≤ n)%nat → restart_at it i →
  (Z.to_nat (len rs - current_restart_ix it) < fuel)%nat →
  ∃ k r, adjust_restart_ix fuel (len rs) it = Done (set_current_restart_ix it (Z.of_nat k)) ∧
         rs !! k = Some r ∧ (r ≤ i)%nat.
Proof.
  revert it. induction fuel as [|fuel IH]; intros it Hb Hc Hi (k&r&Hk&Hr&Hle) Hf; [lia|]. simpl.
  assert (Hsame : it = set_current_restart_ix it (Z.of_nat k)) by (destruct it; simpl in *; by subst).
  apply lookup_lt_Some in Hr as Hlt. rewrite Hk in *.
  destruct (Z.ltb_spec (Z.of_nat k + 1) (len rs)) as [Hlt1|]; [|exists k, r; by rewrite <- Hsame].
  destruct (lookup_lt_is_Some_2 rs (S k)) as [r' Hr']; [unfold len in *; lia|].
  replace (Z.of_nat k + 1) with (Z.of_nat (S k)) by lia.
  rewrite (get_restart_point_ok it (S k) r') by done. cbn [bind]. rewrite Hc.
  destruct (Z.ltb_spec (off es r') (off es i)) as [Hro|]; [|exists k, r; by rewrite <- Hsame].
  apply off_lt_iff in Hro; [|by eapply restart_le|done].
  destruct (IH (set_current_restart_ix it (Z.of_nat (S k)))) as (k2&r2&E2&?&?).
  - by destruct Hb.
  - done.
  - done.
  - exists (S k), r'. repeat split; [done|lia].
  - simpl. lia.
  - exists k2, r2. rewrite E2. done.
Qed.

Lemma advance_ready it j e :
  ready it j → es !! j = Some e → ∃ it', bi_advance it = Done (true, it') ∧ at_entry it' j e.
Proof.
  intros [Hb Hj Ho Hk Hr] He. unfold bi_advance. apply lookup_lt_Some in He as Hlt.
  rewrite (base_restarts_off _ Hb), Ho.
  rewrite (proj2 (Z.leb_gt _ _)) by (by apply off_lt_iff).
  assert (Hb1 : base (set_current_entry_offset it (off es j))).
  { destruct Hb. split; try done. exists j. auto. }
  rewrite (parse_entry_ok _ j e); [|done..]. cbn [bind].
  rewrite (assemble_key_ok _ j e); [|by destruct Hb1|done|by apply Hk]. cbn [bind].
  rewrite number_restarts_ok by (by destruct Hb1). cbn [bind].
  match goal with |- context [adjust_restart_ix ?fuel _ ?it1] =>
    destruct (adjust_restart_ix_ok fuel it1 j) as (k&r&Ek&?&?)
  end.
  - by destruct Hb1.
  - done.
  - done.
  - done.
  - simpl. lia.
  - rewrite Ek. cbn [bind]. eexists. split; [done|]. split; try done.
    + by destruct Hb1.
    + by exists k, r.
Qed.

Lemma advance_end it : ready it n → bi_advance it = Done (false, bi_reset it).
Proof.
  intros [Hb _ Ho _ _]. unfold bi_advance. rewrite (base_restarts_off _ Hb), Ho.
  by rewrite (proj2 (Z.leb_le _ _)).
Qed.

(** ** prev *)

Lemma back_restart_ix_ok fuel it i :
  base it → (0 < i)%nat → (i ≤ n)%nat → restart_at it i →
  (Z.to_nat (current_restart_ix it) < fuel)%nat →
  ∃ k r, back_restart_ix fuel (off es i) it = Done (set_current_restart_ix it (Z.of_nat k)) ∧
         rs !! k = Some r ∧ (r < i)%nat.
Proof.
  revert it. induction fuel as [|fuel IH]; intros it Hb Hi0 Hi (k&r&Hk&Hr&Hle) Hf; [lia|]. simpl.
  assert (Hsame : it = set_current_restart_ix it (Z.of_nat k)) by (destruct it; simpl in *; by subst).
  rewrite Hk in *. rewrite (get_restart_point_ok it k r) by done. cbn [bind].
  destruct (Z.leb_spec (off es i) (off es r)) as [Hge|Hlt].
  - assert (r = i) as ->.
    { destruct (decide (r = i)); [done|]. pose proof (off_lt_iff es r i). lia. }
    destruct k as [|k]; [rewrite (wf_restart0 _ _ Hrs) in Hr; simplify_eq; lia|].
    rewrite (proj2 (Z.eqb_neq _ _)) by lia.
    destruct (lookup_lt_is_Some_2 rs k) as [r' Hr']; [apply lookup_lt_Some in Hr; lia|].
    pose proof (wf_restart_lt _ _ Hrs k r' i Hr' Hr).
    replace (Z.of_nat (S k) - 1) with (Z.of_nat k) by lia.
    destruct (IH (set_current_restart_ix it (Z.of_nat k))) as (k2&r2&E2&?&?).
    + by destruct Hb.
    + done.
    + done.
    + exists k, r'. repeat split; [done|lia].
    + simpl. lia.
    + exists k2, r2. by rewrite E2.
  - apply off_lt_iff in Hlt; [|lia|done]. exists k, r. by rewrite <- Hsame.
Qed.

(** Reading forward from entry [j] stops at the entry before [i]. *)
Lemma advance_until_ok fuel it (i j : nat) :
  ready it j → (j < i)%nat → (i ≤ n)%nat → (i - j ≤ fuel)%nat →
  ∃ it' e, advance_until fuel (off es i) it = Done (true, it') ∧ at_entry it' (pred i) e.
Proof.
  revert it j. induction fuel as [|fuel IH]; intros it j Hr Hj Hi Hf; [lia|]. simpl.
  destruct (lookup_lt_is_Some_2 es j) as [e He]; [lia|].
  destruct (advance_ready it j e Hr He) as (it'&->&Hat). cbn [bind]. rewrite (at_offset _ _ _ Hat).
  destruct (Z.leb_spec (off es i) (off es (S j))) as [Hge|Hlt].
  - exists it', e. split; [done|]. replace (pred i) with j; [done|].
    pose proof (off_lt_iff es (S j) i). lia.
  - apply off_lt_iff in Hlt; [|lia|done]. apply (IH it' (S j)); [by eapply at_entry_ready|lia|done|lia].
Qed.

(** The fuel of the loops over entries, the length of the contents, is at
    least the number of entries. *)
Lemma entries_le_block : (n ≤ length C)%nat.
Proof.
  pose proof (off_mono es 0 n). rewrite off_0 in *. pose proof len_block. pose proof (len_nonneg rs).
  unfold len in *. lia.
Qed.

Lemma prev_first it e : at_entry it 0 e → bi_prev it = Done (false, bi_reset it).
Proof. intros [_ _ Hc _ _ _ _]. unfold bi_prev. by rewrite Hc, off_0. Qed.

Lemma restart_ready it (k r : nat) :
  base it → rs !! k = Some r → current_restart_ix it = Z.of_nat k → it_offset it = off es r → ready it r.
Proof.
  intros Hb Hk Hix Ho. split; [done|by eapply restart_le|done| |by exists k, r].
  intros e He. by rewrite (wf_restart_shared _ _ Hrs k r e).
Qed.

Lemma prev_back it (i : nat) e :
  at_entry it (S i) e → ∃ it' e', bi_prev it = Done (true, it') ∧ at_entry it' i e'.
Proof.
  intros [Hb He Hc _ _ _ Hr]. apply lookup_lt_Some in He as Hlt. unfold bi_prev. rewrite Hc.
  pose proof (off_mono es 0 (S i) ltac:(lia) ltac:(lia)). rewrite off_0 in *.
  rewrite (proj2 (Z.eqb_neq _ _)) by lia.
  destruct (back_restart_ix_ok (S (Z.to_nat (current_restart_ix it))) it (S i))
    as (k&r&Eb&Hk&Hri); [done|lia|lia|done|lia|].
  rewrite Eb. cbn [bind].
  assert (Hb1 : base (set_current_restart_ix it (Z.of_nat k))) by (by destruct Hb).
  assert (Eg : get_restart_point (set_current_restart_ix it (Z.of_nat k)) (Z.of_nat k) = Done (off es r))
    by (by apply get_restart_point_ok).
  cbn [current_restart_ix set_current_restart_ix] in *. rewrite Eg. cbn [bind].
  rewrite (proj2 (Z.ltb_lt _ _)) by (by apply off_lt_iff; [lia|lia|]).
  pose proof entries_le_block.
  apply (advance_until_ok _ _ (S i) r); [|done|lia|].
  - apply (restart_ready _ k); [by destruct Hb|done..].
  - cbn [block set_offset]. rewrite (base_block _ Hb1). lia.
Qed.

(** [prev] with no current entry goes back from where the iterator was last. *)
Lemma prev_unpositioned it (i : nat) :
  unpositioned it → (i ≤ n)%nat → current_entry_offset it = off es i →
  match i with
  | O => bi_prev it = Done (false, bi_reset it)
  | S i' => ∃ it' e', bi_prev it = Done (true, it') ∧ at_entry it' i' e'
  end.
Proof.
  intros [Hb _ _ _ Hix] Hi Hc. unfold bi_prev. rewrite Hc, Hix. destruct i as [|i].
  { by rewrite off_0. }
  pose proof (off_mono es 0 (S i) ltac:(lia) ltac:(lia)). rewrite off_0 in *.
  rewrite (proj2 (Z.eqb_neq _ _)) by lia. simpl. rewrite Hix.
  pose proof (get_restart_point_ok it 0 0 Hb (wf_restart0 _ _ Hrs)) as Eg.
  change (Z.of_nat 0) with 0 in Eg. rewrite Eg. cbn [bind]. rewrite off_0.
  rewrite (proj2 (Z.leb_gt (off es (S i)) 0)) by lia. cbn [bind]. rewrite Hix, Eg. cbn [bind].
  rewrite off_0, (proj2 (Z.ltb_lt 0 _)) by lia.
  pose proof entries_le_block.
  apply (advance_until_ok (S (length (block it))) _ (S i) 0); [|lia|done|].
  - apply (restart_ready _ 0); [by destruct Hb|apply Hrs|done|by rewrite off_0].
  - rewrite (base_block _ Hb). lia.
Qed.

(** ** seek_to_restart_point and seek_to_last *)

Lemma seek_to_restart_point_ok it (k r : nat) e :
  base it → rs !! k = Some r → es !! r = Some e →
  ∃ it', seek_to_restart_point it (Z.of_nat k) = Done it' ∧ at_entry it' r e.
Proof.
  intros Hb Hk He. unfold seek_to_restart_point.
  rewrite (get_restart_point_ok it k r) by done. cbn [bind].
  assert (Hb1 : base (set_current_restart_ix
    (set_current_entry_offset (set_offset it (off es r)) (off es r)) (Z.of_nat k))).
  { destruct Hb. split; try done. exists r. apply lookup_lt_Some in He. auto. }
  rewrite (parse_entry_ok _ r e); [|done..]. cbn [bind].
  pose proof (wf_restart_shared _ _ Hrs k r e Hk He) as Hsh.
  rewrite (proj2 (Z.eqb_eq (Z.of_nat (e_shared e)) 0)) by lia.
  rewrite (assemble_key_ok _ r e); [|by destruct Hb1|done|by rewrite Hsh]. cbn [bind].
  match goal with |- context [bi_valid ?it1] => assert (Hat : at_entry it1 r e) end.
  { split; try done; [by destruct Hb1|]. by exists k, r. }
  rewrite (at_entry_valid _ _ _ Hat). by eexists.
Qed.

Lemma advance_to_end_ok fuel it i e :
  at_entry it i e → (n - i ≤ fuel)%nat → (0 < fuel)%nat →
  ∃ it' e', advance_to_end fuel it = Done it' ∧ at_entry it' (pred n) e'.
Proof.
  revert it i e. induction fuel as [|fuel IH]; intros it i e Hat Hf Hpos; [lia|]. simpl.
  pose proof (at_lookup _ _ _ Hat) as He. apply lookup_lt_Some in He as Hlt.
  rewrite (at_offset _ _ _ Hat), (base_restarts_off _ (at_base _ _ _ Hat)).
  destruct (Z.ltb_spec (off es (S i)) (off es n)) as [Hl|Hge].
  - apply off_lt_iff in Hl; [|lia|done].
    destruct (lookup_lt_is_Some_2 es (S i)) as [e1 He1]; [lia|].
    destruct (advance_ready it (S i) e1 (at_entry_ready _ _ _ Hat) He1) as (it1&->&Hat1).
    cbn [bind]. apply (IH it1 (S i) e1); [done|lia|lia].
  - assert (S i = n) by (pose proof (off_lt_iff es (S i) n); lia).
    exists it, e. split; [done|]. by replace (pred n) with i by lia.
Qed.

Lemma seek_to_last_ok it :
  base it → es ≠ [] → ∃ it' e, seek_to_last it = Done it' ∧ at_entry it' (pred n) e.
Proof.
  intros Hb Hne. unfold seek_to_last. rewrite number_restarts_ok by done. cbn [bind].
  pose proof len_rs_bound. rewrite (proj2 (Z.ltb_lt _ _)) by lia.
  destruct (lookup_lt_is_Some_2 rs (pred (length rs))) as [r Hr]; [unfold len in *; lia|].
  assert (Hrn : (r < n)%nat).
  { destruct (pred (length rs)) as [|k] eqn:Ek.
    - rewrite (wf_restart0 _ _ Hrs) in Hr. simplify_eq. destruct es; [done|simpl; lia].
    - by eapply wf_restart_in. }
  destruct (lookup_lt_is_Some_2 es r Hrn) as [e He].
  replace (len rs - 1) with (Z.of_nat (pred (length rs))) by (unfold len in *; lia).
  destruct (seek_to_restart_point_ok it _ r e Hb Hr He) as (it1&->&Hat). cbn [bind].
  destruct (advance_to_end_ok (S (length (block it1))) it1 r e Hat) as (it2&e2&->&Hat2).
  - rewrite (base_block _ (at_base _ _ _ Hat)). pose proof entries_le_block. lia.
  - lia.
  - cbn [bind]. rewrite (at_entry_valid _ _ _ Hat2). by exists it2, e2.
Qed.

(** ** seek *)

Context `{!CmpOrder (opt_cmp o)}.
Context (Hsorted : ∀ i e e', es !! i = Some e → es !! S i = Some e' →
           cmp (opt_cmp o) (e_key e) (e_key e') = Lt).

Lemma keys_increasing (i j : nat) e e' :
  (i < j)%nat → es !! i = Some e → es !! j = Some e' → cmp (opt_cmp o) (e_key e) (e_key e') = Lt.
Proof.
  intros Hij. revert e'. induction Hij as [|j Hij IH]; intros e' Hi Hj; [by eapply Hsorted|].
  destruct (lookup_lt_is_Some_2 es j) as [e1 H1]; [apply lookup_lt_Some in Hj; lia|].
  eapply cmp_lt_trans; [by apply IH|by eapply Hsorted].
Qed.

(** All entries before [j] have keys below [to]. *)
Definition below (to : bytes) (j : nat) : Prop :=
  ∀ i e, (i < j)%nat → es !! i = Some e → cmp (opt_cmp o) (e_key e) to = Lt.

Lemma below_entry to j e :
  es !! j = Some e → cmp (opt_cmp o) (e_key e) to = Lt → below to (S j).
Proof.
  intros He Hlt i e' Hi He'. destruct (decide (i = j)) as [->|].
  - by simplify_eq.
  - eapply cmp_lt_trans; [|done]. eapply (keys_increasing i j); [lia|done|done].
Qed.

(** The linear search from entry [j] finds the first entry at or past [to]. *)
Lemma seek_linear_ok fuel it to (j : nat) :
  ready it j → below to j → (n - j < fuel)%nat →
  ∃ it', seek_linear fuel to it = Done it' ∧
    match find_ge (opt_cmp o) to (e_kv <$> es) with
    | Some i => ∃ e, at_entry it' i e
    | None => unpositioned it'
    end.
Proof.
  revert it j. induction fuel as [|fuel IH]; intros it j Hr Hbel Hf; [lia|]. simpl. unfold bi_next.
  destruct (es !! j) as [e|] eqn:He.
  - apply lookup_lt_Some in He as Hlt.
    destruct (advance_ready it j e Hr He) as (it1&->&Hat). cbn [bind negb].
    rewrite (at_entry_current _ _ _ _ _ Hat). cbn [bind].
    rewrite (base_opt _ (at_base _ _ _ Hat)).
    assert (Hge : cmp (opt_cmp o) (e_key e) to ≠ Lt →
      find_ge (opt_cmp o) to (e_kv <$> es) = Some j).
    { intros Hc. unfold find_ge.
      assert (Hfind : list_find (λ kv : bytes * bytes, cmp (opt_cmp o) kv.1 to ≠ Lt) (e_kv <$> es)
        = Some (j, e_kv e)); [|by rewrite Hfind].
      apply list_find_Some. split; [by rewrite list_lookup_fmap, He|]. split; [done|].
      intros i kv Hi Hij. rewrite list_lookup_fmap in Hi.
      destruct (es !! i) as [e'|] eqn:He'; simplify_eq/=. rewrite (Hbel i e' Hij He'). auto. }
    destruct (cmp (opt_cmp o) (e_key e) to) eqn:Hc.
    + exists it1. split; [done|]. rewrite Hge by done. by exists e.
    + apply (IH it1 (S j)); [by eapply at_entry_ready|by eapply below_entry|lia].
    + exists it1. split; [done|]. rewrite Hge by done. by exists e.
  - apply lookup_ge_None in He. pose proof (ready_le _ _ Hr). assert (j = n) as -> by lia.
    rewrite advance_end by done. cbn [bind negb]. exists (bi_reset it). split; [done|].
    unfold find_ge.
    assert (Hfind : list_find (λ kv : bytes * bytes, cmp (opt_cmp o) kv.1 to ≠ Lt) (e_kv <$> es) = None);
      [|rewrite Hfind; by apply base_reset, Hr].
    apply list_find_None. apply Forall_lookup. intros i kv Hi Hge. apply Hge.
    rewrite list_lookup_fmap in Hi. destruct (es !! i) as [e'|] eqn:He'; simplify_eq/=.
    apply (Hbel i e'); [by eapply lookup_lt_Some|done].
Qed.

(** The binary search ends on a restart point with only smaller keys before. *)
Lemma search_restarts_ok fuel it to (left right : nat) r :
  base it → (left ≤ right)%nat → (right < length rs)%nat → es ≠ [] →
  rs !! left = Some r → below to r → (right - left < fuel)%nat →
  ∃ it' (k r' : nat), search_restarts fuel to (Z.of_nat left) (Z.of_nat right) it
      = Done (Z.of_nat k, Z.of_nat k, it') ∧
    base it' ∧ rs !! k = Some r' ∧ below to r'.
Proof.
  revert it left right r. induction fuel as [|fuel IH];
    intros it left right r Hb Hlr Hrl Hne Hr Hbel Hf; [lia|]. simpl.
  destruct (Z.ltb_spec (Z.of_nat left) (Z.of_nat right)) as [Hlt|].
  2: { assert (right = left) as -> by lia. by exists it, left, r. }
  set (mid := ((left + right + 1) / 2)%nat).
  assert (Hmid : (left < mid ≤ right)%nat).
  { subst mid. pose proof (Nat.div_mod_eq (left + right + 1) 2).
    pose proof (Nat.mod_upper_bound (left + right + 1) 2). lia. }
  replace ((Z.of_nat left + Z.of_nat right + 1) / 2) with (Z.of_nat mid)
    by (subst mid; rewrite Nat2Z.inj_div; f_equal; lia).
  destruct (lookup_lt_is_Some_2 rs mid) as [rm Hrm]; [lia|].
  assert (Hrmn : (rm < n)%nat).
  { destruct mid as [|m']; [lia|]. by eapply wf_restart_in. }
  destruct (lookup_lt_is_Some_2 es rm Hrmn) as [em Hem].
  destruct (seek_to_restart_point_ok it mid rm em Hb Hrm Hem) as (it1&->&Hat). cbn [bind].
  pose proof (at_base _ _ _ Hat) as Hb1. rewrite (base_opt _ Hb1), (at_key _ _ _ Hat).
  assert (Hleft : ∃ it' (k r' : nat), search_restarts fuel to (Z.of_nat left) (Z.of_nat mid - 1) it1
      = Done (Z.of_nat k, Z.of_nat k, it') ∧ base it' ∧ rs !! k = Some r' ∧ below to r').
  { replace (Z.of_nat mid - 1) with (Z.of_nat (pred mid)) by lia. by apply (IH _ _ _ r); try done; lia. }
  destruct (cmp (opt_cmp o) (e_key em) to) eqn:Hc; try exact Hleft.
  apply (IH it1 mid right rm); try done; try lia.
  intros i e Hi He. pose proof (below_entry to rm em Hem Hc) as Hbel'. apply (Hbel' i e); [lia|done].
Qed.

Lemma seek_ok it to :
  base it →
  ∃ it', bi_seek it to = Done it' ∧
    match find_ge (opt_cmp o) to (e_kv <$> es) with
    | Some i => ∃ e, at_entry it' i e
    | None => unpositioned it'
    end.
Proof.
  intros Hb. unfold bi_seek. pose proof (base_reset it Hb) as [Hb0 _ _ _ _].
  rewrite number_restarts_ok by done. cbn [bind]. pose proof len_rs_bound.
  rewrite (proj2 (Z.eqb_neq (len rs) 0)) by lia.
  assert (Hbel0 : below to 0) by (intros i e ?; lia).
  assert (Hsearch : ∃ it' (k r' : nat),
    search_restarts (S (Z.to_nat (len rs - 1))) to 0 (len rs - 1) (bi_reset it)
      = Done (Z.of_nat k, Z.of_nat k, it') ∧ base it' ∧ rs !! k = Some r' ∧ below to r').
  { destruct (decide (es = [])) as [Hnil|Hne].
    - assert (length rs = 1)%nat.
      { destruct (decide (1 < length rs)%nat) as [H1|]; [|unfold len in *; lia].
        destruct (lookup_lt_is_Some_2 rs 1 H1) as [r1 Hr1].
        pose proof (wf_restart_in _ _ Hrs 0 r1 Hr1) as Hin. rewrite Hnil in Hin. simpl in Hin. lia. }
      replace (len rs - 1) with 0 by (unfold len in *; lia). simpl.
      exists (bi_reset it), 0%nat, 0%nat. split; [done|]. split; [done|]. split; [apply Hrs|done].
    - replace (len rs - 1) with (Z.of_nat (pred (length rs))) by (unfold len in *; lia).
      change 0 with (Z.of_nat 0) at 1.
      apply (search_restarts_ok _ _ _ 0 (pred (length rs)) 0); try done; try lia;
        [unfold len in *; lia|apply Hrs]. }
  destruct Hsearch as (it1&k&r&->&Hb1&Hk&Hbel). cbn [bind]. rewrite Z.eqb_refl.
  assert (Hb2 : base (set_current_restart_ix it1 (Z.of_nat k))) by (by destruct Hb1).
  rewrite (get_restart_point_ok _ k r) by done. cbn [bind].
  apply (seek_linear_ok _ _ _ r); [|done|].
  - apply (restart_ready _ k); [by destruct Hb1|done..].
  - cbn [block set_offset]. rewrite (base_block _ Hb2). pose proof entries_le_block. lia.
Qed.

(** ** The iterator keeps the contract of [SSIterator] *)

Definition block_rep (it : BlockIter) (pos : option nat) : Prop :=
  match pos with
  | Some i => ∃ e, at_entry it i e
  | None => unpositioned it
  end.

Lemma block_rep_base it pos : block_rep it pos → base it.
Proof. destruct pos as [i|]; [intros (e&[])|intros []]; done. Qed.

Lemma block_rep_ready it pos : block_rep it pos → ready it (cursor_succ pos).
Proof. destruct pos as [i|]; [intros (e&?); by eapply at_entry_ready|apply unpositioned_ready]. Qed.

Lemma Block_iter_rep b :
  block_contents b = C → block_opt b = o → ∃ it, Block_iter b = Done it ∧ block_rep it None.
Proof.
  intros Hb Ho. unfold Block_iter. rewrite Hb, Ho. pose proof len_block as Hl.
  pose proof (off_nonneg es n). pose proof len_rs_bound.
  rewrite usub_Done, Hl by lia. cbn [bind].
  assert (Hr4 : slice_from C (off es n + 4 * len rs + 4 - 4) = Done (encode_fixed32 (as_u32 (len rs)))).
  { unfold enc_block. rewrite app_assoc. apply slice_from_app.
    rewrite len_app, len_u32s, <- (off_all es n) by done. unfold len. rewrite length_fmap. lia. }
  rewrite Hr4. cbn [bind]. rewrite as_u32_small, decode_encode_fixed32 by lia.
  rewrite usub_Done by lia. cbn [bind]. eexists. split; [done|]. split; [|done..].
  split; [done|done|simpl; lia|]. exists 0%nat. auto.
Qed.

#[export] Instance BlockIter_forward :
  SSIteratorForward BlockIter_SSIterator (e_kv <$> es) block_rep.
Proof.
  split.
  - intros it i (e&Hat). rewrite length_fmap. by eapply lookup_lt_Some, at_lookup.
  - intros it pos kv Hr%block_rep_ready Hkv. rewrite list_lookup_fmap in Hkv.
    destruct (es !! cursor_succ pos) as [e|] eqn:He; [|done].
    destruct (advance_ready it _ e Hr He) as (it'&?&?). exists it'. split; [done|]. by exists e.
  - intros it pos Hr%block_rep_ready Hkv. rewrite list_lookup_fmap in Hkv.
    destruct (es !! cursor_succ pos) as [e|] eqn:He; [done|]. apply lookup_ge_None in He.
    pose proof (ready_le _ _ Hr). replace (cursor_succ pos) with n in Hr by lia.
    exists (bi_reset it). split; [by apply advance_end|]. by apply base_reset, Hr.
  - intros it i kv k v (e&Hat) Hkv. rewrite list_lookup_fmap, (at_lookup _ _ _ Hat) in Hkv.
    simplify_eq/=. by apply (at_entry_current it i).
  - intros it k v Hr. simpl. unfold bi_current. by rewrite unpositioned_invalid.
  - intros it [i|]; simpl; unfold bi_current_key.
    + intros (e&Hat). rewrite (at_entry_valid _ _ _ Hat), list_lookup_fmap, (at_lookup _ _ _ Hat).
      simpl. by rewrite (at_key _ _ _ Hat).
    + intros Hr. by rewrite unpositioned_invalid.
  - intros it pos Hr%block_rep_base. exists (bi_reset it). split; [done|]. by apply base_reset.
  - intros it [i|]; simpl; [intros (e&Hat)|intros Hr].
    + by rewrite (at_entry_valid _ _ _ Hat).
    + by rewrite unpositioned_invalid.
Qed.

#[export] Instance BlockIter_spec :
  SSIteratorSpec BlockIter_SSIterator (opt_cmp o) (e_kv <$> es) block_rep.
Proof. split; [apply BlockIter_forward|]. intros it pos to Hr%block_rep_base. by apply seek_ok. Qed.

#[export] Instance BlockIter_back : SSIteratorBack BlockIter_SSIterator (e_kv <$> es) block_rep.
Proof.
  split.
  - intros it i (e&Hat). destruct (prev_back it i e Hat) as (it'&e'&?&?). exists it'.
    split; [done|]. by exists e'.
  - intros it (e&Hat). exists (bi_reset it). split; [by eapply prev_first|]. by eapply base_reset, at_base.
Qed.
End iter.
