(* ===== verification/BlockSafety.v ===== *)
(** * The block iterator on arbitrary contents

    Nothing is assumed here about the bytes of the block: the operations of
    [BlockIter] may panic on corrupt contents, but every loop ends. *)

From S2P Require Export Prelude Encoding Options Types Block.

Section safety.
Context `{E : IntegerEncoding, !IntegerEncodingSpec E}.

(** What every state reachable from [Block::iter] keeps, whatever the block: the
    offsets are values of [usize], and a restart index is one that was counted in
    32 bits. *)
Record sane (it : BlockIter) : Prop := {
  sane_restarts_off : 0 ≤ restarts_off it ≤ len (block it);
  sane_offset : 0 ≤ it_offset it < U64;
  sane_current : current_entry_offset it = 0 ∨ 0 ≤ current_entry_offset it < restarts_off it;
  sane_ix : 0 ≤ current_restart_ix it < U32;
  sane_val : 0 ≤ val_offset it < U64;
}.

(** The fields an operation may not change. *)
Definition same_block (it it' : BlockIter) : Prop :=
  block it' = block it ∧ restarts_off it' = restarts_off it ∧ opt it' = opt it.

#[local] Instance same_block_preorder : PreOrder same_block.
Proof.
  split; [by intros it|]. intros i1 i2 i3 (?&?&?) (?&?&?). repeat split; congruence.
Qed.

(** ** One step *)

Lemma terminates_number_restarts it : terminates (number_restarts it).
Proof. unfold number_restarts. solve_terminates. Qed.

Lemma terminates_get_restart_point it ix : terminates (get_restart_point it ix).
Proof. unfold get_restart_point. solve_terminates. Qed.

Lemma terminates_parse it : terminates (parse_entry_and_advance it).
Proof. unfold parse_entry_and_advance. solve_terminates. Qed.

Lemma terminates_assemble it a b d : terminates (assemble_key it a b d).
Proof. unfold assemble_key. solve_terminates. Qed.
#[local] Hint Resolve terminates_number_restarts terminates_get_restart_point
  terminates_parse terminates_assemble : rust.

Lemma number_restarts_range it nr : number_restarts it = Done nr → 0 ≤ nr < U32.
Proof. unfold number_restarts. intros H. run_inv. apply decode_fixed32_range. Qed.

Lemma get_restart_point_range it ix off : get_restart_point it ix = Done off → 0 ≤ off < U32.
Proof. unfold get_restart_point. intros H. run_inv. apply decode_fixed32_range. Qed.

(** Parsing moves past at least the three header bytes. *)
Lemma parse_inv it s ns v h it' :
  parse_entry_and_advance it = Done (s, ns, v, h, it') →
  ∃ vo off, it' = set_offset (set_val_offset it vo) off ∧ 0 ≤ it_offset it ∧
    it_offset it + 3 ≤ vo ≤ off ∧ off < U64.
Proof.
  unfold parse_entry_and_advance. intros H0.
  apply bind_Done in H0 as (s1&Hs1&H0). apply slice_inv in Hs1 as (?&?&_).
  apply bind_Done in H0 as ([x1 n1]&Hd1&H0). apply decode_var_unwrap_inv in Hd1.
  apply bind_Done in H0 as (s2&_&H0).
  apply bind_Done in H0 as ([x2 n2]&Hd2&H0). apply decode_var_unwrap_inv in Hd2.
  apply bind_Done in H0 as (s3&_&H0).
  apply bind_Done in H0 as ([x3 n3]&Hd3&H0). apply decode_var_unwrap_inv in Hd3.
  apply bind_Done in H0 as (vo&Hvo&H0). apply uadd_inv in Hvo as [-> ?].
  apply bind_Done in H0 as (off&Hoff&H0). apply uadd_inv in Hoff as [-> ?].
  simplify_eq. eexists _, _. split; [done|]. simpl in *. lia.
Qed.

(** An entry header is inside the block, and its lengths are values of [usize]. *)
Lemma parse_typed it s ns v h it' :
  parse_entry_and_advance it = Done (s, ns, v, h, it') →
  0 ≤ s < U64 ∧ 0 ≤ ns < U64 ∧ 0 ≤ v < U64 ∧ 3 ≤ h ∧ it_offset it + h ≤ len (block it) ∧
  val_offset it' = it_offset it + h + ns ∧ it_offset it' = val_offset it' + v.
Proof.
  assert (Hlen : ∀ o n l, slice_from (block it) o = Done l → 1 ≤ n ≤ len l → o + n ≤ len (block it)).
  { unfold slice_from. intros o n l Hl Hn. apply slice_inv in Hl as (?&?&->). unfold len in *.
    rewrite length_take, length_drop in Hn. lia. }
  unfold parse_entry_and_advance. intros H0.
  apply bind_Done in H0 as (s1&_&H0). apply bind_Done in H0 as ([x1 n1]&Hd1&H0).
  apply bind_Done in H0 as (s2&_&H0). apply bind_Done in H0 as ([x2 n2]&Hd2&H0).
  apply bind_Done in H0 as (s3&Hs3&H0). apply bind_Done in H0 as ([x3 n3]&Hd3&H0).
  apply decode_var_unwrap_inv in Hd1, Hd2, Hd3. apply (Hlen _ n3) in Hs3; [|lia].
  apply bind_Done in H0 as (vo&[-> _]%uadd_inv&H0). apply bind_Done in H0 as (off&[-> _]%uadd_inv&[= <- <- <- <- <-]).
  simpl in *. lia.
Qed.

Lemma assemble_inv it a b d it' : assemble_key it a b d = Done it' → ∃ k, it' = set_key it k.
Proof. unfold assemble_key. intros H. run_inv. by eexists. Qed.

Lemma adjust_spec fuel nr it :
  (Z.to_nat (nr - current_restart_ix it) < fuel)%nat →
  terminates (adjust_restart_ix fuel nr it) ∧
  ∀ it', adjust_restart_ix fuel nr it = Done it' →
    ∃ ix, it' = set_current_restart_ix it ix ∧ current_restart_ix it ≤ ix ∧
      (ix = current_restart_ix it ∨ ix < nr).
Proof.
  revert it. induction fuel as [|fuel IH]; intros it Hf; [lia|]. simpl.
  assert (Hself : it = set_current_restart_ix it (current_restart_ix it)) by (by destruct it).
  destruct (Z.ltb_spec (current_restart_ix it + 1) nr) as [Hlt|].
  - destruct (IH (set_current_restart_ix it (current_restart_ix it + 1))) as [Ht Hd]; [simpl; lia|].
    split.
    + apply terminates_bind; [auto with rust|]. intros rp _. by destruct (rp <? _).
    + intros it' H0. apply bind_Done in H0 as (rp&_&H0). destruct (rp <? _).
      * destruct (Hd it' H0) as (ix&->&?&?). exists ix. split; [done|]. simpl in *. lia.
      * simplify_eq. eexists. split; [exact Hself|]. lia.
  - split; [done|]. intros it' [= <-]. eexists. split; [exact Hself|]. lia.
Qed.

(** [advance] terminates; it either resets, at the end of the entries, or
    moves forward by at least three bytes. *)
Lemma advance_spec it :
  sane it →
  terminates (bi_advance it) ∧
  ∀ r it', bi_advance it = Done (r, it') →
    sane it' ∧ same_block it it' ∧
    (r = false ∧ restarts_off it ≤ it_offset it ∨
     r = true ∧ it_offset it < restarts_off it ∧ it_offset it + 3 ≤ it_offset it' ∧
     current_entry_offset it' = it_offset it).
Proof.
  intros [Hro Ho Hc Hix Hv]. unfold bi_advance.
  destruct (Z.leb_spec (restarts_off it) (it_offset it)) as [Hge|Hlt].
  { split; [done|]. intros r it' [= <- <-]. split; [split; simpl; done || lia|]. split; [done|auto]. }
  split.
  - apply terminates_bind; [auto with rust|]. intros [[[[s ns] v] h] it1] Hp.
    apply terminates_bind; [auto with rust|]. intros it2 Ha.
    apply terminates_bind; [auto with rust|]. intros nr _.
    apply terminates_bind; [|done]. apply adjust_spec. lia.
  - intros r it' H0. apply bind_Done in H0 as ([[[[s ns] v] h] it1]&Hp&H0).
    apply parse_inv in Hp as (vo&off&->&_&Hoff&Hoff').
    apply bind_Done in H0 as (it2&Ha&H0). apply assemble_inv in Ha as (k&->).
    apply bind_Done in H0 as (nr&Hnr%number_restarts_range&H0). apply bind_Done in H0 as (it3&Hadj&[= <- <-]).
    apply adjust_spec in Hadj as (ix&->&Hle&Hnr'); [|lia]. simpl in *.
    split; [split; simpl; lia|]. split; [done|]. right. simpl. lia.
Qed.

Lemma terminates_current it k v : terminates (bi_current it k v).
Proof. unfold bi_current. solve_terminates. Qed.
#[local] Hint Resolve terminates_current : rust.

Lemma bi_next_spec it :
  sane it →
  terminates (bi_next it) ∧
  ∀ kv it', bi_next it = Done (kv, it') →
    sane it' ∧ same_block it it' ∧
    (kv = None ∨ it_offset it < restarts_off it ∧ it_offset it + 3 ≤ it_offset it').
Proof.
  intros Hs. destruct (advance_spec it Hs) as [Ht Hd]. unfold bi_next. split.
  - apply terminates_bind; [done|]. intros [r it1] _. destruct r; simpl; [|done].
    apply terminates_bind; [auto with rust|]. intros [[ok k] v] _. by destruct ok.
  - intros kv it' H0. apply bind_Done in H0 as ([r it1]&Ha&H0).
    destruct (Hd r it1 Ha) as (?&?&Hcase). destruct r; simpl in H0.
    + apply bind_Done in H0 as ([[ok k] v]&_&H0).
      assert (it' = it1) as -> by (destruct ok; by simplify_eq).
      split; [done|]. split; [done|]. right. destruct Hcase as [[? _]|(_&?&?&_)]; [done|lia].
    + simplify_eq. auto.
Qed.

(** ** The loops *)

Lemma seek_linear_spec fuel to it :
  sane it → (Z.to_nat (restarts_off it - it_offset it) < fuel)%nat →
  terminates (seek_linear fuel to it) ∧
  ∀ it', seek_linear fuel to it = Done it' → sane it' ∧ same_block it it'.
Proof.
  revert it. induction fuel as [|fuel IH]; intros it Hs Hf; [lia|]. simpl.
  destruct (bi_next_spec it Hs) as [Ht Hd]. split.
  - apply terminates_bind; [done|]. intros [kv it1] Hn.
    destruct (Hd kv it1 Hn) as (Hs1&(_&Hro&_)&Hk).
    destruct kv as [[k v]|]; [|done]. destruct Hk as [?|?]; [done|].
    destruct (cmp _ k to); try done. apply IH; [done|]. lia.
  - intros it' H0. apply bind_Done in H0 as ([kv it1]&Hn&H0).
    destruct (Hd kv it1 Hn) as (Hs1&Hsame&Hk).
    destruct kv as [[k v]|]; [|by simplify_eq]. destruct Hk as [?|?]; [done|].
    destruct (cmp _ k to); [by simplify_eq| |by simplify_eq].
    apply IH in H0 as [??]; [split; [done|by etransitivity]|done|].
    destruct Hsame as (_&Hro&_). lia.
Qed.

Lemma advance_to_end_spec fuel it :
  sane it → (Z.to_nat (restarts_off it - it_offset it) < fuel)%nat →
  terminates (advance_to_end fuel it) ∧
  ∀ it', advance_to_end fuel it = Done it' → sane it' ∧ same_block it it'.
Proof.
  revert it. induction fuel as [|fuel IH]; intros it Hs Hf; [lia|]. simpl.
  destruct (Z.ltb_spec (it_offset it) (restarts_off it)) as [Hlt|].
  2: { split; [done|]. by intros it' [= <-]. }
  destruct (advance_spec it Hs) as [Ht Hd]. split.
  - apply terminates_bind; [done|]. intros [r it1] Ha.
    destruct (Hd r it1 Ha) as (Hs1&(_&Hro&_)&[[_ ?]|(_&_&?&_)]); [lia|]. apply IH; [done|lia].
  - intros it' H0. apply bind_Done in H0 as ([r it1]&Ha&H0).
    destruct (Hd r it1 Ha) as (Hs1&Hsame&[[_ ?]|(_&_&?&_)]); [lia|].
    apply IH in H0 as [??]; [split; [done|by etransitivity]|done|].
    destruct Hsame as (_&Hro&_). lia.
Qed.

Lemma advance_until_spec fuel orig it :
  sane it → it_offset it < orig < restarts_off it → (Z.to_nat (orig - it_offset it) < fuel)%nat →
  terminates (advance_until fuel orig it) ∧
  ∀ r it', advance_until fuel orig it = Done (r, it') → sane it' ∧ same_block it it'.
Proof.
  revert it. induction fuel as [|fuel IH]; intros it Hs Ho Hf; [lia|]. simpl.
  destruct (advance_spec it Hs) as [Ht Hd]. split.
  - apply terminates_bind; [done|]. intros [r it1] Ha.
    destruct (Hd r it1 Ha) as (Hs1&(_&Hro&_)&[[_ ?]|(_&_&?&_)]); [lia|].
    destruct (Z.leb_spec orig (it_offset it1)); [done|]. apply IH; [done|lia|lia].
  - intros r it' H0. apply bind_Done in H0 as ([r1 it1]&Ha&H0).
    destruct (Hd r1 it1 Ha) as (Hs1&Hsame&[[_ ?]|(_&_&?&_)]); [lia|].
    destruct (Z.leb_spec orig (it_offset it1)); [by simplify_eq|].
    destruct Hsame as (Hb&Hro&Hop).
    apply IH in H0 as [? Hsame']; [|done|lia|lia]. split; [done|]. by etransitivity; [split_and!|].
Qed.

Lemma back_restart_ix_spec fuel orig it :
  0 ≤ current_restart_ix it < U32 → (Z.to_nat (current_restart_ix it) < fuel)%nat →
  terminates (back_restart_ix fuel orig it) ∧
  ∀ it', back_restart_ix fuel orig it = Done it' →
    ∃ off ix, it' = set_current_restart_ix (set_offset it off) ix ∧ 0 ≤ ix < U32.
Proof.
  revert it. induction fuel as [|fuel IH]; intros it Hix Hf; [lia|]. simpl.
  destruct (Z.eqb_spec (current_restart_ix it) 0) as [H00|Hne].
  - split.
    + apply terminates_bind; [auto with rust|]. intros rp _. destruct (_ <=? rp); [|done].
      apply terminates_bind; [auto with rust|done].
    + intros it' H0. apply bind_Done in H0 as (rp&_&H0). destruct (_ <=? rp).
      * apply bind_Done in H0 as (nr&Hnr&[= <-]). apply number_restarts_range in Hnr. by eexists _, _.
      * simplify_eq. exists (it_offset it'), (current_restart_ix it'). by destruct it'.
  - destruct (IH (set_current_restart_ix it (current_restart_ix it - 1))) as [Ht Hd]; [simpl; lia..|].
    split.
    + apply terminates_bind; [auto with rust|]. intros rp _. by destruct (_ <=? rp).
    + intros it' H0. apply bind_Done in H0 as (rp&_&H0). destruct (_ <=? rp).
      * destruct (Hd it' H0) as (off&ix&->&?). by exists off, ix.
      * simplify_eq. exists (it_offset it'), (current_restart_ix it'). by destruct it'.
Qed.

(** ** The operations *)

Lemma prev_spec it :
  sane it →
  terminates (bi_prev it) ∧ ∀ r it', bi_prev it = Done (r, it') → sane it' ∧ same_block it it'.
Proof.
  intros [Hro Ho Hc Hix Hv]. unfold bi_prev.
  destruct (Z.eqb_spec (current_entry_offset it) 0) as [|Hne].
  { split; [done|]. intros r it' [= <- <-]. split; [split; simpl; done || lia|done]. }
  destruct (back_restart_ix_spec (S (Z.to_nat (current_restart_ix it))) (current_entry_offset it) it)
    as [Hbt Hbd]; [done|lia|].
  assert (Huntil : ∀ it1 off, back_restart_ix (S (Z.to_nat (current_restart_ix it)))
      (current_entry_offset it) it = Done it1 → 0 ≤ off < U32 → off < current_entry_offset it →
    terminates (advance_until (S (length (block it1))) (current_entry_offset it) (set_offset it1 off)) ∧
    ∀ r it', advance_until (S (length (block it1))) (current_entry_offset it) (set_offset it1 off)
      = Done (r, it') → sane it' ∧ same_block it it').
  { intros it1 off (off0&ix&->&Hix')%Hbd Hoff Hlt.
    destruct (advance_until_spec (S (length (block it))) (current_entry_offset it)
      (set_offset (set_current_restart_ix (set_offset it off0) ix) off)) as [Ht Hd].
    - split; simpl; unfold U32, U64 in *; lia.
    - simpl. lia.
    - simpl. unfold len in *. lia.
    - split; [exact Ht|]. intros r it' Hr. destruct (Hd r it' Hr) as [? Hsame]. done. }
  split.
  - apply terminates_bind; [done|]. intros it1 Hb. apply terminates_bind; [auto with rust|].
    intros off Hg%get_restart_point_range. simpl. destruct (Z.ltb_spec off (current_entry_offset it)); [|done].
    by apply (Huntil it1 off).
  - intros r it' H0. apply bind_Done in H0 as (it1&Hb&H0). apply bind_Done in H0 as (off&Hg&H0).
    apply get_restart_point_range in Hg. simpl in H0.
    destruct (Z.ltb_spec off (current_entry_offset it)); [|done]. by apply (Huntil it1 off) in H0.
Qed.

(** The assertion of [seek_to_restart_point] puts the entry before the
    restart array. *)
Lemma seek_to_restart_point_spec it ix :
  sane it → 0 ≤ ix < U32 →
  terminates (seek_to_restart_point it ix) ∧
  ∀ it', seek_to_restart_point it ix = Done it' → sane it' ∧ same_block it it'.
Proof.
  intros [Hro Ho Hc Hix Hval] Hix'. unfold seek_to_restart_point. split.
  - apply terminates_bind; [auto with rust|]. intros off _.
    apply terminates_bind; [auto with rust|]. intros [[[[s ns] v] h] it1] _.
    apply terminates_assert. intros _. apply terminates_bind; [auto with rust|]. intros it2 _.
    by apply terminates_assert.
  - intros it' H0. apply bind_Done in H0 as (off&Hg%get_restart_point_range&H0).
    apply bind_Done in H0 as ([[[[s ns] v] h] it1]&Hp&H0).
    apply parse_inv in Hp as (vo&off'&->&_&Hvo&Hoff'). simpl in Hvo.
    destruct (s =? 0); [|done]. apply bind_Done in H0 as (it2&Ha&H0).
    apply assemble_inv in Ha as (k&->). destruct (bi_valid _) eqn:Hv; [|done]. simplify_eq.
    unfold bi_valid in Hv. bool_to_prop. simpl in *. split; [split; simpl; lia|done].
Qed.

Lemma search_restarts_spec fuel to left right it :
  sane it → 0 ≤ left ≤ right ∧ right < U32 → (Z.to_nat (right - left) < fuel)%nat →
  terminates (search_restarts fuel to left right it) ∧
  ∀ l r it', search_restarts fuel to left right it = Done (l, r, it') →
    sane it' ∧ same_block it it' ∧ 0 ≤ l < U32.
Proof.
  revert left right it. induction fuel as [|fuel IH]; intros left right it Hs Hlr Hf; [lia|]. simpl.
  destruct (Z.ltb_spec left right) as [Hlt|].
  2: { split; [done|]. intros l r it' [= <- <- <-]. split; [done|]. split; [done|lia]. }
  assert (Hmid : left < (left + right + 1) / 2 ≤ right).
  { pose proof (Z.div_mod (left + right + 1) 2 ltac:(lia)).
    pose proof (Z.mod_pos_bound (left + right + 1) 2 ltac:(lia)). lia. }
  destruct (seek_to_restart_point_spec it ((left + right + 1) / 2) Hs) as [Ht Hd]; [lia|]. split.
  - apply terminates_bind; [done|]. intros it1 Hsk. destruct (Hd it1 Hsk) as [Hs1 _].
    destruct (cmp _ _ to); apply IH; try done; lia.
  - intros l r it' H0. apply bind_Done in H0 as (it1&Hsk&H0). destruct (Hd it1 Hsk) as [Hs1 Hsame].
    destruct (cmp _ _ to); apply IH in H0 as (?&?&?); try done; try lia;
      (split; [done|]; split; [by etransitivity|lia]).
Qed.

Lemma seek_spec it to :
  sane it → terminates (bi_seek it to) ∧ ∀ it', bi_seek it to = Done it' → sane it' ∧ same_block it it'.
Proof.
  intros [Hro Ho Hc Hix Hv]. unfold bi_seek.
  assert (Hs0 : sane (bi_reset it)) by (split; simpl; lia).
  assert (Hlin : ∀ it1 l off, sane it1 → same_block it it1 → 0 ≤ l < U32 → 0 ≤ off < U32 →
    terminates (seek_linear (S (length (block it1))) to (set_offset (set_current_restart_ix it1 l) off)) ∧
    ∀ it', seek_linear (S (length (block it1))) to (set_offset (set_current_restart_ix it1 l) off) = Done it' →
      sane it' ∧ same_block it it').
  { intros it1 l off [Hro1 Ho1 Hc1 Hix1 Hv1] Hsame Hl Hoff.
    destruct (seek_linear_spec (S (length (block it1))) to
      (set_offset (set_current_restart_ix it1 l) off)) as [Ht Hd].
    - split; simpl; unfold U32, U64 in *; lia.
    - simpl. unfold len in *. lia.
    - split; [done|]. intros it' Hl'. destruct (Hd it' Hl') as [? Hsame']. split; [done|].
      etransitivity; [exact Hsame|exact Hsame']. }
  assert (Hsearch : ∀ nr, number_restarts (bi_reset it) = Done nr →
    0 ≤ (if nr =? 0 then 0 else nr - 1) < U32).
  { intros nr Hnr%number_restarts_range. destruct (Z.eqb_spec nr 0); lia. }
  split.
  - apply terminates_bind; [auto with rust|]. intros nr Hnr%Hsearch.
    destruct (search_restarts_spec (S (Z.to_nat (if nr =? 0 then 0 else nr - 1))) to 0
      (if nr =? 0 then 0 else nr - 1) (bi_reset it)) as [Ht Hd]; [done|lia|lia|].
    apply terminates_bind; [done|]. intros [[l r] it1] (Hs1&Hsame&Hl)%Hd.
    apply terminates_assert. intros _. apply terminates_bind; [auto with rust|].
    intros off Hg%get_restart_point_range. by apply (Hlin it1 l off).
  - intros it' H0. apply bind_Done in H0 as (nr&Hnr%Hsearch&H0).
    destruct (search_restarts_spec (S (Z.to_nat (if nr =? 0 then 0 else nr - 1))) to 0
      (if nr =? 0 then 0 else nr - 1) (bi_reset it)) as [Ht Hd]; [done|lia|lia|].
    apply bind_Done in H0 as ([[l r] it1]&(Hs1&Hsame&Hl)%Hd&H0).
    destruct (l =? r); [|done]. apply bind_Done in H0 as (off&Hg%get_restart_point_range&H0).
    by apply (Hlin it1 l off) in H0.
Qed.

Lemma seek_to_last_spec it :
  sane it →
  terminates (seek_to_last it) ∧ ∀ it', seek_to_last it = Done it' → sane it' ∧ same_block it it'.
Proof.
  intros Hs. pose proof Hs as [Hro Ho Hc Hix Hv]. unfold seek_to_last.
  assert (Hs0 : sane (bi_reset it)) by (split; simpl; lia).
  assert (Hfirst : ∀ nr, terminates (if 0 <? nr
      then let! num_restarts := number_restarts it in seek_to_restart_point it (num_restarts - 1)
      else Done (bi_reset it)) ∧
    ∀ it1, number_restarts it = Done nr → (if 0 <? nr
      then let! num_restarts := number_restarts it in seek_to_restart_point it (num_restarts - 1)
      else Done (bi_reset it)) = Done it1 → sane it1 ∧ same_block it it1).
  { intros nr. destruct (Z.ltb_spec 0 nr) as [Hpos|].
    - split.
      + apply terminates_bind; [auto with rust|]. intros nr' Hnr'. unfold seek_to_restart_point.
        solve_terminates.
      + intros it1 Hnr. apply number_restarts_range in Hnr as Hr. rewrite Hnr. cbn [bind]. apply seek_to_restart_point_spec; [done|lia].
    - split; [done|]. by intros it1 _ [= <-]. }
  assert (Hend : ∀ it1, sane it1 → terminates (advance_to_end (S (length (block it1))) it1) ∧
    ∀ it', advance_to_end (S (length (block it1))) it1 = Done it' → sane it' ∧ same_block it1 it').
  { intros it1 Hs1. apply advance_to_end_spec; [done|]. destruct Hs1. unfold len in *. lia. }
  split.
  - apply terminates_bind; [auto with rust|]. intros nr Hnr.
    apply terminates_bind; [apply Hfirst|]. intros it1 Hf1. apply Hfirst in Hf1 as [Hs1 _]; [|done].
    apply terminates_bind; [by apply Hend|]. intros it2 _. by apply terminates_assert.
  - intros it' H0. apply bind_Done in H0 as (nr&Hnr&H0). apply bind_Done in H0 as (it1&Hf1&H0).
    apply Hfirst in Hf1 as [Hs1 Hsame1]; [|done]. apply bind_Done in H0 as (it2&He&H0).
    apply Hend in He as [? Hsame2]; [|done]. destruct (bi_valid it2); [|done]. simplify_eq.
    split; [done|]. by etransitivity.
Qed.

(** ** Reachable states *)

(** One call of an operation that returned. *)
Inductive bi_step : BlockIter → BlockIter → Prop :=
  | step_advance it r it' : bi_advance it = Done (r, it') → bi_step it it'
  | step_prev it r it' : bi_prev it = Done (r, it') → bi_step it it'
  | step_seek it to it' : bi_seek it to = Done it' → bi_step it it'
  | step_seek_to_last it it' : seek_to_last it = Done it' → bi_step it it'
  | step_reset it : bi_step it (bi_reset it).

(** The states that sequences of calls lead to from [Block::iter]. *)
Inductive bi_reachable (b : Block) : BlockIter → Prop :=
  | reach_iter it : Block_iter b = Done it → bi_reachable b it
  | reach_step it it' : bi_reachable b it → bi_step it it' → bi_reachable b it'.

Lemma Block_iter_sane b it : Block_iter b = Done it → sane it.
Proof.
  unfold Block_iter. intros H0. apply bind_Done in H0 as (n4&Hn4&H0). apply usub_inv in Hn4 as [-> ?].
  apply bind_Done in H0 as (r4&_&H0). apply bind_Done in H0 as (ro&Hro&[= <-]).
  apply usub_inv in Hro as [-> ?]. pose proof (decode_fixed32_range r4). split; simpl; unfold U32, U64; lia.
Qed.

Lemma reachable_sane b it : bi_reachable b it → sane it.
Proof.
  induction 1 as [it Hit|it it' _ IH Hstep]; [by eapply Block_iter_sane|].
  destruct Hstep as [it r it' Ha|it r it' Ha|it to it' Ha|it it' Ha|it].
  - by apply (advance_spec it IH) in Ha as [? _].
  - by apply (prev_spec it IH) in Ha as [? _].
  - by apply (seek_spec it to IH) in Ha as [? _].
  - by apply (seek_to_last_spec it IH) in Ha as [? _].
  - destruct IH. split; simpl; unfold U32, U64; lia.
Qed.
End safety.

(** ** Properties *)

(** C22. On any block contents, however corrupt, and after any sequence of
    iterator calls, every operation of the iterator terminates: it returns or
    panics, and none of its loops runs forever. *)
Theorem BlockIter_terminates `{E : IntegerEncoding, !IntegerEncodingSpec E} b it to :
  bi_reachable b it →
  terminates (bi_advance it) ∧ terminates (bi_prev it) ∧ terminates (bi_seek it to) ∧
  terminates (seek_to_last it) ∧ terminates (bi_current it [] []).
Proof.
  intros Hs%reachable_sane. split; [by apply advance_spec|]. split; [by apply prev_spec|].
  split; [by apply seek_spec|]. split; [by apply seek_to_last_spec|]. apply terminates_current.
Qed.
