(* ===== verification/BlockRoundtrip.v ===== *)
(** * A block that was built reads back (block_builder.rs with block.rs)

    The builder and the iterator composed: what [BlockBuilder::add] accepts,
    [BlockIter] delivers, in order, forwards, backwards and by key. *)

From S2P Require Export BlockBuilder BlockProofs BlockSafety.

(** Strictly increasing keys. *)
Fixpoint sorted_kvs (c : Cmp) (kvs : list (bytes * bytes)) : bool :=
  match kvs with
  | [] => true
  | kv :: l =>
      match l with
      | [] => true
      | kv' :: _ => is_lt (cmp c kv.1 kv'.1)
      end && sorted_kvs c l
  end.

Definition nonempty_keys (kvs : list (bytes * bytes)) : Prop := Forall (λ kv, kv.1 ≠ []) kvs.

Lemma is_lt_true x : is_lt x = true ↔ x = Lt.
Proof. by destruct x. Qed.

Lemma sorted_kvs_lookup c kvs i a b :
  sorted_kvs c kvs = true → kvs !! i = Some a → kvs !! S i = Some b → cmp c a.1 b.1 = Lt.
Proof.
  revert i. induction kvs as [|kv l IH]; intros i; [done|]. simpl. intros [H1 H2]%andb_prop.
  destruct i as [|i]; simpl; [|by apply IH]. intros [= ->]. destruct l as [|kv' l]; [done|].
  simpl. intros [= ->]. by apply is_lt_true.
Qed.

Lemma sorted_kvs_snoc c kvs kv :
  sorted_kvs c (kvs ++ [kv]) =
  sorted_kvs c kvs && match last kvs with Some kv' => is_lt (cmp c kv'.1 kv.1) | None => true end.
Proof.
  induction kvs as [|kv0 l IH]; [done|]. cbn [app sorted_kvs]. rewrite IH.
  destruct l as [|kv1 l]; cbn [last sorted_kvs app]; [by rewrite !andb_true_r|]. by rewrite andb_assoc.
Qed.

(** Any earlier pair has a smaller key. *)
Lemma sorted_lt c `{!CmpOrder c} kvs i j a b :
  sorted_kvs c kvs = true → (i < j)%nat → kvs !! i = Some a → kvs !! j = Some b → cmp c a.1 b.1 = Lt.
Proof.
  intros Hs Hij. revert b. induction Hij as [|j Hij IH]; intros b Ha Hb.
  - by eapply sorted_kvs_lookup.
  - destruct (lookup_lt_is_Some_2 kvs j) as [m Hm]; [apply lookup_lt_Some in Hb; lia|].
    eapply cmp_lt_trans; [by apply (IH m)|]. by eapply sorted_kvs_lookup.
Qed.

Lemma sorted_kvs_of_lookup c kvs :
  (∀ i a b, kvs !! i = Some a → kvs !! S i = Some b → cmp c a.1 b.1 = Lt) → sorted_kvs c kvs = true.
Proof.
  induction kvs as [|kv l IH]; intros Hadj; [done|]. simpl. apply andb_true_intro. split.
  - destruct l as [|kv' l]; [done|]. apply is_lt_true. exact (Hadj 0%nat kv kv' eq_refl eq_refl).
  - apply IH. intros i a b Ha Hb. exact (Hadj (S i) a b Ha Hb).
Qed.

Lemma sorted_kvs_app c k1 k2 :
  sorted_kvs c (k1 ++ k2) = true → sorted_kvs c k1 = true ∧ sorted_kvs c k2 = true.
Proof.
  intros Hs. split; apply sorted_kvs_of_lookup; intros i a b Ha Hb.
  - eapply sorted_kvs_lookup; [done|by apply lookup_app_l_Some..].
  - apply (sorted_kvs_lookup c (k1 ++ k2) (length k1 + i) a b Hs).
    + by rewrite lookup_app_r, Nat.add_sub_swap, Nat.sub_diag by lia.
    + rewrite lookup_app_r by lia. by replace (S (length k1 + i) - length k1)%nat with (S i) by lia.
Qed.

Section build.
Context `{E : IntegerEncoding}.

(** A client of the builder: add the pairs in order, then finish. *)
Definition add_all (b : BlockBuilder) (kvs : list (bytes * bytes)) : outcome BlockBuilder :=
  foldM (λ kv b, bb_add b kv.1 kv.2) kvs b.

Definition build_block (o : Options) (kvs : list (bytes * bytes)) : outcome bytes :=
  let! b := add_all (BlockBuilder_new o) kvs in
  Done (bb_finish b).

Context `{!IntegerEncodingSpec E}.

Lemma last_entry_key_last es :
  last_entry_key es = match last (e_kv <$> es) with Some kv => kv.1 | None => [] end.
Proof. unfold last_entry_key. rewrite fmap_last. by destruct (last es). Qed.

(** The assertion of [add], on the pairs. *)
Lemma add_guard o es (kv : bytes * bytes) :
  bool_decide (es = []) || is_lt (cmp (opt_cmp o) (last_entry_key es) kv.1) =
  match last (e_kv <$> es) with Some kv' => is_lt (cmp (opt_cmp o) kv'.1 kv.1) | None => true end.
Proof.
  rewrite last_entry_key_last. destruct (decide (es = [])) as [->|Hne]; [done|].
  rewrite bool_decide_eq_false_2 by done. destruct (last (e_kv <$> es)) eqn:El; [done|].
  by apply last_None, fmap_nil_inv in El.
Qed.

(** [add] accepts exactly the keys past the last one. *)
Lemma bb_add_panics b es rs k v :
  bb_rep b es rs →
  bool_decide (es = []) || is_lt (cmp (opt_cmp (bb_opt b)) (last_entry_key es) k) = false →
  bb_add b k v = Panic.
Proof.
  intros Hr Hord. unfold bb_add. destruct (bbr_restart_counter _ _ _ Hr) as (r&_&_&_&Hb).
  rewrite (proj2 (Z.leb_le _ _)) by lia.
  by rewrite (buffer_empty _ _ _ Hr), (bbr_last_key _ _ _ Hr), Hord.
Qed.

Lemma add_all_rep o kvs b :
  0 < block_restart_interval o → add_all (BlockBuilder_new o) kvs = Done b →
  bb_opt b = o ∧ ∃ es rs, bb_rep b es rs ∧ e_kv <$> es = kvs.
Proof.
  intros Ho. unfold add_all. revert b. induction kvs as [|kv kvs IH] using rev_ind; intros b Hb.
  - injection Hb as <-. split; [done|]. exists [], [0%nat]. split; [apply bb_rep_new; lia|done].
  - rewrite foldM_app in Hb. apply bind_Done in Hb as (b0&H0&Hb).
    destruct (IH b0 H0) as (Hopt&es&rs&Hr&<-). cbn in Hb. apply bind_Done in Hb as (b1&Hb&[= ->]).
    destruct (bool_decide (es = []) || is_lt (cmp (opt_cmp (bb_opt b0)) (last_entry_key es) kv.1)) eqn:Hg.
    + destruct (bb_add_spec b0 es rs kv.1 kv.2 Hr) as (b'&s&rs'&Hadd&Hopt'&Hr'); [congruence|done|].
      rewrite Hadd in Hb. injection Hb as ->. split; [congruence|]. exists (es ++ [mkEntry s kv.1 kv.2]), rs'.
      split; [done|]. rewrite fmap_app. cbn. by destruct kv.
    + by rewrite (bb_add_panics b0 es rs) in Hb.
Qed.

Lemma add_all_sorted o kvs :
  0 < block_restart_interval o → sorted_kvs (opt_cmp o) kvs = true →
  ∃ b, add_all (BlockBuilder_new o) kvs = Done b.
Proof.
  intros Ho. unfold add_all. induction kvs as [|kv kvs IH] using rev_ind; [by eexists|].
  rewrite sorted_kvs_snoc. intros [Hs Hl]%andb_prop. destruct (IH Hs) as [b Hb].
  rewrite foldM_app, Hb. cbn. destruct (add_all_rep o kvs b Ho Hb) as (Hopt&es&rs&Hr&<-).
  rewrite <- (add_guard o) in Hl.
  destruct (bb_add_spec b es rs kv.1 kv.2 Hr) as (b'&s&rs'&->&_); [congruence|by rewrite Hopt|].
  by eexists.
Qed.

Lemma sorted_of_add_all o kvs b :
  0 < block_restart_interval o → add_all (BlockBuilder_new o) kvs = Done b →
  sorted_kvs (opt_cmp o) kvs = true.
Proof.
  intros Ho. unfold add_all. revert b. induction kvs as [|kv kvs IH] using rev_ind; intros b Hb; [done|].
  rewrite foldM_app in Hb. apply bind_Done in Hb as (b0&H0&Hb). rewrite sorted_kvs_snoc, (IH b0 H0).
  destruct (add_all_rep o kvs b0 Ho H0) as (Hopt&es&rs&Hr&<-). rewrite <- (add_guard o).
  cbn in Hb. apply bind_Done in Hb as (b1&Hb&_).
  destruct (bool_decide _ || _) eqn:Hg; [done|]. rewrite (bb_add_panics b0 es rs) in Hb; [done|done|].
  by rewrite Hopt.
Qed.

(** The contents of a built block are the layout of some entries. *)
Lemma build_block_layout o kvs c :
  0 < block_restart_interval o → build_block o kvs = Done c →
  ∃ es rs, c = enc_block es rs ∧ wf_entries es ∧ wf_restarts es rs ∧ e_kv <$> es = kvs.
Proof.
  intros Ho. unfold build_block. intros (b&Hb&[= <-])%bind_Done.
  destruct (add_all_rep o kvs b Ho Hb) as (_&es&rs&Hr&?). exists es, rs.
  split; [by apply bb_finish_spec|]. by destruct Hr.
Qed.
End build.

Lemma sorted_entries c es :
  sorted_kvs c (e_kv <$> es) = true →
  ∀ i e e', es !! i = Some e → es !! S i = Some e' → cmp c (e_key e) (e_key e') = Lt.
Proof.
  intros Hs i e e' He He'. apply (sorted_kvs_lookup c (e_kv <$> es) i (e_kv e) (e_kv e') Hs);
    by rewrite list_lookup_fmap, ?He, ?He'.
Qed.

Lemma nonempty_entries es :
  nonempty_keys (e_kv <$> es) → ∀ i e, es !! i = Some e → e_key e ≠ [].
Proof.
  intros Hk i e He. apply (Forall_lookup_1 _ (e_kv <$> es) i (e_kv e) Hk).
  by rewrite list_lookup_fmap, He.
Qed.

(** Every reachable state of the iterator of a built block is a cursor. *)
Section reach.
Context `{E : IntegerEncoding, !IntegerEncodingSpec E}.
Context (o : Options) `{!CmpOrder (opt_cmp o)} (es : list entry) (rs : list nat).
Context (Hes : wf_entries es) (Hrs : wf_restarts es rs) (Hsize : len (enc_block es rs) < U32).
Context (Hkeys : ∀ i e, es !! i = Some e → e_key e ≠ []).
Context (Hsorted : ∀ i e e', es !! i = Some e → es !! S i = Some e' →
           cmp (opt_cmp o) (e_key e) (e_key e') = Lt).

Abbreviation Rep := (block_rep o es rs).

Lemma enc_block_len : 8 ≤ len (enc_block es rs).
Proof.
  rewrite len_block. pose proof (off_nonneg es (length es)). pose proof (restarts_pos _ _ Hrs).
  unfold len. lia.
Qed.

Lemma prev_rep it pos :
  Rep it pos → ∃ it' pos', bi_prev it = Done (bool_decide (is_Some pos'), it') ∧ Rep it' pos'.
Proof.
  destruct pos as [[|i]|].
  - intros (e&Hat). eexists _, None. split; [by eapply prev_first|].
    by eapply base_reset, at_base.
  - intros (e&Hat). destruct (prev_back o es rs Hes Hrs Hsize it i e Hat) as (it'&e'&?&?).
    exists it', (Some i). split; [done|]. by exists e'.
  - intros Hun. destruct (base_current _ _ _ _ (un_base _ _ _ _ Hun)) as (i&Hi&Hc).
    pose proof (prev_unpositioned o es rs Hes Hrs Hsize it i Hun ltac:(lia) Hc) as Hp.
    destruct i as [|i].
    + eexists _, None. split; [done|]. by eapply base_reset, un_base.
    + destruct Hp as (it'&e'&?&?). exists it', (Some i). split; [done|]. by exists e'.
Qed.

Lemma seek_to_last_rep it pos :
  Rep it pos → es ≠ [] → ∃ it', seek_to_last it = Done it' ∧ Rep it' (Some (pred (length es))).
Proof.
  intros Hr%block_rep_base Hne.
  destruct (seek_to_last_ok o es rs Hes Hrs Hsize Hkeys it Hr Hne) as (it'&e&?&?).
  exists it'. split; [done|]. by exists e.
Qed.

(** A block without entries has no last one: the assertion fails. *)
Lemma seek_to_last_empty it it' : es = [] → base o es rs it → seek_to_last it ≠ Done it'.
Proof.
  intros Hnil Hb. unfold seek_to_last. rewrite (number_restarts_ok o es rs Hrs Hsize it Hb). cbn [bind].
  pose proof (len_rs_bound es rs Hrs Hsize). rewrite (proj2 (Z.ltb_lt _ _)) by lia.
  intros (it1&H1&_)%bind_Done. unfold seek_to_restart_point in H1.
  apply bind_Done in H1 as (rp&Hg&H1). apply bind_Done in H1 as ([[[[s ns] v] h] it2]&Hp&H1).
  apply parse_inv in Hp as (vo&off'&->&_&Hvo).
  destruct (s =? 0); [|done]. apply bind_Done in H1 as (it3&Ha&H1).
  apply assemble_inv in Ha as (k&->). destruct (bi_valid _) eqn:Hv; [|done].
  unfold bi_valid in Hv. bool_to_prop. simpl in *. rewrite (base_restarts_off _ _ _ _ Hb), Hnil in *.
  change (off [] (length [])) with 0 in *. lia.
Qed.

Lemma reachable_rep it : bi_reachable (mkBlock (enc_block es rs) o) it → ∃ pos, Rep it pos.
Proof.
  induction 1 as [it Hit|it it' _ [pos IH] Hstep].
  - exists None. destruct (Block_iter_rep o es rs Hrs Hsize
      (mkBlock (enc_block es rs) o) eq_refl eq_refl) as (?&Hit'&?). rewrite Hit in Hit'. by simplify_eq.
  - pose proof (BlockIter_spec o es rs Hes Hrs Hsize Hkeys Hsorted) as HI. destruct Hstep as [it r it' Ha|it r it' Ha|it to it' Ha|it it' Ha|it].
    + destruct ((e_kv <$> es) !! cursor_succ pos) as [kv|] eqn:Hkv.
      * destruct (advance_more it pos kv IH Hkv) as (?&H1&?). cbn in H1. rewrite Ha in H1. simplify_eq. by eexists.
      * destruct (advance_done it pos IH Hkv) as (?&H1&?). cbn in H1. rewrite Ha in H1. simplify_eq. by eexists.
    + destruct (prev_rep it pos IH) as (?&?&H1&?). rewrite Ha in H1. simplify_eq. by eexists.
    + destruct (seek_rep it pos to IH) as (?&H1&?). cbn in H1. rewrite Ha in H1. simplify_eq. by eexists.
    + destruct (decide (es = [])) as [Hnil|Hne].
      * by apply (seek_to_last_empty it it' Hnil) in Ha; [|eapply block_rep_base].
      * destruct (seek_to_last_rep it pos IH Hne) as (?&H1&?). rewrite Ha in H1. simplify_eq. by eexists.
    + exists None. by eapply base_reset, block_rep_base.
Qed.
End reach.

(** ** The iterator of a built block as a cursor *)

Section built.
Context `{E : IntegerEncoding, !IntegerEncodingSpec E}.
Context (o : Options) `{!CmpOrder (opt_cmp o)}.

(** Contents in the block format, of pairs in order: whoever wrote them, and
    wherever the restart points are. *)
Definition block_of (kvs : list (bytes * bytes)) (c : bytes) : Prop :=
  ∃ es rs, c = enc_block es rs ∧ wf_entries es ∧ wf_restarts es rs ∧ e_kv <$> es = kvs ∧
    sorted_kvs (opt_cmp o) kvs = true.

Lemma block_of_sorted kvs c : block_of kvs c → sorted_kvs (opt_cmp o) kvs = true.
Proof. by intros (?&?&_&_&_&_&?). Qed.

(** What the theorems below share: the layout of a block and the invariants its
    iterator needs. *)
Lemma built_entries kvs c :
  nonempty_keys kvs → block_of kvs c →
  ∃ es rs, c = enc_block es rs ∧ wf_entries es ∧ wf_restarts es rs ∧ e_kv <$> es = kvs ∧
    (∀ i e, es !! i = Some e → e_key e ≠ []) ∧
    (∀ i e e', es !! i = Some e → es !! S i = Some e' → cmp (opt_cmp o) (e_key e) (e_key e') = Lt).
Proof.
  intros Hk (es&rs&->&?&?&<-&?). exists es, rs. do 4 (split; [done|]).
  split; [by apply nonempty_entries|by apply sorted_entries].
Qed.

(** An iterator over the block with contents [c], built from [kvs]. *)
Definition built_rep (kvs : list (bytes * bytes)) (c : bytes) (it : BlockIter) (pos : option nat) : Prop :=
  ∃ es rs, c = enc_block es rs ∧ wf_entries es ∧ wf_restarts es rs ∧ e_kv <$> es = kvs ∧
    (∀ i e, es !! i = Some e → e_key e ≠ []) ∧
    (∀ i e e', es !! i = Some e → es !! S i = Some e' → cmp (opt_cmp o) (e_key e) (e_key e') = Lt) ∧
    block_rep o es rs it pos.

Section contents.
Context (kvs : list (bytes * bytes)) (c : bytes) (Hsize : len c < U32).

(** Carry a law of [BlockIter_spec] over to [built_rep]. *)
Ltac from_block_rep :=
  match goal with
  | H : built_rep _ _ _ _ |- _ =>
      let es := fresh "es" in let rs := fresh "rs" in
      destruct H as (es & rs & Ec & Hes & Hrs & Ekvs & Hne & Hs & Hr);
      pose proof Hsize as Hsz; rewrite Ec in Hsz;
      pose proof (BlockIter_spec o es rs Hes Hrs Hsz Hne Hs) as HI;
      pose proof (BlockIter_back o es rs Hes Hrs Hsz) as HB;
      rewrite Ekvs in HI, HB
  end.
Ltac repack := eexists; split; [eassumption|]; eexists _, _; eauto 10.

#[export] Instance built_forward : SSIteratorForward BlockIter_SSIterator kvs (built_rep kvs c).
Proof.
  split.
  - intros it i Hb. from_block_rep. by eapply rep_range.
  - intros it pos kv Hb Hkv. from_block_rep. destruct (advance_more it pos kv Hr Hkv) as (it'&?&?). repack.
  - intros it pos Hb Hkv. from_block_rep. destruct (advance_done it pos Hr Hkv) as (it'&?&?). repack.
  - intros it i kv k v Hb Hkv. from_block_rep. by apply (current_some it i).
  - intros it k v Hb. from_block_rep. by apply (current_none (SSIteratorForward := spec_forward)).
  - intros it pos Hb. from_block_rep. by apply current_key_rep.
  - intros it pos Hb. from_block_rep. destruct (reset_rep it pos Hr) as (it'&?&?). repack.
  - intros it pos Hb. from_block_rep. by apply valid_rep.
Qed.

#[export] Instance built_spec :
  SSIteratorSpec BlockIter_SSIterator (opt_cmp o) kvs (built_rep kvs c).
Proof.
  split; [apply built_forward|]. intros it pos to Hb. from_block_rep.
  destruct (seek_rep it pos to Hr) as (it'&?&?). repack.
Qed.

#[export] Instance built_back : SSIteratorBack BlockIter_SSIterator kvs (built_rep kvs c).
Proof.
  split.
  - intros it i Hb. from_block_rep. destruct (prev_more it i Hr) as (it'&?&?). repack.
  - intros it Hb. from_block_rep. destruct (prev_done it Hr) as (it'&?&?). repack.
Qed.

(** [prev] from anywhere, also where it was reset. *)
Lemma built_prev it pos :
  built_rep kvs c it pos →
  ∃ it' pos', bi_prev it = Done (bool_decide (is_Some pos'), it') ∧ built_rep kvs c it' pos'.
Proof.
  intros Hb. from_block_rep. destruct (prev_rep o es rs Hes Hrs Hsz it pos Hr) as (it'&pos'&?&?).
  exists it', pos'. split; [done|]. eexists _, _; eauto 10.
Qed.

Lemma built_seek_to_last it pos :
  built_rep kvs c it pos → kvs ≠ [] →
  ∃ it', seek_to_last it = Done it' ∧ built_rep kvs c it' (Some (pred (length kvs))).
Proof.
  intros Hb Hnil. from_block_rep. destruct (seek_to_last_rep o es rs Hes Hrs Hsz Hne it pos Hr) as (it'&?&?).
  { intros ->. by rewrite <- Ekvs in Hnil. }
  assert (Hl : length es = length kvs) by (by rewrite <- Ekvs, length_fmap).
  rewrite Hl in *. repack.
Qed.
End contents.

Lemma built_iter kvs c :
  nonempty_keys kvs → block_of kvs c → len c < U32 →
  ∃ it, Block_iter (mkBlock c o) = Done it ∧ built_rep kvs c it None.
Proof.
  intros Hk Hc Hsize. destruct (built_entries kvs c Hk Hc) as (es&rs&->&?&?&<-&?&?).
  destruct (Block_iter_rep o es rs ltac:(done) Hsize (mkBlock (enc_block es rs) o)) as (it&?&?); [done..|].
  exists it. split; [done|]. exists es, rs. auto 10.
Qed.

Lemma built_len kvs c : block_of kvs c → 8 ≤ len c.
Proof. intros (es&rs&->&?&?&_). by apply enc_block_len. Qed.

(** What every client of a block does: take an iterator, seek, look. *)
Lemma built_lookup kvs c to :
  nonempty_keys kvs → block_of kvs c → len c < U32 →
  ∃ it it', Block_iter (mkBlock c o) = Done it ∧ bi_seek it to = Done it' ∧
    built_rep kvs c it' (find_ge (opt_cmp o) to kvs) ∧
    current_key_val it' = Done (i ← find_ge (opt_cmp o) to kvs; kvs !! i).
Proof.
  intros Hk Hc Hsize. destruct (built_iter kvs c Hk Hc Hsize) as (it&Hit&Hr).
  pose proof (built_spec kvs c Hsize) as HI.
  destruct (seek_rep it None to Hr) as (it'&Hs&Hr'). exists it, it'. split; [done|]. split; [done|].
  split; [done|]. by apply (current_key_val_spec kvs (built_rep kvs c)).
Qed.
End built.

(** A block that was built is a block, for every reader with the same order. *)
Lemma build_block_of `{E : IntegerEncoding, !IntegerEncodingSpec E} w o kvs c :
  opt_cmp o = opt_cmp w → 0 < block_restart_interval w → build_block w kvs = Done c → block_of o kvs c.
Proof.
  intros Heq Ho Hc. destruct (build_block_layout w kvs c Ho Hc) as (es&rs&->&?&?&<-).
  unfold build_block in Hc. apply bind_Done in Hc as (b&Hb&_). apply sorted_of_add_all in Hb; [|done].
  exists es, rs. by rewrite Heq.
Qed.

(** ** Properties *)

Section properties.
Context `{E : IntegerEncoding, !IntegerEncodingSpec E}.
Context (o : Options) `{!CmpOrder (opt_cmp o)}.

(** C17. The block contract. A block built from pairs with non-empty
    keys is accepted by [Block::new], and its iterator is a cursor over exactly
    those pairs: [advance], [current], [current_key], [valid], [reset], [seek]
    and [prev] all behave as the specification of sorted iterators says. *)
Theorem Block_contract kvs c :
  0 < block_restart_interval o → nonempty_keys kvs → build_block o kvs = Done c → len c < U32 →
  ∃ b it Rep, Block_new o c = Done b ∧ Block_iter b = Done it ∧ Rep it None ∧
    SSIteratorSpec BlockIter_SSIterator (opt_cmp o) kvs Rep ∧
    SSIteratorBack BlockIter_SSIterator kvs Rep.
Proof.
  intros Ho Hk Hc Hsize. destruct (built_iter o kvs c Hk (build_block_of o o kvs c eq_refl Ho Hc) Hsize) as (it&?&?).
  pose proof (built_len o kvs c (build_block_of o o kvs c eq_refl Ho Hc)). exists (mkBlock c o), it, (built_rep o kvs c).
  split; [unfold Block_new; by rewrite (proj2 (Z.ltb_lt _ _)) by lia|].
  split; [done|]. split; [done|]. split; [by apply built_spec|by apply built_back].
Qed.

(** C29. [BlockBuilder::add] and [finish] succeed on a sequence of pairs
    exactly when its keys are strictly increasing; any other sequence panics
    or stops at [add]. *)
Theorem BlockBuilder_accepts_sorted kvs :
  0 < block_restart_interval o →
  returns (build_block o kvs) ↔ sorted_kvs (opt_cmp o) kvs = true.
Proof.
  intros Ho. split.
  - intros [c Hc]. unfold build_block in Hc. apply bind_Done in Hc as (b&Hb&_).
    by eapply sorted_of_add_all.
  - intros Hs. destruct (add_all_sorted o kvs Ho Hs) as [b Hb]. unfold build_block.
    rewrite Hb. by eexists.
Qed.

(** Round trip. Iterating over a built block with [next] yields the
    pairs that were added, all of them and in order, then [None]. *)
Theorem Block_roundtrip kvs c :
  0 < block_restart_interval o → nonempty_keys kvs → build_block o kvs = Done c → len c < U32 →
  ∃ b it it', Block_new o c = Done b ∧ Block_iter b = Done it ∧
    drain (S (length kvs)) it = Done (kvs, it') ∧ bi_valid it' = false.
Proof.
  intros Ho Hk Hc Hsize. destruct (built_entries o kvs c Hk (build_block_of o o kvs c eq_refl Ho Hc)) as (es&rs&->&?&?&<-&?&?).
  destruct (Block_iter_rep o es rs ltac:(done) Hsize (mkBlock (enc_block es rs) o)) as (it&?&?); [done..|].
  pose proof (BlockIter_spec o es rs ltac:(done) ltac:(done) Hsize ltac:(done) ltac:(done)) as HI.
  destruct (drain_spec (e_kv <$> es) (block_rep o es rs) (S (length (e_kv <$> es))) it None)
    as (it'&Hd&Hr); [done|simpl; lia|].
  exists (mkBlock (enc_block es rs) o), it, it'. split.
  - unfold Block_new. pose proof (enc_block_len es rs ltac:(done)).
    by rewrite (proj2 (Z.ltb_lt _ _)) by lia.
  - split; [done|]. split; [done|]. by apply (unpositioned_invalid o es rs).
Qed.

(** C27. After [seek(to)] on a built block, from any state its iterator
    can be in, the current pair is the first one whose key is at least [to];
    there is none exactly when all keys are smaller. *)
Theorem Block_seek_finds_ge kvs c it to :
  0 < block_restart_interval o → nonempty_keys kvs → build_block o kvs = Done c → len c < U32 →
  bi_reachable (mkBlock c o) it →
  ∃ it', bi_seek it to = Done it' ∧
    current_key_val it' = Done (i ← find_ge (opt_cmp o) to kvs; kvs !! i).
Proof.
  intros Ho Hk Hc Hsize Hr. destruct (built_entries o kvs c Hk (build_block_of o o kvs c eq_refl Ho Hc)) as (es&rs&->&Hes&Hrs&<-&Hne&Hs).
  destruct (reachable_rep o es rs Hes Hrs Hsize Hne Hs it Hr) as [pos Hpos].
  pose proof (BlockIter_spec o es rs Hes Hrs Hsize Hne Hs) as HI.
  destruct (seek_rep it pos to Hpos) as (it'&?&Hr'). exists it'. split; [done|].
  by apply (current_key_val_spec (e_kv <$> es) (block_rep o es rs)).
Qed.

(** C21. No sequence of calls on the iterator of a built block panics:
    in every state that [advance], [prev], [seek], [seek_to_last] and [reset]
    can lead to, each of them returns again, and so does [current].
    ([seek_to_last] needs a non-empty block.) *)
Theorem BlockIter_never_panics kvs c it k v :
  0 < block_restart_interval o → nonempty_keys kvs → build_block o kvs = Done c → len c < U32 →
  bi_reachable (mkBlock c o) it →
  returns (bi_advance it) ∧ returns (bi_prev it) ∧ (∀ to, returns (bi_seek it to)) ∧
  (kvs ≠ [] → returns (seek_to_last it)) ∧ returns (bi_current it k v).
Proof.
  intros Ho Hk Hc Hsize Hr. destruct (built_entries o kvs c Hk (build_block_of o o kvs c eq_refl Ho Hc)) as (es&rs&->&Hes&Hrs&<-&Hne&Hs).
  destruct (reachable_rep o es rs Hes Hrs Hsize Hne Hs it Hr) as [pos Hpos].
  pose proof (BlockIter_spec o es rs Hes Hrs Hsize Hne Hs) as HI. split; [|split; [|split; [|split]]].
  - destruct (next_spec _ _ it pos Hpos) as (it'&Hn&_).
    unfold next in Hn. apply bind_Done in Hn as ([r it1]&Ha&_). by eexists.
  - destruct (prev_rep o es rs Hes Hrs Hsize it pos Hpos) as (?&?&?&_). by eexists.
  - intros to. destruct (seek_rep it pos to Hpos) as (it'&?&_). by eexists.
  - intros Hnil. destruct (seek_to_last_rep o es rs Hes Hrs Hsize Hne it pos Hpos) as (?&?&_).
    + by intros ->.
    + by eexists.
  - destruct pos as [i|].
    + destruct Hpos as (e&Hat). eexists. by eapply at_entry_current.
    + exists (false, k, v). unfold bi_current. by rewrite (unpositioned_invalid o es rs).
Qed.

(** [seek_to_last] on a built block goes to its last pair, from any
    state. *)
Theorem BlockIter_seek_to_last kvs c it kv :
  0 < block_restart_interval o → nonempty_keys kvs → build_block o kvs = Done c → len c < U32 →
  bi_reachable (mkBlock c o) it → last kvs = Some kv →
  ∃ it', seek_to_last it = Done it' ∧ current_key_val it' = Done (Some kv) ∧
    ∃ it'', bi_advance it' = Done (false, it'').
Proof.
  intros Ho Hk Hc Hsize Hr Hlast.
  destruct (built_entries o kvs c Hk (build_block_of o o kvs c eq_refl Ho Hc)) as (es&rs&->&Hes&Hrs&<-&Hne&Hs).
  destruct (reachable_rep o es rs Hes Hrs Hsize Hne Hs it Hr) as [pos Hpos].
  pose proof (BlockIter_spec o es rs Hes Hrs Hsize Hne Hs) as HI.
  destruct (seek_to_last_rep o es rs Hes Hrs Hsize Hne it pos Hpos) as (it'&?&Hr').
  { by intros ->. }
  exists it'. split; [done|]. rewrite last_lookup, length_fmap in Hlast. split.
  - rewrite (current_key_val_spec (e_kv <$> es) (block_rep o es rs) it' _ Hr').
    cbn [mbind option_bind]. by rewrite Hlast.
  - destruct (advance_done it' _ Hr') as (it''&?&_); [|by exists it''].
    apply lookup_ge_None. simpl. rewrite length_fmap. lia.
Qed.

(** [reset] puts the iterator before the first pair, but leaves the
    offset [prev] goes back from: on a built block, [prev] right after a reset
    from the second or a later pair moves to the pair before the one that was
    current, where the documentation has it stay before the first. *)
Theorem BlockIter_prev_after_reset kvs c it i :
  0 < block_restart_interval o → nonempty_keys kvs → build_block o kvs = Done c → len c < U32 →
  bi_reachable (mkBlock c o) it →
  bi_current_key it = fst <$> kvs !! S i → is_Some (kvs !! S i) →
  ∃ it', bi_prev (bi_reset it) = Done (true, it') ∧ current_key_val it' = Done (kvs !! i).
Proof.
  intros Ho Hk Hc Hsize Hr Hcur [kv Hkv].
  destruct (built_entries o kvs c Hk (build_block_of o o kvs c eq_refl Ho Hc)) as (es&rs&->&Hes&Hrs&<-&Hne&Hs).
  destruct (reachable_rep o es rs Hes Hrs Hsize Hne Hs it Hr) as [pos Hpos].
  pose proof (BlockIter_spec o es rs Hes Hrs Hsize Hne Hs) as HI.
  pose proof (current_key_rep it pos Hpos) as Hck. cbn in Hck. rewrite Hcur in Hck.
  rewrite list_lookup_fmap in Hkv, Hck. destruct (es !! S i) as [e|] eqn:He; [|done].
  destruct pos as [j|]; [|done]. cbn in Hck. rewrite list_lookup_fmap in Hck.
  destruct Hpos as (ej&Hat). pose proof (at_lookup _ _ _ _ _ _ Hat) as Hj. rewrite Hj in Hck.
  injection Hck as Hkey.
  assert (j = S i) as ->.
  { destruct (Nat.lt_trichotomy j (S i)) as [Hlt|[|Hlt]]; [|done|].
    - pose proof (keys_increasing o es Hs j (S i) ej e Hlt Hj He) as Hx.
      rewrite Hkey, cmp_refl in Hx. done.
    - pose proof (keys_increasing o es Hs (S i) j e ej Hlt He Hj) as Hx.
      rewrite Hkey, cmp_refl in Hx. done. }
  pose proof (at_base _ _ _ _ _ _ Hat) as Hb. apply lookup_lt_Some in He as Hlt.
  destruct (prev_unpositioned o es rs Hes Hrs Hsize (bi_reset it) (S i)) as (it'&e'&?&Hat');
    [by apply base_reset|lia|apply Hat|].
  exists it'. split; [done|].
  rewrite (current_key_val_spec (e_kv <$> es) (block_rep o es rs) it' (Some i)); [done|].
  by exists e'.
Qed.
End properties.

(** [size_estimate] is exact: it is the length of the block that
    [finish] would return, whatever was added. *)
Theorem BlockBuilder_size_estimate_exact `{E : IntegerEncoding, !IntegerEncodingSpec E} b :
  len (bb_finish b) = bb_size_estimate b.
Proof. apply len_bb_finish. Qed.
