(* ===== verification/Cache.v ===== *)
(** * The LRU cache (src/cache.rs)

    The list is a doubly linked list of boxes with raw back pointers. The model
    keeps the memory: a heap from addresses to nodes, in which the head node of
    the list is at a fixed address (the list is not moved once it has nodes).
    [next] owns the node it points to, [prev] does not; reading through a
    pointer to freed memory is [Undef]. *)

From S2P Require Export Prelude.

(** ** Memory *)

Abbreviation ptr := nat.

Record LRUNode (T : Type) := mkLRUNode {
  node_next : option ptr;
  node_prev : option ptr;
  node_data : option T;
}.
Arguments mkLRUNode {T} node_next node_prev node_data.
Arguments node_next {T} l.
Arguments node_prev {T} l.
Arguments node_data {T} l.

Record LRUList (T : Type) := mkLRUList {
  heap : gmap ptr (LRUNode T);
  (** the next address the allocator returns *)
  next_ptr : ptr;
  list_count : Z;
}.
Arguments mkLRUList {T} heap next_ptr list_count.
Arguments heap {T} l.
Arguments next_ptr {T} l.
Arguments list_count {T} l.

(** The address of [self.head]. *)
Definition HEAD : ptr := 0%nat.

Section LRUList.
Context {T : Type}.
Implicit Types (self : LRUList T) (p : ptr).

Definition deref self p : outcome (LRUNode T) :=
  match heap self !! p with
  | Some n => Done n
  | None => Undef
  end.

Definition store self p (n : LRUNode T) : LRUList T :=
  mkLRUList (<[p := n]> (heap self)) (next_ptr self) (list_count self).

Definition set_next self p (x : option ptr) : outcome (LRUList T) :=
  let! n := deref self p in Done (store self p (mkLRUNode x (node_prev n) (node_data n))).
Definition set_prev self p (x : option ptr) : outcome (LRUList T) :=
  let! n := deref self p in Done (store self p (mkLRUNode (node_next n) x (node_data n))).
Definition set_data self p (x : option T) : outcome (LRUList T) :=
  let! n := deref self p in Done (store self p (mkLRUNode (node_next n) (node_prev n) x)).
Definition set_count self (x : Z) : LRUList T := mkLRUList (heap self) (next_ptr self) x.

(** [Box::new] *)
Definition alloc self (n : LRUNode T) : ptr * LRUList T :=
  (next_ptr self, mkLRUList (<[next_ptr self := n]> (heap self)) (S (next_ptr self)) (list_count self)).

(** Dropping a box frees its node and drops the box that node owns. *)
Fixpoint drop_box (fuel : nat) self (b : option ptr) : outcome (LRUList T) :=
  match fuel, b with
  | _, None => Done self
  | O, Some _ => NoFuel
  | S f, Some p =>
      let! n := deref self p in
      drop_box f (mkLRUList (delete p (heap self)) (next_ptr self) (list_count self)) (node_next n)
  end.

(** [Option::unwrap] *)
Definition unwrap {A} (x : option A) : outcome A :=
  match x with
  | Some a => Done a
  | None => Panic
  end.

(** [mem::swap] of the [next] fields of two nodes, and of their [prev] fields. When
    both are the same node it leaves the field as it was. *)
Definition swap_next self p q : outcome (LRUList T) :=
  let! np := deref self p in
  let! nq := deref self q in
  let! self := set_next self p (node_next nq) in
  set_next self q (node_next np).
Definition swap_prev self p q : outcome (LRUList T) :=
  let! np := deref self p in
  let! nq := deref self q in
  let! self := set_prev self p (node_prev nq) in
  set_prev self q (node_prev np).

(** ** Operations *)

Definition LRUList_new : LRUList T :=
  mkLRUList {[ HEAD := mkLRUNode None None None ]} (S HEAD) 0.

Definition list_insert self (elem : T) : outcome (ptr * LRUList T) :=
  let self := set_count self (list_count self + 1) in
  let! head := deref self HEAD in
  match node_next head with
  | Some first =>
      let '(newp, self) := alloc self (mkLRUNode None (Some HEAD) (Some elem)) in
      let! self := set_prev self first (Some newp) in
      let! head := deref self HEAD in
      let! self := set_next self HEAD None in
      let! self := set_next self newp (node_next head) in
      let! self := set_next self HEAD (Some newp) in
      Done (newp, self)
  | None =>
      let '(newp, self) := alloc self (mkLRUNode None (Some HEAD) (Some elem)) in
      let! self := set_prev self HEAD (Some newp) in
      let! self := set_next self HEAD (Some newp) in
      Done (newp, self)
  end.

Definition remove_last self : outcome (option T * LRUList T) :=
  let! head := deref self HEAD in
  match node_prev head with
  | Some hp =>
      let! last := deref self hp in
      let! before := unwrap (node_prev last) in
      let! nb := deref self before in
      let lasto := node_next nb in
      let! self := set_next self before None in
      match lasto with
      | Some last =>
          let! n := deref self last in
          let! self := set_prev self HEAD (node_prev n) in
          let! count := usub (list_count self) 1 in
          let self := set_count self count in
          let! n := deref self last in
          let! self := set_data self last None in
          (* [lasto] goes out of scope *)
          let! self := drop_box (S (size (heap self))) self lasto in
          Done (node_data n, self)
      | None => Done (None, self)
      end
  | None => Done (None, self)
  end.

Definition list_remove self (node_handle : ptr) : outcome (T * LRUList T) :=
  let! n := deref self node_handle in
  let! self :=
    match node_next n with
    | Some nextp => swap_prev self nextp node_handle
    | None => Done self
    end in
  let! n := deref self node_handle in
  let! self :=
    match node_prev n with
    | Some prevp => swap_next self prevp node_handle
    | None => Done self
    end in
  let! count := usub (list_count self) 1 in
  let self := set_count self count in
  let! n := deref self node_handle in
  let! self := set_data self node_handle None in
  let! data := unwrap (node_data n) in
  Done (data, self).

Definition reinsert_front self (node_handle : ptr) : outcome (LRUList T) :=
  let! n := deref self node_handle in
  let! prevp := unwrap (node_prev n) in
  let! self :=
    match node_next n with
    | Some next => set_prev self next (Some prevp)
    | None => set_prev self HEAD (Some prevp)
    end in
  let! self := swap_next self prevp node_handle in
  let! self := swap_next self node_handle HEAD in
  let! n := deref self node_handle in
  let! self :=
    match node_next n with
    | Some newnext =>
        let! nn := deref self newnext in
        let! self := set_prev self node_handle (node_prev nn) in
        set_prev self newnext (Some node_handle)
    | None => set_prev self HEAD (Some node_handle)
    end in
  let! head := deref self HEAD in
  assert! bool_decide (is_Some (node_next head)) in
  assert! bool_decide (is_Some (node_prev head)) in
  Done self.

Definition LRUList_count self : Z := list_count self.

Definition testing_head_ref self : outcome (option T) :=
  let! head := deref self HEAD in
  match node_next head with
  | Some first => let! n := deref self first in Done (node_data n)
  | None => Done None
  end.
End LRUList.

(** ** Cache *)

Abbreviation CacheKey := bytes.

Record Cache (T : Type) := mkCache {
  cache_list : LRUList CacheKey;
  cache_map : gmap CacheKey (T * ptr);
  cap : Z;
  cache_id : Z;
}.
Arguments mkCache {T} cache_list cache_map cap cache_id.
Arguments cache_list {T} c.
Arguments cache_map {T} c.
Arguments cap {T} c.
Arguments cache_id {T} c.

Section Cache.
Context {T : Type}.
Implicit Types (self : Cache T) (key : CacheKey).

Definition Cache_new (capacity : Z) : outcome (Cache T) :=
  assert! 0 <? capacity in Done (mkCache LRUList_new ∅ capacity 0).

Definition new_cache_id self : outcome (Z * Cache T) :=
  let! id := uadd (cache_id self) 1 in
  Done (id, mkCache (cache_list self) (cache_map self) (cap self) id).

Definition cache_count self : Z := LRUList_count (cache_list self).

Definition Cache_cap self : Z := cap self.

Definition cache_insert self key (elem : T) : outcome (Cache T) :=
  let! self :=
    if cap self <=? LRUList_count (cache_list self) then
      let! (removed, l) := remove_last (cache_list self) in
      match removed with
      | Some removed_key =>
          assert! bool_decide (is_Some (cache_map self !! removed_key)) in
          Done (mkCache l (delete removed_key (cache_map self)) (cap self) (cache_id self))
      | None => Panic (* could not remove_last(); bug! *)
      end
    else Done self in
  let! (lru_handle, l) := list_insert (cache_list self) key in
  Done (mkCache l (<[key := (elem, lru_handle)]> (cache_map self)) (cap self) (cache_id self)).

Definition cache_get self key : outcome (option T * Cache T) :=
  match cache_map self !! key with
  | None => Done (None, self)
  | Some (elem, lru_handle) =>
      let! l := reinsert_front (cache_list self) lru_handle in
      Done (Some elem, mkCache l (cache_map self) (cap self) (cache_id self))
  end.

Definition cache_remove self key : outcome (option T * Cache T) :=
  match cache_map self !! key with
  | None => Done (None, self)
  | Some (elem, lru_handle) =>
      let! (_, l) := list_remove (cache_list self) lru_handle in
      Done (Some elem, mkCache l (delete key (cache_map self)) (cap self) (cache_id self))
  end.
End Cache.
