(* ===== verification/CacheProofs.v ===== *)
(** * The LRU cache is correct while nothing is removed from its middle

    The invariant of the linked list, the refinement of its operations to a list
    in recency order, and the refinement of [Cache] to a bounded
    most-recently-used list of pairs. *)

From S2P Require Export Cache.

Section list.
Context {T : Type}.
Implicit Types (h : gmap ptr (LRUNode T)) (A B : list (ptr * option T)).

Definition first_ptr A (nx : option ptr) : option ptr :=
  match A with
  | [] => nx
  | a :: _ => Some a.1
  end.

Definition last_ptr (pr : option ptr) A : option ptr :=
  match last A with
  | Some a => Some a.1
  | None => pr
  end.

(** The nodes [A] are linked in [h], from a predecessor [pr] to a successor
    [nx]. *)
Fixpoint seg h (pr : option ptr) A (nx : option ptr) : Prop :=
  match A with
  | [] => True
  | (p, d) :: A => h !! p = Some (mkLRUNode (first_ptr A nx) pr d) ∧ seg h (Some p) A nx
  end.

Lemma last_ptr_cons pr p d A : last_ptr pr ((p, d) :: A) = last_ptr (Some p) A.
Proof. unfold last_ptr. rewrite last_cons. by destruct (last A). Qed.

Lemma last_ptr_snoc pr A q : last_ptr pr (A ++ [q]) = Some q.1.
Proof. unfold last_ptr. by rewrite last_snoc. Qed.

Lemma first_ptr_app A B nx : first_ptr (A ++ B) nx = first_ptr A (first_ptr B nx).
Proof. by destruct A. Qed.

Lemma seg_app h pr A B nx :
  seg h pr (A ++ B) nx ↔ seg h pr A (first_ptr B nx) ∧ seg h (last_ptr pr A) B nx.
Proof.
  revert pr. induction A as [|[p d] A IH]; intros pr; simpl; [tauto|].
  rewrite IH, last_ptr_cons, first_ptr_app. tauto.
Qed.

Lemma seg_ext h h' pr A nx :
  (∀ p, p ∈ A.*1 → h !! p = h' !! p) → seg h pr A nx → seg h' pr A nx.
Proof.
  revert pr. induction A as [|[p d] A IH]; intros pr Hext; simpl; [done|]. intros [Hp HA].
  split; [by rewrite <- Hext by apply list_elem_of_here|]. apply IH; [|done].
  intros q Hq. apply Hext. by apply list_elem_of_further.
Qed.

(** ** Writes *)

Definition upd_next h p (x : option ptr) : gmap ptr (LRUNode T) :=
  alter (λ n, mkLRUNode x (node_prev n) (node_data n)) p h.
Definition upd_prev h p (x : option ptr) : gmap ptr (LRUNode T) :=
  alter (λ n, mkLRUNode (node_next n) x (node_data n)) p h.

Lemma seg_alter h pr A nx p f : p ∉ A.*1 → seg h pr A nx → seg (alter f p h) pr A nx.
Proof. intros Hp. apply seg_ext. intros q Hq. rewrite lookup_alter_ne; [done|by intros ->]. Qed.

Lemma seg_upd_next h pr A q d nx nx' :
  q ∉ A.*1 → seg h pr (A ++ [(q, d)]) nx → seg (upd_next h q nx') pr (A ++ [(q, d)]) nx'.
Proof.
  rewrite !seg_app. intros Hq (HA&Hn&_). split; [by apply seg_alter|]. split; [|done].
  unfold upd_next. rewrite lookup_alter_eq, Hn. done.
Qed.

Lemma seg_upd_prev h pr pr' y d A nx :
  y ∉ A.*1 → seg h pr ((y, d) :: A) nx → seg (upd_prev h y pr') pr' ((y, d) :: A) nx.
Proof.
  intros Hy [Hn HA]. split; [|by apply seg_alter]. unfold upd_prev. rewrite lookup_alter_eq, Hn. done.
Qed.

Lemma seg_mid h pr A p d B nx :
  seg h pr (A ++ (p, d) :: B) nx →
  h !! p = Some (mkLRUNode (first_ptr B nx) (last_ptr pr A) d).
Proof. rewrite seg_app. simpl. tauto. Qed.

Lemma seg_alloc h pr A nx p : seg h pr A nx → p ∈ A.*1 → is_Some (h !! p).
Proof.
  revert pr. induction A as [|[q d] A IH]; intros pr; simpl; [by intros _ ?%elem_of_nil|].
  intros [Hq HA] [->|?]%elem_of_cons; [by eexists|by eapply IH].
Qed.

Lemma set_next_ok (l : LRUList T) p x :
  is_Some (heap l !! p) →
  set_next l p x = Done (mkLRUList (upd_next (heap l) p x) (next_ptr l) (list_count l)).
Proof.
  intros [n Hn]. unfold set_next, deref, store, upd_next. rewrite Hn. cbn [bind].
  by rewrite (alter_alt_Some _ _ _ n).
Qed.

Lemma set_prev_ok (l : LRUList T) p x :
  is_Some (heap l !! p) →
  set_prev l p x = Done (mkLRUList (upd_prev (heap l) p x) (next_ptr l) (list_count l)).
Proof.
  intros [n Hn]. unfold set_prev, deref, store, upd_prev. rewrite Hn. cbn [bind].
  by rewrite (alter_alt_Some _ _ _ n).
Qed.

Lemma deref_ok (l : LRUList T) p n : heap l !! p = Some n → deref l p = Done n.
Proof. intros Hn. unfold deref. by rewrite Hn. Qed.

(** Allocated addresses are below the allocator's next one. *)
Definition fresh h (n : ptr) : Prop := ∀ p, is_Some (h !! p) → (p < n)%nat.

Lemma fresh_insert h n p x : fresh h n → (p < n)%nat → fresh (<[p := x]> h) n.
Proof. intros Hf Hp q [<-|[_ ?]]%lookup_insert_is_Some; [done|by apply Hf]. Qed.

Lemma fresh_alter h n p f : fresh h n → fresh (alter f p h) n.
Proof. intros Hf q ?%lookup_alter_is_Some. by apply Hf. Qed.

Lemma fresh_delete h n p : fresh h n → fresh (delete p h) n.
Proof. intros Hf q [x [_ ?]%lookup_delete_Some]. apply Hf. by exists x. Qed.

Lemma fresh_S h n : fresh h n → fresh h (S n).
Proof. intros Hf q ?%Hf. lia. Qed.

(** ** The invariant

    [xs] are the addresses and elements, most recently used first. *)

Definition els (xs : list (ptr * T)) : list (ptr * option T) := (λ x, (x.1, Some x.2)) <$> xs.
Definition head_node : ptr * option T := (HEAD, None).

Lemma els_cons p d xs : els ((p, d) :: xs) = (p, Some d) :: els xs.
Proof. done. Qed.

Lemma els_app xs ys : els (xs ++ ys) = els xs ++ els ys.
Proof. apply fmap_app. Qed.

Lemma els_ptrs xs : (els xs).*1 = xs.*1.
Proof. unfold els. by rewrite <- list_fmap_compose. Qed.

(** The nodes, the head node first. [head.prev] is the last node once there
    is one. *)
Record linked (h : gmap ptr (LRUNode T)) (A : list (ptr * option T)) (hp : option ptr) : Prop := {
  linked_seg : seg h hp (head_node :: A) None;
  linked_last : A ≠ [] → hp = last_ptr None A;
  linked_nodup : NoDup (head_node :: A).*1;
}.

Record list_rep (l : LRUList T) (xs : list (ptr * T)) : Prop := {
  rep_linked : ∃ hp, linked (heap l) (els xs) hp;
  rep_fresh : fresh (heap l) (next_ptr l);
  rep_count : list_count l = len xs;
}.

Lemma list_rep_new : list_rep LRUList_new [].
Proof.
  split; [|intros p [x Hx]|done].
  - exists None. split; [|done|apply NoDup_singleton]. split; [|done]. cbn [heap LRUList_new].
    by rewrite lookup_singleton_eq.
  - unfold LRUList_new in Hx. cbn [heap] in Hx.
    apply lookup_singleton_Some in Hx as [<- _]. unfold HEAD. simpl. lia.
Qed.

(** A node put in front. *)
Lemma linked_push h h' A hp hp' p d :
  linked h A hp → p ∉ (head_node :: A).*1 →
  h' !! HEAD = Some (mkLRUNode (Some p) hp' None) →
  h' !! p = Some (mkLRUNode (first_ptr A None) (Some HEAD) d) →
  (∀ z dz A', A = (z, dz) :: A' → h' !! z = Some (mkLRUNode (first_ptr A' None) (Some p) dz)) →
  (∀ q, q ∈ (tail A).*1 → h !! q = h' !! q) →
  hp' = match A with [] => Some p | _ => hp end →
  linked h' ((p, d) :: A) hp'.
Proof.
  intros [[_ Hseg] Hlast Hnd] Hp Hh Hn Hz Hext Hhp. split.
  - split; [done|]. split; [done|]. destruct A as [|[z dz] A]; [done|].
    split; [by apply Hz|]. eapply seg_ext; [exact Hext|apply Hseg].
  - intros _. rewrite Hhp, last_ptr_cons. destruct A as [|[z dz] A]; [done|].
    rewrite Hlast by done. by rewrite !last_ptr_cons.
  - simpl in *. apply NoDup_cons in Hnd as [Hh0 Hnd]. apply not_elem_of_cons in Hp as [Hp0 Hp].
    apply NoDup_cons. split; [by apply not_elem_of_cons|]. by apply NoDup_cons.
Qed.

(** ** Operations *)

Lemma linked_alloc h A hp p : linked h A hp → p ∈ (head_node :: A).*1 → is_Some (h !! p).
Proof. intros [? _ _]. by eapply seg_alloc. Qed.

Lemma linked_head h A hp : linked h A hp → h !! HEAD = Some (mkLRUNode (first_ptr A None) hp None).
Proof. by intros [[? _] _ _]. Qed.

Lemma linked_second h z dz A hp :
  linked h ((z, dz) :: A) hp →
  h !! z = Some (mkLRUNode (first_ptr A None) (Some HEAD) dz) ∧ z ≠ HEAD ∧ (z ∉ A.*1) ∧ (HEAD ∉ A.*1).
Proof.
  intros [(_&?&_) _ Hnd]. simpl in Hnd. apply NoDup_cons in Hnd as [Hh Hnd].
  apply NoDup_cons in Hnd as [? _]. by apply not_elem_of_cons in Hh as [??].
Qed.

Lemma list_insert_ok l xs e :
  list_rep l xs →
  ∃ l', list_insert l e = Done (next_ptr l, l') ∧ list_rep l' ((next_ptr l, e) :: xs).
Proof.
  intros [(hp&Hl) Hf Hc]. unfold list_insert. set (p := next_ptr l).
  assert (Hnew : p ∉ (head_node :: els xs).*1).
  { intros Hin. eapply linked_alloc in Hin as Hin; [apply Hf in Hin; unfold p in Hin; lia|done]. }
  pose proof (linked_head _ _ _ Hl) as Hh. assert (Hhp : (HEAD < p)%nat) by (apply Hf; by eexists).
  assert (p ≠ HEAD) by lia. rewrite (deref_ok (set_count l _) _ _ Hh). cbn [bind node_next].
  destruct xs as [|[z dz] xs]; cbn [first_ptr els fmap list_fmap fst].
  - unfold set_prev, set_next, deref, store, alloc, set_count. cbn. fold p. simplify_map_eq.
    eexists. split; [done|]. split; [|cbn; repeat (apply fresh_insert; [|lia]); by apply fresh_S|cbn].
    + exists (Some p). eapply linked_push; [done|done|..]; cbn; try by simplify_map_eq.
      by intros q ?%elem_of_nil.
    + rewrite len_cons, Hc. lia.
  - rewrite els_cons in *. destruct (linked_second _ _ _ _ _ Hl) as (Hz&?&Hzn&Hhn).
    assert (Hpz : (z < p)%nat) by (apply Hf; by eexists).
    assert (p ≠ z) by lia.
    unfold set_prev, set_next, deref, store, alloc, set_count. cbn. fold p. simplify_map_eq.
    eexists. split; [done|]. split; [|cbn; repeat (apply fresh_insert; [|lia]); by apply fresh_S|cbn].
    + exists hp. rewrite els_cons. eapply linked_push; [done|done|..]; cbn; try by simplify_map_eq.
      * intros ? ? ? [= <- <- <-]. by simplify_map_eq.
      * intros q Hq. apply not_elem_of_cons in Hnew as [_ [_ Hnew]%not_elem_of_cons].
        by rewrite !lookup_insert_ne by (by intros <-).
    + rewrite !len_cons in *. lia.
Qed.

Lemma swap_next_ok (l : LRUList T) p q np nq :
  heap l !! p = Some np → heap l !! q = Some nq →
  swap_next l p q = Done (mkLRUList (upd_next (upd_next (heap l) p (node_next nq)) q (node_next np))
                            (next_ptr l) (list_count l)).
Proof.
  intros Hp Hq. unfold swap_next. rewrite (deref_ok _ _ _ Hp), (deref_ok _ _ _ Hq). cbn [bind].
  rewrite set_next_ok by (by eexists). cbn [bind]. rewrite set_next_ok; [done|].
  cbn [heap]. apply lookup_alter_is_Some. by eexists.
Qed.

(** The first half of [reinsert_front]: [p] is taken out from between the node
    [q] and [B], and owns itself. *)
Definition relink_prev (l : LRUList T) q B : outcome (LRUList T) :=
  match first_ptr B None with
  | Some next => set_prev l next (Some q)
  | None => set_prev l HEAD (Some q)
  end.

Lemma relink_prev_ok l A' A q dq p d B hp :
  head_node :: A = A' ++ [(q, dq)] → linked (heap l) (A ++ (p, d) :: B) hp →
  ∃ h hp', relink_prev l q B = Done (mkLRUList h (next_ptr l) (list_count l)) ∧
    seg h hp' (A' ++ [(q, dq)]) (Some p) ∧ seg h (Some q) B None ∧
    h !! p = Some (mkLRUNode (first_ptr B None) (Some q) d) ∧
    (B ≠ [] → hp' = last_ptr None B) ∧ (B = [] → hp' = Some q) ∧
    (∀ n, fresh (heap l) n → fresh h n).
Proof.
  intros HA [Hseg Hlast Hnd]. rewrite app_comm_cons, HA in Hseg, Hnd.
  rewrite fmap_app, NoDup_app in Hnd. destruct Hnd as (HndA&Hdisj&HndB).
  simpl in HndB. apply NoDup_cons in HndB as [HpB HndB].
  assert (HpA : p ∉ (A' ++ [(q, dq)]).*1) by (intros Hin; apply Hdisj in Hin; by apply Hin, elem_of_cons; left).
  assert (Hp0 : HEAD ≠ p).
  { intros <-. apply HpA. rewrite <- HA. by apply elem_of_cons; left. }
  unfold relink_prev. destruct B as [|[y dy] B]; cbn [first_ptr fst].
  - exists (upd_prev (heap l) HEAD (Some q)), (Some q).
    rewrite set_prev_ok; [|rewrite <- HA in Hseg; by destruct Hseg as [-> _]; eexists].
    split; [done|]. apply seg_app in Hseg as [HsA [HsB _]]. rewrite last_ptr_snoc in HsB.
    split; [|split; [done|split; [|split; [done|split; [done|intros n; apply fresh_alter]]]]].
    + rewrite <- HA in *. unfold head_node in *. eapply seg_upd_prev; [|done].
      simpl in HndA. by apply NoDup_cons in HndA as [? _].
    + unfold upd_prev. by rewrite lookup_alter_ne.
  - exists (upd_prev (heap l) y (Some q)), hp. apply seg_app in Hseg as [HsA [HsP HsB]].
    rewrite last_ptr_snoc in HsP. simpl in HndB. apply NoDup_cons in HndB as [HyB _].
    rewrite set_prev_ok by (destruct HsB as [-> _]; by eexists).
    split; [done|]. split; [|split; [|split; [|split; [|split; [done|intros n; apply fresh_alter]]]]].
    + apply seg_alter; [|done]. intros Hy. apply Hdisj in Hy. apply Hy. simpl.
      apply elem_of_cons. right. by apply elem_of_cons; left.
    + by eapply seg_upd_prev.
    + unfold upd_prev. rewrite lookup_alter_ne; [done|]. intros ->. apply HpB. by apply elem_of_cons; left.
    + intros _. rewrite Hlast by (by destruct A). unfold last_ptr. rewrite last_app, !last_cons.
      by destruct (last B).
Qed.

Lemma unlink_ok l A' A q dq p d B hp :
  head_node :: A = A' ++ [(q, dq)] → linked (heap l) (A ++ (p, d) :: B) hp →
  ∃ h hp', (let! l := relink_prev l q B in swap_next l q p)
      = Done (mkLRUList h (next_ptr l) (list_count l)) ∧
    linked h (A ++ B) hp' ∧ h !! p = Some (mkLRUNode (Some p) (Some q) d) ∧
    (A ++ B = [] → hp' = Some HEAD) ∧
    (p ∉ (head_node :: A ++ B).*1) ∧ (∀ n, fresh (heap l) n → fresh h n).
Proof.
  intros HA Hl. destruct (relink_prev_ok l A' A q dq p d B hp HA Hl)
    as (h&hp'&->&HsA&HsB&Hp&Hhp&Hhp0&Hf). cbn [bind].
  apply linked_nodup in Hl. rewrite app_comm_cons, HA in Hl.
  rewrite fmap_app, NoDup_app in Hl. destruct Hl as (HndA&Hdisj&HndB).
  simpl in HndB. apply NoDup_cons in HndB as [HpB HndB].
  assert (HpA : p ∉ (A' ++ [(q, dq)]).*1) by (intros Hin; apply Hdisj in Hin; by apply Hin, elem_of_cons; left).
  assert (Hq : q ∈ (A' ++ [(q, dq)]).*1).
  { rewrite fmap_app. apply elem_of_app. right. by apply elem_of_cons; left. }
  assert (HqB : q ∉ B.*1).
  { intros HqB. apply Hdisj in Hq. apply Hq. by apply elem_of_cons; right. }
  assert (Hqp : q ≠ p) by (by intros ->).
  apply seg_app in HsA as Hs. destruct Hs as [_ [Hqn _]].
  erewrite swap_next_ok by done. cbn [heap node_next next_ptr list_count first_ptr].
  eexists _, hp'. split; [done|]. split; [|split; [|split; [|split]]].
  - split.
    + rewrite app_comm_cons, HA. apply seg_app. rewrite last_ptr_snoc. split.
      * apply seg_alter; [done|]. eapply seg_upd_next; [|done].
        rewrite fmap_app, NoDup_app in HndA. destruct HndA as (_&Hd&_).
        intros Hq'. apply Hd in Hq'. by apply Hq', elem_of_cons; left.
      * by do 2 (apply seg_alter; [done|]).
    + intros Hne. destruct (decide (B = [])) as [->|HB].
      * rewrite Hhp0, app_nil_r by done. rewrite app_nil_r in Hne.
        destruct A as [|a A _] using rev_ind; [done|]. rewrite last_ptr_snoc.
        rewrite app_comm_cons in HA. apply app_inj_tail in HA as [_ ->]. done.
      * rewrite Hhp by done. unfold last_ptr. rewrite last_app.
        destruct (last B) eqn:El; [done|]. by apply last_None in El.
    + rewrite app_comm_cons, HA, fmap_app. apply NoDup_app. split; [done|]. split; [|done].
      intros x Hx HxB. apply Hdisj in Hx. apply Hx. by apply elem_of_cons; right.
  - unfold upd_next at 1. rewrite lookup_alter_eq. unfold upd_next.
    by rewrite lookup_alter_ne, Hp by done.
  - intros [-> ->]%app_eq_nil. rewrite Hhp0 by done. destruct A' as [|? [|??]]; [|done..].
    by injection HA as -> _.
  - rewrite app_comm_cons, HA, fmap_app. apply not_elem_of_app. done.
  - intros n Hn. by do 2 apply fresh_alter; apply Hf.
Qed.

(** The chain before an element ends in some node, the head node at first. *)
Lemma before_node A : ∃ A' q dq, head_node :: A = A' ++ [(q, dq)].
Proof.
  destruct A as [|[q dq] A _] using rev_ind; [by exists [], HEAD, None|].
  by exists (head_node :: A), q, dq.
Qed.

Lemma linked_mid h A' A q dq p d B hp :
  head_node :: A = A' ++ [(q, dq)] → linked h (A ++ (p, d) :: B) hp →
  h !! p = Some (mkLRUNode (first_ptr B None) (Some q) d).
Proof.
  intros HA [Hseg _ _]. rewrite app_comm_cons, HA in Hseg. apply seg_mid in Hseg.
  by rewrite last_ptr_snoc in Hseg.
Qed.

(** The second half: an isolated node becomes the first one. *)
Definition link_front (l : LRUList T) p : outcome (LRUList T) :=
  let! l := swap_next l p HEAD in
  let! n := deref l p in
  let! l :=
    match node_next n with
    | Some newnext =>
        let! nn := deref l newnext in
        let! l := set_prev l p (node_prev nn) in
        set_prev l newnext (Some p)
    | None => set_prev l HEAD (Some p)
    end in
  let! head := deref l HEAD in
  assert! bool_decide (is_Some (node_next head)) in
  assert! bool_decide (is_Some (node_prev head)) in
  Done l.

Lemma link_front_ok (l : LRUList T) A hp p q d :
  linked (heap l) A hp → (p ∉ (head_node :: A).*1) →
  heap l !! p = Some (mkLRUNode (Some p) (Some q) d) →
  (A = [] → q = HEAD) → fresh (heap l) (next_ptr l) →
  ∃ l' hp', link_front l p = Done l' ∧ linked (heap l') ((p, d) :: A) hp' ∧
    next_ptr l' = next_ptr l ∧ list_count l' = list_count l ∧ fresh (heap l') (next_ptr l).
Proof.
  intros Hl Hp Hn Hq Hf. pose proof (linked_head _ _ _ Hl) as Hh.
  assert (p ≠ HEAD) by (intros ->; apply Hp; by apply elem_of_cons; left).
  unfold link_front. erewrite swap_next_ok by done. cbn [bind heap next_ptr list_count node_next].
  unfold upd_next, set_prev, deref, store.
  destruct A as [|[z dz] A]; cbn [first_ptr fst] in *.
  - rewrite Hq in * by done. cbn. simplify_map_eq. cbn. simplify_map_eq. cbn. simplify_map_eq.
    eexists _, (Some p). split; [done|]. cbn. split; [|split; [done|split; [done|]]].
    + eapply linked_push; [done|done|..]; cbn; try by simplify_map_eq. by intros ? ?%elem_of_nil.
    + repeat apply fresh_insert; repeat apply fresh_alter; try done; apply Hf; by eexists.
  - destruct (linked_second _ _ _ _ _ Hl) as (Hz&?&Hzn&Hhn).
    assert (p ≠ z) by (intros ->; apply Hp; apply elem_of_cons; right; by apply elem_of_cons; left).
    cbn. simplify_map_eq. cbn. simplify_map_eq. cbn. simplify_map_eq.
    assert (Hlast : hp = last_ptr None ((z, dz) :: A)) by (by apply (linked_last _ _ _ Hl)).
    rewrite last_ptr_cons in Hlast. rewrite bool_decide_eq_true_2.
    2: { rewrite Hlast. unfold last_ptr. destruct (last A); by eexists. }
    eexists _, hp. split; [done|]. cbn. split; [|split; [done|split; [done|]]].
    + eapply linked_push; [done|done|..]; cbn; try by simplify_map_eq.
      * intros ? ? ? [= <- <- <-]. by simplify_map_eq.
      * intros r Hr. rewrite !lookup_insert_ne, !lookup_alter_ne; try done; intros <-; try done.
        all: apply Hp; apply elem_of_cons; right; apply elem_of_cons; by right.
    + repeat apply fresh_insert; repeat apply fresh_alter; try done; apply Hf; by eexists.
Qed.

Lemma reinsert_front_split (l : LRUList T) p q B d :
  heap l !! p = Some (mkLRUNode (first_ptr B None) (Some q) d) →
  reinsert_front l p =
    let! l := (let! l := relink_prev l q B in swap_next l q p) in link_front l p.
Proof.
  intros Hn. unfold reinsert_front. rewrite (deref_ok _ _ _ Hn), bind_assoc. done.
Qed.

(** [reinsert_front] moves an element to the front. *)
Lemma reinsert_front_ok l xs p e ys :
  list_rep l (xs ++ (p, e) :: ys) →
  ∃ l', reinsert_front l p = Done l' ∧ list_rep l' ((p, e) :: xs ++ ys).
Proof.
  intros [(hp&Hl) Hf Hc]. rewrite els_app, els_cons in Hl.
  destruct (before_node (els xs)) as (A'&q&dq&HA).
  rewrite (reinsert_front_split l p q (els ys) (Some e)) by (by eapply linked_mid).
  destruct (unlink_ok _ _ _ _ _ _ _ _ _ HA Hl) as (h&hp'&->&Hl'&Hp&Hhp&Hnin&Hf'). cbn [bind].
  destruct (link_front_ok (mkLRUList h (next_ptr l) (list_count l)) (els xs ++ els ys) hp' p q (Some e))
    as (l'&hp2&?&Hl2&Hnp&Hcnt&Hf2); [done|done|done| |by apply Hf'|].
  { intros [Hx _]%app_eq_nil. rewrite Hx in HA. destruct A' as [|? [|??]]; [|done..].
    by injection HA as -> _. }
  exists l'. split; [done|]. split.
  - exists hp2. by rewrite els_cons, els_app.
  - by rewrite Hnp.
  - rewrite Hcnt. cbn [list_count]. rewrite Hc. autorewrite with rust. lia.
Qed.

Lemma drop_box_None fuel (l : LRUList T) : drop_box fuel l None = Done l.
Proof. by destruct fuel. Qed.

(** The last node is not another one. *)
Lemma last_node_apart h A A' q dq p d hp :
  head_node :: A = A' ++ [(q, dq)] → linked h (A ++ [(p, d)]) hp →
  (p ∉ (head_node :: A).*1) ∧ q ≠ p ∧ HEAD ≠ p ∧ NoDup (A' ++ [(q, dq)]).*1 ∧ seg h hp (A' ++ [(q, dq)]) (Some p).
Proof.
  intros HA [Hseg _ Hnd]. rewrite app_comm_cons, HA in Hseg, Hnd. rewrite fmap_app, NoDup_app in Hnd.
  destruct Hnd as (HndA&Hdisj&_). apply seg_app in Hseg as [HsA _]. cbn [first_ptr fst] in HsA.
  assert (HpA : p ∉ (A' ++ [(q, dq)]).*1).
  { intros Hin. apply Hdisj in Hin. by apply Hin, elem_of_cons; left. }
  rewrite HA. split; [done|]. split; [|split; [|done]].
  - intros ->. apply HpA. rewrite fmap_app. apply elem_of_app. right. by apply elem_of_cons; left.
  - intros <-. apply HpA. rewrite <- HA. by apply elem_of_cons; left.
Qed.

(** Without its last node the chain is one, in any heap that agrees elsewhere. *)
Lemma linked_cut_last h h' A A' q dq p d hp :
  head_node :: A = A' ++ [(q, dq)] → linked h (A ++ [(p, d)]) hp →
  (∀ r, r ≠ p → h' !! r = upd_prev (upd_next h q None) HEAD (Some q) !! r) →
  linked h' A (Some q).
Proof.
  intros HA Hl Hsame. destruct (last_node_apart _ _ _ _ _ _ _ _ HA Hl) as (HpA&Hqp&_&Hnd&Hs). split.
  - apply (seg_ext (upd_prev (upd_next h q None) HEAD (Some q))).
    { intros r Hr. symmetry. apply Hsame. by intros ->. }
    eapply seg_upd_prev; [rewrite <- HA in Hnd; by apply NoDup_cons in Hnd as [? _]|].
    fold head_node. rewrite HA. eapply seg_upd_next; [|done]. rewrite fmap_app, NoDup_app in Hnd.
    destruct Hnd as (_&Hd&_). intros Hq'. apply Hd in Hq'. by apply Hq', elem_of_cons; left.
  - intros Hne. destruct A as [|a A _] using rev_ind; [done|]. rewrite last_ptr_snoc.
    rewrite app_comm_cons in HA. apply app_inj_tail in HA as [_ ->]. done.
  - by rewrite HA.
Qed.

(** [remove_last] takes the last element out and frees its node. *)
Lemma remove_last_ok l xs p e :
  list_rep l (xs ++ [(p, e)]) → ∃ l', remove_last l = Done (Some e, l') ∧ list_rep l' xs.
Proof.
  intros [(hp&Hl) Hf Hc]. rewrite els_app in Hl. cbn in Hl.
  destruct (before_node (els xs)) as (A'&q&dq&HA).
  destruct (last_node_apart _ _ _ _ _ _ _ _ HA Hl) as (_&Hqp&Hhp&_&Hs).
  pose proof (linked_head _ _ _ Hl) as Hh. pose proof (linked_mid _ _ _ _ _ _ _ _ _ HA Hl) as Hp.
  rewrite (linked_last _ _ _ Hl), last_ptr_snoc in Hh by (by destruct (els xs)).
  apply seg_app in Hs as [_ [Hqn _]].
  unfold remove_last. rewrite (deref_ok _ _ _ Hh). cbn [bind node_prev fst].
  rewrite (deref_ok _ _ _ Hp). cbn [bind node_prev unwrap]. rewrite (deref_ok _ _ _ Hqn).
  cbn [bind node_next first_ptr]. rewrite set_next_ok by (by eexists). cbn [bind].
  set (h1 := upd_next (heap l) q None).
  assert (Hp1 : h1 !! p = Some (mkLRUNode None (Some q) (Some e))).
  { unfold h1, upd_next. by rewrite lookup_alter_ne. }
  rewrite (deref_ok (mkLRUList h1 _ _) _ _ Hp1). cbn [bind node_prev].
  assert (Hh1 : is_Some (h1 !! HEAD)) by (apply lookup_alter_is_Some; by eexists).
  rewrite set_prev_ok by done. cbn [bind heap next_ptr list_count].
  set (h2 := upd_prev h1 HEAD (Some q)).
  assert (Hp2 : h2 !! p = Some (mkLRUNode None (Some q) (Some e))).
  { unfold h2, upd_prev. by rewrite lookup_alter_ne. }
  rewrite usub_Done by (rewrite Hc; autorewrite with rust; pose proof (len_nonneg xs); lia).
  cbn [bind]. unfold deref at 1. cbn [set_count heap next_ptr]. rewrite Hp2. cbn [bind].
  unfold set_data, deref at 1. cbn [heap set_count]. rewrite Hp2. cbn [bind drop_box node_next node_prev].
  rewrite (deref_ok (store _ _ _) p (mkLRUNode None (Some q) None)) by (by apply lookup_insert_eq).
  cbn [bind node_next]. rewrite drop_box_None. cbn [bind node_data].
  eexists. split; [done|]. cbn [store heap next_ptr list_count].
  split; [exists (Some q)| |cbn [set_count list_count]; rewrite Hc; autorewrite with rust; lia].
  - eapply linked_cut_last; [done..|]. intros r Hr. cbn. by rewrite lookup_delete_ne, lookup_insert_ne.
  - cbn [heap next_ptr]. apply fresh_delete, fresh_insert; [|apply Hf; by eexists].
    by do 2 apply fresh_alter.
Qed.
End list.

(** ** The abstract cache

    Pairs, most recently used first. *)

Section spec.
Context {T : Type}.

Fixpoint lru_lookup (xs : list (CacheKey * T)) (key : CacheKey) : option T :=
  match xs with
  | [] => None
  | (k, v) :: xs => if decide (k = key) then Some v else lru_lookup xs key
  end.

Definition lru_without (xs : list (CacheKey * T)) (key : CacheKey) : list (CacheKey * T) :=
  filter (λ kv, kv.1 ≠ key) xs.

Definition lru_get (xs : list (CacheKey * T)) (key : CacheKey) : option T * list (CacheKey * T) :=
  match lru_lookup xs key with
  | Some v => (Some v, (key, v) :: lru_without xs key)
  | None => (None, xs)
  end.

(** Insertion drops the last pair of a full cache. *)
Definition lru_insert (cap : Z) (xs : list (CacheKey * T)) (key : CacheKey) (v : T) :
    list (CacheKey * T) :=
  (key, v) :: (if cap <=? len xs then take (pred (length xs)) xs else xs).

Inductive cache_op := OpGet (key : CacheKey) | OpInsert (key : CacheKey) (v : T).

(** Runs of the cache and of its specification; the specification has no run
    that inserts a key which is present. *)
Definition cache_step (op : cache_op) (s : list (option T) * Cache T) :
    outcome (list (option T) * Cache T) :=
  match op with
  | OpGet key => let! (r, c) := cache_get s.2 key in Done (s.1 ++ [r], c)
  | OpInsert key v => let! c := cache_insert s.2 key v in Done (s.1, c)
  end.

Definition cache_run (c : Cache T) (ops : list cache_op) : outcome (list (option T) * Cache T) :=
  foldM cache_step ops ([], c).

Definition lru_step (cap : Z) (s : list (option T) * list (CacheKey * T)) (op : cache_op) :
    option (list (option T) * list (CacheKey * T)) :=
  match op with
  | OpGet key => let '(r, xs) := lru_get s.2 key in Some (s.1 ++ [r], xs)
  | OpInsert key v =>
      match lru_lookup s.2 key with
      | Some _ => None
      | None => Some (s.1, lru_insert cap s.2 key v)
      end
  end.

Fixpoint lru_run (cap : Z) (s : list (option T) * list (CacheKey * T)) (ops : list cache_op) :
    option (list (option T) * list (CacheKey * T)) :=
  match ops with
  | [] => Some s
  | op :: ops => s' ← lru_step cap s op; lru_run cap s' ops
  end.
End spec.
Arguments cache_op T : clear implicits.

(** ** Refinement *)

Section refinement.
Context {T : Type}.
Implicit Types (es : list (ptr * CacheKey * T)) (c : Cache T).

Abbreviation node es := ((λ e, (e.1.1, e.1.2)) <$> es).
Abbreviation pairs es := ((λ e, (e.1.2, e.2)) <$> es).
Abbreviation keys es := ((λ e, e.1.2) <$> es).

(** The list and the map hold the same entries. *)
Record entries_rep c es : Prop := {
  er_list : list_rep (cache_list c) (node es);
  er_map k v p : cache_map c !! k = Some (v, p) ↔ (p, k, v) ∈ es;
  er_nodup : NoDup (keys es);
  er_cap : 0 < cap c;
  er_bound : len es ≤ cap c;
}.

Definition cache_rep c (xs : list (CacheKey * T)) : Prop := ∃ es, entries_rep c es ∧ pairs es = xs.

(** The identifiers that are handed out do not matter for the entries. *)
Lemma cache_rep_id c xs id :
  cache_rep c xs → cache_rep (mkCache (cache_list c) (cache_map c) (cap c) id) xs.
Proof. intros (es&[]&<-). exists es. split; [by split|done]. Qed.

Lemma len_fmap {A B} (f : A → B) (l : list A) : len (f <$> l) = len l.
Proof. unfold len. by rewrite length_fmap. Qed.

Lemma cache_rep_new n c : Cache_new n = Done c → cache_rep c [] ∧ cap c = n.
Proof.
  unfold Cache_new. destruct (Z.ltb_spec 0 n); intros [= <-]. split; [|done]. exists []. split; [|done].
  split; cbn; [apply list_rep_new| |apply NoDup_nil_2|done|rewrite len_nil; lia].
  intros k v p. rewrite lookup_empty. split; [done|by intros ?%elem_of_nil].
Qed.

Lemma lookup_pairs es p k v :
  NoDup (keys es) → (p, k, v) ∈ es → lru_lookup (pairs es) k = Some v.
Proof.
  induction es as [|[[p' k'] v'] es IH]; cbn; [by intros _ ?%elem_of_nil|].
  rewrite NoDup_cons. intros [Hk Hnd] [[= -> -> ->]|Hin]%elem_of_cons; [by rewrite decide_True|].
  destruct (decide (k' = k)) as [->|]; [|by apply IH]. exfalso. apply Hk.
  by apply (list_elem_of_fmap_2' _ es (p, k, v)).
Qed.

Lemma lookup_pairs_None es k :
  (∀ p v, (p, k, v) ∉ es) ↔ lru_lookup (pairs es) k = None.
Proof.
  induction es as [|[[p' k'] v'] es IH]; cbn; [by split; [done|intros _ p v ?%elem_of_nil]|].
  destruct (decide (k' = k)) as [->|Hne]; split.
  - intros H. exfalso. apply (H p' v'). by apply elem_of_cons; left.
  - done.
  - intros H. apply IH. intros p v Hin. apply (H p v). by apply elem_of_cons; right.
  - intros H p v [[= -> -> ->]|Hin]%elem_of_cons; [done|]. by apply IH in Hin.
Qed.

Lemma map_None c es k : entries_rep c es → cache_map c !! k = None ↔ lru_lookup (pairs es) k = None.
Proof.
  intros Hr. rewrite <- lookup_pairs_None. split.
  - intros Hk p v Hin. apply (er_map _ _ Hr) in Hin. by rewrite Hk in Hin.
  - intros Hno. destruct (cache_map c !! k) as [[v p]|] eqn:E; [|done].
    apply (er_map _ _ Hr) in E. by apply Hno in E.
Qed.

Lemma without_absent es k : k ∉ keys es → lru_without (pairs es) k = pairs es.
Proof.
  unfold lru_without. induction es as [|[[p' k'] v'] es IH]; [done|]. rewrite !fmap_cons.
  intros [Hne Hk]%not_elem_of_cons. rewrite filter_cons_True by (by apply not_eq_sym).
  by rewrite IH.
Qed.

Lemma without_pairs es1 p k v es2 :
  NoDup (keys (es1 ++ (p, k, v) :: es2)) →
  lru_without (pairs (es1 ++ (p, k, v) :: es2)) k = pairs (es1 ++ es2).
Proof.
  rewrite fmap_app, NoDup_app. cbn. rewrite NoDup_cons. intros (_&Hd&Hk2&_).
  rewrite !fmap_app, fmap_cons. unfold lru_without. rewrite filter_app, filter_cons_False by (by intros []).
  f_equal; apply without_absent; [|done]. intros Hk1%Hd. apply Hk1. by apply elem_of_cons; left.
Qed.

Lemma cache_count_ok c es : entries_rep c es → cache_count c = len es.
Proof. intros Hr. unfold cache_count, LRUList_count. rewrite (rep_count _ _ (er_list _ _ Hr)). by apply len_fmap. Qed.

(** [get] refines [lru_get]. *)
Lemma cache_get_ok c xs key :
  cache_rep c xs → ∃ c', cache_get c key = Done ((lru_get xs key).1, c') ∧
    cache_rep c' (lru_get xs key).2 ∧ cap c' = cap c.
Proof.
  intros (es&Hr&<-). unfold cache_get, lru_get.
  destruct (cache_map c !! key) as [[v p]|] eqn:E.
  - apply (er_map _ _ Hr) in E as Hin. rewrite (lookup_pairs es p key v); [|apply Hr|done].
    apply list_elem_of_split in Hin as (es1&es2&->). pose proof (er_nodup _ _ Hr) as Hnd.
    pose proof (er_list _ _ Hr) as Hl. rewrite fmap_app in Hl. cbn in Hl.
    destruct (reinsert_front_ok _ _ _ _ _ Hl) as (l'&->&Hl'). cbn [bind fst snd].
    eexists. split; [done|]. split; [|done]. exists ((p, key, v) :: es1 ++ es2). split.
    + split; cbn; [by rewrite fmap_app| | |apply Hr|].
      * intros k' v' p'. rewrite (er_map _ _ Hr). rewrite elem_of_cons, !elem_of_app, elem_of_cons. tauto.
      * rewrite fmap_app in Hnd |- *. cbn in Hnd. by rewrite Permutation_middle.
      * etransitivity; [|apply (er_bound _ _ Hr)]. rewrite len_cons, !len_app, len_cons. lia.
    + rewrite without_pairs by done. done.
  - apply (map_None c es key Hr) in E. rewrite E. eexists. split; [done|]. split; [by exists es|done].
Qed.

(** [insert] of a key that is absent refines [lru_insert]. *)
Lemma cache_push_ok c es key v p l :
  entries_rep c es → len es < cap c → lru_lookup (pairs es) key = None →
  list_insert (cache_list c) key = Done (p, l) → list_rep l ((p, key) :: node es) →
  entries_rep (mkCache l (<[key := (v, p)]> (cache_map c)) (cap c) (cache_id c)) ((p, key, v) :: es).
Proof.
  intros Hr Hlt Hno _ Hl. pose proof (proj2 (lookup_pairs_None es key) Hno) as Habs.
  split; cbn; [done| | |apply Hr|rewrite len_cons; lia].
  - intros k' v' p'. rewrite elem_of_cons. destruct (decide (key = k')) as [<-|Hne].
    + rewrite lookup_insert_eq. split; [intros [= -> ->]; by left|].
      intros [[= -> ->]|Hin]; [done|]. by apply Habs in Hin.
    + rewrite lookup_insert_ne, (er_map _ _ Hr) by done. split; [by right|].
      intros [[= -> -> ->]|?]; done.
  - apply NoDup_cons. split; [|apply Hr]. intros ([[p' k'] v']&->&Hin)%list_elem_of_fmap.
    by apply Habs in Hin.
Qed.

Lemma cache_evict_ok c es p k v :
  entries_rep c (es ++ [(p, k, v)]) →
  ∃ l, remove_last (cache_list c) = Done (Some k, l) ∧ is_Some (cache_map c !! k) ∧
    entries_rep (mkCache l (delete k (cache_map c)) (cap c) (cache_id c)) es.
Proof.
  intros Hr. pose proof (er_list _ _ Hr) as Hl. rewrite fmap_app in Hl.
  destruct (remove_last_ok _ _ _ _ Hl) as (l&?&Hl'). exists l. split; [done|]. split.
  { exists (v, p). apply (er_map _ _ Hr), elem_of_app. right. by apply elem_of_cons; left. }
  pose proof (er_nodup _ _ Hr) as Hnd. rewrite fmap_app, NoDup_app in Hnd.
  destruct Hnd as (Hnd&Hd&_). split; cbn; [done| |done|apply Hr|].
  - intros k' v' p'. destruct (decide (k = k')) as [<-|Hne].
    + rewrite lookup_delete_eq. split; [done|]. intros Hin. exfalso. apply (Hd k).
      * by apply (list_elem_of_fmap_2' _ es (p', k, v')).
      * by apply elem_of_cons; left.
    + rewrite lookup_delete_ne, (er_map _ _ Hr), elem_of_app, elem_of_cons by done.
      split; [intros [?|[[= -> -> ->]|?%elem_of_nil]]; done|by left].
  - pose proof (er_bound _ _ Hr) as Hb. rewrite len_app in Hb. change (len [_]) with 1 in Hb. lia.
Qed.

Lemma cache_insert_ok c xs key v :
  cache_rep c xs → lru_lookup xs key = None →
  ∃ c', cache_insert c key v = Done c' ∧ cache_rep c' (lru_insert (cap c) xs key v) ∧ cap c' = cap c.
Proof.
  intros (es&Hr&<-) Hno. unfold cache_insert, lru_insert. rewrite len_fmap, length_fmap.
  fold (cache_count c). rewrite (cache_count_ok c es Hr). pose proof (er_cap _ _ Hr).
  destruct (Z.leb_spec (cap c) (len es)) as [Hfull|Hroom].
  - destruct es as [|[[p0 k0] v0] es _] using rev_ind; [rewrite len_nil in *; lia|].
    destruct (cache_evict_ok c es p0 k0 v0 Hr) as (l&->&Hk0&Hr'). cbn [bind].
    rewrite bool_decide_eq_true_2 by done. cbn [bind cache_list cache_map cap cache_id].
    destruct (list_insert_ok l (node es) key (er_list _ _ Hr')) as (l'&Hins&Hl').
    rewrite Hins. cbn [bind]. eexists. split; [done|]. split; [|done].
    rewrite length_app, Nat.add_comm, fmap_app. cbn [pred Nat.add length].
    rewrite take_app_length' by (by rewrite length_fmap).
    exists ((next_ptr l, key, v) :: es). split; [|done].
    apply (cache_push_ok (mkCache l (delete k0 (cache_map c)) (cap c) (cache_id c))
      es key v (next_ptr l) l' Hr'); try done.
    + pose proof (er_bound _ _ Hr) as Hb. rewrite len_app in Hb. change (len [_]) with 1 in Hb. cbn. lia.
    + apply lookup_pairs_None. intros p v' Hin.
      apply (proj2 (lookup_pairs_None _ _) Hno p v'). by apply elem_of_app; left.
  - destruct (list_insert_ok (cache_list c) (node es) key (er_list _ _ Hr)) as (l'&Hins&Hl').
    cbn [bind]. rewrite Hins. cbn [bind]. eexists. split; [done|]. split; [|done].
    exists ((next_ptr (cache_list c), key, v) :: es). split; [|done]. by apply cache_push_ok.
Qed.
End refinement.

(** *** Lookups after operations of the abstract cache *)

Lemma lookup_without {V} (xs : list (CacheKey * V)) key k :
  k ≠ key → lru_lookup (lru_without xs key) k = lru_lookup xs k.
Proof.
  intros Hne. unfold lru_without. induction xs as [|[k' v'] xs IH]; [done|].
  destruct (decide (k' = key)) as [->|Hk'].
  - rewrite filter_cons_False by (by intros []). cbn [lru_lookup]. rewrite decide_False by done. done.
  - rewrite filter_cons_True by done. cbn [lru_lookup]. by rewrite IH.
Qed.

Lemma lookup_get {V} (xs : list (CacheKey * V)) key k :
  lru_lookup (lru_get xs key).2 k = lru_lookup xs k.
Proof.
  unfold lru_get. destruct (lru_lookup xs key) as [v|] eqn:Hl; [|done]. cbn.
  destruct (decide (key = k)) as [->|]; [done|]. by apply lookup_without.
Qed.

Lemma lookup_take {V} n (xs : list (CacheKey * V)) k v :
  lru_lookup (take n xs) k = Some v → lru_lookup xs k = Some v.
Proof.
  revert n. induction xs as [|[k' v'] xs IH]; intros [|n]; cbn; [done..|].
  destruct (decide (k' = k)); [done|]. apply IH.
Qed.

Lemma lookup_insert_lru {V} n (xs : list (CacheKey * V)) key v k w :
  lru_lookup (lru_insert n xs key v) k = Some w → (k = key ∧ w = v) ∨ lru_lookup xs k = Some w.
Proof.
  unfold lru_insert. cbn. destruct (decide (key = k)) as [->|]; [intros [= ->]; by left|].
  destruct (n <=? len xs); [intros Hl%lookup_take|intros Hl]; by right.
Qed.

(** Lookups and insertions leave the counter of identifiers alone. *)
Section counter.
Context {T : Type}.
Implicit Types (c : Cache T).

Lemma cache_get_id c key r c' : cache_get c key = Done (r, c') → cache_id c' = cache_id c.
Proof.
  unfold cache_get. destruct (cache_map c !! key) as [[e p]|]; [|by intros [= _ <-]].
  intros Hg. by run_inv.
Qed.

Lemma cache_insert_id c key v c' : cache_insert c key v = Done c' → cache_id c' = cache_id c.
Proof.
  unfold cache_insert. intros Hi. run_inv. destruct r0 as [h l]. simplify_eq. cbn.
  case_match; [|by simplify_eq]. run_inv. destruct r0 as [[k|] l']; [|done]. by run_inv.
Qed.
End counter.

(** ** Properties *)

Section cache_properties.
Context {T : Type}.

Lemma cache_run_ok c xs (ops : list (cache_op T)) outs s' :
  cache_rep c xs → lru_run (cap c) (outs, xs) ops = Some s' →
  ∃ c', foldM cache_step ops (outs, c) = Done (s'.1, c') ∧ cache_rep c' s'.2 ∧ cap c' = cap c.
Proof.
  revert c xs outs. induction ops as [|op ops IH]; intros c xs outs Hr; cbn [lru_run foldM].
  - intros [= <-]. by exists c.
  - destruct op as [key|key v]; cbn [lru_step cache_step fst snd].
    + destruct (cache_get_ok c xs key Hr) as (c'&->&Hr'&Hcap). destruct (lru_get xs key) as [r ys].
      cbn [bind mbind option_bind fst snd] in *. intros Hrun. rewrite <- Hcap in Hrun.
      destruct (IH c' ys _ Hr' Hrun) as (c2&?&?&?). exists c2. by rewrite <- Hcap.
    + destruct (lru_lookup xs key) eqn:Hno; [done|].
      destruct (cache_insert_ok c xs key v Hr Hno) as (c'&->&Hr'&Hcap).
      cbn [bind mbind option_bind fst snd] in *. intros Hrun. rewrite <- Hcap in Hrun at 1.
      destruct (IH c' _ _ Hr' Hrun) as (c2&?&?&?). exists c2. by rewrite <- Hcap.
Qed.

(** C18. Refinement. Every sequence of [get]s and of [insert]s of absent
    keys on a new cache returns what the abstract least-recently-used cache
    returns, never panics and touches no freed memory; the cache holds the
    same pairs at the end. *)
Theorem Cache_refines_lru n (ops : list (cache_op T)) outs xs c :
  Cache_new n = Done c → lru_run n ([], []) ops = Some (outs, xs) →
  ∃ c', cache_run c ops = Done (outs, c') ∧ cache_count c' = len xs ∧
    ∀ k, fst <$> cache_map c' !! k = lru_lookup xs k.
Proof.
  intros Hnew Hrun. destruct (cache_rep_new n c Hnew) as [Hr Hcap]. rewrite <- Hcap in Hrun.
  destruct (cache_run_ok c [] ops [] _ Hr Hrun) as (c'&?&(es&Hes&Hp)&_). cbn in Hp. subst xs.
  exists c'. split; [done|].
  split; [rewrite len_fmap; by apply cache_count_ok|]. intros k.
  destruct (cache_map c' !! k) as [[v p]|] eqn:E; cbn.
  - apply (er_map _ _ Hes) in E. symmetry. eapply lookup_pairs; [apply Hes|done].
  - symmetry. by apply (map_None c' es k Hes).
Qed.

(** The cache never holds more elements than its capacity, in its
    list or in its map. *)
Theorem Cache_bounded n (ops : list (cache_op T)) s c outs c' :
  Cache_new n = Done c → lru_run n ([], []) ops = Some s → cache_run c ops = Done (outs, c') →
  0 ≤ cache_count c' ≤ n ∧ Z.of_nat (size (cache_map c')) = cache_count c'.
Proof.
  intros Hnew Hrun Hc. destruct (cache_rep_new n c Hnew) as [Hr Hcap]. rewrite <- Hcap in Hrun.
  destruct (cache_run_ok c [] ops [] _ Hr Hrun) as (c2&Hc2&(es&Hes&_)&Hcap').
  unfold cache_run in Hc. rewrite Hc in Hc2. injection Hc2 as _ <-.
  rewrite (cache_count_ok _ _ Hes). pose proof (er_bound _ _ Hes). pose proof (len_nonneg es).
  split; [lia|]. unfold len. f_equal.
  assert (Hmap : cache_map c' = list_to_map ((λ e, (e.1.2, (e.2, e.1.1))) <$> es)).
  { apply map_eq. intros k. apply option_eq. intros [v p]. rewrite (er_map _ _ Hes).
    rewrite <- elem_of_list_to_map.
    - rewrite list_elem_of_fmap. split; [intros ?; by exists (p, k, v)|].
      intros ([[p' k'] v']&[= -> -> ->]&?). done.
    - rewrite <- list_fmap_compose. apply (er_nodup _ _ Hes). }
  rewrite Hmap. rewrite map_size_list_to_map; [by rewrite length_fmap|].
  rewrite <- list_fmap_compose. apply (er_nodup _ _ Hes).
Qed.
End cache_properties.

(** ** [remove] *)

Section list_remove.
Context {T : Type}.

(** [LRUList::remove] returns the element and counts it off, wherever the
    node is; what it does to the links is right only for a sole node. *)
Lemma list_remove_ok (l : LRUList T) xs p e ys :
  list_rep l (xs ++ (p, e) :: ys) →
  ∃ l', list_remove l p = Done (e, l') ∧ list_count l' = list_count l - 1 ∧
    (xs = [] → ys = [] → list_rep l' []).
Proof.
  intros [(hp&Hl) Hf Hc]. rewrite els_app, els_cons in Hl.
  destruct (before_node (els xs)) as (A'&q&dq&HA).
  pose proof (linked_mid _ _ _ _ _ _ _ _ _ HA Hl) as Hp. pose proof (linked_head _ _ _ Hl) as Hh.
  assert (Hcount : 1 ≤ list_count l).
  { rewrite Hc. autorewrite with rust. pose proof (len_nonneg xs). pose proof (len_nonneg ys). lia. }
  destruct Hl as [Hseg _ Hnd]. rewrite app_comm_cons, HA in Hseg, Hnd.
  rewrite fmap_app, NoDup_app in Hnd. destruct Hnd as (_&Hdisj&HndB).
  unfold list_remove. rewrite (deref_ok _ _ _ Hp). cbn [bind node_next].
  destruct ys as [|[y dy] ys]; cbn [els fmap list_fmap first_ptr fst] in *.
  - cbn [bind]. rewrite (deref_ok _ _ _ Hp). cbn [bind node_prev].
    apply seg_app in Hseg as [HsA _]. apply seg_app in HsA as [_ [Hq _]].
    assert (q ≠ p).
    { intros ->. assert (Hin : p ∈ (A' ++ [(p, dq)]).*1).
      { rewrite fmap_app. apply elem_of_app. right. by apply elem_of_cons; left. }
      apply Hdisj in Hin. by apply Hin, elem_of_cons; left. }
    rewrite (swap_next_ok _ _ _ _ _ Hq Hp). cbn [bind heap next_ptr list_count node_next first_ptr].
    rewrite usub_Done by lia. cbn [bind]. unfold set_data, deref, set_count. cbn [heap].
    unfold upd_next. rewrite lookup_alter_eq, lookup_alter_ne, Hp by done.
    cbn. eexists. split; [done|]. split; [done|]. intros -> _. cbn in HA.
    destruct A' as [|? [|??]]; [|done..]. injection HA as <- <-.
    split; cbn [heap next_ptr list_count store set_count].
    + exists hp. cbn. split; [|done|apply NoDup_singleton]. split; [|done].
      rewrite lookup_insert_ne, lookup_alter_ne, lookup_alter_eq, Hh by done. done.
    + apply fresh_insert; [by do 2 apply fresh_alter|]. apply Hf. by eexists.
    + rewrite Hc. done.
  - simpl in HndB. apply NoDup_cons in HndB as [Hpy _].
    assert (Hy : y ≠ p) by (intros ->; apply Hpy; by apply elem_of_cons; left).
    apply seg_app in Hseg as [_ [_ [Hyn _]]]. cbn in Hyn.
    unfold swap_prev, swap_next, set_prev, set_next, set_data, deref, store, set_count.
    cbn. simplify_map_eq. cbn. simplify_map_eq. cbn. simplify_map_eq.
    cbn. rewrite usub_Done by lia. cbn. simplify_map_eq. cbn. simplify_map_eq.
    eexists. split; [done|]. split; [done|]. done.
Qed.

End list_remove.

Section cache_remove.
Context {T : Type}.

Lemma cache_remove_ok (c : Cache T) es key v p :
  entries_rep c es → (p, key, v) ∈ es →
  ∃ c', cache_remove c key = Done (Some v, c') ∧ cache_map c' = delete key (cache_map c) ∧
    cache_count c' = cache_count c - 1 ∧ (len es = 1 → entries_rep c' []).
Proof.
  intros Hr Hin. unfold cache_remove. rewrite (proj2 (er_map _ _ Hr key v p) Hin).
  apply list_elem_of_split in Hin as (es1&es2&->).
  pose proof (er_list _ _ Hr) as Hl. rewrite fmap_app in Hl. cbn in Hl.
  destruct (list_remove_ok _ _ _ _ _ Hl) as (l'&->&Hc&Hsole). cbn [bind].
  eexists. split; [done|]. split; [done|]. split; [done|]. intros H1.
  rewrite len_app, len_cons in H1. pose proof (len_nonneg es1). pose proof (len_nonneg es2).
  destruct es1 as [|? es1]; [|rewrite len_cons in H1; pose proof (len_nonneg es1); lia].
  destruct es2 as [|? es2]; [|rewrite len_cons in H1; pose proof (len_nonneg es2); lia].
  split; cbn; [by apply Hsole| |apply NoDup_nil_2|apply Hr|pose proof (er_cap _ _ Hr); rewrite len_nil; lia].
  intros k v' p'. split; [|by intros ?%elem_of_nil]. intros [Hk Hm]%lookup_delete_Some.
  apply (er_map _ _ Hr), elem_of_cons in Hm as [[= -> -> ->]|?%elem_of_nil]; done.
Qed.

(** On a cache that was only used with [get] and [insert],
    [remove] of a present key returns its value, takes it out of the map and
    counts it off; if it was the only element, the cache is a correct empty
    cache again. Removing an absent key changes nothing. *)
Theorem Cache_remove_once n (ops : list (cache_op T)) s c outs c' key :
  Cache_new n = Done c → lru_run n ([], []) ops = Some s → cache_run c ops = Done (outs, c') →
  ∃ c2, cache_remove c' key = Done (lru_lookup s.2 key, c2) ∧
    (lru_lookup s.2 key = None → c2 = c') ∧
    (is_Some (lru_lookup s.2 key) →
       cache_map c2 = delete key (cache_map c') ∧ cache_count c2 = cache_count c' - 1 ∧
       (len s.2 = 1 → cache_rep c2 [])).
Proof.
  intros Hnew Hrun Hc. destruct (cache_rep_new n c Hnew) as [Hr Hcap]. rewrite <- Hcap in Hrun.
  destruct (cache_run_ok c [] ops [] _ Hr Hrun) as (c1&Hc1&(es&Hes&Hp)&_).
  unfold cache_run in Hc. rewrite Hc in Hc1. injection Hc1 as _ <-. rewrite <- Hp, len_fmap.
  destruct (cache_map c' !! key) as [[v p]|] eqn:E.
  - apply (er_map _ _ Hes) in E as Hin. rewrite (lookup_pairs es p key v); [|apply Hes|done].
    destruct (cache_remove_ok c' es key v p Hes Hin) as (c2&?&?&?&Hsole). exists c2.
    split; [done|]. split; [done|]. intros _. split; [done|]. split; [done|].
    intros Hone. exists []. auto.
  - unfold cache_remove. rewrite E. apply (map_None c' es key Hes) in E. rewrite E.
    exists c'. split; [done|]. split; [done|]. by intros [? ?].
Qed.
End cache_remove.

(** *** After the last of several elements was removed *)

Section stuck.
Context {T : Type}.
Implicit Types (l : LRUList T).

(** [head.prev] is a removed node [p], and the node [q] before it has no next. *)
Record stuck l (p q : ptr) : Prop := {
  st_head : ∃ first d, heap l !! HEAD = Some (mkLRUNode (Some first) (Some p) d) ∧
    is_Some (heap l !! first) ∧ first ≠ p ∧ first ≠ HEAD;
  st_removed : ∃ nx d, heap l !! p = Some (mkLRUNode nx (Some q) d);
  st_before : ∃ pr d, heap l !! q = Some (mkLRUNode None pr d);
  st_apart : p ≠ HEAD ∧ q ≠ HEAD ∧ q ≠ p;
  st_fresh : fresh (heap l) (next_ptr l);
}.

(** [LRUList::remove] of the last of several nodes leaves the list so. *)
Lemma list_remove_last l xs x p e :
  list_rep l ((xs ++ [x]) ++ [(p, e)]) →
  ∃ l', list_remove l p = Done (e, l') ∧ list_count l' = list_count l - 1 ∧ stuck l' p x.1.
Proof.
  intros [(hp&Hl) Hf Hc]. destruct x as [q dq]. rewrite els_app in Hl. cbn [els fmap list_fmap fst snd] in Hl.
  pose proof (linked_head _ _ _ Hl) as Hh.
  assert (HA : head_node :: els (xs ++ [(q, dq)]) = (head_node :: els xs) ++ [(q, Some dq)]) by by rewrite els_app.
  destruct (last_node_apart _ _ _ _ _ _ _ _ HA Hl) as (HpA&Hqp&Hhp&Hnd&Hs).
  pose proof (linked_mid _ _ _ _ _ _ _ _ _ HA Hl) as Hp. cbn [first_ptr] in Hp.
  apply seg_app in Hs as [HsA [Hq _]]. cbn [first_ptr] in Hq.
  assert (HqH : q ≠ HEAD).
  { rewrite fmap_app, NoDup_app in Hnd. destruct Hnd as (_&Hd&_). intros ->.
    apply (Hd HEAD); apply elem_of_cons; by left. }
  pose proof (linked_last _ _ _ Hl ltac:(by intros [_ ?]%app_eq_nil)) as ->.
  rewrite last_ptr_snoc in Hh. cbn [fst] in Hh.
  assert (Hfirst : ∃ first, first_ptr (els (xs ++ [(q, dq)]) ++ [(p, Some e)]) None = Some first ∧
    is_Some (heap l !! first) ∧ first ≠ p ∧ first ≠ HEAD).
  { rewrite HA in HpA. destruct xs as [|[z dz] xs].
    - exists q. split; [done|]. split; [by eexists|done].
    - exists z. split; [done|]. destruct HsA as [_ [Hz _]]. split; [by eexists|].
      cbn in HpA. apply not_elem_of_cons in HpA as [_ [? _]%not_elem_of_cons].
      split; [by apply not_eq_sym|]. intros ->. cbn in Hnd. apply NoDup_cons in Hnd as [Hnd _].
      apply Hnd. apply elem_of_cons. by left. }
  destruct Hfirst as (first&Hfp&Hfi&Hfne&HfH). rewrite Hfp in Hh.
  unfold list_remove. rewrite (deref_ok _ _ _ Hp). cbn [bind node_next]. rewrite (deref_ok _ _ _ Hp).
  cbn [bind node_prev]. rewrite (swap_next_ok _ _ _ _ _ Hq Hp). cbn [bind heap next_ptr list_count node_next].
  rewrite usub_Done.
  2: { rewrite Hc. autorewrite with rust. pose proof (len_nonneg xs). lia. }
  cbn [bind]. unfold set_data, deref, set_count. cbn [heap]. unfold upd_next.
  rewrite lookup_alter_eq, lookup_alter_ne, Hp by done. cbn. eexists. split; [done|]. split; [done|].
  split; cbn [heap next_ptr store].
  - exists first, None. split.
    + by rewrite lookup_insert_ne, lookup_alter_ne, lookup_alter_ne, Hh by done.
    + split; [|done]. rewrite lookup_insert_ne by done. by do 2 apply lookup_alter_is_Some.
  - eexists _, _. by rewrite lookup_insert_eq.
  - eexists _, _. rewrite lookup_insert_ne, lookup_alter_ne, lookup_alter_eq, Hq by done. done.
  - by split; [|split].
  - apply fresh_insert; [by do 2 apply fresh_alter|]. apply Hf. by eexists.
Qed.

(** It stays so when elements are inserted ... *)
Lemma list_insert_stuck l p q e :
  stuck l p q → ∃ n l', list_insert l e = Done (n, l') ∧ list_count l' = list_count l + 1 ∧ stuck l' p q.
Proof.
  intros [(first&d&Hh&[nf Hfirst]&Hfp&HfH) (nx&dp&Hp) (pr&dq&Hq) (HpH&HqH&Hqp) Hf].
  unfold list_insert. rewrite (deref_ok (set_count l _) _ _ Hh). cbn [bind node_next].
  set (n := next_ptr l).
  assert (Hn : ∀ r, is_Some (heap l !! r) → n ≠ r) by (intros r Hr%Hf Hnr; unfold n in Hnr; lia).
  pose proof (Hn HEAD ltac:(by eexists)). pose proof (Hn p ltac:(by eexists)).
  pose proof (Hn q ltac:(by eexists)). pose proof (Hn first ltac:(by eexists)).
  unfold alloc, set_prev, set_next, deref, store, set_count. cbn. fold n. simplify_map_eq.
  eexists _, _. split; [done|]. split; [done|]. split; cbn [heap next_ptr].
  - exists n, d. simplify_map_eq. split; [done|]. split; [by eexists|done].
  - exists nx, dp. by simplify_map_eq.
  - destruct (decide (q = first)) as [->|].
    + rewrite Hq in Hfirst. injection Hfirst as <-. eexists _, _. simplify_map_eq. done.
    + exists pr, dq. by simplify_map_eq.
  - done.
  - assert (Hlt : ∀ r, is_Some (heap l !! r) → (r < S n)%nat) by (intros r Hr%Hf; unfold n; lia).
    repeat (apply fresh_insert; [|first [lia|apply Hlt; by eexists]]). by apply fresh_S.
Qed.

(** ... and nothing can be taken from its end. *)
Lemma remove_last_stuck l p q : stuck l p q → ∃ l', remove_last l = Done (None, l').
Proof.
  intros [(first&d&Hh&_) (nx&dp&Hp) (pr&dq&Hq) _ _]. unfold remove_last.
  rewrite (deref_ok _ _ _ Hh). cbn [bind node_prev]. rewrite (deref_ok _ _ _ Hp). cbn [bind node_prev unwrap].
  rewrite (deref_ok _ _ _ Hq). cbn [bind node_next]. rewrite set_next_ok by by eexists. cbn [bind]. by eexists.
Qed.
End stuck.

Section remove_last_element.
Context {T : Type}.

Abbreviation inserts := (foldM (λ kv (c : Cache T), cache_insert c kv.1 kv.2)).

Lemma inserts_stuck (new : list (CacheKey * T)) c p q :
  stuck (cache_list c) p q → list_count (cache_list c) + len new ≤ cap c →
  ∃ c', inserts new c = Done c' ∧ stuck (cache_list c') p q ∧ cap c' = cap c ∧
    list_count (cache_list c') = list_count (cache_list c) + len new.
Proof.
  revert c. induction new as [|kv new IH]; intros c Hs Hc.
  { exists c. rewrite len_nil. by rewrite Z.add_0_r. }
  rewrite len_cons in Hc. pose proof (len_nonneg new). cbn [foldM]. unfold cache_insert at 1, LRUList_count.
  rewrite (proj2 (Z.leb_gt _ _)) by lia. cbn [bind].
  destruct (list_insert_stuck (cache_list c) p q kv.1 Hs) as (n&l'&->&Hcount&Hs'). cbn [bind].
  destruct (IH (mkCache l' (<[kv.1 := (kv.2, n)]> (cache_map c)) (cap c) (cache_id c)) Hs') as (c'&?&?&?&Hc').
  { cbn. lia. }
  exists c'. split; [done|]. split; [done|]. split; [done|]. cbn in Hc'. rewrite Hc', len_cons. lia.
Qed.

(** C34. Removing the least recently used of several elements breaks the cache.
    After any [get]s and [insert]s of absent keys on a new cache that leave two or
    more elements, [remove] of the one that was not used for longest returns its
    value, and elements can be inserted until the cache is full again; but the
    next [insert], which has to evict one, panics. ([head.prev] still is the
    removed node; without [remove] the cache evicts forever,
    [Cache_refines_lru].) *)
Theorem Cache_remove_last_breaks n (ops : list (cache_op T)) s c outs c' key v new k w :
  Cache_new n = Done c → lru_run n ([], []) ops = Some s → cache_run c ops = Done (outs, c') →
  last s.2 = Some (key, v) → 2 ≤ len s.2 → len new = n - (len s.2 - 1) →
  ∃ c1 c2, cache_remove c' key = Done (Some v, c1) ∧ inserts new c1 = Done c2 ∧ cache_insert c2 k w = Panic.
Proof.
  intros Hnew Hrun Hc Hlast H2 Hfill. destruct (cache_rep_new n c Hnew) as [Hr Hcap]. rewrite <- Hcap in Hrun.
  destruct (cache_run_ok c [] ops [] _ Hr Hrun) as (c0&Hc0&(es&Hes&Hp)&Hcap0).
  unfold cache_run in Hc. rewrite Hc in Hc0. injection Hc0 as _ <-. rewrite <- Hp in *. clear Hp.
  rewrite len_fmap in *. destruct es as [|[[p k0] v0] es _] using rev_ind; [done|].
  rewrite fmap_app in Hlast. cbn [fmap list_fmap fst snd] in Hlast. rewrite last_snoc in Hlast. injection Hlast as -> ->.
  destruct es as [|[[q kq] vq] es _] using rev_ind; [done|].
  assert (Hin : (p, key, v) ∈ (es ++ [(q, kq, vq)]) ++ [(p, key, v)]).
  { apply elem_of_app. right. by apply list_elem_of_singleton. }
  apply (er_map _ _ Hes) in Hin. unfold cache_remove. rewrite Hin.
  pose proof (er_list _ _ Hes) as Hl. rewrite !fmap_app in Hl. cbn [fmap list_fmap fst snd] in Hl.
  destruct (list_remove_last _ _ _ _ _ Hl) as (l1&->&Hcount&Hstuck). cbn [bind].
  pose proof (cache_count_ok _ _ Hes) as Hlen. unfold cache_count, LRUList_count in Hlen. rewrite Hlen in Hcount.
  destruct (inserts_stuck new (mkCache l1 (delete key (cache_map c')) (cap c') (cache_id c')) p _ Hstuck)
    as (c2&Hins&Hs2&Hcap2&Hc2). { cbn. lia. }
  eexists _, c2. split; [done|]. split; [exact Hins|]. unfold cache_insert, LRUList_count.
  cbn in Hc2, Hcap2. rewrite (proj2 (Z.leb_le _ _)) by lia.
  destruct (remove_last_stuck _ _ _ Hs2) as (l'&->). done.
Qed.
End remove_last_element.

(** *** Where [remove] and a second [insert] go wrong

    Scripts on a cache of two elements. *)

Definition script_key (i : Z) : CacheKey := [z2b i].

Inductive cache_call := CInsert (k v : Z) | CGet (k : Z) | CRemove (k : Z).

(** Run calls in order; the result is what the last [get] or [remove] returned. *)
Definition run_calls (capacity : Z) (calls : list cache_call) : outcome (option Z) :=
  let! c := Cache_new capacity in
  let! (r, _) := foldM (λ call s,
      match call with
      | CInsert k v => let! c := cache_insert s.2 (script_key k) v in Done (s.1, c)
      | CGet k => cache_get s.2 (script_key k)
      | CRemove k => cache_remove s.2 (script_key k)
      end) calls (None, c) in
  Done r.

(** [LRUList::remove] does not unlink a node that has a successor and
    leaves [head.prev] on a removed last node. With a capacity of two: after the
    older of two elements is removed, refilling the cache panics; after the newer
    one is removed, the next eviction frees the node of an element that is still
    in the map, and getting that element reads freed memory. Inserting a key
    twice also makes a later eviction panic. *)
Example Cache_remove_breaks_list :
  run_calls 2 [CInsert 1 10; CInsert 2 20; CRemove 1; CInsert 3 30; CInsert 4 40] = Panic ∧
  run_calls 2 [CInsert 1 10; CInsert 2 20; CRemove 2; CInsert 3 30; CInsert 4 40] = Done (Some 20) ∧
  run_calls 2 [CInsert 1 10; CInsert 2 20; CRemove 2; CInsert 3 30; CInsert 4 40; CGet 1] = Undef ∧
  run_calls 2 [CInsert 1 10; CInsert 1 11; CInsert 2 20; CInsert 3 30] = Panic.
Proof. by vm_compute. Qed.
