(* ===== verification/TableFormat.v ===== *)
(** * The table format: footer and stored blocks (table_builder.rs, table_block.rs)

    [Footer], and the reading of a stored block: contents, compression byte and
    masked checksum, at the place a handle names. *)

From stdpp Require Export pretty.
From S2P Require Export Types BlockHandle Block FilterBlock.

Definition FOOTER_LENGTH : Z := 40.
Definition FULL_FOOTER_LENGTH : Z := FOOTER_LENGTH + 8.
Definition MAGIC_FOOTER_ENCODED : bytes := [x57; xfb; x80; x8b; x24; x75; x47; xdb].

Definition TABLE_BLOCK_COMPRESS_LEN : Z := 1.
Definition TABLE_BLOCK_CKSUM_LEN : Z := 4.

(** ** Footer *)

Record Footer := mkFooter { meta_index : BlockHandle; f_index : BlockHandle }.

Definition Footer_new (metaix index : BlockHandle) : Footer := mkFooter metaix index.

(** [for i in i..stop { to[i] = f(i) }], [n] iterations *)
Fixpoint fill_loop (n : nat) (i : Z) (f : Z → outcome byte) (to : bytes) : outcome bytes :=
  match n with
  | O => Done to
  | S n =>
      let! b := f i in
      let! to := set_index to i b in
      fill_loop n (i + 1) f to
  end.

Section format.
Context `{E : IntegerEncoding, !Crc32c, !Snappy}.

Definition Footer_decode (from : bytes) : outcome Footer :=
  assert! FULL_FOOTER_LENGTH <=? len from in
  let! magic := slice_from from FOOTER_LENGTH in
  assert! bool_decide (magic = MAGIC_FOOTER_ENCODED) in
  let! (meta, metalen) := BlockHandle_decode from in
  let! rest := slice_from from metalen in
  let! (ix, _) := BlockHandle_decode rest in
  Done (mkFooter meta ix).

(** [self.index.encode_to(&mut to[s1..])] writes into the tail of [to]. *)
Definition Footer_encode (self : Footer) (to : bytes) : outcome bytes :=
  assert! FOOTER_LENGTH + 8 <=? len to in
  let! (to, s1) := BlockHandle_encode_to (meta_index self) to in
  let! front := slice to 0 s1 in
  let! tail := slice_from to s1 in
  let! (tail, s2) := BlockHandle_encode_to (f_index self) tail in
  let to := front ++ tail in
  let! to := fill_loop (Z.to_nat (FOOTER_LENGTH - (s1 + s2))) (s1 + s2) (λ _, Done x00) to in
  fill_loop (Z.to_nat (FULL_FOOTER_LENGTH - FOOTER_LENGTH)) FOOTER_LENGTH
    (λ i, index MAGIC_FOOTER_ENCODED (i - FOOTER_LENGTH)) to.

(** ** Reading blocks *)

(** The size comes from the file. What [vec![0; size]] does when there is no memory
    for it, or when it is beyond [isize::MAX], is left out: allocation succeeds. *)
Definition read_bytes (f : RandomAccess) (location : BlockHandle) : outcome (result bytes) :=
  let buf := replicate (Z.to_nat (bh_size location)) x00 in
  let? (_, buf) := read_at f (bh_offset location) buf in
  Done (Ok buf).

Definition read_filter_block (src : RandomAccess) (location : BlockHandle) (policy : FilterPolicy) :
    outcome (result FilterBlockReader) :=
  if bh_size location =? 0 then
    Done (err InvalidArgument "no filter block in empty location")
  else
    let? buf := read_bytes src location in
    let! r := FilterBlockReader_new_owned policy buf in
    Done (Ok r).

Definition verify_table_block (data : bytes) (compression : byte) (want : Z) : bool :=
  crc32c (data ++ [compression]) =? want.

(** [Vec::split_off]: what is left and what was split off *)
Definition split_off (v : bytes) (at_ : Z) : outcome (bytes * bytes) :=
  let! front := slice v 0 at_ in
  let! back := slice_from v at_ in
  Done (front, back).

Definition read_table_block (opt : Options) (f : RandomAccess) (location : BlockHandle) :
    outcome (result Block) :=
  let block_data_size := bh_size location in
  let! sz := uadd block_data_size TABLE_BLOCK_CKSUM_LEN in
  let! sz := uadd sz TABLE_BLOCK_COMPRESS_LEN in
  let location := BlockHandle_new (bh_offset location) sz in
  let? buf := read_bytes f location in
  let! (buf, compress) := split_off buf block_data_size in
  let! (compress, cksum) := split_off compress TABLE_BLOCK_COMPRESS_LEN in
  let! c0 := index compress 0 in
  if negb (verify_table_block buf c0 (unmask_crc (decode_fixed32 cksum))) then
    Done (err Corruption ("checksum verification failed for block at " +:+ pretty (bh_offset location))%string)
  else
    match int_to_compressiontype (b2z c0) with
    | Some CompressionNone => let! b := Block_new opt buf in Done (Ok b)
    | Some CompressionSnappy =>
        match decompress_vec buf with
        | inl decoded => let! b := Block_new opt decoded in Done (Ok b)
        | inr e => Done (Err (from_snap_Error e))
        end
    | None => Done (err InvalidData "invalid compression type")
    end.
End format.
