(* ===== verification/TableBuilder.v ===== *)
(** * The table builder (src/table_builder.rs)

    Groups sorted pairs into data blocks, writes them with checksums to a
    destination, and ends the table with filter, metaindex and index blocks and
    the footer. *)

From Stdlib Require Strings.String.
From S2P Require Export TableFormat BlockBuilder.

(** ** Destinations

    [std::io::Write] as the code uses it: [write] may write less than it was
    given and returns how much it wrote. *)
Class Write (Dst : Type) := {
  write : Dst → bytes → outcome ((Z + io_Error) * Dst);
  flush : Dst → outcome ((unit + io_Error) * Dst);
}.

(** [impl Write for Vec<u8>] appends everything. *)
#[export] Instance Vec_Write : Write bytes := {
  write v data := Done (inl (len data), v ++ data);
  flush v := Done (inl tt, v);
}.

(** [FixedIntWriter::write_fixedint] of the integer-encoding crate at [u32], over a
    writer; on a vector it appends the encoding. *)
Class FixedIntWriter (Dst : Type) := {
  write_fixedint32 : Dst → Z → outcome ((Z + io_Error) * Dst);
}.

#[export] Instance Vec_FixedIntWriter `{E : IntegerEncoding} : FixedIntWriter bytes := {
  write_fixedint32 v x := Done (inl (len (encode_fixed32 x)), v ++ encode_fixed32 x);
}.

(** *** [?] in a method with [&mut self]: the state is kept when the error is
    returned. *)
Definition st_bind {S A B} (m : outcome (result A * S)) (k : A → S → outcome (result B * S)) :
    outcome (result B * S) :=
  let! (r, s) := m in
  match r with
  | Ok a => k a s
  | Err e => Done (Err e, s)
  end.

Notation "'try!' x ',' s ':=' m 'in' k" := (st_bind m (λ x s, k))
  (at level 10, x pattern, s name, m at level 200, k at level 200,
   format "'[v' 'try!'  x ',' s  ':='  m  'in'  '/' k ']'") : rust_scope.

Record TableBuilder (Dst : Type) := mkTableBuilder {
  tb_opt : Options;
  dst : Dst;
  tb_offset : Z;
  num_entries : Z;
  prev_block_last_key : bytes;
  data_block : option BlockBuilder;
  index_block : option BlockBuilder;
  filter_block : option FilterBlockBuilder;
}.
Arguments mkTableBuilder {Dst}.
Arguments tb_opt {Dst} t.
Arguments dst {Dst} t.
Arguments tb_offset {Dst} t.
Arguments num_entries {Dst} t.
Arguments prev_block_last_key {Dst} t.
Arguments data_block {Dst} t.
Arguments index_block {Dst} t.
Arguments filter_block {Dst} t.

Section TableBuilder.
Context `{E : IntegerEncoding, !Crc32c, !Snappy} {Dst : Type} `{W : !Write Dst, FW : !FixedIntWriter Dst}.
Implicit Types self : TableBuilder Dst.

(** Field updates. *)
Definition set_dst self (x : Dst) := mkTableBuilder (tb_opt self) x (tb_offset self) (num_entries self)
  (prev_block_last_key self) (data_block self) (index_block self) (filter_block self).
Definition set_tb_offset self x := mkTableBuilder (tb_opt self) (dst self) x (num_entries self)
  (prev_block_last_key self) (data_block self) (index_block self) (filter_block self).
Definition set_num_entries self x := mkTableBuilder (tb_opt self) (dst self) (tb_offset self) x
  (prev_block_last_key self) (data_block self) (index_block self) (filter_block self).
Definition set_prev_key self x := mkTableBuilder (tb_opt self) (dst self) (tb_offset self)
  (num_entries self) x (data_block self) (index_block self) (filter_block self).
Definition set_data_block self x := mkTableBuilder (tb_opt self) (dst self) (tb_offset self)
  (num_entries self) (prev_block_last_key self) x (index_block self) (filter_block self).
Definition set_index_block self x := mkTableBuilder (tb_opt self) (dst self) (tb_offset self)
  (num_entries self) (prev_block_last_key self) (data_block self) x (filter_block self).
Definition set_filter_block self x := mkTableBuilder (tb_opt self) (dst self) (tb_offset self)
  (num_entries self) (prev_block_last_key self) (data_block self) (index_block self) x.

Definition TableBuilder_new (opt : Options) (dst : Dst) : TableBuilder Dst :=
  mkTableBuilder opt dst 0 0 [] (Some (BlockBuilder_new opt)) (Some (BlockBuilder_new opt))
    (Some (FilterBlockBuilder_new (filter_policy opt))).

Definition new_no_filter (opt : Options) (dst : Dst) : TableBuilder Dst :=
  TableBuilder_new (mkOptions (opt_cmp opt) (write_buffer_size opt) (block_size opt)
    (block_restart_interval opt) (compression_type opt) NoFilterPolicy) dst.

Definition tb_entries self : Z := num_entries self.

Definition tb_size_estimate self : Z :=
  from_option bb_size_estimate 0 (data_block self) +
  from_option bb_size_estimate 0 (index_block self) +
  from_option fb_size_estimate 0 (filter_block self) +
  tb_offset self + FULL_FOOTER_LENGTH.

(** [?] on the outcome of an operation of the destination *)
Definition io_result {A} self (m : outcome ((A + io_Error) * Dst)) : outcome (result A * TableBuilder Dst) :=
  let! (r, d) := m in
  match r with
  | inl a => Done (Ok a, set_dst self d)
  | inr e => Done (Err (from_io_Error e), set_dst self d)
  end.

(** [self.dst.write(data)?] *)
Definition tb_write self (data : bytes) : outcome (result Z * TableBuilder Dst) :=
  io_result self (write (dst self) data).

(** [self.dst.write_fixedint(x)?] *)
Definition tb_write_fixedint self (x : Z) : outcome (result Z * TableBuilder Dst) :=
  io_result self (write_fixedint32 (dst self) x).

Definition tb_flush self : outcome (result unit * TableBuilder Dst) :=
  io_result self (flush (dst self)).

Definition ctype_byte (c : CompressionType) : byte := z2b (compressiontype_to_int c).

Definition compress (ctype : CompressionType) (block : bytes) : result bytes :=
  if decide (ctype = CompressionSnappy) then
    match compress_vec block with
    | inl data => Ok data
    | inr e => Err (from_snap_Error e)
    end
  else Ok block.

Definition write_block self (block : bytes) (ctype : CompressionType) :
    outcome (result BlockHandle * TableBuilder Dst) :=
  try! data, self := Done (compress ctype block, self) in
  let crc := crc32c (data ++ [ctype_byte ctype]) in
  try! _, self := tb_write self data in
  try! _, self := tb_write self [ctype_byte ctype] in
  try! _, self := tb_write_fixedint self (mask_crc crc) in
  let handle := BlockHandle_new (tb_offset self) (len data) in
  let! off := uadd (tb_offset self) (len data + TABLE_BLOCK_COMPRESS_LEN + TABLE_BLOCK_CKSUM_LEN) in
  Done (Ok handle, set_tb_offset self off).

(** [let mut handle_enc = [0; 16]; let enc_len = handle.encode_to(..);
    &handle_enc[0..enc_len]] *)
Definition encode_handle (handle : BlockHandle) : outcome bytes :=
  let! (handle_enc, enc_len) := BlockHandle_encode_to handle (replicate 16 x00) in
  slice handle_enc 0 enc_len.

Definition unwrap_block {A} (o : option A) : outcome A :=
  match o with
  | Some a => Done a
  | None => Panic
  end.

Definition write_data_block self (next_key : bytes) : outcome (result unit * TableBuilder Dst) :=
  let! block := unwrap_block (data_block self) in
  let self := set_data_block self None in
  let! sep := find_shortest_sep (opt_cmp (tb_opt self)) (last_key block) next_key in
  let self := set_prev_key self (last_key block) in
  let contents := bb_finish block in
  let ctype := compression_type (tb_opt self) in
  try! handle, self := write_block self contents ctype in
  let! handle_enc := encode_handle handle in
  let! ib := unwrap_block (index_block self) in
  let! ib := bb_add ib sep handle_enc in
  let self := set_index_block self (Some ib) in
  let self := set_data_block self (Some (BlockBuilder_new (tb_opt self))) in
  match filter_block self with
  | Some fblock =>
      let! fblock := start_block (tb_offset self) fblock in
      Done (Ok tt, set_filter_block self (Some fblock))
  | None => Done (Ok tt, self)
  end.

Definition tb_add self (key val : bytes) : outcome (result unit * TableBuilder Dst) :=
  let! db := unwrap_block (data_block self) in
  assert! bool_decide (prev_block_last_key self = []) ||
          is_lt (cmp (opt_cmp (tb_opt self)) (prev_block_last_key self) key) in
  try! _, self :=
    if block_size (tb_opt self) <? bb_size_estimate db then write_data_block self key
    else Done (Ok tt, self) in
  let! dblock := unwrap_block (data_block self) in
  let self := set_filter_block self (fb_add_key key <$> filter_block self) in
  let self := set_num_entries self (num_entries self + 1) in
  let! dblock := bb_add dblock key val in
  Done (Ok tt, set_data_block self (Some dblock)).

(** [format!("filter.{}", name).as_bytes()] *)
Definition filter_key (name : string) : bytes := String.list_byte_of_string ("filter." +:+ name)%string.

(** [finish] consumes the builder; the state it ends in has the destination. *)
Definition tb_finish self : outcome (result Z * TableBuilder Dst) :=
  let! db := unwrap_block (data_block self) in
  let ctype := compression_type (tb_opt self) in
  try! _, self :=
    if 0 <? entries db then
      let! key_past_last := find_short_succ (opt_cmp (tb_opt self)) (last_key db) in
      write_data_block self key_past_last
    else Done (Ok tt, self) in
  let meta_ix_block := BlockBuilder_new (tb_opt self) in
  try! meta_ix_block, self :=
    match filter_block self with
    | Some fblock =>
        let self := set_filter_block self None in
        let key := filter_key (filter_name fblock) in
        let! fblock_data := fb_finish fblock in
        try! fblock_handle, self := write_block self fblock_data CompressionNone in
        let! handle_enc := encode_handle fblock_handle in
        let! m := bb_add meta_ix_block key handle_enc in
        Done (Ok m, self)
    | None => Done (Ok meta_ix_block, self)
    end in
  let meta_ix := bb_finish meta_ix_block in
  try! meta_ix_handle, self := write_block self meta_ix ctype in
  let! ib := unwrap_block (index_block self) in
  let self := set_index_block self None in
  let index_cont := bb_finish ib in
  try! ix_handle, self := write_block self index_cont ctype in
  let footer := Footer_new meta_ix_handle ix_handle in
  let! buf := Footer_encode footer (replicate (Z.to_nat FULL_FOOTER_LENGTH) x00) in
  try! n, self := tb_write self buf in
  let! off := uadd (tb_offset self) n in
  let self := set_tb_offset self off in
  try! _, self := tb_flush self in
  Done (Ok (tb_offset self), self).
End TableBuilder.
