(* ===== verification/TableFormatProofs.v ===== *)
(** * Footers and stored blocks read back (table_builder.rs with table_block.rs) *)

From S2P Require Export TableFormat TableBuilder.

Section proofs.
Context `{E : IntegerEncoding, !IntegerEncodingSpec E, C : Crc32c, !Crc32cSpec C, S : Snappy, !SnappySpec S}.

(** ** Footer *)

(** [k] bytes written one by one over the middle of a buffer. *)
Lemma fill_loop_spec n i f (p m r bs : bytes) :
  len p = i → length m = n → length bs = n →
  (∀ k b, bs !! k = Some b → f (i + Z.of_nat k) = Done b) →
  fill_loop n i f (p ++ m ++ r) = Done (p ++ bs ++ r).
Proof.
  revert i p m bs. induction n as [|n IH]; intros i p m bs Hp Hm Hbs Hf.
  - by destruct m, bs.
  - destruct m as [|x m]; [done|]. destruct bs as [|b bs]; [done|]. cbn [fill_loop].
    pose proof (Hf 0%nat b eq_refl) as H0. rewrite Z.add_0_r in H0. rewrite H0. cbn [bind].
    unfold set_index. rewrite (proj2 (Z.leb_le _ _)), (proj2 (Z.ltb_lt _ _)).
    2: { rewrite !len_app. cbn [app]. rewrite len_cons. pose proof (len_nonneg (m ++ r)).
         rewrite len_app in *. lia. }
    2: { rewrite <- Hp. apply len_nonneg. }
    cbn [andb bind]. rewrite <- Hp, len_to_nat. cbn [app].
    rewrite <- (Nat.add_0_r (length p)), insert_app_r. cbn [insert list_insert].
    assert (Hsnoc : ∀ l, p ++ b :: l = (p ++ [b]) ++ l) by (intros l; by rewrite <- app_assoc).
    rewrite (Hsnoc (m ++ r)), (Hsnoc (bs ++ r)). apply IH; [rewrite len_app; change (len [b]) with 1; lia|simpl in *; lia|simpl in *; lia|].
    intros k b' Hk. rewrite <- (Hf (Datatypes.S k) b' Hk). f_equal. lia.
Qed.

Definition wf_footer (f : Footer) : Prop :=
  wf_handle (meta_index f) ∧ wf_handle (f_index f) ∧
  len (handle_bytes (meta_index f)) + len (handle_bytes (f_index f)) ≤ FOOTER_LENGTH.

(** The 48 bytes of a footer. *)
Definition footer_bytes (f : Footer) : bytes :=
  let hs := handle_bytes (meta_index f) ++ handle_bytes (f_index f) in
  hs ++ replicate (Z.to_nat (FOOTER_LENGTH - len hs)) x00 ++ MAGIC_FOOTER_ENCODED.

Lemma len_footer_bytes f : wf_footer f → len (footer_bytes f) = FULL_FOOTER_LENGTH.
Proof.
  intros (_&_&Hl). unfold footer_bytes. rewrite !len_app. change (len MAGIC_FOOTER_ENCODED) with 8.
  unfold len at 3. rewrite length_replicate. unfold FULL_FOOTER_LENGTH, FOOTER_LENGTH in *. lia.
Qed.

Lemma Footer_encode_ok f dst :
  wf_footer f → FULL_FOOTER_LENGTH ≤ len dst →
  Footer_encode f dst = Done (footer_bytes f ++ drop (Z.to_nat FULL_FOOTER_LENGTH) dst).
Proof.
  intros (Hm&Hi&Hl) Hdst. unfold Footer_encode. unfold FULL_FOOTER_LENGTH, FOOTER_LENGTH in *.
  rewrite (proj2 (Z.leb_le _ _)) by lia.
  set (hm := handle_bytes (meta_index f)) in *. set (hi := handle_bytes (f_index f)) in *.
  pose proof (len_nonneg hm). pose proof (len_nonneg hi).
  rewrite BlockHandle_encode_to_Done by (done || (fold hm; lia)). cbn [bind]. fold hm.
  set (d1 := drop (length hm) dst). assert (Hd1 : len d1 = len dst - len hm).
  { unfold d1, len in *. rewrite length_drop. lia. }
  pose proof (slice_mid [] hm d1 0 (len hm) eq_refl eq_refl) as Hs. cbn [app] in Hs. rewrite Hs. cbn [bind].
  rewrite slice_from_app by done. cbn [bind].
  rewrite BlockHandle_encode_to_Done by (done || (fold hi; lia)). cbn [bind]. fold hi.
  set (d2 := drop (length hi) d1). assert (Hd2 : len d2 = len dst - len hm - len hi).
  { unfold d2, len in *. rewrite length_drop. lia. }
  set (npad := Z.to_nat (40 - (len hm + len hi))).
  rewrite <- (take_drop npad d2). set (d3 := drop npad d2).
  assert (Hd3 : len d3 = len dst - 40).
  { unfold d3, npad, len in *. rewrite length_drop. lia. }
  assert (Ht : length (take npad d2) = npad).
  { rewrite length_take. unfold npad, len in *. lia. }
  rewrite (app_assoc hm), (fill_loop_spec npad _ _ (hm ++ hi) (take npad d2) d3 (replicate npad x00)).
  2: by rewrite len_app.
  2: done.
  2: apply length_replicate.
  2: { intros k b [-> _]%lookup_replicate. done. }
  cbn [bind]. rewrite <- (take_drop 8 d3).
  assert (Ht8 : length (take 8 d3) = 8%nat).
  { rewrite length_take. unfold len in *. lia. }
  rewrite (app_assoc (hm ++ hi)).
  rewrite (fill_loop_spec (Z.to_nat (40 + 8 - 40)) 40 _ ((hm ++ hi) ++ replicate npad x00)
    (take 8 d3) (drop 8 d3) MAGIC_FOOTER_ENCODED).
  - unfold footer_bytes. fold hm hi. f_equal. rewrite <- !app_assoc. do 2 f_equal.
    rewrite len_app. unfold FOOTER_LENGTH. fold npad. do 2 f_equal.
    unfold d3, d2, d1. rewrite !drop_drop. f_equal. unfold npad, len in *. lia.
  - rewrite !len_app. unfold len at 3. rewrite length_replicate. unfold npad. lia.
  - done.
  - done.
  - intros k b Hk. unfold FOOTER_LENGTH. rewrite Z.add_simpl_l. by apply index_Done.
Qed.

Lemma Footer_decode_ok f : wf_footer f → Footer_decode (footer_bytes f) = Done f.
Proof.
  intros Hf. pose proof (len_footer_bytes f Hf) as Hlen. unfold Footer_decode.
  rewrite Hlen, Z.leb_refl. unfold footer_bytes in *. destruct Hf as (Hm&Hi&Hl).
  rewrite app_assoc, slice_from_app.
  2: { rewrite !len_app in *. change (len MAGIC_FOOTER_ENCODED) with 8 in *.
       unfold FULL_FOOTER_LENGTH in *. lia. }
  cbn [bind]. rewrite bool_decide_eq_true_2 by done.
  rewrite <- !app_assoc, BlockHandle_decode_bytes by done. cbn [bind].
  rewrite slice_from_app by done. cbn [bind]. rewrite BlockHandle_decode_bytes by done. cbn [bind].
  by destruct f.
Qed.

(** ** Reading from a file in memory *)

Lemma read_at_mid (p m r buf : bytes) :
  length buf = length m →
  read_at (BufferBackedFile (p ++ m ++ r)) (len p) buf = Done (Ok (len m, m)).
Proof.
  intros Hbuf. cbn [read_at BufferBackedFile]. unfold BufferBackedFile_read_at.
  pose proof (len_nonneg m). pose proof (len_nonneg r). pose proof (len_nonneg p).
  rewrite !len_app. rewrite (proj2 (Z.ltb_ge _ _)), usub_Done by lia. cbn [bind].
  assert (len buf = len m) as -> by (unfold len; lia).
  rewrite (proj2 (Z.ltb_ge _ _)), slice_mid by lia. cbn [bind].
  by rewrite len_to_nat, <- Hbuf, drop_all, app_nil_r.
Qed.

Lemma read_bytes_mid (p m r : bytes) :
  read_bytes (BufferBackedFile (p ++ m ++ r)) (mkBlockHandle (len p) (len m)) = Done (Ok m).
Proof.
  unfold read_bytes. cbn [bh_offset bh_size]. unfold try_bind.
  rewrite read_at_mid by (rewrite length_replicate; apply len_to_nat). done.
Qed.

(** ** Stored blocks *)

(** What [write_block] writes for contents that compress to [data]. *)
Definition stored (ctype : CompressionType) (data : bytes) : bytes :=
  data ++ [ctype_byte ctype] ++ encode_fixed32 (mask_crc (crc32c (data ++ [ctype_byte ctype]))).

Lemma len_stored ctype data : len (stored ctype data) = len data + 5.
Proof. unfold stored. rewrite !len_app, encode_fixed32_len. done. Qed.

Lemma b2z_ctype_byte ctype : b2z (ctype_byte ctype) = compressiontype_to_int ctype.
Proof. by destruct ctype. Qed.

(** The checksum of what was stored is accepted. *)
Lemma unmask_stored bs : unmask_crc (decode_fixed32 (encode_fixed32 (mask_crc (crc32c bs)))) = crc32c bs.
Proof.
  pose proof (crc32c_range bs) as Hr. rewrite decode_encode_fixed32; [by apply unmask_mask|].
  apply as_u32_range.
Qed.

Lemma split_off_app (p r : bytes) n : n = len p → split_off (p ++ r) n = Done (p, r).
Proof.
  intros ->. unfold split_off. pose proof (slice_mid [] p r 0 (len p) eq_refl eq_refl) as Hs.
  cbn [app] in Hs. rewrite Hs. cbn [bind]. by rewrite slice_from_app.
Qed.

(** [data] is what a block with these contents may be stored as. *)
Definition unpacks (ctype : CompressionType) (data contents : bytes) : Prop :=
  match ctype with
  | CompressionNone => data = contents
  | CompressionSnappy => decompress_vec data = inl contents
  end.

Lemma compress_unpacks ctype contents data : compress ctype contents = Ok data → unpacks ctype data contents.
Proof.
  unfold compress, unpacks. destruct ctype.
  - rewrite decide_False by done. by intros [= ->].
  - rewrite decide_True by done. destruct (compress_vec contents) eqn:Hcv; [|done]. intros [= <-].
    by apply decompress_compress.
Qed.

(** The block with these contents is in [file] at [h], with its type and checksum. *)
Definition stored_at (file : bytes) (h : BlockHandle) (contents : bytes) : Prop :=
  ∃ p r ctype data, file = p ++ stored ctype data ++ r ∧ h = mkBlockHandle (len p) (len data) ∧
    unpacks ctype data contents.

Lemma stored_at_mid p r ctype contents data h :
  compress ctype contents = Ok data → h = mkBlockHandle (len p) (len data) →
  stored_at (p ++ stored ctype data ++ r) h contents.
Proof. intros Hc ->. exists p, r, ctype, data. split; [done|]. split; [done|]. by apply compress_unpacks. Qed.

Lemma read_stored_at o file h contents :
  stored_at file h contents → 4 < len contents → bh_size h + 5 < U64 →
  read_table_block o (BufferBackedFile file) h = Done (Ok (mkBlock contents o)).
Proof.
  intros (p&r&ctype&data&->&->&Hc) Hlen Hsz. unfold read_table_block. cbn [bh_offset bh_size] in *.
  unfold TABLE_BLOCK_CKSUM_LEN, TABLE_BLOCK_COMPRESS_LEN.
  rewrite uadd_Done by lia. cbn [bind]. rewrite uadd_Done by lia. cbn [bind]. unfold BlockHandle_new.
  replace (len data + 4 + 1) with (len (stored ctype data)) by (rewrite len_stored; lia).
  unfold try_bind. rewrite read_bytes_mid. cbn [bind]. unfold stored at 1.
  rewrite split_off_app by done. cbn [bind]. rewrite split_off_app by done. cbn [bind].
  change (index [ctype_byte ctype] 0) with (Done (ctype_byte ctype)). cbn [bind].
  unfold verify_table_block. rewrite unmask_stored, Z.eqb_refl. cbn [negb].
  rewrite b2z_ctype_byte, (proj2 (compressiontype_roundtrip ctype _) eq_refl).
  assert (Hnew : ∀ bs, bs = contents → Block_new o bs = Done (mkBlock contents o)).
  { intros bs ->. unfold Block_new. by rewrite (proj2 (Z.ltb_lt _ _)) by lia. }
  destruct ctype; cbn [unpacks] in Hc; [by rewrite Hnew|rewrite Hc; by rewrite Hnew].
Qed.
End proofs.

(** ** Writing blocks to a vector *)

Section write_block.
Context `{E : IntegerEncoding, !IntegerEncodingSpec E, C : Crc32c, !Crc32cSpec C, S : Snappy, !SnappySpec S}.
Implicit Types b : TableBuilder bytes.

(** The builder after [bs] was appended to its destination. *)
Definition written b (bs : bytes) : TableBuilder bytes :=
  set_tb_offset (set_dst b (dst b ++ bs)) (tb_offset b + len bs).

Lemma tb_write_vec b bs : tb_write b bs = Done (Ok (len bs), set_dst b (dst b ++ bs)).
Proof. done. Qed.

Lemma tb_write_fixedint_vec b x :
  tb_write_fixedint b x = Done (Ok (len (encode_fixed32 x)), set_dst b (dst b ++ encode_fixed32 x)).
Proof. done. Qed.

Lemma write_block_eq b contents ctype data :
  compress ctype contents = Ok data →
  write_block b contents ctype =
    let! _ := uadd (tb_offset b) (len data + 5) in
    Done (Ok (mkBlockHandle (tb_offset b) (len data)), written b (stored ctype data)).
Proof.
  intros Hc. unfold write_block. rewrite Hc. unfold st_bind. cbn [bind].
  rewrite tb_write_vec. cbn [bind]. rewrite tb_write_vec. cbn [bind].
  rewrite tb_write_fixedint_vec. cbn [bind].
  unfold TABLE_BLOCK_COMPRESS_LEN, TABLE_BLOCK_CKSUM_LEN. cbn [tb_offset set_dst].
  replace (len data + 1 + 4) with (len data + 5) by lia.
  destruct (uadd (tb_offset b) (len data + 5)) as [off|] eqn:Ho; [|done]. cbn [bind].
  apply uadd_inv in Ho as [-> _]. unfold written. rewrite len_stored. do 3 f_equal.
  unfold set_tb_offset, set_dst, stored. cbn. by rewrite <- !app_assoc.
Qed.

(** A write that succeeded, taken apart. *)
Lemma write_block_inv b contents ctype h b' :
  write_block b contents ctype = Done (Ok h, b') →
  ∃ data, compress ctype contents = Ok data ∧ tb_offset b + (len data + 5) < U64 ∧
    h = mkBlockHandle (tb_offset b) (len data) ∧ b' = written b (stored ctype data).
Proof.
  intros H. destruct (compress ctype contents) as [data|e] eqn:Hc.
  - rewrite (write_block_eq b contents ctype data Hc) in H.
    apply bind_Done in H as (off&[-> ?]%uadd_inv&[= <- <-]). by exists data.
  - unfold write_block in H. by rewrite Hc in H.
Qed.

Lemma write_block_ok b contents ctype data :
  compress ctype contents = Ok data → tb_offset b + (len data + 5) < U64 →
  write_block b contents ctype =
    Done (Ok (mkBlockHandle (tb_offset b) (len data)), written b (stored ctype data)).
Proof. intros Hc Hsz. rewrite (write_block_eq b contents ctype data Hc). by rewrite uadd_Done. Qed.
End write_block.

(** ** Properties *)

Section properties.
Context `{E : IntegerEncoding, !IntegerEncodingSpec E, C : Crc32c, !Crc32cSpec C, S : Snappy, !SnappySpec S}.

(** C28. A footer whose handles fit in its 40 bytes is written into the
    first 48 bytes of a buffer, leaves the rest of it alone, and is read back
    from these 48 bytes. *)
Theorem Footer_roundtrip f buf :
  wf_footer f → FULL_FOOTER_LENGTH ≤ len buf →
  ∃ buf', Footer_encode f buf = Done buf' ∧ len buf' = len buf ∧
    drop (Z.to_nat FULL_FOOTER_LENGTH) buf' = drop (Z.to_nat FULL_FOOTER_LENGTH) buf ∧
    Footer_decode (take (Z.to_nat FULL_FOOTER_LENGTH) buf') = Done f.
Proof.
  intros Hf Hbuf. eexists. split; [by apply Footer_encode_ok|].
  pose proof (len_footer_bytes f Hf) as Hlen.
  assert (Hnat : length (footer_bytes f) = Z.to_nat FULL_FOOTER_LENGTH) by (unfold len in Hlen; lia).
  rewrite <- Hnat, drop_app_length, take_app_length. split; [|split; [done|by apply Footer_decode_ok]].
  rewrite len_app, Hlen. unfold len in *. rewrite length_drop. lia.
Qed.

(** C24. A block that [write_block] stored is read back by
    [read_table_block] from the handle it returned, compressed or not,
    whatever is written behind it. *)
Theorem table_block_roundtrip o (b b' : TableBuilder bytes) contents ctype h rest :
  write_block b contents ctype = Done (Ok h, b') → tb_offset b = len (dst b) → 4 < len contents →
  read_table_block o (BufferBackedFile (dst b' ++ rest)) h = Done (Ok (mkBlock contents o)) ∧
  tb_offset b' = len (dst b').
Proof.
  intros Hw Hoff Hlen. apply write_block_inv in Hw as (data&Hc&Hsz&->&->).
  pose proof (len_nonneg (dst b)). split; cbn.
  - rewrite <- app_assoc. apply read_stored_at; [|done|cbn; lia]. by eapply stored_at_mid; [|by rewrite Hoff].
  - by rewrite Hoff, len_app.
Qed.

(** C23. [read_table_block] never hands out a block whose checksum does not
    match: when the bytes it read are contents, compression byte and checksum,
    a mismatch is a [Corruption] error, and a block that is returned has a
    matching checksum and is the stored contents, decompressed if the byte
    says so. *)
Theorem read_table_block_verifies o f h n data c ck :
  0 ≤ bh_size h → bh_size h + 5 < U64 → len data = bh_size h → len ck = 4 →
  read_at f (bh_offset h) (replicate (Z.to_nat (bh_size h + 5)) x00) = Done (Ok (n, data ++ [c] ++ ck)) →
  (crc32c (data ++ [c]) ≠ unmask_crc (decode_fixed32 ck) →
     ∃ msg, read_table_block o f h = Done (err Corruption msg)) ∧
  (∀ b, read_table_block o f h = Done (Ok b) →
     crc32c (data ++ [c]) = unmask_crc (decode_fixed32 ck) ∧
     (b2z c = 0 ∧ block_contents b = data ∨
      b2z c = 1 ∧ decompress_vec data = inl (block_contents b))).
Proof.
  intros Hs0 Hs Hd Hck Hread.
  assert (Hrun : read_table_block o f h =
    if negb (verify_table_block data c (unmask_crc (decode_fixed32 ck)))
    then Done (err Corruption ("checksum verification failed for block at " +:+ pretty (bh_offset h))%string)
    else match int_to_compressiontype (b2z c) with
      | Some CompressionNone => let! b := Block_new o data in Done (Ok b)
      | Some CompressionSnappy =>
          match decompress_vec data with
          | inl decoded => let! b := Block_new o decoded in Done (Ok b)
          | inr e => Done (Err (from_snap_Error e))
          end
      | None => Done (err InvalidData "invalid compression type")
      end).
  { unfold read_table_block, TABLE_BLOCK_CKSUM_LEN, TABLE_BLOCK_COMPRESS_LEN.
    rewrite uadd_Done by lia. cbn [bind]. rewrite uadd_Done by lia. cbn [bind].
    unfold read_bytes, BlockHandle_new, try_bind. cbn [bh_offset bh_size].
    replace (bh_size h + 4 + 1) with (bh_size h + 5) by lia. rewrite Hread. cbn [bind].
    rewrite split_off_app by done. cbn [bind]. rewrite split_off_app by done. done. }
  rewrite Hrun. unfold verify_table_block. split.
  - intros Hne%Z.eqb_neq. rewrite Hne. by eexists.
  - intros b. destruct (Z.eqb_spec (crc32c (data ++ [c])) (unmask_crc (decode_fixed32 ck))) as [Heq|]; [|done].
    cbn [negb]. destruct (int_to_compressiontype (b2z c)) as [ct|] eqn:Hct; [|done].
    apply compressiontype_roundtrip in Hct. intros Hb. split; [done|].
    assert (Hnew : ∀ bs, (let! b := Block_new o bs in Done (Ok b)) = Done (Ok b) → block_contents b = bs).
    { intros bs (b0&Hb0&[= ->])%bind_Done. unfold Block_new in Hb0.
      destruct (4 <? len bs); by simplify_eq. }
    destruct ct; [left|right]; (split; [done|]).
    + by apply Hnew in Hb.
    + destruct (decompress_vec data); [|done]. by apply Hnew in Hb as ->.
Qed.
End properties.
