(* ===== verification/TableBuilderProofs.v ===== *)
(** * What the table builder writes (src/table_builder.rs)

    The invariant of a builder whose destination is a vector: the data blocks
    that were written, and the pairs of the block being filled. From it, the
    layout of a finished table. *)

From S2P Require Export TableFormatProofs BlockRoundtrip.

(** A written data block. *)
Record dblk := mkDblk {
  d_kvs : list (bytes * bytes);
  (** the key of its index entry *)
  d_sep : bytes;
  d_off : Z;
  d_contents : bytes;
  (** the contents as stored, possibly compressed *)
  d_data : bytes;
}.

Definition d_handle (d : dblk) : BlockHandle := mkBlockHandle (d_off d) (len (d_data d)).

#[local] Arguments start_block : simpl never.
#[local] Arguments bb_add : simpl never.
#[local] Arguments fb_finish : simpl never.
#[local] Arguments bb_finish : simpl never.

Definition last_of (kvs : list (bytes * bytes)) : bytes := from_option fst [] (last kvs).

Section builder.
Context `{E : IntegerEncoding, !IntegerEncodingSpec E, C : Crc32c, !Crc32cSpec C, S : Snappy, !SnappySpec S}.
Context (o : Options).
Implicit Types b : TableBuilder bytes.

Abbreviation ct := (compression_type o).
Abbreviation c := (opt_cmp o).

(** The bytes of the data blocks. *)
Definition image (ds : list dblk) : bytes := mjoin ((λ d, stored ct (d_data d)) <$> ds).

Definition index_kvs (ds : list dblk) : list (bytes * bytes) :=
  (λ d, (d_sep d, handle_bytes (d_handle d))) <$> ds.

(** What the filter builder is told: the keys of each block, at its offset. *)
Definition filter_blocks (ds : list dblk) (cur : list (bytes * bytes)) : list (Z * list bytes) :=
  ((λ d, (d_off d, (d_kvs d).*1)) <$> ds) ++ [(len (image ds), cur.*1)].

Definition all_kvs (ds : list dblk) (cur : list (bytes * bytes)) : list (bytes * bytes) :=
  mjoin (d_kvs <$> ds) ++ cur.

Record wf_dblk (d : dblk) : Prop := {
  wd_build : build_block o (d_kvs d) = Done (d_contents d);
  wd_nonempty : d_kvs d ≠ [];
  wd_compress : compress ct (d_contents d) = Ok (d_data d);
  wd_last : cmp c (last_of (d_kvs d)) (d_sep d) = Lt;
  (** the separator was chosen for some key after the block *)
  wd_chosen : ∃ key, find_shortest_sep c (last_of (d_kvs d)) key = Done (d_sep d);
  wd_handle : wf_handle (d_handle d);
}.

(** The blocks and the key at which the next one starts. *)
Record wf_dblks (ds : list dblk) : Prop := {
  wds_blocks : Forall wf_dblk ds;
  wds_off i d : ds !! i = Some d → d_off d = len (image (take i ds));
  (** a separator is not above the next block *)
  wds_sep i d d' kv : ds !! i = Some d → ds !! Datatypes.S i = Some d' → head (d_kvs d') = Some kv →
    cmp c (d_sep d) kv.1 ≠ Gt ∧ find_shortest_sep c (last_of (d_kvs d)) kv.1 = Done (d_sep d);
}.

Record tb_rep b (ds : list dblk) (cur : list (bytes * bytes)) : Prop := {
  tr_opt : tb_opt b = o;
  tr_dst : dst b = image ds;
  tr_off : tb_offset b = len (image ds);
  tr_data : ∃ db, data_block b = Some db ∧ add_all (BlockBuilder_new o) cur = Done db;
  tr_index : ∃ ib, index_block b = Some ib ∧ add_all (BlockBuilder_new o) (index_kvs ds) = Done ib;
  tr_filter : ∃ fb, filter_block b = Some fb ∧
    foldM add_block (filter_blocks ds cur) (FilterBlockBuilder_new (filter_policy o)) = Done fb;
  tr_wf : wf_dblks ds;
  tr_prev : prev_block_last_key b = last_of (from_option d_kvs [] (last ds));
}.

(** The separator of the last block against the block being filled. *)
Definition sep_ok (ds : list dblk) (cur : list (bytes * bytes)) : Prop :=
  (cur = [] → ds = []) ∧
  ∀ d kv, last ds = Some d → head cur = Some kv →
    cmp c (d_sep d) kv.1 ≠ Gt ∧ find_shortest_sep c (last_of (d_kvs d)) kv.1 = Done (d_sep d).

Lemma image_snoc ds d : image (ds ++ [d]) = image ds ++ stored ct (d_data d).
Proof. unfold image. rewrite fmap_app. apply mjoin_snoc. Qed.

Lemma index_kvs_snoc ds d :
  index_kvs (ds ++ [d]) = index_kvs ds ++ [(d_sep d, handle_bytes (d_handle d))].
Proof. unfold index_kvs. by rewrite fmap_app. Qed.

Lemma add_all_snoc (bb0 : BlockBuilder) kvs (kv : bytes * bytes) :
  add_all bb0 (kvs ++ [kv]) = let! bb := add_all bb0 kvs in bb_add bb kv.1 kv.2.
Proof.
  unfold add_all. rewrite foldM_app. destruct (foldM _ kvs bb0) as [b1|]; [|done]. cbn.
  by destruct (bb_add b1 kv.1 kv.2).
Qed.

Context (Hri : 0 < block_restart_interval o).

(** A block builder that was only added to. *)
Lemma add_all_facts kvs db :
  add_all (BlockBuilder_new o) kvs = Done db →
  last_key db = last_of kvs ∧ entries db = len kvs ∧ bb_opt db = o ∧
  build_block o kvs = Done (bb_finish db).
Proof.
  intros Hdb. destruct (add_all_rep o kvs db Hri Hdb) as (Hopt&es&rs&Hr&<-).
  split; [|split; [|split; [done|]]].
  - rewrite (bbr_last_key _ _ _ Hr), last_entry_key_last. unfold last_of.
    by destruct (last (e_kv <$> es)).
  - unfold entries. rewrite (bbr_counter _ _ _ Hr). unfold len. by rewrite length_fmap.
  - unfold build_block. by rewrite Hdb.
Qed.

Lemma build_block_len kvs contents :
  build_block o kvs = Done contents → 8 ≤ len contents.
Proof.
  intros Hb. destruct (build_block_layout o kvs contents Hri Hb) as (es&rs&->&?&?&_).
  by apply enc_block_len.
Qed.

Lemma tb_rep_new : tb_rep (TableBuilder_new o []) [] [] ∧ sep_ok [] [].
Proof.
  split; [|split; [done|]; by intros d kv Hd].
  split; try done; try (by eexists).
Qed.

(** [encode_handle] only succeeds with the encoding of the handle. *)
Lemma encode_handle_inv h e :
  wf_handle h → encode_handle h = Done e → e = handle_bytes h ∧ len (handle_bytes h) ≤ 16.
Proof.
  intros Hh He. unfold encode_handle in He. assert (Hlen : len (handle_bytes h) ≤ 16).
  { unfold BlockHandle_encode_to in He.
    destruct (required_space (bh_offset h) + required_space (bh_size h) <=? len (replicate 16 x00)) eqn:Hl;
      [|done].
    apply Z.leb_le in Hl. destruct Hh as [Ho Hs]. rewrite !required_space_len in Hl by done.
    unfold handle_bytes. rewrite len_app. done. }
  rewrite BlockHandle_encode_to_Done in He by done. cbn [bind] in He.
  pose proof (slice_mid [] (handle_bytes h) (drop (length (handle_bytes h)) (replicate 16 x00))
    0 (len (handle_bytes h)) eq_refl eq_refl) as Hs. cbn [app] in Hs. rewrite Hs in He.
  by simplify_eq.
Qed.

Lemma st_bind_Ok {T A B} (m : outcome (result A * T)) (k : A → T → outcome (result B * T)) x s' :
  st_bind m k = Done (Ok x, s') → ∃ a s, m = Done (Ok a, s) ∧ k a s = Done (Ok x, s').
Proof.
  unfold st_bind. intros ([[a|e] s]&->&Hk)%bind_Done; [by exists a, s|done].
Qed.

Lemma unwrap_inv {A} (x : option A) a : unwrap_block x = Done a → x = Some a.
Proof. destruct x; simpl; by intros [= ->]. Qed.

Lemma filter_blocks_snoc ds d :
  d_off d = len (image ds) →
  filter_blocks (ds ++ [d]) [] = filter_blocks ds (d_kvs d) ++ [(len (image (ds ++ [d])), [])].
Proof. intros Hd. unfold filter_blocks. rewrite fmap_app. cbn. by rewrite Hd. Qed.

Lemma wf_dblks_snoc ds d :
  wf_dblks ds → wf_dblk d → d_off d = len (image ds) → sep_ok ds (d_kvs d) → wf_dblks (ds ++ [d]).
Proof.
  intros [Hb Ho Hs] Hd Hoff [_ Hsep]. split.
  - apply Forall_app. split; [done|]. by constructor.
  - intros i d' [Hi|[Hi H0]]%lookup_app_Some.
    + rewrite take_app_le by (apply lookup_lt_Some in Hi; lia). by apply Ho.
    + apply list_lookup_singleton_Some in H0 as [Hi0 <-]. rewrite take_app_length'; [done|lia].
  - intros i d1 d2 kv H1 H2 Hh. apply lookup_app_Some in H2 as [H2|[Hi H2]].
    + rewrite lookup_app_l in H1 by (apply lookup_lt_Some in H2; lia). by eapply Hs.
    + apply list_lookup_singleton_Some in H2 as [Hi2 <-].
      rewrite lookup_app_l in H1 by lia. apply Hsep; [|done].
      rewrite last_lookup. by replace (pred (length ds)) with i by lia.
Qed.

(** *** What the filter builder is told is in order *)

Lemma image_take_le_take ds i j : (i ≤ j)%nat → len (image (take i ds)) ≤ len (image (take j ds)).
Proof.
  intros Hij. rewrite <- (take_drop i (take j ds)), take_take, Nat.min_l by done.
  unfold image. rewrite fmap_app, join_app, len_app.
  pose proof (len_nonneg (mjoin ((λ d, stored ct (d_data d)) <$> drop i (take j ds)))). lia.
Qed.

Lemma image_take_le ds i : len (image (take i ds)) ≤ len (image ds).
Proof.
  rewrite <- (take_ge ds (i + length ds)) at 2 by lia. apply image_take_le_take. lia.
Qed.

Lemma block_keys_filter_blocks ds cur : block_keys (filter_blocks ds cur) = (all_kvs ds cur).*1.
Proof.
  unfold filter_blocks, all_kvs. rewrite block_keys_snoc, fmap_app. f_equal. unfold block_keys.
  rewrite <- list_fmap_compose. induction ds as [|d l IH]; [done|].
  rewrite !fmap_cons. change (mjoin (?x :: ?l)) with (x ++ mjoin l). by rewrite fmap_app, <- IH.
Qed.

Lemma fst_filter_blocks ds cur : fst <$> filter_blocks ds cur = (d_off <$> ds) ++ [len (image ds)].
Proof. unfold filter_blocks. by rewrite fmap_app, <- list_fmap_compose. Qed.

(** The offset of the next block is within 32-bit filter indices. *)
Lemma small_filter_index x : 0 ≤ x < 2 ^ 43 → Z.shiftr x 11 < U32.
Proof. intros Hx. rewrite Z.shiftr_div_pow2 by lia. apply Z.div_lt_upper_bound; unfold U32; lia. Qed.

Lemma filter_blocks_wf (fits : list bytes → Prop) ds cur :
  wf_dblks ds → nonempty_keys (all_kvs ds cur) → len (image ds) < 2 ^ 43 →
  (∀ l, l `sublist_of` (all_kvs ds cur).*1 → fits l) → wf_blocks fits (filter_blocks ds cur).
Proof.
  intros Hwf Hk Hlen Hfits.
  assert (Hoffs : ∀ j z, ((d_off <$> ds) ++ [len (image ds)]) !! j = Some z → z = len (image (take j ds))).
  { intros j z [Hj|[Hj Hz]]%lookup_app_Some.
    - rewrite list_lookup_fmap in Hj. destruct (ds !! j) as [d|] eqn:Hd; [|done].
      injection Hj as <-. by apply (wds_off _ Hwf).
    - apply list_lookup_singleton_Some in Hz as [Hz <-]. rewrite length_fmap in *. by rewrite take_ge by lia. }
  assert (Hrange : ∀ j, 0 ≤ len (image (take j ds)) < 2 ^ 43).
  { intros j. pose proof (image_take_le ds j). pose proof (len_nonneg (image (take j ds))). lia. }
  split.
  - rewrite fst_filter_blocks. intros i x y Hx Hy.
    rewrite (Hoffs i x Hx), (Hoffs (Datatypes.S i) y Hy). apply image_take_le_take. lia.
  - apply Forall_lookup. intros j blk Hj.
    assert (Hf : (fst <$> filter_blocks ds cur) !! j = Some blk.1) by by rewrite list_lookup_fmap, Hj.
    rewrite fst_filter_blocks in Hf. rewrite (Hoffs j _ Hf). pose proof (Hrange j).
    split; [lia|by apply small_filter_index].
  - unfold all_kvs in Hk. apply Forall_app in Hk as [Hk1 Hk2]. apply Forall_app. split.
    + apply Forall_fmap, Forall_lookup. intros i d Hd. cbn. apply Forall_fmap.
      apply Forall_lookup. intros a kv Ha. apply (proj1 (Forall_forall _ _) Hk1).
      apply list_elem_of_join. exists (d_kvs d). split; [by eapply list_elem_of_lookup_2|].
      apply list_elem_of_fmap. exists d. split; [done|by eapply list_elem_of_lookup_2].
    + constructor; [|done]. cbn. by apply Forall_fmap.
  - intros l Hl. apply Hfits. by rewrite <- block_keys_filter_blocks.
Qed.

Context `{!CmpOrder c, !CmpSep c}.

(** A data block that was written. *)
Lemma write_data_block_inv b ds cur key b' :
  tb_rep b ds cur → sep_ok ds cur → cur ≠ [] → cmp c (last_of cur) key = Lt →
  write_data_block b key = Done (Ok tt, b') →
  ∃ d, d_kvs d = cur ∧ tb_rep b' (ds ++ [d]) [] ∧ cmp c (d_sep d) key ≠ Gt ∧
    find_shortest_sep c (last_of cur) key = Done (d_sep d).
Proof.
  intros [Hopt Hdst Hoff (db&Hdb&Hadd) (ib&Hib&Hidx) (fb&Hfb&Hfold) Hwf Hprev] Hsep Hne Hlt H0.
  destruct (add_all_facts cur db Hadd) as (Hlk&_&_&Hbuild).
  unfold write_data_block in H0. rewrite Hdb in H0. cbn [unwrap_block bind] in H0.
  destruct (find_shortest_sep_ok _ _ Hlt) as (sep&Hfs&Hls&Hsk).
  cbv zeta in H0. cbn [tb_opt set_data_block] in H0. rewrite Hopt, Hlk, Hfs in H0. cbn [bind] in H0.
  apply st_bind_Ok in H0 as (h&b3&Hw&H0). apply write_block_inv in Hw as (data&Hc&Hsz&->&->).
  cbn [tb_offset set_prev_key set_data_block tb_opt compression_type] in *. rewrite Hopt in *.
  apply bind_Done in H0 as (he&Hhe&H0). cbn in H0. rewrite Hib in H0. cbn [unwrap_block bind] in H0.
  apply bind_Done in H0 as (ib'&Hib'&H0). cbn in H0. rewrite Hfb in H0.
  apply bind_Done in H0 as (fb'&Hfb'&[= <-]).
  pose proof (len_nonneg (image ds)). pose proof (len_nonneg data).
  set (d := mkDblk cur sep (len (image ds)) (bb_finish db) data).
  assert (Hh : wf_handle (d_handle d)) by (split; cbn; unfold U64 in *; lia).
  rewrite Hoff in Hhe. apply (encode_handle_inv (d_handle d)) in Hhe as [-> Hlen]; [|done].
  assert (Hd : wf_dblk d) by (split; try done; by exists key).
  exists d. split; [done|]. split; [|done]. split; cbn; try done.
  - by rewrite Hdst, image_snoc.
  - by rewrite Hoff, image_snoc, len_app.
  - rewrite Hopt. by eexists.
  - exists ib'. split; [done|]. rewrite index_kvs_snoc, add_all_snoc, Hidx. done.
  - exists fb'. split; [done|]. rewrite filter_blocks_snoc, foldM_app by done. cbn [d_kvs d].
    rewrite Hfold. cbn. unfold add_block. cbn [fst snd foldl].
    rewrite image_snoc, len_app. cbn [d_data d]. rewrite <- Hoff. by rewrite Hfb'.
  - by apply wf_dblks_snoc.
  - by rewrite last_snoc.
Qed.

(** The second half of [add]: the pair joins the block being filled. *)
Definition tb_append b (key val : bytes) : outcome (result unit * TableBuilder bytes) :=
  let! dblock := unwrap_block (data_block b) in
  let b := set_filter_block b (fb_add_key key <$> filter_block b) in
  let b := set_num_entries b (num_entries b + 1) in
  let! dblock := bb_add dblock key val in
  Done (Ok tt, set_data_block b (Some dblock)).

Lemma fold_add_key (blocks : list (Z * list bytes)) off ks k fb0 fb :
  foldM add_block (blocks ++ [(off, ks)]) fb0 = Done fb →
  foldM add_block (blocks ++ [(off, ks ++ [k])]) fb0 = Done (fb_add_key k fb).
Proof.
  rewrite !foldM_app. destruct (foldM add_block blocks fb0) as [fb1|]; [|done]. cbn.
  unfold add_block. cbn [fst snd]. destruct (start_block off fb1) as [fb2|]; [|done]. cbn.
  intros [= <-]. by rewrite foldl_snoc.
Qed.

Lemma tb_append_inv b ds cur k v b' :
  tb_rep b ds cur → tb_append b k v = Done (Ok tt, b') → tb_rep b' ds (cur ++ [(k, v)]).
Proof.
  intros [Hopt Hdst Hoff (db&Hdb&Hadd) Hidx (fb&Hfb&Hfold) Hwf Hprev] H0.
  unfold tb_append in H0. rewrite Hdb in H0. cbn [unwrap_block bind] in H0. cbv zeta in H0.
  apply bind_Done in H0 as (db'&Hdb'&[= <-]). split; cbn; try done.
  - exists db'. split; [done|]. rewrite add_all_snoc, Hadd. done.
  - exists (fb_add_key k fb). rewrite Hfb. split; [done|]. unfold filter_blocks in *.
    rewrite fmap_app. by apply fold_add_key.
Qed.

Lemma last_all_kvs ds cur : cur ≠ [] → last (all_kvs ds cur) = last cur.
Proof.
  intros Hne. unfold all_kvs. rewrite last_app. destruct (last cur) eqn:El; [done|].
  by apply last_None in El.
Qed.

Lemma all_kvs_snoc ds d cur : all_kvs (ds ++ [d]) cur = all_kvs ds (d_kvs d ++ cur).
Proof.
  unfold all_kvs. rewrite fmap_app. change (d_kvs <$> [d]) with [d_kvs d].
  by rewrite mjoin_snoc, <- app_assoc.
Qed.

(** [add] that returned [Ok]. *)
Lemma tb_add_inv b ds cur k v b' :
  8 ≤ block_size o → tb_rep b ds cur → sep_ok ds cur →
  (∀ kv, last (all_kvs ds cur) = Some kv → cmp c kv.1 k = Lt) →
  tb_add b k v = Done (Ok tt, b') →
  ∃ ds' cur', tb_rep b' ds' cur' ∧ sep_ok ds' cur' ∧ cur' ≠ [] ∧
    all_kvs ds' cur' = all_kvs ds cur ++ [(k, v)].
Proof.
  intros Hbs Hr Hsep Hlast H0. unfold tb_add in H0.
  apply bind_Done in H0 as (db&Hdb%unwrap_inv&H0). destruct (_ || _) in H0; [|done].
  apply st_bind_Ok in H0 as ([]&b1&Hflush&H0). fold (tb_append b1 k v) in H0.
  destruct (tr_data _ _ _ Hr) as (db'&Hdb'&Hadd). rewrite Hdb in Hdb'. injection Hdb' as <-.
  destruct (block_size (tb_opt b) <? bb_size_estimate db) eqn:Hfull.
  - rewrite (tr_opt _ _ _ Hr) in Hfull. assert (Hne : cur ≠ []).
    { intros ->. cbn in Hadd. injection Hadd as <-. apply Z.ltb_lt in Hfull.
      change (bb_size_estimate (BlockBuilder_new o)) with 8 in Hfull. lia. }
    destruct (last cur) as [kv|] eqn:El; [|by apply last_None in El].
    assert (Hlt : cmp c (last_of cur) k = Lt).
    { unfold last_of. rewrite El. apply Hlast. by rewrite last_all_kvs. }
    destruct (write_data_block_inv b ds cur k b1 Hr Hsep Hne Hlt Hflush) as (d&Hd&Hr1&Hge&Hfs).
    exists (ds ++ [d]), [(k, v)]. split; [by apply (tb_append_inv b1 _ [])|]. split; [|split; [done|]].
    + split; [done|]. intros d' kv'. rewrite last_snoc. intros [= <-] [= <-]. cbn. by rewrite Hd.
    + rewrite all_kvs_snoc, Hd. unfold all_kvs. by rewrite app_assoc.
  - injection Hflush as <-. exists ds, (cur ++ [(k, v)]). split; [by apply (tb_append_inv b)|].
    split; [|split; [by destruct cur|unfold all_kvs; by rewrite app_assoc]].
    split; [by destruct cur|]. destruct Hsep as [Hnil Hsep]. intros d kv Hd Hh.
    destruct cur as [|kv0 cur]; [by rewrite Hnil in Hd|]. by apply Hsep.
Qed.
End builder.

(** ** Whole tables *)

Section table.
Context `{E : IntegerEncoding, C : Crc32c, S : Snappy} {Dst : Type} `{W : !Write Dst, FW : !FixedIntWriter Dst}.

(** A client of the builder: add the pairs in order, stop at the first error,
    then finish. *)
Fixpoint tb_adds (b : TableBuilder Dst) (kvs : list (bytes * bytes)) :
    outcome (result unit * TableBuilder Dst) :=
  match kvs with
  | [] => Done (Ok tt, b)
  | kv :: kvs => try! _, b := tb_add b kv.1 kv.2 in tb_adds b kvs
  end.

Definition build_table (o : Options) (kvs : list (bytes * bytes)) (d : Dst) :
    outcome (result Z * Dst) :=
  let! (r, b) := (try! _, b := tb_adds (TableBuilder_new o d) kvs in tb_finish b) in
  Done (r, dst b).
End table.

(** The parts of a finished table. *)
Record table_parts := mkParts {
  p_blocks : list dblk;
  p_filter : bytes;
  p_meta : bytes;
  p_meta_data : bytes;
  p_index : bytes;
  p_index_data : bytes;
}.

Section layout.
Context `{E : IntegerEncoding, !IntegerEncodingSpec E, C : Crc32c, !Crc32cSpec C, S : Snappy, !SnappySpec S}.
Context (o : Options).

Abbreviation ct := (compression_type o).

Definition filter_handle (T : table_parts) : BlockHandle :=
  mkBlockHandle (len (image o (p_blocks T))) (len (p_filter T)).
Definition meta_handle (T : table_parts) : BlockHandle :=
  mkBlockHandle (len (image o (p_blocks T)) + len (p_filter T) + 5) (len (p_meta_data T)).
Definition index_handle (T : table_parts) : BlockHandle :=
  mkBlockHandle (bh_offset (meta_handle T) + len (p_meta_data T) + 5) (len (p_index_data T)).
Definition table_footer (T : table_parts) : Footer := mkFooter (meta_handle T) (index_handle T).

Definition table_bytes (T : table_parts) : bytes :=
  image o (p_blocks T) ++ stored CompressionNone (p_filter T) ++ stored ct (p_meta_data T)
    ++ stored ct (p_index_data T) ++ footer_bytes (table_footer T).

(** [T] is a table of the pairs [kvs]. *)
Record table_of (kvs : list (bytes * bytes)) (T : table_parts) : Prop := {
  to_kvs : mjoin (d_kvs <$> p_blocks T) = kvs;
  to_blocks : wf_dblks o (p_blocks T);
  to_filter : ∃ fb, foldM add_block (filter_blocks o (p_blocks T) [])
      (FilterBlockBuilder_new (filter_policy o)) = Done fb ∧ fb_finish fb = Done (p_filter T);
  to_meta : build_block o [(filter_key (fp_name (filter_policy o)), handle_bytes (filter_handle T))]
      = Done (p_meta T);
  to_meta_data : compress ct (p_meta T) = Ok (p_meta_data T);
  to_index : build_block o (index_kvs (p_blocks T)) = Done (p_index T);
  to_index_data : compress ct (p_index T) = Ok (p_index_data T);
  to_footer : wf_footer (table_footer T);
  to_filter_handle : wf_handle (filter_handle T);
}.

(** The policy of a filter builder does not change. *)
Lemma generate_filter_policy b b' : generate_filter b = Done b' → fb_policy b' = fb_policy b.
Proof.
  unfold generate_filter. cbn [keys]. case_decide; [by intros [= <-]|]. by intros (f&_&[= <-])%bind_Done.
Qed.

Lemma generate_filters_policy fuel ix b b' :
  generate_filters fuel ix b = Done b' → fb_policy b' = fb_policy b.
Proof.
  revert b. induction fuel as [|fuel IH]; intros b; simpl; [done|].
  destruct (_ <? _); [|by intros [= <-]]. intros (b1&Hb1&H0)%bind_Done.
  rewrite (IH b1 H0). by eapply generate_filter_policy.
Qed.

Lemma add_block_policy blk b b' : add_block blk b = Done b' → fb_policy b' = fb_policy b.
Proof.
  unfold add_block, start_block. intros (b1&(ix&_&H1)%bind_Done&[= <-])%bind_Done.
  destruct (_ <=? _) in H1; [|done]. apply generate_filters_policy in H1. rewrite <- H1. clear.
  revert b1. by induction (blk.2) as [|k ks IH]; intros b1; simpl; [|rewrite IH].
Qed.

Lemma add_blocks_policy blocks b b' : foldM add_block blocks b = Done b' → fb_policy b' = fb_policy b.
Proof.
  revert b. induction blocks as [|blk blocks IH]; intros b; simpl; [by intros [= <-]|].
  intros (b1&H1&H0)%bind_Done. rewrite (IH b1 H0). by eapply add_block_policy.
Qed.

Lemma handle_bytes_le_20 h : wf_handle h → len (handle_bytes h) ≤ 20.
Proof.
  intros [Ho Hs]. unfold handle_bytes. rewrite len_app.
  pose proof (encode_var_len (bh_offset h) 10 Ho ltac:(lia) ltac:(unfold U64 in *; lia)).
  pose proof (encode_var_len (bh_size h) 10 Hs ltac:(lia) ltac:(unfold U64 in *; lia)). lia.
Qed.

(** *** finish *)

(** The rest of [finish], when no data block is pending. *)
Definition finish_filter (b : TableBuilder bytes) : outcome (result BlockBuilder * TableBuilder bytes) :=
  let meta_ix_block := BlockBuilder_new (tb_opt b) in
  match filter_block b with
  | Some fblock =>
      let b := set_filter_block b None in
      let key := filter_key (filter_name fblock) in
      let! fblock_data := fb_finish fblock in
      try! fblock_handle, b := write_block b fblock_data CompressionNone in
      let! handle_enc := encode_handle fblock_handle in
      let! m := bb_add meta_ix_block key handle_enc in
      Done (Ok m, b)
  | None => Done (Ok meta_ix_block, b)
  end.

Definition finish_tail (ctype : CompressionType) (meta_ix_block : BlockBuilder) (b : TableBuilder bytes) :
    outcome (result Z * TableBuilder bytes) :=
  let meta_ix := bb_finish meta_ix_block in
  try! meta_ix_handle, b := write_block b meta_ix ctype in
  let! ib := unwrap_block (index_block b) in
  let b := set_index_block b None in
  let index_cont := bb_finish ib in
  try! ix_handle, b := write_block b index_cont ctype in
  let footer := Footer_new meta_ix_handle ix_handle in
  let! buf := Footer_encode footer (replicate (Z.to_nat FULL_FOOTER_LENGTH) x00) in
  try! n, b := tb_write b buf in
  let! off := uadd (tb_offset b) n in
  let b := set_tb_offset b off in
  try! _, b := tb_flush b in
  Done (Ok (tb_offset b), b).

Lemma tb_finish_split b :
  tb_finish b =
    let! db := unwrap_block (data_block b) in
    try! _, b1 :=
      if 0 <? entries db then
        let! key_past_last := find_short_succ (opt_cmp (tb_opt b)) (last_key db) in
        write_data_block b key_past_last
      else Done (Ok tt, b) in
    try! m, b2 := finish_filter b1 in
    finish_tail (compression_type (tb_opt b)) m b2.
Proof. done. Qed.

Context (Hri : 0 < block_restart_interval o).

(** The parts known after the filter block was written. *)
Lemma finish_filter_inv b ds m b' :
  tb_rep o b ds [] → finish_filter b = Done (Ok m, b') →
  ∃ fdata fb, foldM add_block (filter_blocks o ds []) (FilterBlockBuilder_new (filter_policy o)) = Done fb ∧
    fb_finish fb = Done fdata ∧
    let fh := mkBlockHandle (len (image o ds)) (len fdata) in
    wf_handle fh ∧
    build_block o [(filter_key (fp_name (filter_policy o)), handle_bytes fh)] = Done (bb_finish m) ∧
    dst b' = image o ds ++ stored CompressionNone fdata ∧ tb_offset b' = len (dst b') ∧
    index_block b' = index_block b.
Proof.
  intros [Hopt Hdst Hoff _ _ (fb&Hfb&Hfold) _ _] H0. unfold finish_filter in H0. rewrite Hfb in H0.
  apply bind_Done in H0 as (fdata&Hfin&H0). apply st_bind_Ok in H0 as (h&b1&Hw&H0).
  apply write_block_inv in Hw as (data&Hc&Hsz&->&->).
  unfold compress in Hc. rewrite decide_False in Hc by done. injection Hc as <-.
  cbn [tb_offset set_filter_block] in *. rewrite Hoff in *.
  pose proof (len_nonneg (image o ds)). pose proof (len_nonneg fdata).
  assert (Hh : wf_handle (mkBlockHandle (len (image o ds)) (len fdata))) by (split; cbn; lia).
  apply bind_Done in H0 as (he&Hhe&H0). apply encode_handle_inv in Hhe as [-> _]; [|done].
  apply bind_Done in H0 as (m'&Hm&[= -> <-]). exists fdata, fb.
  split; [done|]. split; [done|]. split; [done|]. split; [|split; [|split; [|done]]].
  - unfold build_block, add_all. cbn [foldM fst snd].
    rewrite Hopt in Hm. unfold filter_name in Hm. rewrite (add_blocks_policy _ _ _ Hfold) in Hm.
    cbn [fb_policy FilterBlockBuilder_new] in Hm. by rewrite Hm.
  - cbn. by rewrite Hdst.
  - cbn. by rewrite Hdst, Hoff, len_app.
Qed.

Lemma finish_tail_inv ctype m b n b' :
  tb_offset b = len (dst b) → finish_tail ctype m b = Done (Ok n, b') →
  ∃ ib mdata idata, index_block b = Some ib ∧
    compress ctype (bb_finish m) = Ok mdata ∧ compress ctype (bb_finish ib) = Ok idata ∧
    let f := mkFooter (mkBlockHandle (len (dst b)) (len mdata))
               (mkBlockHandle (len (dst b) + len mdata + 5) (len idata)) in
    wf_footer f ∧
    dst b' = dst b ++ stored ctype mdata ++ stored ctype idata ++ footer_bytes f ∧ n = len (dst b').
Proof.
  intros Hoff H0. unfold finish_tail in H0.
  apply st_bind_Ok in H0 as (mh&b1&Hw&H0). apply write_block_inv in Hw as (mdata&Hmc&Hmsz&->&->).
  apply bind_Done in H0 as (ib&Hib%unwrap_inv&H0).
  apply st_bind_Ok in H0 as (ih&b2&Hw&H0). apply write_block_inv in Hw as (idata&Hic&Hisz&->&->).
  cbn [tb_offset set_index_block written set_tb_offset] in *. rewrite len_stored, Hoff in *.
  pose proof (len_nonneg (dst b)). pose proof (len_nonneg mdata). pose proof (len_nonneg idata).
  rewrite Z.add_assoc in *.
  set (f := mkFooter (mkBlockHandle (len (dst b)) (len mdata))
              (mkBlockHandle (len (dst b) + len mdata + 5) (len idata))) in *.
  assert (Hm : wf_handle (meta_index f)) by (split; cbn; lia).
  assert (Hi : wf_handle (f_index f)) by (split; cbn; lia).
  assert (Hf : wf_footer f).
  { split; [done|]. split; [done|]. unfold FOOTER_LENGTH.
    pose proof (handle_bytes_le_20 _ Hm). pose proof (handle_bytes_le_20 _ Hi). lia. }
  unfold Footer_new in H0. fold f in H0. rewrite Footer_encode_ok in H0; [|done|done].
  rewrite drop_ge, app_nil_r in H0 by (by rewrite length_replicate). cbn [bind] in H0.
  rewrite tb_write_vec in H0. unfold st_bind at 1 in H0. cbn [bind] in H0.
  apply bind_Done in H0 as (off&[-> _]%uadd_inv&H0). cbn in H0. injection H0 as <- <-.
  exists ib, mdata, idata. split; [done|]. split; [done|]. split; [done|]. split; [done|]. cbn.
  rewrite <- !app_assoc. split; [done|]. rewrite !len_app, !len_stored, Hoff. lia.
Qed.

Context `{!CmpOrder (opt_cmp o), !CmpSep (opt_cmp o)}.

(** [finish] that returned [Ok] left a table of all the pairs. *)
Lemma tb_finish_inv b ds cur n b' :
  tb_rep o b ds cur → sep_ok o ds cur → tb_finish b = Done (Ok n, b') →
  ∃ T, table_of (all_kvs ds cur) T ∧ dst b' = table_bytes T ∧ n = len (table_bytes T).
Proof.
  intros Hr Hsep H0. rewrite tb_finish_split in H0.
  apply bind_Done in H0 as (db&Hdb%unwrap_inv&H0). apply st_bind_Ok in H0 as ([]&b1&Hflush&H0).
  destruct (tr_data _ _ _ _ Hr) as (db'&Hdb'&Hadd). rewrite Hdb in Hdb'. injection Hdb' as <-.
  destruct (add_all_facts o Hri cur db Hadd) as (Hlk&Hent&_&_). rewrite Hlk, Hent, (tr_opt _ _ _ _ Hr) in *.
  assert (Hds : ∃ ds1, tb_rep o b1 ds1 [] ∧ mjoin (d_kvs <$> ds1) = all_kvs ds cur).
  { destruct (Z.ltb_spec 0 (len cur)) as [Hpos|Hnil].
    - apply bind_Done in Hflush as (past&Hpast&Hflush).
      destruct (find_short_succ_ok (last_of cur)) as (s&Hs&Hlt). rewrite Hpast in Hs. injection Hs as <-.
      assert (Hne : cur ≠ []) by (by intros ->).
      destruct (write_data_block_inv o Hri b ds cur past b1 Hr Hsep Hne Hlt Hflush) as (d&Hd&Hr1&_).
      exists (ds ++ [d]). split; [done|]. rewrite fmap_app. change (d_kvs <$> [d]) with [d_kvs d].
      by rewrite mjoin_snoc, Hd.
    - injection Hflush as <-. destruct cur as [|kv cur]; [|rewrite len_cons in *; pose proof (len_nonneg cur); lia].
      exists ds. split; [done|]. unfold all_kvs. by rewrite app_nil_r. }
  destruct Hds as (ds1&Hr1&Hall). apply st_bind_Ok in H0 as (m&b2&Hff&H0).
  destruct (finish_filter_inv b1 ds1 m b2 Hr1 Hff) as (fdata&fb&?&?&Hfh&Hm&Hdst&Hoff&Hib).
  destruct (finish_tail_inv _ m b2 n b' Hoff H0) as (ib&mdata&idata&Hib'&Hmc&Hic&Hf&Hdst'&->).
  destruct (tr_index _ _ _ _ Hr1) as (ib1&Hib1&Hidx). rewrite Hib, Hib1 in Hib'. injection Hib' as ->.
  destruct (add_all_facts o Hri _ _ Hidx) as (_&_&_&Hibuild).
  set (T := mkParts ds1 fdata (bb_finish m) mdata (bb_finish ib) idata).
  assert (Hlen : len (dst b2) = len (image o ds1) + len fdata + 5).
  { rewrite Hdst, len_app, len_stored. lia. }
  rewrite Hlen in *. exists T.
  assert (Hbytes : dst b' = table_bytes T).
  { rewrite Hdst', Hdst. unfold table_bytes. cbn. by rewrite <- app_assoc. }
  split; [|by rewrite Hbytes]. split; cbn; try done; [apply Hr1|by exists fb].
Qed.

Lemma tb_adds_inv kvs b ds cur b' :
  8 ≤ block_size o → tb_rep o b ds cur → sep_ok o ds cur →
  sorted_kvs (opt_cmp o) (all_kvs ds cur ++ kvs) = true →
  tb_adds b kvs = Done (Ok tt, b') →
  ∃ ds' cur', tb_rep o b' ds' cur' ∧ sep_ok o ds' cur' ∧ all_kvs ds' cur' = all_kvs ds cur ++ kvs.
Proof.
  intros Hbs. revert b ds cur. induction kvs as [|[k v] kvs IH]; intros b ds cur Hr Hsep Hs; cbn [tb_adds].
  - intros [= <-]. exists ds, cur. by rewrite app_nil_r.
  - intros ([]&b1&Hadd&H0)%st_bind_Ok.
    assert (Hlast : ∀ kv, last (all_kvs ds cur) = Some kv → cmp (opt_cmp o) kv.1 k = Lt).
    { intros kv Hl. rewrite last_lookup in Hl. apply lookup_lt_Some in Hl as Hlt.
      apply (sorted_kvs_lookup _ _ (pred (length (all_kvs ds cur))) kv (k, v) Hs).
      - by apply lookup_app_l_Some.
      - by rewrite list_lookup_middle by lia. }
    destruct (tb_add_inv o Hri b ds cur k v b1 Hbs Hr Hsep Hlast Hadd) as (ds1&cur1&Hr1&Hsep1&_&Hall).
    rewrite (app_assoc _ [(k, v)] kvs : _ ++ (k, v) :: kvs = _), <- Hall in Hs |- *. by apply (IH b1).
Qed.

(** A table that was built is laid out as above. *)
Lemma build_table_layout kvs n file :
  8 ≤ block_size o → sorted_kvs (opt_cmp o) kvs = true →
  build_table o kvs [] = Done (Ok n, file) →
  ∃ T, table_of kvs T ∧ file = table_bytes T ∧ n = len file.
Proof.
  intros Hbs Hs H0. unfold build_table in H0. apply bind_Done in H0 as ([r b']&H0&[= -> <-]).
  apply st_bind_Ok in H0 as ([]&b&Hadds&Hfin). destruct (tb_rep_new o) as [Hr Hsep].
  destruct (tb_adds_inv kvs _ [] [] b Hbs Hr Hsep Hs Hadds) as (ds&cur&Hr'&Hsep'&Hall).
  destruct (tb_finish_inv b ds cur n b' Hr' Hsep' Hfin) as (T&HT&Hd&->).
  exists T. rewrite Hall in HT. by rewrite Hd.
Qed.
End layout.
