(* ===== verification/TableBuilderTotal.v ===== *)
(** * The table builder accepts sorted input (src/table_builder.rs)

    The other half of TableBuilderProofs.v: there, what a builder that returned
    has written; here, that it returns. On pairs with increasing non-empty keys
    no assertion of [add] fails, no handle is too long for its buffer and no
    block is rejected, as long as the builder's own size estimate stays small. *)

From S2P Require Export TableBuilderProofs.

(** The compressor does its work on blocks below 4 GiB, and does not expand
    them beyond measure (Snappy: at most 32 + n + n/6 bytes). *)
Definition compresses `{S : Snappy} (ctype : CompressionType) : Prop :=
  ∀ block, len block < U32 → ∃ data, compress ctype block = Ok data ∧ len data ≤ 2 * len block + 64.

Lemma compresses_none `{S : Snappy} : compresses CompressionNone.
Proof. intros block _. exists block. split; [done|]. pose proof (len_nonneg block). lia. Qed.

(** Separators are not much longer than the key they follow. *)
Class CmpSepLen (c : Cmp) : Prop := {
  find_shortest_sep_len a b s : find_shortest_sep c a b = Done s → len s ≤ len a + 1;
}.

Lemma len_set_index {A} (l : list A) i x l' : set_index l i x = Done l' → len l' = len l.
Proof. unfold set_index. destruct (_ && _); [|done]. intros [= <-]. unfold len. by rewrite length_insert. Qed.

Lemma len_slice_le {A} (l : list A) i j l' : slice l i j = Done l' → len l' ≤ len l.
Proof.
  unfold slice. destruct (_ && _); [|done]. intros [= <-]. unfold len. rewrite length_take, length_drop. lia.
Qed.

Lemma sep_loop_len fuel a b min k s : DefaultCmp.sep_loop fuel a b min k = Done (Some s) → len s ≤ len a.
Proof.
  revert k. induction fuel as [|fuel IH]; intros k; [done|]. simpl. destruct (_ <? _); [|done].
  intros (x&_&(y&_&H0)%bind_Done)%bind_Done. destruct (_ && _); [|by eapply IH].
  apply bind_Done in H0 as (sep&Hs%len_slice_le&(d&_&(sep'&Hs'%len_set_index&H0)%bind_Done)%bind_Done).
  destruct (DefaultCmp.bytes_cmp _ _); [done| |done]. injection H0 as <-. lia.
Qed.

#[export] Instance DefaultCmp_sep_len : CmpSepLen DefaultCmp.
Proof.
  split. intros a b s. cbn. unfold DefaultCmp.find_shortest_sep. destruct (decide (a = b)).
  { intros [= <-]. lia. }
  intros (k&_&(e&He&H0)%bind_Done)%bind_Done. destruct e as [sep|]; injection H0 as <-.
  - apply sep_loop_len in He. lia.
  - rewrite len_app. change (len [x00]) with 1. lia.
Qed.

#[local] Arguments start_block : simpl never.
#[local] Arguments bb_add : simpl never.
#[local] Arguments fb_finish : simpl never.
#[local] Arguments bb_finish : simpl never.

Section total.
Context `{E : IntegerEncoding, !IntegerEncodingSpec E, C : Crc32c, !Crc32cSpec C, S : Snappy, !SnappySpec S}.
Context (o : Options) `{!CmpOrder (opt_cmp o), !CmpSep (opt_cmp o)}.
Context (Hri : 0 < block_restart_interval o) (Hbs : 8 ≤ block_size o).
Context (fits : list bytes → Prop) `{!FilterPolicySpec (filter_policy o) fits}.
Context (Hcomp : compresses (compression_type o)).
Implicit Types b : TableBuilder bytes.

Abbreviation c := (opt_cmp o).
Abbreviation ct := (compression_type o).

(** The bound on the size estimate: 2 GiB. *)
Definition small b : Prop := tb_size_estimate b < 2 ^ 31.

Definition fits_all (kvs : list (bytes * bytes)) : Prop := ∀ l, l `sublist_of` kvs.*1 → fits l.

Lemma encode_handle_ok h :
  0 ≤ bh_offset h < 2 ^ 56 → 0 ≤ bh_size h < 2 ^ 56 → encode_handle h = Done (handle_bytes h).
Proof.
  intros Ho Hs. pose proof (handle_bytes_len h Ho Hs) as Hlen. unfold encode_handle.
  rewrite BlockHandle_encode_to_Done; [|split; unfold U64; lia|].
  2: { change (len (replicate 16 x00)) with 16. lia. }
  cbn [bind]. pose proof (slice_mid [] (handle_bytes h) (drop (length (handle_bytes h)) (replicate 16 x00))
    0 (len (handle_bytes h)) eq_refl eq_refl) as Hsl. cbn [app] in Hsl. by rewrite Hsl.
Qed.

Lemma compress_small block :
  len block < U32 → ∃ data, compress ct block = Ok data ∧ 0 ≤ len data ≤ 2 * len block + 64.
Proof.
  intros Hb. destruct (Hcomp block Hb) as (data&Hc&Hd). exists data. split; [done|].
  pose proof (len_nonneg data). lia.
Qed.

(** *** The index is sorted *)

Lemma block_sorted d : wf_dblk o d → sorted_kvs c (d_kvs d) = true.
Proof.
  intros Hd%wd_build. unfold build_block in Hd. apply bind_Done in Hd as (b&Hb&_).
  by eapply sorted_of_add_all.
Qed.

Lemma head_le_last kvs kv : sorted_kvs c kvs = true → head kvs = Some kv → cmp c kv.1 (last_of kvs) ≠ Gt.
Proof.
  intros Hs Hh. rewrite head_lookup in Hh. unfold last_of. rewrite last_lookup.
  destruct (lookup_lt_is_Some_2 kvs (pred (length kvs))) as [kv' Hl].
  { apply lookup_lt_Some in Hh. lia. }
  rewrite Hl. cbn. destruct (decide (pred (length kvs) = 0%nat)) as [Hz|].
  - rewrite Hz, Hh in Hl. injection Hl as <-. by rewrite cmp_refl.
  - by rewrite (sorted_lt c kvs 0 (pred (length kvs)) kv kv' Hs ltac:(lia) Hh Hl).
Qed.

Lemma index_sorted ds : wf_dblks o ds → sorted_kvs c (index_kvs ds) = true.
Proof.
  intros [Hb _ Hsep]. apply sorted_kvs_of_lookup. unfold index_kvs. intros i x y Hx Hy.
  rewrite list_lookup_fmap in Hx, Hy.
  destruct (ds !! i) as [d|] eqn:Hd; [|done]. destruct (ds !! Datatypes.S i) as [d'|] eqn:Hd'; [|done].
  injection Hx as <-. injection Hy as <-. cbn.
  pose proof (Forall_lookup_1 _ _ _ _ Hb Hd') as Hwf.
  destruct (head (d_kvs d')) as [kv|] eqn:Hh; [|by apply head_None in Hh; destruct (wd_nonempty _ _ Hwf)].
  destruct (Hsep i d d' kv Hd Hd' Hh) as [Hle _].
  eapply cmp_le_lt_trans; [exact Hle|]. eapply cmp_le_lt_trans; [|exact (wd_last _ _ Hwf)].
  apply head_le_last; [by apply block_sorted|done].
Qed.

(** *** Flushing a data block *)

Lemma estimate_parts b ds cur :
  tb_rep o b ds cur → small b →
  ∃ db ib fb, data_block b = Some db ∧ index_block b = Some ib ∧ filter_block b = Some fb ∧
    0 ≤ bb_size_estimate db ∧ 0 ≤ bb_size_estimate ib ∧ 0 ≤ len (image o ds) ∧
    bb_size_estimate db + bb_size_estimate ib + len (image o ds) < 2 ^ 31.
Proof.
  intros Hr Hs. destruct (tr_data _ _ _ _ Hr) as (db&Hdb&_). destruct (tr_index _ _ _ _ Hr) as (ib&Hib&_).
  destruct (tr_filter _ _ _ _ Hr) as (fb&Hfb&_). exists db, ib, fb. split; [done|]. split; [done|]. split; [done|].
  unfold small, tb_size_estimate in Hs. rewrite Hdb, Hib, Hfb, (tr_off _ _ _ _ Hr) in Hs. cbn in Hs.
  unfold bb_size_estimate, fb_size_estimate, FULL_FOOTER_LENGTH, FOOTER_LENGTH in *.
  pose proof (len_nonneg (buffer db)). pose proof (len_nonneg (restarts db)).
  pose proof (len_nonneg (buffer ib)). pose proof (len_nonneg (restarts ib)).
  pose proof (len_nonneg (filters fb)). pose proof (len_nonneg (filter_offsets fb)).
  pose proof (len_nonneg (image o ds)). lia.
Qed.

(** The filter builder accepts the start of the next block. *)
Lemma start_block_ok ds d fb :
  wf_dblks o (ds ++ [d]) → d_off d = len (image o ds) → nonempty_keys (all_kvs ds (d_kvs d)) →
  fits_all (all_kvs ds (d_kvs d)) → len (image o (ds ++ [d])) < 2 ^ 43 →
  foldM add_block (filter_blocks o ds (d_kvs d)) (FilterBlockBuilder_new (filter_policy o)) = Done fb →
  ∃ fb', start_block (len (image o (ds ++ [d]))) fb = Done fb'.
Proof.
  intros Hwf Hoff Hk Hf Hlen Hfold.
  assert (Hall : all_kvs (ds ++ [d]) [] = all_kvs ds (d_kvs d)) by by rewrite all_kvs_snoc, app_nil_r.
  rewrite <- Hall in Hk, Hf.
  pose proof (filter_blocks_wf o fits (ds ++ [d]) [] Hwf Hk Hlen Hf) as Hwfb.
  destruct (add_blocks_seen (filter_policy o) fits _ Hwfb) as (fb1&Hfb1&_).
  rewrite filter_blocks_snoc, foldM_app, Hfold in Hfb1 by done. cbn in Hfb1.
  unfold add_block at 1 in Hfb1. cbn [fst snd foldl] in Hfb1.
  apply bind_Done in Hfb1 as (x&(fb'&Hst&_)%bind_Done&_). by exists fb'.
Qed.

(** The index block accepts the entry of the block. *)
Lemma index_add_ok ds d ib :
  wf_dblks o (ds ++ [d]) → add_all (BlockBuilder_new o) (index_kvs ds) = Done ib →
  ∃ ib', bb_add ib (d_sep d) (handle_bytes (d_handle d)) = Done ib'.
Proof.
  intros Hwf Hib. destruct (add_all_sorted o _ Hri (index_sorted _ Hwf)) as [ib' Hib'].
  rewrite index_kvs_snoc, add_all_snoc, Hib in Hib'. by exists ib'.
Qed.

(** [write_data_block] from the outcomes of the calls it makes. *)
Lemma write_data_block_run b db ib fb key sep data ib1 fb1 :
  tb_opt b = o → data_block b = Some db → index_block b = Some ib → filter_block b = Some fb →
  find_shortest_sep c (last_key db) key = Done sep → compress ct (bb_finish db) = Ok data →
  0 ≤ tb_offset b < 2 ^ 36 → len data < 2 ^ 36 →
  bb_add ib sep (handle_bytes (mkBlockHandle (tb_offset b) (len data))) = Done ib1 →
  start_block (tb_offset b + (len data + 5)) fb = Done fb1 →
  ∃ b', write_data_block b key = Done (Ok tt, b') ∧ index_block b' = Some ib1.
Proof.
  intros Hopt Hdb Hib Hfb Hfs Hc Hoff Hdata Hib1 Hfb1. pose proof (len_nonneg data).
  unfold write_data_block. rewrite Hdb. cbn [unwrap_block bind]. cbv zeta. cbn [tb_opt set_data_block].
  rewrite Hopt, Hfs. cbn [bind]. cbn [tb_opt set_data_block set_prev_key]. rewrite Hopt.
  rewrite (write_block_ok _ _ _ data Hc) by (cbn; unfold U64; lia).
  unfold st_bind at 1. cbn [bind]. cbn [tb_offset set_prev_key set_data_block].
  rewrite encode_handle_ok by (cbn; lia). cbn. rewrite Hib. cbn [unwrap_block bind].
  rewrite Hib1. cbn. rewrite Hfb, len_stored, Hfb1. cbn. by eexists.
Qed.

Lemma write_data_block_ok b ds cur key :
  tb_rep o b ds cur → sep_ok o ds cur → cur ≠ [] → cmp c (last_of cur) key = Lt →
  nonempty_keys (all_kvs ds cur) → fits_all (all_kvs ds cur) → small b →
  ∃ b' d ib ib', write_data_block b key = Done (Ok tt, b') ∧
    find_shortest_sep c (last_of cur) key = Done (d_sep d) ∧ d_kvs d = cur ∧
    tb_rep o b' (ds ++ [d]) [] ∧ len (image o (ds ++ [d])) < 2 ^ 34 ∧
    index_block b = Some ib ∧ index_block b' = Some ib' ∧ bb_size_estimate ib < 2 ^ 31 ∧
    bb_add ib (d_sep d) (handle_bytes (d_handle d)) = Done ib' ∧ len (handle_bytes (d_handle d)) ≤ 16.
Proof.
  intros Hr Hsep Hne Hlt Hk Hf Hsmall.
  destruct (estimate_parts b ds cur Hr Hsmall) as (db&ib&fb&Hdb&Hib&Hfb&Hd0&Hi0&Ho0&Hest).
  pose proof Hr as [Hopt Hdst Hoff (db'&Hdb'&Hadd) (ib'&Hib'&Hidx) (fb'&Hfb'&Hfold) Hwf Hprev].
  rewrite Hdb in Hdb'. injection Hdb' as <-. rewrite Hib in Hib'. injection Hib' as <-.
  rewrite Hfb in Hfb'. injection Hfb' as <-.
  destruct (add_all_facts o Hri cur db Hadd) as (Hlk&_&_&Hbuild).
  destruct (find_shortest_sep_ok _ _ Hlt) as (sep&Hfs&Hls&Hsk).
  destruct (compress_small (bb_finish db)) as (data&Hc&Hdata); [rewrite len_bb_finish; unfold U32; lia|].
  rewrite len_bb_finish in Hdata.
  set (d := mkDblk cur sep (len (image o ds)) (bb_finish db) data).
  assert (Hd : wf_dblk o d) by (split; try done; [by exists key|split; cbn; unfold U64; lia]).
  assert (Hwf' : wf_dblks o (ds ++ [d])) by by apply wf_dblks_snoc.
  assert (Himg : len (image o (ds ++ [d])) = len (image o ds) + (len data + 5)).
  { by rewrite image_snoc, len_app, len_stored. }
  destruct (start_block_ok ds d fb Hwf' eq_refl Hk Hf ltac:(rewrite Himg; lia) Hfold) as [fb1 Hfb1].
  destruct (index_add_ok ds d ib Hwf' Hidx) as [ib1 Hib1].
  destruct (write_data_block_run b db ib fb key sep data ib1 fb1) as (b'&Hw&Hib'); try done.
  { by rewrite Hlk. } { rewrite Hoff. lia. } { lia. } { by rewrite Hoff. } { by rewrite Hoff, <- Himg. }
  destruct (write_data_block_inv o Hri b ds cur key b' Hr Hsep Hne Hlt Hw) as (d'&Hd'&Hr'&_&Hfs').
  exists b', d'. rewrite Hfs in Hfs'. injection Hfs' as Hsep'.
  assert (d' = d) as ->.
  { pose proof (wds_off _ _ (tr_wf _ _ _ _ Hr') (length ds) d') as Ho'.
    rewrite list_lookup_middle, take_app_length in Ho' by done. specialize (Ho' eq_refl).
    pose proof (proj2 (proj1 (Forall_app _ _ _) (wds_blocks _ _ (tr_wf _ _ _ _ Hr')))) as Hw'.
    apply Forall_singleton in Hw' as [Hb' _ Hc' _ _ _]. rewrite Hd', Hbuild in Hb'. injection Hb' as Hcont.
    rewrite <- Hcont, Hc in Hc'. injection Hc' as Hdd. destruct d'; cbn in *. by subst. }
  exists ib, ib1. split; [done|]. split; [done|]. split; [done|]. split; [done|]. split; [rewrite Himg; lia|].
  split; [done|]. split; [done|]. split; [lia|]. split; [done|].
  apply handle_bytes_len; cbn; lia.
Qed.

(** *** Adding a pair *)

(** The assertion of [add]: the last key of the block written last is below
    the new key. *)
Lemma add_guard_ok b ds cur k v :
  tb_rep o b ds cur → sorted_kvs c (all_kvs ds cur ++ [(k, v)]) = true →
  bool_decide (prev_block_last_key b = []) || is_lt (cmp c (prev_block_last_key b) k) = true.
Proof.
  intros Hr Hs. rewrite (tr_prev _ _ _ _ Hr). destruct (last ds) as [d|] eqn:Hl; [|done]. cbn.
  unfold last_of. destruct (last (d_kvs d)) as [kv|] eqn:Hkv; [|done]. cbn.
  assert (Hin : kv ∈ all_kvs ds cur).
  { apply elem_of_app. left. apply list_elem_of_join. exists (d_kvs d). rewrite last_lookup in Hl. rewrite last_lookup in Hkv.
    split; [by eapply list_elem_of_lookup_2|]. apply list_elem_of_fmap. exists d.
    split; [done|by eapply list_elem_of_lookup_2]. }
  apply list_elem_of_lookup_1 in Hin as [i Hi]. apply lookup_lt_Some in Hi as Hlt.
  apply orb_true_intro. right. apply is_lt_true.
  apply (sorted_lt c _ i (length (all_kvs ds cur)) kv (k, v) Hs Hlt); [by apply lookup_app_l_Some|].
  by rewrite list_lookup_middle.
Qed.

Lemma tb_append_ok b ds cur k v :
  tb_rep o b ds cur → sorted_kvs c (cur ++ [(k, v)]) = true →
  ∃ b', tb_append b k v = Done (Ok tt, b').
Proof.
  intros [_ _ _ (db&Hdb&Hadd) _ _ _ _] Hs. unfold tb_append. rewrite Hdb. cbn [unwrap_block bind]. cbv zeta.
  destruct (add_all_sorted o _ Hri Hs) as [db' Hdb']. rewrite add_all_snoc, Hadd in Hdb'.
  cbn [bind fst snd] in Hdb'. rewrite Hdb'. by eexists.
Qed.

Lemma tb_add_ok b ds cur k v :
  tb_rep o b ds cur → sep_ok o ds cur → sorted_kvs c (all_kvs ds cur ++ [(k, v)]) = true →
  nonempty_keys (all_kvs ds cur) → fits_all (all_kvs ds cur) → small b →
  ∃ b', tb_add b k v = Done (Ok tt, b').
Proof.
  intros Hr Hsep Hs Hk Hf Hsmall. destruct (tr_data _ _ _ _ Hr) as (db&Hdb&Hadd).
  unfold tb_add. rewrite Hdb. cbn [unwrap_block bind]. rewrite (tr_opt _ _ _ _ Hr).
  rewrite (add_guard_ok b ds cur k v Hr Hs). destruct (block_size o <? bb_size_estimate db) eqn:Hfull.
  - apply Z.ltb_lt in Hfull. assert (Hne : cur ≠ []).
    { intros ->. cbn in Hadd. injection Hadd as <-.
      change (bb_size_estimate (BlockBuilder_new o)) with 8 in Hfull. lia. }
    destruct (last cur) as [kv|] eqn:El; [|by apply last_None in El].
    assert (Hlt : cmp c (last_of cur) k = Lt).
    { unfold last_of. rewrite El. cbn. unfold all_kvs in Hs. rewrite <- app_assoc in Hs.
      apply sorted_kvs_app in Hs as [_ Hs]. rewrite sorted_kvs_snoc, El in Hs.
      apply andb_prop in Hs as [_ Hs]. by apply is_lt_true. }
    destruct (write_data_block_ok b ds cur k Hr Hsep Hne Hlt Hk Hf Hsmall) as (b1&d&_&_&->&_&_&Hr1&_).
    unfold st_bind. cbn [bind]. by apply (tb_append_ok b1 (ds ++ [d]) []).
  - unfold st_bind. cbn [bind]. apply (tb_append_ok b ds cur k v Hr).
    unfold all_kvs in Hs. rewrite <- app_assoc in Hs. by apply sorted_kvs_app in Hs as [_ Hs].
Qed.

(** Every prefix of the pairs leaves the estimate small. *)
Definition stays_small (kvs : list (bytes * bytes)) : Prop :=
  ∀ n b, tb_adds (TableBuilder_new o []) (take n kvs) = Done (Ok tt, b) → small b.

(** The same, evaluated. *)
Definition stays_smallb (kvs : list (bytes * bytes)) : bool :=
  forallb (λ n, match tb_adds (TableBuilder_new o []) (take n kvs) with
                | Done (Ok _, b) => tb_size_estimate b <? 2 ^ 31
                | _ => true
                end) (seq 0 (Datatypes.S (length kvs))).

Lemma stays_smallb_spec kvs : stays_smallb kvs = true → stays_small kvs.
Proof.
  unfold stays_smallb. rewrite forallb_forall. intros Hall n b Hb.
  assert (Hn : ∃ m, (m ≤ length kvs)%nat ∧ take n kvs = take m kvs).
  { destruct (decide (n ≤ length kvs)%nat); [by exists n|]. exists (length kvs). by rewrite !take_ge by lia. }
  destruct Hn as (m&Hm&Heq). rewrite Heq in Hb. specialize (Hall m).
  rewrite in_seq, Hb in Hall. apply Z.ltb_lt, Hall. lia.
Qed.

Lemma tb_adds_snoc b kvs kv :
  tb_adds b (kvs ++ [kv]) = try! _, b := tb_adds b kvs in tb_add b kv.1 kv.2.
Proof.
  revert b. induction kvs as [|kv0 kvs IH]; intros b; cbn [app tb_adds].
  - unfold st_bind. cbn [bind]. destruct (tb_add b kv.1 kv.2) as [[[[]|e] b']|f]; done.
  - unfold st_bind at 1 3. destruct (tb_add b kv0.1 kv0.2) as [[[[]|e] b']|f]; cbn [bind]; [|done..].
    apply IH.
Qed.

Lemma tb_adds_ok kvs :
  sorted_kvs c kvs = true → nonempty_keys kvs → fits_all kvs → stays_small kvs →
  ∃ b ds cur, tb_adds (TableBuilder_new o []) kvs = Done (Ok tt, b) ∧
    tb_rep o b ds cur ∧ sep_ok o ds cur ∧ all_kvs ds cur = kvs ∧ small b.
Proof.
  intros Hs Hk Hf Hsmall.
  enough (∃ b, tb_adds (TableBuilder_new o []) kvs = Done (Ok tt, b)) as [b Hb].
  { destruct (tb_rep_new o) as [Hr0 Hsep0].
    destruct (tb_adds_inv o Hri kvs _ [] [] b Hbs Hr0 Hsep0 Hs Hb) as (ds&cur&Hr&Hsep&Hall).
    exists b, ds, cur. split; [done|]. split; [done|]. split; [done|]. split; [done|].
    apply (Hsmall (length kvs)). by rewrite take_ge. }
  induction kvs as [|[k v] kvs IH] using rev_ind; [by eexists|].
  apply sorted_kvs_app in Hs as Hs'. destruct Hs' as [Hs' _].
  apply Forall_app in Hk as [Hk' _].
  assert (Hf' : fits_all kvs) by (intros l Hl; apply Hf; rewrite fmap_app; by apply sublist_inserts_r).
  assert (Hsmall' : stays_small kvs).
  { intros n b Hb. destruct (decide (n ≤ length kvs)%nat).
    - apply (Hsmall n). by rewrite take_app_le.
    - apply (Hsmall (length kvs)). rewrite take_app_length. by rewrite take_ge in Hb by lia. }
  destruct (IH Hs' Hk' Hf' Hsmall') as [b Hb]. destruct (tb_rep_new o) as [Hr0 Hsep0].
  destruct (tb_adds_inv o Hri kvs _ [] [] b Hbs Hr0 Hsep0 Hs' Hb) as (ds&cur&Hr&Hsep&Hall).
  rewrite tb_adds_snoc, Hb. unfold st_bind. cbn [bind fst snd]. change (all_kvs [] [] ++ kvs) with kvs in Hall.
  apply (tb_add_ok b ds cur k v Hr Hsep); rewrite ?Hall; try done.
  apply (Hsmall' (length kvs)). by rewrite take_ge.
Qed.

(** *** Counting *)

(** What was counted: entries, and bytes in the destination. *)
Definition counted (b : TableBuilder bytes) (n : Z) : Prop := num_entries b = n ∧ tb_offset b = len (dst b).

Lemma write_data_block_counts b key b' n :
  write_data_block b key = Done (Ok tt, b') → counted b n → counted b' n.
Proof.
  unfold write_data_block. intros (db&_&(sep&_&H0)%bind_Done)%bind_Done [Hn Hoff].
  apply st_bind_Ok in H0 as (h&b1&Hw&H0). apply write_block_inv in Hw as (data&_&_&_&->).
  apply bind_Done in H0 as (he&_&(ib&_&(ib'&_&H0)%bind_Done)%bind_Done). cbn in H0.
  destruct (filter_block b); [apply bind_Done in H0 as (fb&_&[= <-])|injection H0 as <-];
    (split; [exact Hn|]); cbn; rewrite !len_app; cbn in Hoff; rewrite Hoff; by rewrite ?len_stored.
Qed.

Lemma tb_adds_counts kvs b b' n :
  tb_adds b kvs = Done (Ok tt, b') → counted b n → counted b' (n + len kvs).
Proof.
  revert b n. induction kvs as [|[k v] kvs IH]; intros b n; cbn [tb_adds].
  { intros [= <-]. rewrite len_nil. by replace (n + 0) with n by lia. }
  intros ([]&b1&Hadd&Hadds)%st_bind_Ok Hb. rewrite len_cons. unfold tb_add in Hadd.
  apply bind_Done in Hadd as (db&_&Hadd). destruct (_ || _) in Hadd; [|done].
  apply st_bind_Ok in Hadd as ([]&b2&Hflush&Hadd).
  assert (Hb2 : counted b2 n).
  { destruct (_ <? _) in Hflush; [by eapply write_data_block_counts|by injection Hflush as <-]. }
  apply bind_Done in Hadd as (db2&_&(db3&_&[= <-])%bind_Done). destruct Hb2 as [Hn Hoff].
  replace (n + (1 + len kvs)) with (n + 1 + len kvs) by lia. eapply IH; [exact Hadds|].
  split; [cbn; lia|exact Hoff].
Qed.

Lemma tb_adds_entries kvs b b' :
  tb_adds b kvs = Done (Ok tt, b') → tb_offset b = len (dst b) → num_entries b' = num_entries b + len kvs.
Proof. intros Hb Hoff. by destruct (tb_adds_counts kvs b b' (num_entries b) Hb (conj eq_refl Hoff)). Qed.

(** *** Finishing *)

Context `{!CmpSepLen (opt_cmp o), !FilterPolicyBounded (filter_policy o) fits, !FilterPolicyNonempty (filter_policy o) fits}.

(** The filter block of a builder whose data blocks are written. *)
Lemma fb_finish_ok b ds :
  tb_rep o b ds [] → nonempty_keys (all_kvs ds []) → fits_all (all_kvs ds []) → len (image o ds) < 2 ^ 34 →
  ∃ fb fdata, filter_block b = Some fb ∧ fb_policy fb = filter_policy o ∧
    fb_finish fb = Done fdata ∧ 0 ≤ len fdata < 2 ^ 56.
Proof.
  intros Hr Hk Hf Hlen. destruct (tr_filter _ _ _ _ Hr) as (fb&Hfb&Hfold).
  pose proof (filter_blocks_wf o fits ds [] (tr_wf _ _ _ _ Hr) Hk ltac:(lia) Hf) as Hwfb.
  destruct (add_blocks_seen (filter_policy o) fits _ Hwfb) as (fb1&Hfb1&Hseen).
  rewrite Hfold in Hfb1. injection Hfb1 as <-.
  destruct (seen_finish (filter_policy o) fits _ fb Hseen (wf_fits _ _ Hwfb)) as (fs&Hfin&_).
  exists fb, (fb_layout fs). split; [done|]. split; [by apply (add_blocks_policy _ _ _ Hfold)|]. split; [done|].
  pose proof (seen_finish_size (filter_policy o) fits (filter_blocks o ds []) fb (len (image o ds)) []
    (fb_layout fs) Hseen (wf_fits _ _ Hwfb)) as Hsz.
  unfold filter_blocks at 1 in Hsz. rewrite last_snoc in Hsz. specialize (Hsz eq_refl Hfin).
  pose proof (len_nonneg (fb_layout fs)). split; [done|]. pose proof (len_nonneg (image o ds)).
  rewrite Z.shiftr_div_pow2 in Hsz by lia.
  assert (len (image o ds) / 2 ^ 11 < 2 ^ 23) by (apply Z.div_lt_upper_bound; lia).
  unfold U32 in *. nia.
Qed.

Lemma finish_filter_ok b ds :
  tb_rep o b ds [] → nonempty_keys (all_kvs ds []) → fits_all (all_kvs ds []) → len (image o ds) < 2 ^ 34 →
  len (filter_key (fp_name (filter_policy o))) < 2 ^ 31 →
  ∃ m b', finish_filter b = Done (Ok m, b') ∧ bb_size_estimate m < 2 ^ 32 ∧
    tb_offset b' = len (dst b') ∧ 0 ≤ len (dst b') < 2 ^ 57 ∧ index_block b' = index_block b.
Proof.
  intros Hr Hk Hf Hlen Hname.
  destruct (fb_finish_ok b ds Hr Hk Hf Hlen) as (fb&fdata&Hfb&Hpol&Hfin&Hfl).
  pose proof (len_nonneg (image o ds)). pose proof (tr_off _ _ _ _ Hr) as Hoff.
  set (h := mkBlockHandle (len (image o ds)) (len fdata)).
  pose proof (handle_bytes_len h ltac:(cbn; lia) ltac:(cbn; lia)) as Hh.
  set (name := filter_key (fp_name (filter_policy o))) in *.
  destruct (add_all_sorted o [(name, handle_bytes h)] Hri eq_refl) as [m Hm].
  cbn in Hm. apply bind_Done in Hm as (m'&Hm&[= ->]).
  assert (Hms : bb_size_estimate m < 2 ^ 32).
  { assert (Hl1 : len name < U64) by (unfold U64; lia). assert (Hl2 : len (handle_bytes h) < U64) by (unfold U64; lia).
    pose proof (bb_add_size _ _ _ _ Hl1 Hl2 Hm) as Hsz.
    change (bb_size_estimate (BlockBuilder_new o)) with 8 in Hsz. lia. }
  eexists m, _. split; [|split; [done|]].
  { unfold finish_filter. rewrite Hfb, Hfin. cbn [bind]. unfold filter_name. rewrite Hpol. fold name.
    rewrite (write_block_ok _ fdata CompressionNone fdata); [|done|cbn; rewrite Hoff; unfold U64; lia].
    unfold st_bind. cbn [bind tb_offset set_filter_block]. rewrite Hoff. fold h.
    rewrite encode_handle_ok by (cbn; lia). cbn [bind]. rewrite (tr_opt _ _ _ _ Hr), Hm. done. }
  cbn. rewrite (tr_dst _ _ _ _ Hr), Hoff, len_app, len_stored. split; [done|]. split; [lia|done].
Qed.

Lemma finish_tail_ok m b ib :
  tb_offset b = len (dst b) → 0 ≤ len (dst b) < 2 ^ 57 → bb_size_estimate m < U32 →
  index_block b = Some ib → bb_size_estimate ib < U32 →
  ∃ n b', finish_tail ct m b = Done (Ok n, b').
Proof.
  intros Hoff Hlen Hm Hib Hi. unfold finish_tail. unfold U32 in *.
  destruct (compress_small (bb_finish m)) as (mdata&Hmc&Hml); [rewrite len_bb_finish; unfold U32; lia|].
  rewrite len_bb_finish in Hml.
  destruct (compress_small (bb_finish ib)) as (idata&Hic&Hil); [rewrite len_bb_finish; unfold U32; lia|].
  rewrite len_bb_finish in Hil.
  rewrite (write_block_ok _ _ _ mdata Hmc) by (unfold U64; lia). unfold st_bind at 1. cbn [bind].
  change (index_block (written b (stored ct mdata))) with (index_block b). rewrite Hib. cbn [unwrap_block bind]. cbv zeta.
  rewrite (write_block_ok _ _ _ idata Hic) by (cbn; rewrite len_stored; unfold U64; lia).
  unfold st_bind at 1. cbn [bind]. cbn [tb_offset set_index_block written set_tb_offset set_dst dst].
  rewrite len_stored. set (f := Footer_new _ _).
  assert (Hf : wf_footer f).
  { assert (wf_handle (meta_index f)) as Hw1 by (split; cbn; unfold U64; lia).
    assert (wf_handle (f_index f)) as Hw2 by (split; cbn; unfold U64; lia).
    split; [done|]. split; [done|]. pose proof (handle_bytes_le_20 _ Hw1).
    pose proof (handle_bytes_le_20 _ Hw2). unfold FOOTER_LENGTH. lia. }
  rewrite Footer_encode_ok by done. rewrite drop_ge, app_nil_r by (by rewrite length_replicate). cbn [bind].
  rewrite tb_write_vec. unfold st_bind at 1. cbn [bind].
  pose proof (len_footer_bytes f Hf) as Hfl. unfold FULL_FOOTER_LENGTH, FOOTER_LENGTH in Hfl.
  rewrite uadd_Done; [|cbn; lia..|cbn; rewrite ?len_stored; unfold U64; lia]. by eexists _, _.
Qed.

(** Keys of a size that a separator can be stored for. *)
Definition short_keys (kvs : list (bytes * bytes)) : Prop := Forall (λ kv, len kv.1 < 2 ^ 30) kvs.

Lemma tb_finish_ok b ds cur :
  tb_rep o b ds cur → sep_ok o ds cur → nonempty_keys (all_kvs ds cur) → fits_all (all_kvs ds cur) →
  short_keys (all_kvs ds cur) → len (filter_key (fp_name (filter_policy o))) < 2 ^ 31 → small b →
  ∃ n b', tb_finish b = Done (Ok n, b').
Proof.
  intros Hr Hsep Hk Hf Hshort Hname Hsmall. rewrite tb_finish_split.
  destruct (estimate_parts b ds cur Hr Hsmall) as (db&ib&fb&Hdb&Hib&Hfb&Hd0&Hi0&Ho0&Hest).
  destruct (tr_data _ _ _ _ Hr) as (db'&Hdb'&Hadd). rewrite Hdb in Hdb'. injection Hdb' as <-.
  destruct (add_all_facts o Hri cur db Hadd) as (Hlk&Hent&_&_).
  rewrite Hdb. cbn [unwrap_block bind]. rewrite Hlk, Hent, (tr_opt _ _ _ _ Hr).
  enough (∃ b1 ds1 ib1, (if 0 <? len cur then
      let! key_past_last := find_short_succ c (last_of cur) in write_data_block b key_past_last
      else Done (Ok tt, b)) = Done (Ok tt, b1) ∧ tb_rep o b1 ds1 [] ∧ all_kvs ds1 [] = all_kvs ds cur ∧
      len (image o ds1) < 2 ^ 34 ∧ index_block b1 = Some ib1 ∧ bb_size_estimate ib1 < U32)
    as (b1&ds1&ib1&->&Hr1&Hall&Hlen&Hib1&Hi1).
  { unfold st_bind at 1. cbn [bind]. rewrite <- Hall in Hk, Hf.
    destruct (finish_filter_ok b1 ds1 Hr1 Hk Hf Hlen Hname) as (m&b2&->&Hm&Hoff2&Hlen2&Hib2).
    unfold st_bind at 1. cbn [bind]. rewrite Hib1 in Hib2. by apply (finish_tail_ok m b2 ib1). }
  destruct (Z.ltb_spec 0 (len cur)) as [Hpos|Hnil].
  - assert (Hne : cur ≠ []) by by intros ->.
    destruct (find_short_succ_ok (last_of cur)) as (s&Hs&Hlt). rewrite Hs. cbn [bind].
    destruct (write_data_block_ok b ds cur s Hr Hsep Hne Hlt Hk Hf Hsmall)
      as (b1&d&ib0&ib1&Hw&Hfs&Hd&Hr1&Himg&Hib0&Hib1&Hi1&Hadd1&Hhl).
    exists b1, (ds ++ [d]), ib1. split; [done|]. split; [done|].
    split; [by rewrite all_kvs_snoc, Hd, app_nil_r|]. split; [done|]. split; [done|].
    pose proof (find_shortest_sep_len _ _ _ Hfs) as Hsl.
    assert (len (last_of cur) < 2 ^ 30).
    { unfold last_of. destruct (last cur) as [kv|] eqn:El; [|done]. cbn.
      apply (proj1 (Forall_forall _ _) Hshort). apply elem_of_app. right.
      rewrite last_lookup in El. by eapply list_elem_of_lookup_2. }
    assert (Hl1 : len (d_sep d) < U64) by (unfold U64; lia).
    assert (Hl2 : len (handle_bytes (d_handle d)) < U64) by (unfold U64; lia).
    pose proof (bb_add_size _ _ _ _ Hl1 Hl2 Hadd1). unfold U32. lia.
  - destruct cur as [|kv cur]; [|rewrite len_cons in Hnil; pose proof (len_nonneg cur); lia].
    exists b, ds, ib. split; [done|]. split; [done|]. split; [done|]. split; [lia|]. split; [done|].
    unfold U32. lia.
Qed.

(** Pairs with increasing keys are stored, if the builder's own estimate is
    small after every prefix of them. *)
Lemma build_table_returns kvs :
  sorted_kvs c kvs = true → nonempty_keys kvs → short_keys kvs → fits_all kvs → stays_small kvs →
  len (filter_key (fp_name (filter_policy o))) < 2 ^ 31 →
  ∃ file, build_table o kvs [] = Done (Ok (len file), file).
Proof.
  intros Hs Hk Hshort Hf Hsmall Hname.
  destruct (tb_adds_ok kvs Hs Hk Hf Hsmall) as (b&ds&cur&Hb&Hr&Hsep&Hall&Hsm). rewrite <- Hall in Hk, Hf, Hshort.
  destruct (tb_finish_ok b ds cur Hr Hsep Hk Hf Hshort Hname Hsm) as (n&b'&Hfin).
  assert (Hbuild : build_table o kvs [] = Done (Ok n, dst b')).
  { unfold build_table. rewrite Hb. unfold st_bind. cbn [bind]. by rewrite Hfin. }
  destruct (build_table_layout o Hri kvs n (dst b') Hbs Hs Hbuild) as (T&_&_&->). by exists (dst b').
Qed.

(** ** Properties *)

(** C35. What the builder counts: after any sequence of [add]s that returned
    [Ok], in order or not, [entries] is the number of pairs, the destination
    holds exactly as many bytes as the builder's offset says, and the size
    estimate is at least these bytes and the footer. *)
Theorem TableBuilder_counts kvs b :
  tb_adds (TableBuilder_new o []) kvs = Done (Ok tt, b) →
  tb_entries b = len kvs ∧ tb_offset b = len (dst b) ∧ len (dst b) + FULL_FOOTER_LENGTH ≤ tb_size_estimate b.
Proof.
  intros Hb. apply (tb_adds_counts _ _ _ 0) in Hb as [Hn Hoff]; [|done]. split; [exact Hn|]. split; [exact Hoff|].
  unfold tb_size_estimate. rewrite Hoff.
  assert (Hbb : ∀ x, 0 ≤ from_option bb_size_estimate 0 x).
  { intros [x|]; [|done]. cbn. unfold bb_size_estimate. pose proof (len_nonneg (buffer x)).
    pose proof (len_nonneg (restarts x)). lia. }
  assert (Hfb : ∀ x, 0 ≤ from_option fb_size_estimate 0 x).
  { intros [x|]; [|done]. cbn. unfold fb_size_estimate. pose proof (len_nonneg (filters x)).
    pose proof (len_nonneg (filter_offsets x)). lia. }
  pose proof (Hbb (data_block b)). pose proof (Hbb (index_block b)). pose proof (Hfb (filter_block b)). lia.
Qed.
End total.
