(* ===== verification/TableDestinations.v ===== *)
(** * Table builders and their destinations (src/table_builder.rs)

    [TableBuilder<Dst: Write>] writes to anything. Here: a destination that takes
    each write in whole, or fails, gets the bytes that a vector would get; when it
    fails, the builder returns the error, what was written is a prefix of the
    table, and the builder must not be used any more. *)

From S2P Require Export TableBuilderProofs.

(** ** Destinations that write in whole *)

Section contract.
Context {Dst : Type} (contents : Dst → bytes).

(** A write of [data] that is complete, or fails after a part of it. *)
Definition appends (d : Dst) (data : bytes) (m : outcome ((Z + io_Error) * Dst)) : Prop :=
  ∃ r d', m = Done (r, d') ∧
    match r with
    | inl n => n = len data ∧ contents d' = contents d ++ data
    | inr _ => ∃ part, part `prefix_of` data ∧ contents d' = contents d ++ part
    end.

(** What [Write::write_all] promises; [Write::write] itself may write less (see
    [TableBuilder_ignores_short_writes]). *)
Class WholeWrite `{E : IntegerEncoding} (W : Write Dst) (FW : FixedIntWriter Dst) : Prop := {
  write_appends d data : appends d data (write d data);
  fixedint_appends d x : appends d (encode_fixed32 x) (write_fixedint32 d x);
  flush_keeps d : ∃ r d', flush d = Done (r, d') ∧ contents d' = contents d;
}.
End contract.

#[export] Instance Vec_WholeWrite `{E : IntegerEncoding} : WholeWrite (λ v : bytes, v) Vec_Write Vec_FixedIntWriter.
Proof.
  split; [intros d data; by eexists _, _|intros d x; by eexists _, _|intros d; by eexists _, _].
Qed.

(** ** The simulation *)

Section simulation.
Context `{E : IntegerEncoding, !Crc32c, !Snappy}.
Context {Dst : Type} (contents : Dst → bytes) {W : Write Dst} {FW : FixedIntWriter Dst} {HW : WholeWrite contents W FW}.
Context (pre : bytes) (d0 : Dst).
Implicit Types (b : TableBuilder Dst) (v : TableBuilder bytes).

(** The builder over the destination is where the builder over a vector is ... *)
Record same b v : Prop := {
  same_opt : tb_opt b = tb_opt v;
  same_offset : tb_offset b = tb_offset v;
  same_entries : num_entries b = num_entries v;
  same_last : prev_block_last_key b = prev_block_last_key v;
  same_data : data_block b = data_block v;
  same_index : index_block b = index_block v;
  same_filter : filter_block b = filter_block v;
}.

(** ... and so is the destination, which had [pre] in it before. *)
Definition written b v : Prop := contents (dst b) = pre ++ dst v.

Definition io_failed {A} (m : outcome (result A * TableBuilder Dst)) (Q : TableBuilder Dst → Prop) : Prop :=
  ∃ e b, m = Done (Err (from_io_Error e), b) ∧ Q b.

(** A call over the destination, next to the same call over a vector that
    started at [v0]: if the destination was right ([P]), the call does the same,
    or the destination fails on the way. *)
Definition refines {A} (P : Prop) v0 (m : outcome (result A * TableBuilder Dst))
    (mv : outcome (result A * TableBuilder bytes)) : Prop :=
  match mv with
  | Fail f => P → m = Fail f ∨ io_failed m (λ _, True)
  | Done (r, v) => dst v0 `prefix_of` dst v ∧
      (P → (∃ b, m = Done (r, b) ∧ same b v ∧ written b v) ∨
           io_failed m (λ b, contents (dst b) `prefix_of` pre ++ dst v))
  end.

Lemma refines_ret {A} v0 b v (r : result A) :
  same b v → dst v = dst v0 → refines (written b v0) v0 (Done (r, b)) (Done (r, v)).
Proof.
  intros Hs Hd. split; [by rewrite Hd|]. intros Hw. left. exists b. split; [done|]. split; [done|].
  unfold written in *. by rewrite Hd.
Qed.

(** What needs no destination is the same on both sides. *)
Lemma refines_pure {A B} P v0 (p : outcome B) (k : B → outcome (result A * TableBuilder Dst)) kv :
  (∀ x, p = Done x → refines P v0 (k x) (kv x)) → refines P v0 (bind p k) (bind p kv).
Proof. intros Hk. destruct p as [x|f]; cbn; [by apply Hk|]. intros _. by left. Qed.

(** The builder of a vector over some destination. *)
Definition like v : TableBuilder Dst :=
  mkTableBuilder (tb_opt v) d0 (tb_offset v) (num_entries v) (prev_block_last_key v) (data_block v)
    (index_block v) (filter_block v).

Lemma refines_bind {A B} P v0 (m : outcome (result A * TableBuilder Dst)) mv
    (k : A → TableBuilder Dst → outcome (result B * TableBuilder Dst)) kv :
  refines P v0 m mv → (∀ a b v, same b v → refines (written b v) v (k a b) (kv a v)) →
  refines P v0 (st_bind m k) (st_bind mv kv).
Proof.
  intros Hm Hk. unfold st_bind. destruct mv as [[[a|e] v]|f]; cbn [bind]; unfold refines in Hm.
  - destruct Hm as [Hpre Hm]. pose proof (Hk a (like v) v ltac:(by split)) as Hlike. unfold refines in *.
    destruct (kv a v) as [[r v']|f] eqn:Hkv.
    + destruct Hlike as [Hpre' _]. split; [by etransitivity|]. intros HP.
      destruct (Hm HP) as [(b&->&Hs&Hw)|(e&b&->&Hb)].
      * specialize (Hk a b v Hs). rewrite Hkv in Hk. by apply Hk.
      * right. exists e, b. split; [done|]. etransitivity; [exact Hb|]. by apply prefix_app.
    + intros HP. destruct (Hm HP) as [(b&->&Hs&Hw)|(e&b&->&_)]; [|by right; exists e, b].
      specialize (Hk a b v Hs). rewrite Hkv in Hk. by apply Hk.
  - destruct Hm as [Hpre Hm]. split; [done|]. intros HP. destruct (Hm HP) as [(b&->&Hs&Hw)|(e'&b&->&Hb)].
    + left. by exists b.
    + right. by exists e', b.
  - intros HP. destruct (Hm HP) as [->|(e&b&->&_)]; [by left|right; by exists e, b].
Qed.

(** A change of other fields before a call. *)
Lemma refines_from {A} b b' v v' (m : outcome (result A * TableBuilder Dst)) mv :
  dst b' = dst b → dst v' = dst v → refines (written b' v') v' m mv → refines (written b v) v m mv.
Proof. unfold refines, written. by intros -> ->. Qed.

(** ** Writing *)

Lemma refines_append b v data (m : outcome ((Z + io_Error) * Dst)) :
  same b v → appends contents (dst b) data m →
  refines (written b v) v (io_result b m) (Done (Ok (len data), set_dst v (dst v ++ data))).
Proof.
  intros Hs (r&d'&->&Hr). unfold refines, io_failed, io_result, written. cbn [bind set_dst dst].
  split; [by apply prefix_app_r|]. intros Hw. destruct r as [n|e].
  - destruct Hr as [-> Hd']. left. eexists. split; [done|]. split; [by destruct Hs|].
    cbn. by rewrite Hd', Hw, app_assoc.
  - destruct Hr as (part&[rest ->]&Hd'). right. eexists e, _. split; [done|]. cbn.
    rewrite Hd', Hw, !app_assoc. by apply prefix_app_r.
Qed.

Lemma tb_write_refines b v data : same b v → refines (written b v) v (tb_write b data) (tb_write v data).
Proof. intros Hs. apply (refines_append b v data _ Hs), HW. Qed.

Lemma tb_write_fixedint_refines b v x :
  same b v → refines (written b v) v (tb_write_fixedint b x) (tb_write_fixedint v x).
Proof. intros Hs. apply (refines_append b v _ _ Hs), HW. Qed.

Lemma tb_flush_refines b v : same b v → refines (written b v) v (tb_flush b) (tb_flush v).
Proof.
  intros Hs. unfold tb_flush. destruct (flush_keeps contents (WholeWrite := HW) (dst b)) as (r&d'&->&Hd').
  unfold refines, io_failed, io_result, written. cbn [bind set_dst dst flush Vec_Write]. split; [done|].
  intros Hw. destruct r as [[]|e].
  - left. eexists. split; [done|]. split; [by destruct Hs|]. cbn. by rewrite Hd', Hw.
  - right. eexists e, _. split; [done|]. cbn. by rewrite Hd', Hw.
Qed.

Lemma refines_done {A} b b' v v' (r : result A) :
  same b' v' → dst b' = dst b → dst v' = dst v → refines (written b v) v (Done (r, b')) (Done (r, v')).
Proof. intros Hs Hb Hv. by apply (refines_from b b' v v'), refines_ret. Qed.

(** ** The operations *)

(** Builders stay alike when the same fields change. *)
#[local] Ltac alike := match goal with Hs : same _ _ |- same _ _ => destruct Hs; split; cbn; congruence end.
(** Read the fields of one for the other's. *)
#[local] Ltac sync Hs :=
  rewrite ?(same_opt _ _ Hs), ?(same_offset _ _ Hs), ?(same_entries _ _ Hs), ?(same_last _ _ Hs),
    ?(same_data _ _ Hs), ?(same_index _ _ Hs), ?(same_filter _ _ Hs).

Lemma write_block_refines b v block ctype :
  same b v → refines (written b v) v (write_block b block ctype) (write_block v block ctype).
Proof.
  intros Hs. unfold write_block. apply refines_bind; [by apply refines_ret|]. intros data b1 v1 Hs1.
  apply refines_bind; [by apply tb_write_refines|]. intros _ b2 v2 Hs2.
  apply refines_bind; [by apply tb_write_refines|]. intros _ b3 v3 Hs3.
  apply refines_bind; [by apply tb_write_fixedint_refines|]. intros _ b4 v4 Hs4. cbv zeta. sync Hs4.
  apply refines_pure. intros off _. apply refines_done; [alike|done|done].
Qed.

Lemma write_data_block_refines b v next_key :
  same b v → refines (written b v) v (write_data_block b next_key) (write_data_block v next_key).
Proof.
  intros Hs. unfold write_data_block. sync Hs. apply refines_pure. intros db _. cbv zeta.
  cbn [tb_opt set_data_block]. sync Hs. apply refines_pure. intros sep _.
  apply (refines_from b (set_prev_key (set_data_block b None) (last_key db)) v
    (set_prev_key (set_data_block v None) (last_key db))); [done|done|].
  cbn [tb_opt set_prev_key set_data_block]. sync Hs.
  apply refines_bind; [apply write_block_refines; alike|]. intros handle b1 v1 Hs1.
  apply refines_pure. intros henc _. sync Hs1. apply refines_pure. intros ib _. apply refines_pure. intros ib' _.
  cbn [tb_opt set_index_block set_data_block filter_block tb_offset]. sync Hs1. destruct (filter_block v1) as [fb|].
  - apply refines_pure. intros fb' _. apply refines_done; [alike|done|done].
  - apply refines_done; [alike|done|done].
Qed.

Lemma tb_add_refines b v key val : same b v → refines (written b v) v (tb_add b key val) (tb_add v key val).
Proof.
  intros Hs. unfold tb_add. sync Hs. apply refines_pure. intros db _.
  destruct (_ || _); [|by left]. apply refines_bind.
  - destruct (_ <? _); [by apply write_data_block_refines|by apply refines_ret].
  - intros _ b1 v1 Hs1. sync Hs1. apply refines_pure. intros db1 _. cbv zeta. apply refines_pure. intros db2 _.
    apply refines_done; [alike|done|done].
Qed.

Lemma tb_adds_refines kvs b v : same b v → refines (written b v) v (tb_adds b kvs) (tb_adds v kvs).
Proof.
  revert b v. induction kvs as [|kv kvs IH]; intros b v Hs; cbn [tb_adds]; [by apply refines_ret|].
  apply refines_bind; [by apply tb_add_refines|]. intros _ b1 v1 Hs1. by apply IH.
Qed.

Lemma tb_finish_refines b v : same b v → refines (written b v) v (tb_finish b) (tb_finish v).
Proof.
  intros Hs. unfold tb_finish. sync Hs. apply refines_pure. intros db _. cbv zeta.
  apply refines_bind.
  { destruct (_ <? _); [|by apply refines_ret]. apply refines_pure. intros past _. by apply write_data_block_refines. }
  intros _ b1 v1 Hs1. sync Hs1. apply refines_bind.
  { destruct (filter_block v1) as [fb|]; [|by apply refines_ret]. apply refines_pure. intros data _.
    apply (refines_from b1 (set_filter_block b1 None) v1 (set_filter_block v1 None)); [done|done|].
    apply refines_bind; [apply write_block_refines; alike|]. intros h b2 v2 Hs2.
    apply refines_pure. intros henc _. apply refines_pure. intros m _. by apply refines_ret. }
  intros m b2 v2 Hs2. apply refines_bind; [by apply write_block_refines|]. intros mh b3 v3 Hs3. sync Hs3.
  apply refines_pure. intros ib _.
  apply (refines_from b3 (set_index_block b3 None) v3 (set_index_block v3 None)); [done|done|].
  apply refines_bind; [apply write_block_refines; alike|]. intros ih b4 v4 Hs4.
  apply refines_pure. intros buf _. apply refines_bind; [by apply tb_write_refines|]. intros n b5 v5 Hs5. sync Hs5.
  apply refines_pure. intros off _.
  apply (refines_from b5 (set_tb_offset b5 off) v5 (set_tb_offset v5 off)); [done|done|].
  apply refines_bind; [apply tb_flush_refines; alike|]. intros _ b6 v6 Hs6. sync Hs6. by apply refines_ret.
Qed.
End simulation.

(** ** After an error *)

Section failed.
Context `{E : IntegerEncoding, !Crc32c, !Snappy} {Dst : Type} {W : Write Dst} {FW : FixedIntWriter Dst}.
Implicit Types (b : TableBuilder Dst).

Lemma io_result_data_block {A} b (m : outcome ((A + io_Error) * Dst)) r b' :
  io_result b m = Done (r, b') → data_block b' = data_block b.
Proof. unfold io_result. intros Hret. apply bind_Done in Hret as ([[n|e] d]&_&[= _ <-]); done. Qed.

(** The step of [st_bind] that returned. *)
Lemma st_bind_inv {S A B} (m : outcome (result A * S)) (k : A → S → outcome (result B * S)) r s :
  st_bind m k = Done (r, s) →
  (∃ a s1, m = Done (Ok a, s1) ∧ k a s1 = Done (r, s)) ∨ (∃ e, m = Done (Err e, s) ∧ r = Err e).
Proof.
  unfold st_bind. intros Hret. apply bind_Done in Hret as ([[a|e] s1]&Hm&Hk); [left; by exists a, s1|].
  injection Hk as <- <-. right. by exists e.
Qed.

Lemma write_block_data_block b block ctype r b' :
  write_block b block ctype = Done (r, b') → data_block b' = data_block b.
Proof.
  unfold write_block. intros [(data&b1&[= _ <-]&Hret)|(e&[= _ <-]&_)]%st_bind_inv; [|done].
  apply st_bind_inv in Hret as [(n&b2&H1%io_result_data_block&Hret)|(e&H1%io_result_data_block&_)]; [rewrite <- H1|done].
  apply st_bind_inv in Hret as [(n2&b3&H2%io_result_data_block&Hret)|(e&H2%io_result_data_block&_)]; [rewrite <- H2|done].
  apply st_bind_inv in Hret as [(n3&b4&H3%io_result_data_block&Hret)|(e&H3%io_result_data_block&_)]; [rewrite <- H3|done].
  cbv zeta in Hret. apply bind_Done in Hret as (off&_&[= _ <-]). done.
Qed.

Lemma write_data_block_failed b key e b' :
  write_data_block b key = Done (Err e, b') → data_block b' = None.
Proof.
  unfold write_data_block. intros Hret. apply bind_Done in Hret as (db&_&Hret). cbv zeta in Hret.
  apply bind_Done in Hret as (sep&_&Hret).
  apply st_bind_inv in Hret as [(h&b1&_&Hret)|(e'&H1%write_block_data_block&_)]; [|done].
  apply bind_Done in Hret as (enc&_&Hret). apply bind_Done in Hret as (ib&_&Hret). apply bind_Done in Hret as (ib'&_&Hret).
  destruct (filter_block _); [|done]. by apply bind_Done in Hret as (fb&_&[=]).
Qed.

Lemma tb_add_failed b key val e b' : tb_add b key val = Done (Err e, b') → data_block b' = None.
Proof.
  unfold tb_add. intros Hret. apply bind_Done in Hret as (db&_&Hret). destruct (_ || _); [|done].
  apply st_bind_inv in Hret as [(u&b1&_&Hret)|(e'&H1&_)].
  - apply bind_Done in Hret as (db1&_&Hret). cbv zeta in Hret. by apply bind_Done in Hret as (db2&_&[=]).
  - destruct (_ <? _); [by eapply write_data_block_failed|done].
Qed.
End failed.

(** ** Properties *)

Section properties.
Context `{E : IntegerEncoding, !Crc32c, !Snappy}.
Context {Dst : Type} (contents : Dst → bytes) {W : Write Dst} {FW : FixedIntWriter Dst}.

Lemma build_table_simulates o kvs (d : Dst) :
  WholeWrite contents W FW →
  refines contents (contents d) (contents d = contents d) (TableBuilder_new o [])
    (try! _, b := tb_adds (TableBuilder_new o d) kvs in tb_finish b)
    (try! _, v := tb_adds (TableBuilder_new o []) kvs in tb_finish v).
Proof.
  intros HW. cut (refines contents (contents d)
    (written contents (contents d) (TableBuilder_new o d) (TableBuilder_new o [])) (TableBuilder_new o [])
    (try! _, b := tb_adds (TableBuilder_new o d) kvs in tb_finish b)
    (try! _, v := tb_adds (TableBuilder_new o []) kvs in tb_finish v)).
  { unfold written. cbn. by rewrite app_nil_r. }
  apply (refines_bind contents _ d); [by apply tb_adds_refines|]. intros _ b v Hs. by apply tb_finish_refines.
Qed.

(** A table that can be built in memory: the destination gets it, or fails. *)
Lemma build_table_at o kvs n file (d : Dst) :
  WholeWrite contents W FW → build_table o kvs [] = Done (Ok n, file) →
  (∃ d', build_table o kvs d = Done (Ok n, d') ∧ contents d' = contents d ++ file) ∨
  (∃ e d', build_table o kvs d = Done (Err (from_io_Error e), d')).
Proof.
  intros HW Hb. pose proof (build_table_simulates o kvs d HW) as Href. unfold build_table in *.
  apply bind_Done in Hb as ([r v]&Hv&[= -> <-]). rewrite Hv in Href.
  destruct Href as [_ [(b&->&_&Hb)|(e&b&->&_)]]; [done|left; by exists (dst b)|right; by exists e, (dst b)].
Qed.

(** C13. A builder writes the same table to every destination. Let each write to
    the destination be complete or fail after some part of the data. Where
    building the table in memory returns, with any result, building it over the
    destination returns the same and appends the same bytes, or else the
    destination failed: then its error comes back as a status, and what was
    appended is a prefix of the table. It panics only where building in memory
    does. *)
Theorem TableBuilder_any_destination o kvs (d : Dst) :
  WholeWrite contents W FW →
  let failed Q := ∃ e d', build_table o kvs d = Done (Err (from_io_Error e), d') ∧ Q d' in
  match build_table o kvs [] with
  | Done (r, file) =>
      (∃ d', build_table o kvs d = Done (r, d') ∧ contents d' = contents d ++ file) ∨
      failed (λ d', contents d' `prefix_of` contents d ++ file)
  | Fail f => build_table o kvs d = Fail f ∨ failed (λ _, True)
  end.
Proof.
  intros HW failed. pose proof (build_table_simulates o kvs d HW) as Href. unfold failed, build_table.
  unfold refines in Href.
  destruct (try! _, v := tb_adds (TableBuilder_new o []) kvs in tb_finish v) as [[r v]|f]; cbn [bind].
  - destruct Href as [_ [(b&->&_&Hb)|(e&b&->&Hb)]]; [done|left|right]; cbn [bind]; eauto.
  - destruct Href as [->|(e&b&->&_)]; [done|left|right]; cbn [bind]; eauto.
Qed.

(** A builder whose [add] returned an error is of no use any more: the data
    block it was writing is gone, and every further [add], and [finish], panics. *)
Theorem TableBuilder_dead_after_error (b b' : TableBuilder Dst) key val e key' val' :
  tb_add b key val = Done (Err e, b') → tb_add b' key' val' = Panic ∧ tb_finish b' = Panic.
Proof. intros Hb%tb_add_failed. unfold tb_add, tb_finish. by rewrite Hb. Qed.
End properties.
