(* ===== verification/TableReader.v ===== *)
(** * Reading tables (src/table_reader.rs)

    [Table] with its lookup, and the two-level [TableIterator]. The block cache
    that all tables of one [Options] share is threaded through the operations
    that use it: they take its state and return the new one. *)

From S2P Require Export TableBuilder Cache.

(** ** The block cache of a set of options

    [Options::with_cache_capacity] and [Options::default] create the cache that
    the options carry; here it comes beside them. *)
Definition with_cache_capacity (self : Options) (capacity : Z) : outcome (Options * Cache Block) :=
  let! block_cache := Cache_new capacity in
  Done (self, block_cache).

Definition Options_default_with_cache `{E : IntegerEncoding} : outcome (Options * Cache Block) :=
  let! block_cache := Cache_new default_cache_capacity in
  Done (Options_default, block_cache).

Section footer.
Context `{E : IntegerEncoding}.

Definition read_footer (f : RandomAccess) (size : Z) : outcome (result Footer) :=
  let buf := replicate (Z.to_nat FULL_FOOTER_LENGTH) x00 in
  let! off := usub size FULL_FOOTER_LENGTH in
  let? (_, buf) := read_at f off buf in
  let! footer := Footer_decode buf in
  Done (Ok footer).
End footer.

(** ** current_key_val of a block iterator, [types::current_key_val] at this type *)
Definition block_current_key_val `{E : IntegerEncoding} (it : BlockIter) : outcome (option (bytes * bytes)) :=
  current_key_val it.

(** ** Table *)

Record Table := mkTable {
  file : RandomAccess;
  t_cache_id : Z;
  t_opt : Options;
  footer : Footer;
  t_index_block : Block;
  t_filters : option FilterBlockReader;
}.

Section Table.
Context `{E : IntegerEncoding, !Crc32c, !Snappy}.
Implicit Types (self : Table) (cache : Cache Block).

(** [Table::read_filter_block] *)
Definition Table_read_filter_block (metaix : Block) (file : RandomAccess) (options : Options) :
    outcome (result (option FilterBlockReader)) :=
  let name := filter_key (fp_name (filter_policy options)) in
  let! metaindexiter := Block_iter metaix in
  let! metaindexiter := bi_seek metaindexiter name in
  let! kv := current_key_val metaindexiter in
  match kv with
  | Some (_, val) =>
      let! (filter_block_location, _) := BlockHandle_decode val in
      if 0 <? bh_size filter_block_location then
        let? r := read_filter_block file filter_block_location (filter_policy options) in
        Done (Ok (Some r))
      else Done (Ok None)
  | None => Done (Ok None)
  end.

Definition Table_new (opt : Options) (file : RandomAccess) (size : Z) cache :
    outcome (result Table * Cache Block) :=
  try! footer, cache := (let! r := read_footer file size in Done (r, cache)) in
  try! index_block, cache :=
    (let! r := read_table_block opt file (f_index footer) in Done (r, cache)) in
  try! metaindex_block, cache :=
    (let! r := read_table_block opt file (meta_index footer) in Done (r, cache)) in
  try! filter_block_reader, cache :=
    (let! r := Table_read_filter_block metaindex_block file opt in Done (r, cache)) in
  let! (cache_id, cache) := new_cache_id cache in
  Done (Ok (mkTable file cache_id opt footer index_block filter_block_reader), cache).

(** [OpenOptions::open] and [File::metadata] are the operating system's: [open]
    gives the file and its length. *)
Definition new_from_file (opt : Options) (open : bytes → (RandomAccess * Z) + io_Error)
    (path : bytes) cache : outcome (result Table * Cache Block) :=
  match open path with
  | inl (f, size) => Table_new opt f size cache
  | inr e => Done (Err (from_io_Error e), cache)
  end.

Definition block_cache_handle self (block_off : Z) : outcome CacheKey :=
  let dst := replicate 16 x00 in
  let! dst := write_bytes_at dst 0 (encode_fixed64 (t_cache_id self)) in
  write_bytes_at dst 8 (encode_fixed64 block_off).

Definition read_block self (location : BlockHandle) cache : outcome (result Block * Cache Block) :=
  let! cachekey := block_cache_handle self (bh_offset location) in
  let! (hit, cache) := cache_get cache cachekey in
  match hit with
  | Some block => Done (Ok block, cache)
  | None =>
      let! r := read_table_block (t_opt self) (file self) location in
      match r with
      | Ok b => let! cache := cache_insert cache cachekey b in Done (Ok b, cache)
      | Err e => Done (Err e, cache)
      end
  end.

End Table.

(** ** Where blocks come from

    Lookups and iterators reach the shared cache only through
    [Table::read_block]. They are written against this interface, with the
    state of the source passed along; the code's source is the block cache. *)
Class BlockSource (St : Type) :=
  fetch_block : Table → BlockHandle → St → outcome (result Block * St).

#[export] Instance Cache_source `{E : IntegerEncoding, !Crc32c, !Snappy} : BlockSource (Cache Block) :=
  read_block.

Section lookup.
Context `{E : IntegerEncoding} {St : Type} `{!BlockSource St}.
Implicit Types (self : Table) (cache : St).

Definition approx_offset_of self (key : bytes) : outcome Z :=
  let! iter := Block_iter (t_index_block self) in
  let! iter := bi_seek iter key in
  let! kv := current_key_val iter in
  match kv with
  | Some (_, val) =>
      let! (location, _) := BlockHandle_decode val in
      Done (bh_offset location)
  | None => Done (bh_offset (meta_index (footer self)))
  end.

(** Look for [key] in the block at [handle]. *)
Definition get_in_block self (key : bytes) (handle : BlockHandle) cache :
    outcome (result (option bytes) * St) :=
  try! tb, cache := fetch_block self handle cache in
  let! iter := Block_iter tb in
  let! iter := bi_seek iter key in
  let! kv := current_key_val iter in
  match kv with
  | Some (k, v) =>
      match cmp (opt_cmp (t_opt self)) k key with
      | Eq => Done (Ok (Some v), cache)
      | _ => Done (Ok None, cache)
      end
  | None => Done (Ok None, cache)
  end.

Definition table_get self (key : bytes) cache : outcome (result (option bytes) * St) :=
  let! index_iter := Block_iter (t_index_block self) in
  let! index_iter := bi_seek index_iter key in
  let! kv := current_key_val index_iter in
  match kv with
  | Some (last_in_block, h) =>
      match cmp (opt_cmp (t_opt self)) key last_in_block with
      | Lt =>
          let! (handle, _) := BlockHandle_decode h in
          let! may := match t_filters self with
                      | Some filters => fr_key_may_match filters (bh_offset handle) key
                      | None => Done true
                      end in
          if (may : bool) then get_in_block self key handle cache else Done (Ok None, cache)
      | _ => Done (Ok None, cache)
      end
  | None => Done (Ok None, cache)
  end.
End lookup.

(** ** TableIterator *)

Record TableIterator := mkTableIterator {
  table : Table;
  current_block : option BlockIter;
  current_block_off : Z;
  ti_index_block : BlockIter;
}.

Section TableIterator.
Context `{E : IntegerEncoding} {St : Type} `{!BlockSource St}.
Implicit Types (self : TableIterator) (cache : St).

Definition set_current_block self x :=
  mkTableIterator (table self) x (current_block_off self) (ti_index_block self).
Definition set_index_iter self x :=
  mkTableIterator (table self) (current_block self) (current_block_off self) x.

Definition table_iter (self : Table) : outcome TableIterator :=
  let! it := Block_iter (t_index_block self) in
  Done (mkTableIterator self None 0 it).

Definition load_block self (handle : bytes) cache :
    outcome (result unit * (TableIterator * St)) :=
  let! (new_block_handle, _) := BlockHandle_decode handle in
  let! (r, cache) := fetch_block (table self) new_block_handle cache in
  match r with
  | Ok block =>
      let! it := Block_iter block in
      Done (Ok tt, (mkTableIterator (table self) (Some it) (bh_offset new_block_handle)
                      (ti_index_block self), cache))
  | Err e => Done (Err e, (self, cache))
  end.

Definition skip_to_next_entry self cache : outcome (result bool * (TableIterator * St)) :=
  let! (kv, ib) := next (ti_index_block self) in
  let self := set_index_iter self ib in
  match kv with
  | Some (_, val) =>
      let! (r, s) := load_block self val cache in
      match r with
      | Ok _ => Done (Ok true, s)
      | Err e => Done (Err e, s)
      end
  | None => Done (Ok false, (self, cache))
  end.

Definition ti_reset self : TableIterator :=
  mkTableIterator (table self) None (current_block_off self) (bi_reset (ti_index_block self)).

(** What [advance] does with the outcome of [skip_to_next_entry]; [rec] is
    [advance] itself. *)
Definition after_skip (rec : TableIterator → St → outcome (bool * (TableIterator * St)))
    self cache : outcome (bool * (TableIterator * St)) :=
  let! (r, s) := skip_to_next_entry self cache in
  match r with
  | Ok true => rec s.1 s.2
  | Ok false => Done (false, (ti_reset s.1, s.2))
  | Err _ => rec s.1 s.2
  end.

(** [advance] calls itself after every index entry it skips to. How deep the stack
    gets then, one call for every block in a row that has no pairs or cannot be
    read, is left out. *)
Fixpoint ti_advance (fuel : nat) self cache : outcome (bool * (TableIterator * St)) :=
  match fuel with
  | O => NoFuel
  | S n =>
      match current_block self with
      | None => after_skip (ti_advance n) self cache
      | Some cb =>
          let! (ok, cb) := bi_advance cb in
          let self := set_current_block self (Some cb) in
          if (ok : bool) then Done (true, (self, cache))
          else after_skip (ti_advance n) (set_current_block self None) cache
      end
  end.

(** One call for every index entry that is left, and one more. *)
Definition advance_fuel self : nat := S (S (length (Block.block (ti_index_block self)))).

Definition ti_seek self (to : bytes) cache : outcome (TableIterator * St) :=
  let! ib := bi_seek (ti_index_block self) to in
  let self := set_index_iter self ib in
  let! kv := current_key_val (ti_index_block self) in
  let fail self cache := Done (ti_reset self, cache) in
  match kv with
  | Some (past_block, handle) =>
      match cmp (opt_cmp (t_opt (table self))) to past_block with
      | Gt => fail self cache
      | _ =>
          let! (r, (self, cache)) := load_block self handle cache in
          match r with
          | Ok _ =>
              let! cb := unwrap_block (current_block self) in
              let! cb := bi_seek cb to in
              Done (set_current_block self (Some cb), cache)
          | Err _ => fail self cache
          end
      end
  | None => fail self cache
  end.

(** The second half of [prev]: the last entry of the block before. *)
Definition prev_block self cache : outcome (bool * (TableIterator * St)) :=
  let! (ok, ib) := bi_prev (ti_index_block self) in
  let self := set_index_iter self ib in
  if (ok : bool) then
    let! kv := current_key_val (ti_index_block self) in
    match kv with
    | Some (_, handle) =>
        let! (r, (self, cache)) := load_block self handle cache in
        match r with
        | Ok _ =>
            let! cb := unwrap_block (current_block self) in
            let! cb := seek_to_last cb in
            Done (bi_valid cb, (set_current_block self (Some cb), cache))
        | Err _ => Done (false, (ti_reset self, cache))
        end
    | None => Done (false, (self, cache))
    end
  else Done (false, (self, cache)).

Definition ti_prev self cache : outcome (bool * (TableIterator * St)) :=
  match current_block self with
  | Some cb =>
      let! (ok, cb) := bi_prev cb in
      let self := set_current_block self (Some cb) in
      if (ok : bool) then Done (true, (self, cache)) else prev_block self cache
  | None => prev_block self cache
  end.

Definition ti_valid self : bool :=
  match current_block self with
  | Some cb => bi_valid cb
  | None => false
  end.

Definition ti_current self (k v : bytes) : outcome (bool * bytes * bytes) :=
  match current_block self with
  | Some cb => bi_current cb k v
  | None => Done (false, k, v)
  end.

Definition ti_current_key self : option bytes :=
  match current_block self with
  | Some cb => bi_current_key cb
  | None => None
  end.

(** The iterator with the source it shares with its table. *)
#[export] Instance TableIterator_SSIterator : SSIterator (TableIterator * St) := {
  advance s := ti_advance (advance_fuel s.1) s.1 s.2;
  current s := ti_current s.1;
  current_key s := ti_current_key s.1;
  seek s to := ti_seek s.1 to s.2;
  reset s := Done (ti_reset s.1, s.2);
  valid s := ti_valid s.1;
  prev s := ti_prev s.1 s.2;
}.
End TableIterator.
