(* ===== verification/TableSafety.v ===== *)
(** * Tables over arbitrary files (src/table_reader.rs)

    Nothing is assumed here about the bytes of the file: opening it, looking up
    keys and iterating may return errors or panic on corrupt contents, but every
    loop ends, and no access is undefined behaviour, whatever blocks the shared
    cache holds. *)

From S2P Require Export TableReader BlockSafety CacheProofs.

Section calls.
Context `{E : IntegerEncoding, !IntegerEncodingSpec E, C : Crc32c, Sn : Snappy}.

(** ** What the code outside may do *)

(** Reading from the file returns or panics. *)
Definition file_safe (f : RandomAccess) : Prop := ∀ off dst, terminates (read_at f off dst).

Definition policy_safe (p : FilterPolicy) : Prop := ∀ key filter, terminates (key_may_match p key filter).

Lemma BufferBackedFile_safe bs : file_safe (BufferBackedFile bs).
Proof. intros off dst. cbn. unfold BufferBackedFile_read_at. solve_terminates. Qed.

Lemma File_safe r : file_safe (File r).
Proof. intros off dst. cbn. by destruct (r off dst). Qed.

Lemma try_terminates {A B} (m : outcome (result A)) (k : A → outcome (result B)) :
  terminates m → (∀ a, terminates (k a)) → terminates (try_bind m k).
Proof. intros Hm Hk. unfold try_bind. apply terminates_bind; [done|]. intros [a|e] _; [apply Hk|done]. Qed.

(** The filter policies of the library return or panic on any filter. *)
Lemma NoFilterPolicy_safe : policy_safe NoFilterPolicy.
Proof. by intros key filter. Qed.

Lemma terminates_bloom_hash data : terminates (Bloom.bloom_hash data).
Proof.
  unfold Bloom.bloom_hash, Bloom.umul. apply terminates_bind; [by case_match|intros lm _].
  destruct (BloomProofs.hash_words_Done (S (length data)) data 0 (Z.lxor Bloom.BLOOM_SEED (as_u32 lm)))
    as (h&ix&->&_&_); [pose proof (len_nonneg data); lia|unfold len; lia|].
  cbn [bind]. apply terminates_assert; intros _. case_match; [|done].
  by apply terminates_bind; [auto with rust|].
Qed.

Lemma terminates_test_probes n bits h delta filter : terminates (Bloom.test_probes n bits h delta filter).
Proof.
  revert h. induction n as [|n IH]; intros h; [done|]. cbn [Bloom.test_probes].
  apply terminates_bind; [unfold Bloom.urem; by case_match|intros pos _].
  apply terminates_bind; [|intros bit _; case_match; [done|apply IH]].
  unfold Bloom.get_bit. by apply terminates_bind; [auto with rust|].
Qed.

Lemma BloomPolicy_safe b : policy_safe (Bloom.policy b).
Proof.
  intros key filter. cbn. unfold Bloom.key_may_match. case_match; [done|]. apply terminates_assert; intros _.
  apply terminates_bind; [auto with rust|intros k _]. apply terminates_bind; [auto with rust|intros adj _].
  case_match; [done|]. apply terminates_bind; [apply terminates_bloom_hash|intros h _].
  apply terminates_test_probes.
Qed.

(** ** Reading stored blocks *)

Lemma terminates_handle_decode bs : terminates (BlockHandle_decode bs).
Proof. unfold BlockHandle_decode. solve_terminates. Qed.

Lemma terminates_footer_decode bs : terminates (Footer_decode bs).
Proof.
  unfold Footer_decode. apply terminates_assert; intros _. apply terminates_bind; [auto with rust|intros magic _].
  apply terminates_assert; intros _. apply terminates_bind; [apply terminates_handle_decode|intros [h n] _].
  apply terminates_bind; [auto with rust|intros rest _].
  by apply terminates_bind; [apply terminates_handle_decode|intros [h2 n2] _].
Qed.

(** What decoding yields is in range, whatever was decoded. *)
Lemma decode_handle_typed bs h n : BlockHandle_decode bs = Done (h, n) → wf_handle h.
Proof.
  unfold BlockHandle_decode. intros ([x nx]&Hx&(rest&_&([y ny]&Hy&[= <- _])%bind_Done)%bind_Done)%bind_Done.
  apply decode_var_unwrap_inv in Hx, Hy. split; cbn; lia.
Qed.

Definition footer_typed (ft : Footer) : Prop := wf_handle (meta_index ft) ∧ wf_handle (f_index ft).

Lemma decode_footer_typed bs ft : Footer_decode bs = Done ft → footer_typed ft.
Proof.
  unfold Footer_decode. case_match; [|done]. intros (m&_&H0)%bind_Done. case_match; [|done].
  apply bind_Done in H0 as ([h n]&Hh%decode_handle_typed&(rest&_&([h2 n2]&Hh2%decode_handle_typed&[= <-])%bind_Done)%bind_Done).
  by split.
Qed.

(** The fields of a filter reader: an offset of 32 bits, and a byte. *)
Definition filter_typed (r : FilterBlockReader) : Prop := 0 ≤ offsets_offset r < U32 ∧ 0 ≤ filter_base_lg2 r < 256.

Lemma filter_reader_typed p bs r : FilterBlockReader_new p bs = Done r → filter_typed r ∧ fr_policy r = p.
Proof.
  unfold FilterBlockReader_new. case_match; [|done].
  intros (b&_&(o4&_&[= <-])%bind_Done)%bind_Done. split; [split; [apply decode_fixed32_range|apply b2z_range]|done].
Qed.

Lemma terminates_split_off v i : terminates (split_off v i).
Proof. unfold split_off. solve_terminates. Qed.

Lemma terminates_Block_new o bs : terminates (Block_new o bs).
Proof. unfold Block_new. by apply terminates_assert. Qed.

Lemma terminates_read_bytes f h : file_safe f → terminates (read_bytes f h).
Proof. intros Hf. unfold read_bytes. apply try_terminates; [apply Hf|]. by intros [n buf]. Qed.

Lemma terminates_read_table_block o f h : file_safe f → terminates (read_table_block o f h).
Proof.
  intros Hf. unfold read_table_block. do 2 (apply terminates_bind; [auto with rust|intros ? _]).
  apply try_terminates; [by apply terminates_read_bytes|intros buf].
  apply terminates_bind; [apply terminates_split_off|intros [b1 c1] _].
  apply terminates_bind; [apply terminates_split_off|intros [c2 ck] _].
  apply terminates_bind; [auto with rust|intros c0 _]. destruct (negb _); [done|].
  case_match; [|done]. case_match; [|case_match; [|done]];
    (apply terminates_bind; [apply terminates_Block_new|done]).
Qed.

Lemma terminates_read_filter_block f h p : file_safe f → terminates (read_filter_block f h p).
Proof.
  intros Hf. unfold read_filter_block. destruct (_ =? _); [done|].
  apply try_terminates; [by apply terminates_read_bytes|intros buf].
  apply terminates_bind; [|done]. unfold FilterBlockReader_new_owned, FilterBlockReader_new. solve_terminates.
Qed.

Lemma terminates_fr_key_may_match r off key :
  policy_safe (fr_policy r) → terminates (fr_key_may_match r off key).
Proof.
  intros Hp. unfold fr_key_may_match, get_filter_index, num, offset_of. solve_terminates.
Qed.

(** ** Block iterators *)

Lemma iter_ensures b : ensures (Block_iter b) sane.
Proof.
  apply ensures_intro; [|intros it; apply Block_iter_sane]. unfold Block_iter. solve_terminates.
Qed.

Lemma seek_ensures it to : sane it → ensures (bi_seek it to) sane.
Proof. intros Hs. apply ensures_intro; [by apply seek_spec|]. intros it' H. by apply seek_spec in H as [? _]. Qed.

Lemma prev_ensures it : sane it → ensures (bi_prev it) (λ r, sane r.2).
Proof. intros Hs. apply ensures_intro; [by apply prev_spec|]. intros [r it'] H. by apply prev_spec in H as [? _]. Qed.

Lemma advance_ensures it : sane it → ensures (bi_advance it) (λ r, sane r.2).
Proof. intros Hs. apply ensures_intro; [by apply advance_spec|]. intros [r it'] H. by apply advance_spec in H as [? _]. Qed.

Lemma seek_to_last_ensures it : sane it → ensures (seek_to_last it) sane.
Proof.
  intros Hs. apply ensures_intro; [by apply seek_to_last_spec|].
  intros it' H. by apply seek_to_last_spec in H as [? _].
Qed.

(** The bytes of the index that are left. *)
Definition index_left (it : BlockIter) : nat := Z.to_nat (restarts_off it - it_offset it).

Lemma next_ensures it :
  sane it → ensures (next it) (λ r, sane r.2 ∧ (r.1 = None ∨ (index_left r.2 < index_left it)%nat)).
Proof.
  intros Hs. change (next it) with (bi_next it). apply ensures_intro; [by apply bi_next_spec|].
  intros [kv it'] H. apply bi_next_spec in H as (?&(_&Hro&_)&Hk); [|done]. split; [done|].
  destruct Hk as [?|?]; [by left|right]. cbn. unfold index_left. rewrite Hro. lia.
Qed.

Lemma terminates_current_key_val (it : BlockIter) : terminates (current_key_val it).
Proof.
  unfold current_key_val. cbn. apply terminates_bind; [apply terminates_current|].
  intros [[ok k] v] _. by destruct ok.
Qed.
End calls.

(** ** Tables *)

Section table.
Context `{E : IntegerEncoding, !IntegerEncodingSpec E, C : Crc32c, Sn : Snappy}.
Implicit Types (cache : Cache Block) (t : Table).

(** A cache in a state that inserts and lookups lead to, with any blocks in it. *)
Definition cache_fine cache : Prop := ∃ xs, cache_rep cache xs.

Record table_safe t : Prop := {
  ts_file : file_safe (file t);
  ts_filter r : t_filters t = Some r → policy_safe (fr_policy r) ∧ filter_typed r;
  ts_footer : footer_typed (footer t);
}.

(** The result of an operation with the cache: the cache stays well formed, and a
    value that is returned has a property. *)
Definition result_with {A} (R : A → Prop) (r : result A * Cache Block) : Prop :=
  cache_fine r.2 ∧ ∀ a, r.1 = Ok a → R a.

Lemma try_ensures {A B} (m : outcome (result A * Cache Block)) k (R : A → Prop) (R' : B → Prop) :
  ensures m (result_with R) →
  (∀ a cache, R a → cache_fine cache → ensures (k a cache) (result_with R')) →
  ensures (st_bind m k) (result_with R').
Proof.
  intros Hm Hk. unfold st_bind. eapply ensures_bind; [exact Hm|]. intros [[a|e] cache] [Hc Ha].
  - apply Hk; [by apply Ha|exact Hc].
  - by split.
Qed.

(** A call that does not use the cache. *)
Lemma lift_ensures {A} (m : outcome (result A)) cache (R : A → Prop) :
  cache_fine cache → terminates m → (∀ a, m = Done (Ok a) → R a) →
  ensures (let! r := m in Done (r, cache)) (result_with R).
Proof.
  intros Hc Ht HR. apply (ensures_bind _ _ (λ r, m = Done r)); [by apply ensures_intro|].
  intros r Hr. split; [done|]. intros a Ha. apply HR. by rewrite Hr, <- Ha.
Qed.

Lemma block_key_ensures t off : terminates (block_cache_handle t off).
Proof. unfold block_cache_handle, write_bytes_at. solve_terminates. Qed.

Lemma read_block_ensures t loc cache :
  table_safe t → cache_fine cache → ensures (read_block t loc cache) (result_with (λ _, True)).
Proof.
  intros Ht [xs Hc]. unfold read_block.
  apply (ensures_bind _ _ (λ _, True)); [by apply ensures_intro; [apply block_key_ensures|]|].
  intros key _. destruct (cache_get_ok cache xs key Hc) as (c1&->&Hc1&_). cbn [bind].
  unfold lru_get in *. destruct (lru_lookup xs key) as [blk|] eqn:Hmiss; cbn [fst snd] in *.
  { split; [by exists ((key, blk) :: lru_without xs key)|done]. }
  apply (ensures_bind _ _ (λ _, True)).
  { apply ensures_intro; [|done]. apply terminates_read_table_block, Ht. }
  intros [b|e] _; [|by split; [exists xs|]].
  destruct (cache_insert_ok c1 xs key b Hc1 Hmiss) as (c2&->&Hc2&_).
  split; [by eexists|done].
Qed.

Lemma Table_read_filter_block_ok b f o :
  file_safe f → terminates (Table_read_filter_block b f o) ∧
  ∀ r, Table_read_filter_block b f o = Done (Ok (Some r)) → filter_typed r ∧ fr_policy r = filter_policy o.
Proof.
  intros Hf. unfold Table_read_filter_block. split.
  - eapply ensures_terminates, (ensures_bind _ _ sane (λ _, True)); [apply iter_ensures|].
    intros it Hit. eapply (ensures_bind _ _ sane); [by apply seek_ensures|]. intros it' _.
    apply ensures_intro; [|done]. apply terminates_bind; [apply terminates_current_key_val|].
    intros [[k v]|] _; [|done]. apply terminates_bind; [apply terminates_handle_decode|].
    intros [h n] _. destruct (0 <? _); [|done].
    apply try_terminates; [by apply terminates_read_filter_block|done].
  - intros r H0. run_inv. case_match; [|done]. case_match. run_inv. case_match. case_match; [|done].
    unfold try_bind, read_filter_block in H0. case_match; [done|]. run_inv.
    case_match; [|done]. simplify_eq. unfold try_bind in *. run_inv. case_match; run_inv. by eapply filter_reader_typed.
Qed.

Lemma Table_new_ensures o f size cache :
  file_safe f → policy_safe (filter_policy o) → cache_fine cache →
  ensures (Table_new o f size cache) (result_with table_safe).
Proof.
  intros Hf Hp Hc. unfold Table_new. eapply (try_ensures _ _ footer_typed).
  { apply lift_ensures; [done| |].
    - unfold read_footer. apply terminates_bind; [auto with rust|intros off _].
      apply try_terminates; [apply Hf|]. intros [n buf].
      by apply terminates_bind; [apply terminates_footer_decode|].
    - intros ft Hft. unfold read_footer, try_bind in Hft. run_inv. case_match; [|done]. case_match. run_inv.
      by eapply decode_footer_typed. }
  intros ft c1 Hft Hc1. eapply (try_ensures _ _ (λ _, True)).
  { apply lift_ensures; [done|by apply terminates_read_table_block|done]. }
  intros ix c2 _ Hc2. eapply (try_ensures _ _ (λ _, True)).
  { apply lift_ensures; [done|by apply terminates_read_table_block|done]. }
  intros mx c3 _ Hc3.
  apply (try_ensures _ _ (λ fr, ∀ r, fr = Some r → policy_safe (fr_policy r) ∧ filter_typed r)).
  { destruct (Table_read_filter_block_ok mx f o Hf) as [Ht Hpol].
    apply lift_ensures; [done|done|]. intros a Ha r ->. by destruct (Hpol r Ha) as [? ->]. }
  intros fr c4 Hfr (xs&Hc4). unfold new_cache_id.
  destruct (uadd (cache_id c4) 1) as [id|f'] eqn:Hid; cbn [bind].
  - split; [exists xs; by apply cache_rep_id|]. by intros t [= <-].
  - unfold uadd in Hid. case_match; congruence.
Qed.

Lemma get_in_block_ensures t key h cache :
  table_safe t → cache_fine cache → ensures (get_in_block t key h cache) (result_with (λ _, True)).
Proof.
  intros Ht Hc. unfold get_in_block. eapply try_ensures; [by apply read_block_ensures|].
  intros b c1 _ Hc1. eapply (ensures_bind _ _ sane); [apply iter_ensures|]. intros it Hit.
  eapply (ensures_bind _ _ sane); [by apply seek_ensures|]. intros it' _.
  apply (ensures_bind _ _ (λ _, True)); [by apply ensures_intro; [apply terminates_current_key_val|]|].
  intros [[k v]|] _; [case_match|]; by split.
Qed.

Lemma table_get_ensures t key cache :
  table_safe t → cache_fine cache → ensures (table_get t key cache) (result_with (λ _, True)).
Proof.
  intros Ht Hc. unfold table_get. eapply (ensures_bind _ _ sane); [apply iter_ensures|]. intros it Hit.
  eapply (ensures_bind _ _ sane); [by apply seek_ensures|]. intros it' _.
  apply (ensures_bind _ _ (λ _, True)); [by apply ensures_intro; [apply terminates_current_key_val|]|].
  intros [[lk h]|] _; [|by split]. case_match; [by split| |by split].
  apply (ensures_bind _ _ (λ _, True)); [by apply ensures_intro; [apply terminates_handle_decode|]|].
  intros [hd n] _. apply (ensures_bind _ _ (λ _, True)).
  { apply ensures_intro; [|done]. destruct (t_filters t) as [r|] eqn:Hr; [|done].
    apply terminates_fr_key_may_match. by apply (ts_filter t Ht). }
  intros [] _; [by apply get_in_block_ensures|by split].
Qed.

Lemma approx_offset_terminates t key : terminates (approx_offset_of t key).
Proof.
  unfold approx_offset_of. eapply ensures_terminates, (ensures_bind _ _ sane (λ _, True)); [apply iter_ensures|].
  intros it Hit. eapply (ensures_bind _ _ sane); [by apply seek_ensures|]. intros it' _.
  apply ensures_intro; [|done]. apply terminates_bind; [apply terminates_current_key_val|].
  intros [[k v]|] _; [|done]. by apply terminates_bind; [apply terminates_handle_decode|intros [h n] _].
Qed.

(** ** Iterators *)

(** What every state of a table iterator keeps, whatever the file. *)
Record iter_safe (s : TableIterator * Cache Block) : Prop := {
  is_table : table_safe (table s.1);
  is_index : sane (ti_index_block s.1);
  is_current cb : current_block s.1 = Some cb → sane cb;
  is_cache : cache_fine s.2;
  is_off : 0 ≤ current_block_off s.1 < U64;
}.

Lemma iter_safe_reset self cache : iter_safe (self, cache) → iter_safe (ti_reset self, cache).
Proof.
  intros [Ht Hi Hcb Hc Ho]. split; cbn [fst snd] in *; [done| |done|done|done]. destruct Hi. split; cbn; unfold U32, U64; lia.
Qed.

Lemma iter_safe_index self cache ib : iter_safe (self, cache) → sane ib → iter_safe (set_index_iter self ib, cache).
Proof. intros [Ht Hi Hcb Hc Ho] Hib. by split. Qed.

Lemma iter_safe_block self cache cb : iter_safe (self, cache) → sane cb → iter_safe (set_current_block self (Some cb), cache).
Proof. intros [Ht Hi Hcb Hc Ho] Hib. split; [done|done| |done|done]. by intros ? [= <-]. Qed.

(** Loading a block leaves the index alone; when it succeeds there is a block. *)
Lemma load_block_ensures self handle cache :
  iter_safe (self, cache) →
  ensures (load_block self handle cache) (λ r, iter_safe r.2 ∧
    ti_index_block r.2.1 = ti_index_block self ∧ (∀ u, r.1 = Ok u → is_Some (current_block r.2.1))).
Proof.
  intros [Ht Hi Hcb Hc Ho]. unfold load_block. cbn [fst snd] in *.
  apply (ensures_bind _ _ (λ r, wf_handle r.1)).
  { apply ensures_intro; [apply terminates_handle_decode|]. intros [h n]. apply decode_handle_typed. }
  intros [h n] [Hoff _]. eapply ensures_bind; [by apply read_block_ensures|].
  intros [[b|e] c1] [Hc1 _]; cbn in Hc1.
  - eapply (ensures_bind _ _ sane); [apply iter_ensures|]. intros it Hit.
    split; [|by split; [|intros u _; eexists]]. split; [done|done| |done|done]. by intros cb [= <-].
  - split; [by split|]. by split.
Qed.

(** Skipping to the next index entry uses up part of the index. *)
Lemma skip_ensures self cache :
  iter_safe (self, cache) →
  ensures (skip_to_next_entry self cache) (λ r, iter_safe r.2 ∧
    (r.1 = Ok false ∨ (index_left (ti_index_block r.2.1) < index_left (ti_index_block self))%nat)).
Proof.
  intros Hs. unfold skip_to_next_entry. eapply ensures_bind; [apply next_ensures, Hs|].
  intros [kv ib] [Hib Hleft]. cbn in *. pose proof (iter_safe_index self cache ib Hs Hib) as Hs'.
  destruct kv as [[k v]|]; [|by split; [|left]]. destruct Hleft as [?|Hleft]; [done|].
  eapply ensures_bind; [by apply load_block_ensures|]. intros [r [self2 c2]] (Hs2&Hix&_). cbn in *.
  rewrite <- Hix in Hleft. destruct r; (split; [done|by right]).
Qed.

Lemma after_skip_ensures rec self cache :
  iter_safe (self, cache) →
  (∀ self' cache', iter_safe (self', cache') →
    (index_left (ti_index_block self') < index_left (ti_index_block self))%nat →
    ensures (rec self' cache') (λ r, iter_safe r.2)) →
  ensures (after_skip rec self cache) (λ r, iter_safe r.2).
Proof.
  intros Hs Hrec. unfold after_skip. eapply ensures_bind; [by apply skip_ensures|].
  intros [r [self2 c2]] [Hs2 Hleft]. cbn in *.
  destruct r as [[]|e].
  - apply Hrec; [done|]. by destruct Hleft.
  - by apply iter_safe_reset.
  - apply Hrec; [done|]. by destruct Hleft.
Qed.

Lemma ti_advance_ensures fuel self cache :
  iter_safe (self, cache) → (index_left (ti_index_block self) < fuel)%nat →
  ensures (ti_advance fuel self cache) (λ r, iter_safe r.2).
Proof.
  revert self cache. induction fuel as [|fuel IH]; intros self cache Hs Hf; [lia|]. cbn [ti_advance].
  destruct (current_block self) as [cb|] eqn:Hcb.
  - eapply ensures_bind; [by apply advance_ensures, (is_current _ Hs)|]. intros [ok cb'] Hcb'. cbn in Hcb'.
    destruct ok; [by apply iter_safe_block|]. apply after_skip_ensures.
    + destruct Hs as [Ht Hi _ Hc Ho]. by split.
    + intros self' c' Hs' Hl. cbn in Hl. apply IH; [done|lia].
  - apply after_skip_ensures; [done|]. intros self' c' Hs' Hl. apply IH; [done|lia].
Qed.

Lemma advance_fuel_enough self : sane (ti_index_block self) → (index_left (ti_index_block self) < advance_fuel self)%nat.
Proof. intros Hs. unfold index_left, advance_fuel. destruct Hs as [Hr Ho _ _ _]. unfold len in *. lia. Qed.

Lemma ti_seek_ensures self to cache :
  iter_safe (self, cache) → ensures (ti_seek self to cache) iter_safe.
Proof.
  intros Hs. unfold ti_seek. eapply ensures_bind; [apply seek_ensures, Hs|]. intros ib Hib.
  pose proof (iter_safe_index self cache ib Hs Hib) as Hs'.
  apply (ensures_bind _ _ (λ _, True)); [by apply ensures_intro; [apply terminates_current_key_val|]|].
  assert (Hload : ∀ h, ensures (
      let! (r, (self0, cache0)) := load_block (set_index_iter self ib) h cache in
      match r with
      | Ok _ => let! cb := unwrap_block (current_block self0) in
                let! cb := bi_seek cb to in Done (set_current_block self0 (Some cb), cache0)
      | Err _ => Done (ti_reset self0, cache0)
      end) iter_safe).
  { intros h. eapply ensures_bind; [by apply load_block_ensures|].
    intros [[u|e] [self2 c2]] (Hs2&_&Hcb); [|by apply iter_safe_reset].
    destruct (Hcb u eq_refl) as [cb Hcb2]. cbn in Hcb2. rewrite Hcb2. cbn [unwrap_block bind].
    eapply ensures_bind; [by apply seek_ensures, (is_current _ Hs2)|]. intros cb' ?. by apply iter_safe_block. }
  intros [[pb h]|] _; [|by apply iter_safe_reset].
  destruct (cmp _ _ _); [apply Hload|apply Hload|by apply iter_safe_reset].
Qed.

Lemma prev_block_ensures self cache :
  iter_safe (self, cache) → ensures (prev_block self cache) (λ r, iter_safe r.2).
Proof.
  intros Hs. unfold prev_block. eapply ensures_bind; [apply prev_ensures, Hs|]. intros [ok ib] Hib. cbn in Hib.
  pose proof (iter_safe_index self cache ib Hs Hib) as Hs'. destruct ok; [|done].
  apply (ensures_bind _ _ (λ _, True)); [by apply ensures_intro; [apply terminates_current_key_val|]|].
  intros [[pb h]|] _; [|done]. eapply ensures_bind; [by apply load_block_ensures|].
  intros [[u|e] [self2 c2]] (Hs2&_&Hcb); [|by apply iter_safe_reset].
  destruct (Hcb u eq_refl) as [cb Hcb2]. cbn in Hcb2. rewrite Hcb2. cbn [unwrap_block bind].
  eapply ensures_bind; [by apply seek_to_last_ensures, (is_current _ Hs2)|]. intros cb' ?. by apply iter_safe_block.
Qed.

Lemma ti_prev_ensures self cache :
  iter_safe (self, cache) → ensures (ti_prev self cache) (λ r, iter_safe r.2).
Proof.
  intros Hs. unfold ti_prev. destruct (current_block self) as [cb|] eqn:Hcb; [|by apply prev_block_ensures].
  eapply ensures_bind; [by apply prev_ensures, (is_current _ Hs)|]. intros [ok cb'] Hcb'. cbn in Hcb'.
  pose proof (iter_safe_block self cache cb' Hs Hcb'). destruct ok; [done|by apply prev_block_ensures].
Qed.

Lemma ti_current_terminates self k v : terminates (ti_current self k v).
Proof. unfold ti_current. case_match; [apply terminates_current|done]. Qed.

(** ** Reachable states *)

(** What can happen to an iterator and its cache: a call of an operation that
    returned, or another user of the cache who leaves it well formed. *)
Inductive ti_step : TableIterator * Cache Block → TableIterator * Cache Block → Prop :=
  | ti_step_advance s r s' : advance s = Done (r, s') → ti_step s s'
  | ti_step_prev s r s' : prev s = Done (r, s') → ti_step s s'
  | ti_step_seek s to s' : seek s to = Done s' → ti_step s s'
  | ti_step_reset s s' : reset s = Done s' → ti_step s s'
  | ti_step_others self cache cache' : cache_fine cache' → ti_step (self, cache) (self, cache').

(** The states of the iterators of [t]. *)
Inductive ti_reachable t : TableIterator * Cache Block → Prop :=
  | ti_reach_iter it cache : table_iter t = Done it → cache_fine cache → ti_reachable t (it, cache)
  | ti_reach_step s s' : ti_reachable t s → ti_step s s' → ti_reachable t s'.

Lemma ensures_Done {A} (m : outcome A) Q a : ensures m Q → m = Done a → Q a.
Proof. by intros Hm ->. Qed.

Lemma advance_safe s : iter_safe s → ensures (advance s) (λ r, iter_safe r.2).
Proof. destruct s as [self cache]. intros Hs. apply ti_advance_ensures; [done|]. apply advance_fuel_enough, Hs. Qed.

(** *** Iteration ends *)

(** What is left of the current block and of the index. *)
Definition block_left (self : TableIterator) : nat :=
  match current_block self with Some cb => index_left cb | None => 0 end.

Definition less_left (self' self : TableIterator) : Prop :=
  (index_left (ti_index_block self') < index_left (ti_index_block self))%nat ∨
  index_left (ti_index_block self') = index_left (ti_index_block self) ∧ (block_left self' < block_left self)%nat.

Lemma less_left_wf : well_founded less_left.
Proof.
  intros self. remember (index_left (ti_index_block self)) as n eqn:Hn.
  remember (block_left self) as k eqn:Hk. revert k self Hn Hk.
  induction n as [n IHn] using lt_wf_ind. intros k. induction k as [k IHk] using lt_wf_ind.
  intros self -> ->. constructor. intros self' [Hlt|[Heq Hlt]]; [by eapply IHn|by eapply IHk].
Qed.

Lemma bi_advance_left cb : sane cb → ensures (bi_advance cb) (λ r, sane r.2 ∧ (r.1 = true → (index_left r.2 < index_left cb)%nat)).
Proof.
  intros Hs. apply ensures_intro; [by apply advance_spec|]. intros [r cb'] Ha.
  apply advance_spec in Ha as (?&(_&Hro&_)&Hcase); [|done]. split; [done|]. cbn. intros ->.
  destruct Hcase as [[? _]|(_&?&?&_)]; [done|]. unfold index_left. rewrite Hro. lia.
Qed.

(** An [advance] that finds a pair has used something up. *)
Definition progress (self : TableIterator) (r : bool * (TableIterator * Cache Block)) : Prop :=
  iter_safe r.2 ∧ (r.1 = true → less_left r.2.1 self).

Lemma after_skip_progress rec self cache :
  iter_safe (self, cache) →
  (∀ self' cache', iter_safe (self', cache') →
    (index_left (ti_index_block self') < index_left (ti_index_block self))%nat →
    ensures (rec self' cache') (progress self')) →
  ensures (after_skip rec self cache) (λ r, iter_safe r.2 ∧
    (r.1 = true → (index_left (ti_index_block r.2.1) < index_left (ti_index_block self))%nat)).
Proof.
  intros Hs Hrec. unfold after_skip. eapply ensures_bind; [by apply skip_ensures|].
  intros [r [self2 c2]] [Hs2 Hleft]. cbn in *.
  assert (Hgo : (index_left (ti_index_block self2) < index_left (ti_index_block self))%nat →
    ensures (rec self2 c2) (λ r, iter_safe r.2 ∧
      (r.1 = true → (index_left (ti_index_block r.2.1) < index_left (ti_index_block self))%nat))).
  { intros Hl. specialize (Hrec self2 c2 Hs2 Hl). destruct (rec self2 c2) as [r'|f]; [|done].
    destruct Hrec as [? Hp]. split; [done|]. intros H0%Hp. unfold less_left in H0. lia. }
  destruct r as [[]|e].
  - apply Hgo. by destruct Hleft.
  - split; [by apply iter_safe_reset|done].
  - apply Hgo. by destruct Hleft.
Qed.

Lemma ti_advance_progress fuel self cache :
  iter_safe (self, cache) → (index_left (ti_index_block self) < fuel)%nat →
  ensures (ti_advance fuel self cache) (progress self).
Proof.
  revert self cache. induction fuel as [|fuel IH]; intros self cache Hs Hf; [lia|]. cbn [ti_advance].
  assert (Hskip : ∀ self1, iter_safe (self1, cache) → ti_index_block self1 = ti_index_block self →
    ensures (after_skip (ti_advance fuel) self1 cache) (progress self)).
  { intros self1 Hs1 Hix. pose proof (after_skip_progress (ti_advance fuel) self1 cache Hs1) as Hp.
    rewrite Hix in Hp. destruct (after_skip _ _ _) as [r|f]; [|apply Hp; intros; apply IH; [done|lia]].
    destruct Hp as [? Hp]; [intros; apply IH; [done|lia]|]. split; [done|]. intros Hr. left. by apply Hp. }
  destruct (current_block self) as [cb|] eqn:Hcb; [|by apply Hskip].
  eapply ensures_bind; [by apply bi_advance_left, (is_current _ Hs)|]. intros [ok cb'] [Hcb' Hless]. cbn in *.
  destruct ok.
  - split; [by apply iter_safe_block|]. intros _. right. split; [done|]. unfold block_left. rewrite Hcb. by apply Hless.
  - apply Hskip; [|done]. destruct Hs as [Ht Hi _ Hc Ho]. by split.
Qed.

Lemma advance_progress s : iter_safe s → ensures (advance s) (progress s.1).
Proof.
  destruct s as [self cache]. intros Hs. apply ti_advance_progress; [done|]. apply advance_fuel_enough, Hs.
Qed.

(** No iterator can be advanced forever. *)
Lemma ti_winds_down s : iter_safe s → winds_down s.
Proof.
  destruct s as [self cache]. revert cache. induction self as [self IH] using (well_founded_induction less_left_wf).
  intros cache Hs. pose proof (advance_progress _ Hs) as Hp. constructor; [by eapply ensures_terminates| |].
  - intros [self' cache'] Ha. destruct (ensures_Done _ _ _ Hp Ha) as [Hs' Hless]. by apply IH; [apply Hless|].
  - intros [self' cache'] Ha k v. apply ti_current_terminates.
Qed.

Lemma ti_reachable_safe t s : table_safe t → ti_reachable t s → iter_safe s.
Proof.
  intros Ht. induction 1 as [it cache Hit Hc|s s' _ IH Hstep].
  - unfold table_iter in Hit. apply bind_Done in Hit as (ib&Hib%Block_iter_sane&[= <-]). by split.
  - destruct Hstep as [s r s' H|s r s' H|s to s' H|s s' H|self cache cache' H].
    + apply (ensures_Done _ _ _ (advance_safe s IH) H).
    + destruct s. apply (ensures_Done _ _ _ (ti_prev_ensures _ _ IH) H).
    + destruct s. apply (ensures_Done _ _ _ (ti_seek_ensures _ to _ IH) H).
    + destruct s. injection H as <-. by apply iter_safe_reset.
    + destruct IH. by split.
Qed.

Lemma table_iter_terminates t : terminates (table_iter t).
Proof.
  unfold table_iter. eapply ensures_terminates, (ensures_bind _ _ sane (λ _, True)); [apply iter_ensures|done].
Qed.
End table.

(** ** Properties *)

(** C14. A file with any contents, corrupt ones included, is read without
    running forever and without undefined behaviour: opening it returns a table,
    an error or panics, and so do lookups in that table and the operations of its
    iterators, in any state that they lead to, while other users of the cache may
    leave anything in it. *)
Theorem Table_safe_on_any_file `{E : IntegerEncoding, !IntegerEncodingSpec E, !Crc32c, !Snappy}
    o f size cache :
  file_safe f → policy_safe (filter_policy o) → cache_fine cache →
  terminates (Table_new o f size cache) ∧
  ∀ t cache1, Table_new o f size cache = Done (Ok t, cache1) →
    (∀ key cache', cache_fine cache' → terminates (table_get t key cache')) ∧
    (∀ key, terminates (approx_offset_of t key)) ∧ terminates (table_iter t) ∧
    ∀ s, ti_reachable t s → terminates (advance s) ∧ terminates (prev s) ∧
      terminates (current s [] []) ∧ ∀ to, terminates (seek s to).
Proof.
  intros Hf Hp Hc. pose proof (Table_new_ensures o f size cache Hf Hp Hc) as Hnew.
  split; [by eapply ensures_terminates|]. intros t cache1 Ht.
  destruct (ensures_Done _ _ _ Hnew Ht) as [_ Hsafe]. specialize (Hsafe t eq_refl).
  split; [intros key c' Hc'; by eapply ensures_terminates, table_get_ensures|].
  split; [apply approx_offset_terminates|]. split; [apply table_iter_terminates|].
  intros s Hs%(ti_reachable_safe t s Hsafe). split; [by eapply ensures_terminates, advance_safe|].
  destruct s as [self c']. split; [by eapply ensures_terminates, ti_prev_ensures|].
  split; [apply ti_current_terminates|]. intros to. by eapply ensures_terminates, ti_seek_ensures.
Qed.

(** C16. Iterating over a file ends, whatever its contents: from any state an
    iterator can reach, with whatever other users left in the cache, only so
    many calls of [advance] answer yes, and collecting the pairs, with enough
    fuel, returns or panics. An index that names a block many times, or blocks
    that name nothing, make no endless table. *)
Theorem Table_iteration_ends `{E : IntegerEncoding, !IntegerEncodingSpec E, !Crc32c, !Snappy}
    o f size cache t cache1 s :
  file_safe f → policy_safe (filter_policy o) → cache_fine cache →
  Table_new o f size cache = Done (Ok t, cache1) → ti_reachable t s →
  winds_down s ∧ ∃ n, ∀ m, (n ≤ m)%nat → terminates (drain m s).
Proof.
  intros Hf Hp Hc Hnew Hs. pose proof (Table_new_ensures o f size cache Hf Hp Hc) as Hsafe.
  destruct (ensures_Done _ _ _ Hsafe Hnew) as [_ Ht].
  apply (ti_reachable_safe t s (Ht t eq_refl)), ti_winds_down in Hs. split; [done|by apply drain_winds_down].
Qed.

(** What the types of the code say of a block iterator: offsets of [usize], an
    index of a restart point counted in 32 bits, an entry before the restart
    array; and the sums that are not checked while an entry is parsed stay inside
    the block. *)
Definition iter_typed `{E : IntegerEncoding} (it : BlockIter) : Prop :=
  sane it ∧ ∀ s ns v h it', parse_entry_and_advance it = Done (s, ns, v, h, it') →
    0 ≤ s < U64 ∧ 0 ≤ ns < U64 ∧ 0 ≤ v < U64 ∧ 3 ≤ h ∧ it_offset it + h ≤ len (Block.block it).

Lemma sane_typed `{E : IntegerEncoding, !IntegerEncodingSpec E} it : sane it → iter_typed it.
Proof. intros Hs. split; [done|]. intros s ns v h it' Hp%parse_typed. lia. Qed.

(** C15. Integers keep their types. On a file with any contents, every integer
    that the model keeps as an unbounded number is one of the machine type the
    code has for it, in a table that opened and in every state of its iterators:
    the handles of the footer, the offset and the base of the filter reader, the
    offset of the current block, and the offsets and restart indices of both
    block iterators, whose unchecked sums stay inside the block. *)
Theorem Table_well_typed `{E : IntegerEncoding, !IntegerEncodingSpec E, !Crc32c, !Snappy}
    o f size cache t cache1 s :
  file_safe f → policy_safe (filter_policy o) → cache_fine cache →
  Table_new o f size cache = Done (Ok t, cache1) → ti_reachable t s →
  footer_typed (footer t) ∧ (∀ r, t_filters t = Some r → filter_typed r) ∧
  0 ≤ current_block_off s.1 < U64 ∧ iter_typed (ti_index_block s.1) ∧
  ∀ cb, current_block s.1 = Some cb → iter_typed cb.
Proof.
  intros Hf Hp Hc Hnew Hs. pose proof (Table_new_ensures o f size cache Hf Hp Hc) as Hsafe.
  destruct (ensures_Done _ _ _ Hsafe Hnew) as [_ Ht]. specialize (Ht t eq_refl).
  apply (ti_reachable_safe t s Ht) in Hs as [_ Hix Hcb _ Hoff]. destruct Ht as [_ Hfr Hft].
  split; [done|]. split; [intros r Hr; by apply (Hfr r Hr)|]. split; [done|]. split; [by apply sane_typed|].
  intros cb Hs%Hcb. by apply sane_typed.
Qed.
