(* ===== verification/TableReading.v ===== *)
(** * Reading tables (src/table_reader.rs)

    What lookups and iterators do on a table, given what its blocks are: the
    data blocks have sorted pairs in the block format, the index names them under
    separators, and some source delivers them. Nothing is said here of who wrote
    the table, with which options, or where its blocks are in the file. *)

From S2P Require Export TableReader TableBuilderProofs CacheProofs.

(** ** The order of pairs in their blocks *)

Lemma mjoin_cons {A} (x : list A) l : mjoin (x :: l) = x ++ mjoin l.
Proof. done. Qed.

Section positions.
(** Where block [i] starts in the sequence of all pairs. *)
Definition start (ds : list dblk) (i : nat) : nat := length (mjoin (d_kvs <$> take i ds)).

Lemma start_S ds i d : ds !! i = Some d → start ds (S i) = (start ds i + length (d_kvs d))%nat.
Proof.
  intros Hd. unfold start. rewrite (take_S_r _ _ d), fmap_app by done.
  change (d_kvs <$> [d]) with [d_kvs d]. by rewrite mjoin_snoc, length_app.
Qed.

Lemma start_lookup ds i d a :
  ds !! i = Some d → (a < length (d_kvs d))%nat →
  mjoin (d_kvs <$> ds) !! (start ds i + a)%nat = d_kvs d !! a.
Proof.
  intros Hd Ha.
  assert (Hs : mjoin (d_kvs <$> ds) = mjoin (d_kvs <$> take i ds) ++ d_kvs d ++ mjoin (d_kvs <$> drop (S i) ds)).
  { rewrite <- (take_drop_middle ds i d Hd) at 1. by rewrite fmap_app, join_app. }
  rewrite Hs. unfold start. rewrite lookup_app_r by lia. replace (_ + a - _)%nat with a by lia.
  by rewrite lookup_app_l.
Qed.

Lemma start_mono ds i j : (i ≤ j)%nat → (start ds i ≤ start ds j)%nat.
Proof.
  induction 1 as [|j Hij IH]; [done|]. destruct (ds !! j) as [d|] eqn:Hd.
  - rewrite (start_S ds j d Hd). lia.
  - apply lookup_ge_None in Hd. unfold start in *. rewrite (take_ge _ (S j)) by lia.
    by rewrite (take_ge _ j) in IH by lia.
Qed.

(** The block and the place in it of a pair. *)
Lemma find_block ds n kv :
  mjoin (d_kvs <$> ds) !! n = Some kv →
  ∃ i d a, ds !! i = Some d ∧ d_kvs d !! a = Some kv ∧ n = (start ds i + a)%nat.
Proof.
  induction ds as [|d ds IH] using rev_ind; [done|]. rewrite fmap_app.
  change (d_kvs <$> [d]) with [d_kvs d]. rewrite mjoin_snoc. intros [Hn|[Hn Hd]]%lookup_app_Some.
  - destruct (IH Hn) as (i&d'&a&Hi&Ha&->). exists i, d', a. apply lookup_lt_Some in Hi as Hlt.
    split; [by apply lookup_app_l_Some|]. split; [done|]. unfold start. by rewrite take_app_le by lia.
  - exists (length ds), d, (n - length (mjoin (d_kvs <$> ds)))%nat.
    split; [by rewrite list_lookup_middle|]. split; [done|].
    unfold start. rewrite take_app_length. lia.
Qed.
End positions.

(** [find_ge] finds the only place it can. *)
Lemma find_ge_Some c to kvs i kv :
  kvs !! i = Some kv → cmp c kv.1 to ≠ Lt →
  (∀ j kv', (j < i)%nat → kvs !! j = Some kv' → cmp c kv'.1 to = Lt) →
  find_ge c to kvs = Some i.
Proof.
  intros Hi Hge Hlt. unfold find_ge.
  assert (Hf : list_find (λ kv, cmp c kv.1 to ≠ Lt) kvs = Some (i, kv)).
  { apply list_find_Some. split; [done|]. split; [done|]. intros j kv' Hj Hji Hn. by apply Hn, (Hlt j). }
  by rewrite Hf.
Qed.

Lemma find_ge_inv c to kvs i :
  find_ge c to kvs = Some i → ∃ kv, kvs !! i = Some kv ∧ cmp c kv.1 to ≠ Lt ∧
    ∀ j kv', (j < i)%nat → kvs !! j = Some kv' → cmp c kv'.1 to = Lt.
Proof.
  unfold find_ge. destruct (list_find _ kvs) as [[i' kv]|] eqn:Hf; cbn; [|done]. intros [= ->].
  apply list_find_Some in Hf as (Hi&Hge&Hlt). exists kv. split; [done|]. split; [done|].
  intros j kv' Hji Hj. destruct (cmp c kv'.1 to) eqn:Hc; [|done|];
    exfalso; apply (Hlt j kv' Hj Hji); by rewrite Hc.
Qed.

Lemma find_ge_None c to kvs :
  find_ge c to kvs = None ↔ ∀ i kv, kvs !! i = Some kv → cmp c kv.1 to = Lt.
Proof.
  unfold find_ge. rewrite fmap_None, list_find_None, Forall_lookup. split; intros Hall i kv Hi.
  - destruct (cmp c kv.1 to) eqn:Hc; [|done|]; exfalso; apply (Hall i kv Hi); by rewrite Hc.
  - intros Hn. by apply Hn, (Hall i kv Hi).
Qed.

(** A key that is there is found where it is. *)
Lemma find_ge_present c `{!CmpOrder c} kvs i kv :
  sorted_kvs c kvs = true → kvs !! i = Some kv → find_ge c kv.1 kvs = Some i.
Proof.
  intros Hs Hi. apply (find_ge_Some c kv.1 kvs i kv Hi); [by rewrite cmp_refl|].
  intros j kv' Hj Hkv'. by apply (sorted_lt c kvs j i).
Qed.

(** Between any two neighbours there is room for a separator. Separators that
    are equal to the next key hide it (see [Table_get_present]). *)
Definition separable (c : Cmp) (kvs : list (bytes * bytes)) : Prop :=
  ∀ i a b s, kvs !! i = Some a → kvs !! S i = Some b →
    find_shortest_sep c a.1 b.1 = Done s → cmp c s b.1 = Lt.

(** With the default order, the only neighbours without room for a separator
    are a key and the same key followed by a zero byte. *)
Definition no_zero_successor (kvs : list (bytes * bytes)) : Prop :=
  Forall (λ p, p.2.1 ≠ p.1.1 ++ [x00]) (zip kvs (tail kvs)).

Lemma default_separable kvs :
  sorted_kvs DefaultCmp kvs = true → no_zero_successor kvs → separable DefaultCmp kvs.
Proof.
  intros Hs Hz i a b s Ha Hb Hsep.
  assert (Hlt : cmp DefaultCmp a.1 b.1 = Lt).
  { by apply (sorted_lt DefaultCmp (CmpOrder0 := DefaultCmpLaws.DefaultCmp_order) kvs i (S i)); [|lia|..]. }
  destruct (DefaultCmpLaws.find_shortest_sep_between _ _ Hlt) as (s'&Hs'&_&[Hls|[-> Hb0]]).
  - cbn in Hsep. rewrite Hs' in Hsep. by injection Hsep as <-.
  - exfalso. unfold no_zero_successor in Hz. rewrite Forall_lookup in Hz.
    apply (Hz i (a, b)); [|done]. apply lookup_zip_with_Some. exists a, b.
    split; [done|]. split; [done|]. by rewrite lookup_tail.
Qed.

(** ** Blocks in the cache *)

Section cached.
Context `{E : IntegerEncoding, !IntegerEncodingSpec E, C : Crc32c, Sn : Snappy}.

Definition cache_key (id off : Z) : CacheKey := encode_fixed64 id ++ encode_fixed64 off.

Lemma block_cache_handle_ok t off :
  block_cache_handle t off = Done (cache_key (t_cache_id t) off).
Proof.
  unfold block_cache_handle.
  change (replicate 16 x00) with (([] : bytes) ++ replicate 8 x00 ++ replicate 8 x00).
  rewrite write_bytes_at_mid by (done || by rewrite encode_fixed64_len). cbn [bind app].
  pose proof (write_bytes_at_mid (encode_fixed64 (t_cache_id t)) (replicate 8 x00) [] (encode_fixed64 off) 8) as Hw.
  rewrite !app_nil_r in Hw. apply Hw; by rewrite encode_fixed64_len.
Qed.

Lemma cache_key_inj id off1 off2 :
  0 ≤ off1 < U64 → 0 ≤ off2 < U64 → cache_key id off1 = cache_key id off2 → off1 = off2.
Proof. intros H1 H2 H0%app_inv_head. by apply encode_fixed64_inj. Qed.

(** Reading a block in terms of the abstract cache. *)
Lemma read_block_lru t h cache xs r :
  cache_rep cache xs → read_table_block (t_opt t) (file t) h = Done r →
  ∃ cache', read_block t h cache =
      Done (match lru_lookup xs (cache_key (t_cache_id t) (bh_offset h)) with Some blk => Ok blk | None => r end, cache') ∧
    cap cache' = cap cache ∧
    cache_rep cache' match lru_lookup xs (cache_key (t_cache_id t) (bh_offset h)), r with
      | None, Ok b => lru_insert (cap cache) xs (cache_key (t_cache_id t) (bh_offset h)) b
      | _, _ => (lru_get xs (cache_key (t_cache_id t) (bh_offset h))).2
      end.
Proof.
  intros Hr Hread. unfold read_block. rewrite block_cache_handle_ok. cbn [bind].
  set (key := cache_key (t_cache_id t) (bh_offset h)).
  destruct (cache_get_ok cache xs key Hr) as (cache1&->&Hr1&Hcap1). cbn [bind].
  unfold lru_get in *. destruct (lru_lookup xs key) as [blk|] eqn:Hl; cbn [fst snd] in *; [by exists cache1|].
  rewrite Hread. cbn [bind]. destruct r as [b|e]; [|by exists cache1].
  destruct (cache_insert_ok cache1 xs key b Hr1 Hl) as (cache2&->&Hr2&Hcap2). cbn [bind].
  exists cache2. rewrite <- Hcap1. split; [done|]. split; [congruence|done].
Qed.

Lemma read_block_id t h cache r cache' :
  read_block t h cache = Done (r, cache') → cache_id cache' = cache_id cache.
Proof.
  unfold read_block. intros Hr. apply bind_Done in Hr as (key&_&Hr).
  apply bind_Done in Hr as ([hit c1]&Hg%cache_get_id&Hr). rewrite <- Hg.
  destruct hit; [by injection Hr as _ <-|]. apply bind_Done in Hr as ([b|e]&_&Hr).
  - apply bind_Done in Hr as (c2&Hi%cache_insert_id&[= _ <-]). done.
  - by injection Hr as _ <-.
Qed.

End cached.

(** ** What a table is to its reader *)

(** The data blocks in order (their contents, pairs, handles and separators), the
    contents of the index block, and the footer. *)
Record table_view := mkView {
  v_blocks : list dblk;
  v_index : bytes;
  v_footer : Footer;
}.

Section reader.
Context `{E : IntegerEncoding, !IntegerEncodingSpec E, C : Crc32c, Sn : Snappy}.
Context (o : Options) `{!CmpOrder (opt_cmp o)}.

Abbreviation c := (opt_cmp o).

Record view_block (d : dblk) : Prop := {
  vb_block : block_of o (d_kvs d) (d_contents d);
  vb_size : len (d_contents d) < U32;
  vb_nonempty : d_kvs d ≠ [];
  vb_last : cmp c (last_of (d_kvs d)) (d_sep d) = Lt;
  vb_sep : d_sep d ≠ [];
  vb_handle : wf_handle (d_handle d);
}.

(** [V] is a table of the pairs [kvs], in the order of [o]. *)
Record view_of (kvs : list (bytes * bytes)) (V : table_view) : Prop := {
  vo_kvs : mjoin (d_kvs <$> v_blocks V) = kvs;
  vo_sorted : sorted_kvs c kvs = true;
  vo_keys : nonempty_keys kvs;
  vo_blocks : Forall view_block (v_blocks V);
  vo_off_inj i j d d' : v_blocks V !! i = Some d → v_blocks V !! j = Some d' → d_off d = d_off d' → i = j;
  (** a separator is not above the next block *)
  vo_sep i d d' kv : v_blocks V !! i = Some d → v_blocks V !! S i = Some d' → head (d_kvs d') = Some kv →
    cmp c (d_sep d) kv.1 ≠ Gt;
  vo_index : block_of o (index_kvs (v_blocks V)) (v_index V);
  vo_index_size : len (v_index V) < U32;
}.

(** Separators below the next block, and separators as the comparator makes them. *)
Definition strict_seps (V : table_view) : Prop :=
  ∀ i d d' kv, v_blocks V !! i = Some d → v_blocks V !! S i = Some d' → head (d_kvs d') = Some kv →
    cmp c (d_sep d) kv.1 = Lt.
Definition chosen_seps (V : table_view) : Prop :=
  ∀ i d d' kv, v_blocks V !! i = Some d → v_blocks V !! S i = Some d' → head (d_kvs d') = Some kv →
    find_shortest_sep c (last_of (d_kvs d)) kv.1 = Done (d_sep d).

(** The filters answer for every key at the offset of a block, and yes for the
    keys of that block. *)
Definition filters_ok (V : table_view) (fr : option FilterBlockReader) : Prop :=
  ∀ r i d, fr = Some r → v_blocks V !! i = Some d →
    (∀ a kv, d_kvs d !! a = Some kv → fr_key_may_match r (d_off d) kv.1 = Done true) ∧
    (∀ key, len key < U32 → returns (fr_key_may_match r (d_off d) key)).

(** The data blocks can be read from [f]. *)
Definition reads_blocks (f : RandomAccess) (V : table_view) : Prop :=
  ∀ i d, v_blocks V !! i = Some d → read_table_block o f (d_handle d) = Done (Ok (mkBlock (d_contents d) o)).

(** The table as [Table::new] returns it. *)
Definition opened_at (V : table_view) (f : RandomAccess) (id : Z) (fr : option FilterBlockReader) : Table :=
  mkTable f id o (v_footer V) (mkBlock (v_index V) o) fr.

Context (V : table_view) (kvs : list (bytes * bytes)) (HV : view_of kvs V).

Abbreviation ds := (v_blocks V).

Lemma dblk_view i d : ds !! i = Some d → view_block d.
Proof. intros Hd. exact (Forall_lookup_1 _ _ _ _ (vo_blocks _ _ HV) Hd). Qed.

Lemma dblk_kvs_in i d a kv :
  ds !! i = Some d → d_kvs d !! a = Some kv → kvs !! (start ds i + a)%nat = Some kv.
Proof.
  intros Hd Ha. rewrite <- (vo_kvs _ _ HV). rewrite (start_lookup ds i d a Hd); [done|].
  by eapply lookup_lt_Some.
Qed.

Lemma dblk_nonempty_keys i d : ds !! i = Some d → nonempty_keys (d_kvs d).
Proof.
  intros Hd. apply Forall_lookup. intros a kv Ha.
  by apply (Forall_lookup_1 _ _ _ _ (vo_keys _ _ HV) (dblk_kvs_in i d a kv Hd Ha)).
Qed.

Lemma dblk_sorted i d : ds !! i = Some d → sorted_kvs c (d_kvs d) = true.
Proof. intros Hd. eapply block_of_sorted, vb_block. by eapply dblk_view. Qed.

Lemma dblk_off i d : ds !! i = Some d → 0 ≤ d_off d < U64.
Proof. intros Hd. apply (vb_handle _ (dblk_view i d Hd)). Qed.

(** *** The index block *)

Lemma index_nonempty_keys : nonempty_keys (index_kvs ds).
Proof.
  apply Forall_lookup. intros i kv. unfold index_kvs. rewrite list_lookup_fmap.
  destruct (ds !! i) as [d|] eqn:Hd; [|done]. intros [= <-]. exact (vb_sep _ (dblk_view i d Hd)).
Qed.

Lemma index_lookup i d : ds !! i = Some d → index_kvs ds !! i = Some (d_sep d, handle_bytes (d_handle d)).
Proof. intros Hd. unfold index_kvs. by rewrite list_lookup_fmap, Hd. Qed.

Lemma index_lookup_inv i kv :
  index_kvs ds !! i = Some kv → ∃ d, ds !! i = Some d ∧ kv = (d_sep d, handle_bytes (d_handle d)).
Proof.
  unfold index_kvs. rewrite list_lookup_fmap. destruct (ds !! i) as [d|]; [|done].
  intros [= <-]. by exists d.
Qed.

(** *** Keys and separators *)

Lemma last_of_lookup l (kv : bytes * bytes) : l !! pred (length l) = Some kv → last_of l = kv.1.
Proof. intros Hl. unfold last_of. by rewrite last_lookup, Hl. Qed.

(** Every key of a block is below its separator. *)
Lemma key_below_sep i d a kv :
  ds !! i = Some d → d_kvs d !! a = Some kv → cmp c kv.1 (d_sep d) = Lt.
Proof.
  intros Hd Ha. destruct (dblk_view i d Hd) as [_ _ Hne Hlast _ _].
  destruct (lookup_lt_is_Some_2 (d_kvs d) (pred (length (d_kvs d)))) as [lkv Hl].
  { destruct (d_kvs d); [done|]. simpl. lia. }
  rewrite (last_of_lookup _ _ Hl) in Hlast. destruct (decide (a = pred (length (d_kvs d)))) as [->|].
  - rewrite Hl in Ha. by injection Ha as <-.
  - apply lookup_lt_Some in Ha as Hlt. eapply cmp_lt_trans; [|done].
    apply (sorted_lt c (d_kvs d) a (pred (length (d_kvs d)))); [by eapply dblk_sorted|lia|done|done].
Qed.

(** A separator is at most every key of a later block. *)
Lemma sep_below_key i j d d' a kv :
  (i < j)%nat → ds !! i = Some d → ds !! j = Some d' → d_kvs d' !! a = Some kv →
  cmp c (d_sep d) kv.1 ≠ Gt.
Proof.
  intros Hij Hd Hd' Ha.
  destruct (lookup_lt_is_Some_2 ds (S i)) as [d1 Hd1]; [apply lookup_lt_Some in Hd'; lia|].
  destruct (dblk_view (S i) d1 Hd1) as [_ _ Hne _ _ _].
  destruct (head (d_kvs d1)) as [h|] eqn:Hh; [|by apply head_None in Hh].
  pose proof (vo_sep _ _ HV i d d1 h Hd Hd1 Hh) as Hle.
  rewrite head_lookup in Hh. pose proof (dblk_kvs_in (S i) d1 0 h Hd1 Hh) as Hk1.
  pose proof (dblk_kvs_in j d' a kv Hd' Ha) as Hk2.
  destruct (decide (start ds (S i) + 0 = start ds j + a)%nat) as [Heq|Hne'].
  - rewrite Heq, Hk2 in Hk1. by injection Hk1 as <-.
  - pose proof (start_mono ds (S i) j ltac:(lia)).
    assert (Hlt : cmp c h.1 kv.1 = Lt) by (eapply sorted_lt; [exact _|apply HV| |done|done]; lia).
    eapply cmp_le_trans; [exact Hle|by rewrite Hlt].
Qed.

Lemma decode_handle i d :
  ds !! i = Some d → BlockHandle_decode (handle_bytes (d_handle d)) = Done (d_handle d, len (handle_bytes (d_handle d))).
Proof.
  intros Hd. pose proof (BlockHandle_decode_bytes (d_handle d) [] (vb_handle _ (dblk_view i d Hd))) as Hdec.
  by rewrite app_nil_r in Hdec.
Qed.

(** ** The open table *)

Context (f : RandomAccess).
Abbreviation opened := (opened_at V f).

(** *** Where blocks come from *)

(** What lookups and iterators need of their source of blocks: in the states
    that [source_ok] allows for the table [id], reading a block of the table
    gives that block, and leads to such a state again. *)
Class BlockSourceSpec {St : Type} (B : BlockSource St) (source_ok : Z → St → Prop) : Prop :=
  fetch_block_ok id fr cache i d : source_ok id cache → ds !! i = Some d →
    ∃ cache', fetch_block (opened id fr) (d_handle d) cache = Done (Ok (mkBlock (d_contents d) o), cache') ∧
      source_ok id cache'.

(** *** The block cache *)

(** What the cache holds for the table [id] are its blocks; whatever [others]
    says of the entries of other tables stays true. *)
Section cache.
Context (Hread : reads_blocks f V) (others : CacheKey → Block → Prop).

Definition is_block (off : Z) (blk : Block) : Prop :=
  ∃ i d, ds !! i = Some d ∧ d_off d = off ∧ blk = mkBlock (d_contents d) o.

Definition entries_ok (id : Z) (xs : list (CacheKey * Block)) : Prop :=
  (∀ off blk, 0 ≤ off < U64 → lru_lookup xs (cache_key id off) = Some blk → is_block off blk) ∧
  ∀ key blk, lru_lookup xs key = Some blk →
    (∀ off, 0 ≤ off < U64 → key ≠ cache_key id off) → others key blk.

Definition cache_ok (id : Z) (cache : Cache Block) : Prop :=
  ∃ xs, cache_rep cache xs ∧ entries_ok id xs.

(** The entries after a lookup, and after a block of the table was put in. *)
Lemma entries_ok_get id xs key : entries_ok id xs → entries_ok id (lru_get xs key).2.
Proof. intros [Hxs Hoth]. split; intros ? ?; rewrite lookup_get; [apply Hxs|apply Hoth]. Qed.

Lemma entries_ok_insert id xs n i d :
  entries_ok id xs → ds !! i = Some d →
  entries_ok id (lru_insert n xs (cache_key id (d_off d)) (mkBlock (d_contents d) o)).
Proof.
  intros [Hxs Hoth] Hd. pose proof (dblk_off i d Hd) as Hoff. split.
  - intros off blk Ho [[Hk ->]|Hl2]%lookup_insert_lru; [|by apply Hxs].
    exists i, d. split; [done|]. split; [|done]. by apply cache_key_inj in Hk.
  - intros k blk [[-> _]|Hl2]%lookup_insert_lru Hk; [by destruct (Hk (d_off d))|by apply Hoth].
Qed.

(** What a lookup for block [i] can find. *)
Lemma entries_ok_hit id xs i d blk :
  entries_ok id xs → ds !! i = Some d → lru_lookup xs (cache_key id (d_off d)) = Some blk →
  blk = mkBlock (d_contents d) o.
Proof.
  intros [Hxs _] Hd Hl. destruct (Hxs (d_off d) blk (dblk_off i d Hd) Hl) as (j&d'&Hd'&Heq&->).
  pose proof (vo_off_inj _ _ HV j i d' d Hd' Hd Heq) as ->. rewrite Hd in Hd'. by injection Hd' as <-.
Qed.

(** Reading a block through the cache: the same block, hit or miss. *)
Lemma cache_source_ok : BlockSourceSpec Cache_source cache_ok.
Proof.
  intros id fr cache i d (xs&Hr&Hxs) Hd. unfold fetch_block, Cache_source.
  destruct (read_block_lru (opened id fr) (d_handle d) cache xs _ Hr (Hread i d Hd))
    as (cache'&->&_&Hr'). cbn [t_cache_id opened_at bh_offset d_handle] in *. exists cache'.
  destruct (lru_lookup xs (cache_key id (d_off d))) as [blk|] eqn:Hl.
  - rewrite (entries_ok_hit id xs i d blk Hxs Hd Hl). split; [done|]. eexists. split; [exact Hr'|]. by apply entries_ok_get.
  - split; [done|]. eexists. split; [exact Hr'|]. by apply (entries_ok_insert id xs _ i d).
Qed.
End cache.

(** *** Lookup *)

Section source.
Context {St : Type} {B : BlockSource St} (source_ok : Z → St → Prop) (Hsource : BlockSourceSpec B source_ok).
Implicit Types (cache : St).

(** The last pair of a block and the first of the next are neighbours: separators
    that the comparator made are below the next block when there is room. *)
Lemma chosen_strict : separable c kvs → chosen_seps V → strict_seps V.
Proof.
  intros Hsep Hch i d d' kv Hd Hd' Hh. pose proof (Hch i d d' kv Hd Hd' Hh) as Hfs.
  destruct (dblk_view i d Hd) as [_ _ Hne _ _ _].
  destruct (lookup_lt_is_Some_2 (d_kvs d) (pred (length (d_kvs d)))) as [lkv Hl].
  { destruct (d_kvs d); [done|]. simpl. lia. }
  rewrite (last_of_lookup _ _ Hl) in Hfs. apply lookup_lt_Some in Hl as Hlt.
  apply (Hsep (start ds i + pred (length (d_kvs d)))%nat lkv kv); [by apply (dblk_kvs_in i d)| |done].
  rewrite head_lookup in Hh. pose proof (dblk_kvs_in (S i) d' 0 kv Hd' Hh) as Hk.
  rewrite (start_S ds i d Hd) in Hk. rewrite <- Hk. f_equal. lia.
Qed.

Lemma sep_below_key_strict i j d d' a kv :
  strict_seps V → (i < j)%nat → ds !! i = Some d → ds !! j = Some d' → d_kvs d' !! a = Some kv →
  cmp c (d_sep d) kv.1 = Lt.
Proof.
  intros Hsep Hij Hd Hd' Ha.
  destruct (lookup_lt_is_Some_2 ds (S i)) as [d1 Hd1]; [apply lookup_lt_Some in Hd'; lia|].
  destruct (dblk_view (S i) d1 Hd1) as [_ _ Hne _ _ _].
  destruct (head (d_kvs d1)) as [h|] eqn:Hh; [|by apply head_None in Hh].
  pose proof (Hsep i d d1 h Hd Hd1 Hh) as Hlt.
  rewrite head_lookup in Hh. pose proof (dblk_kvs_in (S i) d1 0 h Hd1 Hh) as Hk1.
  pose proof (dblk_kvs_in j d' a kv Hd' Ha) as Hk2.
  destruct (decide (start ds (S i) + 0 = start ds j + a)%nat) as [Heq|Hne'].
  - rewrite Heq, Hk2 in Hk1. by injection Hk1 as <-.
  - pose proof (start_mono ds (S i) j ltac:(lia)). eapply cmp_lt_trans; [exact Hlt|].
    eapply sorted_lt; [exact _|apply HV| |done|done]. lia.
Qed.

(** The index entry that a present key leads to: that of its block, if the
    separators before are below the key. *)
Lemma index_find_below i d a kv :
  ds !! i = Some d → d_kvs d !! a = Some kv →
  (∀ j d', (j < i)%nat → ds !! j = Some d' → cmp c (d_sep d') kv.1 = Lt) →
  find_ge c kv.1 (index_kvs ds) = Some i.
Proof.
  intros Hd Ha Hbelow. apply (find_ge_Some c kv.1 _ i _ (index_lookup i d Hd)).
  - cbn. pose proof (key_below_sep i d a kv Hd Ha) as Hlt. rewrite cmp_opp, Hlt. done.
  - intros j kv' Hj (d'&Hd'&->)%index_lookup_inv. by apply (Hbelow j).
Qed.

Lemma index_find i d a kv :
  strict_seps V → ds !! i = Some d → d_kvs d !! a = Some kv →
  find_ge c kv.1 (index_kvs ds) = Some i.
Proof.
  intros Hsep Hd Ha. apply (index_find_below i d a); [done..|].
  intros j d' Hj Hd'. by apply (sep_below_key_strict j i d' d a kv).
Qed.

(** Seeking [key] in the index block. *)
Lemma index_seek key :
  ∃ it it', Block_iter (mkBlock (v_index V) o) = Done it ∧ bi_seek it key = Done it' ∧
    current_key_val it' = Done (i ← find_ge c key (index_kvs ds); index_kvs ds !! i).
Proof.
  pose proof (vo_index_size _ _ HV) as Hs.
  destruct (built_lookup o (index_kvs ds) (v_index V) key index_nonempty_keys (vo_index _ _ HV) Hs)
    as (it&it'&?&?&_&?). by exists it, it'.
Qed.

(** Looking for [key] in data block [i], once it was read. *)
Lemma get_in_block_read file id fr cache cache' i d key :
  ds !! i = Some d →
  fetch_block (opened_at V file id fr) (d_handle d) cache = Done (Ok (mkBlock (d_contents d) o), cache') →
  get_in_block (opened_at V file id fr) key (d_handle d) cache =
    Done (Ok (j ← find_ge c key (d_kvs d); kv ← d_kvs d !! j;
              match cmp c kv.1 key with Eq => Some kv.2 | _ => None end), cache').
Proof.
  intros Hd Hread. unfold get_in_block. rewrite Hread. unfold st_bind. cbn [bind].
  pose proof (vb_size _ (dblk_view i d Hd)) as Hc.
  destruct (built_lookup o (d_kvs d) (d_contents d) key (dblk_nonempty_keys i d Hd)
    (vb_block _ (dblk_view i d Hd)) Hc) as (it&it'&->&Hs&_&Hcur). cbn [bind]. rewrite Hs. cbn [bind].
  rewrite Hcur. cbn [bind t_opt opened_at].
  destruct (find_ge c key (d_kvs d)) as [j|]; [|done]. cbn [mbind option_bind].
  destruct (d_kvs d !! j) as [[k v]|]; [|done]. cbn [mbind option_bind fst snd].
  by destruct (cmp c k key).
Qed.

Lemma get_in_block_ok id fr cache i d key :
  source_ok id cache → ds !! i = Some d →
  ∃ cache', get_in_block (opened id fr) key (d_handle d) cache =
    Done (Ok (j ← find_ge c key (d_kvs d); kv ← d_kvs d !! j;
              match cmp c kv.1 key with Eq => Some kv.2 | _ => None end), cache') ∧ source_ok id cache'.
Proof.
  intros Hcache Hd. destruct (fetch_block_ok id fr cache i d Hcache Hd) as (cache'&Hread&Hok).
  exists cache'. split; [by apply (get_in_block_read f id fr cache cache' i)|done].
Qed.

(** [get] of a present key looks into the block of the key, if the index leads there. *)
Lemma table_get_routes file id fr cache i d a kv :
  find_ge c kv.1 (index_kvs ds) = Some i → filters_ok V fr → ds !! i = Some d → d_kvs d !! a = Some kv →
  table_get (opened_at V file id fr) kv.1 cache = get_in_block (opened_at V file id fr) kv.1 (d_handle d) cache.
Proof.
  intros Hix Hfs Hd Ha. unfold table_get. cbn [t_index_block opened_at].
  destruct (index_seek kv.1) as (it&it'&->&Hs&Hcur). cbn [bind]. rewrite Hs. cbn [bind].
  rewrite Hcur, Hix. cbn [mbind option_bind bind].
  rewrite (index_lookup i d Hd). cbn [t_opt opened_at].
  rewrite (key_below_sep i d a kv Hd Ha), (decode_handle i d Hd). cbn [bind bh_offset d_handle].
  change (t_filters (opened_at V file id fr)) with fr. destruct fr as [r|]; [|done].
  by rewrite (proj1 (Hfs r i d eq_refl Hd) a kv Ha).
Qed.

(** The pair that is found there. *)
Lemma find_present i d a kv :
  ds !! i = Some d → d_kvs d !! a = Some kv →
  (j ← find_ge c kv.1 (d_kvs d); kv' ← d_kvs d !! j;
   match cmp c kv'.1 kv.1 with Eq => Some kv'.2 | _ => None end) = Some kv.2.
Proof.
  intros Hd Ha. rewrite (find_ge_present c (d_kvs d) a kv (dblk_sorted i d Hd) Ha). cbn [mbind option_bind].
  rewrite Ha. cbn [mbind option_bind]. by rewrite cmp_refl.
Qed.

(** [get] of a present key. *)
Lemma table_get_present id fr cache i d a kv :
  strict_seps V → source_ok id cache → filters_ok V fr → ds !! i = Some d → d_kvs d !! a = Some kv →
  ∃ cache', table_get (opened id fr) kv.1 cache = Done (Ok (Some kv.2), cache') ∧ source_ok id cache'.
Proof.
  intros Hsep Hcache Hfs Hd Ha. pose proof (index_find i d a kv Hsep Hd Ha) as Hix.
  rewrite (table_get_routes f id fr cache i d a kv) by done.
  destruct (get_in_block_ok id fr cache i d kv.1 Hcache Hd) as (cache'&Hg&Hok). exists cache'.
  split; [|done]. by rewrite Hg, (find_present i d a kv).
Qed.

(** [get] of any key returns, and what it returns is right. *)
Lemma table_get_sound id fr cache key :
  source_ok id cache → filters_ok V fr → len key < U32 →
  ∃ x cache', table_get (opened id fr) key cache = Done (Ok x, cache') ∧ source_ok id cache' ∧
    ∀ v, x = Some v → ∃ n k, kvs !! n = Some (k, v) ∧ cmp c k key = Eq.
Proof.
  intros Hcache Hfs Hkey. unfold table_get. cbn [t_index_block opened_at].
  destruct (index_seek key) as (it&it'&->&Hs&Hcur). cbn [bind]. rewrite Hs. cbn [bind].
  rewrite Hcur. cbn [bind]. clear Hcur.
  assert (Hnone : ∃ x cache', Done (Ok None, cache) = Done (Ok x, cache') ∧ source_ok id cache' ∧
    ∀ v, x = Some v → ∃ n k, kvs !! n = Some (k, v) ∧ cmp c k key = Eq) by by exists None, cache.
  destruct (find_ge c key (index_kvs ds)) as [i|]; cbn [mbind option_bind]; [|exact Hnone].
  destruct (index_kvs ds !! i) as [[sep hb]|] eqn:Hi; [|exact Hnone].
  apply index_lookup_inv in Hi as (d&Hd&[= -> ->]). cbn [t_opt opened_at].
  destruct (cmp c key (d_sep d)); [exact Hnone| |exact Hnone]. rewrite (decode_handle i d Hd). cbn [bind].
  change (t_filters (opened id fr)) with fr. cbn [bh_offset d_handle].
  destruct (get_in_block_ok id fr cache i d key Hcache Hd) as (cache2&Hg&Hok).
  assert (Hmay : ∃ may, match fr with
    | Some filters => fr_key_may_match filters (d_off d) key
    | None => Done true
    end = Done may).
  { destruct fr as [r|]; [apply (proj2 (Hfs r i d eq_refl Hd) key Hkey)|by exists true]. }
  destruct Hmay as [may ->]. cbn [bind]. destruct may; [|exact Hnone].
  rewrite Hg. eexists _, cache2. split; [done|]. split; [done|].
  intros v. destruct (find_ge c key (d_kvs d)) as [j|]; cbn [mbind option_bind]; [|done].
  destruct (d_kvs d !! j) as [[k w]|] eqn:Hj; cbn [mbind option_bind fst snd]; [|done].
  destruct (cmp c k key) eqn:Hk; [|done|done]. intros [= <-].
  exists (start ds i + j)%nat, k. split; [by apply (dblk_kvs_in i d)|done].
Qed.

(** *** Iteration *)

Abbreviation index_rep := (built_rep o (index_kvs ds) (v_index V)).
Abbreviation data_rep d := (built_rep o (d_kvs d) (d_contents d)).

(** An iterator of the table [id] at the [n]-th pair, or before the first. *)
Definition table_rep (id : Z) (fr : option FilterBlockReader) (s : TableIterator * St) (pos : option nat) : Prop :=
  table s.1 = opened id fr ∧ source_ok id s.2 ∧
  match pos with
  | None => current_block s.1 = None ∧ index_rep (ti_index_block s.1) None
  | Some n => ∃ i d a cb, n = (start ds i + a)%nat ∧ ds !! i = Some d ∧ current_block s.1 = Some cb ∧
      data_rep d cb (Some a) ∧ index_rep (ti_index_block s.1) (Some i)
  end.

Lemma data_iter i d :
  ds !! i = Some d → ∃ cb, Block_iter (mkBlock (d_contents d) o) = Done cb ∧ data_rep d cb None.
Proof.
  intros Hd. pose proof (vb_size _ (dblk_view i d Hd)) as Hc.
  apply built_iter; [by eapply dblk_nonempty_keys|by eapply vb_block, dblk_view|done].
Qed.

Lemma data_forward i d :
  ds !! i = Some d → SSIteratorForward BlockIter_SSIterator (d_kvs d) (data_rep d).
Proof. intros Hd. pose proof (vb_size _ (dblk_view i d Hd)) as Hc. by apply built_forward. Qed.

Lemma data_spec i d :
  ds !! i = Some d → SSIteratorSpec BlockIter_SSIterator c (d_kvs d) (data_rep d).
Proof. intros Hd. pose proof (vb_size _ (dblk_view i d Hd)) as Hc. by apply built_spec. Qed.

Lemma index_spec : SSIteratorSpec BlockIter_SSIterator c (index_kvs ds) index_rep.
Proof. pose proof (vo_index_size _ _ HV) as Hs. by apply built_spec. Qed.

(** A new iterator, before the first pair. *)
Lemma table_start id fr :
  ∃ ib, table_iter (opened id fr) = Done (mkTableIterator (opened id fr) None 0 ib) ∧ index_rep ib None.
Proof.
  unfold table_iter. cbn [t_index_block opened_at].
  destruct (built_iter o (index_kvs ds) (v_index V) index_nonempty_keys (vo_index _ _ HV)
    (vo_index_size _ _ HV)) as (ib&->&Hib). by exists ib.
Qed.

Lemma table_iter_rep id fr cache :
  source_ok id cache → ∃ it, table_iter (opened id fr) = Done it ∧ table_rep id fr (it, cache) None.
Proof. intros Hc. destruct (table_start id fr) as (ib&Hit&Hib). by eexists. Qed.

(** Loading a data block. *)
Lemma load_block_ok id fr self cache i d :
  table self = opened id fr → source_ok id cache → ds !! i = Some d →
  ∃ cb cache', load_block self (handle_bytes (d_handle d)) cache =
    Done (Ok tt, (mkTableIterator (opened id fr) (Some cb) (d_off d) (ti_index_block self), cache')) ∧
    data_rep d cb None ∧ source_ok id cache'.
Proof.
  intros Ht Hc Hd. unfold load_block. rewrite (decode_handle i d Hd), Ht. cbn [bind].
  destruct (fetch_block_ok id fr cache i d Hc Hd) as (cache'&->&Hc'). cbn [bind].
  destruct (data_iter i d Hd) as (cb&->&Hcb). cbn [bind]. by exists cb, cache'.
Qed.

(** The next index entry, and the block it names. *)
Lemma skip_ok id fr self cache pos :
  table self = opened id fr → source_ok id cache → index_rep (ti_index_block self) pos →
  match ds !! cursor_succ pos with
  | Some d => ∃ self' cb cache', skip_to_next_entry self cache = Done (Ok true, (self', cache')) ∧
      table self' = opened id fr ∧ source_ok id cache' ∧ current_block self' = Some cb ∧
      data_rep d cb None ∧ index_rep (ti_index_block self') (Some (cursor_succ pos))
  | None => ∃ self', skip_to_next_entry self cache = Done (Ok false, (self', cache)) ∧
      table self' = opened id fr ∧ index_rep (ti_index_block self') None
  end.
Proof.
  intros Ht Hc Hib. unfold skip_to_next_entry. pose proof index_spec as HI.
  destruct (next_spec (index_kvs ds) index_rep _ pos Hib) as (ib'&Hn&Hib'). rewrite Hn. cbn [bind].
  destruct (ds !! cursor_succ pos) as [d|] eqn:Hd.
  - rewrite (index_lookup _ d Hd) in *. cbn [mbind option_bind] in Hib'.
    destruct (load_block_ok id fr (set_index_iter self ib') cache _ d Ht Hc Hd) as (cb&cache'&->&Hcb&Hc').
    cbn [bind]. eexists _, cb, cache'. split; [done|]. auto 10.
  - assert (Hnone : index_kvs ds !! cursor_succ pos = None).
    { unfold index_kvs. by rewrite list_lookup_fmap, Hd. }
    rewrite Hnone in *. eexists. split; [done|]. done.
Qed.

Lemma dblk_first i d : ds !! i = Some d → ∃ kv, d_kvs d !! 0%nat = Some kv.
Proof.
  intros Hd. pose proof (vb_nonempty _ (dblk_view i d Hd)) as Hne.
  destruct (d_kvs d) as [|kv l]; [done|]. by exists kv.
Qed.

Lemma ti_advance_S n self cache :
  ti_advance (S n) self cache =
    match current_block self with
    | None => after_skip (ti_advance n) self cache
    | Some cb =>
        let! (ok, cb) := bi_advance cb in
        if (ok : bool) then Done (true, (set_current_block self (Some cb), cache))
        else after_skip (ti_advance n) (set_current_block (set_current_block self (Some cb)) None) cache
    end.
Proof. done. Qed.

(** From a loaded block that is not positioned, [advance] goes to its first
    pair. *)
Lemma advance_loaded id fr n self cache i d cb :
  table self = opened id fr → source_ok id cache → ds !! i = Some d →
  current_block self = Some cb → data_rep d cb None → index_rep (ti_index_block self) (Some i) →
  ∃ s', ti_advance (S n) self cache = Done (true, s') ∧ table_rep id fr s' (Some (start ds i)).
Proof.
  intros Ht Hc Hd Hcb Hr Hib. cbn [ti_advance]. rewrite Hcb. destruct (dblk_first i d Hd) as [kv Hkv].
  pose proof (data_forward i d Hd) as HF. destruct (advance_more cb None kv Hr Hkv) as (cb'&Ha&Hr').
  cbn in Ha. rewrite Ha. cbn [bind]. eexists. split; [done|]. split; [done|]. split; [done|].
  exists i, d, 0%nat, cb'. split; [lia|]. done.
Qed.

(** What [advance] does when the current block has no more pairs, or when
    there is none: the first pair of the next block, or the end. *)
Lemma advance_skip id fr n self cache pos :
  table self = opened id fr → source_ok id cache → index_rep (ti_index_block self) pos →
  ∃ s', after_skip (ti_advance (S n)) self cache = Done (bool_decide (is_Some (ds !! cursor_succ pos)), s') ∧
    table_rep id fr s' (if decide (is_Some (ds !! cursor_succ pos)) then Some (start ds (cursor_succ pos)) else None).
Proof.
  intros Ht Hc Hib. unfold after_skip. pose proof (skip_ok id fr self cache pos Ht Hc Hib) as Hskip.
  destruct (ds !! cursor_succ pos) as [d|] eqn:Hd.
  - destruct Hskip as (self'&cb&cache'&->&Ht'&Hc'&Hcb&Hr&Hib'). cbn [bind fst snd].
    destruct (advance_loaded id fr n self' cache' _ d cb Ht' Hc' Hd Hcb Hr Hib') as (s'&->&Hs').
    exists s'. split; [done|]. by rewrite decide_True by done.
  - destruct Hskip as (self'&->&Ht'&Hib'). cbn [bind fst snd]. eexists. split; [done|].
    rewrite decide_False by (by intros [? ?]). split; [done|]. split; [done|]. split; [done|].
    pose proof index_spec as HI. by destruct (reset_rep _ _ Hib') as (ib2&[= <-]&?).
Qed.

(** The position after the last pair of block [i]. *)
Lemma next_position i d :
  ds !! i = Some d → kvs !! start ds (S i) = None → ds !! S i = None.
Proof.
  intros Hd Hnone. destruct (ds !! S i) as [d'|] eqn:Hd'; [|done].
  destruct (dblk_first _ d' Hd') as [kv Hkv]. pose proof (dblk_kvs_in (S i) d' 0 kv Hd' Hkv) as Hin.
  rewrite Nat.add_0_r in Hin. congruence.
Qed.

(** Both outcomes of [advance] at a pair. *)
Lemma advance_at id fr self cache i d a cb n :
  table self = opened id fr → source_ok id cache → ds !! i = Some d → current_block self = Some cb →
  data_rep d cb (Some a) → index_rep (ti_index_block self) (Some i) →
  ∃ s', ti_advance (S (S n)) self cache = Done (bool_decide (is_Some (kvs !! S (start ds i + a)%nat)), s') ∧
    table_rep id fr s' (if decide (is_Some (kvs !! S (start ds i + a)%nat)) then Some (S (start ds i + a)) else None).
Proof.
  intros Ht Hc Hd Hcb Hr Hib. rewrite ti_advance_S, Hcb. pose proof (data_forward i d Hd) as HF.
  pose proof (rep_range cb a Hr) as Ha. destruct (d_kvs d !! S a) as [kv|] eqn:Hkv.
  - destruct (advance_more cb (Some a) kv Hr Hkv) as (cb'&Hadv&Hr'). cbn in Hadv. rewrite Hadv. cbn [bind].
    pose proof (dblk_kvs_in i d (S a) kv Hd Hkv) as Hin. rewrite Nat.add_succ_r in Hin. rewrite Hin.
    rewrite bool_decide_eq_true_2, decide_True by (by eexists).
    eexists. split; [done|]. split; [done|]. split; [done|].
    exists i, d, (S a), cb'. split; [lia|]. done.
  - destruct (advance_done cb (Some a) Hr Hkv) as (cb'&Hadv&_). cbn in Hadv. rewrite Hadv. cbn [bind].
    apply lookup_ge_None in Hkv. replace (S (start ds i + a)) with (start ds (S i)).
    2: { rewrite (start_S ds i d Hd). lia. }
    destruct (advance_skip id fr n (set_current_block (set_current_block self (Some cb')) None) cache (Some i))
      as (s'&Hs'&Hrep); [done..|]. rewrite Hs'. cbn [cursor_succ] in *.
    destruct (ds !! S i) as [d'|] eqn:Hd'.
    + destruct (dblk_first _ d' Hd') as [kv0 Hkv0]. pose proof (dblk_kvs_in (S i) d' 0 kv0 Hd' Hkv0) as Hin.
      rewrite Nat.add_0_r in Hin. rewrite Hin. by exists s'.
    + assert (Hnone : kvs !! start ds (S i) = None).
      { apply lookup_ge_None. rewrite <- (vo_kvs _ _ HV). unfold start.
        apply lookup_ge_None in Hd'. by rewrite take_ge. }
      rewrite Hnone. by exists s'.
Qed.

Lemma advance_first id fr self cache n :
  table_rep id fr (self, cache) None →
  ∃ s', ti_advance (S (S n)) self cache = Done (bool_decide (is_Some (kvs !! 0%nat)), s') ∧
    table_rep id fr s' (if decide (is_Some (kvs !! 0%nat)) then Some 0%nat else None).
Proof.
  intros (Ht&Hc&Hcb&Hib). cbn [fst snd] in *. rewrite ti_advance_S, Hcb.
  destruct (advance_skip id fr n self cache None) as (s'&Hs'&Hrep); [done..|].
  rewrite Hs'. cbn [cursor_succ] in *. destruct (ds !! 0%nat) as [d|] eqn:Hd.
  - destruct (dblk_first 0 d Hd) as [kv Hkv]. pose proof (dblk_kvs_in 0 d 0 kv Hd Hkv) as Hin.
    change (start ds 0 + 0)%nat with 0%nat in Hin. rewrite Hin. by exists s'.
  - assert (Hnil : kvs = []).
    { rewrite <- (vo_kvs _ _ HV). by destruct ds. }
    rewrite Hnil. by exists s'.
Qed.

(** The iterator of a table is a forward cursor over its pairs. *)
Lemma table_forward id fr :
  SSIteratorForward TableIterator_SSIterator kvs (table_rep id fr).
Proof.
  assert (Hadv : ∀ s pos, table_rep id fr s pos →
    ∃ s', advance s = Done (bool_decide (is_Some (kvs !! cursor_succ pos)), s') ∧
      table_rep id fr s' (if decide (is_Some (kvs !! cursor_succ pos)) then Some (cursor_succ pos) else None)).
  { intros [self cache] [n|] Hr.
    - destruct Hr as (Ht&Hc&i&d&a&cb&->&Hd&Hcb&Hr&Hib). by eapply advance_at.
    - by apply advance_first. }
  split.
  - intros s n (_&_&i&d&a&cb&->&Hd&_&Hr&_). pose proof (data_forward i d Hd) as HF.
    destruct (lookup_lt_is_Some_2 _ _ (rep_range cb a Hr)) as [kv Hkv].
    eapply lookup_lt_Some. by eapply dblk_kvs_in.
  - intros s pos kv Hr Hkv. destruct (Hadv s pos Hr) as (s'&Ha&Hr'). rewrite Hkv in *. by exists s'.
  - intros s pos Hr Hkv. destruct (Hadv s pos Hr) as (s'&Ha&Hr'). rewrite Hkv in *. by exists s'.
  - intros s n kv k v (_&_&i&d&a&cb&->&Hd&Hcb&Hr&_) Hkv. cbn. unfold ti_current. rewrite Hcb.
    pose proof (data_forward i d Hd) as HF. destruct (lookup_lt_is_Some_2 _ _ (rep_range cb a Hr)) as [kv' Hkv'].
    rewrite (dblk_kvs_in i d a kv' Hd Hkv') in Hkv. injection Hkv as ->.
    exact (current_some (SSIteratorForward := HF) cb a kv k v Hr Hkv').
  - intros s k v (_&_&Hcb&_). cbn. unfold ti_current. by rewrite Hcb.
  - intros s [n|]; cbn; unfold ti_current_key.
    + intros (_&_&i&d&a&cb&->&Hd&Hcb&Hr&_). rewrite Hcb. pose proof (data_forward i d Hd) as HF.
      destruct (lookup_lt_is_Some_2 _ _ (rep_range cb a Hr)) as [kv Hkv].
      rewrite (dblk_kvs_in i d a kv Hd Hkv). pose proof (current_key_rep cb (Some a) Hr) as Hk.
      cbn in Hk. by rewrite Hk, Hkv.
    + intros (_&_&Hcb&_). by rewrite Hcb.
  - intros s pos (Ht&Hc&Hpos). eexists. split; [done|]. split; [done|]. split; [done|]. split; [done|].
    pose proof index_spec as HI.
    assert (Hib : ∃ p, index_rep (ti_index_block s.1) p).
    { destruct pos as [n|]; [destruct Hpos as (i&d&a&cb&_&_&_&_&?); by exists (Some i)|].
      destruct Hpos as [_ ?]. by exists None. }
    destruct Hib as [p Hib]. by destruct (reset_rep _ _ Hib) as (ib2&[= <-]&?).
  - intros s [n|]; cbn; unfold ti_valid.
    + intros (_&_&i&d&a&cb&->&Hd&Hcb&Hr&_). rewrite Hcb. pose proof (data_forward i d Hd) as HF.
      exact (valid_rep (SSIteratorForward := HF) cb (Some a) Hr).
    + intros (_&_&Hcb&_). by rewrite Hcb.
Qed.

(** *** Seeking and going back *)

Lemma table_rep_index id fr s pos :
  table_rep id fr s pos → ∃ p, index_rep (ti_index_block s.1) p.
Proof.
  intros (_&_&Hpos). destruct pos as [n|].
  - destruct Hpos as (i&_&_&_&_&_&_&_&Hib). by exists (Some i).
  - destruct Hpos as [_ Hib]. by exists None.
Qed.

(** An iterator of the table, wherever it was moved: neither its index iterator
    nor its block iterator need be anywhere in particular. *)
Definition roams (id : Z) (fr : option FilterBlockReader) (s : TableIterator * St) : Prop :=
  table s.1 = opened id fr ∧ source_ok id s.2 ∧ (∃ p, index_rep (ti_index_block s.1) p) ∧
  ∀ cb, current_block s.1 = Some cb → ∃ i d a, ds !! i = Some d ∧ data_rep d cb a.

Lemma table_rep_roams id fr s pos : table_rep id fr s pos → roams id fr s.
Proof.
  intros Hr. pose proof (table_rep_index id fr s pos Hr) as Hib. destruct Hr as (Ht&Hc&Hpos).
  split; [done|]. split; [done|]. split; [done|]. intros cb Hcb. destruct pos as [n|].
  - destruct Hpos as (i&d&a&cb'&_&Hd&Hcb'&Hr&_). rewrite Hcb in Hcb'. injection Hcb' as <-. by exists i, d, (Some a).
  - destruct Hpos as [Hno _]. congruence.
Qed.

(** [reset] takes it back to the start from anywhere. *)
Lemma roams_reset_rep id fr s : roams id fr s → table_rep id fr (ti_reset s.1, s.2) None.
Proof.
  intros (Ht&Hc&[p Hib]&_). split; [done|]. split; [done|]. split; [done|]. pose proof index_spec as HI.
  by destruct (reset_rep _ p Hib) as (ib&[= <-]&?).
Qed.

Lemma roams_reset id fr s : roams id fr s → roams id fr (ti_reset s.1, s.2).
Proof. intros Hs. by eapply table_rep_roams, roams_reset_rep. Qed.

Lemma index_current ib i d :
  index_rep ib (Some i) → ds !! i = Some d →
  current_key_val ib = Done (Some (d_sep d, handle_bytes (d_handle d))).
Proof.
  intros Hib Hd. pose proof index_spec as HI.
  rewrite (current_key_val_spec (index_kvs ds) index_rep ib (Some i) Hib).
  cbn [mbind option_bind]. by rewrite (index_lookup i d Hd).
Qed.

(** [seek] to a present key. *)
Lemma table_seek_present id fr s pos i d a kv :
  strict_seps V → table_rep id fr s pos → ds !! i = Some d → d_kvs d !! a = Some kv →
  ∃ s', seek s kv.1 = Done s' ∧ table_rep id fr s' (Some (start ds i + a)%nat).
Proof.
  intros Hsep Hrep Hd Ha. destruct (table_rep_index id fr s pos Hrep) as [p Hib].
  destruct s as [self cache]. destruct Hrep as (Ht&Hc&_). cbn [fst snd] in *.
  cbn [seek TableIterator_SSIterator fst snd]. unfold ti_seek. pose proof index_spec as HI.
  destruct (seek_rep _ p kv.1 Hib) as (ib'&Hs&Hib'). cbn in Hs. rewrite Hs. cbn [bind].
  rewrite (index_find i d a kv Hsep Hd Ha) in Hib'.
  change (ti_index_block (set_index_iter self ib')) with ib'. cbv zeta.
  rewrite (index_current ib' i d Hib' Hd). cbn [bind].
  change (table (set_index_iter self ib')) with (table self). rewrite Ht. cbn [t_opt opened_at].
  rewrite (key_below_sep i d a kv Hd Ha).
  destruct (load_block_ok id fr (set_index_iter self ib') cache i d Ht Hc Hd) as (cb&cache'&Hl&Hcb&Hc').
  rewrite Hl. cbn [bind unwrap_block current_block].
  pose proof (data_spec i d Hd) as HD. destruct (seek_rep cb None kv.1 Hcb) as (cb'&Hs'&Hcb').
  cbn in Hs'. rewrite Hs'. cbn [bind]. rewrite (find_ge_present c (d_kvs d) a kv (dblk_sorted i d Hd) Ha) in Hcb'.
  eexists. split; [done|]. split; [done|]. split; [done|]. exists i, d, a, cb'. done.
Qed.

(** A key of a block up to [i] whose separators are below [to], or of block
    [i] and below [to], is below [to]. *)
Lemma keys_before i d to m n kv :
  find_ge c to (index_kvs ds) = Some i → ds !! i = Some d → (m ≤ length (d_kvs d))%nat →
  (∀ a kv, (a < m)%nat → d_kvs d !! a = Some kv → cmp c kv.1 to = Lt) →
  (n < start ds i + m)%nat → kvs !! n = Some kv → cmp c kv.1 to = Lt.
Proof.
  intros Hix Hd Hm Hbelow Hn Hkv. rewrite <- (vo_kvs _ _ HV) in Hkv.
  apply find_block in Hkv as (i'&d'&a'&Hd'&Ha'&->).
  destruct (Nat.lt_trichotomy i' i) as [Hlt|[->|Hgt]].
  - destruct (find_ge_inv _ _ _ _ Hix) as (_&_&_&Hprev).
    apply (cmp_lt_trans _ (d_sep d')); [by apply (key_below_sep i' d' a' kv)|].
    exact (Hprev i' _ Hlt (index_lookup i' d' Hd')).
  - rewrite Hd in Hd'. injection Hd' as <-. apply (Hbelow a' kv); [lia|done].
  - pose proof (start_mono ds (S i) i' ltac:(lia)). rewrite (start_S ds i d Hd) in *. lia.
Qed.

(** A key above the last of a block and up to its separator: [seek] goes to
    that block and finds nothing in it. *)
Definition in_gap (to : bytes) : Prop :=
  ∃ n a b s, kvs !! n = Some a ∧ kvs !! S n = Some b ∧ find_shortest_sep c a.1 b.1 = Done s ∧
    cmp c a.1 to = Lt ∧ cmp c to s ≠ Gt.

Lemma find_ge_gap i d to :
  chosen_seps V → find_ge c to (index_kvs ds) = Some i → ds !! i = Some d → find_ge c to (d_kvs d) = None →
  find_ge c to kvs = None ∨ in_gap to.
Proof.
  intros Hch Hix Hd Hnone. rewrite find_ge_None in Hnone.
  destruct (ds !! S i) as [d'|] eqn:Hd'.
  - right. pose proof (vb_nonempty _ (dblk_view i d Hd)) as Hne.
    destruct (lookup_lt_is_Some_2 (d_kvs d) (pred (length (d_kvs d)))) as [a Ha].
    { destruct (d_kvs d); [done|]. simpl. lia. }
    destruct (dblk_first _ d' Hd') as [b Hb].
    pose proof (Hch i d d' b Hd Hd' ltac:(by rewrite head_lookup)) as Hsep.
    rewrite (last_of_lookup _ _ Ha) in Hsep.
    exists (start ds i + pred (length (d_kvs d)))%nat, a, b, (d_sep d).
    split; [by apply (dblk_kvs_in i d)|]. split; [|split; [done|split; [by eapply Hnone|]]].
    + pose proof (dblk_kvs_in (S i) d' 0 b Hd' Hb) as Hk. rewrite (start_S ds i d Hd) in Hk.
      apply lookup_lt_Some in Ha. rewrite <- Hk. f_equal. lia.
    + destruct (find_ge_inv _ _ _ _ Hix) as (kv&Hkv&Hge&_). rewrite (index_lookup i d Hd) in Hkv.
      injection Hkv as <-. cbn in Hge. rewrite (cmp_opp (d_sep d) to). by destruct (cmp c (d_sep d) to).
  - left. apply find_ge_None. intros n kv Hn.
    apply (keys_before i d to (length (d_kvs d)) n kv Hix Hd); [done|intros; by eapply Hnone| |done].
    apply lookup_lt_Some in Hn. rewrite <- (vo_kvs _ _ HV) in Hn.
    rewrite <- (start_S ds i d Hd). unfold start. apply lookup_ge_None in Hd'. by rewrite take_ge.
Qed.

(** [seek] where the index has an entry for the target: the block it names, and
    in it the first key at least the target, or its end. *)
Lemma seek_into_block id fr s to i d :
  roams id fr s → find_ge c to (index_kvs ds) = Some i → ds !! i = Some d →
  ∃ ib cb cache', seek s to = Done (mkTableIterator (opened id fr) (Some cb) (d_off d) ib, cache') ∧
    source_ok id cache' ∧ index_rep ib (Some i) ∧ data_rep d cb (find_ge c to (d_kvs d)).
Proof.
  destruct s as [self cache]. intros (Ht&Hc&[p Hib]&_) Hix Hd. cbn [fst snd] in *.
  cbn [seek TableIterator_SSIterator fst snd]. unfold ti_seek. pose proof index_spec as HI.
  destruct (seek_rep _ p to Hib) as (ib'&Hs&Hib'). cbn in Hs. rewrite Hs. cbn [bind]. cbv zeta.
  change (ti_index_block (set_index_iter self ib')) with ib'. rewrite Hix in Hib'.
  destruct (find_ge_inv _ _ _ _ Hix) as (kv&Hkv&Hge&_). rewrite (index_lookup i d Hd) in Hkv.
  injection Hkv as <-. cbn in Hge. rewrite (index_current ib' i d Hib' Hd). cbn [bind].
  change (table (set_index_iter self ib')) with (table self). rewrite Ht. cbn [t_opt opened_at].
  destruct (load_block_ok id fr (set_index_iter self ib') cache i d Ht Hc Hd) as (cb&cache'&Hl&Hcb&Hc').
  pose proof (data_spec i d Hd) as HD. destruct (seek_rep cb None to Hcb) as (cb'&Hs'&Hcb'). cbn in Hs'.
  assert (Hle : cmp c to (d_sep d) ≠ Gt) by by rewrite cmp_gt_lt. exists ib', cb', cache'.
  split; [|done].
  destruct (cmp c to (d_sep d)); [| |by destruct Hle];
    unfold opened in Hl; rewrite Hl; cbn [bind unwrap_block current_block]; by rewrite Hs'.
Qed.

(** [seek] to any key. *)
Lemma table_seek_any id fr s to :
  chosen_seps V → roams id fr s →
  ∃ s', seek s to = Done s' ∧ roams id fr s' ∧
    ((valid s' = true ∧ is_Some (find_ge c to kvs) ∧ table_rep id fr s' (find_ge c to kvs)) ∨
     (valid s' = false ∧ (find_ge c to kvs = None ∨ in_gap to))).
Proof.
  intros Hch Hrep. destruct (find_ge c to (index_kvs ds)) as [i|] eqn:Hix.
  - destruct (find_ge_inv _ _ _ _ Hix) as (kv&(d&Hd&->)%index_lookup_inv&_&_).
    destruct (seek_into_block id fr s to i d Hrep Hix Hd) as (ib&cb&cache'&Hs&Hc'&Hib&Hcb).
    eexists. split; [exact Hs|]. split.
    { split; [done|]. split; [done|]. split; [by exists (Some i)|]. intros cb2 [= <-]. by eexists i, d, _. }
    pose proof (data_forward i d Hd) as HF.
    pose proof (valid_rep (SSIteratorForward := HF) cb _ Hcb) as Hv. cbn in Hv.
    cbn [valid TableIterator_SSIterator fst]. unfold ti_valid. cbn [current_block]. rewrite Hv.
    destruct (find_ge c to (d_kvs d)) as [a|] eqn:Ha.
    + left. split; [done|]. destruct (find_ge_inv _ _ _ _ Ha) as (kv&Hkv&Hge'&Hbelow).
      assert (Hf : find_ge c to kvs = Some (start ds i + a)%nat).
      { apply (find_ge_Some c to kvs _ kv); [by apply (dblk_kvs_in i d)|done|]. intros n kv' Hn Hkv'.
        apply lookup_lt_Some in Hkv. by apply (keys_before i d to a n kv' Hix Hd); [lia|..]. }
      rewrite Hf. split; [done|]. split; [done|]. split; [done|]. by exists i, d, a, cb.
    + right. split; [done|]. by apply (find_ge_gap i d to).
  - destruct s as [self cache]. pose proof Hrep as (Ht&Hc&[p Hib]&_). cbn [fst snd] in *.
    cbn [seek TableIterator_SSIterator fst snd]. unfold ti_seek. pose proof index_spec as HI.
    destruct (seek_rep _ p to Hib) as (ib'&Hs&Hib'). cbn in Hs. rewrite Hs. cbn [bind]. cbv zeta.
    change (ti_index_block (set_index_iter self ib')) with ib'. rewrite Hix in Hib'.
    rewrite (current_key_val_spec (index_kvs ds) index_rep ib' None Hib'). cbn [mbind option_bind bind].
    eexists. split; [done|]. split.
    { apply (roams_reset id fr (set_index_iter self ib', cache)). split; [done|]. split; [done|].
      split; [by exists None|]. apply Hrep. }
    right. split; [done|]. left. rewrite find_ge_None in Hix.
    apply find_ge_None. intros n kv Hn. rewrite <- (vo_kvs _ _ HV) in Hn.
    apply find_block in Hn as (i&d&a&Hd&Ha&_). apply (cmp_lt_trans _ (d_sep d)).
    + by apply (key_below_sep i d a kv).
    + exact (Hix i _ (index_lookup i d Hd)).
Qed.

(** The last entry of the block before. *)
Lemma prev_block_ok id fr self cache i d :
  table self = opened id fr → source_ok id cache → ds !! i = Some d →
  index_rep (ti_index_block self) (Some (S i)) →
  ∃ s', prev_block self cache = Done (true, s') ∧ table_rep id fr s' (Some (pred (start ds (S i)))).
Proof.
  intros Ht Hc Hd Hib. unfold prev_block. pose proof (vo_index_size _ _ HV) as His.
  pose proof (built_back o (index_kvs ds) (v_index V) His) as HB.
  destruct (prev_more _ i Hib) as (ib'&Hp&Hib'). cbn in Hp. rewrite Hp. cbn [bind]. cbv zeta.
  change (ti_index_block (set_index_iter self ib')) with ib'.
  rewrite (index_current ib' i d Hib' Hd). cbn [bind].
  destruct (load_block_ok id fr (set_index_iter self ib') cache i d Ht Hc Hd) as (cb&cache'&Hl&Hcb&Hc').
  rewrite Hl. cbn [bind unwrap_block current_block]. pose proof (vb_size _ (dblk_view i d Hd)) as Hsz.
  pose proof (vb_nonempty _ (dblk_view i d Hd)) as Hne.
  destruct (built_seek_to_last o (d_kvs d) (d_contents d) Hsz cb None Hcb Hne) as (cb'&Hs&Hcb').
  rewrite Hs. cbn [bind]. pose proof (data_forward i d Hd) as HF.
  pose proof (valid_rep (SSIteratorForward := HF) cb' _ Hcb') as Hv. cbn in Hv. rewrite Hv.
  eexists. split; [done|]. split; [done|]. split; [done|].
  exists i, d, (pred (length (d_kvs d))), cb'. split; [|done].
  rewrite (start_S ds i d Hd). destruct (d_kvs d); [done|]. simpl. lia.
Qed.

(** [prev] at a pair that is not the first. *)
Lemma table_prev_more id fr s n :
  table_rep id fr s (Some (S n)) → ∃ s', prev s = Done (true, s') ∧ table_rep id fr s' (Some n).
Proof.
  destruct s as [self cache]. intros (Ht&Hc&i&d&a&cb&Hn&Hd&Hcb&Hr&Hib). cbn [fst snd] in *.
  cbn [prev TableIterator_SSIterator fst snd]. unfold ti_prev. rewrite Hcb.
  pose proof (vb_size _ (dblk_view i d Hd)) as Hsz.
  pose proof (built_back o (d_kvs d) (d_contents d) Hsz) as HB. destruct a as [|a].
  - destruct (prev_done cb Hr) as (cb'&Hp&_). cbn in Hp. rewrite Hp. cbn [bind]. cbv zeta.
    destruct i as [|i]; [change (start ds 0) with 0%nat in Hn; lia|].
    destruct (lookup_lt_is_Some_2 ds i) as [d' Hd']; [apply lookup_lt_Some in Hd; lia|].
    destruct (prev_block_ok id fr (set_current_block self (Some cb')) cache i d' Ht Hc Hd' Hib)
      as (s'&Hp'&Hs'). exists s'. split; [done|].
    by replace n with (pred (start ds (S i))) by lia.
  - destruct (prev_more cb a Hr) as (cb'&Hp&Hr'). cbn in Hp. rewrite Hp. cbn [bind].
    eexists. split; [done|]. split; [done|]. split; [done|]. exists i, d, a, cb'.
    split; [lia|done].
Qed.

(** What is left by [prev] at the first pair: the iterator of the first block
    rewound, and the index iterator rewound too. *)
Definition rewound (id : Z) (fr : option FilterBlockReader) (s : TableIterator * St) (d : dblk) (a : option nat) : Prop :=
  table s.1 = opened id fr ∧ source_ok id s.2 ∧ ds !! 0%nat = Some d ∧
  index_rep (ti_index_block s.1) None ∧ ∃ cb, current_block s.1 = Some cb ∧ data_rep d cb a.

(** [prev] at the first pair. *)
Lemma table_prev_first id fr s :
  table_rep id fr s (Some 0%nat) →
  ∃ s' d, prev s = Done (false, s') ∧ valid s' = false ∧ rewound id fr s' d None.
Proof.
  destruct s as [self cache]. intros (Ht&Hc&i&d&a&cb&Hn&Hd&Hcb&Hr&Hib). cbn [fst snd] in *.
  assert (i = 0%nat) as ->.
  { destruct i as [|i]; [done|]. exfalso.
    destruct (lookup_lt_is_Some_2 ds i) as [d' Hd']; [apply lookup_lt_Some in Hd; lia|].
    rewrite (start_S ds i d' Hd') in Hn. pose proof (vb_nonempty _ (dblk_view i d' Hd')).
    destruct (d_kvs d'); [done|]. simpl in Hn. lia. }
  assert (a = 0%nat) as -> by (change (start ds 0) with 0%nat in Hn; lia).
  cbn [prev TableIterator_SSIterator fst snd]. unfold ti_prev. rewrite Hcb.
  pose proof (vb_size _ (dblk_view 0 d Hd)) as Hsz. pose proof (vo_index_size _ _ HV) as His.
  pose proof (built_back o (d_kvs d) (d_contents d) Hsz) as HB.
  pose proof (built_back o (index_kvs ds) (v_index V) His) as HBi.
  destruct (prev_done cb Hr) as (cb'&Hp&Hr'). cbn in Hp. rewrite Hp. cbn [bind]. cbv zeta.
  unfold prev_block. change (ti_index_block (set_current_block self (Some cb'))) with (ti_index_block self).
  destruct (prev_done _ Hib) as (ib'&Hpi&Hib'). cbn in Hpi. rewrite Hpi. cbn [bind].
  eexists _, d. split; [done|]. split.
  - cbn. unfold ti_valid. cbn [current_block set_index_iter set_current_block].
    pose proof (data_forward 0 d Hd) as HF. exact (valid_rep (SSIteratorForward := HF) cb' None Hr').
  - split; [done|]. split; [done|]. split; [done|]. split; [done|]. by exists cb'.
Qed.

(** Advancing from there goes through the first block, and then starts over. *)
Lemma rewound_advance id fr s d a :
  rewound id fr s d a →
  match d_kvs d !! cursor_succ a with
  | Some kv => ∃ s', advance s = Done (true, s') ∧ rewound id fr s' d (Some (cursor_succ a)) ∧
      ∀ k v, ti_current s'.1 k v = Done (true, kv.1, kv.2)
  | None => ∃ s', advance s = Done (true, s') ∧ table_rep id fr s' (Some 0%nat)
  end.
Proof.
  destruct s as [self cache]. intros (Ht&Hc&Hd&Hib&cb&Hcb&Hr). cbn [fst snd] in *.
  cbn [advance TableIterator_SSIterator fst snd]. unfold advance_fuel. rewrite ti_advance_S, Hcb.
  pose proof (data_forward 0 d Hd) as HF. destruct (d_kvs d !! cursor_succ a) as [kv|] eqn:Hkv.
  - destruct (advance_more cb a kv Hr Hkv) as (cb'&Ha&Hr'). cbn in Ha. rewrite Ha. cbn [bind].
    eexists. split; [done|]. split.
    + split; [done|]. split; [done|]. split; [done|]. split; [done|]. by exists cb'.
    + intros k v. exact (current_some (SSIteratorForward := HF) cb' _ kv k v Hr' Hkv).
  - destruct (advance_done cb a Hr Hkv) as (cb'&Ha&_). cbn in Ha. rewrite Ha. cbn [bind].
    destruct (advance_skip id fr (length (Block.block (ti_index_block self)))
      (set_current_block (set_current_block self (Some cb')) None) cache None) as (s'&Hs'&Hrep); [done..|].
    cbn [cursor_succ] in *. rewrite Hd in Hs', Hrep. exists s'. split; [exact Hs'|exact Hrep].
Qed.

Lemma rewound_drain id fr fuel s d a :
  rewound id fr s d a → (length (drop (cursor_succ a) (d_kvs d)) + length kvs < fuel)%nat →
  ∃ s', drain fuel s = Done (drop (cursor_succ a) (d_kvs d) ++ kvs, s') ∧ valid s' = false.
Proof.
  revert s a. induction fuel as [|fuel IH]; intros s a Hs Hf; [lia|]. cbn [drain]. unfold next.
  pose proof Hs as (_&_&Hd&_). pose proof (rewound_advance id fr s d a Hs) as Hadv.
  destruct (d_kvs d !! cursor_succ a) as [kv|] eqn:Hkv.
  - destruct Hadv as (s1&->&Hs1&Hcur). cbn [bind negb current TableIterator_SSIterator]. rewrite Hcur. cbn [bind].
    rewrite (drop_S (d_kvs d) kv (cursor_succ a)) in * by done. destruct (IH s1 _ Hs1) as (s2&->&Hv).
    { simpl in *. lia. }
    cbn [bind cursor_succ app]. exists s2. by destruct kv.
  - destruct Hadv as (s1&->&Hs1). cbn [bind negb current TableIterator_SSIterator].
    pose proof (table_forward id fr) as HF. destruct (dblk_first 0 d Hd) as [kv Hkv0].
    pose proof (dblk_kvs_in 0 d 0 kv Hd Hkv0) as Hin. change (start ds 0 + 0)%nat with 0%nat in Hin.
    pose proof (current_some (SSIteratorForward := HF) s1 0 kv [] [] Hs1 Hin) as Hcur. cbn in Hcur.
    rewrite Hcur. cbn [bind]. apply lookup_ge_None in Hkv. rewrite (drop_ge (d_kvs d)) in * by done.
    apply lookup_lt_Some in Hin as Hpos.
    destruct (drain_spec kvs _ fuel s1 (Some 0%nat) Hs1) as (s2&->&Hs2); [simpl in *; lia|]. cbn [bind cursor_succ app].
    exists s2. split; [|by rewrite (valid_rep (SSIteratorForward := HF) s2 None Hs2)].
    destruct kvs as [|kv' l]; [done|]. injection Hin as ->. by destruct kv.
Qed.

(** *** From anywhere *)

Lemma roam_advance id fr s : roams id fr s → ∃ r s', advance s = Done (r, s') ∧ roams id fr s'.
Proof.
  destruct s as [self cache]. intros (Ht&Hc&[p Hib]&Hcb). cbn [fst snd] in *.
  cbn [advance TableIterator_SSIterator fst snd]. unfold advance_fuel. rewrite ti_advance_S.
  assert (Hskip : ∀ self', table self' = opened id fr → index_rep (ti_index_block self') p →
    ∃ r s', after_skip (ti_advance (S (length (Block.block (ti_index_block self))))) self' cache = Done (r, s') ∧
      roams id fr s').
  { intros self' Ht' Hib'.
    destruct (advance_skip id fr (length (Block.block (ti_index_block self))) self' cache p) as (s'&Hs'&Hr); [done..|].
    eexists _, s'. split; [exact Hs'|]. by eapply table_rep_roams. }
  destruct (current_block self) as [cb|] eqn:Hcur.
  - destruct (Hcb cb eq_refl) as (i&d&a&Hd&Hr). pose proof (data_forward i d Hd) as HF.
    destruct (d_kvs d !! cursor_succ a) as [kv|] eqn:Hkv.
    + destruct (advance_more cb a kv Hr Hkv) as (cb'&Ha&Hr'). cbn in Ha. rewrite Ha. cbn [bind].
      eexists _, _. split; [done|]. split; [done|]. split; [done|]. split; [by exists p|].
      intros cb2 [= <-]. by exists i, d, (Some (cursor_succ a)).
    + destruct (advance_done cb a Hr Hkv) as (cb'&Ha&_). cbn in Ha. rewrite Ha. cbn [bind].
      by apply Hskip.
  - by apply Hskip.
Qed.

Lemma roam_prev_block id fr self cache :
  roams id fr (self, cache) → ∃ r s', prev_block self cache = Done (r, s') ∧ roams id fr s'.
Proof.
  intros (Ht&Hc&[p Hib]&Hcb). cbn [fst snd] in *. unfold prev_block.
  pose proof (vo_index_size _ _ HV) as His. pose proof index_spec as HI.
  destruct (built_prev o (index_kvs ds) (v_index V) His (ti_index_block self) p Hib) as (ib&q&->&Hib').
  cbn [bind]. cbv zeta. destruct q as [i|].
  - rewrite bool_decide_eq_true_2 by done. pose proof (rep_range ib i Hib') as Hi.
    unfold index_kvs in Hi. rewrite length_fmap in Hi. destruct (lookup_lt_is_Some_2 ds i Hi) as [d Hd].
    change (ti_index_block (set_index_iter self ib)) with ib. rewrite (index_current ib i d Hib' Hd). cbn [bind].
    destruct (load_block_ok id fr (set_index_iter self ib) cache i d Ht Hc Hd) as (cb&cache'&Hl&Hcbr&Hc').
    rewrite Hl. cbn [bind unwrap_block current_block].
    destruct (built_seek_to_last o (d_kvs d) (d_contents d) (vb_size _ (dblk_view i d Hd)) cb None Hcbr
      (vb_nonempty _ (dblk_view i d Hd))) as (cb'&Hs&Hcb'). rewrite Hs. cbn [bind].
    eexists _, _. split; [done|]. split; [done|]. split; [done|]. split; [by exists (Some i)|].
    intros cb2 [= <-]. by eexists i, d, _.
  - rewrite bool_decide_eq_false_2 by by intros []. eexists _, _. split; [done|].
    split; [done|]. split; [done|]. split; [by exists None|done].
Qed.

Lemma roam_prev id fr s : roams id fr s → ∃ r s', prev s = Done (r, s') ∧ roams id fr s'.
Proof.
  destruct s as [self cache]. intros Hs. pose proof Hs as (Ht&Hc&[p Hib]&Hcb). cbn [fst snd] in *.
  cbn [prev TableIterator_SSIterator fst snd]. unfold ti_prev.
  destruct (current_block self) as [cb|] eqn:Hcur; [|by apply roam_prev_block].
  destruct (Hcb cb eq_refl) as (i&d&a&Hd&Hr).
  destruct (built_prev o (d_kvs d) (d_contents d) (vb_size _ (dblk_view i d Hd)) cb a Hr) as (cb'&b&->&Hr').
  cbn [bind].
  assert (Hs' : roams id fr (set_current_block self (Some cb'), cache)).
  { split; [done|]. split; [done|]. split; [by exists p|]. intros cb2 [= <-]. by exists i, d, b. }
  destruct (bool_decide _); [by eexists _, _|by apply roam_prev_block].
Qed.

(** [approx_offset_of]: the offset of the block that the index has for the key, or
    of what comes behind the data blocks. *)
Lemma approx_offset_ok id fr key :
  approx_offset_of (opened id fr) key = Done (match i ← find_ge c key (index_kvs ds); ds !! i with
    | Some d => d_off d
    | None => bh_offset (meta_index (v_footer V))
    end).
Proof.
  unfold approx_offset_of. cbn [t_index_block opened_at].
  destruct (index_seek key) as (it&it'&->&Hs&Hcur). cbn [bind]. rewrite Hs. cbn [bind]. rewrite Hcur.
  destruct (find_ge c key (index_kvs ds)) as [i|] eqn:Hix; [|done]. cbn [mbind option_bind bind].
  destruct (find_ge_inv _ _ _ _ Hix) as (kv&(d&Hd&->)%index_lookup_inv&_&_).
  by rewrite (index_lookup i d Hd), (decode_handle i d Hd), Hd.
Qed.

(** A greater key does not lead to an earlier place. *)
Lemma find_ge_mono (l : list (bytes * bytes)) a b i j :
  cmp c a b ≠ Gt → find_ge c a l = Some i → find_ge c b l = Some j → (i ≤ j)%nat.
Proof.
  intros Hab Hi Hj. destruct (decide (i ≤ j)%nat) as [|Hji]; [done|]. exfalso.
  destruct (find_ge_inv _ _ _ _ Hi) as (_&_&_&Hbelow). destruct (find_ge_inv _ _ _ _ Hj) as (kv&Hkv&Hge&_).
  apply Hge, (cmp_lt_le_trans _ a); [by apply (Hbelow j); [lia|]|done].
Qed.

Lemma find_ge_mono_None (l : list (bytes * bytes)) a b :
  cmp c a b ≠ Gt → find_ge c a l = None → find_ge c b l = None.
Proof.
  rewrite !find_ge_None. intros Hab Ha i kv Hkv. by apply (cmp_lt_le_trans _ a); [apply (Ha i)|].
Qed.
End source.
End reader.
