(* ===== verification/TableFiles.v ===== *)
(** * Files in the table format (src/table_reader.rs)

    The format of a table file, as its reader relies on it, whoever wrote the
    file: where the blocks are, in which order, with what between them and
    compressed how is up to the writer. [Table::new] opens such a file. *)

From S2P Require Export TableReading.

Section files.
Context `{E : IntegerEncoding, !IntegerEncodingSpec E, C : Crc32c, !Crc32cSpec C, Sn : Snappy}.
Context (o : Options) `{!CmpOrder (opt_cmp o)}.

Abbreviation c := (opt_cmp o).
Abbreviation filter_name := (filter_key (fp_name (filter_policy o))).

(** What the entries of the metaindex block say about the filter: it has none
    under the name of the reader's policy, nor under a later one, or the filter
    block is in the file at the handle it has. *)
Inductive filter_entry (metas : list (bytes * bytes)) (file : bytes) : option FilterBlockReader → Prop :=
  | no_filter_entry :
      (∀ k v, (k, v) ∈ metas → cmp c k filter_name = Lt) → filter_entry metas file None
  | some_filter_entry p fs r :
      (filter_name, handle_bytes (mkBlockHandle (len p) (len (fb_layout fs)))) ∈ metas →
      file = p ++ fb_layout fs ++ r → len (fb_layout fs) < U32 →
      filter_entry metas file (Some (layout_reader (filter_policy o) fs)).

(** [file] is a table of the pairs [kvs], with the blocks of [V] and the filter [fr]. *)
Record table_file (kvs : list (bytes * bytes)) (V : table_view) (fr : option FilterBlockReader)
    (file : bytes) : Prop := {
  tf_view : view_of o kvs V;
  tf_size : len file < U64;
  tf_blocks i d : v_blocks V !! i = Some d → stored_at file (d_handle d) (d_contents d);
  tf_index : stored_at file (f_index (v_footer V)) (v_index V);
  tf_meta : ∃ metas contents, stored_at file (meta_index (v_footer V)) contents ∧
    block_of o metas contents ∧ nonempty_keys metas ∧ len contents < U32 ∧ filter_entry metas file fr;
  tf_footer : wf_footer (v_footer V) ∧ ∃ p, file = p ++ footer_bytes (v_footer V);
  tf_filters : filters_ok V fr;
}.

Lemma stored_at_size file h contents : stored_at file h contents → bh_size h + 5 ≤ len file.
Proof.
  intros (p&r&ct&data&->&->&_). rewrite !len_app, len_stored. cbn. pose proof (len_nonneg p).
  pose proof (len_nonneg r). lia.
Qed.

Lemma read_format_block file h l contents :
  stored_at file h contents → block_of o l contents → len file < U64 →
  read_table_block o (BufferBackedFile file) h = Done (Ok (mkBlock contents o)).
Proof.
  intros Hst Hb Hsz. apply built_len in Hb. apply stored_at_size in Hst as Hh.
  apply read_stored_at; [done|lia|lia].
Qed.

(** A strict table: a file in the table format in which every separator is below
    the first key of the block behind it. The format itself ([table_file]) lets a
    separator be equal to that key, which lookups do not find then. *)
Definition strict_table (kvs : list (bytes * bytes)) (file : bytes) : Prop :=
  ∃ V fr, table_file kvs V fr file ∧ strict_seps o V.

(** *** What [Table::new] reads *)

Record opens (V : table_view) (f : RandomAccess) (size : Z) (fr : option FilterBlockReader) : Prop := {
  op_footer : read_footer f size = Done (Ok (v_footer V));
  op_index : read_table_block o f (f_index (v_footer V)) = Done (Ok (mkBlock (v_index V) o));
  op_meta : ∃ m, read_table_block o f (meta_index (v_footer V)) = Done (Ok m) ∧
    Table_read_filter_block m f o = Done (Ok fr);
}.

Lemma opens_new V f size fr cache :
  opens V f size fr →
  Table_new o f size cache = let! (id, cache) := new_cache_id cache in Done (Ok (opened_at o V f id fr), cache).
Proof.
  intros [Hf Hi (m&Hm&Hfl)]. unfold Table_new, st_bind. rewrite Hf. cbn [bind]. rewrite Hi. cbn [bind].
  rewrite Hm. cbn [bind]. by rewrite Hfl.
Qed.

Lemma read_footer_at p ft :
  wf_footer ft → read_footer (BufferBackedFile (p ++ footer_bytes ft)) (len (p ++ footer_bytes ft)) = Done (Ok ft).
Proof.
  intros Hf. unfold read_footer. pose proof (len_footer_bytes ft Hf) as Hlen. pose proof (len_nonneg p).
  unfold FULL_FOOTER_LENGTH, FOOTER_LENGTH in *. rewrite len_app.
  rewrite usub_Done by lia. cbn [bind]. unfold try_bind. replace (_ - _) with (len p) by lia.
  rewrite <- (app_nil_r (footer_bytes ft)) at 1. rewrite read_at_mid.
  - cbn [bind]. by rewrite Footer_decode_ok.
  - rewrite length_replicate. unfold len in Hlen. lia.
Qed.

(** The filter block, found through the metaindex. *)
Lemma read_filter_some f metas contents h fs :
  block_of o metas contents → nonempty_keys metas → len contents < U32 →
  (filter_name, handle_bytes h) ∈ metas → wf_handle h → bh_size h = len (fb_layout fs) →
  len (fb_layout fs) < U32 → read_bytes f h = Done (Ok (fb_layout fs)) →
  Table_read_filter_block (mkBlock contents o) f o = Done (Ok (Some (layout_reader (filter_policy o) fs))).
Proof.
  intros Hb Hk Hm [i Hi]%list_elem_of_lookup_1 Hh Hsize Hfs Hread. unfold Table_read_filter_block.
  destruct (built_lookup o metas contents filter_name Hk Hb Hm) as (it&it'&->&Hs&_&Hcur).
  cbn [bind]. rewrite Hs. cbn [bind]. rewrite Hcur.
  pose proof (find_ge_present c metas i _ (block_of_sorted _ _ _ Hb) Hi) as Hge. cbn [fst] in Hge.
  rewrite Hge. cbn [mbind option_bind]. rewrite Hi. cbn [bind].
  pose proof (BlockHandle_decode_bytes h [] Hh) as Hdec. rewrite app_nil_r in Hdec. rewrite Hdec. cbn [bind].
  rewrite Hsize. pose proof (len_fb_layout fs). pose proof (len_nonneg (mjoin fs)). pose proof (len_nonneg fs).
  rewrite (proj2 (Z.ltb_lt _ _)) by lia. unfold try_bind, read_filter_block. rewrite Hsize.
  rewrite (proj2 (Z.eqb_neq _ _)) by lia. unfold try_bind. rewrite Hread. cbn [bind].
  unfold FilterBlockReader_new_owned. by rewrite FilterBlockReader_new_layout by lia.
Qed.

Lemma read_filter_none f metas contents :
  block_of o metas contents → nonempty_keys metas → len contents < U32 →
  (∀ k v, (k, v) ∈ metas → cmp c k filter_name = Lt) →
  Table_read_filter_block (mkBlock contents o) f o = Done (Ok None).
Proof.
  intros Hb Hk Hm Hno. unfold Table_read_filter_block.
  destruct (built_lookup o metas contents filter_name Hk Hb Hm) as (it&it'&->&Hs&_&Hcur).
  cbn [bind]. rewrite Hs. cbn [bind]. rewrite Hcur.
  assert (Hge : find_ge c filter_name metas = None).
  { apply find_ge_None. intros i [k v] Hi. eapply Hno. by eapply list_elem_of_lookup_2. }
  by rewrite Hge.
Qed.

(** A file in the format opens, and its blocks can be read. *)
Lemma table_file_opens kvs V fr file :
  table_file kvs V fr file → opens V (BufferBackedFile file) (len file) fr.
Proof.
  intros [HV Hsz _ Hix (metas&m&Hst&Hb&Hk&Hm&Hfl) [Hft [p Hp]] _]. split.
  - rewrite Hp. by apply read_footer_at.
  - eapply read_format_block; [done|apply HV|done].
  - exists (mkBlock m o). split; [by eapply read_format_block|].
    destruct Hfl as [Hno|q fs r Hin Heq Hfs]; [by eapply read_filter_none|].
    eapply read_filter_some; [done..| |done|done|].
    + rewrite Heq, !len_app in Hsz. pose proof (len_nonneg q). pose proof (len_nonneg r).
      pose proof (len_nonneg (fb_layout fs)). split; cbn; lia.
    + rewrite Heq. apply read_bytes_mid.
Qed.

Lemma table_file_reads kvs V fr file :
  table_file kvs V fr file → reads_blocks o (BufferBackedFile file) V.
Proof.
  intros [HV Hsz Hst _ _ _ _] i d Hd. eapply read_format_block; [by eapply Hst| |done].
  by eapply vb_block, dblk_view.
Qed.

(** What lookups and iterators of an open table rely on. *)
Record readable (kvs : list (bytes * bytes)) (V : table_view) (f : RandomAccess)
    (fr : option FilterBlockReader) : Prop := {
  rd_view : view_of o kvs V;
  rd_blocks : reads_blocks o f V;
  rd_filters : filters_ok V fr;
}.

Lemma table_file_readable kvs V fr file :
  table_file kvs V fr file → readable kvs V (BufferBackedFile file) fr.
Proof. intros Htf. split; [apply Htf|by eapply table_file_reads|apply Htf]. Qed.
End files.
