(* ===== verification/TableReaderProofs.v ===== *)
(** * Built tables are in the format (src/table_builder.rs, src/table_reader.rs)

    A table that [TableBuilder] wrote is a file in the table format of
    TableFiles.v, whatever block size, restart interval and compression it was
    written with, if the comparator and the filter policy are those of the
    reader. *)

From S2P Require Export TableFiles.

(** Options with which a table can be read that was written with [w]. *)
Record same_format (w o : Options) : Prop := {
  sf_cmp : opt_cmp o = opt_cmp w;
  sf_policy : filter_policy o = filter_policy w;
}.

Section built.
Context `{E : IntegerEncoding, !IntegerEncodingSpec E, C : Crc32c, !Crc32cSpec C, Sn : Snappy, !SnappySpec Sn}.
Context (w o : Options) (Hfmt : same_format w o) `{!CmpOrder (opt_cmp o), !CmpNil (opt_cmp o)}.
Context (Hri : 0 < block_restart_interval w).
Context (T : table_parts) (kvs : list (bytes * bytes)).
Context (HT : table_of w kvs T) (Hsize : len (table_bytes w T) < U32).
Context (Hsorted : sorted_kvs (opt_cmp o) kvs = true) (Hkeys : nonempty_keys kvs).

Abbreviation c := (opt_cmp o).
Abbreviation ct := (compression_type w).
Abbreviation ds := (p_blocks T).
Abbreviation f := (BufferBackedFile (table_bytes w T)).

(** A block that was built is a block for the reader. *)
Lemma built_block l b : build_block w l = Done b → block_of o l b.
Proof. apply build_block_of; [apply Hfmt|done]. Qed.

(** *** Sizes *)

Lemma compress_len_bound contents data :
  compress ct contents = Ok data → len data < U32 → len contents < U32.
Proof.
  unfold compress. case_decide; [|by intros [= ->]].
  destruct (compress_vec contents) eqn:Hc; [|done]. intros _ _. by eapply compress_input_len.
Qed.

Lemma table_len :
  len (table_bytes w T) = len (image w ds) + len (p_filter T) + len (p_meta_data T) + len (p_index_data T) + 63.
Proof.
  unfold table_bytes. rewrite !len_app, !len_stored, len_footer_bytes by apply HT.
  unfold FULL_FOOTER_LENGTH, FOOTER_LENGTH. lia.
Qed.

Lemma parts_nonneg :
  0 ≤ len (image w ds) ∧ 0 ≤ len (p_filter T) ∧ 0 ≤ len (p_meta_data T) ∧ 0 ≤ len (p_index_data T).
Proof. repeat split; apply len_nonneg. Qed.

(** A data block in the file. *)
Lemma block_in_file i d :
  ds !! i = Some d → ∃ r, table_bytes w T = image w (take i ds) ++ stored ct (d_data d) ++ r ∧
    d_off d = len (image w (take i ds)).
Proof.
  intros Hd. eexists. split; [|by apply (wds_off _ _ (to_blocks _ _ _ HT))].
  unfold table_bytes. rewrite <- (take_drop_middle ds i d Hd) at 1. unfold image at 1.
  rewrite fmap_app, join_app. cbn. rewrite <- !app_assoc. done.
Qed.

Lemma dblk_wf i d : ds !! i = Some d → wf_dblk w d.
Proof. intros Hd. by apply (Forall_lookup_1 _ _ _ _ (wds_blocks _ _ (to_blocks _ _ _ HT)) Hd). Qed.

Lemma dblk_sizes i d :
  ds !! i = Some d → 0 ≤ d_off d ∧ d_off d + len (d_data d) + 5 < U32 ∧ len (d_contents d) < U32 ∧
    8 ≤ len (d_contents d).
Proof.
  intros Hd. destruct (block_in_file i d Hd) as (r&Hb&Hoff). pose proof (len_nonneg r).
  pose proof (len_nonneg (image w (take i ds))). pose proof (len_nonneg (d_data d)).
  rewrite Hb, !len_app, len_stored in Hsize. destruct (dblk_wf i d Hd) as [Hbuild _ Hc _ _].
  split; [lia|]. split; [lia|]. split; [eapply compress_len_bound; [done|lia]|].
  by eapply built_len, built_block.
Qed.

Lemma index_size : len (p_index T) < U32 ∧ 8 ≤ len (p_index T).
Proof.
  split; [|by eapply built_len, built_block, (to_index _ _ _ HT)].
  eapply compress_len_bound; [apply HT|]. pose proof table_len. pose proof parts_nonneg. lia.
Qed.

Lemma d_off_inj i j d d' : ds !! i = Some d → ds !! j = Some d' → d_off d = d_off d' → i = j.
Proof.
  assert (Hlt : ∀ i j d d', (i < j)%nat → ds !! i = Some d → ds !! j = Some d' → d_off d < d_off d').
  { intros i0 j0 d0 d1 Hij Hd Hd'. rewrite (wds_off _ _ (to_blocks _ _ _ HT) _ _ Hd),
      (wds_off _ _ (to_blocks _ _ _ HT) _ _ Hd').
    pose proof (image_take_le_take w ds (S i0) j0 ltac:(lia)) as Hm.
    rewrite (take_S_r _ _ d0), image_snoc, len_app, len_stored in Hm by done.
    pose proof (len_nonneg (d_data d0)). lia. }
  intros Hd Hd' Heq. destruct (Nat.lt_trichotomy i j) as [H0|[H0|H0]]; [|done|].
  - pose proof (Hlt i j d d' H0 Hd Hd'). lia.
  - pose proof (Hlt j i d' d H0 Hd' Hd). lia.
Qed.

(** *** The table that was built *)

(** The table as its reader sees it. *)
Definition built_view : table_view := mkView ds (p_index T) (table_footer w T).

Lemma built_view_of : view_of o kvs built_view.
Proof.
  pose proof (to_blocks _ _ _ HT) as Hb. split; cbn; try done.
  - apply HT.
  - apply Forall_lookup. intros i d Hd. destruct (dblk_wf i d Hd) as [Hbuild Hne _ Hlast Hh].
    rewrite <- (sf_cmp _ _ Hfmt) in Hlast. destruct (dblk_sizes i d Hd) as (_&_&?&_).
    split; [by apply built_block|done|done|done| |done].
    intros Hnil. rewrite Hnil in Hlast. apply (cmp_nil_least (last_of (d_kvs d))). by apply cmp_gt_lt.
  - exact d_off_inj.
  - intros i d d' kv Hd Hd' Hkv. rewrite (sf_cmp _ _ Hfmt). by apply (wds_sep _ _ Hb i d d').
  - apply built_block, HT.
  - apply index_size.
Qed.

Lemma built_chosen_seps : chosen_seps o built_view.
Proof.
  intros i d d' kv Hd Hd' Hkv. rewrite (sf_cmp _ _ Hfmt). by apply (wds_sep _ _ (to_blocks _ _ _ HT) i d d').
Qed.

(** *** The filters *)

Context (fits : list bytes → Prop).
Context `{!FilterPolicySpec (filter_policy o) fits, !FilterPolicyNonempty (filter_policy o) fits}.
Context (Hfits : ∀ l, l `sublist_of` kvs.*1 → fits l).

Abbreviation blocks := (filter_blocks w ds []).

Lemma image_take_mono i j : (i ≤ j)%nat → len (image w (take i ds)) ≤ len (image w (take j ds)).
Proof. apply image_take_le_take. Qed.

Lemma all_kvs_parts : all_kvs ds [] = kvs.
Proof. unfold all_kvs. by rewrite app_nil_r, (to_kvs _ _ _ HT). Qed.

Lemma blocks_wf : wf_blocks fits blocks.
Proof.
  pose proof table_len. pose proof parts_nonneg.
  apply filter_blocks_wf; rewrite ?all_kvs_parts; try done; [apply HT|unfold U32 in *; lia].
Qed.

Lemma filter_block_ok :
  ∃ fs, p_filter T = fb_layout fs ∧ filters_ok built_view (Some (layout_reader (filter_policy o) fs)).
Proof.
  destruct (to_filter _ _ _ HT) as (fb&Hfold&Hfin). rewrite <- (sf_policy _ _ Hfmt) in Hfold.
  destruct (add_blocks_seen (filter_policy o) fits blocks blocks_wf) as (fb'&Hfold'&Hseen).
  rewrite Hfold in Hfold'. injection Hfold' as <-.
  destruct (seen_finish (filter_policy o) fits blocks fb Hseen (wf_fits _ _ blocks_wf)) as (fs&Hfin'&Hmatch).
  rewrite Hfin in Hfin'. injection Hfin' as Hlay. exists fs. split; [done|].
  pose proof (len_fb_layout fs) as Hl. pose proof (len_nonneg (mjoin fs)). pose proof (len_nonneg fs).
  pose proof table_len. pose proof parts_nonneg. rewrite <- Hlay in Hl.
  assert (Hin : ∀ i d a kv, ds !! i = Some d → d_kvs d !! a = Some kv →
    (d_off d, (d_kvs d).*1) ∈ blocks ∧ kv.1 ∈ (d_kvs d).*1).
  { intros i d a kv Hd Ha. split; [|apply list_elem_of_fmap; exists kv; by eauto using list_elem_of_lookup_2].
    unfold filter_blocks. apply elem_of_app. left. apply list_elem_of_fmap. exists d.
    split; [done|]. by eapply list_elem_of_lookup_2. }
  intros r i d [= <-] Hd. split.
  - intros a kv Ha. destruct (Hin i d a kv Hd Ha) as [Hi1 Hi2].
    destruct (Hmatch _ _ _ Hi1 Hi2) as (j&fl&Hj&Hfl&Hne&Hm&_).
    rewrite (fr_key_may_match_layout (filter_policy o) fs ltac:(rewrite <- Hlay; lia) j fl); done.
  - intros key Hkey. pose proof (wd_nonempty _ _ (dblk_wf i d Hd)) as Hne0.
    destruct (d_kvs d !! 0%nat) as [kv|] eqn:Hkv; [|by destruct (d_kvs d)].
    destruct (Hin i d 0%nat kv Hd Hkv) as [Hi1 Hi2].
    destruct (Hmatch _ _ _ Hi1 Hi2) as (j&fl&Hj&Hfl&Hne&_&Htot).
    rewrite (fr_key_may_match_layout (filter_policy o) fs ltac:(rewrite <- Hlay; lia) j fl); auto.
Qed.

(** *** The file *)

Lemma data_stored i d : ds !! i = Some d → stored_at (table_bytes w T) (d_handle d) (d_contents d).
Proof.
  intros Hd. destruct (block_in_file i d Hd) as (r&->&Hoff). apply stored_at_mid; [apply (dblk_wf i d Hd)|].
  unfold d_handle. by rewrite Hoff.
Qed.

Lemma index_stored : stored_at (table_bytes w T) (index_handle w T) (p_index T).
Proof.
  unfold table_bytes. rewrite !(app_assoc _ (stored _ _)). rewrite <- (app_assoc _ (stored _ _)).
  apply stored_at_mid; [apply HT|]. unfold index_handle, meta_handle. cbn. rewrite !len_app, !len_stored. f_equal. lia.
Qed.

Lemma meta_stored : stored_at (table_bytes w T) (meta_handle w T) (p_meta T).
Proof.
  unfold table_bytes. rewrite (app_assoc (image w ds)).
  apply stored_at_mid; [apply HT|]. unfold meta_handle. rewrite len_app, len_stored. f_equal. lia.
Qed.

Lemma meta_block : block_of o [(filter_key (fp_name (filter_policy o)), handle_bytes (filter_handle w T))] (p_meta T) ∧
  len (p_meta T) < U32.
Proof.
  pose proof table_len. pose proof parts_nonneg. rewrite (sf_policy _ _ Hfmt). split; [apply built_block, (to_meta _ _ _ HT)|].
  eapply compress_len_bound; [apply HT|lia].
Qed.

Lemma filter_in_file : ∃ r, table_bytes w T = image w ds ++ p_filter T ++ r.
Proof. unfold table_bytes. unfold stored at 1. rewrite <- !app_assoc. by eexists. Qed.

(** The written file is in the format. *)
Lemma built_table_file :
  ∃ fs, p_filter T = fb_layout fs ∧ len (p_filter T) < U32 ∧
    table_file o kvs built_view (Some (layout_reader (filter_policy o) fs)) (table_bytes w T).
Proof.
  destruct filter_block_ok as (fs&Hlay&Hfs). pose proof table_len. pose proof parts_nonneg.
  destruct meta_block as [Hm Hmsz]. exists fs. split; [done|]. split; [lia|]. split.
  - apply built_view_of.
  - unfold U32, U64 in *. lia.
  - exact data_stored.
  - apply index_stored.
  - eexists _, (p_meta T). split; [apply meta_stored|]. split; [exact Hm|]. split; [by apply Forall_singleton|].
    split; [done|]. destruct filter_in_file as [r Hr]. rewrite Hlay in Hr.
    apply (some_filter_entry o _ _ (image w ds) fs r); [|exact Hr|rewrite <- Hlay; lia].
    rewrite <- Hlay. by apply list_elem_of_singleton.
  - split; [apply HT|]. unfold table_bytes. rewrite !app_assoc. by eexists.
  - done.
Qed.
End built.
