(* ===== verification/TableRoundtrip.v ===== *)
(** * Tables end to end (src/table_builder.rs with src/table_reader.rs)

    What a client gets back from a table it built: a finite map for lookups, a
    list of pairs for iteration, through any state of the block cache, which
    several tables may share. *)

From S2P Require Export TableReaderProofs.

(** A table that was built, and the sizes it stays within. The reader's options
    [o] need not be those it was written with: block size, restart interval and
    compression may differ. *)
Record built_table `{E : IntegerEncoding, C : Crc32c, Sn : Snappy} (o : Options)
    (fits : list bytes → Prop) (kvs : list (bytes * bytes)) (file : bytes) : Prop := {
  bt_written : ∃ w, same_format w o ∧ 0 < block_restart_interval w ∧ 8 ≤ block_size w ∧
    build_table w kvs [] = Done (Ok (len file), file);
  bt_sorted : sorted_kvs (opt_cmp o) kvs = true;
  bt_keys : nonempty_keys kvs;
  (** the policy creates filters for the keys and for any part of them *)
  bt_fits l : l `sublist_of` kvs.*1 → fits l;
  bt_size : len file < U32;
}.

(** The identifiers of a cache: those given out are at most [cache_id]. *)
Definition cache_ids `{E : IntegerEncoding} (cache : Cache Block) : Prop :=
  0 ≤ cache_id cache < U64 - 1 ∧
  ∃ xs, cache_rep cache xs ∧ ∀ key blk, lru_lookup xs key = Some blk →
    ∃ id off, key = encode_fixed64 id ++ encode_fixed64 off ∧ 0 ≤ id ≤ cache_id cache.

(** A cache nothing was put into. *)
Definition empty_cache (cache : Cache Block) : Prop :=
  cache_rep cache [] ∧ 0 ≤ cache_id cache < U64 - 1.

Lemma empty_cache_ids `{E : IntegerEncoding} cache : empty_cache cache → cache_ids cache.
Proof. intros [Hr Hid]. split; [done|]. by exists []. Qed.

(** A client that looks up one key after the other. *)
Fixpoint table_gets `{E : IntegerEncoding, !Crc32c, !Snappy} (t : Table) (keys : list bytes)
    (cache : Cache Block) : outcome (result (list (option bytes)) * Cache Block) :=
  match keys with
  | [] => Done (Ok [], cache)
  | key :: keys =>
      try! x, cache := table_get t key cache in
      try! xs, cache := table_gets t keys cache in
      Done (Ok (x :: xs), cache)
  end.

(** The map that a table is. *)
Definition table_map (kvs : list (bytes * bytes)) : gmap bytes bytes := list_to_map kvs.

Lemma nonempty_sorted_NoDup c `{!CmpOrder c} kvs : sorted_kvs c kvs = true → NoDup kvs.*1.
Proof.
  intros Hs. apply NoDup_alt. intros i j k Hi Hj. rewrite !list_lookup_fmap in *.
  destruct (kvs !! i) as [a|] eqn:Ha; [|done]. destruct (kvs !! j) as [b|] eqn:Hb; [|done].
  cbn in Hi, Hj. injection Hi as <-. injection Hj as Hba. destruct (Nat.lt_trichotomy i j) as [Hij|[->|Hij]]; [|done|]; exfalso.
  - pose proof (sorted_lt c kvs i j a b Hs Hij Ha Hb) as Hlt. rewrite Hba in Hlt. by apply (cmp_lt_irrefl a.1).
  - pose proof (sorted_lt c kvs j i b a Hs Hij Hb Ha) as Hlt. rewrite Hba in Hlt. by apply (cmp_lt_irrefl a.1).
Qed.

Lemma table_map_lookup c `{!CmpOrder c} kvs k v :
  sorted_kvs c kvs = true → table_map kvs !! k = Some v ↔ (k, v) ∈ kvs.
Proof. intros Hs. symmetry. apply elem_of_list_to_map. by eapply nonempty_sorted_NoDup. Qed.

Section tables.
Context `{E : IntegerEncoding, !IntegerEncodingSpec E, C : Crc32c, !Crc32cSpec C, Sn : Snappy, !SnappySpec Sn}.
Context (o : Options) `{!CmpOrder (opt_cmp o), !CmpSep (opt_cmp o), !CmpNil (opt_cmp o)}.
Context (fits : list bytes → Prop).
Context `{!FilterPolicySpec (filter_policy o) fits, !FilterPolicyNonempty (filter_policy o) fits}.

Abbreviation c := (opt_cmp o).
Abbreviation open_table file cache := (Table_new o (BufferBackedFile file) (len file) cache).

(** The data blocks are in order, the metaindex block is behind them, and all are
    inside a file of that size. *)
Definition offsets_in (V : table_view) (size : Z) : Prop :=
  (∀ i j d d', (i ≤ j)%nat → v_blocks V !! i = Some d → v_blocks V !! j = Some d' →
    0 ≤ d_off d ∧ d_off d ≤ d_off d' ∧ d_off d' < size) ∧
  0 ≤ bh_offset (meta_index (v_footer V)) < size ∧
  ∀ i d, v_blocks V !! i = Some d → d_off d ≤ bh_offset (meta_index (v_footer V)).

Lemma built_offsets w T kvs :
  table_of w kvs T → offsets_in (built_view w T) (len (table_bytes w T)).
Proof.
  intros HT. pose proof (table_len w T kvs HT) as Hlen. destruct (parts_nonneg w T) as (?&?&?&?).
  split; [|split].
  - intros i j d d' Hij Hd Hd'. destruct (block_in_file w T kvs HT i d Hd) as (_&_&Hoff).
    destruct (block_in_file w T kvs HT j d' Hd') as (r&Hfile&Hoff').
    pose proof (len_nonneg (d_data d')). pose proof (len_nonneg r).
    split; [rewrite Hoff; apply len_nonneg|]. split.
    + rewrite Hoff, Hoff'. by apply image_take_le_take.
    + rewrite Hfile, !len_app, len_stored, <- Hoff'. lia.
  - cbn [built_view v_footer table_footer meta_index]. unfold meta_handle. cbn [bh_offset]. lia.
  - intros i d Hd. destruct (block_in_file w T kvs HT i d Hd) as (_&_&->).
    pose proof (image_take_le_take w (p_blocks T) i (length (p_blocks T))) as Hle. rewrite firstn_all in Hle.
    apply lookup_lt_Some in Hd. specialize (Hle ltac:(cbn in Hd; lia)).
    cbn [built_view v_footer table_footer meta_index]. unfold meta_handle. cbn [bh_offset]. lia.
Qed.

(** The writer behind a built table. *)
Lemma built_writer kvs file :
  built_table o fits kvs file →
  ∃ w T, same_format w o ∧ 0 < block_restart_interval w ∧ table_of w kvs T ∧ file = table_bytes w T.
Proof.
  intros [(w&Hfmt&Hri&Hbs&Hb) Hs _ _ _]. pose proof (sf_cmp _ _ Hfmt) as Hcmp.
  assert (CmpOrder (opt_cmp w)) by by rewrite <- Hcmp. assert (CmpSep (opt_cmp w)) by by rewrite <- Hcmp.
  destruct (build_table_layout w Hri kvs (len file) file Hbs) as (T&HT&->&_); [by rewrite <- Hcmp|done|].
  by exists w, T.
Qed.

(** A built table is in the format, with the separators of the comparator. With
    room between the keys it is a strict table. *)
Lemma built_in_format kvs file :
  built_table o fits kvs file →
  ∃ V fr, table_file o kvs V fr file ∧ chosen_seps o V ∧ offsets_in V (len file).
Proof.
  intros Hb. destruct (built_writer kvs file Hb) as (w&T&Hfmt&Hri&HT&->). destruct Hb as [_ Hs Hk Hf Hsz].
  destruct (built_table_file w o Hfmt Hri T kvs HT Hsz Hs Hk fits Hf) as (fs&_&_&Htf).
  eexists _, _. split; [exact Htf|]. split; [by eapply built_chosen_seps|by eapply built_offsets].
Qed.

Lemma cache_key_ids id1 id2 off1 off2 :
  0 ≤ id1 < U64 → 0 ≤ id2 < U64 → id1 ≠ id2 → cache_key id1 off1 ≠ cache_key id2 off2.
Proof.
  intros H1 H2 Hne Heq. unfold cache_key in Heq. apply app_inj_1 in Heq as [Heq _].
  - by apply encode_fixed64_inj in Heq.
  - apply Nat2Z.inj. change (len (encode_fixed64 id1) = len (encode_fixed64 id2)). by rewrite !encode_fixed64_len.
Qed.

Lemma built_strict_table kvs file :
  built_table o fits kvs file → separable c kvs → strict_table o kvs file.
Proof.
  intros Hb Hsep. destruct (built_in_format kvs file Hb) as (V&fr&Htf&Hch&_). exists V, fr.
  split; [done|]. by eapply chosen_strict; [apply Htf|..].
Qed.

(** Opening such a file: the reader's invariants hold. *)
Lemma open_format kvs V fr file cache xs others :
  table_file o kvs V fr file → 0 ≤ cache_id cache < U64 - 1 → cache_rep cache xs →
  (∀ key blk, lru_lookup xs key = Some blk → others key blk ∧
    ∃ id off, key = encode_fixed64 id ++ encode_fixed64 off ∧ 0 ≤ id ≤ cache_id cache) →
  ∃ cache', open_table file cache =
      Done (Ok (opened_at o V (BufferBackedFile file) (cache_id cache + 1) fr), cache') ∧
    cache_id cache' = cache_id cache + 1 ∧ cache_rep cache' xs ∧
    cache_ok o V others (cache_id cache + 1) cache'.
Proof.
  intros Htf Hid Hr Hxs. rewrite (opens_new o V _ _ fr) by by eapply table_file_opens. unfold new_cache_id.
  rewrite uadd_Done by lia. eexists. split; [done|]. split; [done|].
  pose proof (cache_rep_id cache xs (cache_id cache + 1) Hr) as Hr'. split; [exact Hr'|].
  exists xs. split; [exact Hr'|]. split; [|by intros key blk (?&_)%Hxs _].
  intros off blk _ (_&id&off'&Heq&Hle)%Hxs. apply cache_key_ids in Heq as []; lia.
Qed.

Lemma open_format_idle kvs V fr file cache :
  table_file o kvs V fr file → cache_ids cache →
  ∃ cache', open_table file cache =
      Done (Ok (opened_at o V (BufferBackedFile file) (cache_id cache + 1) fr), cache') ∧
    cache_ok o V (λ _ _, True) (cache_id cache + 1) cache'.
Proof.
  intros Htf (Hid&xs&Hr&Hxs).
  destruct (open_format kvs V fr file cache xs (λ _ _, True) Htf Hid Hr) as (cache'&?&_&_&?); [|by exists cache'].
  intros key blk Hl. split; [done|]. by eapply Hxs.
Qed.

(** Opening a built table. *)
Lemma open_idle kvs file cache :
  built_table o fits kvs file → cache_ids cache →
  ∃ V fr cache', readable o kvs V (BufferBackedFile file) fr ∧ chosen_seps o V ∧ offsets_in V (len file) ∧
    open_table file cache =
      Done (Ok (opened_at o V (BufferBackedFile file) (cache_id cache + 1) fr), cache') ∧
    cache_ok o V (λ _ _, True) (cache_id cache + 1) cache'.
Proof.
  intros Hb Hids. destruct (built_in_format kvs file Hb) as (V&fr&Htf&Hch&Hoffs).
  destruct (open_format_idle kvs V fr file cache Htf Hids) as (cache'&?&?).
  exists V, fr, cache'. split; [by apply table_file_readable|done].
Qed.

(** *** Lookups *)

(** One lookup answers as the map does. *)
Lemma table_get_map {St} {B : BlockSource St} kvs V f fr (source_ok : Z → St → Prop) id cache key :
  BlockSourceSpec o V f B source_ok → readable o kvs V f fr → strict_seps o V →
  (∀ a b, cmp c a b = Eq → a = b) → source_ok id cache → len key < U32 →
  ∃ cache', table_get (opened_at o V f id fr) key cache = Done (Ok (table_map kvs !! key), cache') ∧
    source_ok id cache'.
Proof.
  intros Hsrc [HV _ Hfr] Hsep Heq Hc Hkey. pose proof (vo_sorted _ _ _ HV) as Hs. destruct (table_map kvs !! key) as [v|] eqn:Hm.
  - apply (table_map_lookup c) in Hm as [n Hn]%list_elem_of_lookup_1; [|done].
    rewrite <- (vo_kvs _ _ _ HV) in Hn. apply find_block in Hn as (i&d&a&Hd&Ha&_).
    by apply (table_get_present o V kvs HV f source_ok Hsrc id fr cache i d a (key, v)).
  - destruct (table_get_sound o V kvs HV f source_ok Hsrc id fr cache key Hc Hfr Hkey)
      as ([v|]&cache'&Hg&Hc'&Hsound); [|by exists cache'].
    destruct (Hsound v eq_refl) as (n&k&Hn&Hkk). apply Heq in Hkk as ->.
    apply list_elem_of_lookup_2, (table_map_lookup c) in Hn; [congruence|done].
Qed.

Lemma table_gets_map kvs V f fr others id cache keys :
  readable o kvs V f fr → strict_seps o V → (∀ a b, cmp c a b = Eq → a = b) →
  cache_ok o V others id cache → Forall (λ key, len key < U32) keys →
  ∃ cache', table_gets (opened_at o V f id fr) keys cache =
    Done (Ok ((λ key, table_map kvs !! key) <$> keys), cache') ∧ cache_ok o V others id cache'.
Proof.
  intros Hrd Hsep Heq Hc Hkeys. revert cache Hc. pose proof (cache_source_ok o V kvs (rd_view _ _ _ _ _ Hrd) f (rd_blocks _ _ _ _ _ Hrd) others) as Hsrc.
  induction Hkeys as [|key keys Hkey _ IH]; intros cache1 Hc; [by eexists|].
  destruct (table_get_map kvs V f fr _ id cache1 key Hsrc Hrd Hsep Heq Hc Hkey) as (cache2&Hg&Hc2).
  destruct (IH cache2 Hc2) as (cache3&Hgs&?). exists cache3.
  simpl. rewrite Hg. unfold st_bind at 1. cbn [bind]. by rewrite Hgs.
Qed.


(** C26. Lookups never invent an answer: for any keys, without any
    condition on separators, a lookup in a built table, with a filter policy whose
    filters are not empty, returns [Ok], and a value only if the table has it
    under an equal key. *)
Theorem Table_get_sound kvs file cache keys :
  built_table o fits kvs file → cache_ids cache → Forall (λ key, len key < U32) keys →
  ∃ t cache1 xs cache2, open_table file cache = Done (Ok t, cache1) ∧
    table_gets t keys cache1 = Done (Ok xs, cache2) ∧
    Forall2 (λ key x, ∀ v, x = Some v → ∃ k, (k, v) ∈ kvs ∧ cmp c k key = Eq) keys xs.
Proof.
  intros Hb Hids Hkeys.
  destruct (open_idle kvs file cache Hb Hids) as (V&fr&cache1&[HV Hread Hfr]&_&_&Hnew&Hc). set (f := BufferBackedFile file) in *.
  eexists _, cache1. enough (∃ xs cache2, table_gets (opened_at o V f (cache_id cache + 1) fr) keys cache1 =
    Done (Ok xs, cache2) ∧ Forall2 (λ key x, ∀ v, x = Some v → ∃ k, (k, v) ∈ kvs ∧ cmp c k key = Eq) keys xs)
    as (xs&cache2&?&?) by by exists xs, cache2.
  clear Hnew. revert cache1 Hc.
  induction Hkeys as [|key keys Hkey _ IH]; intros cache1 Hc; [by eexists [], _|].
  destruct (table_get_sound o V kvs HV f _ (cache_source_ok o V kvs HV f Hread _) _ fr cache1 key Hc Hfr Hkey)
    as (x&cache2&Hg&Hc2&Hsound).
  destruct (IH cache2 Hc2) as (xs&cache3&Hgs&Hall). exists (x :: xs), cache3.
  simpl. rewrite Hg. unfold st_bind at 1. cbn [bind]. rewrite Hgs. split; [done|].
  constructor; [|done]. intros v Hv. destruct (Hsound v Hv) as (n&k&Hn&?).
  exists k. split; [by eapply list_elem_of_lookup_2|done].
Qed.

(** *** Iteration *)

(** The iterator of an open table, over the block cache. *)
Abbreviation cached_rep V file id fr :=
  (table_rep o V (BufferBackedFile file) (cache_ok o V (λ _ _, True)) id fr).

Lemma cached_forward kvs V file id fr :
  readable o kvs V (BufferBackedFile file) fr →
  SSIteratorForward TableIterator_SSIterator kvs (cached_rep V file id fr).
Proof. intros [HV Hread _]. eapply table_forward; [done..|by eapply cache_source_ok]. Qed.

(** An iterator over a table that was just opened. *)
Lemma open_iter kvs file cache :
  built_table o fits kvs file → cache_ids cache →
  ∃ V fr t cache1 it, readable o kvs V (BufferBackedFile file) fr ∧ chosen_seps o V ∧ open_table file cache = Done (Ok t, cache1) ∧
    t = opened_at o V (BufferBackedFile file) (cache_id cache + 1) fr ∧
    table_iter t = Done it ∧ cached_rep V file (cache_id cache + 1) fr (it, cache1) None.
Proof.
  intros Hb Hids. destruct (open_idle kvs file cache Hb Hids) as (V&fr&cache1&Hrd&Hch&_&Hnew&Hc).
  destruct (table_iter_rep o V kvs (rd_view _ _ _ _ _ Hrd) (BufferBackedFile file) _ _ fr cache1 Hc) as (it&Hit&Hrep).
  exists V, fr. by eexists _, cache1, it.
Qed.

(** Draining it from the start. *)
Lemma drain_format kvs V fr file id it cache :
  readable o kvs V (BufferBackedFile file) fr → cached_rep V file id fr (it, cache) None →
  ∃ s', drain (S (length kvs)) (it, cache) = Done (kvs, s') ∧ valid s' = false.
Proof.
  intros Hrd Hrep. pose proof (cached_forward kvs V file id fr Hrd) as HF.
  destruct (drain_spec kvs _ (S (length kvs)) (it, cache) None Hrep) as (s'&Hd&Hrep'); [simpl; lia|].
  exists s'. split; [done|]. by rewrite (valid_rep s' None Hrep').
Qed.

(** C3. Iterating a table yields the pairs it was built from, in order
    and each once, across all its blocks, and then reports the end: what was
    added is what is read, also with other block sizes, restart intervals and
    compression than it was written with. *)
Theorem Table_roundtrip kvs file cache :
  built_table o fits kvs file → cache_ids cache →
  ∃ t cache1 it s', open_table file cache = Done (Ok t, cache1) ∧ table_iter t = Done it ∧
    drain (S (length kvs)) (it, cache1) = Done (kvs, s') ∧ valid s' = false.
Proof.
  intros Hb Hids. destruct (open_iter kvs file cache Hb Hids) as (V&fr&t&cache1&it&Hrd&Hch&Hnew&_&Hit&Hrep).
  destruct (drain_format kvs V fr file _ it cache1 Hrd Hrep) as (s'&Hd&Hv). by exists t, cache1, it, s'.
Qed.

(** What a position reached by [advance], [prev], [reset] and [seek] to
    present keys says about an iterator. *)
Inductive cursor_move := MAdvance | MPrev | MReset | MSeek (key : bytes).

Definition table_move {St} {Src : BlockSource St} (m : cursor_move) (s : TableIterator * St) :
    outcome (TableIterator * St) :=
  match m with
  | MAdvance => let! (_, s) := advance s in Done s
  | MPrev => let! (_, s) := prev s in Done s
  | MReset => reset s
  | MSeek key => seek s key
  end.

(** The same moves on the position in the list of pairs; [None] where the
    code gives no position to rely on: [prev] at the first pair or at no
    pair, and [seek] to an absent key. *)
Definition cursor_moves (kvs : list (bytes * bytes)) (m : cursor_move) (pos : option nat) :
    option (option nat) :=
  match m with
  | MAdvance => Some (_ ← kvs !! cursor_succ pos; Some (cursor_succ pos))
  | MPrev => match pos with Some (S i) => Some (Some i) | _ => None end
  | MReset => Some None
  | MSeek key => match list_find (λ kv, kv.1 = key) kvs with
                 | Some (i, _) => Some (Some i)
                 | None => None
                 end
  end.

Definition cursor_run (kvs : list (bytes * bytes)) (ms : list cursor_move) (pos : option nat) :
    option (option nat) :=
  foldl (λ p m, pos ← p; cursor_moves kvs m pos) (Some pos) ms.

Lemma table_move_ok {St} {B : BlockSource St} kvs V f fr (source_ok : Z → St → Prop) id s pos m pos' :
  BlockSourceSpec o V f B source_ok → readable o kvs V f fr → strict_seps o V →
  table_rep o V f source_ok id fr s pos → cursor_moves kvs m pos = Some pos' →
  ∃ s', table_move m s = Done s' ∧ table_rep o V f source_ok id fr s' pos'.
Proof.
  intros Hsrc [HV _ _] Hsep Hrep Hm. pose proof (table_forward o V kvs HV f source_ok Hsrc id fr) as HF.
  destruct m as [| | |key]; cbn [table_move cursor_moves] in *.
  - injection Hm as <-. destruct (kvs !! cursor_succ pos) as [kv|] eqn:Hkv.
    + destruct (advance_more s pos kv Hrep Hkv) as (s'&->&Hrep'). by exists s'.
    + destruct (advance_done s pos Hrep Hkv) as (s'&->&Hrep'). by exists s'.
  - destruct pos as [[|i]|]; [done| |done]. injection Hm as <-.
    destruct (table_prev_more o V kvs HV f source_ok Hsrc id fr s i Hrep) as (s'&->&Hrep'). by exists s'.
  - injection Hm as <-. exact (reset_rep s pos Hrep).
  - destruct (list_find _ kvs) as [[i kv]|] eqn:Hf; [|done]. injection Hm as <-.
    apply list_find_Some in Hf as (Hi&<-&_). rewrite <- (vo_kvs _ _ _ HV) in Hi.
    apply find_block in Hi as (j&d&a&Hd&Ha&->).
    by apply (table_seek_present o V kvs HV f source_ok Hsrc id fr s pos j d a kv).
Qed.

Lemma table_run_ok {St} {B : BlockSource St} kvs V f fr (source_ok : Z → St → Prop) id s p ms pos :
  BlockSourceSpec o V f B source_ok → readable o kvs V f fr → strict_seps o V →
  table_rep o V f source_ok id fr s p → cursor_run kvs ms p = Some pos →
  ∃ s', foldM table_move ms s = Done s' ∧ table_rep o V f source_ok id fr s' pos.
Proof.
  intros Hsrc Hrd Hsep. revert s p.
  induction ms as [|m ms IH]; intros s p Hrep Hrun; cbn in Hrun; [injection Hrun as <-; by exists s|].
  destruct (cursor_moves kvs m p) as [p'|] eqn:Hm.
  - destruct (table_move_ok kvs V f fr _ _ s p m p' Hsrc Hrd Hsep Hrep Hm) as (s'&Hms&Hrep').
    destruct (IH s' p' Hrep' Hrun) as (s''&Hms'&?). exists s''. split; [|done].
    cbn [foldM]. by rewrite Hms.
  - exfalso. revert Hrun. clear. by induction ms.
Qed.

(** The same for an iterator over the cache, from where it was opened. *)
Lemma open_run kvs file cache ms pos :
  built_table o fits kvs file → separable c kvs → cache_ids cache → cursor_run kvs ms None = Some pos →
  ∃ V fr t cache1 it s, readable o kvs V (BufferBackedFile file) fr ∧ chosen_seps o V ∧ open_table file cache = Done (Ok t, cache1) ∧
    table_iter t = Done it ∧ foldM table_move ms (it, cache1) = Done s ∧
    cached_rep V file (cache_id cache + 1) fr s pos.
Proof.
  intros Hb Hsep Hids Hrun.
  destruct (open_iter kvs file cache Hb Hids) as (V&fr&t&cache1&it&Hrd&Hch&Hnew&_&Hit&Hrep).
  destruct (table_run_ok kvs V (BufferBackedFile file) fr (cache_ok o V (λ _ _, True))
      (cache_id cache + 1) (it, cache1) None ms pos)
    as (s&Hms&Hrep');
    [eapply cache_source_ok; apply Hrd|done|eapply chosen_strict; [apply Hrd|done..]|done..|].
  by exists V, fr, t, cache1, it, s.
Qed.

(** C4. The two-level iterator of a table of [separable] pairs is a cursor over
    the list of these pairs, whatever block boundaries lie between: after any
    sequence of [advance],
    [prev], [reset] and [seek] to present keys that the list cursor allows,
    it has the validity, the key and the pair of the list cursor's position,
    and no step fails. *)
Theorem TableIterator_refines_cursor kvs file cache ms pos :
  built_table o fits kvs file → separable c kvs → cache_ids cache →
  cursor_run kvs ms None = Some pos →
  ∃ t cache1 it s, open_table file cache = Done (Ok t, cache1) ∧ table_iter t = Done it ∧
    foldM table_move ms (it, cache1) = Done s ∧
    valid s = bool_decide (is_Some pos) ∧ current_key s = (i ← pos; fst <$> kvs !! i) ∧
    current_key_val s = Done (i ← pos; kvs !! i).
Proof.
  intros Hb Hsep Hids Hrun.
  destruct (open_run kvs file cache ms pos Hb Hsep Hids Hrun)
    as (V&fr&t&cache1&it&s&Hrd&Hch&Hnew&Hit&Hms&Hrep).
  pose proof (cached_forward kvs V file (cache_id cache + 1) fr Hrd) as HF.
  exists t, cache1, it, s. split; [done|]. split; [done|]. split; [done|].
  split; [by eapply valid_rep|]. split; [by eapply current_key_rep|]. by eapply current_key_val_spec.
Qed.

(** Any move from anywhere succeeds. *)
Lemma table_roam {St} {B : BlockSource St} kvs V f fr (source_ok : Z → St → Prop) id ms s :
  BlockSourceSpec o V f B source_ok → view_of o kvs V → chosen_seps o V → roams o V f source_ok id fr s →
  ∃ s', foldM table_move ms s = Done s' ∧ roams o V f source_ok id fr s'.
Proof.
  intros Hsrc HV Hch. revert s. induction ms as [|m ms IH]; intros s Hs; [by exists s|]. cbn [foldM].
  assert (Hm : ∃ s', table_move m s = Done s' ∧ roams o V f source_ok id fr s').
  { destruct m as [| | |key]; cbn [table_move].
    - destruct (roam_advance o V kvs HV f source_ok Hsrc id fr s Hs) as (r&s'&->&?). by exists s'.
    - destruct (roam_prev o V kvs HV f source_ok Hsrc id fr s Hs) as (r&s'&->&?). by exists s'.
    - eexists. split; [done|]. by eapply roams_reset.
    - destruct (table_seek_any o V kvs HV f source_ok Hsrc id fr s key Hch Hs) as (s'&->&?&_). by exists s'. }
  destruct Hm as (s1&->&Hs1). exact (IH s1 Hs1).
Qed.

(** An iterator of a table that was just opened, after any moves. *)
Lemma open_roam kvs file cache ms :
  built_table o fits kvs file → cache_ids cache →
  ∃ V fr t cache1 it s, readable o kvs V (BufferBackedFile file) fr ∧ chosen_seps o V ∧
    open_table file cache = Done (Ok t, cache1) ∧ t = opened_at o V (BufferBackedFile file) (cache_id cache + 1) fr ∧
    table_iter t = Done it ∧ foldM table_move ms (it, cache1) = Done s ∧
    roams o V (BufferBackedFile file) (cache_ok o V (λ _ _, True)) (cache_id cache + 1) fr s.
Proof.
  intros Hb Hids. destruct (open_iter kvs file cache Hb Hids) as (V&fr&t&cache1&it&Hrd&Hch&Hnew&Ht&Hit&Hrep).
  pose proof Hrd as [HV Hread _]. pose proof (cache_source_ok o V kvs HV _ Hread (λ _ _, True)) as Hsrc.
  destruct (table_roam kvs V _ fr _ (cache_id cache + 1) ms (it, cache1) Hsrc HV Hch) as (s&?&?).
  { eapply table_rep_roams; exact Hrep. }
  by exists V, fr, t, cache1, it, s.
Qed.


(** [prev] at the first pair of a table answers no and leaves the
    iterator invalid. *)
Theorem TableIterator_prev_at_first kvs file cache ms :
  built_table o fits kvs file → separable c kvs → cache_ids cache →
  cursor_run kvs ms None = Some (Some 0%nat) →
  ∃ t cache1 it s s', open_table file cache = Done (Ok t, cache1) ∧ table_iter t = Done it ∧
    foldM table_move ms (it, cache1) = Done s ∧ prev s = Done (false, s') ∧ valid s' = false.
Proof.
  intros Hb Hsep Hids Hrun.
  destruct (open_run kvs file cache ms _ Hb Hsep Hids Hrun)
    as (V&fr&t&cache1&it&s&Hrd&Hch&Hnew&Hit&Hms&Hrep).
  destruct (table_prev_first o V kvs (rd_view _ _ _ _ _ Hrd) _ _ _ fr s Hrep) as (s'&_&Hp&Hv&_).
  by exists t, cache1, it, s, s'.
Qed.

(** *** Files of any writer *)

(** C6. [TableBuilder] writes files in the table format: the pairs that were
    added are cut into blocks in order, each stored where the index says with its
    type and checksum, with filters that answer yes for all its keys; and when the
    pairs are [separable] the file is a strict table. *)
Theorem TableBuilder_writes_format kvs file :
  built_table o fits kvs file →
  ∃ V fr, table_file o kvs V fr file ∧ offsets_in V (len file) ∧ (separable c kvs → strict_seps o V).
Proof.
  intros Hb. destruct (built_in_format kvs file Hb) as (V&fr&Htf&Hch&Hoffs). exists V, fr.
  split; [done|]. split; [done|]. intros Hsep. by eapply chosen_strict; [apply Htf|..].
Qed.

(** Opening, looking keys up, and then an iterator that stands before the first pair. *)
Lemma serve_format kvs V fr file cache keys :
  table_file o kvs V fr file → strict_seps o V → (∀ a b, cmp c a b = Eq → a = b) →
  cache_ids cache → Forall (λ key, len key < U32) keys →
  ∃ t cache1 cache2 it, open_table file cache = Done (Ok t, cache1) ∧
    table_gets t keys cache1 = Done (Ok ((λ key, table_map kvs !! key) <$> keys), cache2) ∧
    table_iter t = Done it ∧ cached_rep V file (cache_id cache + 1) fr (it, cache2) None.
Proof.
  intros Htf Hstrict Heq Hids Hkeys.
  destruct (open_format_idle kvs V fr file cache Htf Hids) as (cache1&Hnew&Hc).
  apply table_file_readable in Htf as Hrd. set (f := BufferBackedFile file) in *.
  destruct (table_gets_map kvs V f fr _ _ cache1 keys Hrd Hstrict Heq Hc Hkeys) as (cache2&Hg&Hc2).
  destruct (table_iter_rep o V kvs (rd_view _ _ _ _ _ Hrd) f _ _ fr cache2 Hc2) as (it&Hit&Hrep).
  by eexists _, cache1, cache2, it.
Qed.

(** C5. The reader serves every strict table, whoever wrote it (a file in the
    table format whose separators are below the next blocks): blocks
    in any place and order, of any size, compressed or not, with shared prefixes
    or without, with a filter or none. When the order identifies only equal keys,
    lookups answer as the map of the pairs, and after them an iterator is the
    cursor over the list of the pairs, and yields all of them in order. *)
Theorem Table_reads_format kvs file cache keys ms pos :
  strict_table o kvs file → (∀ a b, cmp c a b = Eq → a = b) →
  cache_ids cache → Forall (λ key, len key < U32) keys → cursor_run kvs ms None = Some pos →
  ∃ t cache1 cache2 it s s', open_table file cache = Done (Ok t, cache1) ∧
    table_gets t keys cache1 = Done (Ok ((λ key, table_map kvs !! key) <$> keys), cache2) ∧
    table_iter t = Done it ∧ foldM table_move ms (it, cache2) = Done s ∧
    current_key_val s = Done (i ← pos; kvs !! i) ∧
    drain (S (length kvs)) (it, cache2) = Done (kvs, s').
Proof.
  intros (V&fr&Htf&Hstrict) Heq Hids Hkeys Hrun. apply table_file_readable in Htf as Hrd.
  destruct (serve_format kvs V fr file cache keys Htf Hstrict Heq Hids Hkeys) as (t&cache1&cache2&it&Hnew&Hg&Hit&Hrep).
  destruct (drain_format kvs V fr file _ it cache2 Hrd Hrep) as (s'&Hd&_).
  pose proof (cache_source_ok o V kvs (rd_view _ _ _ _ _ Hrd) _ (rd_blocks _ _ _ _ _ Hrd) (λ _ _, True)) as Hsrc.
  destruct (table_run_ok kvs V _ fr _ _ (it, cache2) None ms pos Hsrc Hrd Hstrict Hrep Hrun) as (s&Hms&Hs).
  pose proof (cached_forward kvs V file (cache_id cache + 1) fr Hrd) as HF.
  exists t, cache1, cache2, it, s, s'. split; [done|]. split; [done|]. split; [done|]. split; [done|].
  split; [by eapply current_key_val_spec|done].
Qed.

(** *** Offsets *)

(** C32. [approx_offset_of] is monotone in the key, present or not, whatever the
    separators: a key that is not smaller is not at a smaller offset, and every
    offset is inside the file. *)
Theorem approx_offset_monotone kvs file cache a b :
  built_table o fits kvs file → cache_ids cache → cmp c a b ≠ Gt →
  ∃ t cache1 off_a off_b, open_table file cache = Done (Ok t, cache1) ∧
    approx_offset_of t a = Done off_a ∧ approx_offset_of t b = Done off_b ∧
    0 ≤ off_a ∧ off_a ≤ off_b ∧ off_b < len file.
Proof.
  intros Hb Hids Hab.
  destruct (open_idle kvs file cache Hb Hids) as (V&fr&cache1&[HV _ _]&_&(Hoffs&Hmeta&Hbehind)&Hnew&_).
  eexists _, cache1, _, _. split; [done|].
  split; [by apply (approx_offset_ok o V kvs HV)|]. split; [by apply (approx_offset_ok o V kvs HV)|].
  destruct (find_ge c a (index_kvs (v_blocks V))) as [i|] eqn:Hi.
  2: { rewrite (find_ge_mono_None o _ a b Hab Hi). cbn. lia. }
  destruct (find_ge_inv _ _ _ _ Hi) as (_&(d&Hd&_)%index_lookup_inv&_&_). cbn [mbind option_bind]. rewrite Hd.
  destruct (find_ge c b (index_kvs (v_blocks V))) as [j|] eqn:Hj.
  - destruct (find_ge_inv _ _ _ _ Hj) as (_&(d'&Hd'&_)%index_lookup_inv&_&_). cbn [mbind option_bind]. rewrite Hd'.
    exact (Hoffs i j d d' (find_ge_mono o _ a b i j Hab Hi Hj) Hd Hd').
  - cbn. pose proof (Hoffs i i d d ltac:(lia) Hd Hd). pose proof (Hbehind i d Hd). lia.
Qed.

(** *** Several tables, one cache *)

(** A lookup in one of two tables. *)
Fixpoint two_gets (t1 t2 : Table) (reqs : list (bool * bytes)) (cache : Cache Block) :
    outcome (result (list (option bytes)) * Cache Block) :=
  match reqs with
  | [] => Done (Ok [], cache)
  | (first, key) :: reqs =>
      try! x, cache := table_get (if (first : bool) then t1 else t2) key cache in
      try! xs, cache := two_gets t1 t2 reqs cache in
      Done (Ok (x :: xs), cache)
  end.

(** What the entries of a cache say when both tables rely on it. *)
Definition shared_ok (V1 V2 : table_view) (id1 id2 : Z) (cache : Cache Block) : Prop :=
  ∃ xs, cache_rep cache xs ∧
    (∀ off blk, 0 ≤ off < U64 → lru_lookup xs (cache_key id1 off) = Some blk → is_block o V1 off blk) ∧
    (∀ off blk, 0 ≤ off < U64 → lru_lookup xs (cache_key id2 off) = Some blk → is_block o V2 off blk).

Definition owner (V : table_view) (id : Z) (key : CacheKey) (blk : Block) : Prop :=
  ∀ off, 0 ≤ off < U64 → key = cache_key id off → is_block o V off blk.

Lemma shared_cache_ok V1 V2 id1 id2 cache :
  0 ≤ id1 < U64 → 0 ≤ id2 < U64 → id1 ≠ id2 →
  shared_ok V1 V2 id1 id2 cache ↔ cache_ok o V1 (owner V2 id2) id1 cache.
Proof.
  intros Hid1 Hid2 Hne. split; intros (xs&Hr&H1&H2); exists xs; (split; [done|]); split; try done.
  - intros key blk Hl _ off Hoff ->. by apply H2.
  - intros off blk Hoff Hl. apply (H2 _ _ Hl); [|done|done].
    intros off' _ Heq. by apply (cache_key_ids id2 id1 off off') in Heq.
Qed.

Lemma shared_ok_sym V1 V2 id1 id2 cache : shared_ok V1 V2 id1 id2 cache → shared_ok V2 V1 id2 id1 cache.
Proof. intros (xs&?&?&?). by exists xs. Qed.

(** Lookups in two tables over a cache that both rely on. *)
Lemma two_gets_map kvs1 V1 f1 fr1 kvs2 V2 f2 fr2 id1 id2 cache reqs :
  readable o kvs1 V1 f1 fr1 → readable o kvs2 V2 f2 fr2 → strict_seps o V1 → strict_seps o V2 →
  (∀ a b, cmp c a b = Eq → a = b) → 0 ≤ id1 < U64 → 0 ≤ id2 < U64 → id1 ≠ id2 →
  shared_ok V1 V2 id1 id2 cache → Forall (λ req, len req.2 < U32) reqs →
  ∃ cache', two_gets (opened_at o V1 f1 id1 fr1) (opened_at o V2 f2 id2 fr2) reqs cache =
    Done (Ok ((λ req, table_map (if req.1 : bool then kvs1 else kvs2) !! req.2) <$> reqs), cache').
Proof.
  intros Hrd1 Hrd2 Hs1 Hs2 Heq Hid1 Hid2 Hne Hc Hreqs. revert cache Hc.
  pose proof (λ others, cache_source_ok o V1 kvs1 (rd_view _ _ _ _ _ Hrd1) f1 (rd_blocks _ _ _ _ _ Hrd1) others) as Hsrc1.
  pose proof (λ others, cache_source_ok o V2 kvs2 (rd_view _ _ _ _ _ Hrd2) f2 (rd_blocks _ _ _ _ _ Hrd2) others) as Hsrc2.
  induction Hreqs as [|[[|] key] reqs Hkey _ IH]; intros cache Hc; [by eexists| |].
  - apply shared_cache_ok in Hc; [|done..].
    destruct (table_get_map kvs1 V1 f1 fr1 _ _ cache key (Hsrc1 _) Hrd1 Hs1 Heq Hc Hkey) as (cache2&Hg&Hc2).
    apply shared_cache_ok in Hc2; [|done..]. destruct (IH cache2 Hc2) as [cache3 Hgs]. exists cache3.
    simpl. rewrite Hg. unfold st_bind at 1. cbn [bind]. by rewrite Hgs.
  - apply shared_ok_sym, shared_cache_ok in Hc; [|done..].
    destruct (table_get_map kvs2 V2 f2 fr2 _ _ cache key (Hsrc2 _) Hrd2 Hs2 Heq Hc Hkey) as (cache2&Hg&Hc2).
    apply shared_cache_ok, shared_ok_sym in Hc2; [|done..]. destruct (IH cache2 Hc2) as [cache3 Hgs]. exists cache3.
    simpl. rewrite Hg. unfold st_bind at 1. cbn [bind]. by rewrite Hgs.
Qed.

(** C12. Tables that share a block cache do not disturb each other: two
    strict tables, in an order that identifies only equal keys, opened one after the other with the same cache (any cache whose
    entries belong to identifiers given out before) answer every
    interleaving of lookups as the maps of their pairs; a block of one
    is never taken for a block of the other, evictions included. *)
Theorem Tables_share_cache kvs1 file1 kvs2 file2 cache reqs :
  strict_table o kvs1 file1 → strict_table o kvs2 file2 → (∀ a b, cmp c a b = Eq → a = b) →
  cache_ids cache → cache_id cache < U64 - 2 → Forall (λ req, len req.2 < U32) reqs →
  ∃ t1 cache1 t2 cache2 cache3,
    open_table file1 cache = Done (Ok t1, cache1) ∧ open_table file2 cache1 = Done (Ok t2, cache2) ∧
    two_gets t1 t2 reqs cache2 =
      Done (Ok ((λ req, table_map (if req.1 : bool then kvs1 else kvs2) !! req.2) <$> reqs), cache3).
Proof.
  intros (V1&fr1&Htf1&Hs1) (V2&fr2&Htf2&Hs2) Heq (Hid&xs&Hr&Hxs) Hid2 Hreqs.
  destruct (open_format kvs1 V1 fr1 file1 cache xs (λ _ _, True) Htf1 Hid Hr) as (cache1&Hnew1&Hci1&Hr1&_).
  { intros key blk Hl. split; [done|]. by eapply Hxs. }
  set (id1 := cache_id cache + 1) in *.
  destruct (open_format kvs2 V2 fr2 file2 cache1 xs (owner V1 id1) Htf2 ltac:(lia) Hr1) as (cache2&Hnew2&_&_&Hc2).
  { intros key blk (id&off&->&Hle)%Hxs. split; [|exists id, off; split; [done|lia]].
    intros off' _ Hk. by apply (cache_key_ids id id1 off off') in Hk; [| |lia|lia]; lia. }
  rewrite Hci1 in Hnew2, Hc2. set (id2 := id1 + 1) in *.
  apply shared_cache_ok, shared_ok_sym in Hc2; [|lia..].
  apply table_file_readable in Htf1. apply table_file_readable in Htf2.
  destruct (two_gets_map kvs1 V1 _ fr1 kvs2 V2 _ fr2 id1 id2 cache2 reqs Htf1 Htf2 Hs1 Hs2 Heq) as [cache3 Hg]; [lia..|done|done|].
  by eexists _, cache1, _, cache2, cache3.
Qed.
End tables.

(** ** Opening: options, footers and files *)

(** The options a client starts with are fit for the theorems above:
    the default cache is empty, holds 2048 blocks, and the default block size
    and restart interval are in range; [with_cache_capacity] leaves the options
    as they are and gives an empty cache of the capacity asked for, and panics
    for capacity zero. *)
Theorem Options_caches `{E : IntegerEncoding} (o : Options) n :
  0 < n →
  (∃ cache, Options_default_with_cache = Done (Options_default, cache) ∧ empty_cache cache ∧ cap cache = 2048) ∧
  0 < block_restart_interval Options_default ∧ 8 ≤ block_size Options_default ∧
  (∃ cache, with_cache_capacity o n = Done (o, cache) ∧ empty_cache cache ∧ cap cache = n) ∧
  with_cache_capacity o 0 = Panic.
Proof.
  intros Hn. assert (Hnew : ∀ k, 0 < k → ∃ cache, Cache_new (T := Block) k = Done cache ∧ empty_cache cache ∧ cap cache = k).
  { intros k Hk. assert (Hc : Cache_new (T := Block) k = Done (mkCache LRUList_new ∅ k 0)).
    { unfold Cache_new. by rewrite (proj2 (Z.ltb_lt _ _) Hk). }
    eexists. split; [exact Hc|]. split; [|done]. split; [by apply (cache_rep_new k)|done]. }
  split; [|split; [done|split; [done|split; [|done]]]].
  - destruct (Hnew default_cache_capacity ltac:(done)) as (cache&Hc&?&Hcap). exists cache.
    unfold Options_default_with_cache. rewrite Hc, Hcap. done.
  - destruct (Hnew n Hn) as (cache&Hc&?&?). exists cache. unfold with_cache_capacity. by rewrite Hc.
Qed.

(** C40. What opening does with a file that does not end in a footer: a
    file shorter than a footer and a file whose last eight bytes are not the
    magic number make [Table::new] panic, while an error of the operating system
    when opening the path is returned. *)
Theorem Table_new_bad_file `{E : IntegerEncoding, !Crc32c, !Snappy} o file path open e (cache : Cache Block) :
  (len file < FULL_FOOTER_LENGTH → Table_new o (BufferBackedFile file) (len file) cache = Panic) ∧
  (FULL_FOOTER_LENGTH ≤ len file → drop (length file - 8) file ≠ MAGIC_FOOTER_ENCODED →
    Table_new o (BufferBackedFile file) (len file) cache = Panic) ∧
  (open path = inr e → new_from_file o open path cache = Done (Err (from_io_Error e), cache)).
Proof.
  unfold Table_new, new_from_file, read_footer, FULL_FOOTER_LENGTH, FOOTER_LENGTH. change (40 + 8) with 48.
  split; [|split]; [intros Hlen|intros Hlen Hmagic|by intros ->].
  - unfold usub. by rewrite (proj2 (Z.leb_gt _ _)) by lia.
  - rewrite usub_Done by lia. unfold st_bind at 1. cbn [bind].
    assert (Hsplit : file = take (length file - 48) file ++ drop (length file - 48) file ++ []).
    { by rewrite app_nil_r, take_drop. }
    assert (Hpos : len file - 48 = len (take (length file - 48) file)).
    { unfold len in *. rewrite length_take. lia. }
    assert (Htail : length (drop (length file - 48) file) = 48%nat).
    { rewrite length_drop. unfold len in Hlen. lia. }
    unfold try_bind. rewrite Hpos. rewrite Hsplit at 1.
    rewrite read_at_mid by (by rewrite length_replicate, Htail). cbn [bind].
    unfold Footer_decode, FULL_FOOTER_LENGTH, FOOTER_LENGTH.
    rewrite (proj2 (Z.leb_le _ _)) by (unfold len; rewrite Htail; done).
    unfold slice_from. rewrite slice_Done by (unfold len; rewrite Htail; lia). cbn [bind].
    rewrite bool_decide_eq_false_2; [done|]. rewrite drop_drop, take_ge; [|rewrite length_drop; unfold len; lia].
    unfold len in Hlen. by replace (length file - 48 + Z.to_nat 40)%nat with (length file - 8)%nat by lia.
Qed.
