(* ===== verification/TableSize.v ===== *)
(** * How large a table gets (src/table_builder.rs)

    Bounds on the builder's size estimate and on the finished file, from the
    pairs alone. With them, what was shown of builders that stay small and of
    files below 4 GiB holds of all pairs whose keys and values are not too large
    together: such pairs can be stored, and what is stored is read back. *)

From S2P Require Export TableBuilderTotal TableRoundtrip.

(** What a pair adds to a block at most: three varints and a restart point. *)
Definition pair_size (kv : bytes * bytes) : Z := len kv.1 + len kv.2 + 34.
Definition payload (kvs : list (bytes * bytes)) : Z := foldr (λ kv n, pair_size kv + n) 0 kvs.

Lemma pair_size_pos kv : 34 ≤ pair_size kv ∧ len kv.1 ≤ pair_size kv ∧ len kv.2 ≤ pair_size kv.
Proof. unfold pair_size. pose proof (len_nonneg kv.1). pose proof (len_nonneg kv.2). lia. Qed.

Lemma payload_cons kv kvs : payload (kv :: kvs) = pair_size kv + payload kvs.
Proof. done. Qed.

Lemma payload_one k v : payload [(k, v)] = len k + len v + 34.
Proof. unfold payload, pair_size. cbn. lia. Qed.

Lemma payload_app l k : payload (l ++ k) = payload l + payload k.
Proof. induction l as [|kv l IH]; [done|]. rewrite <- app_comm_cons, !payload_cons, IH. lia. Qed.

Lemma payload_len kvs : 34 * len kvs ≤ payload kvs.
Proof.
  induction kvs as [|kv kvs IH]; [done|]. rewrite len_cons, payload_cons.
  pose proof (pair_size_pos kv). lia.
Qed.

Lemma payload_nonneg kvs : 0 ≤ payload kvs.
Proof. pose proof (payload_len kvs). pose proof (len_nonneg kvs). lia. Qed.

Lemma payload_elem kv kvs : kv ∈ kvs → pair_size kv ≤ payload kvs.
Proof.
  intros (l&k&->)%list_elem_of_split. rewrite payload_app, payload_cons.
  pose proof (payload_nonneg l). pose proof (payload_nonneg k). lia.
Qed.

Lemma payload_take n kvs : payload (take n kvs) ≤ payload kvs.
Proof. rewrite <- (take_drop n kvs) at 2. rewrite payload_app. pose proof (payload_nonneg (drop n kvs)). lia. Qed.

Lemma last_of_size kvs : kvs ≠ [] → len (last_of kvs) + 34 ≤ payload kvs.
Proof.
  intros Hne. unfold last_of. destruct (last kvs) as [kv|] eqn:El; [|by apply last_None in El].
  rewrite last_lookup in El. apply list_elem_of_lookup_2, payload_elem in El. cbn.
  unfold pair_size in El. pose proof (len_nonneg kv.2). lia.
Qed.

Section size.
Context `{E : IntegerEncoding, !IntegerEncodingSpec E, C : Crc32c, !Crc32cSpec C, Sn : Snappy, !SnappySpec Sn}.
Context (o : Options) `{!CmpOrder (opt_cmp o), !CmpSep (opt_cmp o), !CmpSepLen (opt_cmp o)}.
Context (Hri : 0 < block_restart_interval o) (Hbs : 8 ≤ block_size o).
Context (Hcomp : compresses (compression_type o)).

Abbreviation c := (opt_cmp o).
Abbreviation ct := (compression_type o).

(** *** Blocks *)

Lemma add_all_size kvs db :
  payload kvs < 2 ^ 31 → add_all (BlockBuilder_new o) kvs = Done db → bb_size_estimate db ≤ 8 + payload kvs.
Proof.
  revert db. induction kvs as [|kv kvs IH] using rev_ind; intros db Hp; [by intros [= <-]|].
  rewrite payload_app, payload_cons in *. change (payload []) with 0 in *. rewrite add_all_snoc. pose proof (pair_size_pos kv).
  intros (db1&Hdb1&Hadd)%bind_Done. pose proof (IH db1 ltac:(lia) Hdb1).
  pose proof (payload_nonneg kvs). apply bb_add_size in Hadd; unfold U64; [|lia..]. unfold pair_size. lia.
Qed.

Lemma build_block_size kvs b : payload kvs < 2 ^ 31 → build_block o kvs = Done b → len b ≤ 8 + payload kvs.
Proof.
  intros Hp (db&Hdb&[= <-])%bind_Done. rewrite len_bb_finish. by apply add_all_size.
Qed.

Lemma compress_size b data n : len b ≤ n → n < 2 ^ 31 + 8 → compress ct b = Ok data → len data ≤ 2 * n + 64.
Proof.
  intros Hb Hn Hc. destruct (Hcomp b) as (data'&Hc'&Hd); [unfold U32; lia|].
  rewrite Hc in Hc'. injection Hc' as ->. lia.
Qed.

(** A data block in the file, and its entry in the index block. *)
Lemma dblk_payload_sizes d :
  wf_dblk o d → payload (d_kvs d) < 2 ^ 31 →
  len (stored ct (d_data d)) ≤ 5 * payload (d_kvs d) ∧
  pair_size (d_sep d, handle_bytes (d_handle d)) ≤ 2 * payload (d_kvs d).
Proof.
  intros [Hb Hne Hc _ [key Hch] Hh] Hp. rewrite len_stored.
  pose proof (last_of_size _ Hne). pose proof (len_nonneg (last_of (d_kvs d))).
  apply build_block_size in Hb; [|done]. apply (compress_size _ _ _ Hb) in Hc; [|lia]. split; [lia|].
  apply find_shortest_sep_len in Hch. pose proof (handle_bytes_le_20 _ Hh). unfold pair_size. cbn [fst snd]. lia.
Qed.

Lemma payload_in (ds : list dblk) d : d ∈ ds → payload (d_kvs d) ≤ payload (mjoin (d_kvs <$> ds)).
Proof.
  intros (l&k&->)%list_elem_of_split. rewrite fmap_app, join_app, payload_app, fmap_cons.
  change (mjoin (?x :: ?l)) with (x ++ mjoin l). rewrite payload_app.
  pose proof (payload_nonneg (mjoin (d_kvs <$> l))). pose proof (payload_nonneg (mjoin (d_kvs <$> k))). lia.
Qed.

Lemma dblks_sizes ds :
  Forall (wf_dblk o) ds → payload (mjoin (d_kvs <$> ds)) < 2 ^ 31 →
  len (image o ds) ≤ 5 * payload (mjoin (d_kvs <$> ds)) ∧
  payload (index_kvs ds) ≤ 2 * payload (mjoin (d_kvs <$> ds)).
Proof.
  induction 1 as [|d ds Hd _ IH]; [done|]. unfold image, index_kvs in *. rewrite !fmap_cons.
  change (mjoin (?x :: ?l)) with (x ++ mjoin l). rewrite payload_app, len_app, payload_cons. intros Hp.
  pose proof (payload_nonneg (d_kvs d)). pose proof (payload_nonneg (mjoin (d_kvs <$> ds))).
  destruct (dblk_payload_sizes d Hd ltac:(lia)), IH; lia.
Qed.

(** *** The builder *)

Context (fits : list bytes → Prop) `{!FilterPolicySpec (filter_policy o) fits, !FilterPolicyNonempty (filter_policy o) fits}.
Context (rate : Z) `{!FilterPolicySized (filter_policy o) fits rate}.
Abbreviation name := (filter_key (fp_name (filter_policy o))).

(** A bound on the size of a table of the pairs. *)
Definition table_bound (kvs : list (bytes * bytes)) : Z := (rate + 10) * payload kvs + 2 * len name + 340.

(** Pairs whose table stays below 2 GiB. *)
Definition small_input (kvs : list (bytes * bytes)) : Prop := table_bound kvs < 2 ^ 31.

Lemma rate_payload kvs : 0 ≤ rate * len kvs ∧ 0 ≤ rate * payload kvs ∧ rate * len kvs ≤ rate * payload kvs.
Proof.
  pose proof (rate_nonneg (FilterPolicySized := _ : FilterPolicySized (filter_policy o) fits rate)).
  pose proof (payload_len kvs). pose proof (len_nonneg kvs). nia.
Qed.

Lemma small_payload kvs : small_input kvs → 10 * payload kvs < 2 ^ 31 ∧ rate * len kvs < 2 ^ 31.
Proof.
  unfold small_input, table_bound. pose proof (rate_payload kvs). pose proof (len_nonneg name).
  pose proof (payload_nonneg kvs). lia.
Qed.

Lemma small_take n kvs : small_input kvs → small_input (take n kvs).
Proof.
  unfold small_input, table_bound. pose proof (payload_take n kvs).
  pose proof (rate_nonneg (FilterPolicySized := _ : FilterPolicySized (filter_policy o) fits rate)). nia.
Qed.

Lemma small_fits kvs : small_input kvs → fits_all fits kvs.
Proof.
  intros [Hp Hr]%small_payload l Hl. apply few_keys_fit.
  - pose proof (rate_nonneg (FilterPolicySized := _ : FilterPolicySized (filter_policy o) fits rate)).
    apply sublist_length in Hl. rewrite length_fmap in Hl. unfold len in *. nia.
  - apply Forall_forall. intros k Hk. eapply elem_of_sublist in Hk; [|exact Hl].
    apply list_elem_of_fmap in Hk as (kv&->&Hkv). apply payload_elem in Hkv. pose proof (pair_size_pos kv). lia.
Qed.

Lemma small_short kvs : small_input kvs → short_keys kvs.
Proof.
  intros [Hp _]%small_payload. apply Forall_forall. intros kv Hkv%payload_elem.
  pose proof (pair_size_pos kv). lia.
Qed.

(** The parts of a builder that has the pairs. *)
Lemma filter_sizes ds cur fb :
  wf_dblks o ds → nonempty_keys (all_kvs ds cur) → small_input (all_kvs ds cur) →
  foldM add_block (filter_blocks o ds cur) (FilterBlockBuilder_new (filter_policy o)) = Done fb →
  let most := (rate + 1) * payload (all_kvs ds cur) + 9 in
  fb_size_estimate fb ≤ most ∧ ∀ data, fb_finish fb = Done data → len data ≤ most.
Proof.
  intros Hwf Hk Hs Hfb most. destruct (small_payload _ Hs) as [Hp Hr]. unfold all_kvs in Hp. rewrite payload_app in Hp.
  pose proof (payload_nonneg cur). pose proof (payload_nonneg (mjoin (d_kvs <$> ds))).
  destruct (dblks_sizes ds (wds_blocks _ _ Hwf) ltac:(lia)) as [Himg _].
  assert (Hwfb : wf_blocks fits (filter_blocks o ds cur)).
  { apply filter_blocks_wf; [done..|lia|]. by apply small_fits. }
  destruct (add_blocks_seen (filter_policy o) fits _ Hwfb) as (fb'&Hfb'&Hseen).
  rewrite Hfb in Hfb'. injection Hfb' as <-.
  destruct (seen_sizes (filter_policy o) fits rate (filter_blocks o ds cur) fb (len (image o ds)) cur.*1
    Hseen (wf_fits _ _ Hwfb)) as [He Hd]; [unfold filter_blocks; by rewrite last_snoc|].
  rewrite block_keys_filter_blocks in He, Hd. rewrite Z.shiftr_div_pow2 in He, Hd by lia.
  assert (Hmost : rate * len (all_kvs ds cur).*1 + 4 * (len (image o ds) / 2 ^ 11 + 1) + 5 ≤ most).
  { unfold most. rewrite len_fmap. pose proof (rate_payload (all_kvs ds cur)).
    assert (len (image o ds) / 2 ^ 11 * 2 ^ 11 ≤ len (image o ds)).
    { pose proof (Z.mul_div_le (len (image o ds)) (2 ^ 11)). lia. }
    assert (payload (all_kvs ds cur) = payload (mjoin (d_kvs <$> ds)) + payload cur) by apply payload_app. lia. }
  split; [lia|]. intros data Hdata%Hd. lia.
Qed.

Lemma estimate_bound b ds cur :
  tb_rep o b ds cur → nonempty_keys (all_kvs ds cur) → small_input (all_kvs ds cur) →
  tb_size_estimate b ≤ (rate + 9) * payload (all_kvs ds cur) + 73.
Proof.
  intros [_ _ Hoff (db&Hdb&Hadd) (ib&Hib&Hidx) (fb&Hfb&Hfold) Hwf _] Hk Hs.
  destruct (filter_sizes ds cur fb Hwf Hk Hs Hfold) as [Hf _]. destruct (small_payload _ Hs) as [Hp _].
  assert (Hall : payload (all_kvs ds cur) = payload (mjoin (d_kvs <$> ds)) + payload cur) by apply payload_app.
  pose proof (payload_nonneg cur). pose proof (payload_nonneg (mjoin (d_kvs <$> ds))).
  destruct (dblks_sizes ds (wds_blocks _ _ Hwf) ltac:(lia)) as [Himg Hix].
  apply add_all_size in Hadd; [|lia]. apply add_all_size in Hidx; [|lia].
  unfold tb_size_estimate. rewrite Hdb, Hib, Hfb, Hoff. cbn. unfold FULL_FOOTER_LENGTH, FOOTER_LENGTH. lia.
Qed.

Lemma small_stays_small kvs :
  sorted_kvs c kvs = true → nonempty_keys kvs → small_input kvs → stays_small o kvs.
Proof.
  intros Hs Hk Hin n b Hb. destruct (tb_rep_new o) as [Hr0 Hsep0].
  assert (Hs' : sorted_kvs c (take n kvs) = true).
  { rewrite <- (take_drop n kvs) in Hs. by apply sorted_kvs_app in Hs as [? _]. }
  destruct (tb_adds_inv o Hri _ _ [] [] b Hbs Hr0 Hsep0 Hs' Hb) as (ds&cur&Hr&_&Hall).
  change (all_kvs [] [] ++ take n kvs) with (take n kvs) in Hall.
  pose proof (small_take n kvs Hin) as Hin'. rewrite <- Hall in Hin'.
  apply estimate_bound in Hr; [|rewrite Hall; by apply Forall_take|done].
  unfold small. unfold small_input, table_bound in Hin'. pose proof (len_nonneg name).
  pose proof (payload_nonneg (all_kvs ds cur)). lia.
Qed.

(** *** The file *)

Lemma table_parts_size kvs T :
  table_of o kvs T → nonempty_keys kvs → small_input kvs → len (table_bytes o T) ≤ table_bound kvs.
Proof.
  intros HT Hk Hs. rewrite (table_len o T kvs HT). pose proof HT as [Hall Hwf (fb&Hfold&Hfin) Hm Hmc Hi Hic _ Hfh].
  assert (Hkvs : all_kvs (p_blocks T) [] = kvs) by by unfold all_kvs; rewrite app_nil_r.
  destruct (filter_sizes (p_blocks T) [] fb Hwf) as [_ Hf]; [by rewrite Hkvs..|done|].
  rewrite Hkvs in Hf. apply Hf in Hfin. pose proof Hs as [Hp _]%small_payload. pose proof (payload_nonneg kvs).
  destruct (dblks_sizes (p_blocks T) (wds_blocks _ _ Hwf)) as [Himg Hix]; [rewrite Hall; lia|].
  rewrite Hall in Himg, Hix. apply build_block_size in Hi; [|lia].
  pose proof (handle_bytes_le_20 _ Hfh) as Hhl. pose proof (payload_nonneg (index_kvs (p_blocks T))).
  assert (Hname : 2 * len name < 2 ^ 31).
  { unfold small_input, table_bound in Hs. pose proof (rate_payload kvs). lia. }
  apply build_block_size in Hm; rewrite payload_one in *; [|lia].
  apply (compress_size _ _ (62 + len name)) in Hmc; [|lia..].
  apply (compress_size _ _ (8 + 2 * payload kvs)) in Hic; [|lia..].
  unfold table_bound. lia.
Qed.

Context `{!FilterPolicyBounded (filter_policy o) fits}.

Lemma small_name kvs : small_input kvs → len name < 2 ^ 31.
Proof.
  unfold small_input, table_bound. pose proof (rate_payload kvs). pose proof (payload_nonneg kvs).
  pose proof (len_nonneg name). lia.
Qed.

(** Pairs that are not too large together can be stored. *)
Lemma build_small kvs :
  sorted_kvs c kvs = true → nonempty_keys kvs → small_input kvs →
  ∃ file, build_table o kvs [] = Done (Ok (len file), file) ∧ len file ≤ table_bound kvs.
Proof.
  intros Hs Hk Hin. destruct (build_table_returns o Hri Hbs fits Hcomp kvs Hs Hk (small_short kvs Hin)
    (small_fits kvs Hin) (small_stays_small kvs Hs Hk Hin) (small_name kvs Hin)) as [file Hb].
  destruct (build_table_layout o Hri kvs (len file) file Hbs Hs Hb) as (T&HT&Heq&_).
  exists file. split; [done|]. rewrite Heq. by apply table_parts_size.
Qed.

(** ** Properties *)

(** C7. The table builder does not fail on sorted input. For pairs with strictly
    increasing, non-empty keys that are not too large together, every [add]
    returns [Ok], [entries] counts them, and [finish] returns [Ok] with the
    number of bytes that the destination then holds: no assertion, no [unwrap],
    no handle buffer fails. The file, and the builder's own [size_estimate]
    before it is finished, are within a bound linear in the pairs: each byte of
    a pair, with 34 bytes for its lengths and restart point, counts for ten
    bytes of blocks and index and for as many of filters as the policy needs
    per key. *)
Theorem TableBuilder_never_fails kvs :
  sorted_kvs c kvs = true → nonempty_keys kvs → small_input kvs →
  ∃ b n b', tb_adds (TableBuilder_new o []) kvs = Done (Ok tt, b) ∧ tb_entries b = len kvs ∧
    tb_size_estimate b ≤ table_bound kvs ∧
    tb_finish b = Done (Ok n, b') ∧ n = len (dst b') ∧ n ≤ table_bound kvs.
Proof.
  intros Hs Hk Hin. destruct (build_small kvs Hs Hk Hin) as (file&Hb&Hlen).
  apply bind_Done in Hb as ([r b']&Hb&[= -> <-]). apply st_bind_Ok in Hb as ([]&b&Hadds&Hfin).
  exists b, (len (dst b')), b'. split; [done|]. split; [by apply (tb_adds_entries kvs _ _ Hadds)|]. split; [|done].
  destruct (tb_rep_new o) as [Hr0 Hsep0].
  destruct (tb_adds_inv o Hri kvs _ [] [] b Hbs Hr0 Hsep0 Hs Hadds) as (ds&cur&Hr&_&Hall).
  change (all_kvs [] [] ++ kvs) with kvs in Hall. apply estimate_bound in Hr; [|by rewrite Hall..].
  rewrite Hall in Hr. unfold table_bound. pose proof (len_nonneg name). pose proof (payload_nonneg kvs). lia.
Qed.
End size.

(** ** Stored and read back *)

Section store.
Context `{E : IntegerEncoding, !IntegerEncodingSpec E, C : Crc32c, !Crc32cSpec C, Sn : Snappy, !SnappySpec Sn}.
Context (o : Options) `{!CmpOrder (opt_cmp o), !CmpSep (opt_cmp o), !CmpSepLen (opt_cmp o), !CmpNil (opt_cmp o)}.
Context (fits : list bytes → Prop) `{!FilterPolicySpec (filter_policy o) fits}.
Context `{!FilterPolicyNonempty (filter_policy o) fits, !FilterPolicyBounded (filter_policy o) fits}.
Context (rate : Z) `{!FilterPolicySized (filter_policy o) fits rate}.

(** Options to write with, for readers with [o]. *)
Record writes_for (w : Options) : Prop := {
  wf_format : same_format w o;
  wf_restarts : 0 < block_restart_interval w;
  wf_block_size : 8 ≤ block_size w;
  wf_compresses : compresses (compression_type w);
}.

(** A table of such pairs is built, and readers of [o] can rely on it. *)
Lemma small_built_table w kvs :
  writes_for w → sorted_kvs (opt_cmp o) kvs = true → nonempty_keys kvs → small_input o rate kvs →
  ∃ file, build_table w kvs [] = Done (Ok (len file), file) ∧ len file ≤ table_bound o rate kvs ∧
    built_table o fits kvs file.
Proof.
  intros [[Hcmp Hpol] Hri Hbs Hcomp] Hs Hk Hin. rewrite Hcmp in Hs.
  assert (CmpOrder (opt_cmp w)) by by rewrite <- Hcmp. assert (CmpSep (opt_cmp w)) by by rewrite <- Hcmp.
  assert (CmpSepLen (opt_cmp w)) by by rewrite <- Hcmp.
  assert (FilterPolicySpec (filter_policy w) fits) by by rewrite <- Hpol.
  assert (FilterPolicyNonempty (filter_policy w) fits) by by rewrite <- Hpol.
  assert (FilterPolicyBounded (filter_policy w) fits) by by rewrite <- Hpol.
  assert (FilterPolicySized (filter_policy w) fits rate) by by rewrite <- Hpol.
  assert (Hb : table_bound w rate kvs = table_bound o rate kvs) by by unfold table_bound; rewrite Hpol.
  assert (Hin' : small_input w rate kvs) by by unfold small_input; rewrite Hb.
  destruct (build_small w Hri Hbs Hcomp fits rate kvs Hs Hk Hin') as (file&Hbuild&Hlen).
  exists file. rewrite <- Hb. split; [done|]. split; [done|]. split.
  - by exists w.
  - by rewrite Hcmp.
  - done.
  - intros l. by apply (small_fits w Hbs fits rate).
  - unfold small_input, U32 in *. lia.
Qed.

End store.
