(* ===== verification/RwSstable.v ===== *)
(** * The example program (examples/rw_sstable/src/main.rs)

    A whole program over the crate: it writes four pairs to a file, reads them
    back, prints them, and prints what four lookups find. What it prints is
    proved from the crate's properties, for every file system and every
    implementation of the crates it builds on. *)

From S2P Require Export TableSize TableDestinations TableSafety.

(** ** Text *)

(** [String::from_utf8]: the well-formed byte sequences of the Unicode
    standard. *)
Definition is_byte (lo hi : Z) (b : byte) : bool := (lo <=? b2z b) && (b2z b <=? hi).
Definition is_tail (b : byte) : bool := is_byte 0x80 0xbf b.

Definition starts_two (b c : byte) : bool := is_byte 0xc2 0xdf b && is_tail c.
Definition starts_three (b c d : byte) : bool :=
  (is_byte 0xe0 0xe0 b && is_byte 0xa0 0xbf c || is_byte 0xe1 0xec b && is_tail c ||
   is_byte 0xed 0xed b && is_byte 0x80 0x9f c || is_byte 0xee 0xef b && is_tail c) && is_tail d.
Definition starts_four (b c d e : byte) : bool :=
  (is_byte 0xf0 0xf0 b && is_byte 0x90 0xbf c || is_byte 0xf1 0xf3 b && is_tail c ||
   is_byte 0xf4 0xf4 b && is_byte 0x80 0x8f c) && is_tail d && is_tail e.

Fixpoint valid_utf8 (bs : bytes) : bool :=
  match bs with
  | [] => true
  | b :: r1 =>
      if is_byte 0 0x7f b then valid_utf8 r1 else
      match r1 with
      | [] => false
      | c :: r2 =>
          if starts_two b c then valid_utf8 r2 else
          match r2 with
          | [] => false
          | d :: r3 =>
              if starts_three b c d then valid_utf8 r3 else
              match r3 with
              | [] => false
              | e :: r4 => starts_four b c d e && valid_utf8 r4
              end
          end
      end
  end.

Definition from_utf8 (v : bytes) : option bytes := if valid_utf8 v then Some v else None.

(** [{:?}] of a [String]: quoted, with the escapes of [char::escape_debug]. What
    it does to characters outside ASCII is decided by tables of the standard
    library, an argument. *)
Definition hex_digit (n : Z) : byte := z2b (if n <? 10 then 48 + n else 87 + n).
Definition escape_ascii (b : byte) : bytes :=
  match b2z b with
  | 0 => as_bytes "\0" | 9 => as_bytes "\t" | 10 => as_bytes "\n" | 13 => as_bytes "\r"
  | 34 => [x5c; x22] | 92 => [x5c; x5c]
  | n => if (n <? 32) || (n =? 127)
         then as_bytes "\u{" ++ (if n <? 16 then [] else [hex_digit (n / 16)]) ++ [hex_digit (n mod 16); x7d]
         else [b]
  end.

Section debug.
Context (escape_wide : bytes → bytes).

Definition debug_str (s : bytes) : bytes :=
  [x22] ++ (if forallb (is_byte 0 0x7f) s then mjoin (escape_ascii <$> s) else escape_wide s) ++ [x22].

Definition debug_option (s : option bytes) : bytes :=
  match s with
  | None => as_bytes "None"
  | Some s => as_bytes "Some(" ++ debug_str s ++ as_bytes ")"
  end.
End debug.

(** ** The outside world *)

(** What the program asks of [std::fs]: opening a file for writing, created or
    emptied, what is at a path when a handle on it is dropped, and opening a file
    for reading, with its length. *)
Class FileSystem (FS OutFile : Type) := {
  create : bytes → FS → OutFile + io_Error;
  close : bytes → OutFile → FS → FS;
  open : bytes → FS → (RandomAccess * Z) + io_Error;
}.

(** What [std::fs] documents of these: a file that was created or truncated is
    empty; what was written to it is at its path; a file that opens is there, and
    its length is that of its contents. *)
Class FileSystemSpec {FS OutFile : Type} (F : FileSystem FS OutFile)
    (written_to : OutFile → bytes) (contents_of : FS → bytes → option bytes) : Prop := {
  create_empty p fs d : create p fs = inl d → written_to d = [];
  close_contents p d fs : contents_of (close p d fs) p = Some (written_to d);
  open_contents p fs f size : open p fs = inl (f, size) →
    ∃ data, contents_of fs p = Some data ∧ size = len data;
}.

(** What it does not document, and the crate relies on all the same: reading never
    fails, and never stops short of the end of the buffer or of the file (see
    [Table_new_short_read_panics]). For writing the like is [WholeWrite]: a write
    takes the whole buffer or fails (see [TableBuilder_ignores_short_writes]). *)
Class WholeReads {FS OutFile : Type} (F : FileSystem FS OutFile)
    (contents_of : FS → bytes → option bytes) : Prop :=
  open_reads p fs f size data :
    open p fs = inl (f, size) → contents_of fs p = Some data → f = BufferBackedFile data.

(** The state of the world while the program runs: files, and the lines printed
    so far. A program that panics leaves the lines it printed. *)
Record World (FS : Type) := mkWorld { w_fs : FS; w_out : list bytes }.
Arguments mkWorld {FS} w_fs w_out.
Arguments w_fs {FS} w.
Arguments w_out {FS} w.

Definition IO (FS A : Type) := World FS → outcome A * World FS.

Section io.
Context {FS : Type}.
Definition io_ret {A} (a : A) : IO FS A := λ w, (Done a, w).
Definition io_bind {A B} (m : IO FS A) (k : A → IO FS B) : IO FS B := λ w,
  match m w with
  | (Done a, w) => k a w
  | (Fail f, w) => (Fail f, w)
  end.
(** what needs nothing of the world *)
Definition io_lift {A} (m : outcome A) : IO FS A := λ w, (m, w).
Definition println (line : bytes) : IO FS unit := λ w, (Done tt, mkWorld (w_fs w) (w_out w ++ [line])).

Definition unwrap {A} (x : option A) : IO FS A :=
  match x with Some a => io_ret a | None => io_lift Panic end.
(** [r.unwrap()] and [r.expect(msg)] *)
Definition expect {A} (r : result A) : IO FS A :=
  match r with Ok a => io_ret a | Err _ => io_lift Panic end.
End io.

Notation "'do!' x ':=' m 'in' k" := (io_bind m (λ x, k))
  (at level 10, x pattern, m at level 200, k at level 200,
   format "'[v' 'do!'  x  ':='  m  'in'  '/' k ']'") : rust_scope.

(** ** The program *)

Definition make_table : list (bytes * bytes) :=
  (λ '(k, v), (as_bytes k, as_bytes v)) <$>
    [("abc", "111111"); ("def", "11222"); ("dfg", "0001"); ("zzz", "123456")]%string.

Section program.
Context `{E : IntegerEncoding, C : Crc32c, Sn : Snappy}.
Context {FS OutFile : Type} `{F : !FileSystem FS OutFile, W : !Write OutFile, FW : !FixedIntWriter OutFile}.
Context (escape_wide : bytes → bytes).

(** [build_table] is the loop of [add]s over the pairs and then [finish], each
    with [?]. The handle is dropped, with the builder, however the function
    returns; what a panic would leave in the file is not modelled. The cache of
    these options is not used. *)
Definition write_table (p : bytes) : IO FS (result unit) := λ w,
  match create p (w_fs w) with
  | inr e => (Done (Err (from_io_Error e)), w)
  | inl dst =>
      match build_table Options_default make_table dst with
      | Done (Ok _, dst) => (Done (Ok tt), mkWorld (close p dst (w_fs w)) (w_out w))
      | Done (Err e, dst) => (Done (Err e), mkWorld (close p dst (w_fs w)) (w_out w))
      | Fail f => (Fail f, w)
      end
  end.

(** [println!("{} => {}", k, v)] *)
Definition print_pair (k v : bytes) : IO FS unit := println (k ++ as_bytes " => " ++ v).

(** [while iter.advance()]: the iterator with the cache, as its state. *)
Fixpoint print_all {It} `{!SSIterator It} (fuel : nat) (iter : It) : IO FS It :=
  match fuel with
  | O => io_lift NoFuel
  | S n =>
      do! (more, iter) := io_lift (advance iter) in
      if (more : bool) then
        do! kv := io_lift (current_key_val iter) in
        do! kv := unwrap kv in
        do! k := unwrap (from_utf8 kv.1) in
        do! v := unwrap (from_utf8 kv.2) in
        do! _ := print_pair k v in
        print_all n iter
      else io_ret iter
  end.

(** The table comes with the block cache that its options have. *)
Definition read_table (fuel : nat) (p : bytes) : IO FS (result (Table * Cache Block)) :=
  do! (opt, cache) := io_lift Options_default_with_cache in
  do! (tr, cache) := λ w, (new_from_file opt (λ p, open p (w_fs w)) p cache, w) in
  match tr with
  | Err e => io_ret (Err e)
  | Ok tr =>
      do! iter := io_lift (table_iter tr) in
      do! (_, cache) := print_all fuel (iter, cache) in
      io_ret (Ok (tr, cache))
  end.

(** The string is not checked to be UTF-8. *)
Definition lookup (t : Table * Cache Block) (key : string) : IO FS (result (option bytes) * (Table * Cache Block)) :=
  do! (r, cache) := io_lift (table_get t.1 (as_bytes key) t.2) in
  io_ret (r, (t.1, cache)).

(** [println!("{} => {:?}", key, lookup(&tr, key).unwrap())] *)
Definition print_lookup (t : Table * Cache Block) (key : string) : IO FS (Table * Cache Block) :=
  do! (r, t) := lookup t key in
  do! v := expect r in
  do! _ := print_pair (as_bytes key) (debug_option escape_wide v) in
  io_ret t.

Definition path : bytes := as_bytes "/tmp/some.random.sstable".

Definition main (fuel : nat) : IO FS unit :=
  do! r := write_table path in
  do! _ := expect r in
  do! r := read_table fuel path in
  do! tr := expect r in
  do! _ := println (as_bytes "=== lookups ===") in
  do! tr := print_lookup tr "000" in
  do! tr := print_lookup tr "def" in
  do! tr := print_lookup tr "zzy" in
  do! tr := print_lookup tr "zzz" in
  io_ret tt.
End program.

(** ** What the parts of the program do *)

Definition utf8_pair (kv : bytes * bytes) : Prop := valid_utf8 kv.1 = true ∧ valid_utf8 kv.2 = true.

(** The line of a pair. *)
Definition pair_line (kv : bytes * bytes) : bytes := kv.1 ++ as_bytes " => " ++ kv.2.

Section io_lemmas.
Context {FS : Type}.
Implicit Types w : World FS.

Definition prints (lines : list bytes) w : World FS := mkWorld (w_fs w) (w_out w ++ lines).

Lemma prints_nil w : prints [] w = w.
Proof. destruct w. unfold prints. cbn. by rewrite app_nil_r. Qed.

Lemma prints_prints l1 l2 w : prints l2 (prints l1 w) = prints (l1 ++ l2) w.
Proof. unfold prints. cbn. by rewrite app_assoc. Qed.

Lemma io_bind_Done {A B} (m : IO FS A) (k : A → IO FS B) w a w' :
  m w = (Done a, w') → io_bind m k w = k a w'.
Proof. unfold io_bind. by intros ->. Qed.

Lemma io_bind_Fail {A B} (m : IO FS A) (k : A → IO FS B) w f w' :
  m w = (Fail f, w') → io_bind m k w = (Fail f, w').
Proof. unfold io_bind. by intros ->. Qed.

Lemma io_lift_Done {A B} (m : outcome A) (k : A → IO FS B) w a :
  m = Done a → io_bind (io_lift m) k w = k a w.
Proof. by intros ->. Qed.

Lemma unwrap_Some {A B} (x : option A) (k : A → IO FS B) w a : x = Some a → io_bind (unwrap x) k w = k a w.
Proof. by intros ->. Qed.

(** Printing from a cursor onward prints what follows it, and ends. *)
Lemma print_all_ok {It} `{I : !SSIterator It} kvs Rep `{!SSIteratorForward I kvs Rep} fuel (it : It) pos w :
  Forall utf8_pair kvs → Rep it pos → (length kvs - cursor_succ pos < fuel)%nat →
  ∃ it', print_all fuel it w = (Done it', prints (pair_line <$> drop (cursor_succ pos) kvs) w) ∧ Rep it' None.
Proof.
  intros Hu. revert it pos w. induction fuel as [|fuel IH]; intros it pos w Hr Hf; [lia|]. cbn [print_all].
  destruct (kvs !! cursor_succ pos) as [kv|] eqn:Hkv.
  - destruct (advance_more it pos kv Hr Hkv) as (it1&Ha&Hr1). rewrite (io_lift_Done _ _ _ _ Ha).
    rewrite (io_lift_Done _ _ _ _ (current_key_val_spec kvs Rep it1 _ Hr1)). cbn [mbind option_bind]. rewrite Hkv.
    destruct (Forall_lookup_1 _ _ _ _ Hu Hkv) as [Hk Hv].
    rewrite (unwrap_Some (Some kv) _ w kv) by done.
    rewrite (unwrap_Some _ _ w kv.1), (unwrap_Some _ _ w kv.2) by by unfold from_utf8; rewrite ?Hk, ?Hv.
    apply lookup_lt_Some in Hkv as Hlt.
    destruct (IH it1 (Some (cursor_succ pos)) (prints [pair_line kv] w) Hr1) as (it'&Hp&Hr'); [cbn; lia|].
    exists it'. split; [|done]. rewrite (drop_S kvs kv (cursor_succ pos)) by done. rewrite fmap_cons.
    change (pair_line kv :: ?l) with ([pair_line kv] ++ l). by rewrite <- prints_prints.
  - destruct (advance_done it pos Hr Hkv) as (it1&Ha&Hr1). rewrite (io_lift_Done _ _ _ _ Ha). exists it1.
    split; [|done]. rewrite drop_ge by (by apply lookup_ge_None). cbn. by rewrite prints_nil.
Qed.
(** A program that ends in every world. *)
Definition io_terminates {A} (m : IO FS A) : Prop := ∀ w, terminates (m w).1.

Lemma io_lift_bind_terminates {A B} (m : outcome A) (k : A → IO FS B) :
  terminates m → (∀ a, m = Done a → io_terminates (k a)) → io_terminates (io_bind (io_lift m) k).
Proof. intros Ht Hk w. unfold io_bind, io_lift. destruct m as [a|f]; [by apply Hk|exact Ht]. Qed.

Lemma unwrap_bind_terminates {A B} (x : option A) (k : A → IO FS B) :
  (∀ a, x = Some a → io_terminates (k a)) → io_terminates (io_bind (unwrap x) k).
Proof. intros Hk w. destruct x as [a|]; [by apply Hk|done]. Qed.

(** Printing ends where the iterator does, whatever it yields. *)
Lemma print_all_ends {It} `{I : !SSIterator It} (it : It) :
  winds_down it → ∃ n, ∀ m, (n ≤ m)%nat → io_terminates (print_all m it).
Proof.
  induction 1 as [it Ht _ IH Hcur]. destruct (advance it) as [[[] it1]|f] eqn:Ha.
  - destruct (IH it1 eq_refl) as [n Hn]. exists (S n). intros [|m] Hm; [lia|]. cbn [print_all]. rewrite Ha.
    apply io_lift_bind_terminates; [done|]. intros _ [= <-]. apply io_lift_bind_terminates.
    { unfold current_key_val. apply terminates_bind; [by apply Hcur|]. intros [[ok k] v] _. by destruct ok. }
    intros kv _. do 3 (apply unwrap_bind_terminates; intros ? _). intros w. apply Hn. lia.
  - exists 1%nat. intros [|m] Hm; [lia|]. cbn [print_all]. rewrite Ha. by intros w.
  - exists 1%nat. intros [|m] Hm; [lia|]. cbn [print_all]. rewrite Ha. by intros w.
Qed.
End io_lemmas.

Section main.
Context `{E : IntegerEncoding, !IntegerEncodingSpec E, C : Crc32c, !Crc32cSpec C, Sn : Snappy, !SnappySpec Sn}.
Context {FS OutFile : Type} `{F : !FileSystem FS OutFile, W : !Write OutFile, FW : !FixedIntWriter OutFile}.
Context {written_to : OutFile → bytes} {contents_of : FS → bytes → option bytes}.
Context `{HFS : !FileSystemSpec F written_to contents_of}.
Context `{HW : !WholeWrite written_to W FW} `{HR : !WholeReads F contents_of}.
Context (escape_wide : bytes → bytes).
Implicit Types w : World FS.

Abbreviation o := Options_default.
Abbreviation bloom_fits := (BloomProofs.fits (Bloom.new DEFAULT_BITS_PER_KEY)).

#[local] Instance default_policy_spec : FilterPolicySpec (filter_policy o) bloom_fits :=
  BloomProofs.BloomPolicy_spec DEFAULT_BITS_PER_KEY ltac:(done).
#[local] Instance default_policy_nonempty : FilterPolicyNonempty (filter_policy o) bloom_fits :=
  BloomPolicy_nonempty DEFAULT_BITS_PER_KEY ltac:(done).
#[local] Instance default_policy_bounded : FilterPolicyBounded (filter_policy o) bloom_fits :=
  BloomPolicy_bounded DEFAULT_BITS_PER_KEY ltac:(done).
#[local] Instance default_policy_sized : FilterPolicySized (filter_policy o) bloom_fits (DEFAULT_BITS_PER_KEY + 10) :=
  BloomPolicy_sized DEFAULT_BITS_PER_KEY ltac:(done).
#[local] Instance default_order : CmpOrder (opt_cmp o) := DefaultCmpLaws.DefaultCmp_order.
#[local] Instance default_sep : CmpSep (opt_cmp o) := DefaultCmpLaws.DefaultCmp_sep.
#[local] Instance default_sep_len : CmpSepLen (opt_cmp o) := DefaultCmp_sep_len.
#[local] Instance default_nil : CmpNil (opt_cmp o) := DefaultCmpLaws.DefaultCmp_nil.

(** An open table of the pairs, with its cache. *)
Definition serves (kvs : list (bytes * bytes)) (t : Table * Cache Block) : Prop :=
  ∃ V f fr id, t.1 = opened_at o V f id fr ∧ readable o kvs V f fr ∧ strict_seps o V ∧
    cache_ok o V (λ _ _, True) id t.2.

(** A strict table, of pairs that are text, is printed pair by pair. *)
Lemma read_table_prints kvs file fuel p w f size :
  strict_table o kvs file → Forall utf8_pair kvs → contents_of (w_fs w) p = Some file →
  open p (w_fs w) = inl (f, size) → (length kvs < fuel)%nat →
  ∃ t, read_table fuel p w = (Done (Ok t), prints (pair_line <$> kvs) w) ∧ serves kvs t.
Proof.
  intros (V&fr&Htf&Hstrict) Hu Hfile Hopen Hfuel. unfold read_table.
  assert (Hcache : ∃ cache, Options_default_with_cache = Done (o, cache) ∧ empty_cache cache).
  { eexists. split; [done|]. split; [by apply (cache_rep_new default_cache_capacity)|done]. }
  destruct Hcache as (cache&Hd&Hempty). rewrite (io_lift_Done _ _ _ _ Hd). apply empty_cache_ids in Hempty.
  destruct (open_contents _ _ _ _ Hopen) as (data&Hdata&->). rewrite Hfile in Hdata. injection Hdata as <-.
  pose proof (open_reads _ _ _ _ _ Hopen Hfile) as ->.
  destruct (open_format_idle o kvs V fr file cache Htf Hempty) as (cache1&Hnew&Hc).
  erewrite io_bind_Done; [|unfold new_from_file; by rewrite Hopen, Hnew]. cbn [fst snd].
  apply table_file_readable in Htf as Hrd.
  destruct (table_iter_rep o V kvs (rd_view _ _ _ _ _ Hrd) (BufferBackedFile file) _ _ fr cache1 Hc) as (it&Hit&Hrep).
  rewrite (io_lift_Done _ _ _ _ Hit).
  pose proof (cached_forward o kvs V file (cache_id cache + 1) fr Hrd) as HF.
  destruct (print_all_ok kvs _ fuel (it, cache1) None w Hu Hrep) as ([it' cache2]&Hp&Ht&Hc2&_); [cbn; lia|].
  rewrite (io_bind_Done _ _ _ _ _ Hp). eexists. split; [done|].
  by exists V, (BufferBackedFile file), fr, (cache_id cache + 1).
Qed.

(** Where reads are whole, reading ends on every file, in the format or not: it returns, with the table
    or an error, or panics. *)
Theorem read_table_ends p w : ∃ n, ∀ m, (n ≤ m)%nat → terminates (read_table m p w).1.
Proof.
  assert (Hcache : ∃ cache, Options_default_with_cache = Done (o, cache) ∧ cache_fine cache).
  { eexists. split; [done|]. exists []. by apply (cache_rep_new default_cache_capacity). }
  destruct Hcache as (cache&Hd&Hfine). unfold read_table.
  destruct (open p (w_fs w)) as [[f size]|e] eqn:Ho.
  2: { exists 0%nat. intros m _. rewrite (io_lift_Done _ _ _ _ Hd). unfold io_bind, new_from_file. by rewrite Ho. }
  destruct (open_contents _ _ _ _ Ho) as (file&Hfile&->). pose proof (open_reads _ _ _ _ _ Ho Hfile) as ->.
  pose proof (Table_new_ensures o (BufferBackedFile file) (len file) cache (BufferBackedFile_safe _)
    (BloomPolicy_safe _) Hfine) as Hnew.
  destruct (Table_new o (BufferBackedFile file) (len file) cache) as [[[t|e] cache1]|flt] eqn:Ht.
  - destruct Hnew as [Hc Hsafe]. specialize (Hsafe t eq_refl).
    assert (Hwd : ∀ it, table_iter t = Done it → winds_down (it, cache1)).
    { intros it Hit. by apply ti_winds_down, (ti_reachable_safe t _ Hsafe), ti_reach_iter. }
    assert (Hprint : ∃ n, ∀ m, (n ≤ m)%nat → ∀ it, table_iter t = Done it → io_terminates (FS := FS) (print_all m (it, cache1))).
    { destruct (table_iter t) as [it|flt]; [|by exists 0%nat].
      destruct (print_all_ends (FS := FS) (it, cache1) (Hwd it eq_refl)) as [n Hn]. exists n. intros m Hm _ [= <-]. by apply Hn. }
    destruct Hprint as [n Hn]. exists n. intros m Hm.
    rewrite (io_lift_Done _ _ _ _ Hd). unfold io_bind at 1, new_from_file. rewrite Ho, Ht.
    refine (io_lift_bind_terminates _ _ (table_iter_terminates t) _ w). intros it Hit w1. specialize (Hn m Hm it Hit w1).
    unfold io_bind. by destruct (print_all m (it, cache1) w1) as [[[it2 c2]|flt] w2].
  - exists 0%nat. intros m _. rewrite (io_lift_Done _ _ _ _ Hd). unfold io_bind, new_from_file. by rewrite Ho, Ht.
  - exists 0%nat. intros m _. rewrite (io_lift_Done _ _ _ _ Hd). unfold io_bind, new_from_file. rewrite Ho, Ht.
    by apply ensures_terminates in Hnew.
Qed.

(** A lookup prints what the map has. *)
Lemma print_lookup_ok kvs t key w :
  serves kvs t → len (as_bytes key) < U32 →
  ∃ t', print_lookup escape_wide t key w =
      (Done t', prints [pair_line (as_bytes key, debug_option escape_wide (table_map kvs !! as_bytes key))] w) ∧
    serves kvs t'.
Proof.
  destruct t as [t cache]. intros (V&f&fr&id&Ht&Hrd&Hstrict&Hc) Hkey. cbn in Ht, Hc. subst t.
  pose proof (cache_source_ok o V kvs (rd_view _ _ _ _ _ Hrd) f (rd_blocks _ _ _ _ _ Hrd) (λ _ _, True)) as Hsrc.
  destruct (table_get_map o kvs V f fr _ id cache (as_bytes key) Hsrc Hrd Hstrict) as (cache'&Hg&Hc');
    [exact DefaultCmpLaws.bytes_cmp_eq|done..|].
  unfold print_lookup, lookup. exists (opened_at o V f id fr, cache'). split; [|by exists V, f, fr, id].
  unfold io_bind at 1 2. unfold io_lift. cbn [fst snd]. by rewrite Hg.
Qed.

(** *** The pairs of the program *)

Lemma make_table_sorted : sorted_kvs (opt_cmp o) make_table = true.
Proof. by vm_compute. Qed.

Lemma make_table_small : small_input o (DEFAULT_BITS_PER_KEY + 10) make_table.
Proof. by vm_compute. Qed.

Lemma make_table_text : Forall utf8_pair make_table.
Proof. by repeat constructor. Qed.

Lemma make_table_separable : separable (opt_cmp o) make_table.
Proof. apply default_separable; [apply make_table_sorted|]. by repeat constructor. Qed.

(** In memory, they make a strict table. *)
Lemma make_table_built :
  ∃ n file, build_table o make_table [] = Done (Ok n, file) ∧ strict_table o make_table file.
Proof.
  destruct (small_built_table o bloom_fits (DEFAULT_BITS_PER_KEY + 10) o make_table) as (file&Hb&_&Hbuilt).
  - split; [done..|]. apply compresses_none.
  - apply make_table_sorted.
  - by repeat constructor.
  - apply make_table_small.
  - exists (len file), file. split; [done|].
    apply (built_strict_table o bloom_fits); [done|apply make_table_separable].
Qed.

(** Why the operating system may stop the program: the file cannot be created,
    a write to it fails, or it cannot be opened again. *)
Inductive refused w : Prop :=
  | refused_create e : create path (w_fs w) = inr e → refused w
  | refused_write d d' e : create path (w_fs w) = inl d →
      build_table o make_table d = Done (Err (from_io_Error e), d') → refused w
  | refused_open d d' n e : create path (w_fs w) = inl d → build_table o make_table d = Done (Ok n, d') →
      open path (close path d' (w_fs w)) = inr e → refused w.

(** What the program prints. *)
Definition some_quoted (s : string) : bytes := as_bytes "Some(" ++ [x22] ++ as_bytes s ++ [x22] ++ as_bytes ")".
Definition main_output : list bytes :=
  (as_bytes <$> ["abc => 111111"; "def => 11222"; "dfg => 0001"; "zzz => 123456"; "=== lookups ==="]%string) ++
  [as_bytes "000 => None"; as_bytes "def => " ++ some_quoted "11222";
   as_bytes "zzy => None"; as_bytes "zzz => " ++ some_quoted "123456"].

(** What is left of the program when the file is written. *)
Lemma main_continues fuel w p (r : result (Table * Cache Block)) w' :
  write_table path w = (Done (Ok tt), mkWorld p (w_out w)) →
  read_table fuel path (mkWorld p (w_out w)) = (Done r, w') →
  main escape_wide fuel w =
    match r with
    | Err _ => (Panic, w')
    | Ok t => (do! _ := println (as_bytes "=== lookups ===") in
        do! tr := print_lookup escape_wide t "000" in do! tr := print_lookup escape_wide tr "def" in
        do! tr := print_lookup escape_wide tr "zzy" in do! tr := print_lookup escape_wide tr "zzz" in
        io_ret tt) w'
    end.
Proof.
  intros Hw Hr. unfold main. rewrite (io_bind_Done _ _ _ _ _ Hw). cbn [expect].
  unfold io_bind at 1. unfold io_ret at 1. rewrite (io_bind_Done _ _ _ _ _ Hr). by destruct r.
Qed.

Lemma lookups_print t w :
  serves make_table t →
  (do! _ := println (as_bytes "=== lookups ===") in
    do! tr := print_lookup escape_wide t "000" in do! tr := print_lookup escape_wide tr "def" in
    do! tr := print_lookup escape_wide tr "zzy" in do! tr := print_lookup escape_wide tr "zzz" in
    io_ret tt) w = (Done tt, prints (drop 4 main_output) w).
Proof.
  intros H0. erewrite io_bind_Done by done.
  destruct (print_lookup_ok make_table t "000" (prints [as_bytes "=== lookups ==="] w) H0) as (t1&H&H1); [done|].
  rewrite (io_bind_Done _ _ _ _ _ H). clear H.
  edestruct (print_lookup_ok make_table t1 "def") as (t2&H&H2); [done..|]. rewrite (io_bind_Done _ _ _ _ _ H). clear H.
  edestruct (print_lookup_ok make_table t2 "zzy") as (t3&H&H3); [done..|]. rewrite (io_bind_Done _ _ _ _ _ H). clear H.
  edestruct (print_lookup_ok make_table t3 "zzz") as (t4&H&_); [done..|]. rewrite (io_bind_Done _ _ _ _ _ H). clear H.
  unfold io_ret. by rewrite !prints_prints.
Qed.

(** C8. The example program does what it says, on every file system where files
    read back what was written to them ([FileSystemSpec]), a write takes the whole
    buffer or fails ([WholeWrite]) and reads neither fail nor stop short
    ([WholeReads]; of the last two, [std::fs] promises neither), and with every
    implementation of the crates that the library is built on. Unless the operating system refuses to
    create, write or open the file, [main] returns, a table of the four pairs is
    at the path, and what is printed is the four pairs in order and the answers
    of the four lookups, two of them [None]. If it refuses, [main] panics at the
    [expect] of that step, and has printed nothing. *)
Theorem main_prints fuel w :
  (4 < fuel)%nat →
  (refused w → ∃ w', main escape_wide fuel w = (Panic, w') ∧ w_out w' = w_out w) ∧
  (refused w ∨ ∃ fs' file, main escape_wide fuel w = (Done tt, mkWorld fs' (w_out w ++ main_output)) ∧
    contents_of fs' path = Some file ∧ strict_table o make_table file).
Proof.
  intros Hfuel. split.
  - intros [e Hc|d d' e Hc Hb|d d' n e Hc Hb Ho].
    + exists w. split; [|done]. unfold main, write_table, io_bind at 1. by rewrite Hc.
    + eexists. split; [unfold main, write_table, io_bind at 1; by rewrite Hc, Hb|done].
    + set (w1 := mkWorld (close path d' (w_fs w)) (w_out w)). exists w1. split; [|done].
      rewrite (main_continues fuel w (w_fs w1) (Err (from_io_Error e)) w1); [done| |].
      * unfold write_table. by rewrite Hc, Hb.
      * change (mkWorld (w_fs w1) (w_out w)) with w1. unfold read_table.
        rewrite (io_lift_Done _ _ _ (o, mkCache LRUList_new ∅ default_cache_capacity 0)) by done.
        erewrite io_bind_Done; [|unfold new_from_file; by rewrite (Ho : open path (w_fs w1) = inr e)]. done.
  - destruct (create path (w_fs w)) as [d|e] eqn:Hc; [|left; by eapply refused_create].
    destruct make_table_built as (n&file&Hmem&Hfmt).
    destruct (build_table_at written_to o make_table n file d HW Hmem) as [(d'&Hb&Hd')|(e&d'&Hb)];
      [|left; by eapply refused_write].
    rewrite (create_empty (FileSystemSpec := HFS) _ _ _ Hc) in Hd'. cbn [app] in Hd'.
    set (w1 := mkWorld (close path d' (w_fs w)) (w_out w)).
    destruct (open path (w_fs w1)) as [[f size]|e] eqn:Ho; [right|left; by eapply refused_open].
    assert (Hfile : contents_of (w_fs w1) path = Some file) by (cbn; by rewrite (close_contents (FileSystemSpec := HFS)), Hd').
    destruct (read_table_prints make_table file fuel path w1 f size Hfmt make_table_text Hfile Ho Hfuel) as (t&Hr&Ht).
    exists (w_fs w1), file. split; [|done].
    rewrite (main_continues fuel w (w_fs w1) (Ok t) (prints (pair_line <$> make_table) w1)).
    + rewrite (lookups_print t _ Ht), prints_prints. done.
    + unfold write_table. by rewrite Hc, Hb.
    + done.
Qed.
End main.
