(* ===== verification/TableDamage.v ===== *)
(** * Tables with damaged data blocks (src/table_reader.rs)

    A file in the format in which some data blocks changed after it was written,
    and every change is noticed by [read_table_block]: what is stored elsewhere is
    still served. Lookups of keys in a damaged block return the error, lookups in the
    other blocks their values, and iteration skips the damaged blocks, as the
    comments in [TableIterator::advance] intend. *)

From S2P Require Export TableRoundtrip.

(** ** What a client can say about the blocks of a table *)

Section blocks.
Context `{E : IntegerEncoding, C : Crc32c, Sn : Snappy}.

(** The pairs in the block at a handle, read without the cache. *)
Definition block_pairs (t : Table) (h : BlockHandle) : outcome (result (list (bytes * bytes))) :=
  let? b := read_table_block (t_opt t) (file t) h in
  let! it := Block_iter b in
  let! (l, _) := drain (S (length (block_contents b))) it in
  Done (Ok l).

Fixpoint collect_blocks (t : Table) (entries : list (bytes * bytes)) :
    outcome (result (list (BlockHandle * list (bytes * bytes)))) :=
  match entries with
  | [] => Done (Ok [])
  | (_, val) :: entries =>
      let! (h, _) := BlockHandle_decode val in
      let? ps := block_pairs t h in
      let? l := collect_blocks t entries in
      Done (Ok ((h, ps) :: l))
  end.

(** The data blocks that the index names, with their pairs. *)
Definition data_blocks (t : Table) : outcome (result (list (BlockHandle * list (bytes * bytes)))) :=
  let! it := Block_iter (t_index_block t) in
  let! (entries, _) := drain (S (length (block_contents (t_index_block t)))) it in
  collect_blocks t entries.

(** Where they end. *)
Definition data_end (bs : list (BlockHandle * list (bytes * bytes))) : Z :=
  foldr (λ b n, (bh_offset b.1 + bh_size b.1 + 5) `max` n) 0 bs.

(** [g] is [file] with other bytes in some data blocks; [damage] tells the error
    that reading a block gives. *)
Record damaged (o : Options) (file g : bytes) (bs : list (BlockHandle * list (bytes * bytes)))
    (damage : BlockHandle → option Status) : Prop := {
  dm_len : len g = len file;
  dm_rest : drop (Z.to_nat (data_end bs)) g = drop (Z.to_nat (data_end bs)) file;
  dm_blocks h ps : (h, ps) ∈ bs → read_table_block o (BufferBackedFile g) h =
    match damage h with
    | Some e => Done (Err e)
    | None => read_table_block o (BufferBackedFile file) h
    end;
}.

(** A client that looks up one key after the other, whatever it gets. *)
Fixpoint try_gets {St} `{!BlockSource St} (t : Table) (keys : list bytes) (cache : St) :
    outcome (list (result (option bytes)) * St) :=
  match keys with
  | [] => Done ([], cache)
  | key :: keys =>
      let! (r, cache) := table_get t key cache in
      let! (rs, cache) := try_gets t keys cache in
      Done (r :: rs, cache)
  end.
End blocks.

Lemma data_end_le bs n :
  (∀ h ps, (h, ps) ∈ bs → bh_offset h + bh_size h + 5 ≤ n) → 0 ≤ n → 0 ≤ data_end bs ≤ n.
Proof.
  intros Hbs Hn. induction bs as [|[h ps] bs IH]; [done|]. cbn.
  pose proof (Hbs h ps ltac:(by apply elem_of_cons; left)). enough (0 ≤ data_end bs ≤ n) by (unfold data_end in *; lia).
  apply IH. intros h' ps' ?. apply (Hbs h' ps'). by apply elem_of_cons; right.
Qed.

Lemma data_end_nonneg bs : 0 ≤ data_end bs.
Proof. induction bs as [|[h ps] bs IH]; [done|]. cbn. unfold data_end in *. lia. Qed.

(** ** Reads beyond the damage *)

Lemma slice_drop_eq {A} (l l' : list A) n i j :
  0 ≤ n ≤ i → len l = len l' → drop (Z.to_nat n) l = drop (Z.to_nat n) l' → slice l i j = slice l' i j.
Proof.
  intros Hn Hlen Hd. unfold slice. rewrite Hlen. destruct (_ && _); [|done]. do 2 f_equal.
  replace (Z.to_nat i) with (Z.to_nat n + (Z.to_nat i - Z.to_nat n))%nat by lia.
  by rewrite <- !drop_drop, Hd.
Qed.

Lemma read_at_same (f g dst : bytes) n off :
  0 ≤ n ≤ off → len g = len f → drop (Z.to_nat n) g = drop (Z.to_nat n) f →
  read_at (BufferBackedFile g) off dst = read_at (BufferBackedFile f) off dst.
Proof.
  intros Hn Hlen Hd. cbn. unfold BufferBackedFile_read_at. rewrite Hlen. destruct (len f <? off); [done|].
  destruct (usub (len f) off); cbn [bind]; [|done]. by rewrite (slice_drop_eq g f n).
Qed.

Section same.
Context `{E : IntegerEncoding, C : Crc32c, Sn : Snappy}.
Context (f g : bytes) (n : Z) (Hlen : len g = len f) (Hdrop : drop (Z.to_nat n) g = drop (Z.to_nat n) f).

Lemma read_bytes_same h :
  0 ≤ n ≤ bh_offset h → read_bytes (BufferBackedFile g) h = read_bytes (BufferBackedFile f) h.
Proof. intros Hn. unfold read_bytes. by rewrite (read_at_same f g _ n). Qed.

Lemma read_table_block_same o h :
  0 ≤ n ≤ bh_offset h →
  read_table_block o (BufferBackedFile g) h = read_table_block o (BufferBackedFile f) h.
Proof.
  intros Hn. unfold read_table_block. destruct (uadd (bh_size h) _) as [sz|]; cbn [bind]; [|done].
  destruct (uadd sz _) as [sz'|]; cbn [bind]; [|done]. by rewrite read_bytes_same.
Qed.

Lemma read_footer_same size :
  0 ≤ n ≤ size - 48 → read_footer (BufferBackedFile g) size = read_footer (BufferBackedFile f) size.
Proof.
  intros Hn. unfold read_footer. destruct (usub size FULL_FOOTER_LENGTH) as [off|] eqn:Ho; cbn [bind]; [|done].
  apply usub_inv in Ho as [-> _]. rewrite (read_at_same f g _ n); [done|unfold FULL_FOOTER_LENGTH, FOOTER_LENGTH; lia|done..].
Qed.
End same.

(** ** The damaged table *)

Section damage.
Context `{E : IntegerEncoding, !IntegerEncodingSpec E, C : Crc32c, Sn : Snappy}.
Context (o : Options) `{!CmpOrder (opt_cmp o)}.
Context (V : table_view) (kvs : list (bytes * bytes)) (HV : view_of o kvs V).

Abbreviation c := (opt_cmp o).
Abbreviation ds := (v_blocks V).

(** The blocks as a client sees them. *)
Definition seen_blocks : list (BlockHandle * list (bytes * bytes)) := (λ d, (d_handle d, d_kvs d)) <$> ds.

(** A built block holds fewer pairs than bytes. *)
Lemma built_length l b : block_of o l b → nonempty_keys l → (length l < S (length b))%nat.
Proof.
  intros Hb Hk. destruct (built_entries o l b Hk Hb) as (es&rs&->&Hes&Hrs&<-&_).
  rewrite length_fmap. pose proof (entries_le_block es rs). lia.
Qed.

Lemma block_pairs_ok f id fr i d :
  reads_blocks o f V → ds !! i = Some d → block_pairs (opened_at o V f id fr) (d_handle d) = Done (Ok (d_kvs d)).
Proof.
  intros Hread Hd. unfold block_pairs. cbn [t_opt file opened_at]. unfold try_bind at 1.
  rewrite (Hread i d Hd). cbn [bind].
  destruct (data_iter o V kvs HV i d Hd) as (it&->&Hit). cbn [bind block_contents].
  pose proof (data_forward o V kvs HV i d Hd) as HF.
  destruct (drain_spec (d_kvs d) _ (S (length (d_contents d))) it None Hit) as (it'&->&_); [|done].
  pose proof (built_length _ _ (vb_block _ _ (dblk_view o V kvs HV i d Hd))
    (dblk_nonempty_keys o V kvs HV i d Hd)). simpl. lia.
Qed.

Lemma collect_blocks_ok f id fr l :
  reads_blocks o f V → (∀ d, d ∈ l → d ∈ ds) →
  collect_blocks (opened_at o V f id fr) (index_kvs l) = Done (Ok ((λ d, (d_handle d, d_kvs d)) <$> l)).
Proof.
  intros Hread. induction l as [|d l IH]; intros Hin; [done|]. cbn.
  destruct (list_elem_of_lookup_1 ds d) as [i Hi]; [apply Hin; by apply elem_of_cons; left|].
  rewrite (decode_handle o V kvs HV i d Hi). cbn [bind]. unfold try_bind at 1.
  rewrite (block_pairs_ok f id fr i d Hread Hi). cbn [bind]. unfold try_bind at 1. fold (index_kvs l).
  rewrite IH by (intros d' ?; apply Hin; by apply elem_of_cons; right). done.
Qed.

Lemma data_blocks_ok f id fr :
  reads_blocks o f V → data_blocks (opened_at o V f id fr) = Done (Ok seen_blocks).
Proof.
  intros Hread. unfold data_blocks. cbn [t_index_block opened_at block_contents].
  pose proof (vo_index_size _ _ _ HV) as Hs. pose proof (index_nonempty_keys o V kvs HV) as Hk.
  destruct (built_iter o (index_kvs ds) (v_index V) Hk (vo_index _ _ _ HV) Hs) as (it&->&Hit). cbn [bind].
  pose proof (built_forward o (index_kvs ds) (v_index V) Hs) as HF.
  destruct (drain_spec (index_kvs ds) _ (S (length (v_index V))) it None Hit) as (it'&->&_).
  { pose proof (built_length _ _ (vo_index _ _ _ HV) Hk). simpl. lia. }
  cbn [bind cursor_succ drop]. by apply collect_blocks_ok.
Qed.

(** *** A source of blocks that fails for some of them *)

Section faulty.
Context (damage : BlockHandle → option Status) (file : RandomAccess).
Context {St : Type} {B : BlockSource St} (cold : Z → St → Prop).
Context (Hfaulty : ∀ id fr cache i d, cold id cache → ds !! i = Some d →
  ∃ cache', fetch_block (opened_at o V file id fr) (d_handle d) cache =
      Done (match damage (d_handle d) with Some e => Err e | None => Ok (mkBlock (d_contents d) o) end, cache') ∧
    cold id cache').

Abbreviation good d := (damage (d_handle d) = None).
Abbreviation table_at id fr := (opened_at o V file id fr).

Lemma get_damaged id fr cache i d a kv :
  strict_seps o V → cold id cache → filters_ok V fr → ds !! i = Some d → d_kvs d !! a = Some kv →
  ∃ cache', table_get (table_at id fr) kv.1 cache =
      Done (match damage (d_handle d) with Some e => Err e | None => Ok (Some kv.2) end, cache') ∧ cold id cache'.
Proof.
  intros Hsep Hc Hfs Hd Ha.
  pose proof (index_find o V kvs HV i d a kv Hsep Hd Ha) as Hix.
  rewrite (table_get_routes o V kvs HV _ id fr cache i d a kv) by done.
  destruct (Hfaulty id fr cache i d Hc Hd) as (cache'&Hread&Hc'). exists cache'. split; [|done].
  destruct (damage (d_handle d)) as [e|].
  - unfold get_in_block. by rewrite Hread.
  - rewrite (get_in_block_read o V kvs HV _ id fr cache cache' i d) by done.
    by rewrite (find_present o V kvs HV i d a kv).
Qed.

(** *** Iterating *)

Abbreviation index_rep := (built_rep o (index_kvs ds) (v_index V)).
Abbreviation data_rep d := (built_rep o (d_kvs d) (d_contents d)).

(** The pairs of the blocks that can be read. *)
Definition good_pairs (l : list dblk) : list (bytes * bytes) := mjoin (d_kvs <$> filter (λ d, good d) l).

Lemma good_pairs_cons d l :
  good_pairs (d :: l) = (if decide (good d) then d_kvs d else []) ++ good_pairs l.
Proof.
  unfold good_pairs. destruct (decide (good d)); [by rewrite filter_cons_True|by rewrite filter_cons_False].
Qed.

(** An iterator with the pairs [l] before it. *)
Definition ahead (id : Z) (fr : option FilterBlockReader) (s : TableIterator * St) (l : list (bytes * bytes)) : Prop :=
  table s.1 = table_at id fr ∧ cold id s.2 ∧
  ((current_block s.1 = None ∧ ∃ pos, index_rep (ti_index_block s.1) pos ∧ l = good_pairs (drop (cursor_succ pos) ds)) ∨
   ∃ i d a cb, ds !! i = Some d ∧ current_block s.1 = Some cb ∧ data_rep d cb (Some a) ∧
     index_rep (ti_index_block s.1) (Some i) ∧ l = drop (S a) (d_kvs d) ++ good_pairs (drop (S i) ds)).

(** Its position after it moved on: at the first of the pairs, or reset. *)
Definition moved (id : Z) (fr : option FilterBlockReader) (s : TableIterator * St) (l : list (bytes * bytes)) : Prop :=
  match l with
  | kv :: l => ahead id fr s l ∧ ∀ k v, ti_current s.1 k v = Done (true, kv.1, kv.2)
  | [] => ti_valid s.1 = false
  end.

(** The index entry after [pos], and what loading its block gives. *)
Lemma skip_damaged id fr self cache pos :
  table self = table_at id fr → cold id cache → current_block self = None →
  index_rep (ti_index_block self) pos →
  match ds !! cursor_succ pos with
  | Some d => ∃ r self' cache', skip_to_next_entry self cache = Done (r, (self', cache')) ∧
      table self' = table_at id fr ∧ cold id cache' ∧ index_rep (ti_index_block self') (Some (cursor_succ pos)) ∧
      match damage (d_handle d) with
      | None => r = Ok true ∧ ∃ cb, current_block self' = Some cb ∧ data_rep d cb None
      | Some e => r = Err e ∧ current_block self' = None
      end
  | None => ∃ self', skip_to_next_entry self cache = Done (Ok false, (self', cache))
  end.
Proof.
  intros Ht Hc Hcb Hib. unfold skip_to_next_entry. pose proof (index_spec o V kvs HV) as HI.
  destruct (next_spec (index_kvs ds) index_rep _ pos Hib) as (ib'&Hn&Hib'). rewrite Hn. cbn [bind].
  unfold index_kvs in *. rewrite list_lookup_fmap in *.
  destruct (ds !! cursor_succ pos) as [d|] eqn:Hd; cbn [fmap option_fmap option_map] in *; [|by eexists].
  cbn [mbind option_bind] in Hib'. unfold load_block. rewrite (decode_handle o V kvs HV _ d Hd). cbn [bind].
  change (table (set_index_iter self ib')) with (table self). rewrite Ht.
  destruct (Hfaulty id fr cache _ d Hc Hd) as (cache'&->&Hc'). cbn [bind].
  destruct (damage (d_handle d)) as [e|]; cbn [bind].
  - eexists _, _, cache'. split; [done|]. auto 10.
  - destruct (data_iter o V kvs HV _ d Hd) as (cb&->&Hcbr). cbn [bind].
    eexists _, _, cache'. split; [done|]. repeat split; eauto.
Qed.

Lemma skip_to_good id fr n self cache pos :
  table self = table_at id fr → cold id cache → current_block self = None →
  index_rep (ti_index_block self) pos → (length ds - cursor_succ pos < n)%nat →
  let l := good_pairs (drop (cursor_succ pos) ds) in
  ∃ s', after_skip (ti_advance n) self cache = Done (bool_decide (l ≠ []), s') ∧ moved id fr s' l.
Proof.
  revert self cache pos. induction n as [|n IH]; intros self cache pos Ht Hc Hcb Hib Hn; [lia|]. cbv zeta.
  pose proof (skip_damaged id fr self cache pos Ht Hc Hcb Hib) as Hskip. unfold after_skip.
  destruct (ds !! cursor_succ pos) as [d|] eqn:Hd.
  - rewrite (drop_S ds d (cursor_succ pos)), good_pairs_cons by done.
    destruct Hskip as (r&self'&cache'&->&Ht'&Hc'&Hib'&Hr). cbn [bind fst snd].
    destruct (damage (d_handle d)) as [e|] eqn:Hdam.
    + destruct Hr as [-> Hcb']. rewrite decide_False by done. rewrite ti_advance_S, Hcb'. cbn [app].
      apply lookup_lt_Some in Hd. apply (IH self' cache' (Some (cursor_succ pos))); try done. simpl. lia.
    + destruct Hr as (->&cb&Hcb'&Hcbr). rewrite decide_True by done.
      destruct (dblk_first o V kvs HV _ d Hd) as [kv Hkv]. rewrite ti_advance_S, Hcb'.
      pose proof (data_forward o V kvs HV _ d Hd) as HF.
      destruct (advance_more cb None kv Hcbr Hkv) as (cb2&Ha&Hr2). cbn in Ha. rewrite Ha. cbn [bind].
      assert (Hfirst : ∀ r, d_kvs d ++ r = kv :: drop 1 (d_kvs d) ++ r).
      { intros r. destruct (d_kvs d); [done|]. by injection Hkv as ->. }
      rewrite Hfirst.
      rewrite bool_decide_eq_true_2 by done. eexists. split; [done|]. split.
      * split; [done|]. split; [done|]. right. exists (cursor_succ pos), d, 0%nat, cb2. done.
      * intros k v. cbn. exact (current_some (SSIteratorForward := HF) cb2 0 kv k v Hr2 Hkv).
  - destruct Hskip as (self'&->). cbn [bind fst snd]. apply lookup_ge_None in Hd.
    rewrite drop_ge by done. cbn. by eexists.
Qed.

(** The index iterator reads the index block. *)
Lemma index_block_contents ib pos : index_rep ib pos → Block.block ib = v_index V.
Proof.
  intros (es&rs&->&_&_&_&_&_&Hrep). by apply block_rep_base, base_block in Hrep.
Qed.

Lemma blocks_in_index : (length ds < S (length (v_index V)))%nat.
Proof.
  pose proof (built_length _ _ (vo_index _ _ _ HV) (index_nonempty_keys o V kvs HV)) as Hl.
  unfold index_kvs in Hl. by rewrite length_fmap in Hl.
Qed.

Lemma advance_damaged id fr s l :
  ahead id fr s l → ∃ s', advance s = Done (bool_decide (l ≠ []), s') ∧ moved id fr s' l.
Proof.
  destruct s as [self cache]. intros (Ht&Hc&[(Hcb&pos&Hib&->)|(i&d&a&cb&Hd&Hcb&Hr&Hib&->)]); cbn [fst snd] in *;
    cbn [advance TableIterator_SSIterator fst snd]; unfold advance_fuel; pose proof blocks_in_index as Hlen;
    rewrite (index_block_contents _ _ Hib), ti_advance_S, Hcb.
  - apply skip_to_good; try done. lia.
  - pose proof (data_forward o V kvs HV _ d Hd) as HF. destruct (d_kvs d !! S a) as [kv|] eqn:Hkv.
    + destruct (advance_more cb (Some a) kv Hr Hkv) as (cb2&Ha&Hr2). cbn in Ha. rewrite Ha. cbn [bind].
      rewrite (drop_S _ kv (S a)) by done. cbn [app]. rewrite bool_decide_eq_true_2 by done.
      eexists. split; [done|]. split.
      * split; [done|]. split; [done|]. right. exists i, d, (S a), cb2. done.
      * intros k v. cbn. exact (current_some (SSIteratorForward := HF) cb2 (S a) kv k v Hr2 Hkv).
    + destruct (advance_done cb (Some a) Hr Hkv) as (cb2&Ha&_). cbn in Ha. rewrite Ha. cbn [bind].
      apply lookup_ge_None in Hkv. rewrite (drop_ge (d_kvs d)) by done. cbn [app].
      apply (skip_to_good id fr (S (length (v_index V))) _ cache (Some i)); try done. simpl. lia.
Qed.

(** Draining the iterator yields what is ahead of it. *)
Lemma drain_damaged id fr fuel s l :
  ahead id fr s l → (length l < fuel)%nat → ∃ s', drain fuel s = Done (l, s') ∧ valid s' = false.
Proof.
  revert s l. induction fuel as [|fuel IH]; intros s l Hs Hf; [lia|]. cbn [drain]. unfold next.
  destruct (advance_damaged id fr s l Hs) as (s1&->&Hm). cbn [bind]. destruct l as [|kv l]; cbn [moved] in Hm.
  - rewrite bool_decide_eq_false_2 by by intros []. cbn [negb bind]. by exists s1.
  - destruct Hm as [Hs1 Hcur]. rewrite bool_decide_eq_true_2 by done. cbn [negb]. cbn [current TableIterator_SSIterator].
    rewrite Hcur. cbn [bind]. destruct (IH s1 l Hs1) as (s2&->&Hv); [simpl in Hf; lia|]. cbn [bind].
    exists s2. by destruct kv.
Qed.
(** *** Lookups of present keys *)

Lemma try_gets_damaged id fr cache keys :
  strict_seps o V → cold id cache → filters_ok V fr → Forall (λ key, key ∈ kvs.*1) keys →
  ∃ rs cache', try_gets (table_at id fr) keys cache = Done (rs, cache') ∧
    Forall2 (λ key r, ∀ h ps v, (h, ps) ∈ seen_blocks → (key, v) ∈ ps →
      r = match damage h with Some e => Err e | None => Ok (Some v) end) keys rs.
Proof.
  intros Hsep Hcold Hfs Hin. revert cache Hcold. induction Hin as [|key keys Hkey _ IH]; intros cache Hcold.
  { by exists [], cache. }
  apply list_elem_of_fmap in Hkey as ([k v]&->&[n Hn]%list_elem_of_lookup_1).
  rewrite <- (vo_kvs _ _ _ HV) in Hn. apply find_block in Hn as (i&d&a&Hd&Ha&_).
  destruct (get_damaged id fr cache i d a (k, v)) as (cache1&Hg&Hcold1); [done..|]. cbn [fst snd] in *.
  destruct (IH cache1 Hcold1) as (rs&cache2&Hrs&Hall). eexists (_ :: rs), cache2. cbn [try_gets].
  rewrite Hg. cbn [bind]. rewrite Hrs. split; [done|]. constructor; [|done].
  intros h ps w (d'&[= -> ->]&[j Hj]%list_elem_of_lookup_1)%list_elem_of_fmap [b Hw]%list_elem_of_lookup_1.
  destruct (get_damaged id fr cache j d' b (k, w)) as (cache3&Hg'&_); [done..|]. cbn [fst snd] in Hg'.
  rewrite Hg in Hg'. by injection Hg'.
Qed.
End faulty.

(** *** Reading blocks *)

Context (file g : bytes) (damage : BlockHandle → option Status).
Context (Hread : reads_blocks o (BufferBackedFile file) V) (Hdmg : damaged o file g seen_blocks damage).

Abbreviation table_at id fr := (opened_at o V (BufferBackedFile g) id fr).

(** The cache has none of the damaged blocks, and the others as they are. *)
Definition cold (id : Z) (cache : Cache Block) : Prop :=
  ∃ xs, cache_rep cache xs ∧ entries_ok o V (λ _ _, True) id xs ∧
    ∀ i d, ds !! i = Some d → damage (d_handle d) ≠ None → lru_lookup xs (cache_key id (d_off d)) = None.

Lemma read_damaged i d :
  ds !! i = Some d → read_table_block o (BufferBackedFile g) (d_handle d) =
    Done (match damage (d_handle d) with Some e => Err e | None => Ok (mkBlock (d_contents d) o) end).
Proof.
  intros Hd. rewrite (dm_blocks _ _ _ _ _ Hdmg (d_handle d) (d_kvs d)).
  - destruct (damage (d_handle d)); [done|]. by apply (Hread i).
  - apply list_elem_of_fmap. exists d. split; [done|]. by eapply list_elem_of_lookup_2.
Qed.

Lemma cold_insert id xs n i d :
  entries_ok o V (λ _ _, True) id xs → ds !! i = Some d → damage (d_handle d) = None →
  (∀ i d, ds !! i = Some d → damage (d_handle d) ≠ None → lru_lookup xs (cache_key id (d_off d)) = None) →
  ∀ j d', ds !! j = Some d' → damage (d_handle d') ≠ None →
    lru_lookup (lru_insert n xs (cache_key id (d_off d)) (mkBlock (d_contents d) o)) (cache_key id (d_off d')) = None.
Proof.
  intros Hxs Hd Hdam Hcold j d' Hd' Hb. destruct (lru_lookup (lru_insert _ _ _ _) _) as [b|] eqn:Hw; [|done].
  apply lookup_insert_lru in Hw as [[Hk _]|Hw]; [|by rewrite (Hcold j d') in Hw].
  apply cache_key_inj in Hk; [|by eapply (dblk_off o V kvs HV)..].
  pose proof (vo_off_inj _ _ _ HV j i d' d Hd' Hd Hk) as ->. rewrite Hd in Hd'. injection Hd' as <-.
  by rewrite Hdam in Hb.
Qed.

Lemma read_block_damaged id fr cache i d :
  cold id cache → ds !! i = Some d →
  ∃ cache', fetch_block (table_at id fr) (d_handle d) cache =
      Done (match damage (d_handle d) with Some e => Err e | None => Ok (mkBlock (d_contents d) o) end, cache') ∧
    cold id cache'.
Proof.
  intros (xs&Hr&Hxs&Hcold) Hd. unfold fetch_block, Cache_source. pose proof (read_damaged i d Hd) as Hrd.
  destruct (read_block_lru (table_at id fr) (d_handle d) cache xs _ Hr Hrd) as (cache'&->&_&Hr').
  exists cache'. change (t_cache_id (table_at id fr)) with id in *.
  change (bh_offset (d_handle d)) with (d_off d) in *.
  destruct (lru_lookup xs (cache_key id (d_off d))) as [blk|] eqn:Hl.
  - rewrite (entries_ok_hit o V kvs HV (λ _ _, True) id xs i d blk Hxs Hd Hl).
    destruct (damage (d_handle d)) eqn:Hdam; [by rewrite (Hcold i d Hd) in Hl by congruence|].
    split; [done|]. eexists. split; [exact Hr'|].
    split; [by apply entries_ok_get|]. intros j d' Hd' Hb. rewrite lookup_get. by apply (Hcold j d').
  - split; [done|]. destruct (damage (d_handle d)) as [e|] eqn:Hdam.
    + eexists. split; [exact Hr'|]. split; [by apply entries_ok_get|].
      intros j d' Hd' Hb. rewrite lookup_get. by apply (Hcold j d').
    + eexists. split; [exact Hr'|]. split; [by apply (entries_ok_insert o V kvs HV _ id xs _ i d)|].
      by apply (cold_insert id xs _ i d).
Qed.
End damage.

(** ** Opening *)

Section opening.
Context `{E : IntegerEncoding, !IntegerEncodingSpec E, C : Crc32c, !Crc32cSpec C, Sn : Snappy}.
Context (o : Options) `{!CmpOrder (opt_cmp o)}.

Abbreviation filter_name := (filter_key (fp_name (filter_policy o))).

(** [file] has its data blocks in front, as LevelDB writes them: what
    [Table::new] reads is behind them. *)
Record data_first (V : table_view) (file : bytes) : Prop := {
  df_index : data_end (seen_blocks V) ≤ bh_offset (f_index (v_footer V));
  df_meta : data_end (seen_blocks V) ≤ bh_offset (meta_index (v_footer V));
  df_footer : data_end (seen_blocks V) ≤ len file - 48;
  df_filter metas contents h :
    stored_at file (meta_index (v_footer V)) contents → block_of o metas contents → nonempty_keys metas →
    wf_handle h → (filter_name, handle_bytes h) ∈ metas → data_end (seen_blocks V) ≤ bh_offset h;
}.

(** A strict table with its data blocks in front. *)
Definition strict_table_data_first (kvs : list (bytes * bytes)) (file : bytes) : Prop :=
  ∃ V fr, table_file o kvs V fr file ∧ strict_seps o V ∧ data_first V file.

(** The damaged file opens as the whole one does. *)
Lemma damaged_opens kvs V fr file g damage :
  table_file o kvs V fr file → data_first V file → damaged o file g (seen_blocks V) damage →
  opens o V (BufferBackedFile g) (len g) fr.
Proof.
  intros Htf [Hix Hme Hft Hfl] [Hlen Hrest _]. pose proof (data_end_nonneg (seen_blocks V)) as Hn.
  destruct (table_file_opens o _ _ _ _ Htf) as [Hf Hi _].
  destruct Htf as [_ Hsz _ _ (metas&m&Hst&Hb&Hk&Hm&Hfr) _ _].
  split.
  - rewrite Hlen, (read_footer_same file g (data_end (seen_blocks V))); [exact Hf|done|done|lia].
  - rewrite (read_table_block_same file g (data_end (seen_blocks V))); [exact Hi|done|done|lia].
  - exists (mkBlock m o). split.
    + rewrite (read_table_block_same file g (data_end (seen_blocks V))); [|done|done|lia].
      by eapply read_format_block.
    + destruct Hfr as [Hno|p fs r Hin Heq Hfs]; [by eapply read_filter_none|].
      set (h := mkBlockHandle (len p) (len (fb_layout fs))) in *.
      assert (Hh : wf_handle h).
      { rewrite Heq, !len_app in Hsz. pose proof (len_nonneg p). pose proof (len_nonneg r).
        pose proof (len_nonneg (fb_layout fs)). split; cbn; lia. }
      eapply (read_filter_some o _ metas m h fs); [done..|].
      rewrite (read_bytes_same file g (data_end (seen_blocks V))); [|done|done|].
      * rewrite Heq. apply read_bytes_mid.
      * pose proof (Hfl metas m h Hst Hb Hk Hh Hin). lia.
Qed.
End opening.

(** *** Built tables have their data blocks in front *)

Section built.
Context `{E : IntegerEncoding, !IntegerEncodingSpec E, C : Crc32c, !Crc32cSpec C, Sn : Snappy, !SnappySpec Sn}.
Context (o : Options) `{!CmpOrder (opt_cmp o), !CmpSep (opt_cmp o), !CmpNil (opt_cmp o)}.
Context (fits : list bytes → Prop).
Context `{!FilterPolicySpec (filter_policy o) fits, !FilterPolicyNonempty (filter_policy o) fits}.

(** A block holds one list of pairs. *)
Lemma block_of_inj l1 l2 b :
  block_of o l1 b → block_of o l2 b → nonempty_keys l1 → nonempty_keys l2 → len b < U32 → l1 = l2.
Proof.
  intros H1 H2 Hk1 Hk2 Hb.
  assert (Hdrain : ∀ l, block_of o l b → nonempty_keys l →
    ∃ it it', Block_iter (mkBlock b o) = Done it ∧ drain (S (length b)) it = Done (l, it')).
  { intros l Hl Hk. destruct (built_iter o l b Hk Hl Hb) as (it&Hit&Hr).
    pose proof (built_forward o l b Hb) as HF.
    destruct (drain_spec l _ (S (length b)) it None Hr) as (it'&Hd&_); [|by exists it, it'].
    pose proof (built_length _ _ _ Hl Hk). simpl. lia. }
  destruct (Hdrain l1 H1 Hk1) as (it1&?&Hi1&Hd1), (Hdrain l2 H2 Hk2) as (it2&?&Hi2&Hd2).
  rewrite Hi1 in Hi2. injection Hi2 as <-. rewrite Hd1 in Hd2. by injection Hd2.
Qed.

Lemma built_data_first w (Hfmt : same_format w o) T kvs :
  table_of w kvs T → 0 < block_restart_interval w → len (table_bytes w T) < U32 →
  data_first o (built_view w T) (table_bytes w T).
Proof.
  intros HT Hri Hsize. pose proof (table_len w T kvs HT) as Htl. destruct (parts_nonneg w T) as (?&?&?&?).
  assert (Hend : 0 ≤ data_end (seen_blocks (built_view w T)) ≤ len (image w (p_blocks T))).
  { apply data_end_le; [|lia]. intros h ps (d&[= -> ->]&[i Hi]%list_elem_of_lookup_1)%list_elem_of_fmap.
    change (p_blocks T !! i = Some d) in Hi.
    destruct (block_in_file w T kvs HT i d Hi) as (r&_&Hoff). cbn. rewrite Hoff.
    pose proof (image_take_le_take w (p_blocks T) (S i) (length (p_blocks T))) as Hle.
    rewrite (take_S_r _ _ d Hi), image_snoc, len_app, len_stored, firstn_all in Hle.
    apply lookup_lt_Some in Hi. specialize (Hle ltac:(lia)). lia. }
  split; cbn [built_view v_footer table_footer f_index meta_index bh_offset index_handle meta_handle]; [lia..|].
  intros metas m h Hst Hb Hk Hh Hin.
  destruct (meta_block w o Hfmt Hri T kvs HT Hsize) as [Hmb Hmsz].
  assert (m = p_meta T) as ->.
  { assert (Hu : len (table_bytes w T) < U64) by (unfold U32, U64 in *; lia).
    pose proof (read_format_block o _ _ _ _ Hst Hb Hu) as Hr.
    rewrite (read_format_block o _ _ _ _ (meta_stored w T kvs HT) Hmb Hu) in Hr. by injection Hr. }
  rewrite (block_of_inj metas _ _ Hb Hmb Hk) in Hin; [|by apply Forall_singleton|done].
  apply list_elem_of_singleton in Hin. injection Hin as Heq.
  assert (Hf : wf_handle (filter_handle w T)) by (unfold filter_handle; split; cbn; unfold U32, U64 in *; lia).
  pose proof (BlockHandle_decode_bytes h [] Hh) as Hdec. rewrite Heq in Hdec.
  rewrite (BlockHandle_decode_bytes _ [] Hf) in Hdec. assert (h = filter_handle w T) as -> by congruence.
  unfold filter_handle. cbn [bh_offset]. lia.
Qed.

(** Built tables are such files. *)
Lemma built_strict_data_first kvs file :
  built_table o fits kvs file → separable (opt_cmp o) kvs → strict_table_data_first o kvs file.
Proof.
  intros Hb Hsep. destruct (built_writer o fits kvs file Hb) as (w&T&Hfmt&Hri&HT&->).
  destruct Hb as [_ Hs Hk Hfit Hsz].
  destruct (built_table_file w o Hfmt Hri T kvs HT Hsz Hs Hk fits Hfit) as (fs&_&_&Htf).
  eexists (built_view w T), _. split; [exact Htf|]. split.
  - eapply chosen_strict; [apply Htf|done|by eapply built_chosen_seps].
  - by eapply built_data_first.
Qed.
End built.

(** ** Properties *)

Section properties.
Context `{E : IntegerEncoding, !IntegerEncodingSpec E, C : Crc32c, !Crc32cSpec C, Sn : Snappy}.
Context (o : Options) `{!CmpOrder (opt_cmp o)}.

Lemma good_pairs_seen (damage : BlockHandle → option Status) (ds : list dblk) :
  mjoin (filter (λ b, damage b.1 = None) ((λ d, (d_handle d, d_kvs d)) <$> ds)).*2 = good_pairs damage ds.
Proof.
  induction ds as [|d ds IH]; [done|]. rewrite fmap_cons, good_pairs_cons.
  destruct (decide (damage (d_handle d) = None)).
  - rewrite filter_cons_True by done. cbn. f_equal. exact IH.
  - by rewrite filter_cons_False.
Qed.

Lemma good_pairs_length (damage : BlockHandle → option Status) (ds : list dblk) :
  (length (good_pairs damage ds) ≤ length (mjoin (d_kvs <$> ds)))%nat.
Proof.
  induction ds as [|d ds IH]; [done|]. rewrite good_pairs_cons, fmap_cons, mjoin_cons, !length_app.
  case_decide; simpl; lia.
Qed.

(** C11. Damage to some data blocks of a table does not spread. Let a strict
    table, whoever wrote it, have its data blocks in front, as the builder
    writes them ([built_strict_data_first]). Let another file differ from it only
    there, in such a way that reading a damaged block is an error (a checksum that
    does not match, say). It still opens; iteration yields the pairs of all other
    blocks, in order, and skips the damaged ones; and each lookup of a key that
    was added returns its value, or the error of the block it was in. *)
Theorem Table_survives_damage kvs file g cache t cache1 bs damage keys :
  strict_table_data_first o kvs file → cache_ids cache →
  Table_new o (BufferBackedFile file) (len file) cache = Done (Ok t, cache1) →
  data_blocks t = Done (Ok bs) → damaged o file g bs damage → Forall (λ key, key ∈ kvs.*1) keys →
  mjoin bs.*2 = kvs ∧
  ∃ t' cache1' it s' rs cache2',
    Table_new o (BufferBackedFile g) (len g) cache = Done (Ok t', cache1') ∧ table_iter t' = Done it ∧
    drain (S (length kvs)) (it, cache1') = Done (mjoin (filter (λ b, damage b.1 = None) bs).*2, s') ∧
    valid s' = false ∧ try_gets t' keys cache1' = Done (rs, cache2') ∧
    Forall2 (λ key r, ∀ h ps v, (h, ps) ∈ bs → (key, v) ∈ ps →
      r = match damage h with Some e => Err e | None => Ok (Some v) end) keys rs.
Proof.
  intros (V&fr&Htf&Hstrict&Hfirst) (Hid&xs&Hr&Hxs) Hopen Hbs Hdmg Hin.
  pose proof (table_file_opens o _ _ _ _ Htf) as Hnew. apply (opens_new o _ _ _ _ cache) in Hnew.
  unfold new_cache_id in Hnew. rewrite uadd_Done in Hnew by lia.
  rewrite Hnew in Hopen. injection Hopen as <- <-.
  pose proof (tf_view _ _ _ _ _ Htf) as HV. pose proof (table_file_reads o _ _ _ _ Htf) as Hread.
  rewrite (data_blocks_ok o V kvs HV) in Hbs by done. injection Hbs as <-.
  pose proof (damaged_opens o _ _ _ _ _ _ Htf Hfirst Hdmg) as Hnew'.
  pose proof (tf_filters _ _ _ _ _ Htf) as Hfr. apply (opens_new o _ _ _ _ cache) in Hnew'.
  unfold new_cache_id in Hnew'. rewrite uadd_Done in Hnew' by lia. cbn [bind] in Hnew'.
  set (id := cache_id cache + 1) in *. set (cache1' := mkCache _ _ _ id) in *.
  assert (Hnone : ∀ off, lru_lookup xs (cache_key id off) = None).
  { intros off. destruct (lru_lookup xs (cache_key id off)) as [blk|] eqn:Hl; [|done].
    apply Hxs in Hl as (id'&off'&Heq&Hle). apply cache_key_ids in Heq as []; unfold id in *; lia. }
  assert (Hcold : cold o V damage id cache1').
  { exists xs. split; [by apply cache_rep_id|]. split; [|by intros i d _ _; apply Hnone].
    split; [|done]. intros off blk _ Hl. by rewrite Hnone in Hl. }
  split. { unfold seen_blocks. rewrite <- (vo_kvs _ _ _ HV), <- list_fmap_compose. done. }
  destruct (table_start o V kvs HV (BufferBackedFile g) id fr) as (ib&Hit&Hrep).
  set (t' := opened_at o V (BufferBackedFile g) id fr) in *.
  pose proof (read_block_damaged o V kvs HV _ g damage Hread Hdmg) as Hfaulty.
  destruct (drain_damaged o V kvs HV damage _ _ Hfaulty id fr (S (length kvs))
    (mkTableIterator t' None 0 ib, cache1') (good_pairs damage (v_blocks V))) as (s'&Hd&Hv).
  { split; [done|]. split; [done|]. left. split; [done|]. by exists None. }
  { pose proof (good_pairs_length damage (v_blocks V)) as Hl. rewrite (vo_kvs _ _ _ HV) in Hl. lia. }
  destruct (try_gets_damaged o V kvs HV damage _ _ Hfaulty id fr cache1' keys Hstrict Hcold Hfr Hin)
    as (rs&cache2'&?&?).
  exists t', cache1', (mkTableIterator t' None 0 ib), s', rs, cache2'.
  unfold seen_blocks. by rewrite good_pairs_seen.
Qed.
End properties.
