(* ===== verification/TableEdges.v ===== *)
(** * Tables where separators have no room (src/table_reader.rs)

    What lookups, seeks and backward steps do at the boundaries of blocks, for
    every table that was built and with no condition on its separators: which
    keys are found, where [seek] leaves an iterator that it sends to the wrong
    block, and what follows [prev] at the first pair. *)

From S2P Require Export TableDamage.

Section edges.
Context `{E : IntegerEncoding, !IntegerEncodingSpec E, C : Crc32c, !Crc32cSpec C, Sn : Snappy, !SnappySpec Sn}.
Context (o : Options) `{!CmpOrder (opt_cmp o), !CmpSep (opt_cmp o), !CmpNil (opt_cmp o)}.
Context (fits : list bytes → Prop).
Context `{!FilterPolicySpec (filter_policy o) fits, !FilterPolicyNonempty (filter_policy o) fits}.

Abbreviation c := (opt_cmp o).
Abbreviation open_table file cache := (Table_new o (BufferBackedFile file) (len file) cache).
Abbreviation handled_pairs := (list (BlockHandle * list (bytes * bytes))).

(** The separator between block [i] and the next, as the comparator makes it. *)
Definition separator (bs : handled_pairs) (i : nat) : option bytes :=
  '(_, ps) ← bs !! i; '(_, ps') ← bs !! S i; a ← last ps; b ← head ps';
  match find_shortest_sep c a.1 b.1 with
  | Done s => Some s
  | _ => None
  end.

(** A key of block [j] is hidden if the separator in front of the block is not
    below it. *)
Definition hidden (bs : handled_pairs) (j : nat) (key : bytes) : bool :=
  match j with
  | O => false
  | S i => match separator bs i with
           | Some s => negb (is_lt (cmp c s key))
           | None => false
           end
  end.

(** *** The blocks of a view *)

Section view.
Context (V : table_view) (kvs : list (bytes * bytes)) (HV : view_of o kvs V) (Hch : chosen_seps o V).

Abbreviation ds := (v_blocks V).

Lemma seen_lookup j h ps :
  seen_blocks V !! j = Some (h, ps) → ∃ d, ds !! j = Some d ∧ h = d_handle d ∧ ps = d_kvs d.
Proof.
  unfold seen_blocks. rewrite list_lookup_fmap. destruct (ds !! j) as [d|]; [|done].
  intros [= <- <-]. by exists d.
Qed.

Lemma seen_lookup_2 j d : ds !! j = Some d → seen_blocks V !! j = Some (d_handle d, d_kvs d).
Proof. intros Hd. unfold seen_blocks. by rewrite list_lookup_fmap, Hd. Qed.

Lemma last_pair i d : ds !! i = Some d → ∃ a, last (d_kvs d) = Some a ∧ last_of (d_kvs d) = a.1.
Proof.
  intros Hd. destruct (last (d_kvs d)) as [a|] eqn:Hl.
  - exists a. split; [done|]. unfold last_of. by rewrite Hl.
  - apply last_None in Hl. by destruct (vb_nonempty _ _ (dblk_view o V kvs HV i d Hd)).
Qed.

(** The index has the comparator's separators. *)
Lemma separator_ok i d d' :
  ds !! i = Some d → ds !! S i = Some d' → separator (seen_blocks V) i = Some (d_sep d).
Proof.
  intros Hd Hd'. unfold separator. rewrite (seen_lookup_2 i d Hd), (seen_lookup_2 (S i) d' Hd').
  cbn [mbind option_bind]. destruct (last_pair i d Hd) as (a&Ha&Hl). rewrite Ha.
  destruct (dblk_first o V kvs HV _ d' Hd') as [b Hb]. rewrite <- head_lookup in Hb. rewrite Hb.
  cbn [mbind option_bind]. rewrite <- Hl. by rewrite (Hch i d d' b Hd Hd' Hb).
Qed.

(** Separators before the one in front of a block are below its keys. *)
Lemma sep_before_below i j d d' a kv :
  (S i < j)%nat → ds !! i = Some d → ds !! j = Some d' → d_kvs d' !! a = Some kv →
  cmp c (d_sep d) kv.1 = Lt.
Proof.
  intros Hij Hd Hd' Ha. destruct (lookup_lt_is_Some_2 ds (S i)) as [d1 Hd1]; [apply lookup_lt_Some in Hd'; lia|].
  destruct (dblk_first o V kvs HV _ d1 Hd1) as [b Hb].
  apply (cmp_le_lt_trans _ b.1); [apply (sep_below_key o V kvs HV i (S i) d d1 0 b); [lia|done..]|].
  pose proof (start_mono ds (S (S i)) j ltac:(lia)) as Hm. rewrite (start_S ds (S i) d1 Hd1) in Hm.
  apply lookup_lt_Some in Hb as Hlen.
  apply (sorted_lt c kvs (start ds (S i) + 0) (start ds j + a)); [apply HV|lia|..].
  - by apply (dblk_kvs_in o V kvs HV (S i) d1 0 b).
  - by apply (dblk_kvs_in o V kvs HV j d' a kv).
Qed.
(** *** Lookups *)

Section lookups.
Context (f : RandomAccess) {St : Type} {B : BlockSource St} (source_ok : Z → St → Prop).
Context (Hsource : BlockSourceSpec o V f B source_ok).

(** A hidden key: the index leads to the block before, and [get] gives up at its
    separator. *)
Lemma get_hidden id fr (cache : St) i d d' a kv :
  ds !! i = Some d → ds !! S i = Some d' → d_kvs d' !! a = Some kv → cmp c (d_sep d) kv.1 ≠ Lt →
  table_get (opened_at o V f id fr) kv.1 cache = Done (Ok None, cache).
Proof.
  intros Hd Hd' Ha Hge. unfold table_get. cbn [t_index_block opened_at].
  destruct (index_seek o V kvs HV kv.1) as (it&it'&->&Hs&Hcur). cbn [bind]. rewrite Hs. cbn [bind]. rewrite Hcur.
  assert (Hix : find_ge c kv.1 (index_kvs ds) = Some i).
  { apply (find_ge_Some c kv.1 _ i _ (index_lookup V i d Hd)); [done|].
    intros j kv' Hj (d0&Hd0&->)%index_lookup_inv. by apply (sep_before_below j (S i) d0 d' a kv); [lia|..]. }
  rewrite Hix. cbn [mbind option_bind bind]. rewrite (index_lookup V i d Hd). cbn [t_opt opened_at].
  pose proof (sep_below_key o V kvs HV i (S i) d d' a kv ltac:(lia) Hd Hd' Ha) as Hle.
  rewrite cmp_opp. by destruct (cmp c (d_sep d) kv.1).
Qed.

(** [get] of any present key. *)
Lemma get_present id fr cache j d a kv :
  source_ok id cache → filters_ok V fr → ds !! j = Some d → d_kvs d !! a = Some kv →
  ∃ cache', table_get (opened_at o V f id fr) kv.1 cache =
      Done (Ok (if hidden (seen_blocks V) j kv.1 then None else Some kv.2), cache') ∧ source_ok id cache'.
Proof.
  intros Hc Hfs Hd Ha.
  assert (Hcase : hidden (seen_blocks V) j kv.1 = false ∧ find_ge c kv.1 (index_kvs ds) = Some j ∨
    hidden (seen_blocks V) j kv.1 = true ∧ ∃ i d0, j = S i ∧ ds !! i = Some d0 ∧ cmp c (d_sep d0) kv.1 ≠ Lt).
  { destruct j as [|i].
    { left. split; [done|]. apply (index_find_below o V kvs HV 0 d a kv Hd Ha). intros; lia. }
    destruct (lookup_lt_is_Some_2 ds i) as [d0 Hd0]; [apply lookup_lt_Some in Hd; lia|].
    cbn [hidden]. rewrite (separator_ok i d0 d Hd0 Hd). destruct (cmp c (d_sep d0) kv.1) eqn:Hs; cbn.
    - right. split; [done|]. exists i, d0. by rewrite Hs.
    - left. split; [done|]. apply (index_find_below o V kvs HV (S i) d a kv Hd Ha).
      intros j d' Hj Hd'. destruct (decide (j = i)) as [->|].
      + rewrite Hd0 in Hd'. by injection Hd' as <-.
      + by apply (sep_before_below j (S i) d' d a kv); [lia|..].
    - right. split; [done|]. exists i, d0. by rewrite Hs. }
  destruct Hcase as [[-> Hix]|(->&i&d0&->&Hd0&Hs)].
  - rewrite (table_get_routes o V kvs HV f id fr cache j d a kv) by done.
    destruct (get_in_block_ok o V kvs HV f source_ok Hsource id fr cache j d kv.1 Hc Hd) as (cache'&Hg&?).
    exists cache'. split; [|done]. by rewrite Hg, (find_present o V kvs HV j d a kv).
  - exists cache. split; [|done]. by apply (get_hidden id fr cache i d0 d a).
Qed.
End lookups.

(** *** Seeking into a gap *)

Section seeks.
Context (f : RandomAccess) {St : Type} {B : BlockSource St} (source_ok : Z → St → Prop).
Context (Hsource : BlockSourceSpec o V f B source_ok).

(** The index leads to the block in front of the gap. *)
Lemma gap_index i d a to :
  ds !! i = Some d → last (d_kvs d) = Some a → cmp c a.1 to = Lt → cmp c to (d_sep d) ≠ Gt →
  find_ge c to (index_kvs ds) = Some i ∧ find_ge c to (d_kvs d) = None.
Proof.
  intros Hd Ha Hlt Hle. rewrite last_lookup in Ha.
  assert (Hbelow : ∀ n kv, d_kvs d !! n = Some kv → cmp c kv.1 to = Lt).
  { intros n kv Hn. apply lookup_lt_Some in Hn as Hlen.
    destruct (decide (n = pred (length (d_kvs d)))) as [->|]; [rewrite Ha in Hn; by injection Hn as <-|].
    apply (cmp_lt_trans _ a.1); [|done].
    by apply (sorted_lt c (d_kvs d) n (pred (length (d_kvs d)))); [apply (dblk_sorted o V kvs HV i)|lia|..]. }
  split; [|by apply find_ge_None].
  apply (find_ge_Some c to _ i _ (index_lookup V i d Hd)); [cbn; intros Hc; apply Hle; by rewrite cmp_opp, Hc|].
  intros j kv' Hj (d'&Hd'&->)%index_lookup_inv. cbn.
  apply (cmp_le_lt_trans _ a.1); [|done]. by apply (sep_below_key o V kvs HV j i d' d (pred (length (d_kvs d))) a).
Qed.

Lemma seek_gap id fr s i d a sep to :
  roams o V f source_ok id fr s → ds !! i = Some d → last (d_kvs d) = Some a →
  separator (seen_blocks V) i = Some sep → cmp c a.1 to = Lt → cmp c to sep ≠ Gt →
  is_Some (find_ge c to kvs) ∧
  ∃ kv s' s'', head (d_kvs d) = Some kv ∧ cmp c kv.1 to = Lt ∧ seek s to = Done s' ∧ valid s' = false ∧
    advance s' = Done (true, s'') ∧ current_key_val s'' = Done (Some kv).
Proof.
  intros Hs Hd Ha Hsep Hlt Hle.
  assert (Hd' : ∃ d', ds !! S i = Some d').
  { destruct (ds !! S i) as [d'|] eqn:Hd'; [by exists d'|]. unfold separator, seen_blocks in Hsep.
    rewrite !list_lookup_fmap, Hd, Hd' in Hsep. done. }
  destruct Hd' as [d' Hd']. rewrite (separator_ok i d d' Hd Hd') in Hsep. injection Hsep as <-.
  destruct (gap_index i d a to Hd Ha Hlt Hle) as [Hix Hnone].
  destruct (dblk_first o V kvs HV i d Hd) as [kv Hkv]. destruct (dblk_first o V kvs HV (S i) d' Hd') as [b Hb].
  split.
  - destruct (find_ge c to kvs) eqn:Hall; [done|]. exfalso. rewrite find_ge_None in Hall.
    pose proof (Hall _ b (dblk_kvs_in o V kvs HV (S i) d' 0 b Hd' Hb)) as Hbt.
    apply (sep_below_key o V kvs HV i (S i) d d' 0 b ltac:(lia) Hd Hd' Hb), cmp_gt_lt.
    by apply (cmp_lt_le_trans _ to).
  - destruct (seek_into_block o V kvs HV f source_ok Hsource id fr s to i d Hs Hix Hd)
      as (ib&cb&cache'&Hseek&Hc'&Hib&Hcb). rewrite Hnone in Hcb.
    pose proof (data_forward o V kvs HV i d Hd) as HF.
    destruct (advance_more cb None kv Hcb Hkv) as (cb'&Hadv&Hr'). cbn in Hadv.
    exists kv. do 2 eexists. split; [by rewrite head_lookup|].
    split; [by apply (proj1 (find_ge_None c to (d_kvs d)) Hnone 0%nat)|]. split; [exact Hseek|].
    split; [exact (valid_rep (SSIteratorForward := HF) cb None Hcb)|]. split.
    + cbn [advance TableIterator_SSIterator fst snd]. unfold advance_fuel. rewrite ti_advance_S.
      cbn [current_block]. rewrite Hadv. done.
    + unfold current_key_val. cbn [current TableIterator_SSIterator fst]. unfold ti_current.
      cbn [current_block set_current_block].
      pose proof (current_some (SSIteratorForward := HF) cb' 0 kv [] [] Hr' Hkv) as Hcur. cbn in Hcur.
      rewrite Hcur. cbn [bind]. by destruct kv.
Qed.
End seeks.
End view.
(** *** What clients see *)

(** A built table that was opened, and its blocks. *)
Lemma open_blocks kvs file cache ms :
  built_table o fits kvs file → cache_ids cache →
  ∃ V fr t cache1 it s, readable o kvs V (BufferBackedFile file) fr ∧ chosen_seps o V ∧
    open_table file cache = Done (Ok t, cache1) ∧ t = opened_at o V (BufferBackedFile file) (cache_id cache + 1) fr ∧
    data_blocks t = Done (Ok (seen_blocks V)) ∧ table_iter t = Done it ∧ foldM table_move ms (it, cache1) = Done s ∧
    roams o V (BufferBackedFile file) (cache_ok o V (λ _ _, True)) (cache_id cache + 1) fr s.
Proof.
  intros Hb Hids.
  destruct (open_roam o fits kvs file cache ms Hb Hids) as (V&fr&t&cache1&it&s&Hrd&Hch&Hnew&->&Hit&Hms&Hs).
  exists V, fr. eexists _, cache1, it, s. split; [done|]. split; [done|]. split; [done|]. split; [done|].
  split; [|done]. apply (data_blocks_ok o V kvs); apply Hrd.
Qed.

Lemma seen_pairs V kvs : view_of o kvs V → mjoin (seen_blocks V).*2 = kvs.
Proof. intros HV. unfold seen_blocks. rewrite <- (vo_kvs _ _ _ HV), <- list_fmap_compose. done. Qed.

(** Lookups of present keys, one after the other. *)
Lemma gets_present V kvs f fr id cache keys :
  readable o kvs V f fr → chosen_seps o V → cache_ok o V (λ _ _, True) id cache →
  Forall (λ key, key ∈ kvs.*1) keys →
  ∃ xs cache', table_gets (opened_at o V f id fr) keys cache = Done (Ok xs, cache') ∧
    Forall2 (λ key x, ∀ j h ps v, seen_blocks V !! j = Some (h, ps) → (key, v) ∈ ps →
      x = if hidden (seen_blocks V) j key then None else Some v) keys xs.
Proof.
  intros [HV Hread Hfr] Hch Hc Hin. pose proof (cache_source_ok o V kvs HV f Hread (λ _ _, True)) as Hsrc.
  revert cache Hc. induction Hin as [|key keys Hkey _ IH]; intros cache Hc; [by exists [], cache|].
  apply list_elem_of_fmap in Hkey as ([k v]&->&[n Hn]%list_elem_of_lookup_1).
  rewrite <- (vo_kvs _ _ _ HV) in Hn. apply find_block in Hn as (i&d&a&Hd&Ha&_).
  destruct (get_present V kvs HV Hch f _ Hsrc id fr cache i d a (k, v) Hc Hfr Hd Ha) as (cache1&Hg&Hc1).
  destruct (IH cache1 Hc1) as (xs&cache2&Hgs&Hall). eexists (_ :: xs), cache2. cbn [table_gets fst snd] in *.
  rewrite Hg. unfold st_bind at 1. cbn [bind]. rewrite Hgs. split; [done|]. constructor; [|done].
  intros j h ps w (d'&Hd'&->&->)%seen_lookup [b Hw]%list_elem_of_lookup_1.
  destruct (get_present V kvs HV Hch f _ Hsrc id fr cache j d' b (k, w) Hc Hfr Hd' Hw) as (cache3&Hg'&_).
  cbn [fst snd] in Hg'. rewrite Hg in Hg'. by injection Hg'.
Qed.

(** C36. What a lookup of a key that was added returns, with no condition on
    separators. In a built table, with a filter policy whose filters are not
    empty, it is the value of the key, unless the key is [hidden]: the separator
    of the comparator between its block and the one before is not below the key.
    Then the answer is [None], although the table has the key and iteration
    yields it. With the default order, a key is hidden if it is the first of a
    block, and the key before followed by a zero byte
    ([find_shortest_sep_separates]). *)
Theorem Table_get_present kvs file cache keys :
  built_table o fits kvs file → cache_ids cache → Forall (λ key, key ∈ kvs.*1) keys →
  ∃ t cache1 bs xs cache2, open_table file cache = Done (Ok t, cache1) ∧ data_blocks t = Done (Ok bs) ∧
    mjoin bs.*2 = kvs ∧ table_gets t keys cache1 = Done (Ok xs, cache2) ∧
    Forall2 (λ key x, ∀ j h ps v, bs !! j = Some (h, ps) → (key, v) ∈ ps →
      x = if hidden bs j key then None else Some v) keys xs.
Proof.
  intros Hb Hids Hin.
  destruct (open_idle o fits kvs file cache Hb Hids) as (V&fr&cache1&Hrd&Hch&_&Hnew&Hc).
  destruct (gets_present V kvs _ fr _ cache1 keys Hrd Hch Hc Hin) as (xs&cache2&Hgs&Hall).
  eexists _, cache1, (seen_blocks V), xs, cache2. split; [done|].
  split; [apply (data_blocks_ok o V kvs); apply Hrd|]. split; [apply seen_pairs, Hrd|]. done.
Qed.

(** C37. Where [seek] goes wrong, with no condition on separators. Take a built
    table and its iterator after any moves, and a target above the last key of a
    block that is not the last, and at most the separator behind it. [seek]
    leaves the iterator invalid, although there is a pair whose key is at least
    the target; and [advance] then goes to the first pair of that block, whose
    key is below the target. *)
Theorem TableIterator_seek_in_gap kvs file cache ms :
  built_table o fits kvs file → cache_ids cache →
  ∃ t cache1 bs it s, open_table file cache = Done (Ok t, cache1) ∧ data_blocks t = Done (Ok bs) ∧
    mjoin bs.*2 = kvs ∧ table_iter t = Done it ∧ foldM table_move ms (it, cache1) = Done s ∧
    ∀ i h ps a sep to, bs !! i = Some (h, ps) → last ps = Some a → separator bs i = Some sep →
      cmp c a.1 to = Lt → cmp c to sep ≠ Gt →
      is_Some (find_ge c to kvs) ∧
      ∃ kv s' s'', head ps = Some kv ∧ cmp c kv.1 to = Lt ∧ seek s to = Done s' ∧ valid s' = false ∧
        advance s' = Done (true, s'') ∧ current_key_val s'' = Done (Some kv).
Proof.
  intros Hb Hids.
  destruct (open_blocks kvs file cache ms Hb Hids) as (V&fr&t&cache1&it&s&[HV Hread _]&Hch&Hnew&_&Hbs&Hit&Hms&Hs).
  exists t, cache1, (seen_blocks V), it, s. split; [done|]. split; [done|]. split; [by apply seen_pairs|].
  split; [done|]. split; [done|]. intros i h ps a sep to (d&Hd&->&->)%seen_lookup Ha Hsep Hlt Hle.
  pose proof (cache_source_ok o V kvs HV _ Hread (λ _ _, True)) as Hsrc.
  exact (seek_gap V kvs HV Hch _ _ Hsrc _ fr s i d a sep to Hs Hd Ha Hsep Hlt Hle).
Qed.

(** C38. What follows [prev] at the first pair, for any table: [prev] answers no
    and leaves the iterator invalid, but rewound to the start of the first block
    as well as of the index. Advancing from there yields the pairs of the first
    block, and then all pairs of the table, the first block's once more. *)
Theorem TableIterator_prev_first_repeats kvs file cache ms :
  built_table o fits kvs file → cache_ids cache → kvs ≠ [] →
  ∃ t cache1 bs it s s' h ps s'', open_table file cache = Done (Ok t, cache1) ∧ data_blocks t = Done (Ok bs) ∧
    table_iter t = Done it ∧ foldM table_move (ms ++ [MReset; MAdvance]) (it, cache1) = Done s ∧
    current_key_val s = Done (head kvs) ∧ prev s = Done (false, s') ∧ valid s' = false ∧
    head bs = Some (h, ps) ∧ drain (S (length ps + length kvs)) s' = Done (ps ++ kvs, s'') ∧ valid s'' = false.
Proof.
  intros Hb Hids Hne.
  destruct (open_blocks kvs file cache ms Hb Hids) as (V&fr&t&cache1&it&s0&[HV Hread _]&Hch&Hnew&_&Hbs&Hit&Hms&Hs).
  pose proof (cache_source_ok o V kvs HV _ Hread (λ _ _, True)) as Hsrc.
  set (id := cache_id cache + 1) in *. set (f := BufferBackedFile file) in *.
  pose proof (table_forward o V kvs HV f _ Hsrc id fr) as HF.
  pose proof (roams_reset_rep o V kvs HV f _ id fr s0 Hs) as Hr0.
  destruct kvs as [|kv l]; [done|].
  destruct (advance_more (SSIteratorForward := HF) (ti_reset s0.1, s0.2) None kv Hr0 eq_refl) as (s&Ha&Hr).
  destruct (table_prev_first o V _ HV f _ id fr s Hr) as (s'&d&Hp&Hv&Hrw).
  destruct (rewound_drain o V _ HV f _ Hsrc id fr (S (length (d_kvs d) + length (kv :: l))) s' d None Hrw)
    as (s''&Hdr&Hv'); [cbn [cursor_succ]; rewrite drop_0; lia|].
  pose proof Hrw as (_&_&Hd&_).
  exists t, cache1, (seen_blocks V), it, s, s', (d_handle d), (d_kvs d), s''.
  split; [done|]. split; [done|]. split; [done|]. split.
  { rewrite foldM_app, Hms. cbn [bind foldM table_move reset TableIterator_SSIterator]. by rewrite Ha. }
  split; [by rewrite (current_key_val_spec (SSIteratorForward0 := HF) (kv :: l) _ s _ Hr)|].
  split; [done|]. split; [done|]. split; [|done]. rewrite head_lookup. by apply seen_lookup_2.
Qed.
End edges.
