(* ===== verification/TableThreads.v ===== *)
(** * Tables used by several threads (src/table_reader.rs, src/types.rs)

    Tables of one [Options] share their block cache behind a lock, and a table
    may be cloned into other threads. Here each operation of table_reader.rs is
    a program that stops where it takes the lock: between two such points it
    works on data of its own or on data nobody changes. A pool of such programs
    runs by steps, each the critical section of one thread. *)

From S2P Require Export TableReader.
From stdpp Require Export relations.

(** ** Programs *)

(** A computation that is done, panicked, or about to take the lock: to read a
    block through the cache, or for a new cache identifier. It goes on with
    what that returns. *)
Inductive prog (A : Type) : Type :=
  | Ret (a : A)
  | Crash (f : fault)
  | ReadBlock (t : Table) (location : BlockHandle) (k : result Block → prog A)
  | NewCacheId (k : result Z → prog A).
Arguments Ret {A} a.
Arguments Crash {A} f.
Arguments ReadBlock {A} t location k.
Arguments NewCacheId {A} k.

Fixpoint pbind {A B} (p : prog A) (k : A → prog B) : prog B :=
  match p with
  | Ret a => k a
  | Crash f => Crash f
  | ReadBlock t location j => ReadBlock t location (λ r, pbind (j r) k)
  | NewCacheId j => NewCacheId (λ r, pbind (j r) k)
  end.

Notation "'do!' x ':=' p 'in' k" := (pbind p (λ x, k))
  (at level 10, x pattern, p at level 200, k at level 200,
   format "'[v' 'do!'  x  ':='  p  'in'  '/' k ']'") : rust_scope.

(** What needs no lock. *)
Definition compute {A} (m : outcome A) : prog A :=
  match m with
  | Done a => Ret a
  | Fail f => Crash f
  end.

(** [p?] *)
Definition ptry {A B} (p : prog (result A)) (k : A → prog (result B)) : prog (result B) :=
  do! r := p in
  match r with
  | Ok a => k a
  | Err e => Ret (Err e)
  end.

Notation "'do?' x ':=' p 'in' k" := (ptry p (λ x, k))
  (at level 10, x pattern, p at level 200, k at level 200,
   format "'[v' 'do?'  x  ':='  p  'in'  '/' k ']'") : rust_scope.

(** ** The operations of a table *)

Section operations.
Context `{E : IntegerEncoding, !Crc32c, !Snappy}.

Definition Table_new_t (opt : Options) (file : RandomAccess) (size : Z) : prog (result Table) :=
  do? footer := compute (read_footer file size) in
  do? index_block := compute (read_table_block opt file (f_index footer)) in
  do? metaindex_block := compute (read_table_block opt file (meta_index footer)) in
  do? filter_block_reader := compute (Table_read_filter_block metaindex_block file opt) in
  do? cache_id := NewCacheId Ret in
  Ret (Ok (mkTable file cache_id opt footer index_block filter_block_reader)).

Definition read_block_t (self : Table) (location : BlockHandle) : prog (result Block) :=
  ReadBlock self location Ret.

Definition get_in_block_t (self : Table) (key : bytes) (handle : BlockHandle) : prog (result (option bytes)) :=
  do? tb := read_block_t self handle in
  do! iter := compute (Block_iter tb) in
  do! iter := compute (bi_seek iter key) in
  do! kv := compute (current_key_val iter) in
  match kv with
  | Some (k, v) =>
      match cmp (opt_cmp (t_opt self)) k key with
      | Eq => Ret (Ok (Some v))
      | _ => Ret (Ok None)
      end
  | None => Ret (Ok None)
  end.

Definition table_get_t (self : Table) (key : bytes) : prog (result (option bytes)) :=
  do! index_iter := compute (Block_iter (t_index_block self)) in
  do! index_iter := compute (bi_seek index_iter key) in
  do! kv := compute (current_key_val index_iter) in
  match kv with
  | Some (last_in_block, h) =>
      match cmp (opt_cmp (t_opt self)) key last_in_block with
      | Lt =>
          do! (handle, _) := compute (BlockHandle_decode h) in
          do! may := compute match t_filters self with
                             | Some filters => fr_key_may_match filters (bh_offset handle) key
                             | None => Done true
                             end in
          if (may : bool) then get_in_block_t self key handle else Ret (Ok None)
      | _ => Ret (Ok None)
      end
  | None => Ret (Ok None)
  end.

(** *** The iterator *)

Implicit Types (self : TableIterator).

Definition load_block_t self (handle : bytes) : prog (result unit * TableIterator) :=
  do! (new_block_handle, _) := compute (BlockHandle_decode handle) in
  do! r := read_block_t (table self) new_block_handle in
  match r with
  | Ok block =>
      do! it := compute (Block_iter block) in
      Ret (Ok tt, mkTableIterator (table self) (Some it) (bh_offset new_block_handle) (ti_index_block self))
  | Err e => Ret (Err e, self)
  end.

Definition skip_to_next_entry_t self : prog (result bool * TableIterator) :=
  do! (kv, ib) := compute (next (ti_index_block self)) in
  let self := set_index_iter self ib in
  match kv with
  | Some (_, val) =>
      do! (r, self) := load_block_t self val in
      match r with
      | Ok _ => Ret (Ok true, self)
      | Err e => Ret (Err e, self)
      end
  | None => Ret (Ok false, self)
  end.

Definition after_skip_t (rec : TableIterator → prog (bool * TableIterator)) self : prog (bool * TableIterator) :=
  do! (r, self) := skip_to_next_entry_t self in
  match r with
  | Ok true => rec self
  | Ok false => Ret (false, ti_reset self)
  | Err _ => rec self
  end.

Fixpoint ti_advance_t (fuel : nat) self : prog (bool * TableIterator) :=
  match fuel with
  | O => Crash OutOfFuel
  | S n =>
      match current_block self with
      | None => after_skip_t (ti_advance_t n) self
      | Some cb =>
          do! (ok, cb) := compute (bi_advance cb) in
          let self := set_current_block self (Some cb) in
          if (ok : bool) then Ret (true, self)
          else after_skip_t (ti_advance_t n) (set_current_block self None)
      end
  end.

Definition ti_seek_t self (to : bytes) : prog TableIterator :=
  do! ib := compute (bi_seek (ti_index_block self) to) in
  let self := set_index_iter self ib in
  do! kv := compute (current_key_val (ti_index_block self)) in
  match kv with
  | Some (past_block, handle) =>
      match cmp (opt_cmp (t_opt (table self))) to past_block with
      | Gt => Ret (ti_reset self)
      | _ =>
          do! (r, self) := load_block_t self handle in
          match r with
          | Ok _ =>
              do! cb := compute (unwrap_block (current_block self)) in
              do! cb := compute (bi_seek cb to) in
              Ret (set_current_block self (Some cb))
          | Err _ => Ret (ti_reset self)
          end
      end
  | None => Ret (ti_reset self)
  end.

Definition prev_block_t self : prog (bool * TableIterator) :=
  do! (ok, ib) := compute (bi_prev (ti_index_block self)) in
  let self := set_index_iter self ib in
  if (ok : bool) then
    do! kv := compute (current_key_val (ti_index_block self)) in
    match kv with
    | Some (_, handle) =>
        do! (r, self) := load_block_t self handle in
        match r with
        | Ok _ =>
            do! cb := compute (unwrap_block (current_block self)) in
            do! cb := compute (seek_to_last cb) in
            Ret (bi_valid cb, set_current_block self (Some cb))
        | Err _ => Ret (false, ti_reset self)
        end
    | None => Ret (false, self)
    end
  else Ret (false, self).

Definition ti_prev_t self : prog (bool * TableIterator) :=
  match current_block self with
  | Some cb =>
      do! (ok, cb) := compute (bi_prev cb) in
      let self := set_current_block self (Some cb) in
      if (ok : bool) then Ret (true, self) else prev_block_t self
  | None => prev_block_t self
  end.
End operations.

(** ** Running one program alone *)

Section run.
Context {St : Type} {Src : BlockSource St} (new_id : St → outcome (result Z * St)).

Fixpoint run {A} (p : prog A) (st : St) : outcome (A * St) :=
  match p with
  | Ret a => Done (a, st)
  | Crash f => Fail f
  | ReadBlock t location k => let! (r, st) := fetch_block t location st in run (k r) st
  | NewCacheId k => let! (r, st) := new_id st in run (k r) st
  end.

Lemma run_bind {A B} (p : prog A) (k : A → prog B) st :
  run (pbind p k) st = let! (a, st) := run p st in run (k a) st.
Proof.
  revert st. induction p as [a|f|t h j IH|j IH]; intros st; cbn; [done|done|..].
  - destruct (fetch_block t h st) as [[r st']|f]; cbn; [apply IH|done].
  - destruct (new_id st) as [[r st']|f]; cbn; [apply IH|done].
Qed.

Lemma run_compute {A} (m : outcome A) st : run (compute m) st = let! a := m in Done (a, st).
Proof. by destruct m. Qed.

Lemma run_try {A B} (p : prog (result A)) (k : A → prog (result B)) st :
  run (ptry p k) st = st_bind (run p st) (λ a st, run (k a) st).
Proof. unfold ptry. rewrite run_bind. unfold st_bind. by destruct (run p st) as [[[a|e] st']|f]. Qed.
End run.

(** What an operation on an iterator returns, next to the state of its source. *)
Definition beside {A St} (r : A * (TableIterator * St)) : (A * TableIterator) * St :=
  ((r.1, r.2.1), r.2.2).

Definition map_outcome {A B} (f : A → B) (m : outcome A) : outcome B := let! a := m in Done (f a).

(** The two ways to write an operation agree. *)
Section agree.
Context `{E : IntegerEncoding} {St : Type} {Src : BlockSource St} (new_id : St → outcome (result Z * St)).
Implicit Types (self : TableIterator) (st : St).
Abbreviation run := (run new_id).

(** Follow both through their calls and case distinctions. *)
#[local] Ltac step := first
  [ done
  | rewrite run_bind | rewrite run_compute | rewrite run_try | rewrite bind_assoc
  | progress cbn [bind fst snd beside map_outcome]
  | match goal with
    | x : prod _ _ |- _ => destruct x
    | |- bind ?m _ = bind ?m _ => destruct m as [?|?]
    | |- bind ?m _ = map_outcome _ (bind ?m _) => destruct m as [?|?]
    | |- context [match ?x with _ => _ end] => destruct x
    end ].
#[local] Ltac follow := repeat step.

Lemma run_read_block t h st : run (read_block_t t h) st = fetch_block t h st.
Proof. unfold read_block_t. cbn. by destruct (fetch_block t h st) as [[r st']|f]. Qed.

Lemma run_get_in_block t key h st : run (get_in_block_t t key h) st = get_in_block t key h st.
Proof.
  unfold get_in_block_t, get_in_block. rewrite run_try, run_read_block. unfold st_bind.
  destruct (fetch_block t h st) as [[[tb|e] st']|f]; cbn [bind]; [|done..].
  repeat step; done.
Qed.

Lemma run_table_get t key st : run (table_get_t t key) st = table_get t key st.
Proof.
  unfold table_get_t, table_get. repeat (step; try apply run_get_in_block).
Qed.

(** An operation on an iterator. *)
Abbreviation same p m st := (run p st = map_outcome beside m).

Lemma bind_map {A A' A''} (f : A → A') (m : outcome A) (k : A' → outcome A'') :
  bind (map_outcome f m) k = let! a := m in k (f a).
Proof. by destruct m. Qed.

Lemma run_load_block self h st : same (load_block_t self h) (load_block self h st) st.
Proof. unfold load_block_t, load_block. repeat (step || rewrite run_read_block). Qed.

Lemma run_skip self st : same (skip_to_next_entry_t self) (skip_to_next_entry self st) st.
Proof. unfold skip_to_next_entry_t, skip_to_next_entry. repeat (step || rewrite run_load_block, bind_map). Qed.

Lemma run_after_skip rec_t rec self st :
  (∀ self st, same (rec_t self) (rec self st) st) →
  same (after_skip_t rec_t self) (after_skip rec self st) st.
Proof.
  intros Hrec. unfold after_skip_t, after_skip.
  repeat (step || (rewrite run_skip, bind_map) || apply Hrec).
Qed.

Lemma run_ti_advance n self st : same (ti_advance_t n self) (ti_advance n self st) st.
Proof.
  revert self st. induction n as [|n IH]; intros self st; cbn [ti_advance_t ti_advance]; [done|].
  destruct (current_block self); repeat (step || apply run_after_skip, IH).
Qed.

Lemma run_ti_seek self to st :
  run (ti_seek_t self to) st = ti_seek self to st.
Proof. unfold ti_seek_t, ti_seek. repeat (step || rewrite run_load_block, bind_map). Qed.

Lemma run_prev_block self st : same (prev_block_t self) (prev_block self st) st.
Proof. unfold prev_block_t, prev_block. repeat (step || rewrite run_load_block, bind_map). Qed.

Lemma run_ti_prev self st : same (ti_prev_t self) (ti_prev self st) st.
Proof. unfold ti_prev_t, ti_prev. repeat (step || apply run_prev_block). Qed.
End agree.

(** ** Running under the lock *)

Section pool.
Context `{E : IntegerEncoding, !Crc32c, !Snappy}.

(** The critical sections: [read_block] holds the lock to its end, [Table::new]
    for [new_cache_id]. (The key that [read_block] makes before it takes the
    lock cannot fail, see [block_cache_handle_ok].) *)
Definition read_section (t : Table) (location : BlockHandle) (lock : Shared (Cache Block)) :
    outcome (result Block) * Shared (Cache Block) :=
  write_section (read_block t location) lock.

Definition id_section (lock : Shared (Cache Block)) : outcome (result Z) * Shared (Cache Block) :=
  write_section (λ cache, let! (id, cache) := new_cache_id cache in Done (Ok id, cache)) lock.

(** Where a thread is after its critical section. *)
Definition resume {A B} (k : result B → prog A) (r : outcome (result B)) : prog A :=
  match r with
  | Done r => k r
  | Fail f => Crash f
  end.

(** One step of a thread; none when it is done or has panicked. *)
Definition thread_step {A} (p : prog A) (lock : Shared (Cache Block)) :
    option (prog A * Shared (Cache Block)) :=
  match p with
  | Ret _ | Crash _ => None
  | ReadBlock t location k =>
      let (r, lock) := read_section t location lock in Some (resume k r, lock)
  | NewCacheId k => let (r, lock) := id_section lock in Some (resume k r, lock)
  end.

(** Threads over one lock; any of them may be next. *)
Inductive pool_step {A} : list (prog A) * Shared (Cache Block) → list (prog A) * Shared (Cache Block) → Prop :=
  | thread_steps threads lock i p p' lock' :
      threads !! i = Some p → thread_step p lock = Some (p', lock') →
      pool_step (threads, lock) (<[i := p']> threads, lock').

(** *** Every run ends *)

(** [p'] is [p] after some step. *)
Definition later {A} (p' p : prog A) : Prop := ∃ lock lock', thread_step p lock = Some (p', lock').

Lemma later_wf {A} (p : prog A) : Acc later p.
Proof.
  induction p as [a|f|t h k IH|k IH]; constructor; intros p' (lock&lock'&Hs);
    cbn [thread_step] in Hs; try congruence.
  - destruct (read_section t h lock) as [[r|f] l]; injection Hs as <- _; [apply IH|].
    constructor. by intros ? (?&?&?).
  - destruct (id_section lock) as [[r|f] l]; injection Hs as <- _; [apply IH|].
    constructor. by intros ? (?&?&?).
Qed.

(** One thread of a list moved on. *)
Definition one_later {A} (ts' ts : list (prog A)) : Prop :=
  ∃ i p p', ts !! i = Some p ∧ later p' p ∧ ts' = <[i := p']> ts.

Lemma one_later_wf {A} (ts : list (prog A)) : Acc one_later ts.
Proof.
  induction ts as [|p ts IH]; [by constructor; intros ? (i&?&?&?&_)|].
  revert ts IH. induction (later_wf p) as [p _ IHp]. intros ts Hts. induction Hts as [ts Hts IHts].
  constructor. intros ts' ([|i]&q&q'&Hq&Hl&->); cbn in *.
  - injection Hq as ->. apply IHp; [done|]. by constructor.
  - apply IHts. by exists i, q, q'.
Qed.

Lemma pool_ends {A} (ts : list (prog A)) lock : sn pool_step (ts, lock).
Proof.
  revert lock. induction (one_later_wf ts) as [ts _ IH]. intros lock. constructor. intros s' Hs.
  inversion Hs as [? ? i p p' lock' Hp Hst]; subst. apply IH. exists i, p, p'. split; [done|].
  split; [by exists lock, lock'|done].
Qed.

(** A thread that is not done can always go on: nobody waits for another. *)
Lemma pool_stuck {A} (ts : list (prog A)) lock i p :
  nf pool_step (ts, lock) → ts !! i = Some p → (∃ a, p = Ret a) ∨ ∃ f, p = Crash f.
Proof.
  intros Hnf Hp. destruct p as [a|f|t h k|k]; [by left; exists a|by right; exists f|..]; exfalso; apply Hnf.
  - destruct (read_section t h lock) as [r l] eqn:Hr. eexists. eapply thread_steps; [done|]. cbn. by rewrite Hr.
  - destruct (id_section lock) as [r l] eqn:Hr. eexists. eapply thread_steps; [done|]. cbn. by rewrite Hr.
Qed.

(** A poisoned lock stays so. *)
Lemma pool_poisoned {A} (s s' : list (prog A) * Shared (Cache Block)) :
  rtc pool_step s s' → s.2 = Poisoned → s'.2 = Poisoned.
Proof.
  induction 1 as [|s1 s2 s3 Hs _ IH]; [done|]. intros Hp. apply IH.
  destruct Hs as [ts lock i p p' lock' Hi Hst]. cbn in *. subst lock.
  by destruct p; cbn [thread_step] in Hst; [congruence|congruence|injection Hst as _ <-..].
Qed.

(** *** The lock as a source of blocks, for one thread *)

#[export] Instance Lock_source : BlockSource (Shared (Cache Block)) := λ t location lock,
  let (r, lock) := read_section t location lock in
  let! r := r in Done (r, lock).

Definition lock_new_id (lock : Shared (Cache Block)) : outcome (result Z * Shared (Cache Block)) :=
  let (r, lock) := id_section lock in
  let! r := r in Done (r, lock).

(** A thread that runs alone makes the steps of its program. *)
Lemma run_steps {A} (p : prog A) lock a lock' :
  run lock_new_id p lock = Done (a, lock') → rtc pool_step ([p], lock) ([Ret a], lock').
Proof.
  revert lock. induction p as [b|f|t h k IH|k IH]; intros lock; cbn.
  - by intros [= -> ->].
  - done.
  - unfold fetch_block, Lock_source. destruct (read_section t h lock) as [[r|f] l] eqn:Hr; cbn; [|done].
    intros Hrun. eapply rtc_l; [|by apply IH]. apply (thread_steps [_] lock 0 (ReadBlock t h k) _ l eq_refl).
    cbn. by rewrite Hr.
  - unfold lock_new_id. destruct (id_section lock) as [[r|f] l] eqn:Hr; cbn; [|done].
    intros Hrun. eapply rtc_l; [|by apply IH]. apply (thread_steps [_] lock 0 (NewCacheId k) _ l eq_refl).
    cbn. by rewrite Hr.
Qed.

(** Without poison, the lock passes on what the cache does. *)
Lemma unlocked_run {A} (p : prog A) (cache : Cache Block) :
  run lock_new_id p (Unlocked cache) =
    map_outcome (λ r, (r.1, Unlocked r.2))
      (run (λ cache, let! (id, cache) := new_cache_id cache in Done (Ok id, cache)) p cache).
Proof.
  revert cache. induction p as [b|f|t h k IH|k IH]; intros cache; cbn; [done|done|..].
  - unfold fetch_block, Lock_source, Cache_source, read_section, write_section.
    destruct (read_block t h cache) as [[r c]|f]; cbn; [apply IH|done].
  - unfold lock_new_id, id_section, write_section.
    destruct (new_cache_id cache) as [[id c]|f]; cbn; [apply IH|done].
Qed.

Lemma run_Table_new o f size (cache : Cache Block) :
  run (λ cache, let! (id, cache) := new_cache_id cache in Done (Ok id, cache)) (Table_new_t o f size) cache
  = Table_new o f size cache.
Proof.
  unfold Table_new_t, Table_new. unfold st_bind.
  rewrite run_try, run_compute. unfold st_bind. destruct (read_footer f size) as [[ft|]|]; cbn [bind]; [|done..].
  rewrite run_try, run_compute. unfold st_bind. destruct (read_table_block o f (f_index ft)) as [[ix|]|]; cbn [bind]; [|done..].
  rewrite run_try, run_compute. unfold st_bind. destruct (read_table_block o f (meta_index ft)) as [[mx|]|]; cbn [bind]; [|done..].
  rewrite run_try, run_compute. unfold st_bind. destruct (Table_read_filter_block mx f o) as [[fr|]|]; cbn [bind]; [|done..].
  rewrite run_try. cbn. unfold st_bind. by destruct (new_cache_id cache) as [[id c]|].
Qed.
End pool.

(** ** Properties *)

Section properties.
Context `{E : IntegerEncoding, !Crc32c, !Snappy}.

(** The outcome of an operation on a cache, as one on a lock that is free. *)
Definition unlocked {A} (m : outcome (A * Cache Block)) : outcome (A * Shared (Cache Block)) :=
  map_outcome (λ r, (r.1, Unlocked r.2)) m.

(** The operations that stop at the lock are the operations of the reader:
    run alone under a free lock, each returns the same value, leaves the same
    cache, and panics when the other does. *)
Theorem Locked_operations_agree o f size t key self to fuel (cache : Cache Block) :
  run lock_new_id (Table_new_t o f size) (share cache) = unlocked (Table_new o f size cache) ∧
  run lock_new_id (table_get_t t key) (share cache) = unlocked (table_get t key cache) ∧
  run lock_new_id (ti_advance_t fuel self) (share cache) =
    unlocked (map_outcome beside (ti_advance fuel self cache)) ∧
  run lock_new_id (ti_seek_t self to) (share cache) = unlocked (ti_seek self to cache) ∧
  run lock_new_id (ti_prev_t self) (share cache) = unlocked (map_outcome beside (ti_prev self cache)).
Proof.
  unfold share. rewrite !unlocked_run, run_Table_new, run_table_get, run_ti_advance, run_ti_seek, run_ti_prev.
  done.
Qed.
End properties.
