(* ===== verification/TableConcurrent.v ===== *)
(** * Concurrent clients of tables (src/table_reader.rs, src/types.rs)

    Threads that open tables over one block cache, look up keys and walk
    through iterators: whatever the order in which they get the lock, each gets
    the answers it would get alone, and all of them finish. After a panic in a
    critical section, what the others get is an error or nothing. *)

From S2P Require Export TableThreads TableRoundtrip TableDamage.

(** ** What a thread does *)

Inductive action := Get (key : bytes) | Move (m : cursor_move).

Inductive answer :=
  | Got (r : result (option bytes))
  | Now (kv : option (bytes * bytes)).

Section clients.
Context `{E : IntegerEncoding, !Crc32c, !Snappy}.

Definition move_t (m : cursor_move) (it : TableIterator) : prog TableIterator :=
  match m with
  | MAdvance => do! (_, it) := ti_advance_t (advance_fuel it) it in Ret it
  | MPrev => do! (_, it) := ti_prev_t it in Ret it
  | MReset => Ret (ti_reset it)
  | MSeek key => ti_seek_t it key
  end.

(** [current_key_val] of a table iterator. *)
Definition ti_current_key_val (it : TableIterator) : outcome (option (bytes * bytes)) :=
  let! (ok, k, v) := ti_current it [] [] in
  if (ok : bool) then Done (Some (k, v)) else Done None.

(** A thread with a table and an iterator over it. *)
Fixpoint actions_t (t : Table) (it : TableIterator) (acts : list action) : prog (list answer) :=
  match acts with
  | [] => Ret []
  | Get key :: acts =>
      do! r := table_get_t t key in
      do! l := actions_t t it acts in
      Ret (Got r :: l)
  | Move m :: acts =>
      do! it := move_t m it in
      do! kv := compute (ti_current_key_val it) in
      do! l := actions_t t it acts in
      Ret (Now kv :: l)
  end.

Definition script_t (t : Table) (acts : list action) : prog (result (list answer)) :=
  do! it := compute (table_iter t) in
  do! l := actions_t t it acts in
  Ret (Ok l).

Definition open_and_script_t (o : Options) (file : bytes) (acts : list action) : prog (result (list answer)) :=
  do? t := Table_new_t o (BufferBackedFile file) (len file) in
  script_t t acts.

(** A client: the pairs and the file of its table, the table itself if it was
    opened before and cloned into the thread, and what to do. *)
Record client := mkClient {
  cl_kvs : list (bytes * bytes);
  cl_file : bytes;
  cl_table : option nat;
  cl_actions : list action;
}.

(** The thread of a client, next to tables that were opened before. *)
Definition client_t (o : Options) (tables : list Table) (cl : client) : prog (result (list answer)) :=
  match cl_table cl with
  | None => open_and_script_t o (cl_file cl) (cl_actions cl)
  | Some j =>
      do! t := compute (unwrap_block (tables !! j)) in
      script_t t (cl_actions cl)
  end.

(** Opening one table after the other. *)
Fixpoint open_tables (o : Options) (files : list bytes) (cache : Cache Block) :
    outcome (result (list Table) * Cache Block) :=
  match files with
  | [] => Done (Ok [], cache)
  | file :: files =>
      try! t, cache := Table_new o (BufferBackedFile file) (len file) cache in
      try! ts, cache := open_tables o files cache in
      Done (Ok (t :: ts), cache)
  end.

(** What the map and the list of pairs of the table say; [None] where a move has
    no position to rely on (see [cursor_moves]). *)
Fixpoint expected (kvs : list (bytes * bytes)) (acts : list action) (pos : option nat) :
    option (list answer) :=
  match acts with
  | [] => Some []
  | Get key :: acts => cons (Got (Ok (table_map kvs !! key))) <$> expected kvs acts pos
  | Move m :: acts =>
      pos ← cursor_moves kvs m pos;
      cons (Now (i ← pos; kvs !! i)) <$> expected kvs acts pos
  end.
End clients.

(** A move is the same for a thread alone. *)
Lemma run_move `{E : IntegerEncoding} {St} {Src : BlockSource St} new_id m it (st : St) :
  run new_id (move_t m it) st = table_move m (it, st).
Proof.
  destruct m; cbn [move_t table_move]; rewrite ?run_bind.
  - rewrite run_ti_advance, bind_map. change (advance (it, st)) with (ti_advance (advance_fuel it) it st).
    by destruct (ti_advance (advance_fuel it) it st) as [[? [? ?]]|].
  - rewrite run_ti_prev, bind_map. change (prev (it, st)) with (ti_prev it st). by destruct (ti_prev it st) as [[? [? ?]]|].
  - done.
  - by rewrite run_ti_seek.
Qed.

(** ** Programs that read the blocks of one table *)

(** [p] returns [a] when every block it reads is one that [reads] allows. *)
Fixpoint evals {A} (reads : Table → BlockHandle → Block → Prop) (p : prog A) (a : A) : Prop :=
  match p with
  | Ret b => b = a
  | Crash _ | NewCacheId _ => False
  | ReadBlock t h k => ∃ blk, reads t h blk ∧ evals reads (k (Ok blk)) a
  end.

Section logged.
Context `{E : IntegerEncoding, !IntegerEncodingSpec E, C : Crc32c, !Crc32cSpec C, Sn : Snappy}.
Context (o : Options) `{!CmpOrder (opt_cmp o)}.

(** The blocks of the table that was opened with identifier [id]. *)
Definition table_reads (V : table_view) (id : Z) (t : Table) (h : BlockHandle) (blk : Block) : Prop :=
  ∃ f fr i d, reads_blocks o f V ∧ t = opened_at o V f id fr ∧ v_blocks V !! i = Some d ∧ h = d_handle d ∧ blk = mkBlock (d_contents d) o.

(** A source that has the blocks at hand, and keeps a log of what was read. *)
Definition log_source (V : table_view) : BlockSource (list (Table * BlockHandle * Block)) := λ t h log,
  match list_find (λ d, d_handle d = h) (v_blocks V) with
  | Some (_, d) => let blk := mkBlock (d_contents d) o in Done (Ok blk, (t, h, blk) :: log)
  | None => Panic
  end.

Definition log_ok (V : table_view) (id : Z) (log : list (Table * BlockHandle * Block)) : Prop :=
  Forall (λ r, table_reads V id r.1.1 r.1.2 r.2) log.

Lemma log_source_ok V kvs f :
  view_of o kvs V → reads_blocks o f V → BlockSourceSpec o V f (log_source V) (log_ok V).
Proof.
  intros HV Hread id fr log i d Hlog Hd. unfold fetch_block, log_source.
  destruct (list_find _ _) as [[j d']|] eqn:Hf.
  - apply list_find_Some in Hf as (Hd'&Hh&_). injection Hh as Hoff _.
    pose proof (vo_off_inj _ _ _ HV j i d' d Hd' Hd Hoff) as ->. rewrite Hd in Hd'. injection Hd' as <-.
    eexists. split; [done|]. constructor; [|done]. by exists f, fr, i, d.
  - apply list_find_None in Hf. rewrite Forall_forall in Hf. exfalso.
    apply (Hf d); [by eapply list_elem_of_lookup_2|done].
Qed.

Definition no_id (log : list (Table * BlockHandle * Block)) : outcome (result Z * list (Table * BlockHandle * Block)) :=
  Panic.

(** What a run over the log shows of every other run. *)
Lemma log_evals {A} V id (p : prog A) log a log' :
  run (Src := log_source V) no_id p log = Done (a, log') → log_ok V id log' →
  evals (table_reads V id) p a ∧ log_ok V id log.
Proof.
  revert log. induction p as [b|f|t h k IH|k IH]; intros log; cbn; [by intros [= -> ->]|done| |done].
  unfold fetch_block, log_source at 1. destruct (list_find _ _) as [[j d]|] eqn:Hf; cbn [bind]; [|done].
  intros Hrun Hok. destruct (IH _ _ Hrun Hok) as [Hev Hlog]. inversion Hlog as [|? ? Hr Hlog']; subst.
  split; [|done]. by eexists.
Qed.

(** A script, run over the log. *)
Section script.
Context (V : table_view) (kvs : list (bytes * bytes)) (f : RandomAccess) (fr : option FilterBlockReader).
Context (Hrd : readable o kvs V f fr) (id : Z).
Context (Hsep : strict_seps o V) (Heq : ∀ a b, cmp (opt_cmp o) a b = Eq → a = b).

#[local] Instance log_here : BlockSource (list (Table * BlockHandle * Block)) := log_source V.
Abbreviation run := (run no_id).
Abbreviation rep := (table_rep o V f (log_ok V) id fr).

Definition small_keys (acts : list action) : Prop :=
  Forall (λ a, match a with Get key => len key < U32 | Move _ => True end) acts.

Lemma rep_source it log log' pos : rep (it, log) pos → log_ok V id log' → rep (it, log') pos.
Proof. by intros (Ht&_&Hpos) Hlog. Qed.

Lemma actions_run acts it log pos ans :
  rep (it, log) pos → expected kvs acts pos = Some ans → small_keys acts →
  ∃ log', run (actions_t (opened_at o V f id fr) it acts) log = Done (ans, log') ∧ log_ok V id log'.
Proof.
  pose proof Hrd as [HV Hread _].
  assert (Hsrc : BlockSourceSpec o V f log_here (log_ok V)) by exact (log_source_ok V kvs f HV Hread).
  intros Hrep Hexp Hsmall. revert it log pos ans Hrep Hexp. induction Hsmall as [|[key|m] acts Hkey _ IH];
    intros it log pos ans Hrep Hexp; cbn [expected actions_t] in *.
  - injection Hexp as <-. exists log. split; [done|apply Hrep].
  - apply fmap_Some in Hexp as (ans'&Hexp&->). rewrite run_bind, run_table_get.
    destruct (table_get_map o kvs V f fr _ id log key Hsrc Hrd Hsep Heq)
      as (log1&->&Hlog1); [apply Hrep|done|]. cbn [bind]. rewrite run_bind.
    destruct (IH it log1 pos ans') as (log2&->&Hlog2); [by eapply rep_source|done|]. by exists log2.
  - apply bind_Some in Hexp as (pos'&Hm&(ans'&Hexp&->)%fmap_Some). rewrite run_bind, run_move.
    destruct (table_move_ok o kvs V f fr _ id (it, log) pos m pos' Hsrc Hrd Hsep Hrep Hm)
      as ([it' log1]&->&Hrep'). cbn [bind]. rewrite run_bind, run_compute.
    pose proof (table_forward o V kvs HV f _ Hsrc id fr) as HF.
    change (ti_current_key_val it') with (current_key_val (it', log1)).
    rewrite (current_key_val_spec kvs _ (it', log1) pos' Hrep'). cbn [bind]. rewrite run_bind.
    destruct (IH it' log1 pos' ans' Hrep' Hexp) as (log2&->&Hlog2). by exists log2.
Qed.

Lemma script_evals acts ans :
  expected kvs acts None = Some ans → small_keys acts →
  evals (table_reads V id) (script_t (opened_at o V f id fr) acts) (Ok ans).
Proof.
  intros Hexp Hsmall.
  destruct (table_iter_rep o V kvs (rd_view _ _ _ _ _ Hrd) f (log_ok V) id fr []) as (it&Hit&Hrep); [by constructor|].
  destruct (actions_run acts it [] None ans Hrep Hexp Hsmall) as (log&Hrun&Hlog).
  assert (Hs : run (script_t (opened_at o V f id fr) acts) [] = Done (Ok ans, log)).
  { unfold script_t. rewrite run_bind, run_compute, Hit. cbn [bind]. by rewrite run_bind, Hrun. }
  exact (proj1 (log_evals V id _ [] _ log Hs Hlog)).
Qed.
End script.
End logged.

(** ** The cache of many tables *)

Section pool.
Context `{E : IntegerEncoding, !IntegerEncodingSpec E, C : Crc32c, !Crc32cSpec C, Sn : Snappy}.
Context (o : Options) `{!CmpOrder (opt_cmp o)}.
Implicit Types (w : gmap Z table_view) (cache : Cache Block).

Definition good_view (V : table_view) : Prop := ∃ kvs, view_of o kvs V.

(** The entries are blocks of the tables [w] under their identifiers, or under
    identifiers that nobody in [w] has. *)
Definition entries_of w (n : Z) (xs : list (CacheKey * Block)) : Prop :=
  (∀ key blk, lru_lookup xs key = Some blk → ∃ id off, key = cache_key id off ∧ 0 ≤ id ≤ n) ∧
  ∀ id V off blk, w !! id = Some V → 0 ≤ off < U64 →
    lru_lookup xs (cache_key id off) = Some blk → is_block o V off blk.

Record cache_inv w cache : Prop := {
  ci_id : 0 ≤ cache_id cache < U64;
  ci_tables id V : w !! id = Some V → 0 ≤ id ≤ cache_id cache ∧ good_view V;
  ci_entries : ∃ xs, cache_rep cache xs ∧ entries_of w (cache_id cache) xs;
}.

Lemma entries_of_get w n xs key : entries_of w n xs → entries_of w n (lru_get xs key).2.
Proof.
  intros [Hk Hb]. split.
  - intros k blk. rewrite lookup_get. apply Hk.
  - intros id T off blk Hw Ho. rewrite lookup_get. by apply Hb.
Qed.

Lemma entries_of_insert w n m xs id V i d :
  n < U64 → (∀ id V, w !! id = Some V → 0 ≤ id ≤ n) → 0 ≤ d_off d < U64 →
  w !! id = Some V → v_blocks V !! i = Some d → entries_of w n xs →
  entries_of w n (lru_insert m xs (cache_key id (d_off d)) (mkBlock (d_contents d) o)).
Proof.
  intros Hn Hids Hoff Hw Hd [Hk Hb]. split.
  - intros key blk [[-> _]|Hl]%lookup_insert_lru; [|by eapply Hk].
    exists id, (d_off d). split; [done|]. by eapply Hids.
  - intros id' V' off blk Hw' Ho [[Heq ->]|Hl]%lookup_insert_lru; [|by eapply Hb].
    destruct (decide (id' = id)) as [->|Hne].
    + rewrite Hw in Hw'. injection Hw' as <-. apply cache_key_inj in Heq as ->; [|done..]. by exists i, d.
    + apply cache_key_ids in Heq as []; [apply Hids in Hw'; lia|apply Hids in Hw; lia|done].
Qed.

(** Reading a block of a table of [w]. *)
Lemma table_reads_ok w cache V id t h blk :
  cache_inv w cache → w !! id = Some V → table_reads o V id t h blk →
  ∃ cache', read_block t h cache = Done (Ok blk, cache') ∧ cache_inv w cache' ∧ cache_id cache' = cache_id cache.
Proof.
  intros [Hid Htabs (xs&Hr&Hxs)] Hw (f&fr&i&d&Hread&->&Hd&->&->). destruct (Htabs id V Hw) as [Hle [kvs HV]].
  pose proof (dblk_off o V kvs HV i d Hd) as Hoff.
  destruct (read_block_lru (opened_at o V f id fr) (d_handle d) cache xs _ Hr (Hread i d Hd)) as (cache'&Hrb&_&Hr').
  apply read_block_id in Hrb as Hsame. exists cache'. rewrite Hrb. cbn [t_cache_id opened_at bh_offset d_handle] in *.
  destruct (lru_lookup xs (cache_key id (d_off d))) as [blk|] eqn:Hl.
  - destruct (proj2 Hxs id V (d_off d) blk Hw Hoff Hl) as (j&d'&Hd'&Heq&->).
    pose proof (vo_off_inj _ _ _ HV j i d' d Hd' Hd Heq) as ->. rewrite Hd in Hd'. injection Hd' as <-.
    split; [done|]. split; [|done]. split; rewrite ?Hsame; [done|done|].
    eexists. split; [exact Hr'|]. by apply entries_of_get.
  - split; [done|]. split; [|done]. split; rewrite ?Hsame; [done|done|].
    eexists. split; [exact Hr'|]. apply (entries_of_insert w _ _ xs id V i d); try done; [lia|].
    intros id' V' Hw'. by apply Htabs in Hw' as [? _].
Qed.

(** A new identifier, for another table. *)
Lemma new_id_ok w cache V :
  cache_inv w cache → cache_id cache + 1 < U64 → good_view V →
  ∃ cache', new_cache_id cache = Done (cache_id cache + 1, cache') ∧ cache_id cache' = cache_id cache + 1 ∧
    w !! (cache_id cache + 1) = None ∧ cache_inv (<[cache_id cache + 1 := V]> w) cache'.
Proof.
  intros [Hid Htabs (xs&Hr&Hk&Hb)] Hlt HV. unfold new_cache_id. rewrite uadd_Done by done. eexists. split; [done|].
  split; [done|]. assert (Hnone : w !! (cache_id cache + 1) = None).
  { destruct (w !! (cache_id cache + 1)) as [V'|] eqn:Hw; [|done]. apply Htabs in Hw as [? _]. lia. }
  split; [done|]. split; cbn.
  - lia.
  - intros id V' [[<- <-]|[_ Hw]]%lookup_insert_Some; [split; [lia|done]|].
    apply Htabs in Hw as [? ?]. split; [lia|done].
  - exists xs. split; [by apply cache_rep_id|]. split.
    + intros key blk (id&off&->&?)%Hk. exists id, off. split; [done|lia].
    + intros id V' off blk [[<- <-]|[_ Hw]]%lookup_insert_Some Ho Hl; [|by eapply Hb].
      exfalso. apply Hk in Hl as (id'&off'&Heq&Hle). apply cache_key_ids in Heq as []; lia.
Qed.

Lemma cache_ids_inv cache : cache_ids cache → cache_inv ∅ cache.
Proof.
  intros (Hid&xs&Hr&Hxs). split; [lia|done|]. exists xs. split; [done|]. split; [|done].
  intros key blk (id&off&->&?)%Hxs. by exists id, off.
Qed.
End pool.

(** ** Threads *)

Lemma sum_list_insert (l : list nat) i n m :
  l !! i = Some n → (sum_list (<[i:=m]> l) + n = sum_list l + m)%nat.
Proof.
  revert i. induction l as [|x l IH]; intros [|i] Hi; [done|done| |].
  - injection Hi as ->. cbn. unfold id. lia.
  - change (<[S i:=m]> (x :: l)) with (x :: <[i:=m]> l). cbn [sum_list_with]. specialize (IH i Hi). lia.
Qed.

Section threads.
Context `{E : IntegerEncoding, !IntegerEncodingSpec E, C : Crc32c, !Crc32cSpec C, Sn : Snappy}.
Context (o : Options) `{!CmpOrder (opt_cmp o)}.
Implicit Types (w : gmap Z table_view) (cache : Cache Block).

(** A thread that will return [a]: it reads a table of [w], or is about to get
    the identifier for its table. [n] counts the identifiers it will ask for. *)
Definition thread_ok {A} w (n : nat) (p : prog A) (a : A) : Prop :=
  (n = 0%nat ∧ ∃ id V, w !! id = Some V ∧ evals (table_reads o V id) p a) ∨
  (n = 1%nat ∧ ∃ V k, good_view o V ∧ p = NewCacheId k ∧ ∀ id, evals (table_reads o V id) (k (Ok id)) a).

Definition pool_inv {A} (answers : list A) (s : list (prog A) * Shared (Cache Block)) : Prop :=
  ∃ w cache ns, s.2 = Unlocked cache ∧ cache_inv o w cache ∧ Forall3 (thread_ok w) ns s.1 answers ∧
    cache_id cache + Z.of_nat (sum_list ns) < U64.

Lemma thread_ok_mono {A} w w' n (p : prog A) a : w ⊆ w' → thread_ok w n p a → thread_ok w' n p a.
Proof.
  intros Hw [(->&id&V&Hid&Hev)|H1]; [left|by right]. split; [done|]. exists id, V.
  split; [by eapply lookup_weaken|done].
Qed.

Lemma threads_insert {A} w w' ns (ts : list (prog A)) answers i n p a :
  w ⊆ w' → Forall3 (thread_ok w) ns ts answers → answers !! i = Some a → thread_ok w' n p a →
  Forall3 (thread_ok w') (<[i:=n]> ns) (<[i:=p]> ts) answers.
Proof.
  intros Hw HF Ha Hp. revert i Ha. induction HF as [|n' p' a' ns ts as' H1 HF IH]; intros [|i] Ha; cbn in *; [done|done| |].
  - injection Ha as ->. constructor; [done|]. eapply Forall3_impl; [exact HF|]. intros. by eapply thread_ok_mono.
  - constructor; [by eapply thread_ok_mono|by apply IH].
Qed.

(** Every step of the pool keeps this. *)
Lemma pool_inv_step {A} (answers : list A) s s' : pool_inv answers s → pool_step s s' → pool_inv answers s'.
Proof.
  intros (w&cache&ns&Hlock&Hinv&HF&Hsum) Hstep. destruct Hstep as [ts lock i p p' lock' Hi Hs]. cbn in *. subst lock.
  destruct (Forall3_lookup_m _ _ _ _ i p HF Hi) as (n&a&Hn&Ha&[(->&id&V&Hw&Hev)|(->&V&k&HV&->&Hev)]).
  - destruct p as [b|f|t h k|k]; cbn [thread_step evals] in *; [congruence..| |done]. destruct Hev as (blk&Hr&Hev).
    destruct (table_reads_ok o w cache V id t h blk Hinv Hw Hr) as (cache'&Hrb&Hinv'&Hsame).
    cbn in Hs. rewrite Hrb in Hs. injection Hs as <- <-. exists w, cache', ns.
    split; [done|]. split; [done|]. rewrite Hsame. split; [|done].
    rewrite <- (list_insert_id ns i 0%nat) by done. eapply threads_insert; [done|done|done|]. left.
    split; [done|]. by exists id, V.
  - assert (Hpos : (1 ≤ sum_list ns)%nat) by (pose proof (sum_list_insert ns i 1 0 Hn); lia).
    destruct (new_id_ok o w cache V Hinv ltac:(lia) HV) as (cache'&Hnew&Hid&Hnone&Hinv').
    cbn in Hs. rewrite Hnew in Hs. cbn in Hs. injection Hs as <- <-.
    exists (<[cache_id cache + 1 := V]> w), cache', (<[i:=0%nat]> ns).
    split; [done|]. split; [done|]. split.
    + eapply threads_insert; [by apply insert_subseteq|done|done|]. left. split; [done|].
      exists (cache_id cache + 1), V. split; [by rewrite lookup_insert_eq|done].
    + pose proof (sum_list_insert ns i 1 0 Hn). rewrite Hid. lia.
Qed.

Lemma pool_inv_steps {A} (answers : list A) s s' : rtc pool_step s s' → pool_inv answers s → pool_inv answers s'.
Proof. induction 1; eauto using pool_inv_step. Qed.

(** What a thread of such a pool can be, and what it is when nothing is left to do. *)
Lemma pool_inv_thread {A} (answers : list A) ts lock i p :
  pool_inv answers (ts, lock) → ts !! i = Some p →
  ∃ a, answers !! i = Some a ∧ (∀ f, p ≠ Crash f) ∧ ∀ b, p = Ret b → b = a.
Proof.
  intros (w&cache&ns&_&_&HF&_) Hi.
  destruct (Forall3_lookup_m _ _ _ _ i p HF Hi) as (n&a&Hn&Ha&Hok). exists a. split; [done|].
  destruct Hok as [(_&id&V&_&Hev)|(_&V&k&_&->&_)]; [|done]. destruct p; cbn in Hev; try done.
  split; [done|]. intros b [= ->]. done.
Qed.

Lemma pool_inv_final {A} (answers : list A) ts lock :
  pool_inv answers (ts, lock) → nf pool_step (ts, lock) → ts = Ret <$> answers.
Proof.
  intros Hinv Hnf. pose proof Hinv as (w&cache&ns&_&_&HF&_). cbn in HF.
  apply list_eq_same_length with (length ts); [|done|].
  { rewrite length_fmap. apply Forall3_length_lm in HF as Hlm. apply Forall3_length_lr in HF as Hlr. congruence. }
  intros i p q _ Hp Hq. destruct (pool_inv_thread answers ts lock i p Hinv Hp) as (a&Ha&Hncr&Hret).
  rewrite list_lookup_fmap, Ha in Hq. injection Hq as <-.
  destruct (pool_stuck ts lock i p Hnf Hp) as [[b ->]|[f ->]]; [|by destruct (Hncr f)].
  by rewrite (Hret b).
Qed.
End threads.

(** ** After a panic in a critical section *)

Section poisoned.
Context `{E : IntegerEncoding, !Crc32c, !Snappy}.

(** The end of a thread under a poisoned lock: where it is already, or what it
    returns alone. *)
Definition settles {A} (p q : prog A) : Prop :=
  match q with
  | Ret a => run lock_new_id p Poisoned = Done (a, Poisoned)
  | _ => p = q
  end.

Lemma poisoned_step {A} (p q p' : prog A) lock :
  settles p q → (∃ a, q = Ret a) ∨ (∃ f, q = Crash f) → thread_step p Poisoned = Some (p', lock) →
  settles p' q ∧ lock = Poisoned.
Proof.
  intros Hs Hq Hst. destruct Hq as [[a ->]|[f ->]]; cbn [settles] in *; [|by subst p].
  destruct p; cbn in Hst; try done; by injection Hst as <- <-.
Qed.

Lemma run_poisoned {A} (p : prog A) a lock : run lock_new_id p Poisoned = Done (a, lock) → lock = Poisoned.
Proof. induction p as [b|f|t h k IH|k IH]; cbn; [by intros [= _ <-]|done|by apply IH..]. Qed.

(** Whatever the order, the threads come to these ends. *)
Lemma poisoned_pool {A} (ts qs : list (prog A)) s' :
  Forall2 settles ts qs → Forall (λ q, (∃ a, q = Ret a) ∨ (∃ f, q = Crash f)) qs →
  rtc pool_step (ts, Poisoned) s' → nf pool_step s' → s' = (qs, Poisoned).
Proof.
  intros HF Hqs Hsteps. remember (ts, Poisoned) as s eqn:Hs. revert ts HF Hs.
  induction Hsteps as [s|s s1 s' Hstep _ IH]; intros ts HF ->.
  - intros Hnf. f_equal. apply list_eq_Forall2. apply Forall2_same_length_lookup in HF as [Hlen HF].
    apply Forall2_same_length_lookup. split; [done|]. intros i p q Hp Hq. specialize (HF i p q Hp Hq).
    destruct (Forall_lookup_1 _ _ _ _ Hqs Hq) as [[a ->]|[f ->]]; cbn in HF; [|done].
    by destruct (pool_stuck ts Poisoned i p Hnf Hp) as [[b ->]|[f ->]]; cbn in HF; [injection HF as ->|].
  - inversion Hstep as [? ? i p p' lock' Hi Hst]; subst.
    destruct (Forall2_lookup_l _ _ _ _ _ HF Hi) as (q&Hq&Hpq).
    destruct (poisoned_step p q p' lock' Hpq (Forall_lookup_1 _ _ _ _ Hqs Hq) Hst) as [Hpq' ->].
    apply (IH (<[i:=p']> ts)); [|done]. rewrite <- (list_insert_id qs i q) by done. by apply Forall2_insert.
Qed.
End poisoned.

(** ** Clients of strict tables *)

Section properties.
Context `{E : IntegerEncoding, !IntegerEncodingSpec E, C : Crc32c, !Crc32cSpec C, Sn : Snappy}.
Context (o : Options) `{!CmpOrder (opt_cmp o)}.
Implicit Types (w : gmap Z table_view) (cache : Cache Block).

Abbreviation c := (opt_cmp o).

(** Opening a table. *)
Lemma format_parts kvs file :
  strict_table o kvs file → ∃ V fr, readable o kvs V (BufferBackedFile file) fr ∧ strict_seps o V ∧
    (∀ cache, Table_new o (BufferBackedFile file) (len file) cache =
      let! (id, cache) := new_cache_id cache in Done (Ok (opened_at o V (BufferBackedFile file) id fr), cache)) ∧
    Table_new_t o (BufferBackedFile file) (len file) =
      do? id := NewCacheId Ret in Ret (Ok (opened_at o V (BufferBackedFile file) id fr)).
Proof.
  intros (V&fr&Htf&Hstrict). exists V, fr. split; [by apply table_file_readable|]. split; [done|].
  pose proof (table_file_opens o _ _ _ _ Htf) as Hop. split; [intros cache; by apply opens_new|].
  destruct Hop as [Hf Hi (m&Hm&Hfl)]. unfold Table_new_t, ptry at 1 2 3 4. rewrite Hf. cbn [compute pbind].
  rewrite Hi. cbn [compute pbind]. rewrite Hm. cbn [compute pbind]. by rewrite Hfl.
Qed.

(** Tables that are opened one after the other, over one cache. *)
Lemma open_tables_ok shared w cache :
  Forall (λ b, strict_table o b.1 b.2) shared → cache_inv o w cache →
  cache_id cache + Z.of_nat (length shared) < U64 →
  ∃ tables w' cache', open_tables o shared.*2 cache = Done (Ok tables, cache') ∧ w ⊆ w' ∧ cache_inv o w' cache' ∧
    cache_id cache' = cache_id cache + Z.of_nat (length shared) ∧
    ∀ j kvs file, shared !! j = Some (kvs, file) → ∃ V id fr,
      tables !! j = Some (opened_at o V (BufferBackedFile file) id fr) ∧ w' !! id = Some V ∧
      readable o kvs V (BufferBackedFile file) fr ∧ strict_seps o V.
Proof.
  intros HF. revert w cache. induction HF as [|[kvs file] shared Hb HF IH]; intros w cache Hinv Hlt.
  { exists [], w, cache. split; [done|]. split; [done|]. split; [done|]. split; [cbn; lia|]. by intros. }
  cbn [length] in Hlt. destruct (format_parts kvs file Hb) as (V&fr&Hrd&Hstrict&Hnew&_). cbn in Hb.
  destruct (new_id_ok o w cache V Hinv ltac:(lia) (ex_intro _ kvs (rd_view _ _ _ _ _ Hrd))) as (cache1&Hid&Hsame&Hnone&Hinv1).
  destruct (IH _ cache1 Hinv1 ltac:(lia)) as (tables&w'&cache2&Hopen&Hsub&Hinv2&Hid2&Hall).
  exists (opened_at o V (BufferBackedFile file) (cache_id cache + 1) fr :: tables), w', cache2. split; [|split; [|split; [done|split]]].
  - cbn [open_tables fmap list_fmap snd]. rewrite Hnew, Hid. cbn [bind].
    unfold st_bind at 1. cbn [bind]. change (list_fmap _ _ snd shared) with (shared.*2). by rewrite Hopen.
  - etransitivity; [by apply insert_subseteq|done].
  - cbn [length]. lia.
  - intros [|j] kvs' file' Hj; [|by apply Hall]. injection Hj as <- <-. exists V, (cache_id cache + 1), fr.
    split; [done|]. split; [|done]. eapply lookup_weaken; [|exact Hsub]. by rewrite lookup_insert_eq.
Qed.

(** A client that the theorems speak of, next to tables opened before. *)
Record client_ok (shared : list (list (bytes * bytes) * bytes)) (cl : client) : Prop := {
  co_format : strict_table o (cl_kvs cl) (cl_file cl);
  co_keys : small_keys (cl_actions cl);
  co_expected : is_Some (expected (cl_kvs cl) (cl_actions cl) None);
  co_table j : cl_table cl = Some j → shared !! j = Some (cl_kvs cl, cl_file cl);
}.

(** What it should get: the answers of the map and of the list of pairs. *)
Definition client_answer (cl : client) : result (list answer) :=
  Ok (default [] (expected (cl_kvs cl) (cl_actions cl) None)).

(** The identifiers it asks for. *)
Definition client_ids (cl : client) : nat :=
  match cl_table cl with
  | Some _ => 0
  | None => 1
  end.

Lemma client_thread_ok shared tables w cl :
  (∀ a b, cmp c a b = Eq → a = b) → client_ok shared cl →
  (∀ j kvs file, shared !! j = Some (kvs, file) → ∃ V id fr,
    tables !! j = Some (opened_at o V (BufferBackedFile file) id fr) ∧ w !! id = Some V ∧
    readable o kvs V (BufferBackedFile file) fr ∧ strict_seps o V) →
  thread_ok o w (client_ids cl) (client_t o tables cl) (client_answer cl).
Proof.
  intros Heq [Hb Hsmall [ans Hans] Htab] Htables. unfold client_answer, client_ids, client_t. rewrite Hans. cbn [default].
  destruct (cl_table cl) as [j|].
  - left. split; [done|]. destruct (Htables j _ _ (Htab j eq_refl)) as (V&id&fr&->&Hw&Hrd&Hstrict).
    cbn [unwrap_block compute pbind]. exists id, V. split; [done|]. by apply script_evals with (kvs := cl_kvs cl).
  - right. split; [done|]. destruct (format_parts _ _ Hb) as (V&fr&Hrd&Hstrict&_&Hnew).
    unfold open_and_script_t. rewrite Hnew. eexists V, _. split; [by eexists; apply Hrd|]. split; [done|]. intros id. cbn.
    by apply script_evals with (kvs := cl_kvs cl).
Qed.

(** A pool of clients that starts. *)
Lemma clients_start shared cls cache :
  Forall (λ b, strict_table o b.1 b.2) shared → Forall (client_ok shared) cls →
  (∀ a b, cmp c a b = Eq → a = b) → cache_ids cache →
  cache_id cache + Z.of_nat (length shared + length cls) < U64 →
  ∃ tables cache1, open_tables o shared.*2 cache = Done (Ok tables, cache1) ∧
    pool_inv o (client_answer <$> cls) (client_t o tables <$> cls, share cache1).
Proof.
  intros Hshared Hcls Heq Hids Hlt. apply cache_ids_inv with (o := o) in Hids as Hinv.
  destruct (open_tables_ok shared ∅ cache Hshared Hinv ltac:(lia)) as (tables&w&cache1&Hopen&_&Hinv1&Hid1&Hall).
  exists tables, cache1. split; [done|]. exists w, cache1, (client_ids <$> cls). split; [done|]. split; [done|]. split.
  - cbn [fst]. clear Hlt. induction Hcls as [|cl cls Hcl _ IH]; [constructor|].
    constructor; [by apply (client_thread_ok shared)|done].
  - assert (Hsum : (sum_list (client_ids <$> cls) ≤ length cls)%nat).
    { clear. induction cls as [|cl cls IH]; [done|]. rewrite fmap_cons. cbn [sum_list_with length].
      unfold id at 1, client_ids at 1. destruct (cl_table cl); lia. }
    lia.
Qed.

(** C9. Threads do not disturb each other. Strict tables, of any writer, in an
    order that identifies only equal keys, were opened over one cache, and threads
    share them, or open tables of their own meanwhile; each looks up
    keys and moves an iterator. Whatever the order in which they get the lock, no
    thread ever panics, the lock is never poisoned, and a thread that is done has
    the answers of the map and of the list of pairs of its table. *)
Theorem Concurrent_clients shared cls cache :
  (∀ a b, cmp c a b = Eq → a = b) → cache_ids cache →
  Forall (λ b, strict_table o b.1 b.2) shared → Forall (client_ok shared) cls →
  cache_id cache + Z.of_nat (length shared + length cls) < U64 →
  ∃ tables cache1, open_tables o shared.*2 cache = Done (Ok tables, cache1) ∧
    ∀ threads lock, rtc pool_step (client_t o tables <$> cls, share cache1) (threads, lock) →
      lock ≠ Poisoned ∧ ∀ i p, threads !! i = Some p → ∃ cl, cls !! i = Some cl ∧
        (∀ f, p ≠ Crash f) ∧ ∀ r, p = Ret r → r = client_answer cl.
Proof.
  intros Heq Hids Hshared Hcls Hlt.
  destruct (clients_start shared cls cache Hshared Hcls Heq Hids Hlt) as (tables&cache1&Hopen&Hstart).
  exists tables, cache1. split; [done|]. intros threads lock Hsteps.
  pose proof (pool_inv_steps o _ _ _ Hsteps Hstart) as Hinv. split.
  - destruct Hinv as (?&?&?&Hlock&_). cbn in Hlock. by rewrite Hlock.
  - intros i p Hi. destruct (pool_inv_thread o _ threads lock i p Hinv Hi) as (a&Ha&Hp).
    rewrite list_lookup_fmap in Ha. destruct (cls !! i) as [cl|]; [|done]. injection Ha as <-. by exists cl.
Qed.

(** C10. All threads finish. From any state that such a pool of threads can be
    in, every schedule ends, and it ends only where all threads have returned
    their answers: no thread waits for another, and none starves. *)
Theorem Concurrent_clients_finish shared cls cache :
  (∀ a b, cmp c a b = Eq → a = b) → cache_ids cache →
  Forall (λ b, strict_table o b.1 b.2) shared → Forall (client_ok shared) cls →
  cache_id cache + Z.of_nat (length shared + length cls) < U64 →
  ∃ tables cache1, open_tables o shared.*2 cache = Done (Ok tables, cache1) ∧
    ∀ s, rtc pool_step (client_t o tables <$> cls, share cache1) s →
      sn pool_step s ∧
      ∀ s', rtc pool_step s s' → nf pool_step s' → s'.1 = (λ cl, Ret (client_answer cl)) <$> cls.
Proof.
  intros Heq Hids Hshared Hcls Hlt.
  destruct (clients_start shared cls cache Hshared Hcls Heq Hids Hlt) as (tables&cache1&Hopen&Hstart).
  exists tables, cache1. split; [done|]. intros [ts lock] Hsteps. split; [apply pool_ends|].
  intros [ts' lock'] Hsteps' Hnf. cbn. rewrite (list_fmap_compose client_answer Ret).
  apply (pool_inv_final o _ ts' lock'); [|done]. eapply pool_inv_steps; [|exact Hstart]. by etransitivity.
Qed.

(** *** The clients of a poisoned lock *)

(** Every block of the table fails. *)
Lemma poisoned_source V f : ∀ id fr (lock : Shared (Cache Block)) i d,
  lock = Poisoned → v_blocks V !! i = Some d →
  ∃ lock', fetch_block (opened_at o V f id fr) (d_handle d) lock =
    Done (Err from_PoisonError, lock') ∧ lock' = Poisoned.
Proof. intros id fr lock i d -> _. by exists Poisoned. Qed.

Lemma no_good_pairs (ds : list dblk) : good_pairs (λ _, Some from_PoisonError) ds = [].
Proof. induction ds as [|d ds IH]; [done|]. by rewrite good_pairs_cons, decide_False. Qed.

(** Lookups of present keys, and then a move. *)
Lemma poisoned_script V kvs f id fr keys :
  readable o kvs V f fr → strict_seps o V → Forall (λ key, key ∈ kvs.*1) keys →
  run lock_new_id (script_t (opened_at o V f id fr) ((Get <$> keys) ++ [Move MAdvance])) Poisoned =
    Done (Ok (replicate (length keys) (Got (Err from_PoisonError)) ++ [Now None]), Poisoned).
Proof.
  intros [HV _ Hfr] Hstrict Hin.
  unfold script_t. rewrite run_bind, run_compute. destruct (table_start o V kvs HV f id fr) as (ib&Hit&Hrep).
  set (t := opened_at o V f id fr) in *. set (it := mkTableIterator t None 0 ib) in *.
  rewrite Hit. cbn [bind]. rewrite run_bind.
  enough (Ha : run lock_new_id (actions_t t it ((Get <$> keys) ++ [Move MAdvance])) Poisoned =
    Done (replicate (length keys) (Got (Err from_PoisonError)) ++ [Now None], Poisoned)) by by rewrite Ha.
  induction Hin as [|key keys Hkey _ IH]; cbn [fmap list_fmap app actions_t length replicate]; rewrite run_bind.
  - rewrite run_move. unfold table_move.
    destruct (advance_damaged o V kvs HV (λ _, Some from_PoisonError) _ (λ _ lock, lock = Poisoned)
      (poisoned_source V f) id fr (it, Poisoned) []) as ([it' lock']&Hadv&Hv).
    { split; [done|]. split; [done|]. left. split; [done|]. exists None. by rewrite no_good_pairs. }
    assert (Hlock : lock' = Poisoned).
    { apply (run_poisoned (ti_advance_t (advance_fuel it) it) (false, it')). rewrite run_ti_advance.
      change (ti_advance (advance_fuel it) it Poisoned) with (advance (it, Poisoned)). rewrite Hadv. done. }
    rewrite Hadv. cbn [bind moved fst snd] in *.
    assert (Hnow : ti_current_key_val it' = Done None).
    { unfold ti_current_key_val, ti_current. unfold ti_valid in Hv. destruct (current_block it') as [cb|]; [|done].
      unfold bi_current. by rewrite Hv. }
    rewrite run_bind, run_compute, Hnow. cbn. by rewrite Hlock.
  - rewrite run_table_get. apply list_elem_of_fmap in Hkey as ([k v]&->&[n Hn]%list_elem_of_lookup_1).
    rewrite <- (vo_kvs _ _ _ HV) in Hn. apply find_block in Hn as (i&d&a&Hd&Ha&_).
    destruct (get_damaged o V kvs HV (λ _, Some from_PoisonError) _ (λ _ lock, lock = Poisoned)
      (poisoned_source V f) id fr Poisoned i d a (k, v)) as (lock'&Hg&->); [done..|].
    cbn [fst] in *. fold t in Hg. rewrite Hg. cbn [bind]. rewrite run_bind. by rewrite IH.
Qed.

(** C33. What a panic in a critical section does to the other threads. When
    reading a block panics, of whatever table and file, the thread dies and the
    lock is poisoned for good. The others, on a strict table, go on and finish:
    every lookup of a key that is there returns the lock error, and so does opening a table; an
    iterator, which skips blocks it cannot read, reports the end without an
    error. *)
Theorem Panic_poisons_clients kvs file cache keys :
  strict_table o kvs file → cache_ids cache → Forall (λ key, key ∈ kvs.*1) keys →
  ∃ t cache1, Table_new o (BufferBackedFile file) (len file) cache = Done (Ok t, cache1) ∧
    ∀ t0 h0 k0 f, read_block t0 h0 cache1 = Fail f →
      let others := [script_t t ((Get <$> keys) ++ [Move MAdvance]); open_and_script_t o file []] in
      pool_step (ReadBlock t0 h0 k0 :: others, share cache1) (Crash f :: others, Poisoned) ∧
      ∀ s, rtc pool_step (Crash f :: others, Poisoned) s → nf pool_step s →
        s = ([Crash f; Ret (Ok (replicate (length keys) (Got (Err from_PoisonError)) ++ [Now None]));
              Ret (Err from_PoisonError)], Poisoned).
Proof.
  intros Hb [Hid _] Hin. destruct (format_parts kvs file Hb) as (V&fr&Hrd&Hstrict&Hnew&Hnew_t).
  exists (opened_at o V (BufferBackedFile file) (cache_id cache + 1) fr). eexists. split.
  { rewrite Hnew. unfold new_cache_id. by rewrite uadd_Done by lia. }
  intros t0 h0 k0 f Hpanic others. split.
  - apply (thread_steps (_ :: others) _ 0 (ReadBlock t0 h0 k0) (Crash f) Poisoned eq_refl).
    cbn [thread_step]. unfold read_section, share, write_section. by rewrite Hpanic.
  - intros s. apply poisoned_pool.
    + constructor; [done|]. constructor; [by apply (poisoned_script V kvs)|]. constructor; [|done].
      unfold settles, open_and_script_t. by rewrite Hnew_t.
    + constructor; [by right; exists f|]. do 2 (constructor; [by left; eexists|]). constructor.
Qed.
End properties.
