(* ===== verification/TableQuirks.v ===== *)
(** * Tables at their edges

    Concrete runs, from pairs to answers, of behaviours that the theorems for
    clients exclude by their hypotheses (TableEdges.v has general theorems on
    some), with the crates of Concrete.v: what
    the code does where a separator equals a key, where a seek target falls
    between two blocks, before the first pair, out of order and without a
    filter. *)

From S2P Require Export Concrete TableRoundtrip.

(** ** Whole runs *)

(** Data blocks of at most 20 bytes before they are flushed. *)
Definition tiny_options : Options :=
  mkOptions DefaultCmp 1024 20 4 CompressionNone (Bloom.policy (Bloom.new 10)).

(** The same with the policy of [TableBuilder::new_no_filter]. *)
Definition tiny_no_filter : Options :=
  mkOptions DefaultCmp 1024 20 4 CompressionNone NoFilterPolicy.

Section runs.
Context `{E : IntegerEncoding, !Crc32c, !Snappy}.

(** Build a table of [kvs] in memory, open it with a new cache of [n] blocks
    and continue with it. *)
Definition with_table {A} (o : Options) (n : Z) (kvs : list (bytes * bytes))
    (k : Table → Cache Block → outcome (result A)) : outcome (result A) :=
  let! (r, file) := build_table o kvs [] in
  match r with
  | Err e => Done (Err e)
  | Ok _ =>
      let! cache := Cache_new n in
      let! (r, cache) := Table_new o (BufferBackedFile file) (len file) cache in
      match r with
      | Err e => Done (Err e)
      | Ok t => k t cache
      end
  end.

Definition lookup_run o n kvs (keys : list bytes) : outcome (result (list (option bytes))) :=
  with_table o n kvs (λ t cache, let! (r, _) := table_gets t keys cache in Done r).

(** Moves of an iterator, then what it says and what it yields from there. *)
Definition iterator_run o n kvs (ms : list cursor_move) (fuel : nat) :
    outcome (result (bool * option (bytes * bytes) * list (bytes * bytes))) :=
  with_table o n kvs (λ t cache,
    let! it := table_iter t in
    let! s := foldM table_move ms (it, cache) in
    let! kv := current_key_val s in
    let! (rest, _) := drain fuel s in
    Done (Ok (valid s, kv, rest))).
End runs.

(** A value that fills a block. *)
Definition filler : bytes := replicate 20 x2a.

(** ** Behaviours *)

(** A key that equals the separator in front of its block is not found
    ([Table_get_present] in general): between "abc" and "abc\0" no shorter separator exists, the index entry of
    the first block becomes "abc\0", and looking up "abc\0" stops at that entry
    and answers [None], although the table holds the key (and iteration yields
    it). *)
Example get_misses_key :
  let kvs := [([x61; x62; x63], filler); ([x61; x62; x63; x00], filler)] in
  lookup_run tiny_options 8 kvs [[x61; x62; x63]; [x61; x62; x63; x00]] = Done (Ok [Some filler; None]) ∧
  iterator_run tiny_options 8 kvs [] 3 = Done (Ok (false, None, kvs)).
Proof. split; by vm_compute. Qed.

(** Seeking between two blocks ([TableIterator_seek_in_gap] in general): "aa" is above the last key of the first
    block, "a", and below its separator "b". The iterator is left invalid
    although "c" is at least the target, and advancing it then goes back to
    "a", below the target. *)
Example seek_in_gap :
  let kvs := [([x61], filler); ([x63], filler)] in
  find_ge DefaultCmp [x61; x61] kvs = Some 1%nat ∧
  iterator_run tiny_options 8 kvs [MSeek [x61; x61]] 3 = Done (Ok (false, None, kvs)).
Proof. split; by vm_compute. Qed.

(** After [prev] at the first pair, which leaves the iterator invalid,
    advancing yields the first block twice ([TableIterator_prev_first_repeats] in
    general). *)
Example prev_first_repeats :
  let kvs := [([x61], filler); ([x63], filler)] in
  iterator_run tiny_options 8 kvs [MAdvance; MPrev] 4
    = Done (Ok (false, None, [([x61], filler); ([x61], filler); ([x63], filler)])).
Proof. by vm_compute. Qed.

(** The order check of [add] compares with the last key of the block
    before the one being filled, not with the key added last: a key below its
    predecessor is accepted when it is the first of a block. The table has the
    pairs in the order they were added, and the lookup of that key answers
    [None]. *)
Example TableBuilder_accepts_unsorted :
  let kvs := [([x64], filler); ([x62], []); ([x78], [])] in
  sorted_kvs DefaultCmp kvs = false ∧
  iterator_run tiny_options 8 kvs [] 4 = Done (Ok (false, None, kvs)) ∧
  lookup_run tiny_options 8 kvs [[x64]; [x62]; [x78]] = Done (Ok [Some filler; None; Some []]).
Proof. split; [|split]; by vm_compute. Qed.

(** A table built without filters cannot be looked into with the same
    options: its filter block has only empty filters, which the reader does
    not accept. *)
Example Table_get_no_filter_panics :
  lookup_run tiny_no_filter 8 [([x61], filler)] [[x61]] = Panic.
Proof. by vm_compute. Qed.

(** *** Partial writes and reads *)

(** A destination that takes at most 16 bytes of each [write], as a pipe may. *)
Record Trickle := mkTrickle { trickled : bytes }.

#[export] Instance Trickle_Write : Write Trickle := {
  write d data := Done (inl (Z.min 16 (len data)), mkTrickle (trickled d ++ take 16 data));
  flush d := Done (inl tt, d);
}.
#[export] Instance Trickle_FixedIntWriter `{E : IntegerEncoding} : FixedIntWriter Trickle := {
  write_fixedint32 d x := Done (inl 4, mkTrickle (trickled d ++ encode_fixed32 x));
}.

(** A file whose [read_at] reads at most [n] bytes at a time. *)
Definition short_reads (n : nat) (f : bytes) : RandomAccess := mkRandomAccess (λ off dst,
  let? (r, part) := BufferBackedFile_read_at f off (take n dst) in
  Done (Ok (r, part ++ drop n dst))).

(** What a call does, without its value. *)
Definition panics {A} (m : outcome A) : bool :=
  match m with Fail Panicked => true | _ => false end.

Definition open_run `{E : IntegerEncoding, !Crc32c, !Snappy} o (f : RandomAccess) (size : Z) : outcome (result Table * Cache Block) :=
  let! cache := Cache_new 8 in Table_new o f size cache.

(** The builder ignores how much a [write] wrote, where the contract of
    [Write::write] allows less than it was given: over such a destination it
    returns [Ok] with a length, but the destination holds fewer bytes, and opening
    what it holds panics. *)
Example TableBuilder_ignores_short_writes :
  match build_table tiny_options [([x61], [x01])] (mkTrickle []) with
  | Done (Ok n, mkTrickle file) =>
      n = 129 ∧ len file = 96 ∧ panics (open_run tiny_options (BufferBackedFile file) (len file)) = true
  | _ => False
  end.
Proof. vm_compute. auto. Qed.

(** The reader ignores how much [read_at] read: where the contract allows less
    than was asked for, as it does for [FileExt::read_at], the footer of a good
    file is read in part, and opening panics. *)
Example Table_new_short_read_panics :
  match build_table tiny_options [([x61], [x01])] [] with
  | Done (Ok n, file) =>
      n = len file ∧ panics (open_run tiny_options (BufferBackedFile file) n) = false ∧
      panics (open_run tiny_options (short_reads 40 file) n) = true
  | _ => False
  end.
Proof. vm_compute. auto. Qed.

(** *** Filters of another policy *)

(** A policy with a name behind that of the Bloom filter, and filters of its own. *)
Definition other_policy : FilterPolicy :=
  mkFilterPolicy "z" (λ _ _, Done [x00; x06]) (λ _ _, Done true).
Definition tiny_other : Options := mkOptions DefaultCmp 1024 20 4 CompressionNone other_policy.

Definition foreign_run `{E : IntegerEncoding, !Crc32c, !Snappy} (o o' : Options) kvs (keys : list bytes) :
    outcome (result (list (option bytes))) :=
  let! (r, file) := build_table o kvs [] in
  match r with
  | Err e => Done (Err e)
  | Ok _ =>
      let! (r, cache) := open_run o' (BufferBackedFile file) (len file) in
      match r with
      | Err e => Done (Err e)
      | Ok t => let! (r, _) := table_gets t keys cache in Done r
      end
  end.

(** The reader takes the metaindex entry that it finds by seeking the name of its
    policy, without looking at the key of that entry: the filters of another
    policy, with a name behind it, are read as its own, and a key that is in the
    table is not found. *)
Example Table_get_foreign_filter :
  foreign_run tiny_other tiny_other [([x61], [x01])] [[x61]] = Done (Ok [Some [x01]]) ∧
  foreign_run tiny_other tiny_options [([x61], [x01])] [[x61]] = Done (Ok [None]).
Proof. split; by vm_compute. Qed.
