(* ===== verification/TestUtil.v ===== *)
(** * The shared iterator test (src/test_util.rs)

    [test_iterator_properties] is the executable contract of an iterator: every
    iterator of the crate is meant to pass it. It is modelled as a function
    whose failed assertions are panics, and proved for the iterators of blocks
    and tables; [TestSSIter], the iterator over a vector, is modelled too. *)

From S2P Require Export TableRoundtrip.

(** ** TestSSIter *)

Record TestSSIter := mkTestSSIter { ts_v : list (bytes * bytes); ts_ix : Z; ts_init : bool }.

Definition TestSSIter_new (c : list (bytes * bytes)) : TestSSIter := mkTestSSIter c 0 false.

Section TestSSIter.
Implicit Types self : TestSSIter.

Definition ts_advance self : outcome (bool * TestSSIter) :=
  let! last := usub (len (ts_v self)) 1 in
  if ts_ix self =? last then Done (false, mkTestSSIter (ts_v self) (ts_ix self + 1) (ts_init self))
  else if negb (ts_init self) then Done (true, mkTestSSIter (ts_v self) (ts_ix self) true)
  else Done (true, mkTestSSIter (ts_v self) (ts_ix self + 1) (ts_init self)).

Definition ts_reset self : TestSSIter := mkTestSSIter (ts_v self) 0 false.

Definition ts_valid self : bool := ts_init self && (ts_ix self <? len (ts_v self)).

Definition ts_current self (key val : bytes) : outcome (bool * bytes * bytes) :=
  if ts_init self && (ts_ix self <? len (ts_v self)) then
    let! kv := index (ts_v self) (ts_ix self) in
    Done (true, kv.1, kv.2)
  else Done (false, key, val).

Definition ts_current_key self : option bytes :=
  if ts_init self && (ts_ix self <? len (ts_v self)) then fst <$> ts_v self !! Z.to_nat (ts_ix self)
  else None.

(** [while self.ix < self.v.len() && cmp(self.v[self.ix].0, k) == Less] over
    the elements from [ix] on *)
Fixpoint ts_skip (rest : list (bytes * bytes)) (k : bytes) (ix : Z) : Z :=
  match rest with
  | [] => ix
  | kv :: rest =>
      match cmp DefaultCmp kv.1 k with
      | Lt => ts_skip rest k (ix + 1)
      | _ => ix
      end
  end.

Definition ts_seek self (k : bytes) : TestSSIter :=
  mkTestSSIter (ts_v self) (ts_skip (ts_v self) k 0) true.

Definition ts_prev self : bool * TestSSIter :=
  if negb (ts_init self) || (ts_ix self =? 0) then (false, mkTestSSIter (ts_v self) (ts_ix self) false)
  else (true, mkTestSSIter (ts_v self) (ts_ix self - 1) (ts_init self)).

#[export] Instance TestSSIter_SSIterator : SSIterator TestSSIter := {
  advance := ts_advance;
  current := ts_current;
  current_key := ts_current_key;
  seek self k := Done (ts_seek self k);
  reset self := Done (ts_reset self);
  valid := ts_valid;
  prev self := Done (ts_prev self);
}.
End TestSSIter.

(** [SSIteratorIter]: the standard iterator over an [SSIterator] is [next]. *)
Definition SSIteratorIter_next {It} `{!SSIterator It} (inner : It) : outcome (option (bytes * bytes) * It) :=
  next inner.

(** ** test_iterator_properties *)

Section test.
Context {It : Type} `{I : !SSIterator It}.

(** [x.as_ref().unwrap().0] *)
Definition unwrap_key (x : option (bytes * bytes)) : outcome bytes :=
  match x with Some kv => Done kv.1 | None => Panic end.

(** [assert_eq!(x.as_ref().unwrap().0, it.current_key().unwrap())] *)
Definition assert_key (x : option (bytes * bytes)) (it : It) : outcome unit :=
  let! k := unwrap_key x in
  match current_key it with
  | Some k' => assert! bool_decide (k = k') in Done tt
  | None => Panic
  end.

(** [assert_eq!(x, current_key_val(&it))] *)
Definition assert_current (x : option (bytes * bytes)) (it : It) : outcome unit :=
  let! y := current_key_val it in
  assert! bool_decide (x = y) in Done tt.

(** [assert!(it.advance())] and [assert!(it.prev())], and their negations. *)
Definition assert_advance (want : bool) (it : It) : outcome It :=
  let! (r, it) := advance it in
  assert! Bool.eqb r want in Done it.
Definition assert_prev (want : bool) (it : It) : outcome It :=
  let! (r, it) := prev it in
  assert! Bool.eqb r want in Done it.

Definition test_iterator_properties (it : It) : outcome unit :=
  assert! negb (valid it) in
  let! it := assert_advance true it in
  assert! valid it in
  let! first := current_key_val it in
  let! _ := assert_key first it in
  let! it := assert_advance true it in
  let! second := current_key_val it in
  let! _ := assert_key second it in
  let! it := assert_advance true it in
  let! third := current_key_val it in
  let! _ := assert_key third it in
  let! it := assert_advance true it in
  assert! valid it in
  let! fourth := current_key_val it in
  let! _ := assert_key fourth it in
  let! it := assert_advance false it in
  assert! negb (valid it) in
  let! it := reset it in
  let! k4 := unwrap_key fourth in
  let! it := seek it k4 in
  assert! valid it in
  let! k2 := unwrap_key second in
  let! it := seek it k2 in
  assert! valid it in
  let! (_, it) := prev it in
  let! _ := assert_current first it in
  let! it := reset it in
  assert! negb (valid it) in
  let! it := assert_advance true it in
  let! _ := assert_current first it in
  let! it := assert_advance true it in
  let! _ := assert_current second it in
  let! it := assert_advance true it in
  let! _ := assert_current third it in
  let! it := assert_prev true it in
  let! _ := assert_current second it in
  let! it := assert_prev true it in
  let! _ := assert_current first it in
  let! it := assert_prev false it in
  assert! negb (valid it) in
  Done tt.
End test.

(** ** What the test needs of an iterator

    A cursor over [kvs] that can be moved in both directions and to the keys
    that are there. After the end it need only be invalid until it is reset. *)

Class SSIteratorCursor {It : Type} (I : SSIterator It) (kvs : list (bytes * bytes))
    (Rep : It → option nat → Prop) : Prop := {
  cursor_advance it pos kv : Rep it pos → kvs !! cursor_succ pos = Some kv →
    ∃ it', advance it = Done (true, it') ∧ Rep it' (Some (cursor_succ pos));
  cursor_end it pos : Rep it pos → kvs !! cursor_succ pos = None →
    ∃ it' it'', advance it = Done (false, it') ∧ valid it' = false ∧ reset it' = Done it'' ∧ Rep it'' None;
  cursor_current it i kv : Rep it (Some i) → kvs !! i = Some kv → current_key_val it = Done (Some kv);
  cursor_key it i kv : Rep it (Some i) → kvs !! i = Some kv → current_key it = Some kv.1;
  cursor_reset it pos : Rep it pos → ∃ it', reset it = Done it' ∧ Rep it' None;
  cursor_valid it pos : Rep it pos → valid it = bool_decide (is_Some pos);
  cursor_seek it pos i kv : Rep it pos → kvs !! i = Some kv →
    ∃ it', seek it kv.1 = Done it' ∧ Rep it' (Some i);
  cursor_prev it i : Rep it (Some (S i)) → ∃ it', prev it = Done (true, it') ∧ Rep it' (Some i);
  cursor_prev_first it : Rep it (Some 0%nat) → ∃ it', prev it = Done (false, it') ∧ valid it' = false;
}.

Section cursor.
Context {It : Type} `{I : !SSIterator It} (kvs : list (bytes * bytes)).
Context (Rep : It → option nat → Prop).

(** A forward cursor that also seeks present keys and goes back. *)
Lemma forward_cursor :
  SSIteratorForward I kvs Rep →
  (∀ it pos i kv, Rep it pos → kvs !! i = Some kv → ∃ it', seek it kv.1 = Done it' ∧ Rep it' (Some i)) →
  (∀ it i, Rep it (Some (S i)) → ∃ it', prev it = Done (true, it') ∧ Rep it' (Some i)) →
  (∀ it, Rep it (Some 0%nat) → ∃ it', prev it = Done (false, it') ∧ valid it' = false) →
  SSIteratorCursor I kvs Rep.
Proof.
  intros HF Hseek Hprev Hfirst. split; [| | | | | |done..].
  - apply advance_more.
  - intros it pos Hr Hn. destruct (advance_done it pos Hr Hn) as (it'&->&Hr').
    destruct (reset_rep it' None Hr') as (it''&?&?). exists it', it''. split; [done|].
    by rewrite (valid_rep it' None Hr').
  - intros it i kv Hr Hkv. rewrite (current_key_val_spec kvs Rep it (Some i) Hr). by cbn; rewrite Hkv.
  - intros it i kv Hr Hkv. rewrite (current_key_rep it (Some i) Hr). by cbn; rewrite Hkv.
  - apply reset_rep.
  - apply valid_rep.
Qed.

Context `{!SSIteratorCursor I kvs Rep}.

Lemma assert_advance_more it pos kv :
  Rep it pos → kvs !! cursor_succ pos = Some kv →
  ∃ it', assert_advance true it = Done it' ∧ Rep it' (Some (cursor_succ pos)).
Proof.
  intros Hr Hkv. unfold assert_advance. destruct (cursor_advance it pos kv Hr Hkv) as (it'&->&?). by exists it'.
Qed.

Lemma assert_advance_end it pos :
  Rep it pos → kvs !! cursor_succ pos = None →
  ∃ it' it'', assert_advance false it = Done it' ∧ valid it' = false ∧ reset it' = Done it'' ∧ Rep it'' None.
Proof.
  intros Hr Hkv. unfold assert_advance. destruct (cursor_end it pos Hr Hkv) as (it'&it''&->&?).
  by exists it', it''.
Qed.

Lemma assert_prev_more it i :
  Rep it (Some (S i)) → ∃ it', assert_prev true it = Done it' ∧ Rep it' (Some i).
Proof. intros Hr. unfold assert_prev. destruct (cursor_prev it i Hr) as (it'&->&?). by exists it'. Qed.

Lemma assert_prev_first it :
  Rep it (Some 0%nat) → ∃ it', assert_prev false it = Done it' ∧ valid it' = false.
Proof. intros Hr. unfold assert_prev. destruct (cursor_prev_first it Hr) as (it'&->&?). by exists it'. Qed.

Lemma assert_key_at it i kv : Rep it (Some i) → kvs !! i = Some kv → assert_key (Some kv) it = Done tt.
Proof.
  intros Hr Hkv. unfold assert_key. rewrite (cursor_key it i kv Hr Hkv). cbn.
  by rewrite bool_decide_eq_true_2.
Qed.

Lemma assert_current_at it i kv : Rep it (Some i) → kvs !! i = Some kv → assert_current (Some kv) it = Done tt.
Proof.
  intros Hr Hkv. unfold assert_current. rewrite (cursor_current it i kv) by done. cbn.
  by rewrite bool_decide_eq_true_2.
Qed.

Lemma valid_at it i : Rep it (Some i) → valid it = true.
Proof. intros Hr. by rewrite (cursor_valid it (Some i) Hr). Qed.

Lemma valid_no it : Rep it None → valid it = false.
Proof. intros Hr. by rewrite (cursor_valid it None Hr). Qed.
End cursor.

(** One step of the test, with an iterator at a known position of [kvs]. *)
Ltac cursor_step kvs Rep :=
  cbn [bind negb cursor_succ unwrap_key] in *;
  lazymatch goal with
  | Hr : Rep ?it ?pos |- bind (assert_advance true ?it) _ = _ =>
      destruct (assert_advance_more kvs Rep it pos _ Hr eq_refl) as (?&->&?)
  | Hr : Rep ?it ?pos |- bind (assert_advance false ?it) _ = _ =>
      destruct (assert_advance_end kvs Rep it pos Hr eq_refl) as (?&?&->&?&?&?)
  | Hr : Rep ?it (Some (S ?i)) |- bind (assert_prev true ?it) _ = _ =>
      destruct (assert_prev_more kvs Rep it i Hr) as (?&->&?)
  | Hr : Rep ?it (Some 0%nat) |- bind (assert_prev false ?it) _ = _ =>
      destruct (assert_prev_first kvs Rep it Hr) as (?&->&?)
  | Hr : Rep ?it (Some (S ?i)) |- bind (prev ?it) _ = _ =>
      destruct (cursor_prev (kvs := kvs) it i Hr) as (?&->&?)
  | Hr : Rep ?it (Some ?i) |- bind (current_key_val ?it) _ = _ =>
      rewrite (cursor_current (kvs := kvs) (Rep := Rep) it i _ Hr eq_refl)
  | Hr : Rep ?it (Some ?i) |- bind (assert_key _ ?it) _ = _ =>
      rewrite (assert_key_at kvs Rep it i _ Hr eq_refl)
  | Hr : Rep ?it (Some ?i) |- bind (assert_current _ ?it) _ = _ =>
      rewrite (assert_current_at kvs Rep it i _ Hr eq_refl)
  | Hs : reset ?it = Done _ |- bind (reset ?it) _ = _ => rewrite Hs
  | Hr : Rep ?it ?pos |- bind (reset ?it) _ = _ => destruct (cursor_reset (kvs := kvs) it pos Hr) as (?&->&?)
  | Hr : Rep ?it (Some ?i) |- (if valid ?it then _ else _) = _ => rewrite (valid_at kvs Rep it i Hr)
  | Hr : Rep ?it None |- (if negb (valid ?it) then _ else _) = _ => rewrite (valid_no kvs Rep it Hr)
  | Hv : valid ?it = false |- (if negb (valid ?it) then _ else _) = _ => rewrite Hv
  end.

Section passes.
Context {It : Type} `{I : !SSIterator It} (a b c d : bytes * bytes).
Context (Rep : It → option nat → Prop) `{HC : !SSIteratorCursor I [a; b; c; d] Rep}.

(** A cursor over four pairs passes the test. *)
Lemma cursor_passes it : Rep it None → test_iterator_properties it = Done tt.
Proof.
  intros H0. unfold test_iterator_properties. repeat cursor_step [a; b; c; d] Rep.
  cbn [bind unwrap_key]. match goal with |- bind (seek ?it _) _ = _ =>
    destruct (cursor_seek it None 3 d ltac:(done) eq_refl) as (?&->&?) end.
  do 1 cursor_step [a; b; c; d] Rep.
  cbn [bind unwrap_key]. match goal with |- bind (seek ?it _) _ = _ =>
    destruct (cursor_seek it (Some 3%nat) 1 b ltac:(done) eq_refl) as (?&->&?) end.
  repeat cursor_step [a; b; c; d] Rep. done.
Qed.
End passes.

(** An iterator with the whole contract is such a cursor. *)
Lemma spec_cursor {It} (I : SSIterator It) c kvs Rep `{!CmpOrder c} :
  sorted_kvs c kvs = true → SSIteratorSpec I c kvs Rep → SSIteratorBack I kvs Rep →
  SSIteratorCursor I kvs Rep.
Proof.
  intros Hs HS HB. apply forward_cursor.
  - exact _.
  - intros it pos i kv Hr Hi. destruct (seek_rep it pos kv.1 Hr) as (it'&->&Hr').
    rewrite (find_ge_present c kvs i kv Hs Hi) in Hr'. by exists it'.
  - intros it i. apply prev_more.
  - intros it Hr. destruct (prev_done it Hr) as (it'&->&Hr'). exists it'. split; [done|].
    by rewrite (valid_rep it' None Hr').
Qed.

(** ** TestSSIter is a cursor over two pairs or more *)

Section test_iter.
Context (kvs : list (bytes * bytes)) (Hs : sorted_kvs DefaultCmp kvs = true) (H2 : 2 ≤ len kvs).

#[local] Existing Instance DefaultCmpLaws.DefaultCmp_order.

Definition ts_rep (it : TestSSIter) (pos : option nat) : Prop :=
  ts_v it = kvs ∧
  match pos with
  | None => ts_ix it = 0 ∧ ts_init it = false
  | Some i => (i < length kvs)%nat ∧ ts_ix it = Z.of_nat i ∧ ts_init it = true
  end.

Lemma ts_skip_present rest k n i kv :
  (∀ j kv', (j < i)%nat → rest !! j = Some kv' → cmp DefaultCmp kv'.1 k = Lt) →
  rest !! i = Some kv → kv.1 = k → ts_skip rest k n = n + Z.of_nat i.
Proof.
  revert n i. induction rest as [|kv0 rest IH]; intros n i Hlt Hi <-; [done|]. destruct i as [|i]; cbn in *.
  - injection Hi as ->. rewrite DefaultCmpLaws.bytes_cmp_refl. lia.
  - pose proof (Hlt 0%nat kv0 ltac:(lia) eq_refl) as H0. cbn in H0. rewrite H0.
    rewrite (IH (n + 1) i); [lia| |done|done]. intros j kv' Hj Hkv'. apply (Hlt (S j)); [lia|done].
Qed.

Lemma ts_cursor : SSIteratorCursor TestSSIter_SSIterator kvs ts_rep.
Proof.
  unfold len in H2. split.
  - intros [v ix init] [i|] kv [Hv Hpos] Hkv; cbn in *; subst v; unfold ts_advance; cbn [ts_v ts_ix ts_init];
      (rewrite usub_Done by (unfold len; lia)); cbn [bind]; apply lookup_lt_Some in Hkv as Hlt; cbn in Hlt.
    + destruct Hpos as (?&->&->). rewrite (proj2 (Z.eqb_neq _ _)) by (unfold len; lia). cbn [negb].
      eexists. split; [done|]. split; [done|]. cbn. split; [done|]. split; [lia|done].
    + destruct Hpos as (->&->). rewrite (proj2 (Z.eqb_neq _ _)) by (unfold len; lia). cbn [negb].
      eexists. split; [done|]. by split.
  - intros [v ix init] [i|] [Hv Hpos] Hkv; cbn in *; subst v; apply lookup_ge_None in Hkv; [|cbn in *; lia].
    destruct Hpos as (?&->&->). unfold ts_advance. cbn [ts_v ts_ix ts_init].
    rewrite usub_Done by (unfold len; lia). cbn [bind]. rewrite (proj2 (Z.eqb_eq _ _)) by (unfold len; lia).
    eexists _, _. split; [done|]. unfold ts_valid. cbn. split; [|by split].
    apply Z.ltb_ge. unfold len. lia.
  - intros [v ix init] i kv [Hv (?&Hix&Hin)] Hkv. cbn in *. subst. unfold current_key_val. cbn.
    unfold ts_current. cbn. rewrite (proj2 (Z.ltb_lt _ _)) by (unfold len; lia). cbn [andb].
    rewrite (index_Done kvs i kv Hkv). cbn. by destruct kv.
  - intros [v ix init] i kv [Hv (?&Hix&Hin)] Hkv. cbn in *. subst. unfold ts_current_key. cbn.
    rewrite (proj2 (Z.ltb_lt _ _)) by (unfold len; lia). by rewrite Nat2Z.id, Hkv.
  - intros [v ix init] pos [Hv _]. cbn in *. eexists. split; [done|]. by split.
  - intros [v ix init] [i|] [Hv Hpos]; cbn in *; unfold ts_valid; cbn; subst v.
    + destruct Hpos as (?&->&->). apply Z.ltb_lt. unfold len. lia.
    + by destruct Hpos as [_ ->].
  - intros [v ix init] pos i kv [Hv _] Hi. cbn in *. subst v. eexists. split; [done|]. split; [done|].
    split; [by eapply lookup_lt_Some|]. split; [|done]. cbn. apply (ts_skip_present kvs kv.1 0 i kv); [|done|done].
    intros j kv' Hj Hkv'. by apply (sorted_lt DefaultCmp kvs j i).
  - intros [v ix init] i [Hv (?&Hix&Hin)]. cbn in *. subst. unfold ts_prev. cbn. eexists. split; [done|].
    split; [done|]. cbn. split; [lia|]. split; [lia|done].
  - intros [v ix init] [Hv (?&Hix&Hin)]. cbn in *. subst. unfold ts_prev. cbn. by eexists.
Qed.
End test_iter.

(** ** Properties *)

(** The iterator of a block of four pairs passes the shared test. *)
Theorem BlockIter_passes_test `{E : IntegerEncoding, !IntegerEncodingSpec E} o `{!CmpOrder (opt_cmp o)}
    a b c d contents :
  0 < block_restart_interval o → nonempty_keys [a; b; c; d] →
  build_block o [a; b; c; d] = Done contents → len contents < U32 →
  ∃ blk it, Block_new o contents = Done blk ∧ Block_iter blk = Done it ∧
    test_iterator_properties it = Done tt.
Proof.
  intros Hri Hk Hb Hsz. pose proof (build_block_of o o _ _ eq_refl Hri Hb) as Hblock.
  pose proof (built_len o _ _ Hblock) as Hlen. destruct (built_iter o [a; b; c; d] contents Hk Hblock Hsz) as (it&Hit&Hrep).
  exists (mkBlock contents o), it. split; [unfold Block_new; by rewrite (proj2 (Z.ltb_lt _ _)) by lia|]. split; [done|].
  assert (HC : SSIteratorCursor BlockIter_SSIterator [a; b; c; d] (built_rep o [a; b; c; d] contents)).
  { refine (spec_cursor _ (opt_cmp o) _ _ _ (built_spec o _ _ Hsz) (built_back o _ _ Hsz)).
    unfold build_block in Hb. apply bind_Done in Hb as (bb&Hb&_). by eapply sorted_of_add_all. }
  by apply (cursor_passes a b c d _ (HC := HC)).
Qed.

(** The iterator of a table of four pairs passes the shared test,
    however the pairs are spread over blocks. *)
Theorem TableIterator_passes_test
    `{E : IntegerEncoding, !IntegerEncodingSpec E, C : Crc32c, !Crc32cSpec C, Sn : Snappy, !SnappySpec Sn}
    o `{!CmpOrder (opt_cmp o), !CmpSep (opt_cmp o), !CmpNil (opt_cmp o)} fits
    `{!FilterPolicySpec (filter_policy o) fits, !FilterPolicyNonempty (filter_policy o) fits}
    a b c d file cache :
  built_table o fits [a; b; c; d] file → separable (opt_cmp o) [a; b; c; d] → cache_ids cache →
  ∃ t cache1 it, Table_new o (BufferBackedFile file) (len file) cache = Done (Ok t, cache1) ∧
    table_iter t = Done it ∧ test_iterator_properties (it, cache1) = Done tt.
Proof.
  intros Hb Hsep Hids.
  destruct (open_iter o fits _ file cache Hb Hids) as (V&fr&t&cache1&it&[HV Hread _]&Hch&Hnew&_&Hit&Hrep).
  exists t, cache1, it. split; [done|]. split; [done|].
  pose proof (cache_source_ok o V _ HV _ Hread (λ _ _, True)) as Hsrc.
  pose proof (chosen_strict o V _ HV Hsep Hch) as Hstrict.
  set (Rep := table_rep o V _ (cache_ok o V (λ _ _, True)) (cache_id cache + 1) fr) in *.
  enough (HC : SSIteratorCursor TableIterator_SSIterator [a; b; c; d] Rep)
    by by apply (cursor_passes a b c d Rep (HC := HC)). apply forward_cursor.
  - by apply table_forward.
  - intros s pos i kv Hr Hi. rewrite <- (vo_kvs _ _ _ HV) in Hi. apply find_block in Hi as (j&dd&x&Hd&Hx&->).
    by apply (table_seek_present o V _ HV _ _ Hsrc _ fr s pos j dd x kv).
  - intros s i. exact (table_prev_more o V _ HV _ _ Hsrc _ fr s i).
  - intros s Hs. destruct (table_prev_first o V _ HV _ _ _ fr s Hs) as (s'&_&?&?&_). by exists s'.
Qed.

(** [TestSSIter] over four sorted pairs passes the test it is there to
    calibrate. *)
Theorem TestSSIter_passes_test a b c d :
  sorted_kvs DefaultCmp [a; b; c; d] = true →
  test_iterator_properties (TestSSIter_new [a; b; c; d]) = Done tt.
Proof.
  intros Hs. apply (cursor_passes a b c d (ts_rep [a; b; c; d])
    (HC := ts_cursor [a; b; c; d] Hs ltac:(unfold len; simpl; lia))). by split.
Qed.

(** Where [TestSSIter] leaves the contract of [advance]: a vector of one
    pair is never entered, so that the pair is not yielded; after the end,
    [advance] answers yes again although the iterator is not valid; over an
    empty vector [advance] underflows and panics. *)
Theorem TestSSIter_edges (kv : bytes * bytes) (kvs : list (bytes * bytes)) :
  (∃ it, advance (TestSSIter_new [kv]) = Done (false, it)) ∧
  advance (TestSSIter_new []) = Panic ∧
  (kvs ≠ [] → ∃ it, advance (mkTestSSIter kvs (len kvs) true) = Done (true, it) ∧ valid it = false).
Proof.
  split; [by eexists|]. split; [done|]. intros Hne. cbn. unfold ts_advance. cbn [ts_v ts_ix ts_init].
  assert (0 < len kvs) by (destruct kvs; [done|rewrite len_cons; pose proof (len_nonneg kvs); lia]).
  rewrite usub_Done by lia. cbn [bind]. rewrite (proj2 (Z.eqb_neq _ _)) by lia. cbn [negb].
  eexists. split; [done|]. unfold ts_valid. cbn. apply Z.ltb_ge. lia.
Qed.
