(* ===== verification/Witnesses.v ===== *)
(** * Witnesses

    Each theorem with hypotheses, applied at a concrete input where they hold,
    with the crates of Concrete.v. *)

From S2P Require Import Concrete BlockHandle Filter FilterBlock BlockRoundtrip CacheProofs.
From S2P Require Import TableBuilderTotal TableRoundtrip TableSize RwSstable TableDamage TableEdges TableSafety TableConcurrent TableDestinations TableQuirks TestUtil.

(** ** Concrete data *)

Definition small_options : Options :=
  mkOptions DefaultCmp 1024 40 2 CompressionNone (Bloom.policy (Bloom.new 10)).

#[export] Instance small_order : CmpOrder (opt_cmp small_options) := DefaultCmpLaws.DefaultCmp_order.

(** Five pairs, in three restart groups. *)
Definition pairs5 : list (bytes * bytes) :=
  [([x61], [x01]); ([x61; x62], [x02]); ([x61; x63], []); ([x62], [x03; x04]); ([x62; x00], [x05])].

Definition block5 : bytes :=
  match build_block small_options pairs5 with Done c => c | _ => [] end.

(** The value of a run, and that it has one: only a boolean is evaluated. *)
Definition get_done {A} (d : A) (m : outcome A) : A :=
  match m with Done a => a | Fail _ => d end.
Definition is_done {A} (m : outcome A) : bool :=
  match m with Done _ => true | Fail _ => false end.

Lemma get_done_eq {A} (d : A) m : is_done m = true → m = Done (get_done d m).
Proof. by destruct m. Qed.

(** The state of a run that ended in [Ok]: only a boolean is evaluated. *)
Definition ended_ok {A D} (m : outcome (result A * D)) : bool :=
  match m with Done (Ok _, _) => true | _ => false end.

Definition no_iter : BlockIter := mkBlockIter [] small_options 0 0 0 0 [] 0.
Definition iter5 : BlockIter := get_done no_iter (Block_iter (mkBlock block5 small_options)).

Fixpoint advances (n : nat) (it : BlockIter) : outcome BlockIter :=
  match n with
  | O => Done it
  | S n => let! (_, it) := bi_advance it in advances n it
  end.

(** The iterator at its third pair. *)
Definition iter5_at2 : BlockIter := get_done no_iter (advances 3 iter5).

Lemma advances_reachable b n it it' :
  bi_reachable b it → advances n it = Done it' → bi_reachable b it'.
Proof.
  revert it. induction n as [|n IH]; intros it Hr; simpl; [by intros [= <-]|].
  intros ([r it1]&Ha&H)%bind_Done. eapply IH; [|done]. eapply reach_step; [done|]. by eapply step_advance.
Qed.

Lemma block5_built : build_block small_options pairs5 = Done block5.
Proof. by vm_compute. Qed.

Lemma pairs5_nonempty : nonempty_keys pairs5.
Proof. by repeat constructor. Qed.

Lemma iter5_reachable : bi_reachable (mkBlock block5 small_options) iter5.
Proof. apply reach_iter. apply (get_done_eq no_iter). by vm_compute. Qed.

Lemma iter5_at2_reachable : bi_reachable (mkBlock block5 small_options) iter5_at2.
Proof.
  apply (advances_reachable _ 3 iter5); [apply iter5_reachable|].
  apply (get_done_eq no_iter). by vm_compute.
Qed.

(** ** Block handles and blocks *)

Lemma BlockHandle_roundtrip_witness :
  ∃ dst' n, BlockHandle_encode_to (mkBlockHandle 300 7) (replicate 16 x00) = Done (dst', n) ∧
    BlockHandle_decode dst' = Done (mkBlockHandle 300 7, n) ∧
    len dst' = len (replicate 16 x00) ∧ drop (Z.to_nat n) dst' = drop (Z.to_nat n) (replicate 16 x00).
Proof. apply BlockHandle_roundtrip; [by vm_compute|by vm_compute]. Defined.

Lemma BlockIter_terminates_witness :
  bi_reachable (mkBlock block5 small_options) iter5 ∧
  terminates (bi_advance iter5) ∧ terminates (bi_prev iter5) ∧ terminates (bi_seek iter5 [x62]) ∧
  terminates (seek_to_last iter5) ∧ terminates (bi_current iter5 [] []).
Proof. split; [apply iter5_reachable|]. apply (BlockIter_terminates _ _ _ iter5_reachable). Defined.

Lemma Block_contract_witness :
  ∃ b it Rep, Block_new small_options block5 = Done b ∧ Block_iter b = Done it ∧ Rep it None ∧
    SSIteratorSpec BlockIter_SSIterator DefaultCmp pairs5 Rep ∧
    SSIteratorBack BlockIter_SSIterator pairs5 Rep.
Proof.
  apply (Block_contract small_options pairs5 block5);
    [by vm_compute|apply pairs5_nonempty|apply block5_built|by vm_compute].
Defined.

Lemma BlockBuilder_accepts_sorted_witness :
  0 < block_restart_interval small_options ∧
  (returns (build_block small_options (rev pairs5)) ↔ sorted_kvs DefaultCmp (rev pairs5) = true).
Proof. split; [by vm_compute|]. apply (BlockBuilder_accepts_sorted small_options). by vm_compute. Defined.

Lemma Block_roundtrip_witness :
  ∃ b it it', Block_new small_options block5 = Done b ∧ Block_iter b = Done it ∧
    drain (S (length pairs5)) it = Done (pairs5, it') ∧ bi_valid it' = false.
Proof.
  apply (Block_roundtrip small_options pairs5 block5);
    [by vm_compute|apply pairs5_nonempty|apply block5_built|by vm_compute].
Defined.

Lemma Block_seek_finds_ge_witness :
  ∃ it', bi_seek iter5_at2 [x61; x62; x63] = Done it' ∧
    current_key_val it' = Done (i ← find_ge DefaultCmp [x61; x62; x63] pairs5; pairs5 !! i).
Proof.
  apply (Block_seek_finds_ge small_options pairs5 block5);
    [by vm_compute|apply pairs5_nonempty|apply block5_built|by vm_compute|apply iter5_at2_reachable].
Defined.

Lemma BlockIter_never_panics_witness :
  returns (bi_advance iter5_at2) ∧ returns (bi_prev iter5_at2) ∧
  (∀ to, returns (bi_seek iter5_at2 to)) ∧
  (pairs5 ≠ [] → returns (seek_to_last iter5_at2)) ∧ returns (bi_current iter5_at2 [] []).
Proof.
  apply (BlockIter_never_panics small_options pairs5 block5);
    [by vm_compute|apply pairs5_nonempty|apply block5_built|by vm_compute|apply iter5_at2_reachable].
Defined.

Lemma BlockIter_seek_to_last_witness :
  ∃ it', seek_to_last iter5_at2 = Done it' ∧ current_key_val it' = Done (Some ([x62; x00], [x05])) ∧
    ∃ it'', bi_advance it' = Done (false, it'').
Proof.
  apply (BlockIter_seek_to_last small_options pairs5 block5);
    [by vm_compute|apply pairs5_nonempty|apply block5_built|by vm_compute|apply iter5_at2_reachable|done].
Defined.

Lemma BlockIter_prev_after_reset_witness :
  ∃ it', bi_prev (bi_reset iter5_at2) = Done (true, it') ∧ current_key_val it' = Done (pairs5 !! 1%nat).
Proof.
  apply (BlockIter_prev_after_reset small_options pairs5 block5 iter5_at2 1);
    [by vm_compute|apply pairs5_nonempty|apply block5_built|by vm_compute|apply iter5_at2_reachable
    |by vm_compute|by eexists].
Defined.

Lemma BlockBuilder_size_estimate_exact_witness :
  len (bb_finish (BlockBuilder_new small_options)) = bb_size_estimate (BlockBuilder_new small_options).
Proof. apply BlockBuilder_size_estimate_exact. Defined.

(** ** Filters *)

Definition keys3 : list bytes := [[x61]; [x62; x63]; [x64; x00; xff; x10; x11]].

Lemma BloomPolicy_no_false_negatives_witness :
  0 ≤ 10 ∧ BloomProofs.fits (Bloom.new 10) keys3 ∧
  ∃ f, create_filter (Bloom.policy (Bloom.new 10)) (mjoin keys3) (key_offsets keys3) = Done f ∧
       ∀ key, key ∈ keys3 → key_may_match (Bloom.policy (Bloom.new 10)) key f = Done true.
Proof.
  assert (H : BloomProofs.fits (Bloom.new 10) keys3) by (split; [by vm_compute|by repeat constructor]).
  split; [lia|]. split; [exact H|]. apply BloomPolicy_no_false_negatives; [lia|exact H].
Defined.

(** The largest setting, for one key. *)
Lemma BloomPolicy_size_wraps_witness :
  create_filter (Bloom.policy (Bloom.new (U32 - 1))) (mjoin [[x61]]) (key_offsets [[x61]]) = Panic.
Proof. apply BloomPolicy_size_wraps; [by vm_compute|done|by repeat constructor|by vm_compute]. Defined.

(** Two data blocks, at offsets 0 and 5000: the second belongs to filter 2. *)
Definition filter_blocks : list (Z * list bytes) := [(0, keys3); (5000, [[x65]])].

Definition bloom10 : FilterPolicy := Bloom.policy (Bloom.new 10).
Definition bloom10_fits := BloomProofs.fits (Bloom.new 10).

#[export] Instance bloom10_spec : FilterPolicySpec bloom10 bloom10_fits := BloomProofs.BloomPolicy_spec 10 ltac:(lia).
#[export] Instance bloom10_nonempty : FilterPolicyNonempty bloom10 bloom10_fits := BloomPolicy_nonempty 10 ltac:(lia).

(** Few and short keys fit the filter. *)
Lemma bloom10_fits_sublist (ks l : list bytes) :
  bloom10_fits ks → l `sublist_of` ks → bloom10_fits l.
Proof.
  intros [Hl Hk] Hs. split; [|rewrite Forall_forall in *; intros x Hx; apply Hk; by eapply elem_of_sublist].
  apply sublist_length in Hs. unfold len in *. pose proof (Zle_0_nat (length ks)).
  change (Bloom.bits_per_key (Bloom.new 10)) with 10 in *. lia.
Qed.

Lemma wit_blocks_wf : wf_blocks bloom10_fits filter_blocks.
Proof.
  split.
  - intros [|[|i]] a b; simpl; try done. intros [= <-] [= <-]. lia.
  - repeat constructor; simpl; by vm_compute.
  - by repeat constructor.
  - intros l Hl. eapply bloom10_fits_sublist; [|exact Hl]. split; [by vm_compute|by repeat constructor].
Qed.

Lemma FilterBlock_no_false_negatives_witness :
  ∃ b data, foldM add_block filter_blocks (FilterBlockBuilder_new bloom10) = Done b ∧
    fb_finish b = Done data ∧
    (len data < U32 →
     ∃ r, FilterBlockReader_new_owned bloom10 data = Done r ∧
       ∀ o ks key, (o, ks) ∈ filter_blocks → key ∈ ks → fr_key_may_match r o key = Done true).
Proof. apply (FilterBlock_no_false_negatives bloom10 bloom10_fits). exact wit_blocks_wf. Defined.

Lemma FilterBlockReader_index_past_end_witness :
  (len [[xff]] < Z.shiftr 2048 11 → fr_key_may_match (layout_reader bloom10 [[xff]]) 2048 [x61] = Done true) ∧
  (len [[xff]] = Z.shiftr 2048 11 → fr_key_may_match (layout_reader bloom10 [[xff]]) 2048 [x61] = Panic).
Proof. apply FilterBlockReader_index_past_end; by vm_compute. Defined.

Lemma FilterBlockReader_empty_filter_panics_witness :
  fr_key_may_match (layout_reader NoFilterPolicy [[]]) 100 [x61] = Panic.
Proof. apply (FilterBlockReader_empty_filter_panics _ _ 0); by vm_compute. Defined.

(** ** The cache *)

Definition cache_ops : list (cache_op Z) :=
  [OpInsert [x01] 10; OpInsert [x02] 20; OpGet [x01]; OpInsert [x03] 30; OpGet [x02]; OpGet [x03]].

Definition no_cache : Cache Z := mkCache LRUList_new ∅ 0 0.
Definition cache2 : Cache Z := get_done no_cache (Cache_new 2).
Definition cache_end : Cache Z := (get_done ([], no_cache) (cache_run cache2 cache_ops)).2.

Lemma Cache_refines_lru_witness :
  ∃ c', cache_run cache2 cache_ops = Done ([Some 10; None; Some 30], c') ∧
    cache_count c' = len [([x03], 30); ([x01], 10)] ∧
    ∀ k, fst <$> cache_map c' !! k = lru_lookup [([x03], 30); ([x01], 10)] k.
Proof. apply (Cache_refines_lru 2); by vm_compute. Defined.

Lemma Cache_bounded_witness :
  0 ≤ cache_count cache_end ≤ 2 ∧ Z.of_nat (size (cache_map cache_end)) = cache_count cache_end.
Proof.
  apply (Cache_bounded 2 cache_ops ([Some 10; None; Some 30], [([x03], 30); ([x01], 10)])
    cache2 [Some 10; None; Some 30]); by vm_compute.
Defined.

Lemma Cache_remove_once_witness :
  ∃ c2, cache_remove cache_end [x01] = Done (lru_lookup [([x03], 30); ([x01], 10)] [x01], c2) ∧
    (lru_lookup [([x03], 30); ([x01], 10)] [x01] = None → c2 = cache_end) ∧
    (is_Some (lru_lookup [([x03], 30); ([x01], 10)] [x01]) →
       cache_map c2 = delete [x01] (cache_map cache_end) ∧ cache_count c2 = cache_count cache_end - 1 ∧
       (len [([x03], 30); ([x01], 10)] = 1 → cache_rep c2 [])).
Proof.
  apply (Cache_remove_once 2 cache_ops ([Some 10; None; Some 30], [([x03], 30); ([x01], 10)])
    cache2 [Some 10; None; Some 30]); by vm_compute.
Defined.

Definition inserted3 : list (cache_op Z) := [OpInsert [x01] 10; OpInsert [x02] 20; OpInsert [x03] 30].
Definition cache_of_4 : Cache Z := get_done no_cache (Cache_new 4).

Lemma Cache_remove_last_breaks_witness :
  ∃ c1 c2, cache_remove (get_done ([], no_cache) (cache_run cache_of_4 inserted3)).2 [x01] = Done (Some 10, c1) ∧
    foldM (λ kv (c : Cache Z), cache_insert c kv.1 kv.2) [([x04], 40); ([x05], 50)] c1 = Done c2 ∧
    cache_insert c2 [x06] 60 = Panic.
Proof.
  apply (Cache_remove_last_breaks 4 inserted3 ([], [([x03], 30); ([x02], 20); ([x01], 10)]) cache_of_4 []);
    by vm_compute.
Defined.

(** ** Tables *)

(** The classes of [tiny_options], whose order and policy are the default ones. *)
#[export] Instance tiny_order : CmpOrder (opt_cmp tiny_options) := DefaultCmpLaws.DefaultCmp_order.
#[export] Instance tiny_sep : CmpSep (opt_cmp tiny_options) := DefaultCmpLaws.DefaultCmp_sep.
#[export] Instance tiny_nil : CmpNil (opt_cmp tiny_options) := DefaultCmpLaws.DefaultCmp_nil.
#[export] Instance tiny_sep_len : CmpSepLen (opt_cmp tiny_options) := DefaultCmp_sep_len.
#[export] Instance tiny_policy : FilterPolicySpec (filter_policy tiny_options) bloom10_fits := bloom10_spec.
#[export] Instance tiny_policy_nonempty : FilterPolicyNonempty (filter_policy tiny_options) bloom10_fits :=
  bloom10_nonempty.
#[export] Instance tiny_policy_bounded : FilterPolicyBounded (filter_policy tiny_options) bloom10_fits :=
  BloomPolicy_bounded 10 ltac:(lia).

#[export] Instance tiny_policy_sized : FilterPolicySized (filter_policy tiny_options) bloom10_fits 20 :=
  BloomPolicy_sized 10 ltac:(lia).

(** Four pairs in three blocks, and two others. *)
Definition pairs4 : list (bytes * bytes) :=
  [([x61], filler); ([x63], [x01]); ([x63; x64], filler); ([x66], [])].
Definition pairs2 : list (bytes * bytes) := [([x61], [x09]); ([x7a], filler)].

(** Two writers: the reader's options, and others of the same format. *)
Definition packed_options : Options := mkOptions DefaultCmp 4096 100 2 CompressionSnappy (filter_policy tiny_options).

Definition file_of (w : Options) (kvs : list (bytes * bytes)) : bytes :=
  match build_table w kvs [] with Done (_, file) => file | _ => [] end.
Definition file4 : bytes := file_of tiny_options pairs4.
Definition file2 : bytes := file_of packed_options pairs2.
Definition packed4 : bytes := file_of packed_options pairs4.

Lemma fits_small (kvs : list (bytes * bytes)) :
  bloom10_fits kvs.*1 → ∀ l, l `sublist_of` kvs.*1 → bloom10_fits l.
Proof. intros Hf l Hl. by eapply bloom10_fits_sublist. Qed.

Lemma file4_written : build_table tiny_options pairs4 [] = Done (Ok (len file4), file4).
Proof. by vm_compute. Qed.

(** What the files have in common. *)
Lemma small_built w kvs file :
  same_format w tiny_options → 0 < block_restart_interval w → 8 ≤ block_size w →
  build_table w kvs [] = Done (Ok (len file), file) → sorted_kvs DefaultCmp kvs = true →
  nonempty_keys kvs → bloom10_fits kvs.*1 → len file < U32 → built_table tiny_options bloom10_fits kvs file.
Proof. intros. split; [by exists w|done|done|by apply fits_small|done]. Qed.

Lemma tiny_format : same_format tiny_options tiny_options.
Proof. by split. Qed.

Lemma packed_format : same_format packed_options tiny_options.
Proof. by split. Qed.

Ltac built_small Hfmt :=
  apply (small_built _ _ _ Hfmt); [by vm_compute|by vm_compute|by vm_compute|by vm_compute|by repeat constructor| |by vm_compute];
  split; [by vm_compute|by repeat constructor].

Lemma file4_built : built_table tiny_options bloom10_fits pairs4 file4.
Proof. built_small tiny_format. Qed.

Lemma file2_built : built_table tiny_options bloom10_fits pairs2 file2.
Proof. built_small packed_format. Qed.

Lemma packed4_built : built_table tiny_options bloom10_fits pairs4 packed4.
Proof. built_small packed_format. Qed.

Lemma pairs4_separable : separable (opt_cmp tiny_options) pairs4.
Proof. apply default_separable; [by vm_compute|]. by repeat constructor. Qed.

Lemma pairs2_separable : separable (opt_cmp tiny_options) pairs2.
Proof. apply default_separable; [by vm_compute|]. by repeat constructor. Qed.

Lemma file4_format : strict_table tiny_options pairs4 file4.
Proof. apply (built_strict_table tiny_options bloom10_fits); [apply file4_built|apply pairs4_separable]. Qed.

Lemma file2_format : strict_table tiny_options pairs2 file2.
Proof. apply (built_strict_table tiny_options bloom10_fits); [apply file2_built|apply pairs2_separable]. Qed.

(** A new cache with room for one block only. *)
Definition cache1 : Cache Block := mkCache LRUList_new ∅ 1 0.

Lemma cache1_ids : cache_ids cache1.
Proof.
  apply empty_cache_ids. split; [|by vm_compute].
  apply (cache_rep_new 1). reflexivity.
Qed.

Abbreviation open_tiny file cache := (Table_new tiny_options (BufferBackedFile file) (len file) cache).

Lemma literal_header_len n : len (literal_header n) ≤ 5.
Proof.
  unfold literal_header. repeat case_match; rewrite ?len_cons, ?len_le_encode, ?len_nil; lia.
Qed.

Lemma literal_compresses : compresses CompressionSnappy.
Proof.
  intros block Hb. exists (snappy_frame block). split.
  { unfold compress. rewrite decide_True by done. cbn [compress_vec LiteralSnappy].
    by rewrite (proj2 (Z.ltb_lt _ _)) by done. }
  unfold snappy_frame. rewrite !len_app. pose proof (literal_header_len (len block)). pose proof (len_nonneg block).
  assert (len (encode_var (len block)) ≤ 10); [|lia].
  apply encode_var_len; unfold U32, U64 in *; lia.
Qed.



Lemma Table_get_sound_witness :
  let keys := [[x63]; [x62]; []] in
  ∃ t cache2 xs cache3, open_tiny file4 cache1 = Done (Ok t, cache2) ∧
    table_gets t keys cache2 = Done (Ok xs, cache3) ∧
    Forall2 (λ key x, ∀ v, x = Some v → ∃ k, (k, v) ∈ pairs4 ∧ cmp (opt_cmp tiny_options) k key = Eq) keys xs.
Proof.
  apply (Table_get_sound tiny_options bloom10_fits); [apply file4_built|apply cache1_ids|by repeat constructor].
Defined.

Lemma Table_roundtrip_witness :
  ∃ t cache2 it s', open_tiny packed4 cache1 = Done (Ok t, cache2) ∧ table_iter t = Done it ∧
    drain (S (length pairs4)) (it, cache2) = Done (pairs4, s') ∧ valid s' = false.
Proof. apply (Table_roundtrip tiny_options bloom10_fits); [apply packed4_built|apply cache1_ids]. Defined.

(** Forward over a block boundary, back over it, and by key. *)
Definition moves4 : list cursor_move := [MAdvance; MAdvance; MAdvance; MPrev; MSeek [x66]; MPrev; MPrev; MAdvance].

Lemma TableIterator_refines_cursor_witness :
  cursor_run pairs4 moves4 None = Some (Some 2%nat) ∧
  ∃ t cache2 it s, open_tiny packed4 cache1 = Done (Ok t, cache2) ∧ table_iter t = Done it ∧
    foldM table_move moves4 (it, cache2) = Done s ∧
    valid s = bool_decide (is_Some (Some 2%nat)) ∧ current_key s = (i ← Some 2%nat; fst <$> pairs4 !! i) ∧
    current_key_val s = Done (i ← Some 2%nat; pairs4 !! i).
Proof.
  split; [by vm_compute|].
  apply (TableIterator_refines_cursor tiny_options bloom10_fits pairs4 packed4 cache1 moves4);
    [apply packed4_built|apply pairs4_separable|apply cache1_ids|by vm_compute].
Defined.


Lemma TableIterator_prev_at_first_witness :
  ∃ t cache2 it s s', open_tiny file4 cache1 = Done (Ok t, cache2) ∧ table_iter t = Done it ∧
    foldM table_move [MSeek [x63; x64]; MPrev; MPrev] (it, cache2) = Done s ∧
    prev s = Done (false, s') ∧ valid s' = false.
Proof.
  apply (TableIterator_prev_at_first tiny_options bloom10_fits pairs4);
    [apply file4_built|apply pairs4_separable|apply cache1_ids|by vm_compute].
Defined.

(** *** A file of another writer *)

Lemma TableBuilder_writes_format_witness :
  ∃ V fr, table_file tiny_options pairs4 V fr packed4 ∧ offsets_in V (len packed4) ∧
    (separable (opt_cmp tiny_options) pairs4 → strict_seps tiny_options V).
Proof. apply (TableBuilder_writes_format tiny_options bloom10_fits), packed4_built. Defined.

(** Its blocks are in reverse order and compressed differently, with other bytes
    around them; there is no filter, and the metaindex has an entry of its own. *)
Definition other_block (l : list (bytes * bytes)) : bytes :=
  match build_block packed_options l with Done c => c | _ => [] end.
Definition other_junk : bytes := [x6a; x75; x6e; x6b].

Definition other_second : bytes := other_block [([x63; x64], filler); ([x66], [])].
Definition other_first : bytes := other_block [([x61], filler); ([x63], [x01])].
Definition other_packed : bytes := match compress_vec other_second with inl d => d | inr _ => [] end.
Definition other_metas : list (bytes * bytes) := [([x61], handle_bytes (mkBlockHandle 0 4))].
Definition other_meta : bytes := other_block other_metas.

Definition other_off_first : Z := len other_junk + len (stored CompressionSnappy other_packed).
Definition other_off_meta : Z := other_off_first + len (stored CompressionNone other_first) + len other_junk.
Definition other_off_index : Z := other_off_meta + len (stored CompressionNone other_meta).

Definition other_blocks : list dblk :=
  [mkDblk [([x61], filler); ([x63], [x01])] [x63; x10] other_off_first other_first other_first;
   mkDblk [([x63; x64], filler); ([x66], [])] [x7a] (len other_junk) other_second other_packed].
Definition other_view : table_view :=
  mkView other_blocks (other_block (index_kvs other_blocks))
    (mkFooter (mkBlockHandle other_off_meta (len other_meta))
       (mkBlockHandle other_off_index (len (other_block (index_kvs other_blocks))))).

Definition other_file : bytes :=
  other_junk ++ stored CompressionSnappy other_packed ++ stored CompressionNone other_first ++ other_junk
    ++ stored CompressionNone other_meta ++ stored CompressionNone (v_index other_view)
    ++ footer_bytes (v_footer other_view).

Lemma other_block_of l :
  build_block packed_options l = Done (other_block l) → block_of tiny_options l (other_block l).
Proof. by apply build_block_of. Qed.

Lemma other_view_blocks : Forall (view_block tiny_options) other_blocks.
Proof.
  constructor; [|constructor; [|done]].
  all: split; [apply other_block_of; by vm_compute|by vm_compute|done|by vm_compute|done|split; split; by vm_compute].
Qed.

Lemma other_view_of : view_of tiny_options pairs4 other_view.
Proof.
  split.
  - by vm_compute.
  - by vm_compute.
  - by repeat constructor.
  - exact other_view_blocks.
  - intros [|[|i]] [|[|j]] d d'; cbn; intros [= <-] [= <-]; try done; by vm_compute.
  - intros [|[|i]] d d' kv; cbn; intros [= <-]; try done. intros [= <-] [= <-]. by vm_compute.
  - apply other_block_of. by vm_compute.
  - by vm_compute.
Qed.

Lemma other_strict : strict_seps tiny_options other_view.
Proof.
  intros [|[|i]] d d' kv; cbn; intros [= <-]; try done. intros [= <-] [= <-]. by vm_compute.
Qed.

(** Evaluates where a block is. *)
Ltac stored_here ct data :=
  match goal with |- stored_at ?file ?h _ =>
    exists (take (Z.to_nat (bh_offset h)) file), (drop (Z.to_nat (bh_offset h + bh_size h + 5)) file), ct, data;
    split; [by vm_compute|split; by vm_compute]
  end.

Lemma other_table_file : table_file tiny_options pairs4 other_view None other_file.
Proof.
  split.
  - apply other_view_of.
  - by vm_compute.
  - intros [|[|i]] d; cbn [v_blocks other_view other_blocks lookup list_lookup]; [intros [= <-]..|done].
    + stored_here CompressionNone other_first.
    + stored_here CompressionSnappy other_packed.
  - stored_here CompressionNone (v_index other_view).
  - exists other_metas, other_meta. split; [stored_here CompressionNone other_meta|].
    split; [apply other_block_of; by vm_compute|]. split; [by repeat constructor|]. split; [by vm_compute|].
    constructor. intros k v [= -> _]%list_elem_of_singleton. by vm_compute.
  - split; [by split; [split; split; by vm_compute|split; [split; split; by vm_compute|by vm_compute]]|].
    exists (take (length other_file - 48) other_file). by vm_compute.
  - by intros r i d.
Qed.

Lemma other_strict_table : strict_table tiny_options pairs4 other_file.
Proof. exists other_view, None. split; [apply other_table_file|apply other_strict]. Qed.

Lemma Table_reads_format_witness :
  let keys := [[x63]; [x61]; [x62]; [x63; x64]; [x66]; [x7a]] in
  ∃ t cache2 cache3 it s s', open_tiny other_file cache1 = Done (Ok t, cache2) ∧
    table_gets t keys cache2 = Done (Ok ((λ key, table_map pairs4 !! key) <$> keys), cache3) ∧
    table_iter t = Done it ∧ foldM table_move [MAdvance; MSeek [x66]; MPrev] (it, cache3) = Done s ∧
    current_key_val s = Done (Some ([x63; x64], filler)) ∧
    drain (S (length pairs4)) (it, cache3) = Done (pairs4, s').
Proof.
  apply (Table_reads_format tiny_options pairs4 other_file cache1 _ _ (Some 2%nat));
    [apply other_strict_table|exact DefaultCmpLaws.bytes_cmp_eq|apply cache1_ids|by repeat constructor|by vm_compute].
Defined.

Lemma approx_offset_monotone_witness :
  ∃ t cache2 off_a off_b, open_tiny file4 cache1 = Done (Ok t, cache2) ∧
    approx_offset_of t [x61] = Done off_a ∧ approx_offset_of t [x66] = Done off_b ∧
    0 ≤ off_a ∧ off_a ≤ off_b ∧ off_b < len file4.
Proof.
  apply (approx_offset_monotone tiny_options bloom10_fits pairs4 file4 cache1 [x61] [x66]);
    [apply file4_built|apply cache1_ids|by vm_compute].
Defined.

Lemma Tables_share_cache_witness :
  let reqs := [(true, [x61]); (false, [x61]); (false, [x7a]); (true, [x66]); (false, [x66])] in
  ∃ t1 c1 t2 c2 c3, open_tiny file4 cache1 = Done (Ok t1, c1) ∧ open_tiny file2 c1 = Done (Ok t2, c2) ∧
    two_gets t1 t2 reqs c2 =
      Done (Ok ((λ req, table_map (if req.1 : bool then pairs4 else pairs2) !! req.2) <$> reqs), c3).
Proof.
  apply (Tables_share_cache tiny_options);
    [apply file4_format|apply file2_format| |apply cache1_ids|by vm_compute|by repeat constructor].
  exact DefaultCmpLaws.bytes_cmp_eq.
Defined.

Lemma Options_caches_witness :
  (∃ cache, Options_default_with_cache = Done (Options_default, cache) ∧ empty_cache cache ∧ cap cache = 2048) ∧
  0 < block_restart_interval Options_default ∧ 8 ≤ block_size Options_default ∧
  (∃ cache, with_cache_capacity tiny_options 5 = Done (tiny_options, cache) ∧ empty_cache cache ∧ cap cache = 5) ∧
  with_cache_capacity tiny_options 0 = Panic.
Proof. apply (Options_caches tiny_options 5). lia. Defined.

Lemma Table_new_bad_file_witness :
  len [x01] < FULL_FOOTER_LENGTH ∧ Table_new tiny_options (BufferBackedFile [x01]) (len [x01]) cache1 = Panic ∧
  Table_new tiny_options (BufferBackedFile (replicate 60 x00)) (len (replicate 60 x00)) cache1 = Panic.
Proof.
  destruct (Table_new_bad_file tiny_options [x01] [] (λ _, inr (mk_io_Error io_NotFound ""%string)) (mk_io_Error io_NotFound ""%string) cache1)
    as [H1 _].
  destruct (Table_new_bad_file tiny_options (replicate 60 x00) [] (λ _, inr (mk_io_Error io_NotFound ""%string)) (mk_io_Error io_NotFound ""%string) cache1)
    as (_&H2&_).
  split; [by vm_compute|]. split; [by apply H1; vm_compute|apply H2; by vm_compute].
Defined.

(** ** The table builder *)

Lemma TableBuilder_never_fails_witness :
  ∃ b n b', tb_adds (TableBuilder_new tiny_options []) pairs4 = Done (Ok tt, b) ∧ tb_entries b = len pairs4 ∧
    tb_size_estimate b ≤ table_bound tiny_options 20 pairs4 ∧
    tb_finish b = Done (Ok n, b') ∧ n = len (dst b') ∧ n ≤ table_bound tiny_options 20 pairs4.
Proof.
  apply (TableBuilder_never_fails tiny_options ltac:(done) ltac:(by vm_compute) compresses_none bloom10_fits 20);
    [by vm_compute|by repeat constructor|by vm_compute].
Defined.

(** Three pairs out of order, which [add] accepts. *)
Definition unsorted3 : list (bytes * bytes) := [([x64], filler); ([x62], []); ([x78], [])].

Definition builder3 : TableBuilder bytes :=
  match tb_adds (TableBuilder_new tiny_options []) unsorted3 with
  | Done (_, b) => b
  | _ => TableBuilder_new tiny_options []
  end.

Lemma builder3_reached : tb_adds (TableBuilder_new tiny_options []) unsorted3 = Done (Ok tt, builder3).
Proof.
  assert (Hok : ended_ok (tb_adds (TableBuilder_new tiny_options []) unsorted3) = true) by by vm_compute.
  unfold builder3. by destruct (tb_adds (TableBuilder_new tiny_options []) unsorted3) as [[[[]|e] b]|f].
Qed.

Lemma TableBuilder_counts_witness :
  tb_entries builder3 = len unsorted3 ∧ tb_offset builder3 = len (dst builder3) ∧
  len (dst builder3) + FULL_FOOTER_LENGTH ≤ tb_size_estimate builder3.
Proof. apply (TableBuilder_counts tiny_options), builder3_reached. Defined.

Definition footer0 : Footer := mkFooter (mkBlockHandle 1000 20) (mkBlockHandle 2000 300).

Lemma Footer_roundtrip_witness :
  ∃ buf', Footer_encode footer0 (replicate 50 x2a) = Done buf' ∧ len buf' = len (replicate 50 x2a) ∧
    drop (Z.to_nat FULL_FOOTER_LENGTH) buf' = drop (Z.to_nat FULL_FOOTER_LENGTH) (replicate 50 x2a) ∧
    Footer_decode (take (Z.to_nat FULL_FOOTER_LENGTH) buf') = Done footer0.
Proof. apply Footer_roundtrip; [repeat split; by vm_compute|by vm_compute]. Defined.

Definition new_builder : TableBuilder bytes := TableBuilder_new tiny_options [].
Definition stored5 : BlockHandle * TableBuilder bytes :=
  match write_block new_builder block5 CompressionSnappy with
  | Done (Ok h, b) => (h, b)
  | _ => (mkBlockHandle 0 0, new_builder)
  end.

Lemma stored5_written : write_block new_builder block5 CompressionSnappy = Done (Ok stored5.1, stored5.2).
Proof.
  assert (Hok : ended_ok (write_block new_builder block5 CompressionSnappy) = true) by by vm_compute.
  unfold stored5. by destruct (write_block new_builder block5 CompressionSnappy) as [[[h|e] b]|f].
Qed.

Lemma table_block_roundtrip_witness :
  read_table_block tiny_options (BufferBackedFile (dst stored5.2 ++ [x01; x02])) stored5.1
    = Done (Ok (mkBlock block5 tiny_options)) ∧
  tb_offset stored5.2 = len (dst stored5.2).
Proof.
  apply (table_block_roundtrip tiny_options new_builder stored5.2 block5 CompressionSnappy stored5.1 [x01; x02]);
    [apply stored5_written|done|by vm_compute].
Defined.

(** Five bytes of contents, uncompressed, with a checksum of zeros. *)
Definition bad_block : bytes := [x61; x62; x63; x64; x65].
Definition bad_file : bytes := bad_block ++ [x00] ++ replicate 4 x00.

Lemma read_table_block_verifies_witness :
  ∃ msg, read_table_block tiny_options (BufferBackedFile bad_file) (mkBlockHandle 0 5) = Done (err Corruption msg).
Proof.
  apply (proj1 (read_table_block_verifies tiny_options (BufferBackedFile bad_file) (mkBlockHandle 0 5) 10
    bad_block x00 (replicate 4 x00) ltac:(done) ltac:(done) ltac:(done) ltac:(done) ltac:(by vm_compute))).
  by vm_compute.
Defined.

(** ** The shared iterator test *)

Definition block4 : bytes := match build_block small_options pairs4 with Done c => c | _ => [] end.

Lemma BlockIter_passes_test_witness :
  ∃ blk it, Block_new small_options block4 = Done blk ∧ Block_iter blk = Done it ∧
    test_iterator_properties it = Done tt.
Proof.
  apply (BlockIter_passes_test small_options ([x61], filler) ([x63], [x01]) ([x63; x64], filler) ([x66], []));
    [by vm_compute|by repeat constructor|by vm_compute|by vm_compute].
Defined.

Lemma TableIterator_passes_test_witness :
  ∃ t cache2 it, open_tiny file4 cache1 = Done (Ok t, cache2) ∧ table_iter t = Done it ∧
    test_iterator_properties (it, cache2) = Done tt.
Proof.
  apply (TableIterator_passes_test tiny_options bloom10_fits
    ([x61], filler) ([x63], [x01]) ([x63; x64], filler) ([x66], []));
    [apply file4_built|apply pairs4_separable|apply cache1_ids].
Defined.

Lemma TestSSIter_passes_test_witness :
  test_iterator_properties (TestSSIter_new pairs4) = Done tt.
Proof.
  apply (TestSSIter_passes_test ([x61], filler) ([x63], [x01]) ([x63; x64], filler) ([x66], [])).
  by vm_compute.
Defined.

Lemma TestSSIter_edges_witness :
  ∃ it, advance (mkTestSSIter pairs4 (len pairs4) true) = Done (true, it) ∧ valid it = false.
Proof. apply (TestSSIter_edges ([x61], []) pairs4). done. Defined.

(** ** Damaged files *)

Definition no_table : Table :=
  mkTable (BufferBackedFile []) 0 tiny_options (mkFooter (mkBlockHandle 0 0) (mkBlockHandle 0 0))
    (mkBlock [] tiny_options) None.

(** The table of [file4], its blocks, and the file with a byte of the second block
    changed. *)
Definition opened4 : Table * Cache Block :=
  match open_tiny file4 cache1 with Done (Ok t, c) => (t, c) | _ => (no_table, cache1) end.
Definition blocks4 : list (BlockHandle * list (bytes * bytes)) :=
  match data_blocks opened4.1 with Done (Ok bs) => bs | _ => [] end.
Definition file4_damaged : bytes := <[40%nat := x00]> file4.

Definition damage4 (h : BlockHandle) : option Status :=
  if bh_offset h =? 37
  then Some (Status_new Corruption "checksum verification failed for block at 37")
  else None.

Lemma opened4_ok : open_tiny file4 cache1 = Done (Ok opened4.1, opened4.2).
Proof.
  assert (Hok : ended_ok (open_tiny file4 cache1) = true) by by vm_compute.
  unfold opened4. by destruct (open_tiny file4 cache1) as [[[t|e] b]|].
Qed.

Lemma blocks4_ok : data_blocks opened4.1 = Done (Ok blocks4).
Proof. by vm_compute. Qed.

Lemma blocks4_handles : blocks4.*1 = [mkBlockHandle 0 32; mkBlockHandle 37 37; mkBlockHandle 79 12].
Proof. by vm_compute. Qed.

Lemma file4_is_damaged : damaged tiny_options file4 file4_damaged blocks4 damage4.
Proof.
  split; [by vm_compute|by vm_compute|]. intros h ps Hin.
  assert (Hh : h ∈ blocks4.*1) by (apply list_elem_of_fmap; by exists (h, ps)).
  rewrite blocks4_handles, !elem_of_cons, elem_of_nil in Hh. destruct Hh as [->|[->|[->|[]]]].
  - assert (Hb : read_bytes (BufferBackedFile file4_damaged) (mkBlockHandle 0 37) =
      read_bytes (BufferBackedFile file4) (mkBlockHandle 0 37)) by by vm_compute.
    unfold read_table_block. cbn [bh_size bh_offset BlockHandle_new].
    change (uadd 32 TABLE_BLOCK_CKSUM_LEN) with (Done 36). cbn [bind].
    change (uadd 36 TABLE_BLOCK_COMPRESS_LEN) with (Done 37). cbn [bind]. unfold BlockHandle_new. by rewrite Hb.
  - by vm_compute.
  - apply (read_table_block_same file4 file4_damaged 79); by vm_compute.
Qed.

Lemma file4_data_first : strict_table_data_first tiny_options pairs4 file4.
Proof. apply (built_strict_data_first tiny_options bloom10_fits); [apply file4_built|apply pairs4_separable]. Qed.

Lemma Table_survives_damage_witness :
  mjoin blocks4.*2 = pairs4 ∧
  ∃ t' cache1' it s' rs cache2',
    open_tiny file4_damaged cache1 = Done (Ok t', cache1') ∧ table_iter t' = Done it ∧
    drain 5 (it, cache1') = Done (mjoin (filter (λ b, damage4 b.1 = None) blocks4).*2, s') ∧
    valid s' = false ∧ try_gets t' [[x63]; [x61]; [x63]; [x66]] cache1' = Done (rs, cache2') ∧
    Forall2 (λ key r, ∀ h ps v, (h, ps) ∈ blocks4 → (key, v) ∈ ps →
      r = match damage4 h with Some e => Err e | None => Ok (Some v) end) [[x63]; [x61]; [x63]; [x66]] rs.
Proof.
  apply (Table_survives_damage tiny_options pairs4 file4 file4_damaged cache1 opened4.1 opened4.2);
    [apply file4_data_first|apply cache1_ids|apply opened4_ok|apply blocks4_ok|apply file4_is_damaged|].
  assert (Hk : pairs4.*1 = [[x61]; [x63]; [x63; x64]; [x66]]) by by vm_compute.
  rewrite Hk. repeat constructor; set_solver.
Defined.

(** ** Block boundaries *)

(** The second key equals the separator in front of its block. *)
Definition pairs_hidden : list (bytes * bytes) :=
  [([x61; x62; x63], filler); ([x61; x62; x63; x00], filler); ([x64], [x01])].
Definition file_hidden : bytes := file_of tiny_options pairs_hidden.

Lemma file_hidden_built : built_table tiny_options bloom10_fits pairs_hidden file_hidden.
Proof. built_small tiny_format. Qed.

Lemma Table_get_present_witness :
  let keys := [[x61; x62; x63]; [x61; x62; x63; x00]; [x64]] in
  ∃ t cache2 bs xs cache3, open_tiny file_hidden cache1 = Done (Ok t, cache2) ∧ data_blocks t = Done (Ok bs) ∧
    mjoin bs.*2 = pairs_hidden ∧ table_gets t keys cache2 = Done (Ok xs, cache3) ∧
    Forall2 (λ key x, ∀ j h ps v, bs !! j = Some (h, ps) → (key, v) ∈ ps →
      x = if hidden tiny_options bs j key then None else Some v) keys xs.
Proof.
  apply (Table_get_present tiny_options bloom10_fits pairs_hidden);
    [apply file_hidden_built|apply cache1_ids|].
  assert (Hk : pairs_hidden.*1 = [[x61; x62; x63]; [x61; x62; x63; x00]; [x64]]) by by vm_compute.
  rewrite Hk. repeat constructor; set_solver.
Defined.

(** In that table, the second key is the hidden one. *)
Example hidden_second :
  match open_tiny file_hidden cache1 with
  | Done (Ok t, _) =>
      match data_blocks t with
      | Done (Ok bs) => (λ p, hidden tiny_options bs p.1 p.2) <$>
          [(0%nat, [x61; x62; x63]); (1%nat, [x61; x62; x63; x00]); (2%nat, [x64])]
      | _ => []
      end
  | _ => []
  end = [false; true; false].
Proof. by vm_compute. Qed.

Lemma TableIterator_seek_in_gap_witness :
  ∃ t cache2 bs it s, open_tiny file4 cache1 = Done (Ok t, cache2) ∧ data_blocks t = Done (Ok bs) ∧
    mjoin bs.*2 = pairs4 ∧ table_iter t = Done it ∧ foldM table_move moves4 (it, cache2) = Done s ∧
    ∀ i h ps a sep to, bs !! i = Some (h, ps) → last ps = Some a → separator tiny_options bs i = Some sep →
      cmp (opt_cmp tiny_options) a.1 to = Lt → cmp (opt_cmp tiny_options) to sep ≠ Gt →
      is_Some (find_ge (opt_cmp tiny_options) to pairs4) ∧
      ∃ kv s' s'', head ps = Some kv ∧ cmp (opt_cmp tiny_options) kv.1 to = Lt ∧ seek s to = Done s' ∧
        valid s' = false ∧ advance s' = Done (true, s'') ∧ current_key_val s'' = Done (Some kv).
Proof.
  apply (TableIterator_seek_in_gap tiny_options bloom10_fits pairs4 file4 cache1 moves4);
    [apply file4_built|apply cache1_ids].
Defined.

(** A target in its first gap: above "a", and at most the separator "b". *)
Example gap_first :
  (p ← head blocks4; last p.2) = Some ([x61], filler) ∧ separator tiny_options blocks4 0 = Some [x62] ∧
  cmp DefaultCmp [x61] [x61; x61] = Lt ∧ cmp DefaultCmp [x61; x61] [x62] ≠ Gt.
Proof. split; [|split; [|split]]; by vm_compute. Qed.

Lemma TableIterator_prev_first_repeats_witness :
  ∃ t cache2 bs it s s' h ps s'', open_tiny file4 cache1 = Done (Ok t, cache2) ∧ data_blocks t = Done (Ok bs) ∧
    table_iter t = Done it ∧ foldM table_move (moves4 ++ [MReset; MAdvance]) (it, cache2) = Done s ∧
    current_key_val s = Done (head pairs4) ∧ prev s = Done (false, s') ∧ valid s' = false ∧
    head bs = Some (h, ps) ∧ drain (S (length ps + length pairs4)) s' = Done (ps ++ pairs4, s'') ∧ valid s'' = false.
Proof.
  apply (TableIterator_prev_first_repeats tiny_options bloom10_fits pairs4 file4 cache1 moves4);
    [apply file4_built|apply cache1_ids|done].
Defined.

(** ** Arbitrary files *)

Lemma cache1_fine : cache_fine cache1.
Proof. exists []. apply (cache_rep_new 1). reflexivity. Qed.

Lemma Table_safe_on_any_file_witness :
  terminates (open_tiny file4_damaged cache1) ∧
  ∀ t c1, open_tiny file4_damaged cache1 = Done (Ok t, c1) →
    (∀ key c', cache_fine c' → terminates (table_get t key c')) ∧
    (∀ key, terminates (approx_offset_of t key)) ∧ terminates (table_iter t) ∧
    ∀ s, ti_reachable t s → terminates (advance s) ∧ terminates (prev s) ∧
      terminates (current s [] []) ∧ ∀ to, terminates (seek s to).
Proof.
  apply (Table_safe_on_any_file tiny_options (BufferBackedFile file4_damaged));
    [apply BufferBackedFile_safe|apply BloomPolicy_safe|apply cache1_fine].
Defined.

(** The damaged file, and an iterator of it that was advanced once. *)
Definition opened_damaged : Table * Cache Block :=
  match open_tiny file4_damaged cache1 with
  | Done (Ok t, c) => (t, c)
  | _ => (mkTable (BufferBackedFile []) 0 tiny_options (mkFooter (mkBlockHandle 0 0) (mkBlockHandle 0 0))
            (mkBlock [] tiny_options) None, cache1)
  end.

Lemma opened_damaged_ok : open_tiny file4_damaged cache1 = Done (Ok opened_damaged.1, opened_damaged.2).
Proof.
  assert (Hok : ended_ok (open_tiny file4_damaged cache1) = true) by by vm_compute.
  unfold opened_damaged. by destruct (open_tiny file4_damaged cache1) as [[[t|e] c]|f].
Qed.

Definition start_damaged : TableIterator :=
  get_done (mkTableIterator opened_damaged.1 None 0 no_iter) (table_iter opened_damaged.1).
Definition step_damaged : outcome (bool * (TableIterator * Cache Block)) := advance (start_damaged, cache1).

Lemma Table_well_typed_witness :
  ∃ r s, step_damaged = Done (r, s) ∧
    footer_typed (footer opened_damaged.1) ∧ (∀ r, t_filters opened_damaged.1 = Some r → filter_typed r) ∧
    0 ≤ current_block_off s.1 < U64 ∧ iter_typed (ti_index_block s.1) ∧
    ∀ cb, current_block s.1 = Some cb → iter_typed cb.
Proof.
  assert (Hok : is_done step_damaged = true) by by vm_compute.
  destruct step_damaged as [[r s]|f] eqn:Hstep; [|done]. exists r, s. split; [done|].
  apply (Table_well_typed tiny_options (BufferBackedFile file4_damaged) (len file4_damaged) cache1 _ opened_damaged.2);
    [apply BufferBackedFile_safe|apply BloomPolicy_safe|apply cache1_fine|apply opened_damaged_ok|].
  eapply ti_reach_step; [apply ti_reach_iter; [|apply cache1_fine]|].
  - apply (get_done_eq (mkTableIterator opened_damaged.1 None 0 no_iter)). by vm_compute.
  - eapply ti_step_advance. exact Hstep.
Defined.

Lemma Table_iteration_ends_witness :
  winds_down (start_damaged, cache1) ∧ ∃ n, ∀ m, (n ≤ m)%nat → terminates (drain m (start_damaged, cache1)).
Proof.
  apply (Table_iteration_ends tiny_options (BufferBackedFile file4_damaged) (len file4_damaged) cache1
    opened_damaged.1 opened_damaged.2);
    [apply BufferBackedFile_safe|apply BloomPolicy_safe|apply cache1_fine|apply opened_damaged_ok|].
  apply ti_reach_iter; [|apply cache1_fine].
  apply (get_done_eq (mkTableIterator opened_damaged.1 None 0 no_iter)). by vm_compute.
Defined.

(** ** Several threads *)

(** Two threads with one table, and two that open their own, one of them a file
    that [TableBuilder] did not write. *)
Definition shared4 : list (list (bytes * bytes) * bytes) := [(pairs4, file4)].
Definition clients4 : list client :=
  [mkClient pairs4 file4 (Some 0%nat) [Get [x63]; Move MAdvance; Get [x62]];
   mkClient pairs4 file4 (Some 0%nat) [Move (MSeek [x66]); Move MPrev; Get [x66]];
   mkClient pairs2 file2 None [Move MAdvance; Get [x7a]];
   mkClient pairs4 other_file None [Get [x66]; Move (MSeek [x63])]].

Lemma shared4_format : Forall (λ b, strict_table tiny_options b.1 b.2) shared4.
Proof. apply Forall_singleton, file4_format. Qed.

Lemma clients4_ok : Forall (client_ok tiny_options shared4) clients4.
Proof.
  repeat apply List.Forall_cons; [..|done]; split;
    try first [apply file4_format|apply file2_format|apply other_strict_table|by repeat constructor|by eexists; vm_compute].
  all: intros j Hj; by simplify_eq/=.
Qed.

(** What the threads get. *)
Example clients4_answers :
  client_answer <$> clients4 =
    [Ok [Got (Ok (Some [x01])); Now (Some ([x61], filler)); Got (Ok None)];
     Ok [Now (Some ([x66], [])); Now (Some ([x63; x64], filler)); Got (Ok (Some []))];
     Ok [Now (Some ([x61], [x09])); Got (Ok (Some filler))];
     Ok [Got (Ok (Some [])); Now (Some ([x63], [x01]))]].
Proof. by vm_compute. Qed.

Lemma Concurrent_clients_witness :
  ∃ tables c1, open_tables tiny_options shared4.*2 cache1 = Done (Ok tables, c1) ∧
    ∀ threads lock, rtc pool_step (client_t tiny_options tables <$> clients4, share c1) (threads, lock) →
      lock ≠ Poisoned ∧ ∀ i p, threads !! i = Some p → ∃ cl, clients4 !! i = Some cl ∧
        (∀ f, p ≠ Crash f) ∧ ∀ r, p = Ret r → r = client_answer cl.
Proof.
  apply (Concurrent_clients tiny_options);
    [exact DefaultCmpLaws.bytes_cmp_eq|apply cache1_ids|apply shared4_format|apply clients4_ok|by vm_compute].
Defined.

Lemma Concurrent_clients_finish_witness :
  ∃ tables c1, open_tables tiny_options shared4.*2 cache1 = Done (Ok tables, c1) ∧
    ∀ s, rtc pool_step (client_t tiny_options tables <$> clients4, share c1) s →
      sn pool_step s ∧
      ∀ s', rtc pool_step s s' → nf pool_step s' → s'.1 = (λ cl, Ret (client_answer cl)) <$> clients4.
Proof.
  apply (Concurrent_clients_finish tiny_options);
    [exact DefaultCmpLaws.bytes_cmp_eq|apply cache1_ids|apply shared4_format|apply clients4_ok|by vm_compute].
Defined.

(** A handle of a damaged index: its size overflows, under the lock. *)
Definition huge_handle : BlockHandle := mkBlockHandle 0 (U64 - 1).

Lemma Panic_poisons_clients_witness :
  ∃ t c1, open_tiny file4 cache1 = Done (Ok t, c1) ∧ read_block no_table huge_handle c1 = Panic ∧
    ∀ s, rtc pool_step ([Crash Panicked; script_t t ((Get <$> [[x61]; [x66]]) ++ [Move MAdvance]);
                         open_and_script_t tiny_options file4 []], Poisoned) s → nf pool_step s →
      s = ([Crash Panicked; Ret (Ok [Got (Err from_PoisonError); Got (Err from_PoisonError); Now None]);
            Ret (Err from_PoisonError)], Poisoned).
Proof.
  destruct (Panic_poisons_clients tiny_options pairs4 file4 cache1 [[x61]; [x66]])
    as (t&c1&Hopen&Hpanic); [apply file4_format|apply cache1_ids| |].
  - assert (Hk : pairs4.*1 = [[x61]; [x63]; [x63; x64]; [x66]]) by by vm_compute.
    rewrite Hk. repeat constructor; set_solver.
  - exists t, c1. assert (Hc : c1 = opened4.2) by (rewrite opened4_ok in Hopen; congruence).
    assert (Hread : read_block no_table huge_handle c1 = Panic) by (rewrite Hc; by vm_compute).
    split; [done|]. split; [done|].
    apply (Hpanic no_table huge_handle (λ _, Ret (Ok [])) Panicked Hread).
Defined.

(** ** A destination that fills up *)

Record Disk := mkDisk { disk_bytes : bytes; disk_free : nat }.

Definition disk_write (d : Disk) (data : bytes) : outcome ((Z + io_Error) * Disk) :=
  if (length data <=? disk_free d)%nat
  then Done (inl (len data), mkDisk (disk_bytes d ++ data) (disk_free d - length data))
  else Done (inr (mk_io_Error io_Other "disk full"), mkDisk (disk_bytes d ++ take (disk_free d) data) 0).

#[export] Instance Disk_Write : Write Disk := { write := disk_write; flush d := Done (inl tt, d) }.
#[export] Instance Disk_FixedIntWriter : FixedIntWriter Disk := {
  write_fixedint32 d x := disk_write d (encode_fixed32 x);
}.

Lemma Disk_WholeWrite : WholeWrite disk_bytes Disk_Write Disk_FixedIntWriter.
Proof.
  assert (Hw : ∀ d data, appends disk_bytes d data (disk_write d data)).
  { intros d data. unfold disk_write. destruct (_ <=? _)%nat; eexists _, _; (split; [done|]); [done|].
    exists (take (disk_free d) data). split; [apply prefix_take|done]. }
  split; [exact Hw|intros; apply Hw|by intros; eexists _, _].
Qed.

Lemma TableBuilder_any_destination_witness :
  (∃ d', build_table tiny_options pairs4 (mkDisk [] 100) = Done (Ok (len file4), d') ∧ disk_bytes d' = [] ++ file4) ∨
  (∃ e d', build_table tiny_options pairs4 (mkDisk [] 100) = Done (Err (from_io_Error e), d') ∧
    disk_bytes d' `prefix_of` [] ++ file4).
Proof.
  pose proof (TableBuilder_any_destination disk_bytes tiny_options pairs4 (mkDisk [] 100) Disk_WholeWrite) as Hd.
  by rewrite file4_written in Hd.
Defined.

(** The first 100 bytes of the table, and the error. *)
Example full_disk :
  match build_table tiny_options pairs4 (mkDisk [] 100) with
  | Done (Err e, d) => bool_decide (code e = IOError ∧ disk_bytes d = take 100 file4)
  | _ => false
  end = true.
Proof. by vm_compute. Qed.

(** A builder about to flush its first block to a full disk. *)
Definition disk_builder : TableBuilder Disk := TableBuilder_new tiny_options (mkDisk [] 8).
Definition full_builder : TableBuilder Disk :=
  match tb_add disk_builder [x61] filler with Done (_, b) => b | _ => disk_builder end.
Definition failed_add : outcome (result unit * TableBuilder Disk) := tb_add full_builder [x63] [x01].

Lemma TableBuilder_dead_after_error_witness :
  ∃ e b, failed_add = Done (Err e, b) ∧ tb_add b [x64] [x02] = Panic ∧ tb_finish b = Panic.
Proof.
  assert (Hf : match failed_add with Done (Err _, _) => true | _ => false end = true) by by vm_compute.
  destruct failed_add as [[[u|e] b]|f] eqn:Hadd; [done| |done]. exists e, b. split; [done|].
  exact (TableBuilder_dead_after_error full_builder b [x63] [x01] e [x64] [x02] Hadd).
Defined.

(** ** The example program on such a disk *)

Record DiskFs := mkDiskFs { disk_files : gmap bytes bytes; disk_room : nat }.

#[export] Instance DiskFs_FileSystem : FileSystem DiskFs Disk := {
  create p fs := inl (mkDisk [] (disk_room fs));
  close p d fs := mkDiskFs (<[p := disk_bytes d]> (disk_files fs)) (disk_free d);
  open p fs :=
    match disk_files fs !! p with
    | Some data => inl (BufferBackedFile data, len data)
    | None => inr (mk_io_Error io_NotFound "no such file")
    end;
}.

#[export] Instance DiskFs_spec :
  FileSystemSpec DiskFs_FileSystem disk_bytes (λ fs p, disk_files fs !! p).
Proof.
  split.
  - by intros p fs d [= <-].
  - intros p d fs. apply lookup_insert_eq.
  - intros p fs f size. cbn. destruct (disk_files fs !! p) as [data|]; intros [= <- <-]. by exists data.
Qed.

#[export] Instance DiskFs_reads : WholeReads DiskFs_FileSystem (λ fs p, disk_files fs !! p).
Proof. intros p fs f size data. cbn. intros Ho Hd. rewrite Hd in Ho. by injection Ho. Qed.

Definition world_of (room : nat) : World DiskFs := mkWorld (mkDiskFs ∅ room) [].

Lemma main_prints_witness :
  (4 < 5)%nat ∧ (refused (world_of 600) ∨ ∃ fs' file,
    main (λ s, s) 5 (world_of 600) = (Done tt, mkWorld fs' ([] ++ main_output)) ∧
    disk_files fs' !! path = Some file ∧ strict_table Options_default make_table file).
Proof.
  split; [lia|]. destruct (main_prints (OutFile := Disk) (written_to := disk_bytes)
    (contents_of := λ fs p, disk_files fs !! p) (HW := Disk_WholeWrite) (λ s, s) 5 (world_of 600) ltac:(lia)) as [_ H0]. exact H0.
Defined.

(** With room for the table it prints, and with too little it panics. *)
Example main_on_disk :
  match main (λ s, s) 5 (world_of 600), main (λ s, s) 5 (world_of 100) with
  | (Done _, w1), (Fail Panicked, w2) => bool_decide (w_out w1 = main_output ∧ w_out w2 = [])
  | _, _ => false
  end = true.
Proof. by vm_compute. Qed.
